(* ===== verification/_CoqProject ===== *)
-Q . S2P
Prelude.v
WalFormat.v
Fault.v
Kernel.v
Arena.v
SkipList.v
Memtable.v
MemtableSteps.v
MemtableShape.v
MemtableMoves.v
MemtableLin.v
MemtableSolo.v
Bloom.v
BlockCache.v
World.v
Names.v
TableFormat.v
SSTable.v
Layers.v
Compaction.v
CompactionSpec.v
CompactionRun.v
Store.v
CompactionFail.v
Scan.v
Replay.v
LogSpec.v
WalWriter.v
WalDisk.v
WalWriterSpec.v
WalLog.v
WalLife.v
GroupCommit.v
WalThreads.v
WalThreadsSpec.v
WalThreadsLife.v
Engine.v
EngineSpec.v
EngineWrite.v
EngineRecovery.v
EngineLife.v
EngineFail.v
EngineThreads.v
EngineThreadsSpec.v
EngineThreadsLife.v
Cli.v
CliSpec.v
