(* ===== verification/Prelude.v ===== *)
(** * A verification library for the LSM-tree storage engine

    The program is a key-value store in C++: [LSMEngine] keeps recent writes in
    a write-ahead log and a memtable, flushes the memtable to level-0 tables, and
    merges tables into level 1 when four have gathered.  [lsm_cli] runs it from
    a command line.  This library models all of [src/src/] and
    [src/tools/lsm_cli.cpp] and proves what the store promises to its user.

    ** Parts

    Each part is a file with a Module of the same name; the file and function
    names of the source are kept.

    - [Prelude]: bytes, [std::string]'s order, little-endian integers, 64-bit
      wrap-around, sorted association lists, shared tactics and hints.
    - [Fault] ([util/fault.*]): the registry of fault points; every component
      consults it where the source does.
    - [World]: what tables and compaction act on (files, outcomes of calls, block
      cache, fault registry) and the monad [M] of results over it.
    - [Arena], [SkipList], [Memtable] ([memtable/]): allocation; a node store
      with explicit links and dereferences; the map with its counters.
      [MemtableOps]/[MemtableSpec] is what the engine relies on.
    - [MemtableSteps] ([memtable/skip_list.h] again): the memtable called by any
      number of threads, one step per access to shared memory.  [MemtableShape]
      has the invariant, [MemtableMoves] each access, [MemtableLin] the
      theorems, [MemtableSolo] the comparison with [Memtable].
    - [Bloom], [BlockCache], [TableFormat], [SSTable] ([sstable/]): filter, LRU
      cache, the file as bytes, and the calls on files around it.
    - [Layers]: the meaning of a stack of sorted runs ([layered], [visible], [merged]).
    - [Compaction], [CompactionSpec], [CompactionRun] ([compaction/]): the
      compactor, its phases, a whole run.  [Names]: table names, written and read
      back.  [Store]: the tables of a directory and what a run does to them.
      [CompactionFail]: the same when calls fail.
    - [WalFormat] ([wal/wal_reader.cpp], the record layout of [wal_writer.cpp]):
      encoding, CRC, [WAL::recover].
    - [Kernel]: the system calls and [io_uring] as the class [Uring], their
      documented behaviour as [UringSpec] over an abstract kernel, and a scripted
      kernel that satisfies it.  [WalWriter] ([wal/wal_writer.cpp]) is the writer
      over any [Uring]; [WalDisk], [WalWriterSpec], [WalLife] its invariant and
      properties; [WalLog] the proof that it meets [LogSpec], the interface
      the engine's theorems use.
    - [WalThreads] ([wal/wal_writer.cpp] again): the log called by any number of
      threads, a step per critical section, over the same writer.  [GroupCommit]
      is the protocol of [waitDurable] alone, with positions instead of a log;
      [WalThreadsSpec] has the invariant that ties them, [WalThreadsLife] the
      theorems.
    - [Scan], [Engine] ([db/lsm_engine.*]): the merge of a range scan; the
      engine over any memtable and any log.  [EngineSpec], [EngineWrite],
      [EngineRecovery] prove the operations one by one; [Replay] says what
      records of a log do to a memtable; [EngineLife] puts lives together;
      [EngineFail] has operations whose file calls fail.
    - [EngineThreads] ([db/lsm_engine.cpp] again): the engine called by any number
      of threads over the log of [WalThreads]; what a call does with [mu_] held is
      cut where waiting threads can come in between, and each section is a
      computation of [Engine].  [EngineThreadsSpec] has the invariant (tables and
      memtable against the history of all records), [EngineThreadsLife] the
      theorems.
    - [Cli], [CliSpec] ([tools/lsm_cli.cpp]): the command line tool, from the
      bytes of its input to those it prints.

    ** What is proved

    - The engine: any run of operations answers as a finite map
      ([engine_refines_map]); lookups and scans are exact ([engine_get_exact],
      [scan_exact]); whatever calls on files or the log fail, an operation that
      throws leaves an engine that shows the contents before it or those it
      asked for, and one that returns those it asked for, except for tables a
      compaction could not open ([failing_calls_keep_contents]); whatever fault point or failing log write ends
      a durable life, the next one stands for the operations that returned and
      perhaps the one under way ([engine_crash_safe]); in asynchronous mode every
      key shows its value at some moment since the last sync or flush
      ([engine_crash_async]); closing and opening again keeps everything
      ([reopen_roundtrip]).  With any number of callers: a put, delete or sync
      that returned in durable mode survives every later death, whatever the others
      do ([returned_call_survives]); who gets the lock sees the last of all writes
      ([reads_are_current]); state and steps stay well formed
      ([engine_well_formed]); the lock comes free, also when a flush must wait for
      another thread's group commit ([lock_comes_free]); one thread alone runs
      the sequential model ([sections_alone]).  What survives a death is shown for
      runs whose table calls succeed, and only for these: after a failed flush an
      overwritten value can come back ([failed_publish_returns]), after a failed
      compaction a deleted key ([ignored_removal_resurrects]).
    - Compaction: a run that returns has replaced the tables by their merge
      ([compaction_correct]); any other run leaves the same contents
      ([compaction_crash_safe]); whatever calls fail, the inputs are there
      unless what could be read of them has been merged
      ([failing_calls_keep_tables]).
    - The log: a wait that returned has made its record survive, for one thread
      ([waited_survives]) and in any interleaving of appends, waits and clears
      ([returned_wait_survives]); deaths keep the order ([death_keeps_order]);
      appending never touches freed or absent objects ([append_safe]); draining
      and recovery end ([drain_ends], [recover_whole_or_throw]).  One thread leads
      and its descriptor is not closed ([one_leader_at_work]), no wakeup is lost
      ([wait_can_return]), the threads refine [GroupCommit]
      ([threads_follow_protocol]), and one thread alone does what the sequential
      model says ([alone_waits]).  Recovery returns the records that are there
      ([recover_log], [recover_torn_tail], [recover_sound],
      [recover_skips_damaged]).  Three faults of the writer are exhibited
      ([wait_misses_a_record], [failed_clear_leaves_dead_ring],
      [cut_log_takes_no_records]).
    - Tables: file round trip, atomic publication, exact point lookups, names;
      the filter has no false negatives and is memory-safe on any bytes.
    - Memtable and cache refine a sorted run and a bounded LRU list; the arena's
      ranges are disjoint; the fault registry fires exactly when armed to.
    - Under concurrent calls the memtable is linearizable
      ([memtable_linearizable]), dereferences only nodes and cells that exist
      ([accesses_safe]), its levels stay sorted chains ([levels_never_cycle]), every
      call ends once the others leave it a bounded number of accesses
      ([calls_end]), and with one writer
      the counters are exact ([single_writer_rep]); with several they need not be
      ([overwrites_miscount]).  One thread alone does what [Memtable] says
      ([calls_alone]).
    - The tool prints what a finite map would answer to the commands of its
      input ([tool_shows_map]), whose lines are parsed as written ([lines_parsed]).

    ** Conventions, bounds and fuel

    Machine integers are [Z] with their wrap-around written out.  A result is a
    value, an exception, the death of the process, or undefined behaviour
    ([Undefined]); theorems exclude the last.  Loops without structural recursion
    carry fuel, and running out of it is [Undefined], so that theorems show it
    is enough: the number of entries not yet consumed for merges and scans, the
    length of the buffer for recovery, the events the kernel still holds plus six
    per request (it is submitted at most six times) for the log's loops, two
    rounds for the wait of a single thread, one line per byte of input (and one
    more) for the tool's session.  The height of a new node is a parameter
    between 1 and 12 of the step that draws it.

    Bounds appear as hypotheses: a record's aligned size is at most what is
    written in one piece ([fits], [loggable]; see below), the log's file ends below 2^63, table numbers
    stay below [INT_MAX] ([numbers_bounded]), a memtable being flushed holds at
    most 2^20 entries ([flushable]).  [check_all] tests all of them along a run;
    the witnesses compute it on a session that flushes four times and compacts.

    A crash is the death of the process: what was written to files stays, and of
    the log's requests in flight any may still be carried out, in any order,
    whole or in part.  Theorems on the log rest on two assumptions about the
    system, which they name.

    - Pieces.  A request that is in flight, fails, is cancelled or completes short
      may have landed in part ([step_land_part]), unless it has at most [k_whole]
      bytes ([whole_write], a parameter of [UringSpec]).  512 is safe to take for
      it: the log is opened with [O_DIRECT], which transfers whole blocks.  The
      theorems hold for records up to that size, and on a system where nothing
      fails ([b = true]) up to [MAX_RW_COUNT].  For a longer record the promise is
      false: torn, it can bring back a write that never happened
      ([torn_record_recovers_value_bytes]).  How recovery meets a log cut at any
      byte is [recover_torn_tail].
    - Submissions.  [io_uring_submit] takes every entry it is given ([k_accepts],
      part of [d_ready]); otherwise [wait_misses_a_record] shows a wait that
      returns without its record.  [append_safe] and [drain_ends] do without.

    The index [b] of the log's and the engine's predicates says that no call of
    the log fails; failing calls on tables and the directory are the list [io] of
    [World], empty where none fails.

    ** Not modelled

    - Loss of power: [fsync] can fail here but has no other effect on tables; the
      log's model keeps the synced contents apart but no theorem loses the rest.
    - Deaths of an engine one of whose table calls has failed: [EngineFail] and
      [CompactionFail] say what such an engine shows while it lives, and the
      examples named above why no more is true of the next life.  The threads of
      [EngineThreads] find table calls that succeed.  Failing allocations, other
      than those of the log and the arena.
    - Threads: no call is followed after a [clear] that threw (the others find
      a dead ring: [failed_clear_leaves_dead_ring]), and only waits after an append
      that threw although its record was taken (memtable and log differ from then
      on).  A lookup or a scan of the engine is one step: it holds the lock shared,
      and meets other readers only in the block cache, each of whose operations
      is under a lock of its own.  The engine's constructor and destructor run
      alone.  Accesses to the shared memory of
      the skip list are sequentially consistent, which the source's orderings
      are weaker than; its iterators beside inserts, and several processes on
      one directory, are left out.
    - Tests and benchmarks; messages on standard error.

    ** Plan

    Next: failing table calls under concurrent callers; records of several blocks
    that show when they are torn; shorter proofs in [WalWriterSpec].

    This file is the prelude: bytes and byte strings, the order of
    [std::string], little-endian integers, association lists sorted by key,
    and the tactics and hint databases shared by all components. *)

From Stdlib Require Export ZArith Lia.
From Stdlib Require Export Init.Byte Strings.Byte.
From stdpp Require Export sorting.
From stdpp Require Export base gmap numbers strings list.

Open Scope Z_scope.

(** ** Automation *)

Create HintDb lsm.
Create Rewrite HintDb lsm_len.

(** Destructs every match whose scrutinee is a variable or a boolean test. *)
Ltac case_all :=
  repeat (case_bool_decide || case_decide || case_match); simplify_eq/=.

Lemma mjoin_cons {A} (x : list A) (l : list (list A)) : mjoin (x :: l) = x ++ mjoin l.
Proof. done. Qed.

Lemma mjoin_app {A} (l1 l2 : list (list A)) : mjoin (l1 ++ l2) = mjoin l1 ++ mjoin l2.
Proof. induction l1 as [|x l1 IH]; [done|]. cbn [app]. by rewrite !mjoin_cons, IH, app_assoc. Qed.

Lemma mjoin_singleton {A} (x : list A) : mjoin [x] = x.
Proof. rewrite mjoin_cons. apply app_nil_r. Qed.

(** A list of lists around one of its elements. *)
Lemma mjoin_middle {A} (l : list (list A)) i x :
  l !! i = Some x -> mjoin l = mjoin (take i l) ++ x ++ mjoin (drop (S i) l).
Proof. intros H. rewrite <- (take_drop_middle l i x H) at 1. by rewrite mjoin_app, mjoin_cons. Qed.

Lemma filter_id {A} (P : A -> Prop) `{!forall x, Decision (P x)} (l : list A) :
  (forall x, x ∈ l -> P x) -> filter P l = l.
Proof.
  induction l as [|x l IH]; intros Hall; [done|]. rewrite filter_cons_True, IH; [done|set_solver..].
Qed.

(** Normalises lengths of the lists that the codecs build. *)
Ltac len := autorewrite with lsm_len in *; simpl in *; try lia.

(** [Z] arithmetic with division and modulo by constants. *)
Ltac div_lia := Z.to_euclidean_division_equations; lia.

#[export] Hint Rewrite @length_app @length_replicate @length_fmap @length_take
  @length_drop @length_reverse : lsm_len.

(** ** Bytes

    [char]/[uint8_t] are [Byte.byte]; [std::string] and byte buffers are lists
    of bytes. *)

Abbreviation byte := Init.Byte.byte (only parsing).
Abbreviation str := (list Init.Byte.byte) (only parsing).

#[export] Instance byte_eq_dec : EqDecision Init.Byte.byte := Byte.byte_eq_dec.
#[export] Program Instance byte_countable : Countable Init.Byte.byte :=
  inj_countable Byte.to_N Byte.of_N _.
Next Obligation. intros b. apply Byte.of_to_N. Qed.

Definition byte_Z (b : byte) : Z := Z.of_N (Byte.to_N b).

(** Conversion to [uint8_t] keeps the low eight bits. *)
Definition Z_byte (z : Z) : byte :=
  match Byte.of_N (Z.to_N (z mod 256)) with Some b => b | None => x00 end.

Lemma byte_Z_range b : 0 <= byte_Z b < 256.
Proof. unfold byte_Z. pose proof (Byte.to_N_bounded b). lia. Qed.

Lemma Z_byte_Z z : byte_Z (Z_byte z) = z mod 256.
Proof.
  unfold byte_Z, Z_byte. pose proof (Z.mod_pos_bound z 256 ltac:(lia)).
  destruct (Byte.of_N _) as [b|] eqn:E.
  - apply Byte.to_of_N in E. rewrite E. lia.
  - apply Byte.of_N_None_iff in E. lia.
Qed.

Lemma byte_Z_byte b : Z_byte (byte_Z b) = b.
Proof.
  unfold Z_byte. rewrite Z.mod_small by apply byte_Z_range.
  unfold byte_Z. by rewrite N2Z.id, Byte.of_to_N.
Qed.

#[export] Instance byte_Z_inj : Inj (=) (=) byte_Z.
Proof. intros a b H. by rewrite <- (byte_Z_byte a), H, byte_Z_byte. Qed.

(** A string literal as bytes. *)
Definition bs (s : string) : str := String.list_byte_of_string s.

(** [buf.size()] *)
Abbreviation zlen l := (Z.of_nat (length l)).

(** Bytes [off, off+n) of a buffer. *)
Definition slice (off n : Z) (buf : str) : str :=
  take (Z.to_nat n) (drop (Z.to_nat off) buf).

Lemma slice_length off n buf :
  0 <= off -> 0 <= n -> off + n <= zlen buf -> length (slice off n buf) = Z.to_nat n.
Proof. intros. unfold slice. len. Qed.

(** The slice right after a known prefix, of a known length. *)
Lemma slice_app_mid (a b c : str) off n :
  off = zlen a -> n = zlen b -> slice off n (a ++ b ++ c) = b.
Proof.
  intros -> ->. unfold slice. rewrite !Nat2Z.id.
  rewrite drop_app_length. apply take_app_length.
Qed.

Lemma slice_app_r (a b : str) off n :
  zlen a <= off -> slice off n (a ++ b) = slice (off - zlen a) n b.
Proof.
  intros. unfold slice. rewrite drop_app_ge by lia. do 2 f_equal. lia.
Qed.

Lemma slice_app_l (a b : str) off n :
  0 <= off -> 0 <= n -> off + n <= zlen a -> slice off n (a ++ b) = slice off n a.
Proof.
  intros. unfold slice. rewrite drop_app_le by lia.
  rewrite take_app_le; [done|]. rewrite length_drop. lia.
Qed.

Lemma slice_split off n m buf :
  0 <= off -> 0 <= n -> 0 <= m -> slice off (n + m) buf = slice off n buf ++ slice (off + n) m buf.
Proof.
  intros. unfold slice. rewrite !Z2Nat.inj_add, <- drop_drop by done.
  by rewrite <- take_take_drop.
Qed.

Lemma slice_one off buf b : 0 <= off -> buf !! Z.to_nat off = Some b -> slice off 1 buf = [b].
Proof. intros Ho Hb. unfold slice. rewrite (drop_S _ b) by done. done. Qed.

(** A random generator is the stream of numbers it will return. *)
Definition Rng : Type := nat -> Z.
Definition rng_tail (r : Rng) : Rng := fun i => r (S i).

(** ** Machine words *)

Definition wrap (w z : Z) : Z := z mod 2 ^ w.
Abbreviation u32 := (wrap 32).
Abbreviation u64 := (wrap 64).
Definition UINT32_MAX : Z := 2 ^ 32 - 1.
Definition UINT64_MAX : Z := 2 ^ 64 - 1.

Lemma wrap_range w z : 0 <= w -> 0 <= wrap w z < 2 ^ w.
Proof. intros. apply Z.mod_pos_bound. lia. Qed.

Lemma wrap_small w z : 0 <= z < 2 ^ w -> wrap w z = z.
Proof. apply Z.mod_small. Qed.

Lemma wrap_bits w z i : 0 <= w -> Z.testbit (wrap w z) i = (i <? w) && Z.testbit z i.
Proof.
  intros. unfold wrap. destruct (Z.ltb_spec i w).
  - destruct (Z.ltb_spec i 0); [by rewrite !Z.testbit_neg_r|]. by rewrite Z.mod_pow2_bits_low.
  - by rewrite Z.mod_pow2_bits_high by lia.
Qed.

Lemma wrap_lxor w a b : 0 <= w -> wrap w (Z.lxor a b) = Z.lxor (wrap w a) (wrap w b).
Proof.
  intros. apply Z.bits_inj'. intros i _.
  rewrite Z.lxor_spec, !wrap_bits, Z.lxor_spec by done. by destruct (i <? w).
Qed.

Lemma wrap_land w a b : 0 <= w -> wrap w (Z.land a b) = Z.land (wrap w a) (wrap w b).
Proof.
  intros. apply Z.bits_inj'. intros i _.
  rewrite Z.land_spec, !wrap_bits, Z.land_spec by done. by destruct (i <? w).
Qed.

Lemma wrap_lor w a b : 0 <= w -> wrap w (Z.lor a b) = Z.lor (wrap w a) (wrap w b).
Proof.
  intros. apply Z.bits_inj'. intros i _.
  rewrite Z.lor_spec, !wrap_bits, Z.lor_spec by done. by destruct (i <? w).
Qed.

Lemma lxor_range w a b :
  0 <= w -> 0 <= a < 2 ^ w -> 0 <= b < 2 ^ w -> 0 <= Z.lxor a b < 2 ^ w.
Proof.
  intros Hw Ha Hb. rewrite <- (wrap_small w a), <- (wrap_small w b), <- wrap_lxor by done.
  by apply wrap_range.
Qed.

Lemma land_range w a b : 0 <= w -> 0 <= a < 2 ^ w -> 0 <= b < 2 ^ w -> 0 <= Z.land a b < 2 ^ w.
Proof.
  intros Hw Ha Hb. rewrite <- (wrap_small w a), <- (wrap_small w b), <- wrap_land by done.
  by apply wrap_range.
Qed.

Lemma lor_range w a b : 0 <= w -> 0 <= a < 2 ^ w -> 0 <= b < 2 ^ w -> 0 <= Z.lor a b < 2 ^ w.
Proof.
  intros Hw Ha Hb. rewrite <- (wrap_small w a), <- (wrap_small w b), <- wrap_lor by done.
  by apply wrap_range.
Qed.

(** ** Little-endian integers: what [memcpy]/[write] of an integer lays out *)

Fixpoint enc_le (n : nat) (z : Z) : str :=
  match n with
  | O => []
  | S n => Z_byte z :: enc_le n (z / 256)
  end.

Fixpoint dec_le (l : str) : Z :=
  match l with
  | [] => 0
  | b :: l => byte_Z b + 256 * dec_le l
  end.

Lemma length_enc_le n z : length (enc_le n z) = n.
Proof. revert z. induction n; intros; simpl; auto. Qed.
#[export] Hint Rewrite length_enc_le : lsm_len.

Lemma dec_le_nonneg l : 0 <= dec_le l.
Proof. induction l as [|b l IH]; simpl; [lia|]. pose proof (byte_Z_range b). lia. Qed.

Lemma dec_le_bound l : 0 <= dec_le l < 2 ^ (8 * zlen l).
Proof.
  induction l as [|b l IH]; cbn [dec_le length]; [simpl; lia|].
  pose proof (byte_Z_range b).
  replace (8 * Z.of_nat (S (length l))) with (8 + 8 * zlen l) by lia.
  rewrite Z.pow_add_r by lia. change (2 ^ 8) with 256. lia.
Qed.

Lemma dec_enc_le n z : dec_le (enc_le n z) = z mod 2 ^ (8 * Z.of_nat n).
Proof.
  revert z. induction n as [|n IH]; intros z; cbn [enc_le dec_le].
  - change (8 * Z.of_nat 0) with 0. by rewrite Z.mod_1_r.
  - rewrite IH, Z_byte_Z.
    replace (8 * Z.of_nat (S n)) with (8 + 8 * Z.of_nat n) by lia.
    rewrite Z.pow_add_r by lia. change (2 ^ 8) with 256.
    rewrite Z.rem_mul_r by lia. lia.
Qed.

Lemma dec_enc_le_small n z : 0 <= z < 2 ^ (8 * Z.of_nat n) -> dec_le (enc_le n z) = z.
Proof. intros. rewrite dec_enc_le. by apply Z.mod_small. Qed.

Lemma enc_dec_le l : enc_le (length l) (dec_le l) = l.
Proof.
  induction l as [|b l IH]; cbn [enc_le dec_le length]; [done|].
  pose proof (byte_Z_range b). f_equal.
  - apply (inj byte_Z). rewrite Z_byte_Z, (Z.mul_comm 256), Z.mod_add by lia.
    apply Z.mod_small. lia.
  - rewrite (Z.mul_comm 256), Z.div_add, Z.div_small by lia. done.
Qed.

(** [memcpy(&v, buf + off, n)] into an unsigned integer. *)
Definition read_le (n off : Z) (buf : str) : Z := dec_le (slice off n buf).

Lemma read_le_app (a c : str) n off z :
  off = zlen a -> 0 <= z < 2 ^ (8 * Z.of_nat n) ->
  read_le (Z.of_nat n) off (a ++ enc_le n z ++ c) = z.
Proof.
  intros -> Hz. unfold read_le. rewrite slice_app_mid; len.
  by apply dec_enc_le_small.
Qed.

Lemma read_le_range n off buf : 0 <= n -> 0 <= read_le n off buf < 2 ^ (8 * n).
Proof.
  intros. unfold read_le, slice. pose proof (dec_le_bound (take (Z.to_nat n) (drop (Z.to_nat off) buf))) as [Hl Hu].
  split; [done|]. eapply Z.lt_le_trans; [done|].
  apply Z.pow_le_mono_r; [lia|]. len.
Qed.

Lemma slice_shift (a b : str) d n : 0 <= d -> slice (zlen a + d) n (a ++ b) = slice d n b.
Proof. intros. rewrite slice_app_r by lia. f_equal. lia. Qed.

Lemma read_le_shift (a b : str) d n : 0 <= d -> read_le n (zlen a + d) (a ++ b) = read_le n d b.
Proof. intros. unfold read_le. by rewrite slice_shift. Qed.

(** ** The order of [std::string]: lexicographic on unsigned bytes *)

Fixpoint str_compare (a b : str) : comparison :=
  match a, b with
  | [], [] => Eq
  | [], _ :: _ => Lt
  | _ :: _, [] => Gt
  | x :: a, y :: b =>
      match byte_Z x ?= byte_Z y with Eq => str_compare a b | c => c end
  end.

(** [operator<], [operator<=] and [operator==] of [std::string]. *)
Definition str_ltb (a b : str) : bool :=
  match str_compare a b with Lt => true | _ => false end.
Definition str_leb (a b : str) : bool := negb (str_ltb b a).
Definition str_eqb (a b : str) : bool := bool_decide (a = b).

Definition str_lt (a b : str) : Prop := str_compare a b = Lt.

Declare Scope lsm_scope.
Delimit Scope lsm_scope with lsm.
Infix "<s" := str_lt (at level 70) : lsm_scope.
Infix "<?s" := str_ltb (at level 65) : lsm_scope.
Infix "<=?s" := str_leb (at level 65) : lsm_scope.
Infix "=?s" := str_eqb (at level 65) : lsm_scope.
Open Scope lsm_scope.

Lemma str_compare_eq a b : str_compare a b = Eq <-> a = b.
Proof.
  revert b. induction a as [|x a IH]; intros [|y b]; simpl; try naive_solver.
  destruct (byte_Z x ?= byte_Z y) eqn:E.
  - apply Z.compare_eq_iff in E. apply (inj byte_Z) in E as ->. rewrite IH. naive_solver.
  - split; [done|]. intros [= -> ->]. by rewrite Z.compare_refl in E.
  - split; [done|]. intros [= -> ->]. by rewrite Z.compare_refl in E.
Qed.

Lemma str_compare_antisym a b : str_compare b a = CompOpp (str_compare a b).
Proof.
  revert b. induction a as [|x a IH]; intros [|y b]; simpl; try done.
  rewrite (Z.compare_antisym (byte_Z x)).
  destruct (byte_Z x ?= byte_Z y); simpl; auto.
Qed.

Lemma str_lt_trans a b c : a <s b -> b <s c -> a <s c.
Proof.
  unfold str_lt. revert b c. induction a as [|x a IH]; intros [|y b] [|z c]; simpl; try done.
  destruct (Z.compare_spec (byte_Z x) (byte_Z y)) as [E|E|E]; try done;
  destruct (Z.compare_spec (byte_Z y) (byte_Z z)) as [F|F|F]; try done; intros.
  - rewrite E, F, Z.compare_refl. eauto.
  - rewrite E. by apply Z.compare_lt_iff in F as ->.
  - rewrite <- F. by apply Z.compare_lt_iff in E as ->.
  - assert (byte_Z x < byte_Z z) as G by lia. by apply Z.compare_lt_iff in G as ->.
Qed.

Lemma str_lt_irrefl a : ~ a <s a.
Proof. unfold str_lt. by rewrite (proj2 (str_compare_eq a a) eq_refl). Qed.

#[export] Instance str_lt_dec : RelDecision str_lt.
Proof. intros a b. unfold str_lt. apply _. Defined.
#[export] Instance str_lt_trans_inst : Transitive str_lt.
Proof. intros a b c. apply str_lt_trans. Qed.
#[export] Instance str_lt_strict : StrictOrder str_lt.
Proof. split; [intros a; apply str_lt_irrefl | apply _]. Qed.

Lemma str_lt_trichotomy a b : a <s b \/ a = b \/ b <s a.
Proof.
  unfold str_lt. rewrite (str_compare_antisym a b).
  destruct (str_compare a b) eqn:E; simpl; auto.
  right. left. by apply str_compare_eq.
Qed.

Lemma str_ltb_lt a b : a <?s b = true <-> a <s b.
Proof. unfold str_ltb, str_lt. by destruct (str_compare a b). Qed.
Lemma str_ltb_ge a b : a <?s b = false <-> b = a \/ b <s a.
Proof.
  rewrite <- not_true_iff_false, str_ltb_lt.
  destruct (str_lt_trichotomy a b) as [H|[->|H]]; split.
  - done.
  - intros [->|H'] _; [by apply str_lt_irrefl in H|]. by apply (str_lt_irrefl a), (str_lt_trans a b a).
  - auto.
  - intros _. apply str_lt_irrefl.
  - auto.
  - intros _ H'. by apply (str_lt_irrefl a), (str_lt_trans a b a).
Qed.
Lemma str_leb_le a b : a <=?s b = true <-> a = b \/ a <s b.
Proof. unfold str_leb. rewrite negb_true_iff. apply str_ltb_ge. Qed.
Lemma str_eqb_eq a b : a =?s b = true <-> a = b.
Proof. unfold str_eqb. apply bool_decide_eq_true. Qed.
Lemma str_ltb_irrefl a : a <?s a = false.
Proof. apply str_ltb_ge. auto. Qed.
Lemma str_lt_ne a b : a <s b -> a <> b.
Proof. intros H ->. by apply str_lt_irrefl in H. Qed.
Lemma str_lt_asym a b : a <s b -> ~ b <s a.
Proof. intros H H'. by apply (str_lt_irrefl a), (str_lt_trans a b a). Qed.
Lemma str_le_lt_trans a b c : ~ b <s a -> b <s c -> a <s c.
Proof.
  intros H1 H2. destruct (str_lt_trichotomy a b) as [H|[->|H]]; [|done|done].
  by eapply str_lt_trans.
Qed.
Lemma str_lt_le_trans a b c : a <s b -> ~ c <s b -> a <s c.
Proof.
  intros H1 H2. destruct (str_lt_trichotomy b c) as [H|[->|H]]; [|done|done].
  by eapply str_lt_trans.
Qed.
Lemma str_nlt_nil a : ~ a <s [].
Proof. unfold str_lt. by destruct a. Qed.

#[export] Hint Resolve str_lt_irrefl str_lt_trans str_lt_asym str_lt_ne str_nlt_nil : lsm.

(** Case analysis on how two strings compare. *)
Ltac str_cmp a b :=
  let H := fresh "Hcmp" in
  destruct (str_lt_trichotomy a b) as [H|[H|H]]; [|subst|].

(** Turns boolean comparisons of strings into propositions, everywhere. *)
Ltac str_prop :=
  repeat match goal with
  | H : _ <?s _ = true |- _ => apply str_ltb_lt in H
  | H : _ <?s _ = false |- _ => apply str_ltb_ge in H
  | H : _ <=?s _ = true |- _ => apply str_leb_le in H
  | H : _ =?s _ = true |- _ => apply str_eqb_eq in H
  end.

(** ** Association lists in key order

    What a sorted run of entries means: the memtable's level-0 chain, the data
    section of an SSTable and the output of a merge are all lists of
    key/payload pairs whose keys increase strictly. *)

Section assoc.
Context {A : Type}.
Implicit Types (k : str) (v : A) (l : list (str * A)).

Definition keys_sorted l : Prop := StronglySorted str_lt l.*1.

Fixpoint alookup k l : option A :=
  match l with
  | [] => None
  | (k', v) :: l => if k =?s k' then Some v else alookup k l
  end.

(** Insertion at the key's place; an existing key has its payload replaced. *)
Fixpoint ainsert k v l : list (str * A) :=
  match l with
  | [] => [(k, v)]
  | (k', v') :: l' =>
      if k' <?s k then (k', v') :: ainsert k v l'
      else if k' =?s k then (k, v) :: l'
      else (k, v) :: l
  end.

(** The entries whose key is at least [start]. *)
Definition afrom (start : str) l : list (str * A) :=
  List.filter (fun e => negb (e.1 <?s start)) l.

Lemma alookup_cons k k' v l :
  alookup k ((k', v) :: l) = if decide (k = k') then Some v else alookup k l.
Proof. simpl. unfold str_eqb. by case_bool_decide; case_decide. Qed.

Lemma alookup_app k l1 l2 :
  alookup k (l1 ++ l2) = match alookup k l1 with Some v => Some v | None => alookup k l2 end.
Proof.
  induction l1 as [|[k' v'] l1 IH]; [done|]. simpl. by destruct (k =?s k').
Qed.

Lemma alookup_Some_elem k v l : alookup k l = Some v -> (k, v) ∈ l.
Proof.
  induction l as [|[k' v'] l IH]; [done|].
  rewrite alookup_cons. case_decide; set_solver.
Qed.

Lemma alookup_None k l : alookup k l = None <-> k ∉ l.*1.
Proof.
  induction l as [|[k' v'] l IH]; [set_solver|].
  rewrite alookup_cons. case_decide; set_solver.
Qed.

Lemma keys_sorted_nil : keys_sorted [].
Proof. constructor. Qed.

Lemma keys_sorted_cons k v l :
  keys_sorted ((k, v) :: l) <-> (forall k', k' ∈ l.*1 -> k <s k') /\ keys_sorted l.
Proof.
  unfold keys_sorted. rewrite fmap_cons, StronglySorted_cons, Forall_forall. done.
Qed.

Lemma keys_sorted_app l1 l2 :
  keys_sorted (l1 ++ l2) <->
  (forall k1 k2, k1 ∈ l1.*1 -> k2 ∈ l2.*1 -> k1 <s k2) /\ keys_sorted l1 /\ keys_sorted l2.
Proof. unfold keys_sorted. by rewrite fmap_app, StronglySorted_app. Qed.

Lemma keys_sorted_NoDup l : keys_sorted l -> NoDup l.*1.
Proof.
  induction l as [|[k v] l IH]; [constructor|].
  rewrite keys_sorted_cons. intros [Hk Hl]. simpl. constructor; [|auto].
  intros H. by apply Hk, str_lt_irrefl in H.
Qed.

Lemma keys_sorted_elem_lookup l k v : keys_sorted l -> (k, v) ∈ l -> alookup k l = Some v.
Proof.
  induction l as [|[k' v'] l IH]; [set_solver|].
  rewrite keys_sorted_cons, alookup_cons. intros [Hk Hl] Hin.
  case_decide as Heq; [subst|set_solver].
  apply elem_of_cons in Hin as [?|Hin]; [congruence|].
  apply (list_elem_of_fmap_2 fst) in Hin. by apply Hk, str_lt_irrefl in Hin.
Qed.

Lemma alookup_lt_head k k' v l : keys_sorted ((k', v) :: l) -> k <s k' -> alookup k ((k', v) :: l) = None.
Proof.
  rewrite keys_sorted_cons. intros [Hk _] Hlt. apply alookup_None. simpl.
  rewrite not_elem_of_cons. split; [by apply str_lt_ne|].
  intros H%Hk. by apply (str_lt_asym k k').
Qed.

Lemma elem_of_ainsert_keys k' k v l : k' ∈ (ainsert k v l).*1 <-> k' = k \/ k' ∈ l.*1.
Proof.
  induction l as [|[k0 v0] l IH]; simpl; [set_solver|].
  destruct (k0 <?s k) eqn:E1; [set_solver|].
  destruct (k0 =?s k) eqn:E2; [|set_solver].
  str_prop. subst. set_solver.
Qed.

Lemma ainsert_Forall (P : str * A -> Prop) k v l : P (k, v) -> Forall P l -> Forall P (ainsert k v l).
Proof.
  intros Hk Hl. induction Hl as [|[k0 v0] l H0 Hl IH]; simpl; [by repeat constructor|].
  repeat case_match; by repeat constructor.
Qed.

Lemma ainsert_sorted k v l : keys_sorted l -> keys_sorted (ainsert k v l).
Proof.
  induction l as [|[k0 v0] l IH]; simpl; intros Hs.
  { apply keys_sorted_cons. set_solver. }
  apply keys_sorted_cons in Hs as Hs'. destruct Hs' as [Hk Hl].
  destruct (k0 <?s k) eqn:E1; [|destruct (k0 =?s k) eqn:E2]; str_prop.
  - apply keys_sorted_cons. split; [|auto].
    intros k' [->|]%elem_of_ainsert_keys; auto.
  - subst. by apply keys_sorted_cons.
  - apply keys_sorted_cons. split; [|done].
    destruct E1 as [->|E1]; [by rewrite (proj2 (str_eqb_eq k0 k0) eq_refl) in E2|].
    intros k'. simpl. rewrite elem_of_cons. intros [->|?%Hk]; eauto using str_lt_trans.
Qed.

Lemma alookup_ainsert k' k v l :
  alookup k' (ainsert k v l) = if decide (k' = k) then Some v else alookup k' l.
Proof.
  induction l as [|[k0 v0] l IH]; [apply alookup_cons|]. cbn [ainsert].
  destruct (k0 <?s k) eqn:E1; [|destruct (k0 =?s k) eqn:E2]; str_prop;
    rewrite ?alookup_cons, ?IH.
  - repeat case_decide; subst; try done. by apply str_lt_irrefl in E1.
  - subst. by repeat case_decide.
  - by repeat case_decide.
Qed.

(** Two sorted runs with the same lookups are the same run. *)
Lemma keys_sorted_ext l1 l2 :
  keys_sorted l1 -> keys_sorted l2 -> (forall k, alookup k l1 = alookup k l2) -> l1 = l2.
Proof.
  revert l2. induction l1 as [|[k1 v1] l1 IH]; intros [|[k2 v2] l2] H1 H2 Heq; [done|..].
  - specialize (Heq k2). rewrite alookup_cons in Heq. by case_decide.
  - specialize (Heq k1). rewrite alookup_cons in Heq. by case_decide.
  - assert (k1 = k2) as <-.
    { str_cmp k1 k2; [|done|].
      - specialize (Heq k1). rewrite (alookup_lt_head k1 k2), alookup_cons in Heq by done. by case_decide.
      - specialize (Heq k2). rewrite (alookup_lt_head k2 k1), alookup_cons in Heq by done. by case_decide. }
    assert (v1 = v2) as <-.
    { specialize (Heq k1). rewrite !alookup_cons in Heq. by case_decide; simplify_eq. }
    f_equal. apply keys_sorted_cons in H1 as [Hk1 H1], H2 as [Hk2 H2].
    apply IH; [done..|]. intros k. specialize (Heq k). rewrite !alookup_cons in Heq.
    case_decide; [subst|done].
    transitivity (@None A); [|symmetry]; apply alookup_None; intros H;
      [apply Hk1 in H|apply Hk2 in H]; by apply str_lt_irrefl in H.
Qed.

Lemma elem_of_afrom e start l : e ∈ afrom start l <-> e ∈ l /\ ~ e.1 <s start.
Proof.
  unfold afrom. rewrite !list_elem_of_In, filter_In, negb_true_iff, <- not_true_iff_false.
  by rewrite str_ltb_lt.
Qed.

Lemma afrom_cons_lt e start l : e.1 <s start -> afrom start (e :: l) = afrom start l.
Proof. intros H%str_ltb_lt. unfold afrom. simpl. by rewrite H. Qed.

Lemma afrom_all start l : (forall k, k ∈ l.*1 -> ~ k <s start) -> afrom start l = l.
Proof.
  induction l as [|[k v] l IH]; intros H; [done|]. unfold afrom. simpl.
  destruct (k <?s start) eqn:E; str_prop.
  - exfalso. eapply H; [|done]. set_solver.
  - simpl. f_equal. apply IH. set_solver.
Qed.

Lemma afrom_none start l : (forall k, k ∈ l.*1 -> k <s start) -> afrom start l = [].
Proof.
  induction l as [|e l IH]; intros H; [done|].
  rewrite afrom_cons_lt by (apply H; set_solver). apply IH. set_solver.
Qed.

Lemma afrom_nil l : afrom [] l = l.
Proof. apply afrom_all. intros k _. apply str_nlt_nil. Qed.

Lemma afrom_app start l1 l2 : afrom start (l1 ++ l2) = afrom start l1 ++ afrom start l2.
Proof. apply List.filter_app. Qed.

Lemma afrom_sorted start l : keys_sorted l -> keys_sorted (afrom start l).
Proof.
  induction l as [|[k v] l IH]; [done|]. rewrite keys_sorted_cons. intros [Hk Hl].
  unfold afrom. simpl. destruct (k <?s start); simpl; [by apply IH|].
  apply keys_sorted_cons. split; [|by apply IH].
  intros k' (e & -> & [He _]%elem_of_afrom)%list_elem_of_fmap. apply Hk.
  by apply list_elem_of_fmap_2.
Qed.

Lemma alookup_afrom k start l :
  alookup k (afrom start l) = if decide (k <s start) then None else alookup k l.
Proof.
  induction l as [|[k0 v0] l IH]; [by case_decide|].
  unfold afrom. cbn [List.filter fst]. destruct (k0 <?s start) eqn:E; cbn [negb]; str_prop.
  - fold (afrom start l). rewrite IH, alookup_cons.
    case_decide; [done|]. case_decide; [subst; done|done].
  - rewrite !alookup_cons. fold (afrom start l). rewrite IH.
    destruct (decide (k = k0)) as [->|]; [|done].
    case_decide; [|done]. destruct E as [->|E]; [by apply str_lt_irrefl in H|].
    by apply (str_lt_asym k0 start) in H.
Qed.

(** A sorted run splits at any key; insertion happens at that split. *)
Lemma split_at_key k l :
  keys_sorted l -> exists la lb, l = la ++ lb /\
    (forall k', k' ∈ la.*1 -> k' <s k) /\ (forall k', k' ∈ lb.*1 -> ~ k' <s k).
Proof.
  induction l as [|[k0 v0] l IH]; intros Hs.
  { exists [], []. split_and!; [done|set_solver..]. }
  apply keys_sorted_cons in Hs as [Hk Hs].
  destruct (decide (k0 <s k)) as [Hlt|Hge].
  - destruct (IH Hs) as (la & lb & -> & Ha & Hb).
    exists ((k0, v0) :: la), lb. split_and!; [done| |done].
    simpl. intros k' [->|?]%elem_of_cons; auto.
  - exists [], ((k0, v0) :: l). split_and!; [done|set_solver|].
    simpl. intros k' [->|?%Hk]%elem_of_cons; [done|].
    intros H'. apply Hge. by eapply str_lt_trans.
Qed.

Lemma ainsert_app_lt k v la lb :
  (forall k', k' ∈ la.*1 -> k' <s k) -> ainsert k v (la ++ lb) = la ++ ainsert k v lb.
Proof.
  induction la as [|[k0 v0] la IH]; intros Ha; simpl; [done|].
  rewrite (proj2 (str_ltb_lt k0 k)) by set_solver. f_equal. apply IH. set_solver.
Qed.

Lemma ainsert_head_gt k v lb :
  (forall k', k' ∈ lb.*1 -> k <s k') -> ainsert k v lb = (k, v) :: lb.
Proof.
  destruct lb as [|[k0 v0] lb]; intros Hb; simpl; [done|].
  assert (k <s k0) as Hlt by set_solver.
  destruct (k0 <?s k) eqn:E1; [|destruct (k0 =?s k) eqn:E2]; str_prop.
  - by apply str_lt_asym in Hlt.
  - subst. by apply str_lt_irrefl in Hlt.
  - done.
Qed.

Lemma ainsert_head_eq k v w lb : ainsert k v ((k, w) :: lb) = (k, v) :: lb.
Proof. simpl. by rewrite str_ltb_irrefl, (proj2 (str_eqb_eq k k) eq_refl). Qed.

Lemma alookup_list_to_map k l : NoDup l.*1 -> (list_to_map l : gmap str A) !! k = alookup k l.
Proof.
  induction l as [|[k0 v0] l IH]; [done|]. simpl. intros [? ?]%NoDup_cons.
  rewrite lookup_insert, IH by done. fold (alookup k ((k0, v0) :: l)).
  unfold str_eqb. by repeat (case_decide || case_bool_decide); simplify_eq.
Qed.

Lemma elem_of_alookup k v l : keys_sorted l -> (k, v) ∈ l <-> alookup k l = Some v.
Proof.
  intros Hs%keys_sorted_NoDup. rewrite <- alookup_list_to_map by done. by apply elem_of_list_to_map.
Qed.
End assoc.

#[export] Hint Resolve keys_sorted_nil ainsert_sorted afrom_sorted keys_sorted_NoDup : lsm.

(** ** How C++ code ends

    A call returns, throws one of the exceptions the sources throw, or is cut
    short by a [SIGKILL] (an armed crash point).  [Undefined] stands for
    undefined behaviour: a null or dangling pointer, an indeterminate value. *)

Inductive exn : Set :=
  | RuntimeError (what : string)
  | LengthError (what : string)
  | InvalidArgument (what : string)
  | BadAlloc
  | Injected (point : string).

Inductive result (A : Type) : Type :=
  | Ok (a : A)
  | Throw (e : exn)
  | Crashed
  | Undefined.
Arguments Ok {A} a.
Arguments Throw {A} e.
Arguments Crashed {A}.
Arguments Undefined {A}.

#[export] Instance exn_eq_dec : EqDecision exn.
Proof. solve_decision. Defined.
