(* ===== verification/WalFormat.v ===== *)
(** * The on-disk format of the write-ahead log

    Models the parts of [src/wal/wal_writer.cpp] that lay a record out
    ([WAL::writeEntry]'s buffer, [WAL::crc32]) and all of
    [src/wal/wal_reader.cpp] ([WAL::recover]): the read loop over the file and
    the resynchronising parser.  The writer's state machine is in another file. *)

From S2P Require Import Prelude.
Open Scope Z_scope.

Module WAL.

(** ** Data *)

Inductive Type_ := PUT | DEL.

(** [WAL::Entry] *)
Record Entry := mkEntry { type : Type_; key : str; value : str }.

#[export] Instance type_eq_dec : EqDecision Type_.
Proof. solve_decision. Defined.
#[export] Instance entry_eq_dec : EqDecision Entry.
Proof. solve_decision. Defined.

(** [enum class Type { PUT = 0x01, DEL = 0x02 }] *)
Definition type_byte (t : Type_) : byte :=
  match t with PUT => x01 | DEL => x02 end.

Definition MAX_RECOVERY_BYTES : Z := Z.shiftl 1 30.

(** ** Checksum *)

(** [crc = (crc >> 1) ^ (0xEDB88320 & -(crc & 1))] *)
Definition crc_bit (crc : Z) : Z :=
  Z.lxor (Z.shiftr crc 1) (Z.land 0xEDB88320 (u32 (- Z.land crc 1))).

(** The lambda [update]: one byte into the running checksum. *)
Definition crc_update (crc : Z) (b : byte) : Z :=
  Nat.iter 8 crc_bit (Z.lxor crc (byte_Z b)).

Definition crc32 (ty : byte) (k v : str) : Z :=
  let crc := crc_update 0xFFFFFFFF ty in
  let crc := foldl crc_update crc k in
  let crc := foldl crc_update crc v in
  Z.lxor crc 0xFFFFFFFF.

(** ** Records *)

(** [size_t size = 1 + 4 + 4 + key.size() + value.size() + 4] *)
Definition record_size (klen vlen : Z) : Z := 1 + 4 + 4 + klen + vlen + 4.

(** [(size + 511) & ~511] *)
Definition align512 (size : Z) : Z := Z.land (size + 511) (Z.lnot 511).

(** The bytes [writeEntry] stores at the front of its buffer. *)
Definition record_with (ty : byte) (k v crc : str) : str :=
  [ty] ++ enc_le 4 (zlen k) ++ enc_le 4 (zlen v) ++ k ++ v ++ crc.
Definition record_body (ty : byte) (k v : str) : str :=
  record_with ty k v (enc_le 4 (crc32 ty k v)).

(** The whole buffer: [memset] to zero, then the record. *)
Definition encode_record (ty : byte) (k v : str) : str :=
  let size := record_size (zlen k) (zlen v) in
  record_body ty k v ++ replicate (Z.to_nat (align512 size - size)) x00.

Definition encode (e : Entry) : str :=
  encode_record (type_byte (type e)) (key e) (value e).

(** ** Recovery *)

(** [((entry_start / 512) + 1) * 512] *)
Definition next_block (entry_start : Z) : Z := (entry_start / 512 + 1) * 512.

(** Only the two defined type bytes are accepted. *)
Definition type_of_byte (ty : byte) : option Type_ :=
  if bool_decide (ty = x01) then Some PUT
  else if bool_decide (ty = x02) then Some DEL else None.

(** One iteration of the parse loop of [recover]: the offset the loop continues
    at and the entry pushed, if any.  Sums with the [size_t] offset are 64-bit,
    the record's size is a sum of [uint32_t]s. *)
Definition recover_step (buf : str) (entry_start : Z) : Z * option Entry :=
  let total := zlen buf in
  let ty := default x00 (buf !! Z.to_nat entry_start) in
  let offset := entry_start + 1 in
  if bool_decide (ty = x00) then (next_block entry_start, None)
  else if total <? u64 (offset + 8) then (next_block entry_start, None)
  else
    let klen := read_le 4 offset buf in
    let offset := offset + 4 in
    let vlen := read_le 4 offset buf in
    let offset := offset + 4 in
    if total <? u64 (offset + klen + vlen + 4) then (next_block entry_start, None)
    else
      let k := slice offset klen buf in
      let offset := offset + klen in
      let v := slice offset vlen buf in
      let offset := offset + vlen in
      let stored_crc := read_le 4 offset buf in
      if negb (stored_crc =? crc32 ty k v) then (next_block entry_start, None)
      else
        match type_of_byte ty with
        | None => (next_block entry_start, None)
        | Some t =>
            (entry_start + align512 (u32 (record_size klen vlen)), Some (mkEntry t k v))
        end.

(** [while (offset < total)], with fuel. *)
Fixpoint recover_loop (fuel : nat) (buf : str) (offset : Z) : list Entry :=
  match fuel with
  | O => []
  | S fuel =>
      if offset <? zlen buf then
        let '(offset', e) := recover_step buf offset in
        match e with
        | Some e => e :: recover_loop fuel buf offset'
        | None => recover_loop fuel buf offset'
        end
      else []
  end.

(** The parser on a whole buffer.  Every iteration moves forward, so the
    buffer's length is enough fuel. *)
Definition parse_log (buf : str) : list Entry := recover_loop (length buf) buf 0.

(** What one [read] call does: a signal interrupts it, it fails, or it returns
    at least one byte, at most what is asked for (zero only at end of file). *)
Inductive read_outcome := Interrupted | ReadFailed | ReadSome (n : nat).

(** [char tmp[4096]] *)
Definition tmp_size : nat := Z.to_nat 4096.

(** The read loop: [sched] is how the calls go; once it is exhausted every call
    returns as much as it can. *)
Fixpoint read_loop (fuel : nat) (sched : list read_outcome) (rest buf : str) : result str :=
  match fuel with
  | O => Undefined
  | S fuel =>
      let '(outcome, sched) :=
        match sched with [] => (ReadSome tmp_size, []) | o :: s => (o, s) end in
      match outcome with
      | Interrupted => read_loop fuel sched rest buf
      | ReadFailed => Throw (RuntimeError "WAL: read failed during recovery")
      | ReadSome n =>
          let bytes := Nat.min (Nat.max n 1) (Nat.min tmp_size (length rest)) in
          if decide (bytes = 0%nat) then Ok buf
          else if MAX_RECOVERY_BYTES <? zlen buf + Z.of_nat bytes
          then Throw (RuntimeError "WAL: log exceeded the recovery limit while being read")
          else read_loop fuel sched (drop bytes rest) (buf ++ take bytes rest)
      end
  end.

(** [WAL::recover]: [file] is what opening [path_] read-only finds, [stat] the
    size [fstat] reports (or its failure). *)
Definition recover (file : option str) (stat : option Z) (sched : list read_outcome)
  : result (list Entry) :=
  match file with
  | None => Ok []
  | Some data =>
      if (match stat with Some n => MAX_RECOVERY_BYTES <? n | None => false end)
      then Throw (RuntimeError "WAL: refusing to recover")
      else
        match read_loop (length data + length sched + 1) sched data [] with
        | Ok buf => Ok (parse_log buf)
        | Throw e => Throw e
        | Crashed => Crashed
        | Undefined => Undefined
        end
  end.

(** ** Sizes and alignment *)

Lemma align512_spec z : align512 z = 512 * ((z + 511) / 512).
Proof.
  unfold align512. rewrite <- Z.ldiff_land.
  change 511 with (Z.ones 9) at 2. rewrite Z.ldiff_ones_r by lia.
  rewrite Z.shiftl_mul_pow2, Z.shiftr_div_pow2 by lia. change (2 ^ 9) with 512. lia.
Qed.

Lemma align512_bounds z : z <= align512 z < z + 512.
Proof. rewrite align512_spec. div_lia. Qed.

Lemma next_block_bounds z : z < next_block z <= z + 512.
Proof. unfold next_block. div_lia. Qed.

Lemma length_record_with ty k v crc :
  length crc = 4%nat -> zlen (record_with ty k v crc) = record_size (zlen k) (zlen v).
Proof. intros. unfold record_with, record_size. len. Qed.

Lemma length_record_body ty k v :
  zlen (record_body ty k v) = record_size (zlen k) (zlen v).
Proof. apply length_record_with, length_enc_le. Qed.

Lemma length_encode_record ty k v :
  zlen (encode_record ty k v) = align512 (record_size (zlen k) (zlen v)).
Proof.
  unfold encode_record. rewrite length_app, length_replicate, Nat2Z.inj_add, length_record_body.
  pose proof (align512_bounds (record_size (zlen k) (zlen v))). lia.
Qed.

(** ** The parser on a well-formed record *)

Lemma crc_bit_range c : 0 <= c < 2 ^ 32 -> 0 <= crc_bit c < 2 ^ 32.
Proof.
  intros Hc. unfold crc_bit. apply lxor_range; [lia| |].
  - rewrite Z.shiftr_div_pow2 by lia. change (2 ^ 1) with 2. div_lia.
  - apply land_range; [lia|lia|]. by apply wrap_range.
Qed.

Lemma crc_update_range c b : 0 <= c < 2 ^ 32 -> 0 <= crc_update c b < 2 ^ 32.
Proof.
  intros Hc. unfold crc_update. apply Nat.iter_invariant; [apply crc_bit_range|].
  apply lxor_range; [lia|done|]. pose proof (byte_Z_range b). lia.
Qed.

Lemma crc_fold_range l c : 0 <= c < 2 ^ 32 -> 0 <= foldl crc_update c l < 2 ^ 32.
Proof. revert c. induction l; simpl; auto using crc_update_range. Qed.

Lemma crc32_range ty k v : 0 <= crc32 ty k v < 2 ^ 32.
Proof.
  unfold crc32. apply lxor_range; [lia| |lia].
  apply crc_fold_range, crc_fold_range, crc_update_range. lia.
Qed.

Lemma type_byte_nonzero t : type_byte t <> x00.
Proof. by destruct t. Qed.

Lemma u64_small z : 0 <= z < 2 ^ 64 -> u64 z = z.
Proof. apply wrap_small. Qed.

(** The fields of a record, wherever it sits in the buffer. *)
Lemma record_fields pre ty k v crc post :
  zlen k < 2 ^ 32 -> zlen v < 2 ^ 32 -> length crc = 4%nat ->
  let buf := pre ++ record_with ty k v crc ++ post in
  let o := zlen pre in
  buf !! Z.to_nat o = Some ty /\
  read_le 4 (o + 1) buf = zlen k /\
  read_le 4 (o + 5) buf = zlen v /\
  slice (o + 9) (zlen k) buf = k /\
  slice (o + 9 + zlen k) (zlen v) buf = v /\
  slice (o + 9 + zlen k + zlen v) 4 buf = crc.
Proof.
  intros Hk Hv Hc buf o. unfold buf, o. rewrite <- !Z.add_assoc, !read_le_shift, !slice_shift by lia.
  unfold record_with. rewrite <- !app_assoc.
  set (lk := enc_le 4 (zlen k)). set (lv := enc_le 4 (zlen v)).
  assert (length lk = 4%nat /\ length lv = 4%nat) as [? ?] by (split; apply length_enc_le).
  repeat split.
  - rewrite Nat2Z.id, lookup_app_r, Nat.sub_diag by lia. done.
  - apply (read_le_app [ty] _ 4); [done|]. simpl. lia.
  - rewrite (app_assoc [ty] lk). apply (read_le_app ([ty] ++ lk) _ 4); [len|]. simpl. lia.
  - rewrite (app_assoc [ty]), (app_assoc _ lv). apply slice_app_mid; len.
  - rewrite (app_assoc [ty]), (app_assoc _ lv), (app_assoc _ k). apply slice_app_mid; len.
  - rewrite (app_assoc [ty]), (app_assoc _ lv), (app_assoc _ k), (app_assoc _ v).
    apply slice_app_mid; len.
Qed.

(** One iteration of the parser on a complete record, whatever its checksum. *)
Lemma recover_step_with pre ty k v crc post :
  let buf := pre ++ record_with ty k v crc ++ post in
  length crc = 4%nat -> zlen buf <= MAX_RECOVERY_BYTES -> ty <> x00 ->
  recover_step buf (zlen pre) =
    match (if dec_le crc =? crc32 ty k v then type_of_byte ty else None) with
    | Some t => (zlen pre + align512 (record_size (zlen k) (zlen v)), Some (mkEntry t k v))
    | None => (next_block (zlen pre), None)
    end.
Proof.
  intros buf Hcl. change MAX_RECOVERY_BYTES with (2 ^ 30). intros Hmax Hty0.
  pose proof (length_record_with ty k v crc Hcl) as Hlen. unfold record_size in Hlen.
  assert (zlen buf = zlen pre + (13 + zlen k + zlen v) + zlen post) as Htot.
  { unfold buf. rewrite !length_app. lia. }
  destruct (record_fields pre ty k v crc post) as (Hty & Hk & Hv & Hks & Hvs & Hc); [lia..|].
  fold buf in Hty, Hk, Hv, Hks, Hvs, Hc.
  unfold recover_step. rewrite Hty. unfold default, id. rewrite bool_decide_false by done.
  rewrite <- !(Z.add_assoc (zlen pre) 1 4), <- !(Z.add_assoc (zlen pre) _ 4).
  change (1 + 4) with 5. change (5 + 4) with 9.
  unfold read_le at 3. rewrite Hk, Hv, Hks, Hvs, Hc.
  rewrite !u64_small by lia. rewrite !(proj2 (Z.ltb_ge _ _)) by lia.
  rewrite (wrap_small 32) by (unfold record_size; lia).
  by destruct (dec_le crc =? crc32 ty k v).
Qed.

Lemma recover_step_record pre t k v post :
  zlen (pre ++ record_body (type_byte t) k v ++ post) <= MAX_RECOVERY_BYTES ->
  recover_step (pre ++ record_body (type_byte t) k v ++ post) (zlen pre)
  = (zlen pre + align512 (record_size (zlen k) (zlen v)), Some (mkEntry t k v)).
Proof.
  intros. unfold record_body. rewrite recover_step_with; [|apply length_enc_le|done|apply type_byte_nonzero].
  rewrite dec_enc_le_small, Z.eqb_refl by apply crc32_range. by destruct t.
Qed.

Lemma recover_step_padding pre post :
  recover_step (pre ++ x00 :: post) (zlen pre) = (next_block (zlen pre), None).
Proof.
  unfold recover_step. rewrite Nat2Z.id, lookup_app_r, Nat.sub_diag by lia. done.
Qed.

(** ** The loop *)

Lemma recover_step_progress buf o :
  0 <= o < zlen buf -> zlen buf <= MAX_RECOVERY_BYTES -> o < (recover_step buf o).1.
Proof.
  change MAX_RECOVERY_BYTES with (2 ^ 30). intros Ho Hmax. pose proof (next_block_bounds o). unfold recover_step.
  case_bool_decide; [cbn [fst]; lia|]. destruct (zlen buf <? u64 (o + 1 + 8)); [cbn [fst]; lia|].
  pose proof (read_le_range 4 (o + 1) buf ltac:(lia)) as Hk. pose proof (read_le_range 4 (o + 1 + 4) buf ltac:(lia)) as Hv.
  change (2 ^ (8 * 4)) with (2 ^ 32) in *. set (klen := read_le 4 (o + 1) buf) in *. set (vlen := read_le 4 (o + 1 + 4) buf) in *.
  rewrite u64_small by lia. destruct (Z.ltb_spec (zlen buf) (o + 1 + 4 + 4 + klen + vlen + 4)); [cbn [fst]; lia|].
  destruct (negb _); [cbn [fst]; lia|]. destruct (type_of_byte _); cbn [fst]; [|lia].
  rewrite (wrap_small 32) by (unfold record_size; lia).
  pose proof (align512_bounds (record_size klen vlen)). unfold record_size in *. lia.
Qed.

Lemma recover_loop_fuel f1 f2 buf o :
  zlen buf <= MAX_RECOVERY_BYTES -> 0 <= o -> zlen buf - o <= Z.of_nat f1 -> zlen buf - o <= Z.of_nat f2 ->
  recover_loop f1 buf o = recover_loop f2 buf o.
Proof.
  revert f2 o. induction f1 as [|f1 IH]; intros [|f2] o Hmax Ho H1 H2; simpl; [done|..].
  - rewrite (proj2 (Z.ltb_ge _ _)) by lia. done.
  - rewrite (proj2 (Z.ltb_ge _ _)) by lia. done.
  - destruct (Z.ltb_spec o (zlen buf)); [|done].
    pose proof (recover_step_progress buf o ltac:(lia) Hmax) as Hp.
    destruct (recover_step buf o) as [o' [e|]]; simpl in Hp; [f_equal|]; apply IH; (done || lia).
Qed.

(** The entries parsed from offset [o] on: the loop with enough fuel. *)
Definition parse_from (buf : str) (o : Z) : list Entry := recover_loop (length buf) buf o.

Lemma parse_from_unfold buf o :
  zlen buf <= MAX_RECOVERY_BYTES -> 0 <= o ->
  parse_from buf o =
    if o <? zlen buf then
      match (recover_step buf o).2 with
      | Some e => e :: parse_from buf (recover_step buf o).1
      | None => parse_from buf (recover_step buf o).1
      end
    else [].
Proof.
  intros Hmax Ho. unfold parse_from at 1. destruct (length buf) as [|n] eqn:Hn.
  { by rewrite (proj2 (Z.ltb_ge _ _)) by lia. }
  simpl. rewrite Hn. destruct (Z.ltb_spec o (Z.of_nat (S n))); [|done].
  pose proof (recover_step_progress buf o ltac:(lia) ltac:(lia)) as Hp. unfold parse_from. rewrite Hn.
  destruct (recover_step buf o) as [o' [e|]]; cbn [fst snd] in *; [f_equal|]; apply recover_loop_fuel; (done || lia).
Qed.

Lemma parse_from_end buf o : zlen buf <= o -> 0 <= o -> parse_from buf o = [].
Proof.
  intros Ho _. unfold parse_from. generalize (length buf). intros [|f]; [done|]. cbn [recover_loop].
  by rewrite (proj2 (Z.ltb_ge _ _)).
Qed.

(** ** Logs: records with holes

    [io_uring] orders nothing, so after a crash any submitted record can be
    missing; its blocks then read as zeros. *)

Inductive slot := Written (e : Entry) | Lost (e : Entry).

Definition slot_bytes (s : slot) : str :=
  match s with
  | Written e => encode e
  | Lost e => replicate (length (encode e)) x00
  end.

Definition log_bytes (l : list slot) : str := concat (slot_bytes <$> l).

Definition survivors (l : list slot) : list Entry :=
  omap (fun s => match s with Written e => Some e | Lost _ => None end) l.

Lemma length_encode e : zlen (encode e) = align512 (record_size (zlen (key e)) (zlen (value e))).
Proof. apply length_encode_record. Qed.

Lemma recover_step_encode pre e post :
  zlen (pre ++ encode e ++ post) <= MAX_RECOVERY_BYTES ->
  recover_step (pre ++ encode e ++ post) (zlen pre) = (zlen pre + zlen (encode e), Some e).
Proof.
  rewrite length_encode. unfold encode, encode_record. rewrite <- app_assoc.
  intros. rewrite recover_step_record by done. by destruct e.
Qed.

Lemma length_slot_bytes s : exists m, zlen (slot_bytes s) = 512 * Z.of_nat m.
Proof.
  assert (forall e, exists m, zlen (encode e) = 512 * Z.of_nat m) as H.
  { intros e. rewrite length_encode, align512_spec.
    eexists (Z.to_nat _). rewrite Z2Nat.id; [done|]. unfold record_size. div_lia. }
  destruct s as [e|e]; simpl; [|rewrite length_replicate]; apply H.
Qed.

Lemma length_log_bytes l : exists m, zlen (log_bytes l) = 512 * Z.of_nat m.
Proof.
  induction l as [|s l [m IH]]; [by exists 0%nat|].
  destruct (length_slot_bytes s) as [n Hn]. exists (n + m)%nat.
  unfold log_bytes in *. cbn [fmap list_fmap concat]. rewrite length_app. lia.
Qed.

Lemma next_block_aligned m : next_block (512 * m) = 512 * m + 512.
Proof. unfold next_block. div_lia. Qed.

Lemma parse_from_zeros pre m post a :
  zlen pre = 512 * a ->
  let buf := pre ++ replicate (512 * m) x00 ++ post in
  zlen buf <= MAX_RECOVERY_BYTES ->
  parse_from buf (zlen pre) = parse_from buf (zlen pre + 512 * Z.of_nat m).
Proof.
  revert pre a. induction m as [|m IH]; intros pre a Ha buf Hmax; [f_equal; lia|].
  rewrite parse_from_unfold by (done || lia).
  assert (zlen pre < zlen buf) as Hlt by (unfold buf; len).
  rewrite (proj2 (Z.ltb_lt _ _) Hlt).
  assert (buf = (pre ++ replicate 512 x00) ++ replicate (512 * m) x00 ++ post) as Hbuf.
  { unfold buf. rewrite <- app_assoc. f_equal. rewrite app_assoc. f_equal.
    rewrite <- replicate_add. f_equal. lia. }
  assert (recover_step buf (zlen pre) = (zlen pre + 512, None)) as ->.
  { unfold buf. replace (512 * S m)%nat with (S (512 * m + 511)) by lia. cbn [replicate app].
    rewrite recover_step_padding, Ha. by rewrite next_block_aligned. }
  cbn [fst snd]. rewrite Hbuf.
  replace (zlen pre + 512) with (zlen (pre ++ replicate 512 x00)) by (rewrite length_app, length_replicate; lia).
  rewrite (IH _ (a + 1)) by (by rewrite <- Hbuf || rewrite length_app, length_replicate; lia).
  f_equal. rewrite length_app, length_replicate. lia.
Qed.

Lemma parse_from_log l pre post a :
  zlen pre = 512 * a ->
  let buf := pre ++ log_bytes l ++ post in
  zlen buf <= MAX_RECOVERY_BYTES ->
  parse_from buf (zlen pre) = survivors l ++ parse_from buf (zlen pre + zlen (log_bytes l)).
Proof.
  revert pre a. induction l as [|s l IH]; intros pre a Ha buf Hmax.
  { simpl. f_equal. lia. }
  assert (buf = (pre ++ slot_bytes s) ++ log_bytes l ++ post) as Hbuf.
  { unfold buf, log_bytes. simpl. by rewrite <- !app_assoc. }
  destruct (length_slot_bytes s) as [m Hm].
  assert (parse_from buf (zlen pre) =
    match s with Written e => [e] | Lost _ => [] end ++ parse_from buf (zlen (pre ++ slot_bytes s))) as ->.
  { rewrite length_app, Nat2Z.inj_add. destruct s as [e|e].
    - rewrite parse_from_unfold by lia. cbn [slot_bytes] in *.
      pose proof (length_encode e) as Hle.
      pose proof (align512_bounds (record_size (zlen (key e)) (zlen (value e)))).
      rewrite (proj2 (Z.ltb_lt _ _)).
      2: { rewrite Hbuf, !length_app. unfold record_size in *. lia. }
      assert (recover_step buf (zlen pre) = (zlen pre + zlen (encode e), Some e)) as ->; [|done].
      rewrite Hbuf, <- app_assoc in Hmax |- *. by apply recover_step_encode.
    - cbn [slot_bytes app]. rewrite Hbuf. cbn [slot_bytes] in *. rewrite length_replicate in *.
      assert (length (encode e) = 512 * m)%nat as -> by lia.
      rewrite <- app_assoc. rewrite (parse_from_zeros pre m _ a); [f_equal; lia|done|].
      unfold buf in Hmax. rewrite !length_app, length_replicate in *. unfold log_bytes in Hmax. cbn [fmap list_fmap concat slot_bytes] in Hmax.
      rewrite length_app, length_replicate in Hmax. unfold log_bytes. lia. }
  rewrite Hbuf, (IH (pre ++ slot_bytes s) (a + Z.of_nat m)).
  - cbn [survivors omap list_omap]. rewrite <- Hbuf, length_app. unfold log_bytes at 2.
    cbn [fmap list_fmap concat]. rewrite (length_app (slot_bytes s)).
    replace (zlen pre + Z.of_nat (length (slot_bytes s) + length (concat (slot_bytes <$> l))))
      with (Z.of_nat (length pre + length (slot_bytes s)) + zlen (log_bytes l)) by (unfold log_bytes; lia).
    by destruct s.
  - rewrite length_app. lia.
  - by rewrite <- Hbuf.
Qed.

Lemma parse_log_append l post :
  zlen (log_bytes l ++ post) <= MAX_RECOVERY_BYTES ->
  parse_log (log_bytes l ++ post)
  = survivors l ++ parse_from (log_bytes l ++ post) (zlen (log_bytes l)).
Proof. intros H. apply (parse_from_log l [] post 0); [done|exact H]. Qed.

(** ** A torn record *)

Lemma record_with_prefix ty k v crc :
  record_with ty k v crc = ([ty] ++ enc_le 4 (zlen k) ++ enc_le 4 (zlen v)) ++ (k ++ v ++ crc).
Proof. unfold record_with. by rewrite <- !app_assoc. Qed.

Lemma recover_step_torn pre t k v crc n :
  length crc = 4%nat -> zlen k < 2 ^ 32 -> zlen v < 2 ^ 32 -> zlen pre <= MAX_RECOVERY_BYTES ->
  (0 < n)%nat -> Z.of_nat n < record_size (zlen k) (zlen v) ->
  recover_step (pre ++ take n (record_with (type_byte t) k v crc)) (zlen pre)
  = (next_block (zlen pre), None).
Proof.
  intros Hc Hk Hv. change MAX_RECOVERY_BYTES with (2 ^ 30). intros Hpre Hn0 Hn.
  pose proof (length_record_with (type_byte t) k v crc Hc) as Hlen.
  set (rec := record_with (type_byte t) k v crc) in *. unfold record_size in *.
  assert (zlen (pre ++ take n rec) = zlen pre + Z.of_nat n) as Htot.
  { rewrite length_app, length_take. lia. }
  unfold recover_step.
  assert ((pre ++ take n rec) !! Z.to_nat (zlen pre) = Some (type_byte t)) as ->.
  { rewrite Nat2Z.id, lookup_app_r, Nat.sub_diag, lookup_take_lt by lia. done. }
  unfold default, id. rewrite bool_decide_false by apply type_byte_nonzero.
  rewrite Htot, <- !(Z.add_assoc (zlen pre) 1 4), <- !(Z.add_assoc (zlen pre) _ 4).
  change (1 + 4) with 5. change (5 + 4) with 9. rewrite !read_le_shift by lia.
  rewrite u64_small by lia. destruct (Z.ltb_spec (zlen pre + Z.of_nat n) (zlen pre + 1 + 8)) as [|H9]; [done|].
  assert (take n rec = ([type_byte t] ++ enc_le 4 (zlen k) ++ enc_le 4 (zlen v))
                       ++ take (n - 9) (k ++ v ++ crc)) as ->.
  { unfold rec. rewrite record_with_prefix, take_app_ge by len. do 2 f_equal. }
  rewrite <- !app_assoc, (read_le_app [_] _ 4) by (simpl; lia).
  rewrite (app_assoc [_] (enc_le 4 (zlen k))), (read_le_app _ _ 4) by (rewrite ?length_app, ?length_enc_le; simpl; lia).
  rewrite u64_small by lia. rewrite (proj2 (Z.ltb_lt _ _)) by lia. done.
Qed.

(** ** What the parser accepts *)

Lemma slice_enc_le n w off buf z :
  w = Z.of_nat n -> 0 <= off -> off + w <= zlen buf -> z = read_le w off buf ->
  slice off w buf = enc_le n z.
Proof.
  intros -> Ho Hn ->. unfold read_le.
  rewrite <- (enc_dec_le (slice off (Z.of_nat n) buf)) at 1.
  by rewrite slice_length, Nat2Z.id by lia.
Qed.

Lemma type_of_byte_Some ty t : type_of_byte ty = Some t -> ty = type_byte t.
Proof. unfold type_of_byte. intros. by case_all. Qed.

(** An entry is pushed only for a complete record with a matching checksum. *)
Lemma recover_step_accepts buf o o' e :
  0 <= o -> zlen buf <= MAX_RECOVERY_BYTES -> o < zlen buf ->
  recover_step buf o = (o', Some e) ->
  slice o (record_size (zlen (key e)) (zlen (value e))) buf
  = record_body (type_byte (type e)) (key e) (value e).
Proof.
  change MAX_RECOVERY_BYTES with (2 ^ 30). intros Ho Hmax Hlt. unfold recover_step.
  destruct (lookup_lt_is_Some_2 buf (Z.to_nat o)) as [ty Hty]; [lia|]. rewrite Hty.
  unfold default, id. case_bool_decide; [done|].
  rewrite u64_small by lia. destruct (Z.ltb_spec (zlen buf) (o + 1 + 8)); [done|].
  rewrite <- !(Z.add_assoc o 1 4), <- !(Z.add_assoc o _ 4).
  change (1 + 4) with 5. change (5 + 4) with 9.
  pose proof (read_le_range 4 (o + 1) buf ltac:(lia)) as Hkr.
  pose proof (read_le_range 4 (o + 5) buf ltac:(lia)) as Hvr.
  set (kl := read_le 4 (o + 1) buf) in *. set (vl := read_le 4 (o + 5) buf) in *.
  change (8 * 4) with 32 in *. rewrite u64_small by lia.
  destruct (Z.ltb_spec (zlen buf) (o + 9 + kl + vl + 4)); [done|].
  destruct (Z.eqb_spec (read_le 4 (o + 9 + kl + vl) buf)
              (crc32 ty (slice (o + 9) kl buf) (slice (o + 9 + kl) vl buf))) as [Hcrc|]; [|done].
  destruct (type_of_byte ty) as [t|] eqn:Ht; [|done]. apply type_of_byte_Some in Ht as ->.
  intros [= _ <-]; simpl. rewrite !slice_length, !Z2Nat.id by lia.
  unfold record_size, record_body, record_with. rewrite !slice_length, !Z2Nat.id by lia.
  replace (1 + 4 + 4 + kl + vl + 4) with (1 + (4 + (4 + (kl + (vl + 4))))) by lia.
  rewrite !slice_split, (slice_one o buf (type_byte t)) by (done || lia).
  rewrite <- !(Z.add_assoc o 1), <- !(Z.add_assoc o (1 + 4)).
  change (1 + 4 + 4) with 9. change (1 + 4) with 5.
  rewrite (slice_enc_le 4 4 (o + 1) buf kl), (slice_enc_le 4 4 (o + 5) buf vl) by (done || lia).
  by rewrite (slice_enc_le 4 4 (o + 9 + kl + vl) buf _ eq_refl ltac:(lia) ltac:(lia) (eq_sym Hcrc)).
Qed.

Lemma recover_loop_accepts fuel buf o e :
  0 <= o -> zlen buf <= MAX_RECOVERY_BYTES -> e ∈ recover_loop fuel buf o ->
  exists p, o <= p < zlen buf /\
    slice p (record_size (zlen (key e)) (zlen (value e))) buf
    = record_body (type_byte (type e)) (key e) (value e).
Proof.
  intros Ho Hmax. revert o Ho. induction fuel as [|fuel IH]; intros o Ho; simpl; [set_solver|].
  destruct (Z.ltb_spec o (zlen buf)) as [Hlt|]; [|set_solver].
  pose proof (recover_step_progress buf o ltac:(lia) Hmax) as Hp.
  destruct (recover_step buf o) as [o' [e'|]] eqn:Hs; cbn [fst] in Hp.
  - rewrite elem_of_cons. intros [->|Hin].
    + exists o. split; [lia|]. by eapply recover_step_accepts.
    + destruct (IH o' ltac:(lia) Hin) as (p & ? & ?). exists p. split; [lia|done].
  - intros Hin. destruct (IH o' ltac:(lia) Hin) as (p & ? & ?). exists p. split; [lia|done].
Qed.

(** ** The checksum separates messages that differ in one byte

    A step of the CRC is a bijection of the 32-bit states, because the
    polynomial has its top bit set. *)

Lemma crc_bit_spec c :
  crc_bit c = Z.lxor (Z.shiftr c 1) (if Z.odd c then 0xEDB88320 else 0).
Proof.
  unfold crc_bit. f_equal. change 1 with (Z.ones 1) at 1. rewrite Z.land_ones by lia.
  change (2 ^ 1) with 2. rewrite Zmod_odd. by destruct (Z.odd c).
Qed.

Lemma crc_bit_inj c d :
  0 <= c < 2 ^ 32 -> 0 <= d < 2 ^ 32 -> crc_bit c = crc_bit d -> c = d.
Proof.
  intros Hc Hd. rewrite !crc_bit_spec. intros Heq.
  assert (forall x, 0 <= x < 2 ^ 32 -> Z.testbit (Z.shiftr x 1) 31 = false) as Hhi.
  { intros x Hx. rewrite Z.shiftr_spec by lia.
    rewrite <- (Z.mod_small x (2 ^ 32)) by done. by apply Z.mod_pow2_bits_high. }
  assert (Z.odd c = Z.odd d) as Ho.
  { apply (f_equal (fun z => Z.testbit z 31)) in Heq.
    rewrite !Z.lxor_spec, !Hhi in Heq by done.
    by destruct (Z.odd c), (Z.odd d). }
  rewrite Ho in Heq. apply (f_equal (fun z => Z.lxor z (if Z.odd d then 0xEDB88320 else 0))) in Heq.
  rewrite !Z.lxor_assoc, !Z.lxor_nilpotent, !Z.lxor_0_r, !Z.shiftr_div_pow2 in Heq by lia.
  change (2 ^ 1) with 2 in Heq.
  pose proof (Zdiv2_odd_eqn c) as Ec. pose proof (Zdiv2_odd_eqn d) as Ed.
  rewrite Z.div2_div, ?Ho in Ec, Ed. rewrite Ho in Ec. destruct (Z.odd d); lia.
Qed.

Lemma crc_update_inj_gen c d a b :
  0 <= c < 2 ^ 32 -> 0 <= d < 2 ^ 32 ->
  crc_update c a = crc_update d b -> Z.lxor c (byte_Z a) = Z.lxor d (byte_Z b).
Proof.
  intros Hc Hd. unfold crc_update.
  assert (forall n x y, 0 <= x < 2 ^ 32 -> 0 <= y < 2 ^ 32 ->
          Nat.iter n crc_bit x = Nat.iter n crc_bit y -> x = y) as Hiter.
  { induction n as [|n IH]; intros x y Hx Hy; simpl; [done|].
    intros Heq%crc_bit_inj; [auto|..];
      apply Nat.iter_invariant; auto using crc_bit_range. }
  pose proof (byte_Z_range a). pose proof (byte_Z_range b).
  apply Hiter; apply lxor_range; lia.
Qed.

Lemma tmp_size_pos : (0 < tmp_size)%nat.
Proof. unfold tmp_size. lia. Qed.

#[local] Opaque crc_update tmp_size.

Lemma lxor_cancel_l a b c : Z.lxor a b = Z.lxor a c -> b = c.
Proof.
  intros H. apply (f_equal (Z.lxor a)) in H.
  by rewrite <- !Z.lxor_assoc, Z.lxor_nilpotent, !Z.lxor_0_l in H.
Qed.

Lemma crc_fold_inj l c d :
  0 <= c < 2 ^ 32 -> 0 <= d < 2 ^ 32 -> foldl crc_update c l = foldl crc_update d l -> c = d.
Proof.
  revert c d. induction l as [|b l IH]; intros c d Hc Hd; simpl; [done|].
  intros Heq%IH; auto using crc_update_range.
  apply crc_update_inj_gen in Heq; [|done..].
  rewrite !(Z.lxor_comm _ (byte_Z b)) in Heq. by apply lxor_cancel_l in Heq.
Qed.

Lemma crc_fold_flip l i a b c :
  0 <= c < 2 ^ 32 -> l !! i = Some a -> a <> b ->
  foldl crc_update c (<[i := b]> l) <> foldl crc_update c l.
Proof.
  revert c i. induction l as [|x l IH]; intros c [|i] Hc; simpl; [done..| |].
  - intros [= ->] Hab Heq%crc_fold_inj; auto using crc_update_range.
    apply crc_update_inj_gen in Heq; [|done..]. apply lxor_cancel_l in Heq.
    by apply (inj byte_Z) in Heq.
  - auto using crc_update_range.
Qed.

Lemma crc32_fold ty k v :
  crc32 ty k v = Z.lxor (foldl crc_update 0xFFFFFFFF ([ty] ++ k ++ v)) 0xFFFFFFFF.
Proof. unfold crc32. by rewrite !foldl_app. Qed.

Lemma crc32_ne ty k v ty' k' v' :
  foldl crc_update 0xFFFFFFFF ([ty'] ++ k' ++ v') <> foldl crc_update 0xFFFFFFFF ([ty] ++ k ++ v) ->
  crc32 ty' k' v' <> crc32 ty k v.
Proof.
  intros Hne. rewrite !crc32_fold, !(Z.lxor_comm _ 0xFFFFFFFF).
  by intros ?%lxor_cancel_l.
Qed.

(** Changing one byte of a record, other than in its length fields, gives a
    complete record whose checksum does not match. *)
Lemma record_flip ty k v i a b :
  (i = 0 \/ 9 <= i)%nat -> record_body ty k v !! i = Some a -> a <> b ->
  exists ty' k' v' crc',
    <[i := b]> (record_body ty k v) = record_with ty' k' v' crc' /\
    length crc' = 4%nat /\ length k' = length k /\ length v' = length v /\
    dec_le crc' <> crc32 ty' k' v' /\ (i <> 0%nat -> ty' = ty).
Proof.
  intros Hi. unfold record_body. set (c := enc_le 4 (crc32 ty k v)).
  assert (dec_le c = crc32 ty k v) as Hc by (apply dec_enc_le_small, crc32_range).
  assert (length c = 4%nat) as Hcl by apply length_enc_le.
  rewrite record_with_prefix.
  set (pre := [ty] ++ enc_le 4 (zlen k) ++ enc_le 4 (zlen v)).
  assert (length pre = 9%nat) as Hpre by (unfold pre; len).
  destruct Hi as [->|Hi].
  { simpl. intros [= ->] Hab. exists b, k, v, c. split_and!; [done..| |done].
    rewrite Hc. apply not_eq_sym, crc32_ne.
    apply (crc_fold_flip ([a] ++ k ++ v) 0 a b); done || lia. }
  rewrite lookup_app_r, insert_app_r_alt by lia. rewrite Hpre.
  set (j := (i - 9)%nat). destruct (decide (j < length k)%nat) as [Hj|Hj].
  { rewrite lookup_app_l, insert_app_l by done. intros Ha Hab.
    exists ty, (<[j:=b]> k), v, c. rewrite record_with_prefix, !length_insert.
    split_and!; [done..| |done].
    rewrite Hc. apply not_eq_sym, crc32_ne. rewrite <- insert_app_l by done.
    apply (crc_fold_flip ([ty] ++ k ++ v) (S j) a b); [lia|simpl; by rewrite lookup_app_l|done]. }
  rewrite lookup_app_r, insert_app_r_alt by lia.
  destruct (decide (j - length k < length v)%nat) as [Hj'|Hj'].
  { rewrite lookup_app_l, insert_app_l by done. intros Ha Hab.
    exists ty, k, (<[(j - length k)%nat:=b]> v), c. rewrite record_with_prefix, !length_insert.
    split_and!; [done..| |done].
    rewrite Hc. apply not_eq_sym, crc32_ne.
    pose proof (crc_fold_flip ([ty] ++ k ++ v) (S j) a b 0xFFFFFFFF) as Hf. simpl in Hf.
    rewrite insert_app_r_alt in Hf by lia. apply Hf; [lia| |done].
    by rewrite lookup_app_r by lia. }
  rewrite lookup_app_r, insert_app_r_alt by lia. intros Ha Hab.
  eexists ty, k, v, (<[_:=b]> c). rewrite record_with_prefix, length_insert.
  split_and!; [done..| |done]. rewrite <- Hc. intros Heq.
  assert (<[(j - length k - length v)%nat := b]> c = c) as Hcc.
  { rewrite <- (enc_dec_le (<[_:=b]> c)), Heq, length_insert. apply enc_dec_le. }
  apply (f_equal (lookup (j - length k - length v)%nat)) in Hcc.
  rewrite list_lookup_insert_eq in Hcc by (by eapply lookup_lt_Some). congruence.
Qed.

(** ** The read loop *)

Lemma read_loop_ok fuel sched rest buf :
  ReadFailed ∉ sched -> zlen buf + zlen rest <= MAX_RECOVERY_BYTES ->
  (length rest + length sched < fuel)%nat ->
  read_loop fuel sched rest buf = Ok (buf ++ rest).
Proof.
  revert sched rest buf. induction fuel as [|fuel IH]; intros sched rest buf Hf Hmax Hfuel; [lia|].
  cbn [read_loop].
  assert (forall n sched', ReadFailed ∉ sched' -> (length sched' <= length sched)%nat ->
    let bytes := Nat.min (Nat.max n 1) (Nat.min tmp_size (length rest)) in
    (if decide (bytes = 0%nat) then Ok buf
     else if MAX_RECOVERY_BYTES <? zlen buf + Z.of_nat bytes
     then Throw (RuntimeError "WAL: log exceeded the recovery limit while being read")
     else read_loop fuel sched' (drop bytes rest) (buf ++ take bytes rest)) = Ok (buf ++ rest)) as Hread.
  { intros n sched' Hf' Hs bytes. assert (0 < tmp_size)%nat by apply tmp_size_pos. case_decide.
    - destruct rest; [by rewrite app_nil_r|]. unfold bytes in *. simpl in *. lia.
    - rewrite (proj2 (Z.ltb_ge _ _)) by lia.
      rewrite IH; [|done|rewrite length_app, length_take, length_drop; lia|rewrite length_drop; lia].
      by rewrite <- app_assoc, take_drop. }
  destruct sched as [|[| |n] sched]; [by apply Hread| | |].
  - apply IH; [set_solver|done|simpl in *; lia].
  - set_solver.
  - apply Hread; [set_solver|simpl; lia].
Qed.

Lemma read_loop_result fuel sched rest buf :
  (length rest + length sched < fuel)%nat -> zlen buf <= MAX_RECOVERY_BYTES ->
  match read_loop fuel sched rest buf with
  | Ok data => data = buf ++ rest /\ zlen data <= MAX_RECOVERY_BYTES
  | Throw _ => True
  | Crashed | Undefined => False
  end.
Proof.
  revert sched rest buf. induction fuel as [|fuel IH]; intros sched rest buf Hfuel Hmax; [lia|].
  cbn [read_loop].
  assert (forall n sched', (length sched' <= length sched)%nat ->
    let bytes := Nat.min (Nat.max n 1) (Nat.min tmp_size (length rest)) in
    match (if decide (bytes = 0%nat) then Ok buf
     else if MAX_RECOVERY_BYTES <? zlen buf + Z.of_nat bytes
     then Throw (RuntimeError "WAL: log exceeded the recovery limit while being read")
     else read_loop fuel sched' (drop bytes rest) (buf ++ take bytes rest)) with
    | Ok data => data = buf ++ rest /\ zlen data <= MAX_RECOVERY_BYTES
    | Throw _ => True
    | Crashed | Undefined => False
    end) as Hread.
  { intros n sched' Hs bytes. assert (0 < tmp_size)%nat by apply tmp_size_pos. case_decide.
    - destruct rest; [by rewrite app_nil_r|]. unfold bytes in *. simpl in *. lia.
    - destruct (Z.ltb_spec MAX_RECOVERY_BYTES (zlen buf + Z.of_nat bytes)); [done|].
      pose proof (IH sched' (drop bytes rest) (buf ++ take bytes rest)) as Hi.
      rewrite <- app_assoc, take_drop in Hi.
      apply Hi; [rewrite length_drop; lia|rewrite length_app, length_take; lia]. }
  destruct sched as [|[| |n] sched]; [by apply Hread| |done|].
  - apply IH; [simpl in *; lia|done].
  - apply Hread. simpl. lia.
Qed.

(** Nothing fails and the log is within the limit: all of it is parsed. *)
Lemma recover_all data sched :
  zlen data <= MAX_RECOVERY_BYTES -> ReadFailed ∉ sched ->
  recover (Some data) (Some (zlen data)) sched = Ok (parse_log data).
Proof.
  intros Hmax Hs. unfold recover. rewrite (proj2 (Z.ltb_ge _ _)) by done.
  rewrite read_loop_ok by (done || simpl; lia). done.
Qed.

Lemma parse_log_image l : zlen (log_bytes l) <= MAX_RECOVERY_BYTES -> parse_log (log_bytes l) = survivors l.
Proof.
  intros Hmax. pose proof (parse_log_append l []) as Hp. rewrite app_nil_r in Hp.
  rewrite Hp, parse_from_end, app_nil_r by lia. done.
Qed.

(** ** Properties of recovery *)

(** C27: recovering a log in which any subset of the submitted records never
    reached the file (their blocks read as zeros) returns exactly the records
    that did, in submission order, however the reads are split or interrupted
    by signals. *)
Theorem recover_log l sched :
  zlen (log_bytes l) <= MAX_RECOVERY_BYTES -> ReadFailed ∉ sched ->
  recover (Some (log_bytes l)) (Some (zlen (log_bytes l))) sched = Ok (survivors l).
Proof.
  intros Hmax Hs. rewrite recover_all by done. by rewrite parse_log_image.
Qed.

Definition put_entry (k v : string) : Entry := mkEntry PUT (bs k) (bs v).
Definition del_entry (k : string) : Entry := mkEntry DEL (bs k) [].

Lemma recover_log_witness :
  recover (Some (log_bytes [Written (put_entry "a" "1"); Lost (put_entry "b" "2");
                            Written (del_entry "a")]))
          (Some 1536) [Interrupted; ReadSome 100]
  = Ok [put_entry "a" "1"; del_entry "a"].
Proof.
  apply (recover_log [Written (put_entry "a" "1"); Lost (put_entry "b" "2");
                      Written (del_entry "a")] [Interrupted; ReadSome 100]).
  - vm_compute. discriminate.
  - rewrite !not_elem_of_cons. split_and!; [discriminate..|apply not_elem_of_nil].
Defined.

(** C34: a log cut at any byte inside its last record, when that record fits one
    512-byte block, recovers every earlier record, and the last one exactly
    when all its bytes (padding excluded) are there: whether [fstat] reports a
    size within the limit or fails, and however the reads are split or
    interrupted by signals (none failing). *)
Theorem recover_torn_tail l e n stat sched :
  (forall size, stat = Some size -> size <= MAX_RECOVERY_BYTES) -> ReadFailed ∉ sched ->
  record_size (zlen (key e)) (zlen (value e)) <= 512 ->
  zlen (log_bytes l) + 512 <= MAX_RECOVERY_BYTES ->
  recover (Some (log_bytes l ++ take n (encode e))) stat sched
  = Ok (survivors l ++ if decide (record_size (zlen (key e)) (zlen (value e)) <= Z.of_nat n)
                       then [e] else []).
Proof.
  intros Hstat Hsched Hsz Hmax. set (size := record_size _ _) in *.
  assert (13 <= size) as Hsz0 by (unfold size, record_size; lia).
  assert (align512 size = 512) as Hal by (rewrite align512_spec; div_lia).
  assert (zlen (encode e) = 512) as Henc by by rewrite length_encode.
  set (pre := log_bytes l) in *. set (buf := pre ++ take n (encode e)).
  assert (zlen buf = zlen pre + Z.min (Z.of_nat n) 512) as Hbuf.
  { unfold buf. rewrite length_app, length_take. lia. }
  assert (match stat with Some n => MAX_RECOVERY_BYTES <? n | None => false end = false) as Hst.
  { destruct stat as [m|]; [|done]. apply Z.ltb_ge. by apply Hstat. }
  unfold recover. rewrite Hst, read_loop_ok; [|done|simpl; lia|simpl; lia]. cbn [app].
  unfold buf, pre. rewrite parse_log_append by (fold pre; fold buf; lia). fold pre. fold buf.
  do 2 f_equal. rewrite parse_from_unfold by lia.
  destruct (Z.ltb_spec (zlen pre) (zlen buf)); [|case_decide; [lia|done]].
  assert (encode e = record_body (type_byte (type e)) (key e) (value e)
            ++ replicate (Z.to_nat (align512 size - size)) x00) as Hen by done.
  pose proof (length_record_body (type_byte (type e)) (key e) (value e)) as Hlb. fold size in Hlb.
  unfold buf. rewrite Hen. case_decide as Hn.
  - rewrite take_app_ge by lia.
    rewrite recover_step_record; cbn [fst snd].
    + rewrite parse_from_end; [by destruct e|..]; fold size;
        rewrite ?length_app, ?length_take, ?length_replicate; lia.
    + rewrite !length_app, length_take, length_replicate. lia.
  - rewrite take_app_le by lia. unfold record_body.
    rewrite recover_step_torn; cbn [fst snd];
      [|apply length_enc_le|unfold size, record_size in *; lia..|lia|fold size; lia].
    pose proof (next_block_bounds (zlen pre)).
    destruct (length_log_bytes l) as [m Hm]. fold pre in Hm.
    rewrite parse_from_end; [done| |lia].
    rewrite length_app, length_take, Hm, next_block_aligned. lia.
Qed.

Lemma recover_torn_tail_witness :
  recover (Some (log_bytes [Written (put_entry "a" "1")] ++ take 14 (encode (put_entry "b" "2"))))
          (Some 526) [ReadSome 100; Interrupted] = Ok [put_entry "a" "1"].
Proof.
  apply (recover_torn_tail [Written (put_entry "a" "1")] (put_entry "b" "2") 14 (Some 526) [ReadSome 100; Interrupted]).
  - intros size [= <-]. vm_compute. discriminate.
  - rewrite !not_elem_of_cons. split_and!; [discriminate..|apply not_elem_of_nil].
  - vm_compute. discriminate.
  - vm_compute. discriminate.
Defined.

Lemma recover_result data stat sched :
  match recover (Some data) stat sched with
  | Ok es => es = parse_log data /\ zlen data <= MAX_RECOVERY_BYTES
  | Throw _ => True
  | Crashed | Undefined => False
  end.
Proof.
  unfold recover. destruct (match stat with Some n => _ | None => _ end); [done|].
  pose proof (read_loop_result (length data + length sched + 1) sched data []) as H.
  destruct (read_loop _ _ _ _) as [d|e| |]; [|done| |].
  - destruct H as [-> ?]; [lia|done|done].
  - apply H; [lia|done].
  - apply H; [lia|done].
Qed.

(** [recover] always finishes; it never presents part of a log as the whole:
    when it returns entries they are what parsing the complete file gives, and
    the file is within the recovery limit. *)
Theorem recover_whole_or_throw data stat sched :
  match recover (Some data) stat sched with
  | Ok es => es = parse_log data /\ zlen data <= MAX_RECOVERY_BYTES
  | Throw _ => True
  | Crashed | Undefined => False
  end.
Proof. apply recover_result. Qed.

(** an oversized log is refused, both when [fstat] sees the size and when
    only the bytes read reveal it; nothing is parsed. *)
Theorem recover_refuses_oversized data stat sched :
  MAX_RECOVERY_BYTES < zlen data -> exists e, recover (Some data) stat sched = Throw e.
Proof.
  intros Hmax. pose proof (recover_result data stat sched) as H.
  destruct (recover _ _ _) as [es|e| |]; [|by eexists|done|done]. destruct H as [_ H]. lia.
Qed.

(** C35: whatever bytes the log holds, every recovered entry is stored in it as a
    complete record: type byte, both lengths, key, value and the CRC of all
    three. *)
Theorem recover_sound data stat sched es e :
  recover (Some data) stat sched = Ok es -> e ∈ es ->
  exists p, 0 <= p < zlen data /\
    slice p (record_size (zlen (key e)) (zlen (value e))) data
    = record_body (type_byte (type e)) (key e) (value e).
Proof.
  intros Hr He. pose proof (recover_result data stat sched) as H. rewrite Hr in H.
  destruct H as [-> Hmax]. by eapply recover_loop_accepts.
Qed.

Lemma recover_sound_witness :
  exists p, 0 <= p < 512 /\
    slice p 15 (encode (put_entry "k" "v")) = record_body x01 (bs "k") (bs "v").
Proof.
  apply (recover_sound (encode (put_entry "k" "v")) None [] [put_entry "k" "v"] (put_entry "k" "v")).
  - vm_compute. reflexivity.
  - apply list_elem_of_here.
Defined.

(** C36: damage confined to one byte of a record that fits one block, outside its
    two length fields, is detected: recovery skips that record and still
    returns every record before and after it. *)
Theorem recover_skips_damaged l1 e l2 i a b :
  record_size (zlen (key e)) (zlen (value e)) <= 512 ->
  let body := record_body (type_byte (type e)) (key e) (value e) in
  (i = 0 \/ 9 <= i)%nat -> body !! i = Some a -> a <> b ->
  zlen (log_bytes l1) + 512 + zlen (log_bytes l2) <= MAX_RECOVERY_BYTES ->
  parse_log (log_bytes l1 ++ <[i := b]> (encode e) ++ log_bytes l2) = survivors l1 ++ survivors l2.
Proof.
  intros Hsz body Hi Ha Hab Hmax. set (size := record_size _ _) in *.
  assert (13 <= size) as Hsz0 by (unfold size, record_size; lia).
  assert (zlen (encode e) = 512) as Henc.
  { rewrite length_encode. fold size. rewrite align512_spec. div_lia. }
  destruct (length_log_bytes l1) as [m Hm].
  rewrite parse_log_append by (rewrite !length_app, length_insert; lia).
  f_equal. set (buf := log_bytes l1 ++ <[i:=b]> (encode e) ++ log_bytes l2).
  assert (zlen buf = zlen (log_bytes l1) + 512 + zlen (log_bytes l2)) as Hbuf.
  { unfold buf. rewrite !length_app, length_insert. lia. }
  assert (recover_step buf (zlen (log_bytes l1)) = (zlen (log_bytes l1) + 512, None)) as Hstep.
  { assert (next_block (zlen (log_bytes l1)) = zlen (log_bytes l1) + 512) as <-
      by (rewrite Hm, next_block_aligned; lia).
    destruct (record_flip (type_byte (type e)) (key e) (value e) i a b)
      as (ty' & k' & v' & crc' & Heq & Hc & Hk & Hv & Hne & Hty); [done..|].
    unfold buf, encode, encode_record. fold size. rewrite insert_app_l by (by eapply lookup_lt_Some).
    rewrite Heq, <- app_assoc. destruct (decide (ty' = x00)) as [->|Hty0].
    { unfold record_with. simpl. apply recover_step_padding. }
    rewrite recover_step_with; [|done| |done].
    { destruct (Z.eqb_spec (dec_le crc') (crc32 ty' k' v')); done. }
    unfold buf, encode, encode_record in Hbuf. fold size in Hbuf.
    rewrite insert_app_l, Heq, <- app_assoc in Hbuf by (by eapply lookup_lt_Some). lia. }
  rewrite parse_from_unfold, Hstep by lia. cbn [fst snd].
  rewrite (proj2 (Z.ltb_lt _ _)) by lia.
  pose proof (parse_from_log l2 (log_bytes l1 ++ <[i:=b]> (encode e)) [] (Z.of_nat m + 1)) as Hp.
  rewrite app_nil_r, <- app_assoc in Hp. fold buf in Hp.
  replace (zlen (log_bytes l1) + 512) with (zlen (log_bytes l1 ++ <[i:=b]> (encode e)))
    by (rewrite length_app, length_insert; lia).
  rewrite Hp, parse_from_end, app_nil_r; [done|..];
    rewrite ?length_app, ?length_insert; lia.
Qed.

Lemma recover_skips_damaged_witness :
  parse_log (encode (put_entry "a" "1") ++ <[10%nat := x00]> (encode (put_entry "b" "2"))
             ++ encode (put_entry "c" "3")) = [put_entry "a" "1"; put_entry "c" "3"].
Proof.
  apply (recover_skips_damaged [Written (put_entry "a" "1")] (put_entry "b" "2")
           [Written (put_entry "c" "3")] 10 x32 x00);
    [vm_compute; discriminate|right; lia|reflexivity|discriminate|vm_compute; discriminate].
Defined.

(** the checksum does not cover the two length fields: it depends on key and
    value only through their concatenation, so moving the boundary between
    them passes the check. *)
Theorem crc32_ignores_boundary ty k v k' v' :
  k ++ v = k' ++ v' -> crc32 ty k v = crc32 ty k' v'.
Proof. intros H. by rewrite !crc32_fold, H. Qed.

Lemma crc32_ignores_boundary_witness : crc32 x01 (bs "ab") (bs "c") = crc32 x01 (bs "a") (bs "bc").
Proof. apply crc32_ignores_boundary. reflexivity. Defined.

(** ** Two limits of the format, on concrete logs *)

(** A logged [put("ab", "c")] whose two length fields are damaged ([klen] 2 -> 1,
    [vlen] 1 -> 2) is recovered as [put("a", "bc")], a write that never
    happened. *)
Example moved_boundary_recovers_other_key :
  parse_log (<[1%nat := x01]> (<[5%nat := x02]> (encode (put_entry "ab" "c"))))
  = [put_entry "a" "bc"].
Proof. vm_compute. reflexivity. Qed.

(** A value that holds, at a 512-byte boundary of its record, the bytes of
    another record. *)
Definition nested_entry : Entry :=
  mkEntry PUT (bs "k") (replicate 502 x78 ++ record_body x01 (bs "ghost") (bs "boo")
                        ++ replicate 100 x78).

(** When that record is torn, the parser resynchronises inside it and recovers a
    write that never happened. *)
Example torn_record_recovers_value_bytes :
  Z.of_nat 600 < record_size (zlen (key nested_entry)) (zlen (value nested_entry)) /\
  parse_log (take 600 (encode nested_entry)) = [put_entry "ghost" "boo"].
Proof. split; vm_compute; reflexivity. Qed.
End WAL.
