(* ===== verification/Fault.v ===== *)
(** * Fault injection

    Models [src/util/fault.h] and [src/util/fault.cpp]: the registry of armed
    points and the three ways production code consults it.  [hit] may throw or
    kill the process, [crashPoint] may only kill it, [shouldFail] only answers.
    Every component that marks a point threads this state. *)

From S2P Require Import Prelude.
Open Scope Z_scope.

Module Fault.

(** ** State *)

Inductive Action := AThrow | ACrash | AFail.

#[export] Instance action_eq_dec : EqDecision Action.
Proof. solve_decision. Defined.

Record Point := mkPoint { hits : Z; nth : Z; repeat : Z; action : Action }.

(** A point's default member initialisers. *)
Definition default_point : Point := mkPoint 0 0 1 AThrow.

Record state := mkState { g_armed : bool; g_points : gmap string Point }.

Definition init : state := mkState false ∅.

(** ** Operations *)

(** [g_points[point]] creates the entry when it is missing. *)
Definition point_of (p : string) (st : state) : Point :=
  default default_point (g_points st !! p).

Definition fires (p : string) (st : state) : option Action * state :=
  let pt := point_of p st in
  let h := u64 (hits pt + 1) in
  let set pt' := mkState (g_armed st) (<[p := pt']> (g_points st)) in
  if bool_decide (nth pt <> 0) && (nth pt <=? h) then
    let nth' := if u64 (nth pt + repeat pt - 1) <=? h then 0 else nth pt in
    (Some (action pt), set (mkPoint h nth' (repeat pt) (action pt)))
  else (None, set (mkPoint h (nth pt) (repeat pt) (action pt))).

Definition hitSlow (p : string) (st : state) : result unit * state :=
  let '(a, st) := fires p st in
  match a with
  | Some ACrash => (Crashed, st)
  | Some AThrow => (Throw (Injected p), st)
  | Some AFail | None => (Ok tt, st)
  end.

Definition crashPointSlow (p : string) (st : state) : result unit * state :=
  let '(a, st) := fires p st in
  match a with
  | Some ACrash => (Crashed, st)
  | _ => (Ok tt, st)
  end.

Definition shouldFailSlow (p : string) (st : state) : bool * state :=
  let '(a, st) := fires p st in
  (bool_decide (a = Some AFail), st).

(** The inline fast paths: one load of [g_armed]. *)
Definition hit (p : string) (st : state) : result unit * state :=
  if g_armed st then hitSlow p st else (Ok tt, st).
Definition crashPoint (p : string) (st : state) : result unit * state :=
  if g_armed st then crashPointSlow p st else (Ok tt, st).
Definition shouldFail (p : string) (st : state) : bool * state :=
  if g_armed st then shouldFailSlow p st else (false, st).

Definition arm (p : string) (n : Z) (a : Action) (rep : Z) (st : state) : state :=
  mkState true (<[p := mkPoint 0 n (if rep =? 0 then 1 else rep) a]> (g_points st)).

Definition disarmAll (st : state) : state := mkState false ∅.

Definition hitCount (p : string) (st : state) : Z :=
  match g_points st !! p with Some pt => hits pt | None => 0 end.

(** [Pause]: the constructor's exchange and the destructor's store. *)
Definition pause (st : state) : bool * state := (g_armed st, mkState false (g_points st)).
Definition resume (was : bool) (st : state) : state := mkState was (g_points st).

(** ** Traces: which of a sequence of consultations fire *)

Fixpoint fires_all (tr : list string) (st : state) : list (option Action) * state :=
  match tr with
  | [] => ([], st)
  | p :: tr =>
      let '(a, st) := fires p st in
      let '(l, st) := fires_all tr st in (a :: l, st)
  end.

(** How often [p] occurs in a trace. *)
Definition occurrences (p : string) (tr : list string) : Z :=
  zlen (List.filter (fun q => bool_decide (q = p)) tr).

(** ** Lemmas *)

Lemma fires_other p q st : p <> q -> point_of q (fires p st).2 = point_of q st.
Proof.
  intros. unfold fires, point_of. case_match; simpl; by rewrite lookup_insert_ne.
Qed.

(** A point armed as [nth], [rep], [a] that has been consulted [h] times. *)
Definition armed_after (h n rep : Z) (a : Action) (pt : Point) : Prop :=
  hits pt = h /\ repeat pt = rep /\ action pt = a /\
  nth pt = if n + rep - 1 <=? h then 0 else n.

Lemma fires_armed p h n rep a st :
  0 < n -> 0 < rep -> 0 <= h -> h + 1 < 2 ^ 64 -> n + rep <= 2 ^ 64 ->
  armed_after h n rep a (point_of p st) ->
  (fires p st).1 = (if (n <=? h + 1) && (h + 1 <? n + rep) then Some a else None) /\
  armed_after (h + 1) n rep a (point_of p (fires p st).2).
Proof.
  intros Hn Hr Hh Hh' Hw (Eh & Er & Ea & En). unfold fires.
  rewrite Eh, Er, En, Ea. rewrite (wrap_small 64 (h + 1)) by lia.
  destruct (Z.leb_spec (n + rep - 1) h).
  - rewrite bool_decide_false by lia. simpl. unfold point_of. simpl. rewrite lookup_insert_eq. simpl.
    rewrite (proj2 (Z.ltb_ge _ _)), andb_false_r by lia. split; [done|].
    repeat split. simpl. by rewrite (proj2 (Z.leb_le _ _)) by lia.
  - rewrite bool_decide_true by lia. rewrite (wrap_small 64 (n + rep - 1)) by lia.
    rewrite (proj2 (Z.ltb_lt (h + 1) (n + rep))) by lia. simpl andb. rewrite andb_true_r.
    destruct (Z.leb_spec n (h + 1)); simpl; unfold point_of; simpl; rewrite lookup_insert_eq; simpl.
    + split; [done|]. repeat split.
    + split; [done|]. repeat split. simpl. by rewrite (proj2 (Z.leb_gt _ _)) by lia.
Qed.

Lemma fires_all_window tr p h n rep a st :
  0 < n -> 0 < rep -> 0 <= h -> h + zlen tr < 2 ^ 64 -> n + rep <= 2 ^ 64 ->
  armed_after h n rep a (point_of p st) ->
  forall i, tr !! i = Some p ->
  (fires_all tr st).1 !! i =
    Some (let k := h + occurrences p (take (S i) tr) in
          if (n <=? k) && (k <? n + rep) then Some a else None).
Proof.
  intros Hn Hr. revert h st. induction tr as [|q tr IH]; intros h st Hh Hmax Hw Harm i Hi; [done|].
  cbn [fires_all length] in *. rewrite (surjective_pairing (fires q st)).
  rewrite (surjective_pairing (fires_all tr _)). simpl fst.
  destruct (decide (q = p)) as [->|Hne].
  - destruct (fires_armed p h n rep a st) as [Hf Harm']; [lia..|done|].
    destruct i as [|i]; simpl in Hi |- *.
    + rewrite Hf. unfold occurrences. simpl. rewrite bool_decide_true by done. done.
    + rewrite (IH (h + 1)); [|lia..|done|done].
      unfold occurrences. cbn [List.filter]. rewrite (bool_decide_true (p = p)) by done.
      cbn [length]. by rewrite Nat2Z.inj_succ, Z.add_succ_r, <- Z.add_succ_l, <- Z.add_1_r.
  - destruct i as [|i]; simpl in Hi |- *; [congruence|].
    rewrite (IH h); [|lia..| |done]; [|by unfold armed_after; rewrite fires_other].
    unfold occurrences. cbn [List.filter]. by rewrite (bool_decide_false (q = p)) by done.
Qed.

(** ** Properties *)

(** a point armed to fire on its [n]-th hit with [rep] repetitions fires on
    exactly the hits [n .. n+rep-1] (with [rep] = 0 read as 1), counting only
    its own hits, whatever other points are consulted in between. *)
Theorem arm_fires_window p n a rep st tr i :
  0 < n -> 0 <= rep -> n + Z.max rep 1 <= 2 ^ 64 -> zlen tr < 2 ^ 64 ->
  tr !! i = Some p ->
  (fires_all tr (arm p n a rep st)).1 !! i =
    Some (let k := occurrences p (take (S i) tr) in
          if (n <=? k) && (k <? n + Z.max rep 1) then Some a else None).
Proof.
  intros Hn Hr Hw Hmax Hi. apply (fires_all_window tr p 0 n (Z.max rep 1) a); [lia..| |done].
  unfold point_of, arm. simpl. rewrite lookup_insert_eq. simpl. repeat split; simpl.
  - destruct (Z.eqb_spec rep 0); lia.
  - by rewrite (proj2 (Z.leb_gt _ _)) by lia.
Qed.

Lemma arm_fires_window_witness :
  (fires_all ["a"; "b"; "a"; "a"; "a"] (arm "a" 2 ACrash 2 init)).1 !! 3%nat = Some (Some ACrash).
Proof.
  apply (arm_fires_window "a" 2 ACrash 2 init ["a"; "b"; "a"; "a"; "a"] 3);
    (reflexivity || vm_compute; congruence).
Defined.

(** while nothing is armed, or while a [Pause] is alive, no point has any
    effect and no hit is counted. *)
Theorem disarmed_inert p st :
  g_armed st = false ->
  hit p st = (Ok tt, st) /\ crashPoint p st = (Ok tt, st) /\ shouldFail p st = (false, st).
Proof. intros H. unfold hit, crashPoint, shouldFail. by rewrite H. Qed.

Lemma disarmed_inert_witness :
  let st := (pause (arm "a" 1 ACrash 1 init)).2 in
  hit "a" st = (Ok tt, st) /\ crashPoint "a" st = (Ok tt, st) /\ shouldFail "a" st = (false, st).
Proof. apply disarmed_inert. reflexivity. Defined.

End Fault.
