(* ===== verification/Kernel.v ===== *)
(** * The kernel as the log writer uses it

    The writer ([src/wal/wal_writer.cpp]) talks to the operating system: system
    calls on the log file and [io_uring] through liburing.  None of that is code
    of the repository.  [Uring] lists the calls; [UringSpec] is what their
    documentation promises, over an abstract state of rings and file in which
    the kernel makes progress ([kstep]) on its own during any call: it writes
    requests, wholly or in part, and completes them as it likes. *)

From S2P Require Import Prelude WalFormat.
Open Scope Z_scope.

Module Kernel.

(** ** The calls *)

Class Uring (R : Type) := {
  sqe : Type;                                       (* struct io_uring_sqe* *)
  open_log : R -> bool * R;                         (* open(path, O_WRONLY | O_CREAT | O_DIRECT) >= 0 *)
  stat_log : R -> option Z * R;                     (* fstat's st_size *)
  remove_log : R -> bool * R;                       (* filesystem::remove sets its error_code *)
  fdatasync : R -> bool * R;                        (* fdatasync(fd) == 0 *)
  memalign : R -> bool * R;                         (* posix_memalign(..) == 0 *)
  queue_init : R -> bool * R;
  queue_exit : R -> R;
  get_sqe : R -> option sqe * R;
  prep_write : sqe -> Z -> str -> Z -> R -> R;      (* buffer, its first nbytes bytes, offset *)
  set_data : sqe -> option Z -> R -> R;
  submit : R -> Z * R;
  peek_cqe : R -> option (Z * option Z) * R;        (* res and user data of the oldest completion *)
  cqe_seen : R -> R;
  wait_cqe_timeout : R -> Z * R;
  read_log : R -> option str;                       (* what opening the file for reading finds *)
  reads : R -> list WAL.read_outcome;               (* how the reads of it go *)
  events : R -> nat                                 (* completions and interrupts still to come *)
}.

Definition EINTR : Z := 4.
Definition EIO : Z := 5.
Definition ECANCELED : Z := 125.

(** The most one write transfers: Linux's [MAX_RW_COUNT]. *)
Definition MAX_RW_COUNT : Z := 0x7ffff000.

(** ** Abstract state *)

(** A write request: the buffer, the bytes in it, the file position and the
    user data. *)
Record req := mkReq { r_buf : Z; r_data : str; r_off : Z; r_tag : option Z }.
Definition blank : req := mkReq 0 [] 0 None.

Record kstate (S : Type) := mkK {
  k_sq : list (S * req);            (* handed out, not yet submitted *)
  k_fly : list (req * bool);        (* submitted; whether the data has landed *)
  k_cq : list (req * Z);            (* completed, not yet seen *)
  k_file : option str;              (* the file under the log's path *)
  k_synced : str;                   (* its content at the last fdatasync *)
  k_interrupts : nat;
  k_accepts : bool;                 (* io_uring_submit never refuses *)
  k_reliable : bool;                (* and nothing else fails either *)
  k_whole : Z                       (* the bytes a request may have to be written in one piece *)
}.
Arguments mkK {S}.
Arguments k_sq {S}.
Arguments k_fly {S}.
Arguments k_cq {S}.
Arguments k_file {S}.
Arguments k_synced {S}.
Arguments k_interrupts {S}.
Arguments k_accepts {S}.
Arguments k_reliable {S}.
Arguments k_whole {S}.

(** [pwrite]: past the end, the gap reads as zeros. *)
Definition pwrite (off : Z) (data f : str) : str :=
  let n := Z.to_nat off in
  take n f ++ replicate (n - length f) x00 ++ data ++ drop (n + length data) f.

Section kstate.
Context {S : Type}.
Implicit Types (k : kstate S).

Definition set_rings sq fly cq k : kstate S :=
  mkK sq fly cq (k_file k) (k_synced k) (k_interrupts k) (k_accepts k) (k_reliable k) (k_whole k).
Definition set_file f k : kstate S :=
  mkK (k_sq k) (k_fly k) (k_cq k) f (k_synced k) (k_interrupts k) (k_accepts k) (k_reliable k) (k_whole k).
Definition set_synced f k : kstate S :=
  mkK (k_sq k) (k_fly k) (k_cq k) (k_file k) f (k_interrupts k) (k_accepts k) (k_reliable k) (k_whole k).
Definition set_interrupts n k : kstate S :=
  mkK (k_sq k) (k_fly k) (k_cq k) (k_file k) (k_synced k) n (k_accepts k) (k_reliable k) (k_whole k).

(** What is written in one piece: when nothing fails, all that one write
    transfers. *)
Definition k_limit k : Z := if k_reliable k then MAX_RW_COUNT else k_whole k.

(** Progress the kernel makes on its own.  Requests land and complete in any
    order.  One of more than [k_limit] bytes may land in part: any number of its
    first bytes, once or again, whether it then completes short, with an error, as
    cancelled or not at all.  A smaller one lands whole or not at all.  The full
    result of one of at most [MAX_RW_COUNT] bytes means that it has landed; any
    other result says nothing. *)
Inductive kstep : kstate S -> kstate S -> Prop :=
  | step_land A q b B k f :
      k_fly k = A ++ (q, b) :: B -> k_file k = Some f -> zlen (r_data q) <= MAX_RW_COUNT ->
      kstep k (set_file (Some (pwrite (r_off q) (r_data q) f)) (set_rings (k_sq k) (A ++ (q, true) :: B) (k_cq k) k))
  | step_land_part A q b B k f n :
      k_fly k = A ++ (q, b) :: B -> k_file k = Some f -> k_limit k < zlen (r_data q) ->
      kstep k (set_file (Some (pwrite (r_off q) (take n (r_data q)) f)) k)
  | step_land_gone A q b B k :
      k_fly k = A ++ (q, b) :: B -> k_file k = None ->
      kstep k (set_rings (k_sq k) (A ++ (q, true) :: B) (k_cq k) k)
  | step_complete A q b B k res :
      k_fly k = A ++ (q, b) :: B -> res <= zlen (r_data q) ->
      (zlen (r_data q) <= MAX_RW_COUNT -> res = zlen (r_data q) -> b = true) ->
      (k_reliable k = true -> zlen (r_data q) <= MAX_RW_COUNT -> res = zlen (r_data q)) ->
      kstep k (set_rings (k_sq k) (A ++ B) (k_cq k ++ [(q, res)]) k).

Definition ksteps : kstate S -> kstate S -> Prop := rtc kstep.

(** Completions and interrupts still to come. *)
Definition pending_events k : nat := (length (k_sq k) + length (k_fly k) + length (k_cq k) + k_interrupts k)%nat.

End kstate.

(** ** What the calls promise *)

(** [rep r k]: after the last call the kernel was in state [k].  Every law lets
    it make progress first, then says what the call does. *)
Class UringSpec (R : Type) `{Uring R} := {
  rep : R -> kstate sqe -> Prop;

  (** A request of so many bytes lands whole or not at all.  The log is opened
      with [O_DIRECT], which transfers whole blocks: 512 is safe to assume. *)
  whole_write : Z;
  whole_write_max : whole_write <= MAX_RW_COUNT;
  rep_whole r k : rep r k -> k_whole k = whole_write;

  rep_read r k : rep r k -> read_log r = k_file k;
  rep_reads r k : rep r k -> k_reliable k = true -> WAL.ReadFailed ∉ reads r;
  rep_events r k : rep r k -> (pending_events k <= events r)%nat;
  rep_reliable r k : rep r k -> k_reliable k = true -> k_accepts k = true;

  open_log_spec r k : rep r k ->
    let '(ok, r') := open_log r in exists k1, ksteps k k1 /\ (k_reliable k = true -> ok = true) /\
      rep r' (if (ok : bool) then set_file (Some (default [] (k_file k1))) k1 else k1);

  stat_log_spec r k : rep r k ->
    let '(size, r') := stat_log r in exists k1, ksteps k k1 /\ (k_reliable k = true -> is_Some size) /\
      rep r' k1 /\ (forall n, size = Some n -> n = zlen (default [] (k_file k1)));

  remove_log_spec r k : rep r k ->
    let '(failed, r') := remove_log r in exists k1, ksteps k k1 /\ (k_reliable k = true -> failed = false) /\
      rep r' (if (failed : bool) then k1 else set_file None k1);

  fdatasync_spec r k : rep r k ->
    let '(ok, r') := fdatasync r in exists k1, ksteps k k1 /\ (k_reliable k = true -> ok = true) /\
      rep r' (if (ok : bool) then set_synced (default [] (k_file k1)) k1 else k1);

  memalign_spec r k : rep r k ->
    let '(ok, r') := memalign r in exists k1, ksteps k k1 /\ (k_reliable k = true -> ok = true) /\ rep r' k1;

  queue_init_spec r k : rep r k -> k_sq k = [] -> k_fly k = [] -> k_cq k = [] ->
    let '(ok, r') := queue_init r in (k_reliable k = true -> ok = true) /\ rep r' k;

  queue_exit_spec r k : rep r k -> exists k1, ksteps k k1 /\ rep (queue_exit r) (set_rings [] [] [] k1);

  get_sqe_spec r k : rep r k ->
    let '(slot, r') := get_sqe r in exists k1, ksteps k k1 /\ (k_sq k = [] -> is_Some slot) /\
      rep r' (match slot with
              | Some s => set_rings (k_sq k1 ++ [(s, blank)]) (k_fly k1) (k_cq k1) k1
              | None => k1
              end);

  prep_write_spec r k l s q buf data off :
    rep r k -> k_sq k = l ++ [(s, q)] -> exists k1, ksteps k k1 /\
      rep (prep_write s buf data off r) (set_rings (l ++ [(s, mkReq buf data off (r_tag q))]) (k_fly k1) (k_cq k1) k1);

  set_data_spec r k l s q tag :
    rep r k -> k_sq k = l ++ [(s, q)] -> exists k1, ksteps k k1 /\
      rep (set_data s tag r)
        (set_rings (l ++ [(s, mkReq (r_buf q) (r_data q) (r_off q) tag)]) (k_fly k1) (k_cq k1) k1);

  (** The first [n] entries are taken. *)
  submit_spec r k : rep r k ->
    let '(n, r') := submit r in exists k1, ksteps k k1 /\ n <= zlen (k_sq k) /\
      (k_accepts k = true -> n = zlen (k_sq k)) /\
      rep r' (set_rings (drop (Z.to_nat n) (k_sq k1))
                (k_fly k1 ++ ((fun x => (x.2, false)) <$> take (Z.to_nat n) (k_sq k1))) (k_cq k1) k1);

  peek_cqe_spec r k : rep r k ->
    let '(c, r') := peek_cqe r in exists k1, ksteps k k1 /\ rep r' k1 /\
      c = (fun x => (x.2, r_tag x.1)) <$> head (k_cq k1);

  cqe_seen_spec r k x l : rep r k -> k_cq k = x :: l -> exists k1, ksteps k k1 /\
      rep (cqe_seen r) (set_rings (k_sq k1) (k_fly k1) (tail (k_cq k1)) k1);

  (** It waits until there is a completion, is interrupted, or fails. *)
  wait_cqe_spec r k : rep r k ->
    let '(ret, r') := wait_cqe_timeout r in exists k1, ksteps k k1 /\
      (0 <= ret -> k_cq k1 <> []) /\ 
      (k_reliable k = true -> ret < 0 -> ret = - EINTR \/ k_fly k = [] /\ k_cq k = []) /\
      exists n, rep r' (set_interrupts n k1) /\ if ret =? - EINTR then (n < k_interrupts k)%nat else n = k_interrupts k
}.

(** A record is sure to be written in one piece: on a system where nothing fails
    ([b]) up to what one write transfers, else up to [whole] bytes. *)
Definition write_limit (whole : Z) (b : bool) : Z := if b then MAX_RW_COUNT else whole.

Lemma write_limit_max `{UringSpec R} b : write_limit whole_write b <= MAX_RW_COUNT.
Proof. destruct b; cbn; [done|apply whole_write_max]. Qed.

Lemma write_limit_spec `{UringSpec R} b r k :
  rep r k -> (b = true -> k_reliable k = true) -> write_limit whole_write b <= k_limit k.
Proof.
  intros Hr Hb. unfold k_limit. rewrite (rep_whole _ _ Hr). destruct b; [by rewrite Hb|].
  destruct (k_reliable k); [apply whole_write_max|done].
Qed.

Lemma kstep_frame {S} (k k1 : kstate S) :
  kstep k k1 -> k_sq k1 = k_sq k /\ k_synced k1 = k_synced k /\ k_interrupts k1 = k_interrupts k /\
    k_accepts k1 = k_accepts k /\ k_reliable k1 = k_reliable k /\ (pending_events k1 = pending_events k).
Proof.
  unfold pending_events. destruct 1 as [A q b B k f Hf _ _|A q b B k f n Hf _ _|A q b B k Hf _|A q b B k res Hf _ _ _]; cbn; rewrite ?Hf, ?length_app; cbn [length]; split_and!; (done || lia).
Qed.

Lemma ksteps_frame {S} (k k1 : kstate S) :
  ksteps k k1 -> k_sq k1 = k_sq k /\ k_synced k1 = k_synced k /\ k_interrupts k1 = k_interrupts k /\
    k_accepts k1 = k_accepts k /\ k_reliable k1 = k_reliable k /\ (pending_events k1 = pending_events k).
Proof.
  induction 1 as [k|k k1 k2 (? & ? & ? & ? & ? & ?)%kstep_frame _ (? & ? & ? & ? & ? & ?)]; [done|].
  split_and!; congruence.
Qed.

Lemma ksteps_limit {S} (k k1 : kstate S) : ksteps k k1 -> k_limit k1 = k_limit k.
Proof. induction 1 as [k|k k1 k2 H _ IH]; [done|]. rewrite IH. by destruct H. Qed.

(** ** A scripted kernel

    A concrete kernel for examples: a script says how the next completions and
    waits go, two lists which submissions are refused and which other calls
    fail; what they do not say succeeds. *)

Inductive event := Completes | Fails (res : Z) | Interrupts | Stalls.

Record scripted := mkScripted {
  sc_sq : list (nat * req);
  sc_fly : list (req * bool);
  sc_cq : list (req * Z);
  sc_file : option str;
  sc_synced : str;
  sc_slot : nat;
  sc_script : list event;
  sc_refused : list bool;
  sc_calls : list bool
}.

Definition sc_rings sq fly cq (r : scripted) : scripted :=
  mkScripted sq fly cq (sc_file r) (sc_synced r) (sc_slot r) (sc_script r) (sc_refused r) (sc_calls r).
Definition sc_set_file f (r : scripted) : scripted :=
  mkScripted (sc_sq r) (sc_fly r) (sc_cq r) f (sc_synced r) (sc_slot r) (sc_script r) (sc_refused r) (sc_calls r).
Definition sc_set_synced f (r : scripted) : scripted :=
  mkScripted (sc_sq r) (sc_fly r) (sc_cq r) (sc_file r) f (sc_slot r) (sc_script r) (sc_refused r) (sc_calls r).
Definition sc_next_slot (r : scripted) : scripted :=
  mkScripted (sc_sq r) (sc_fly r) (sc_cq r) (sc_file r) (sc_synced r) (S (sc_slot r)) (sc_script r) (sc_refused r) (sc_calls r).
Definition sc_set_script l (r : scripted) : scripted :=
  mkScripted (sc_sq r) (sc_fly r) (sc_cq r) (sc_file r) (sc_synced r) (sc_slot r) l (sc_refused r) (sc_calls r).
Definition sc_set_refused l (r : scripted) : scripted :=
  mkScripted (sc_sq r) (sc_fly r) (sc_cq r) (sc_file r) (sc_synced r) (sc_slot r) (sc_script r) l (sc_calls r).
Definition sc_set_calls l (r : scripted) : scripted :=
  mkScripted (sc_sq r) (sc_fly r) (sc_cq r) (sc_file r) (sc_synced r) (sc_slot r) (sc_script r) (sc_refused r) l.

Definition sc_call (r : scripted) : bool * scripted :=
  match sc_calls r with
  | [] => (true, r)
  | ok :: l => (ok, sc_set_calls l r)
  end.

(** The oldest flying request lands and completes, or completes with [res]. *)
Definition sc_complete (outcome : option Z) (r : scripted) : scripted :=
  match sc_fly r with
  | [] => r
  | (q, b) :: fly =>
      match outcome with
      | None => sc_set_file (pwrite (r_off q) (r_data q) <$> sc_file r)
                  (sc_rings (sc_sq r) fly (sc_cq r ++ [(q, zlen (r_data q))]) r)
      | Some res => sc_rings (sc_sq r) fly (sc_cq r ++ [(q, Z.min res (-1))]) r
      end
  end.

Definition sc_peek (r : scripted) : scripted :=
  match sc_cq r, sc_fly r, sc_script r with
  | [], _ :: _, [] => sc_complete None r
  | [], _ :: _, Completes :: l => sc_complete None (sc_set_script l r)
  | [], _ :: _, Fails res :: l => sc_complete (Some res) (sc_set_script l r)
  | [], _ :: _, Stalls :: l => sc_set_script l r
  | _, _, _ => r
  end.

Definition sc_wait (r : scripted) : Z * scripted :=
  match sc_cq r, sc_fly r, sc_script r with
  | _ :: _, _, _ => (0, r)
  | [], [], _ => (-62, r)
  | [], _ :: _, [] => (0, sc_complete None r)
  | [], _ :: _, Completes :: l => (0, sc_complete None (sc_set_script l r))
  | [], _ :: _, Fails res :: l => (0, sc_complete (Some res) (sc_set_script l r))
  | [], _ :: _, Stalls :: l => (-62, sc_set_script l r)
  | [], _ :: _, Interrupts :: l => (- EINTR, sc_set_script l r)
  end.

(** Changes the entry handed out last. *)
Definition sc_last (f : req -> req) (r : scripted) : scripted :=
  match reverse (sc_sq r) with
  | [] => r
  | (s, q) :: l => sc_rings (reverse l ++ [(s, f q)]) (sc_fly r) (sc_cq r) r
  end.

Definition sc_submit (r : scripted) : Z * scripted :=
  let go r := (zlen (sc_sq r), sc_rings [] (sc_fly r ++ ((fun x => (x.2, false)) <$> sc_sq r)) (sc_cq r) r) in
  match sc_refused r with
  | true :: l => (-11, sc_set_refused l r)
  | false :: l => go (sc_set_refused l r)
  | [] => go r
  end.

Definition interrupts (l : list event) : nat := length (List.filter (fun e => match e with Interrupts => true | _ => false end) l).

Arguments interrupts : simpl never.

#[export] Instance scripted_uring : Uring scripted := {
  sqe := nat;
  open_log r := let '(ok, r) := sc_call r in (ok, if ok then sc_set_file (Some (default [] (sc_file r))) r else r);
  stat_log r := let '(ok, r) := sc_call r in (if ok then Some (zlen (default [] (sc_file r))) else None, r);
  remove_log r := let '(ok, r) := sc_call r in (negb ok, if ok then sc_set_file None r else r);
  fdatasync r := let '(ok, r) := sc_call r in (ok, if ok then sc_set_synced (default [] (sc_file r)) r else r);
  memalign r := sc_call r;
  queue_init r := sc_call r;
  queue_exit r := sc_rings [] [] [] r;
  get_sqe r := if (length (sc_sq r) <? 8)%nat
    then (Some (sc_slot r), sc_next_slot (sc_rings (sc_sq r ++ [(sc_slot r, blank)]) (sc_fly r) (sc_cq r) r)) else (None, r);
  prep_write s buf data off r := sc_last (fun q => mkReq buf data off (r_tag q)) r;
  set_data s tag r := sc_last (fun q => mkReq (r_buf q) (r_data q) (r_off q) tag) r;
  submit r := sc_submit r;
  peek_cqe r := let r := sc_peek r in ((fun x => (x.2, r_tag x.1)) <$> head (sc_cq r), r);
  cqe_seen r := sc_rings (sc_sq r) (sc_fly r) (tail (sc_cq r)) r;
  wait_cqe_timeout r := sc_wait r;
  read_log r := sc_file r;
  reads r := [];
  events r := (length (sc_sq r) + length (sc_fly r) + length (sc_cq r) + interrupts (sc_script r))%nat
}.

(** What the flags promise about what is left of the script. *)
Definition sc_rep (r : scripted) (k : kstate nat) : Prop :=
  k_whole k = 512 /\ k_sq k = sc_sq r /\ k_fly k = sc_fly r /\ k_cq k = sc_cq r /\ k_file k = sc_file r /\ k_synced k = sc_synced r /\
  k_interrupts k = interrupts (sc_script r) /\
  (k_accepts k = true -> Forall (eq false) (sc_refused r)) /\
  (k_reliable k = true -> k_accepts k = true /\ Forall (eq Completes) (sc_script r) /\ Forall (eq true) (sc_calls r)).

Lemma sc_rep_calls r k ok r' :
  sc_rep r k -> sc_call r = (ok, r') -> sc_rep r' k /\ (k_reliable k = true -> ok = true).
Proof.
  intros (H0 & H1 & H2 & H3 & H4 & H5 & H6 & H7 & H8). unfold sc_call. destruct (sc_calls r) as [|b l] eqn:E; intros [= <- <-].
  - split; [|done]. unfold sc_rep. rewrite E. done.
  - split; [|by intros (_ & _ & Hc)%H8; inversion Hc].
    unfold sc_rep. cbn. split_and!; [done..|]. intros (? & ? & Hc)%H8. inversion Hc. done.
Qed.

Lemma sc_rep_rings r k sq fly cq : sc_rep r k -> sc_rep (sc_rings sq fly cq r) (set_rings sq fly cq k).
Proof. intros (H0 & H1 & H2 & H3 & H4 & H5 & H6 & H7 & H8). unfold sc_rep. cbn. done. Qed.


Lemma ksteps_two {S} (k k1 k2 k3 : kstate S) : kstep k k1 -> kstep k1 k2 -> k2 = k3 -> ksteps k k3.
Proof. intros H1 H2 <-. eapply rtc_l; [done|]. by apply rtc_once. Qed.

(** A completion by the script is one or two steps of the kernel. *)
Lemma sc_complete_spec r k outcome :
  sc_rep r k -> sc_fly r <> [] -> (k_reliable k = true -> outcome = None) ->
  exists k1, ksteps k k1 /\ sc_rep (sc_complete outcome r) k1 /\ k_cq k1 <> [].
Proof.
  intros Hr Hfly Hrel. pose proof Hr as (H0 & H1 & H2 & H3 & H4 & H5 & H6 & H7 & H8).
  unfold sc_complete. destruct (sc_fly r) as [|[q b] fly] eqn:Efly; [done|]. destruct outcome as [res|].
  - exists (set_rings (k_sq k) fly (k_cq k ++ [(q, Z.min res (-1))]) k).
    split_and!; [|unfold sc_rep; cbn; by rewrite H1, H3|by destruct (k_cq k)].
    apply rtc_once. apply (step_complete [] q b); [done|lia|lia|]. intros Hk. by specialize (Hrel Hk).
  - set (k2 := set_file (pwrite (r_off q) (r_data q) <$> k_file k)
                 (set_rings (k_sq k) fly (k_cq k ++ [(q, zlen (r_data q))]) k)).
    exists k2. split_and!; [|unfold sc_rep; cbn; by rewrite H1, H3, H4|by destruct k, k_cq].
    destruct (k_file k) as [f|] eqn:Ef.
    + destruct (decide (zlen (r_data q) <= MAX_RW_COUNT)).
      * eapply ksteps_two; [by apply (step_land [] q b fly k f)|by eapply (step_complete [] q true)|done].
      * assert (k_limit k <= MAX_RW_COUNT) by (unfold k_limit, MAX_RW_COUNT; rewrite H0; destruct (k_reliable k); lia).
        eapply ksteps_two; [apply (step_land_part [] q b fly k f (length (r_data q))); (done || lia)| |].
        -- apply (step_complete [] q b fly _ (zlen (r_data q))); (done || lia).
        -- by rewrite take_ge by done.
    + eapply ksteps_two; [by apply (step_land_gone [] q b fly k)|by eapply (step_complete [] q true)|].
      unfold k2. destruct k; cbn in *; by subst.
Qed.

Lemma sc_rep_script r k l :
  sc_rep r k -> interrupts l = interrupts (sc_script r) -> (Forall (eq Completes) (sc_script r) -> Forall (eq Completes) l) ->
  sc_rep (sc_set_script l r) k.
Proof.
  intros (H0 & H1 & H2 & H3 & H4 & H5 & H6 & H7 & H8) Hi Hc. unfold sc_rep. cbn. split_and!; [done..|congruence|done|].
  intros (? & ? & ?)%H8. auto.
Qed.

Lemma sc_last_spec r k l s q f :
  sc_rep r k -> k_sq k = l ++ [(s, q)] -> sc_rep (sc_last f r) (set_rings (l ++ [(s, f q)]) (k_fly k) (k_cq k) k).
Proof.
  intros Hr Hl. pose proof Hr as (H0 & H1 & H2 & H3 & _). unfold sc_last.
  rewrite <- H1, Hl, reverse_snoc, reverse_involutive, H2, H3. by apply sc_rep_rings.
Qed.

Lemma sc_wait_spec r k : sc_rep r k ->
  exists k1, ksteps k k1 /\ (0 <= (sc_wait r).1 -> k_cq k1 <> []) /\
    (k_reliable k = true -> (sc_wait r).1 < 0 -> (sc_wait r).1 = - EINTR \/ k_fly k = [] /\ k_cq k = []) /\
    exists n, sc_rep (sc_wait r).2 (set_interrupts n k1) /\
      if (sc_wait r).1 =? - EINTR then (n < k_interrupts k)%nat else n = k_interrupts k.
Proof.
  intros Hr. pose proof Hr as (H0 & H1 & H2 & H3 & H4 & H5 & H6 & H7 & H8).
  assert (forall k1, ksteps k k1 -> forall r', sc_rep r' k1 -> exists n, sc_rep r' (set_interrupts n k1) /\ n = k_interrupts k) as Hsame.
  { intros k1 (_ & _ & Hi & _)%ksteps_frame r' Hr'. exists (k_interrupts k1). split; [by destruct k1|done]. }
  unfold sc_wait. destruct (sc_cq r) as [|c cq] eqn:Ecq.
  2:{ exists k. cbn. rewrite H3. split_and!; [apply rtc_refl|done|lia|]. apply Hsame; [apply rtc_refl|done]. }
  destruct (sc_fly r) as [|x fly] eqn:Efly.
  { exists k. cbn. split_and!; [apply rtc_refl|lia|by right|]. apply Hsame; [apply rtc_refl|done]. }
  assert (forall l outcome, interrupts l = interrupts (sc_script r) ->
    (Forall (eq Completes) (sc_script r) -> Forall (eq Completes) l /\ outcome = None) ->
    exists k1, ksteps k k1 /\ (0 <= 0 -> k_cq k1 <> []) /\
    (k_reliable k = true -> 0 < 0 -> 0 = - EINTR \/ k_fly k = [] /\ k_cq k = []) /\
    exists n, sc_rep (sc_complete outcome (sc_set_script l r)) (set_interrupts n k1) /\ n = k_interrupts k) as Hgo.
  { intros l outcome Hi Hl. destruct (sc_complete_spec (sc_set_script l r) k outcome) as (k1 & Hk1 & Hr1 & Hne).
    - apply sc_rep_script; [done|done|]. intros Hc. by apply Hl.
    - cbn. by rewrite Efly.
    - intros (_ & Hc & _)%H8. by apply Hl.
    - exists k1. split_and!; [done|done|lia|]. by apply Hsame. }
  destruct (sc_script r) as [|[|res| |] l] eqn:El; cbn [fst snd].
  - replace r with (sc_set_script [] r) by (destruct r; cbn in *; by subst). by apply Hgo.
  - apply Hgo; [done|]. intros Hc. inversion Hc. by split.
  - apply Hgo; [done|]. intros Hc. inversion Hc. done.
  - exists k. split_and!; [apply rtc_refl|done|by left|].
    exists (interrupts l). rewrite Z.eqb_refl, H6. split; [|unfold interrupts; cbn; lia].
    unfold sc_rep. cbn. split_and!; [congruence..|done|]. intros (_ & Hc & _)%H8. inversion Hc. done.
  - exists k. split_and!; [apply rtc_refl|done|by intros (_ & Hc & _)%H8; inversion Hc|].
    apply Hsame; [apply rtc_refl|]. apply sc_rep_script; [done|by rewrite El|]. rewrite El. intros Hc. by inversion Hc.
Qed.

Lemma sc_peek_spec r k : sc_rep r k -> exists k1, ksteps k k1 /\ sc_rep (sc_peek r) k1.
Proof.
  intros Hr. pose proof Hr as (H0 & H1 & H2 & H3 & H4 & H5 & H6 & H7 & H8). unfold sc_peek.
  assert (exists k1, ksteps k k1 /\ sc_rep r k1) as Hno by (exists k; split; [apply rtc_refl|done]).
  destruct (sc_cq r) as [|c cq]; [|done]. destruct (sc_fly r) as [|x fly] eqn:Efly; [done|].
  assert (forall l outcome, interrupts l = interrupts (sc_script r) ->
    (Forall (eq Completes) (sc_script r) -> Forall (eq Completes) l /\ outcome = None) ->
    exists k1, ksteps k k1 /\ sc_rep (sc_complete outcome (sc_set_script l r)) k1) as Hgo.
  { intros l outcome Hi Hl. destruct (sc_complete_spec (sc_set_script l r) k outcome) as (k1 & Hk1 & Hr1 & _).
    - apply sc_rep_script; [done|done|]. intros Hc. by apply Hl.
    - cbn. by rewrite Efly.
    - intros (_ & Hc & _)%H8. by apply Hl.
    - by exists k1. }
  destruct (sc_script r) as [|[|res| |] l] eqn:El.
  - replace r with (sc_set_script [] r) by (destruct r; cbn in *; by subst). by apply Hgo.
  - apply Hgo; [done|]. intros Hc. inversion Hc. by split.
  - apply Hgo; [done|]. intros Hc. inversion Hc. done.
  - done.
  - exists k. split; [apply rtc_refl|]. apply sc_rep_script; [done|by rewrite El|]. rewrite El. intros Hc. by inversion Hc.
Qed.

Lemma sc_submit_spec r k : sc_rep r k ->
  let '(n, r') := sc_submit r in n <= zlen (k_sq k) /\ (k_accepts k = true -> n = zlen (k_sq k)) /\
    sc_rep r' (set_rings (drop (Z.to_nat n) (k_sq k))
                (k_fly k ++ ((fun x => (x.2, false)) <$> take (Z.to_nat n) (k_sq k))) (k_cq k) k).
Proof.
  intros Hr. pose proof Hr as (H0 & H1 & H2 & H3 & H4 & H5 & H6 & H7 & H8).
  assert (forall l, (Forall (eq false) (sc_refused r) -> Forall (eq false) l) -> sc_rep (sc_set_refused l r) k) as Hrep.
  { intros l Hl. unfold sc_rep. cbn. split_and!; auto. }
  assert (forall r, sc_rep r k -> zlen (sc_sq r) <= zlen (k_sq k) /\ (k_accepts k = true -> zlen (sc_sq r) = zlen (k_sq k)) /\
    sc_rep (sc_rings [] (sc_fly r ++ ((fun x => (x.2, false)) <$> sc_sq r)) (sc_cq r) r)
      (set_rings (drop (Z.to_nat (zlen (sc_sq r))) (k_sq k))
                (k_fly k ++ ((fun x => (x.2, false)) <$> take (Z.to_nat (zlen (sc_sq r))) (k_sq k))) (k_cq k) k)) as Hgo.
  { clear. intros r Hr. pose proof Hr as (H0 & H1 & H2 & H3 & _). rewrite H1, H2, H3. split_and!; [lia|done|].
    rewrite Nat2Z.id, drop_ge, take_ge by lia. by apply sc_rep_rings. }
  unfold sc_submit. destruct (sc_refused r) as [|[] l] eqn:E.
  - by apply Hgo.
  - split_and!; [lia|by intros Hc%H7; inversion Hc|]. change (Z.to_nat (-11)) with 0%nat.
    rewrite drop_0, take_0, app_nil_r. replace (set_rings (k_sq k) (k_fly k) (k_cq k) k) with k by by destruct k.
    apply Hrep. intros Hc. by inversion Hc.
  - apply Hgo, Hrep. intros Hc. by inversion Hc.
Qed.

#[export] Program Instance scripted_spec : UringSpec scripted := {| rep := sc_rep; whole_write := 512 |}.
Next Obligation. done. Qed.
Next Obligation. by intros r k (? & _). Qed.
Next Obligation. by intros r k (_ & _ & _ & _ & ? & _). Qed.
Next Obligation. intros r k _ _. cbn. apply not_elem_of_nil. Qed.
Next Obligation. intros r k (_ & H1 & H2 & H3 & _ & _ & H6 & _). unfold pending_events. cbn. rewrite H1, H2, H3, H6. done. Qed.
Next Obligation. intros r k (_ & _ & _ & _ & _ & _ & _ & _ & H) Hk. by apply H. Qed.
Next Obligation.
  intros r k Hr. cbn. destruct (sc_call r) as [ok r'] eqn:E. destruct (sc_rep_calls r k ok r' Hr E) as [Hr' Hok].
  exists k. split_and!; [apply rtc_refl|done|]. pose proof Hr' as (? & ? & ? & ? & Hf & ?). destruct ok; [|done].
  rewrite Hf. by unfold sc_rep.
Qed.
Next Obligation.
  intros r k Hr. cbn. destruct (sc_call r) as [ok r'] eqn:E. destruct (sc_rep_calls r k ok r' Hr E) as [Hr' Hok].
  exists k. pose proof Hr' as (_ & _ & _ & _ & Hf & _). rewrite Hf.
  split_and!; [apply rtc_refl|intros Hk; rewrite Hok; by eauto|done|]. destruct ok; by intros ? [= <-].
Qed.
Next Obligation.
  intros r k Hr. cbn. destruct (sc_call r) as [ok r'] eqn:E. destruct (sc_rep_calls r k ok r' Hr E) as [Hr' Hok].
  exists k. split_and!; [apply rtc_refl|intros Hk; by rewrite Hok|]. pose proof Hr' as (? & ? & ? & ? & Hf & ?).
  destruct ok; [|done]. by unfold sc_rep.
Qed.
Next Obligation.
  intros r k Hr. cbn. destruct (sc_call r) as [ok r'] eqn:E. destruct (sc_rep_calls r k ok r' Hr E) as [Hr' Hok].
  exists k. split_and!; [apply rtc_refl|done|]. pose proof Hr' as (? & ? & ? & ? & Hf & ? & ?). destruct ok; [|done].
  rewrite Hf. by unfold sc_rep.
Qed.
Next Obligation.
  intros r k Hr. cbn. destruct (sc_call r) as [ok r'] eqn:E. destruct (sc_rep_calls r k ok r' Hr E) as [Hr' Hok].
  exists k. split_and!; [apply rtc_refl|done|done].
Qed.
Next Obligation.
  intros r k Hr _ _ _. cbn. destruct (sc_call r) as [ok r'] eqn:E. by destruct (sc_rep_calls r k ok r' Hr E).
Qed.
Next Obligation. intros r k Hr. exists k. split; [apply rtc_refl|]. by apply sc_rep_rings. Qed.
Next Obligation.
  intros r k Hr. cbn [get_sqe scripted_uring]. pose proof Hr as (H0 & H1 & H2 & H3 & _).
  destruct (Nat.ltb_spec (length (sc_sq r)) 8) as [Hlt|Hge]; cbn [fst snd]; exists k; (split_and!; [apply rtc_refl| |]).
  - by eauto.
  - pose proof (sc_rep_rings _ _ (sc_sq r ++ [(sc_slot r, blank)]) (sc_fly r) (sc_cq r) Hr) as Hr'.
    rewrite <- H1, <- H2, <- H3 in Hr' |- *. exact Hr'.
  - intros E. assert (sc_sq r = []) as E' by (transitivity (k_sq k); [by symmetry|exact E]).
    rewrite E' in Hge. cbn in Hge. lia.
  - done.
Qed.
Next Obligation.
  intros r k l s q buf data off Hr Hl. exists k. split; [apply rtc_refl|]. by apply (sc_last_spec r k l s q (fun q => mkReq buf data off (r_tag q))).
Qed.
Next Obligation.
  intros r k l s q tag Hr Hl. exists k. split; [apply rtc_refl|].
  by apply (sc_last_spec r k l s q (fun q => mkReq (r_buf q) (r_data q) (r_off q) tag)).
Qed.
Next Obligation.
  intros r k Hr. pose proof (sc_submit_spec r k Hr) as H. cbn. destruct (sc_submit r) as [n r'].
  exists k. by split; [apply rtc_refl|].
Qed.
Next Obligation.
  intros r k Hr. destruct (sc_peek_spec r k Hr) as (k1 & Hk1 & Hr1). cbn. exists k1. split_and!; [done|done|].
  destruct Hr1 as (_ & _ & _ & -> & _). done.
Qed.
Next Obligation.
  intros r k x l Hr Hx. exists k. split; [apply rtc_refl|]. cbn. pose proof Hr as (_ & -> & -> & -> & _). by apply sc_rep_rings.
Qed.
Next Obligation.
  intros r k Hr. cbn. destruct (sc_wait_spec r k Hr) as (k1 & Hk1 & H1 & H2 & n & H3 & H4). destruct (sc_wait r) as [ret r'].
  exists k1. split_and!; [done|done|done|]. by exists n.
Qed.

End Kernel.
