(* ===== verification/Arena.v ===== *)
(** * The bump allocator of the memtable

    Models [src/memtable/arena.h].  Addresses are 64-bit integers; what
    [operator new] returns for a fresh block is an argument of [allocate]
    ([None]: it throws).  Blocks are recorded with the size asked for. *)

From S2P Require Import Prelude.
Open Scope Z_scope.

Module Arena.

(** ** State *)

Record state := mkState {
  block_size : Z;
  offset : Z;
  current_block_size : Z;
  current_block : Z;
  blocks : list (Z * Z);
  destructors : list (Z * nat)   (* object, destructor function *)
}.

(** The constructor, given the address of its first block. *)
Definition create (bsz first : Z) : state :=
  mkState bsz 0 bsz first [(first, bsz)] [].

(** ** Operations *)

Definition padFor (p alignment : Z) : Z :=
  let rem := p mod alignment in
  if bool_decide (rem <> 0) then alignment - rem else 0.

Definition bad_alignment (alignment : Z) : bool :=
  (alignment =? 0) || bool_decide (Z.land alignment (u64 (alignment - 1)) <> 0).

(** The size of a block opened for a request that does not fit. *)
Definition next_size (st : state) (bytes alignment : Z) : Z :=
  Z.max (block_size st) (u64 (bytes + alignment)).

Definition bump (st : state) (bytes pad : Z) : result Z * state :=
  (Ok (u64 (current_block st + offset st + pad)),
   mkState (block_size st) (u64 (offset st + u64 (pad + bytes))) (current_block_size st)
           (current_block st) (blocks st) (destructors st)).

Definition allocate (bytes alignment : Z) (fresh : option Z) (st : state) : result Z * state :=
  if bad_alignment alignment then
    (Throw (InvalidArgument "Arena::allocate: alignment must be a non-zero power of two"), st)
  else if UINT64_MAX - alignment <? bytes then (Throw BadAlloc, st)
  else
    let pad := padFor (u64 (current_block st + offset st)) alignment in
    let remaining := u64 (current_block_size st - offset st) in
    if (remaining <? pad) || (u64 (remaining - pad) <? bytes) then
      match fresh with
      | None => (Throw BadAlloc, st)
      | Some a =>
          let sz := next_size st bytes alignment in
          let st' := mkState (block_size st) 0 sz a (blocks st ++ [(a, sz)]) (destructors st) in
          bump st' bytes (padFor a alignment)
      end
    else bump st bytes pad.

Definition registerDestructor (object : Z) (destroy : nat) (st : state) : state :=
  mkState (block_size st) (offset st) (current_block_size st) (current_block st)
          (blocks st) (destructors st ++ [(object, destroy)]).

(** [~Arena]: the destructors run, in this order, then these blocks are freed. *)
Definition destroy (st : state) : list (Z * nat) * list Z :=
  (reverse (destructors st), (blocks st).*1).

(** ** Memory ranges *)

(** A range is an address and a length. *)
Definition disjoint (r s : Z * Z) : Prop := r.1 + r.2 <= s.1 \/ s.1 + s.2 <= r.1.
Definition inside (r s : Z * Z) : Prop := s.1 <= r.1 /\ r.1 + r.2 <= s.1 + s.2.

(** What [operator new] guarantees for a block of [n] bytes at [a]: it lies in
    the address space and overlaps no live block. *)
Definition new_ok (live : list (Z * Z)) (a n : Z) : Prop :=
  0 < a /\ a + n < 2 ^ 64 /\ Forall (disjoint (a, n)) live.

(** A run of successful allocations from a fresh arena: the ranges handed out,
    latest first. *)
Inductive run (bsz first : Z) : list (Z * Z) -> state -> Prop :=
  | run_init :
      0 < bsz -> new_ok [] first bsz -> run bsz first [] (create bsz first)
  | run_alloc l st bytes alignment fresh p st' :
      run bsz first l st -> 0 <= bytes < 2 ^ 64 -> 0 <= alignment < 2 ^ 64 ->
      (forall a, fresh = Some a -> new_ok (blocks st) a (next_size st bytes alignment)) ->
      allocate bytes alignment fresh st = (Ok p, st') ->
      run bsz first ((p, bytes) :: l) st'
  | run_register l st o d :
      run bsz first l st -> run bsz first l (registerDestructor o d st).

(** ** Lemmas *)

Lemma padFor_spec p a : 0 < a -> 0 <= padFor p a < a /\ (p + padFor p a) mod a = 0.
Proof.
  intros Ha. unfold padFor. pose proof (Z.mod_pos_bound p a Ha).
  case_bool_decide as Hr.
  - split; [lia|]. pose proof (Z.div_mod p a ltac:(lia)).
    replace (p + (a - p mod a)) with ((p / a + 1) * a) by lia. apply Z.mod_mul. lia.
  - split; [lia|]. rewrite Z.add_0_r. lia.
Qed.

Lemma bad_alignment_false a : 0 <= a < 2 ^ 64 -> bad_alignment a = false -> 0 < a.
Proof.
  unfold bad_alignment. intros Ha [H _]%orb_false_iff. apply Z.eqb_neq in H. lia.
Qed.

(** The arena is well formed and handed out exactly the ranges [l]. *)
Record wf (l : list (Z * Z)) (st : state) : Prop := {
  wf_size : 0 < block_size st;
  wf_offset : 0 <= offset st <= current_block_size st;
  wf_current : 0 < current_block st /\ current_block st + current_block_size st < 2 ^ 64;
  wf_block : (current_block st, current_block_size st) ∈ blocks st;
  wf_blocks : ForallOrdPairs disjoint (blocks st);
  wf_inside : Forall (fun r => 0 <= r.2 /\
                (inside r (current_block st, offset st) \/
                 exists b, b ∈ blocks st /\ inside r b /\
                   disjoint b (current_block st, current_block_size st))) l;
  wf_disjoint : ForallOrdPairs disjoint l
}.

Lemma disjoint_comm r s : disjoint r s -> disjoint s r.
Proof. unfold disjoint. lia. Qed.

Lemma inside_disjoint r s b c :
  0 <= r.2 -> 0 <= s.2 -> inside r b -> inside s c -> disjoint b c -> disjoint r s.
Proof. unfold inside, disjoint. lia. Qed.

Lemma wf_create bsz first : 0 < bsz -> new_ok [] first bsz -> wf [] (create bsz first).
Proof.
  intros Hb (H0 & H1 & _). split; simpl; try lia; try constructor; try constructor; constructor.
Qed.

(** Bumping inside the current block. *)
Lemma bump_wf l st bytes alignment :
  wf l st -> 0 <= bytes -> 0 < alignment < 2 ^ 64 ->
  let pad := padFor (current_block st + offset st) alignment in
  offset st + pad + bytes <= current_block_size st ->
  let '(p, st') := bump st bytes pad in
  let q := current_block st + offset st + pad in
  p = Ok q /\ q mod alignment = 0 /\ wf ((q, bytes) :: l) st' /\
  offset st' = offset st + pad + bytes.
Proof.
  intros Hwf Hb Ha pad Hfit.
  destruct (padFor_spec (current_block st + offset st) alignment) as [Hp Hal]; [lia|].
  fold pad in Hp, Hal. destruct Hwf as [Hs Ho Hc Hblk Hblks Hin Hdis].
  unfold bump. rewrite (wrap_small 64 (pad + bytes)) by lia.
  rewrite !wrap_small by lia. split_and!; [done|done| |simpl; lia].
  split; simpl; try done; [lia| |].
  - constructor.
    + simpl. split; [done|]. left. unfold inside. simpl. lia.
    + eapply Forall_impl; [done|]. intros r [Hr [Hi|Hi]]; (split; [done|]); [left|by right].
      unfold inside in *. simpl in *. lia.
  - constructor; [|done]. eapply Forall_impl; [done|].
    intros r [Hr [Hi|(b & _ & Hi & Hd)]].
    + unfold inside, disjoint in *. simpl in *. lia.
    + apply disjoint_comm. eapply inside_disjoint; [done..|exact Hi| |exact Hd].
      unfold inside. simpl. lia.
Qed.

Lemma fop_snoc (l : list (Z * Z)) x :
  ForallOrdPairs disjoint l -> Forall (disjoint x) l -> ForallOrdPairs disjoint (l ++ [x]).
Proof.
  induction 1 as [|y l Hy Hl IH]; intros Hx; simpl; [by repeat constructor|].
  apply Forall_cons in Hx as [Hxy Hx]. constructor; [|auto].
  apply Forall_app. split; [done|]. constructor; [by apply disjoint_comm|constructor].
Qed.

(** Switching to a fresh block. *)
Lemma fresh_wf l st a n :
  wf l st -> 0 < n -> new_ok (blocks st) a n ->
  wf l (mkState (block_size st) 0 n a (blocks st ++ [(a, n)]) (destructors st)).
Proof.
  intros [Hs Ho Hc Hblk Hblks Hin Hdis] Hn (Ha & Han & Hlive). split; simpl; try done; [lia|..].
  - apply elem_of_app. right. by apply list_elem_of_singleton.
  - by apply fop_snoc.
  - eapply Forall_impl; [exact Hin|]. intros r [Hr Hi]. split; [done|]. right.
    rewrite Forall_forall in Hlive.
    assert (exists b, b ∈ blocks st /\ inside r b) as (b & Hb & Hrb).
    { destruct Hi as [Hi|(b & ? & ? & _)]; [|by exists b].
      exists (current_block st, current_block_size st). split; [done|].
      unfold inside in *. simpl in *. lia. }
    exists b. split_and!; [set_solver|done|]. by apply disjoint_comm, Hlive.
Qed.

Lemma bump_current l st bytes alignment pad p st' :
  wf l st -> 0 <= bytes -> 0 < alignment < 2 ^ 64 ->
  pad = padFor (current_block st + offset st) alignment ->
  offset st + pad + bytes <= current_block_size st ->
  bump st bytes pad = (Ok p, st') ->
  p mod alignment = 0 /\ wf ((p, bytes) :: l) st'.
Proof.
  intros Hwf Hb Ha -> Hfit Heq. pose proof (bump_wf l st bytes alignment Hwf Hb Ha Hfit) as H.
  rewrite Heq in H. destruct H as ([= ->] & Hm & Hw & _). done.
Qed.

Lemma allocate_wf l st bytes alignment fresh p st' :
  wf l st -> 0 <= bytes < 2 ^ 64 -> 0 <= alignment < 2 ^ 64 ->
  (forall a, fresh = Some a -> new_ok (blocks st) a (next_size st bytes alignment)) ->
  allocate bytes alignment fresh st = (Ok p, st') ->
  p mod alignment = 0 /\ wf ((p, bytes) :: l) st'.
Proof.
  intros Hwf Hb Hal Hnew. unfold allocate.
  destruct (bad_alignment alignment) eqn:Hbad; [done|].
  apply bad_alignment_false in Hbad; [|done].
  destruct (Z.ltb_spec (UINT64_MAX - alignment) bytes) as [|Hmax]; [done|].
  unfold UINT64_MAX in Hmax. pose proof (wf_offset _ _ Hwf). pose proof (wf_current _ _ Hwf).
  rewrite (wrap_small 64 (current_block st + offset st)) by lia.
  rewrite (wrap_small 64 (current_block_size st - offset st)) by lia.
  destruct (padFor_spec (current_block st + offset st) alignment) as [Hp _]; [lia|].
  destruct (_ || _) eqn:Hfull.
  - destruct fresh as [a|]; [|done]. pose proof (Hnew a eq_refl) as Hok.
    assert (bytes + alignment <= next_size st bytes alignment) as Hsz.
    { unfold next_size. rewrite wrap_small by lia. lia. }
    intros Hbump. destruct (padFor_spec a alignment) as [Hpa _]; [lia|].
    refine (bump_current l _ bytes alignment _ p st' _ _ _ _ _ Hbump);
      [by apply fresh_wf; [|lia|]|lia|lia| |simpl; lia].
    simpl. by rewrite Z.add_0_r.
  - apply orb_false_iff in Hfull as [Hge%Z.ltb_ge Hge2%Z.ltb_ge].
    rewrite wrap_small in Hge2 by lia.
    intros Hbump. refine (bump_current l _ bytes alignment _ p st' _ _ _ _ _ Hbump);
      [done|lia|lia|reflexivity|lia].
Qed.

Lemma run_wf bsz first l st : run bsz first l st -> wf l st.
Proof.
  induction 1 as [Hb Hn|l st bytes alignment fresh p st' _ IH Hb Ha Hnew Heq|l st o d _ IH].
  - by apply wf_create.
  - by eapply allocate_wf.
  - by destruct IH.
Qed.

(** ** Properties *)

(** C39: whatever sequence of allocations an arena has served, every pair of ranges
    it handed out is disjoint, each lies inside one of its blocks, and the bump
    offset never passes the end of the block in hand. *)
Theorem run_disjoint bsz first l st :
  run bsz first l st ->
  ForallOrdPairs disjoint l /\ 0 <= offset st <= current_block_size st /\
  Forall (fun r => exists b, b ∈ blocks st /\ inside r b) l.
Proof.
  intros [Hs Ho Hc Hblk Hblks Hin Hdis]%run_wf. split_and!; [done|lia|lia|].
  eapply Forall_impl; [exact Hin|]. intros r [Hr [Hi|(b & ? & ? & _)]]; [|by exists b].
  eexists. split; [exact Hblk|]. unfold inside in *. simpl in *. lia.
Qed.

(** Two allocations, the second of which does not fit the first block. *)
Lemma run_disjoint_witness : exists st, ForallOrdPairs disjoint [(1008, 20); (104, 3)] /\
  0 <= offset st <= current_block_size st /\
  Forall (fun r => exists b, b ∈ blocks st /\ inside r b) [(1008, 20); (104, 3)].
Proof.
  eexists. apply (run_disjoint 16 100).
  eapply (run_alloc _ _ _ _ 20 16 (Some 1003));
    [eapply (run_alloc _ _ _ _ 3 8 None); [apply run_init; [lia|repeat split; constructor || lia]
                                          |lia|lia|done|vm_compute; reflexivity]
    |lia|lia| |vm_compute; reflexivity].
  intros a [= <-]. unfold next_size. simpl. split_and!; [lia|vm_compute; reflexivity|].
  constructor; [|constructor]. right. vm_compute. discriminate.
Defined.

(** an allocation that succeeds returns an address aligned as asked; the
    memory starts after everything handed out before it. *)
Theorem allocate_aligned bsz first l st bytes alignment fresh p st' :
  run bsz first l st -> 0 <= bytes < 2 ^ 64 -> 0 <= alignment < 2 ^ 64 ->
  (forall a, fresh = Some a -> new_ok (blocks st) a (next_size st bytes alignment)) ->
  allocate bytes alignment fresh st = (Ok p, st') ->
  p mod alignment = 0 /\ Forall (disjoint (p, bytes)) l.
Proof.
  intros Hrun%run_wf Hb Ha Hnew Heq.
  destruct (allocate_wf l st bytes alignment fresh p st') as [Hm Hw]; [done..|].
  split; [done|]. apply wf_disjoint in Hw. by inversion Hw.
Qed.

Lemma allocate_aligned_witness : 104 mod 8 = 0 /\ Forall (disjoint (104, 3)) [].
Proof.
  eapply (allocate_aligned 16 100 [] (create 16 100) 3 8 None 104);
    [apply run_init; [lia|repeat split; constructor || lia]|lia|lia|done|vm_compute; reflexivity].
Defined.

(** a refused allocation leaves the arena exactly as it was: for an alignment
    that is not a power of two, for a size whose padded sum would wrap, and
    when the system allocator fails. *)
Theorem allocate_failure bytes alignment fresh st e st' :
  allocate bytes alignment fresh st = (Throw e, st') ->
  st' = st /\
  (bad_alignment alignment = true \/ e = BadAlloc).
Proof.
  unfold allocate, bump. intros H. repeat case_match; simplify_eq; auto.
Qed.

Lemma allocate_failure_witness :
  create 16 100 = create 16 100 /\ (bad_alignment 3 = true \/ InvalidArgument
    "Arena::allocate: alignment must be a non-zero power of two" = BadAlloc).
Proof. apply (allocate_failure 8 3 None (create 16 100)). vm_compute. reflexivity. Defined.

End Arena.
