(* ===== verification/SkipList.v ===== *)
(** * The skip list of the memtable

    Models [src/memtable/skip_list.h], [Node] and [SkipList]: nodes and value
    cells live in a store addressed by integers, links are stored per level, and
    every dereference is explicit ([None] stands for undefined behaviour, which
    the invariant rules out).  Insertion is written with its compare-and-swap
    and retry loops; the engine calls it under an exclusive lock, so here no
    other writer interleaves ([MemtableSteps] has concurrent ones). *)

From S2P Require Import Prelude.
Open Scope Z_scope.

Module SkipList.

(** ** Data *)

Definition MAX_HEIGHT : nat := 12.

(** [Node]: [value] is the address of an immutable cell, [next] the link slots. *)
Record Node := mkNode {
  key : str;
  value : nat;
  height : nat;
  next : list (option nat)
}.

Record state := mkState {
  nodes : gmap nat Node;
  slots : gmap nat (option str);    (* the ValueSlot cells *)
  head : nat;
  brk : nat                          (* the next address the arena gives out *)
}.

(** [InsertResult] *)
Record InsertResult := mkInsertResult { inserted : bool; replacedValueBytes : Z }.

(** ** Memory accesses *)

Definition load_next (st : state) (x i : nat) : option (option nat) :=
  n ← nodes st !! x; next n !! i.

Definition set_node (st : state) (x : nat) (n : Node) : state :=
  mkState (<[x := n]> (nodes st)) (slots st) (head st) (brk st).

Definition store_next (st : state) (x i : nat) (v : option nat) : option state :=
  n ← nodes st !! x;
  _ ← next n !! i;
  Some (set_node st x (mkNode (key n) (value n) (height n) (<[i := v]> (next n)))).

(** [compare_exchange_strong] on [x->next[i]]. *)
Definition cas (st : state) (x i : nat) (expected v : option nat) : option (bool * state) :=
  cur ← load_next st x i;
  if decide (cur = expected) then st' ← store_next st x i v; Some (true, st')
  else Some (false, st).

Definition node_key (st : state) (x : nat) : option str := key <$> nodes st !! x.

(** ** Construction *)

Definition makeSlot (v : option str) (st : state) : nat * state :=
  (brk st, mkState (nodes st) (<[brk st := v]> (slots st)) (head st) (S (brk st))).

Definition create (k : str) (v : option str) (h : nat) (st : state) : nat * state :=
  let n := brk st in
  let st := mkState (nodes st) (slots st) (head st) (S n) in
  let '(cell, st) := makeSlot v st in
  (n, set_node st n (mkNode k cell h (replicate h None))).

(** The constructor: a head node of full height with an empty key. *)
Definition empty : state :=
  let '(h, st) := create [] None MAX_HEIGHT (mkState ∅ ∅ 0 0) in
  mkState (nodes st) (slots st) h (brk st).

(** [randomHeight]: at most [MAX_HEIGHT - 1] draws. *)
Fixpoint random_height_loop (fuel : nat) (rng : Rng) (h : nat) : nat * Rng :=
  match fuel with
  | O => (h, rng)
  | S fuel =>
      if decide (h < MAX_HEIGHT)%nat then
        if rng 0%nat mod 4 =? 0 then random_height_loop fuel (rng_tail rng) (S h)
        else (h, rng_tail rng)
      else (h, rng)
  end.
Definition randomHeight (rng : Rng) : nat * Rng := random_height_loop MAX_HEIGHT rng 1.

(** ** Search *)

(** The walk along one level, from [x]: the last node whose key is smaller, and
    its successor. *)
Fixpoint walk (fuel : nat) (st : state) (k : str) (i x : nat) : option (nat * option nat) :=
  match fuel with
  | O => None
  | S fuel =>
      nx ← load_next st x i;
      match nx with
      | None => Some (x, None)
      | Some y =>
          ky ← node_key st y;
          if ky <?s k then walk fuel st k i y else Some (x, Some y)
      end
  end.

(** Levels [n-1 .. 0]; the results are indexed by level. *)
Fixpoint find_levels (n : nat) (st : state) (k : str) (x : nat)
  : option (list nat * list (option nat)) :=
  match n with
  | O => Some ([], [])
  | S i =>
      '(p, s) ← walk (size (nodes st)) st k i x;
      '(ps, ss) ← find_levels i st k p;
      Some (ps ++ [p], ss ++ [s])
  end.

Definition find (st : state) (k : str) : option (bool * list nat * list (option nat)) :=
  '(ps, ss) ← find_levels MAX_HEIGHT st k (head st);
  s0 ← ss !! 0%nat;
  found ← match s0 with
          | None => Some false
          | Some y => ky ← node_key st y; Some (ky =?s k)
          end;
  Some (found, ps, ss).

(** ** Insertion *)

(** The key exists: publish a new cell in its node. *)
Definition insert_existing (v : option str) (ss : list (option nat)) (st : state)
  : option (InsertResult * state) :=
  y ← mjoin (ss !! 0%nat);
  n ← nodes st !! y;
  previous ← slots st !! value n;
  let replaced := match previous with Some s => zlen s | None => 0 end in
  let '(cell, st) := makeSlot v st in
  Some (mkInsertResult false replaced, set_node st y (mkNode (key n) cell (height n) (next n))).

(** [newNode->next[i].store(succs[i])] for the node's levels. *)
Fixpoint init_links (i : nat) (ss : list (option nat)) (n : nat) (st : state) : option state :=
  match i with
  | O => Some st
  | S i =>
      st ← init_links i ss n st;
      s ← ss !! i;
      store_next st n i s
  end.

(** Linking one upper level, searching again when the swap fails. *)
Fixpoint link_level (fuel : nat) (k : str) (n i : nat) (ps : list nat) (ss : list (option nat))
    (st : state) : option (list nat * list (option nat) * state) :=
  match fuel with
  | O => None
  | S fuel =>
      pred ← ps !! i;
      succ ← ss !! i;
      st ← store_next st n i succ;
      '(ok, st) ← cas st pred i succ (Some n);
      if (ok : bool) then Some (ps, ss, st)
      else '(_, ps, ss) ← find st k; link_level fuel k n i ps ss st
  end.

(** Levels [i .. i+m-1]. *)
Fixpoint link_upper (m : nat) (k : str) (n i : nat) (ps : list nat) (ss : list (option nat))
    (st : state) : option state :=
  match m with
  | O => Some st
  | S m =>
      '(ps, ss, st) ← link_level 1 k n i ps ss st;
      link_upper m k n (S i) ps ss st
  end.

Fixpoint insert_loop (fuel : nat) (k : str) (v : option str) (rng : Rng) (st : state)
  : option (InsertResult * Rng * state) :=
  match fuel with
  | O => None
  | S fuel =>
      '(found, ps, ss) ← find st k;
      if (found : bool) then
        '(r, st) ← insert_existing v ss st; Some (r, rng, st)
      else
        let '(h, rng) := randomHeight rng in
        let '(n, st) := create k v h st in
        st ← init_links h ss n st;
        p0 ← ps !! 0%nat;
        s0 ← ss !! 0%nat;
        '(ok, st) ← cas st p0 0 s0 (Some n);
        if (ok : bool) then
          st ← link_upper (h - 1) k n 1 ps ss st;
          Some (mkInsertResult true 0, rng, st)
        else insert_loop fuel k v rng st
  end.

(** Without another writer the first swap succeeds, at every level. *)
Definition insert : str -> option str -> Rng -> state -> option (InsertResult * Rng * state) :=
  insert_loop 1.

(** ** Iteration over level 0 *)

(** [Memtable::Iterator] caches the pair it stands on. *)
Definition read_entry (st : state) (y : nat) : option (str * option str) :=
  n ← nodes st !! y; v ← slots st !! value n; Some (key n, v).

Fixpoint iterate (fuel : nat) (st : state) (cur : option nat) : option (list (str * option str)) :=
  match cur with
  | None => Some []
  | Some y =>
      match fuel with
      | O => None
      | S fuel =>
          e ← read_entry st y;
          nx ← load_next st y 0;
          l ← iterate fuel st nx;
          Some (e :: l)
      end
  end.

(** ** The invariant *)

Definition height_of (st : state) (y : nat) : nat :=
  match nodes st !! y with Some n => height n | None => 0 end.

(** The nodes of a chain that have a link at level [i]. *)
Definition level (st : state) (i : nat) (chain : list nat) : list nat :=
  filter (fun y => (i < height_of st y)%nat) chain.

(** Following level-[i] links from [x] visits exactly [l]. *)
Fixpoint links (st : state) (i x : nat) (l : list nat) : Prop :=
  match l with
  | [] => load_next st x i = Some None
  | y :: l => load_next st x i = Some (Some y) /\ links st i y l
  end.

(** Node [y] stores entry [e]. *)
Definition stores (st : state) (y : nat) (e : str * option str) : Prop :=
  exists n, nodes st !! y = Some n /\ key n = e.1 /\ slots st !! value n = Some e.2 /\
    (1 <= height n <= MAX_HEIGHT)%nat /\ length (next n) = height n.

Definition head_ok (st : state) : Prop :=
  exists n, nodes st !! head st = Some n /\ length (next n) = MAX_HEIGHT.

(** [chain] is the level-0 order, [l] the entries it stores. *)
Record wf (st : state) (chain : list nat) (l : list (str * option str)) : Prop := {
  wf_head : head_ok st;
  wf_nodup : NoDup (head st :: chain);
  wf_entries : Forall2 (stores st) chain l;
  wf_sorted : keys_sorted l;
  wf_links : forall i, (i < MAX_HEIGHT)%nat -> links st i (head st) (level st i chain);
  wf_brk : forall a, (brk st <= a)%nat -> nodes st !! a = None /\ slots st !! a = None
}.

(** ** Following links *)

Lemma links_app st i x l1 l2 :
  links st i x (l1 ++ l2) -> links st i (default x (last l1)) l2.
Proof.
  revert x. induction l1 as [|y l1 IH]; intros x; [done|]. intros [_ H%IH].
  rewrite last_cons. by destruct (last l1).
Qed.

Lemma links_load st i x l1 l2 :
  links st i x (l1 ++ l2) -> load_next st (default x (last l1)) i = Some (List.hd_error l2).
Proof. intros H%links_app. destruct l2; simpl in *; tauto. Qed.

Lemma level_app st i l1 l2 : level st i (l1 ++ l2) = level st i l1 ++ level st i l2.
Proof. apply filter_app. Qed.

Lemma elem_of_level st i y l : y ∈ level st i l <-> (i < height_of st y)%nat /\ y ∈ l.
Proof. unfold level. by rewrite list_elem_of_filter. Qed.

Lemma level_sub st i l : level st (S i) l = filter (fun y => (S i < height_of st y)%nat) (level st i l).
Proof.
  unfold level. induction l as [|y l IH]; [done|].
  rewrite !filter_cons. repeat case_decide; rewrite ?filter_cons; repeat case_decide;
    try lia; by rewrite ?IH.
Qed.

Lemma level_length st i l : (length (level st i l) <= length l)%nat.
Proof. apply length_filter. Qed.

(** ** Searching *)

(** The keys of a node list, all below, or all at least, a bound. *)
Definition all_lt (st : state) (k : str) (l : list nat) : Prop :=
  forall y, y ∈ l -> exists ky, node_key st y = Some ky /\ ky <s k.
Definition all_ge (st : state) (k : str) (l : list nat) : Prop :=
  forall y, y ∈ l -> exists ky, node_key st y = Some ky /\ ~ ky <s k.

Lemma walk_spec st k i x l1 l2 fuel :
  links st i x (l1 ++ l2) -> all_lt st k l1 -> all_ge st k l2 -> (length l1 < fuel)%nat ->
  walk fuel st k i x = Some (default x (last l1), List.hd_error l2).
Proof.
  revert x fuel. induction l1 as [|y l1 IH]; intros x [|fuel] Hl Hlt Hge Hf; simpl in Hf; try lia.
  - simpl. destruct l2 as [|y l2]; simpl in Hl.
    + by rewrite Hl.
    + destruct Hl as [-> _]. simpl. destruct (Hge y) as (ky & -> & Hky); [set_solver|]. simpl.
      destruct (ky <?s k) eqn:E; str_prop; done.
  - rewrite last_cons. cbn [walk]. destruct Hl as [-> Hl]. simpl.
    destruct (Hlt y) as (ky & -> & Hky); [set_solver|]. simpl.
    rewrite (proj2 (str_ltb_lt ky k)) by done.
    rewrite (IH y) by (done || lia || (intros ??; apply Hlt; set_solver)).
    by destruct (last l1).
Qed.

Section search.
Context (st : state) (k : str) (A B : list nat).
Hypothesis Hlinks : forall i, (i < MAX_HEIGHT)%nat ->
  links st i (head st) (level st i A ++ level st i B).
Hypothesis Hlt : all_lt st k A.
Hypothesis Hge : all_ge st k B.
Hypothesis Hfuel : (length A < size (nodes st))%nat.

(** The insertion point at level [i]. *)
Definition pred_at (i : nat) : nat := default (head st) (last (level st i A)).
Definition succ_at (i : nat) : option nat := List.hd_error (level st i B).

(** A node of level [i+1] is a node of level [i]: what remains of level [i]
    behind it. *)
Lemma pred_suffix i :
  exists l0 l1, level st i A = l0 ++ l1 /\ pred_at (S i) = default (head st) (last l0).
Proof.
  unfold pred_at. destruct (last (level st (S i) A)) as [p|] eqn:Hp.
  - assert (p ∈ level st i A) as Hin.
    { apply last_Some_elem_of in Hp. rewrite level_sub in Hp. by apply list_elem_of_filter in Hp as [_ ?]. }
    apply list_elem_of_split in Hin as (l0 & l1 & ->).
    exists (l0 ++ [p]), l1. rewrite <- app_assoc, last_snoc. done.
  - by exists [], (level st i A).
Qed.

Lemma walk_level i x :
  (i < MAX_HEIGHT)%nat ->
  (exists l0 l1, level st i A = l0 ++ l1 /\ x = default (head st) (last l0)) ->
  walk (size (nodes st)) st k i x = Some (pred_at i, succ_at i).
Proof.
  intros Hi (l0 & l1 & Hl & ->). pose proof (Hlinks i Hi) as H. rewrite Hl, <- app_assoc in H.
  apply links_app in H. rewrite (walk_spec _ _ _ _ l1 (level st i B)); [|done|..].
  - f_equal. f_equal. unfold pred_at. rewrite Hl. destruct (last l1) eqn:E.
    + by rewrite last_app, E.
    + apply last_None in E as ->. by rewrite app_nil_r.
  - intros y Hy. apply Hlt. assert (y ∈ level st i A) as [_ ?]%elem_of_level; [|done].
    rewrite Hl. set_solver.
  - intros y [_ Hy]%elem_of_level. by apply Hge.
  - pose proof (level_length st i A). rewrite Hl, length_app in H0. lia.
Qed.

Lemma find_levels_spec n x :
  (n <= MAX_HEIGHT)%nat ->
  (forall i, n = S i -> exists l0 l1, level st i A = l0 ++ l1 /\ x = default (head st) (last l0)) ->
  find_levels n st k x = Some (pred_at <$> seq 0 n, succ_at <$> seq 0 n).
Proof.
  revert x. induction n as [|i IH]; intros x Hn Hx; [done|].
  rewrite seq_S, !fmap_app. cbn [find_levels].
  rewrite (walk_level i x) by (auto || lia). cbn [mbind option_bind].
  by rewrite IH by (try lia; intros j ->; apply pred_suffix).
Qed.

Lemma find_levels_head :
  find_levels MAX_HEIGHT st k (head st)
  = Some (pred_at <$> seq 0 MAX_HEIGHT, succ_at <$> seq 0 MAX_HEIGHT).
Proof.
  apply find_levels_spec; [done|]. intros i _. by exists [], (level st i A).
Qed.
End search.

Lemma lookup_seq_fmap {X} (f : nat -> X) n i : (i < n)%nat -> (f <$> seq 0 n) !! i = Some (f i).
Proof. intros. by rewrite list_lookup_fmap, lookup_seq_lt by done. Qed.

(** ** Splitting a well-formed list at a key *)

Lemma stores_key st y e : stores st y e -> node_key st y = Some e.1.
Proof. intros (n & Hn & Hk & _). unfold node_key. by rewrite Hn, <- Hk. Qed.

Lemma stores_height st y e : stores st y e -> (1 <= height_of st y <= MAX_HEIGHT)%nat.
Proof. intros (n & Hn & _ & _ & Hh & _). unfold height_of. by rewrite Hn. Qed.

Lemma level0 st chain l : Forall2 (stores st) chain l -> level st 0 chain = chain.
Proof.
  intros H. unfold level. induction H as [|y e chain l Hy _ IH]; [done|].
  rewrite filter_cons_True by (apply stores_height in Hy; lia). by rewrite IH.
Qed.

Lemma stores_all_lt st k A la :
  Forall2 (stores st) A la -> (forall k', k' ∈ la.*1 -> k' <s k) -> all_lt st k A.
Proof.
  intros H Hlt y Hy. apply list_elem_of_lookup in Hy as [i Hi].
  destruct (Forall2_lookup_l _ _ _ _ _ H Hi) as (e & He & Hs).
  exists e.1. split; [by apply stores_key|]. apply Hlt, list_elem_of_fmap_2.
  by eapply list_elem_of_lookup_2.
Qed.

Lemma stores_all_ge st k A la :
  Forall2 (stores st) A la -> (forall k', k' ∈ la.*1 -> ~ k' <s k) -> all_ge st k A.
Proof.
  intros H Hlt y Hy. apply list_elem_of_lookup in Hy as [i Hi].
  destruct (Forall2_lookup_l _ _ _ _ _ H Hi) as (e & He & Hs).
  exists e.1. split; [by apply stores_key|]. apply Hlt, list_elem_of_fmap_2.
  by eapply list_elem_of_lookup_2.
Qed.

(** Every node of the chain, and the head, is in the store: the store's size
    bounds every walk. *)
Lemma stored_size st chain l :
  head_ok st -> NoDup (head st :: chain) -> Forall2 (stores st) chain l -> (length chain < size (nodes st))%nat.
Proof.
  intros Hh Hnd He. assert (list_to_set (head st :: chain) ⊆ dom (nodes st)) as Hsub.
  { intros y. rewrite elem_of_list_to_set, elem_of_cons, elem_of_dom. intros [->|Hy].
    - destruct Hh as (n & Hn & _). by eexists.
    - apply list_elem_of_lookup in Hy as [i Hi].
      destruct (Forall2_lookup_l _ _ _ _ _ He Hi) as (e & _ & n & Hn & _). by eexists. }
  apply subseteq_size in Hsub. rewrite size_list_to_set, size_dom in Hsub by done.
  simpl in Hsub. lia.
Qed.

Lemma chain_size st chain l : wf st chain l -> (length chain < size (nodes st))%nat.
Proof. intros H. eapply stored_size; apply H. Qed.

(** The search result in a well-formed list split at the key. *)
Record located (st : state) (k : str) (A B : list nat) (la lb : list (str * option str)) : Prop := {
  loc_wf : wf st (A ++ B) (la ++ lb);
  loc_A : Forall2 (stores st) A la;
  loc_B : Forall2 (stores st) B lb;
  loc_lt : forall k', k' ∈ la.*1 -> k' <s k;
  loc_ge : forall k', k' ∈ lb.*1 -> ~ k' <s k
}.

Lemma wf_located st chain l k :
  wf st chain l -> exists A B la lb, chain = A ++ B /\ l = la ++ lb /\ located st k A B la lb.
Proof.
  intros H. destruct (split_at_key k l (wf_sorted _ _ _ H)) as (la & lb & -> & Hlt & Hge).
  pose proof (wf_entries _ _ _ H) as He. apply Forall2_app_inv_r in He as (A & B & HA & HB & ->).
  exists A, B, la, lb. split_and!; [done..|]. by split.
Qed.

Lemma located_find st k A B la lb :
  located st k A B la lb ->
  find st k = Some (match lb with e :: _ => k =?s e.1 | [] => false end,
                    pred_at st A <$> seq 0 MAX_HEIGHT, succ_at st B <$> seq 0 MAX_HEIGHT).
Proof.
  intros [Hwf HA HB Hlt Hge]. unfold find.
  rewrite (find_levels_head st k A B).
  - cbn [mbind option_bind]. rewrite (lookup_seq_fmap (succ_at st B)) by (unfold MAX_HEIGHT; lia).
    assert (succ_at st B 0 = List.hd_error B) as ->
      by (unfold succ_at; by rewrite (level0 st B lb HB)).
    cbn [mbind option_bind].
    destruct HB as [|y e B lb Hy HB]; simpl; [done|].
    rewrite (stores_key _ _ _ Hy). simpl. do 3 f_equal.
    unfold str_eqb. apply bool_decide_ext. split; congruence.
  - intros i Hi. rewrite <- level_app. by apply (wf_links _ _ _ Hwf).
  - by eapply stores_all_lt.
  - by eapply stores_all_ge.
  - pose proof (chain_size _ _ _ Hwf). rewrite length_app in *. lia.
Qed.

(** ** Writing links *)

Lemma store_next_Some st x i v o :
  load_next st x i = Some o -> exists st', store_next st x i v = Some st'.
Proof.
  unfold load_next, store_next. destruct (nodes st !! x) as [n|]; simpl; [|done].
  intros ->. by eexists.
Qed.

(** A link write changes one link and nothing else. *)
Record wrote (st st' : state) (x i : nat) (v : option nat) : Prop := {
  wr_load : forall y j, load_next st' y j =
              if decide (y = x /\ j = i) then Some v else load_next st y j;
  wr_height : forall y, height_of st' y = height_of st y;
  wr_key : forall y, node_key st' y = node_key st y;
  wr_stores : forall y e, stores st y e -> stores st' y e;
  wr_head : head st' = head st;
  wr_head_ok : head_ok st -> head_ok st';
  wr_brk : brk st' = brk st;
  wr_free : forall a, nodes st !! a = None -> nodes st' !! a = None;
  wr_slots : slots st' = slots st
}.

Lemma store_next_wrote st x i v st' : store_next st x i v = Some st' -> wrote st st' x i v.
Proof.
  unfold store_next. destruct (nodes st !! x) as [n|] eqn:Hx; simpl; [|done].
  destruct (next n !! i) as [o|] eqn:Hi; simpl; [|done]. intros [= <-]. unfold set_node.
  assert (i < length (next n))%nat as Hil by by eapply lookup_lt_Some.
  split; simpl.
  - intros y j. unfold load_next. simpl. rewrite lookup_insert.
    destruct (decide (x = y)) as [<-|Hne].
    + simpl. rewrite Hx. simpl. destruct (decide (j = i)) as [->|].
      * rewrite decide_True by done. by apply list_lookup_insert_eq.
      * rewrite decide_False by naive_solver. by apply list_lookup_insert_ne.
    + by rewrite decide_False by naive_solver.
  - intros y. unfold height_of. simpl. rewrite lookup_insert. case_decide; [subst|done]. by rewrite Hx.
  - intros y. unfold node_key. simpl. rewrite lookup_insert. case_decide; [subst|done]. by rewrite Hx.
  - intros y e (m & Hm & Hk & Hs & Hh & Hl). unfold stores. simpl.
    rewrite lookup_insert. case_decide; [subst|by exists m].
    rewrite Hx in Hm. simplify_eq. eexists. split; [done|]. simpl. by rewrite length_insert.
  - done.
  - intros (m & Hm & Hl). unfold head_ok. simpl. rewrite lookup_insert.
    case_decide; [|by exists m]. subst. rewrite Hx in Hm. simplify_eq.
    eexists. split; [done|]. simpl. by rewrite length_insert.
  - done.
  - intros a Ha. rewrite lookup_insert. case_decide; [subst; congruence|done].
  - done.
Qed.

Lemma wrote_level st st' x i v j l : wrote st st' x i v -> level st' j l = level st j l.
Proof.
  intros H. unfold level. induction l as [|y l IH]; [done|].
  rewrite !filter_cons, IH, (wr_height _ _ _ _ _ H). done.
Qed.

Lemma links_frame st st' i y l :
  links st i y l -> (forall z, z ∈ y :: l -> load_next st' z i = load_next st z i) -> links st' i y l.
Proof.
  revert y. induction l as [|z l IH]; intros y Hl Hf; simpl in *.
  - rewrite Hf; [done|set_solver].
  - destruct Hl as [Hy Hl]. split; [rewrite Hf; [done|set_solver]|].
    apply IH; [done|]. intros w Hw. apply Hf. set_solver.
Qed.

(** Splicing [n] in behind the last node of [l1]. *)
Lemma links_insert st st' i x l1 l2 n :
  NoDup (x :: l1 ++ l2) -> n ∉ x :: l1 ++ l2 -> links st i x (l1 ++ l2) ->
  load_next st n i = Some (List.hd_error l2) ->
  (forall y, load_next st' y i =
     if decide (y = default x (last l1)) then Some (Some n) else load_next st y i) ->
  links st' i x (l1 ++ n :: l2).
Proof.
  intros Hnd Hn Hl Hln Hst'. revert x Hnd Hn Hl Hst'.
  induction l1 as [|z l1 IH]; intros x Hnd Hn Hl Hst'; simpl in *.
  - split; [by rewrite Hst', decide_True|].
    apply NoDup_cons in Hnd as [Hx Hnd].
    assert (forall y, y ∈ n :: l2 -> load_next st' y i = load_next st y i) as Hfr.
    { intros y Hy. rewrite Hst', decide_False; [done|]. intros ->. set_solver. }
    eapply links_frame; [|exact Hfr]. destruct l2 as [|y l2]; simpl in *; [done|].
    by destruct Hl.
  - destruct Hl as [Hx Hl]. rewrite last_cons in Hst'. split.
    + rewrite Hst', decide_False; [done|]. intros Heq. apply NoDup_cons in Hnd as [Hxn _].
      apply Hxn. destruct (last l1) as [p|] eqn:E; simpl in Heq; subst; [|set_solver].
      apply last_Some_elem_of in E. set_solver.
    + apply NoDup_cons in Hnd as [_ Hnd]. apply IH; [done|set_solver|done|].
      intros y. rewrite Hst'. by destruct (last l1).
Qed.

(** ** Linking a new node, level by level

    [st0] is the state the search ran in; node [n] of height [h] is linked at
    the levels below [j]. *)

Section linking.
Context (st0 : state) (A B : list nat) (la lb : list (str * option str)).
Context (n h : nat) (k : str) (v : option str).

Record linking (j : nat) (st : state) : Prop := {
  lk_head : head_ok st;
  lk_head_eq : head st = head st0;
  lk_nodup : NoDup (head st :: A ++ n :: B);
  lk_A : Forall2 (stores st) A la;
  lk_B : Forall2 (stores st) B lb;
  lk_n : stores st n (k, v);
  lk_h : height_of st n = h;
  lk_level : forall i, level st i A = level st0 i A /\ level st i B = level st0 i B;
  lk_links : forall i, (i < MAX_HEIGHT)%nat ->
    links st i (head st) (level st i A ++ (if decide (i < j)%nat then [n] else []) ++ level st i B);
  lk_brk : forall a, (brk st <= a)%nat -> nodes st !! a = None /\ slots st !! a = None
}.

Lemma lk_height j st : linking j st -> (1 <= h <= MAX_HEIGHT)%nat.
Proof. intros H. rewrite <- (lk_h _ _ H). eapply stores_height, (lk_n _ _ H). Qed.

Lemma linking_wrote_other j st st' i v' :
  linking j st -> (j <= i)%nat -> wrote st st' n i v' -> linking j st'.
Proof.
  intros [Hhd Heq Hnd HA HB Hn Hh Hlv Hlk Hbrk] Hij Hw.
  assert (forall l le, Forall2 (stores st) l le -> Forall2 (stores st') l le) as Hst.
  { intros l le H. eapply Forall2_impl; [exact H|]. apply (wr_stores _ _ _ _ _ Hw). }
  split; rewrite ?(wr_head _ _ _ _ _ Hw), ?(wr_brk _ _ _ _ _ Hw); try done; auto.
  - by apply (wr_head_ok _ _ _ _ _ Hw).
  - by apply (wr_stores _ _ _ _ _ Hw).
  - by rewrite (wr_height _ _ _ _ _ Hw).
  - intros l. by rewrite !(wrote_level _ _ _ _ _ _ _ Hw).
  - intros l Hl. rewrite !(wrote_level _ _ _ _ _ _ _ Hw).
    eapply links_frame; [by apply Hlk|]. intros z Hz. rewrite (wr_load _ _ _ _ _ Hw).
    apply decide_False. intros [-> ->]. rewrite decide_False in Hz by lia.
    apply (NoDup_cons_1_2 _ _) in Hnd as Hnd'.
    assert (n <> head st) by (apply NoDup_cons_1_1 in Hnd; set_solver).
    apply NoDup_app in Hnd' as (_ & Hdis & [Hnb _]%NoDup_cons).
    apply elem_of_cons in Hz as [?|[Hz|Hz]%elem_of_app]; [done| |].
    + apply elem_of_level in Hz as [_ Hz]. by apply (Hdis n Hz), list_elem_of_here.
    + by apply elem_of_level in Hz as [_ Hz].
  - intros a Ha. split; [|by rewrite (wr_slots _ _ _ _ _ Hw); apply Hbrk].
    by apply (wr_free _ _ _ _ _ Hw), Hbrk.
Qed.

(** Swapping the predecessor's link at level [j] links the node there. *)
Lemma linking_cas j st :
  linking j st -> (j < h)%nat -> load_next st n j = Some (succ_at st0 B j) ->
  exists st', cas st (pred_at st0 A j) j (succ_at st0 B j) (Some n) = Some (true, st') /\
    linking (S j) st' /\
    (forall i, i <> j -> load_next st' n i = load_next st n i).
Proof.
  intros Hlk Hj Hln. pose proof (lk_height _ _ Hlk) as Hh12.
  destruct (lk_level _ _ Hlk j) as [HlA HlB].
  assert (links st j (head st) (level st j A ++ level st j B)) as Hlinks.
  { pose proof (lk_links _ _ Hlk j ltac:(lia)) as H. by rewrite decide_False in H by lia. }
  assert (pred_at st0 A j = default (head st) (last (level st j A))) as Hpred.
  { unfold pred_at. by rewrite HlA, (lk_head_eq _ _ Hlk). }
  pose proof (links_load _ _ _ _ _ Hlinks) as Hload. rewrite <- Hpred in Hload.
  unfold cas, succ_at. rewrite <- HlB, Hload. cbn [mbind option_bind]. rewrite decide_True by done.
  destruct (store_next_Some st (pred_at st0 A j) j (Some n) _ Hload) as [st' Hst'].
  rewrite Hst'. cbn [mbind option_bind]. exists st'. split; [done|].
  pose proof (store_next_wrote _ _ _ _ _ Hst') as Hw.
  pose proof (lk_nodup _ _ Hlk) as Hnd.
  assert (pred_at st0 A j <> n) as Hpn.
  { rewrite Hpred. destruct (last (level st j A)) as [p|] eqn:E; simpl.
    - apply last_Some_elem_of, elem_of_level in E as [_ E]. intros ->.
      apply NoDup_cons_1_2, NoDup_app in Hnd as (_ & Hdis & _). by apply (Hdis n E), list_elem_of_here.
    - intros <-. apply NoDup_cons_1_1 in Hnd. set_solver. }
  split.
  2: { intros i Hi. rewrite (wr_load _ _ _ _ _ Hw). by rewrite decide_False by naive_solver. }
  assert (forall l le, Forall2 (stores st) l le -> Forall2 (stores st') l le) as Hst.
  { intros l le H. eapply Forall2_impl; [exact H|]. apply (wr_stores _ _ _ _ _ Hw). }
  destruct Hlk as [Hhd Heq _ HA HB Hn Hh Hlv Hlk Hbrk].
  split; rewrite ?(wr_head _ _ _ _ _ Hw), ?(wr_brk _ _ _ _ _ Hw); try done; auto.
  - by apply (wr_head_ok _ _ _ _ _ Hw).
  - by apply (wr_stores _ _ _ _ _ Hw).
  - by rewrite (wr_height _ _ _ _ _ Hw).
  - intros l. by rewrite !(wrote_level _ _ _ _ _ _ _ Hw).
  - intros l Hl. rewrite !(wrote_level _ _ _ _ _ _ _ Hw).
    destruct (decide (l = j)) as [->|Hlj].
    + rewrite decide_True by lia. eapply links_insert; [|  |exact Hlinks| |].
      * rewrite <- level_app. apply (NoDup_cons_2 _ _); [|apply NoDup_filter].
        -- rewrite elem_of_level. apply NoDup_cons_1_1 in Hnd. set_solver.
        -- apply NoDup_cons_1_2 in Hnd. apply NoDup_app in Hnd as (? & Hd & [? ?]%NoDup_cons).
           apply NoDup_app. split_and!; [done| |done]. set_solver.
      * rewrite <- level_app, elem_of_cons, elem_of_level.
        apply NoDup_cons in Hnd as [Hd0 Hnd]. apply NoDup_app in Hnd as (? & Hd & [? ?]%NoDup_cons).
        set_solver.
      * rewrite Hln. unfold succ_at. by rewrite HlB.
      * intros y. rewrite (wr_load _ _ _ _ _ Hw), <- Hpred.
        apply decide_ext. naive_solver.
    + eapply links_frame; [|intros z _; rewrite (wr_load _ _ _ _ _ Hw); apply decide_False; naive_solver].
      replace (if decide (l < S j)%nat then [n] else []) with (if decide (l < j)%nat then [n] else [])
        by (repeat case_decide; (done || lia)).
      by apply Hlk.
  - intros a Ha. split; [|by rewrite (wr_slots _ _ _ _ _ Hw); apply Hbrk].
    by apply (wr_free _ _ _ _ _ Hw), Hbrk.
Qed.

(** A fully linked node completes the list. *)
Lemma linking_wf st :
  linking h st -> keys_sorted (la ++ (k, v) :: lb) -> wf st (A ++ n :: B) (la ++ (k, v) :: lb).
Proof.
  intros [Hhd Heq Hnd HA HB Hn Hh Hlv Hlk Hbrk] Hs. split; try done.
  - apply Forall2_app; [done|by constructor].
  - intros i Hi. rewrite level_app.
    assert (level st i (n :: B) = (if decide (i < h)%nat then [n] else []) ++ level st i B) as ->;
      [|by apply Hlk].
    unfold level. rewrite filter_cons, Hh. by case_decide.
Qed.

(** ** The loops over levels *)

Definition succs0 : list (option nat) := succ_at st0 B <$> seq 0 MAX_HEIGHT.
Definition preds0 : list nat := pred_at st0 A <$> seq 0 MAX_HEIGHT.

Lemma succs0_lookup i : (i < MAX_HEIGHT)%nat -> succs0 !! i = Some (succ_at st0 B i).
Proof. apply lookup_seq_fmap. Qed.
Lemma preds0_lookup i : (i < MAX_HEIGHT)%nat -> preds0 !! i = Some (pred_at st0 A i).
Proof. apply lookup_seq_fmap. Qed.

Lemma init_links_spec i st :
  linking 0 st -> (i <= h)%nat -> (forall l, (l < h)%nat -> is_Some (load_next st n l)) ->
  exists st', init_links i succs0 n st = Some st' /\ linking 0 st' /\
    (forall l, (l < h)%nat -> is_Some (load_next st' n l)) /\
    (forall l, (l < i)%nat -> load_next st' n l = Some (succ_at st0 B l)).
Proof.
  intros Hlk Hi Hload. pose proof (lk_height _ _ Hlk) as Hh12.
  induction i as [|i IH]; [exists st; split_and!; [done..|lia]|].
  destruct IH as (st1 & Hst1 & Hlk1 & Hl1 & Hs1); [lia|]. cbn [init_links]. rewrite Hst1.
  cbn [mbind option_bind]. rewrite succs0_lookup by lia. cbn [mbind option_bind].
  destruct (Hl1 i ltac:(lia)) as [o Ho].
  destruct (store_next_Some st1 n i (succ_at st0 B i) o Ho) as [st' Hst'].
  exists st'. split; [done|]. apply store_next_wrote in Hst' as Hw.
  split; [by eapply linking_wrote_other; [|lia|]|]. split.
  - intros l Hl. rewrite (wr_load _ _ _ _ _ Hw). case_decide; [by eexists|auto].
  - intros l Hl. rewrite (wr_load _ _ _ _ _ Hw). case_decide as Hd; [by destruct Hd as [_ ->]|].
    apply Hs1. destruct (decide (l = i)); [naive_solver|lia].
Qed.

Lemma link_upper_spec m j st :
  linking j st -> (j + m = h)%nat ->
  (forall l, (l < h)%nat -> is_Some (load_next st n l)) ->
  exists st', link_upper m k n j preds0 succs0 st = Some st' /\ linking h st'.
Proof.
  revert j st. induction m as [|m IH]; intros j st Hlk Hjm Hload.
  { exists st. split; [done|]. by replace h with j by lia. }
  pose proof (lk_height _ _ Hlk) as Hh12. cbn [link_upper link_level].
  rewrite preds0_lookup, succs0_lookup by lia. cbn [mbind option_bind].
  destruct (Hload j ltac:(lia)) as [o Ho].
  destruct (store_next_Some st n j (succ_at st0 B j) o Ho) as [st1 Hst1].
  rewrite Hst1. cbn [mbind option_bind]. apply store_next_wrote in Hst1 as Hw.
  assert (linking j st1) as Hlk1 by (by eapply linking_wrote_other; [|done|]).
  assert (load_next st1 n j = Some (succ_at st0 B j)) as Hl1.
  { rewrite (wr_load _ _ _ _ _ Hw). by rewrite decide_True. }
  destruct (linking_cas j st1 Hlk1 ltac:(lia) Hl1) as (st2 & -> & Hlk2 & Hfr).
  cbn [mbind option_bind]. apply IH; [done|lia|].
  intros l Hl. destruct (decide (l = j)) as [->|Hlj].
  - pose proof (lk_n _ _ Hlk2) as (nd & Hnd & _ & _ & _ & Hlen).
    pose proof (lk_h _ _ Hlk2) as Hhn. unfold height_of in Hhn. rewrite Hnd in Hhn.
    unfold load_next. rewrite Hnd. simpl. apply lookup_lt_is_Some_2. lia.
  - rewrite Hfr by done. rewrite (wr_load _ _ _ _ _ Hw). case_decide; [by eexists|auto].
Qed.
End linking.

(** ** Insertion *)

Lemma create_linking st k v h A B la lb :
  located st k A B la lb -> (1 <= h <= MAX_HEIGHT)%nat ->
  let '(n, st1) := create k v h st in
  linking st A B la lb n h k v 0 st1 /\ n = brk st /\
  (forall l, (l < h)%nat -> load_next st1 n l = Some None).
Proof.
  intros [Hwf HA HB Hlt Hge] Hh. unfold create, makeSlot, set_node. simpl.
  destruct Hwf as [Hhd Hnd He Hs Hlk Hbrk].
  destruct (Hbrk (brk st) ltac:(done)) as [Hfn Hfs1].
  destruct (Hbrk (S (brk st)) ltac:(lia)) as [_ Hfs].
  set (st1 := mkState _ _ _ _).
  assert (forall y e, stores st y e -> y <> brk st /\ stores st1 y e) as Hst.
  { intros y e (nd & Hy & Hk & Hsl & [? ?] & ?).
    assert (y <> brk st) by congruence. split; [done|].
    exists nd. simpl. rewrite lookup_insert_ne by done. split_and!; [done|done| |done..].
    rewrite lookup_insert_ne; [done|]. congruence. }
  assert (forall l le, Forall2 (stores st) l le -> Forall2 (stores st1) l le /\ brk st ∉ l) as HF.
  { intros l le. induction 1 as [|y e l le Hy _ [IH1 IH2]]; [split; [done|set_solver]|].
    destruct (Hst y e Hy). split; [by constructor|set_solver]. }
  assert (head st <> brk st) as Hhn.
  { destruct Hhd as (nd & Hnd' & _). congruence. }
  assert (forall y, y <> brk st -> nodes st1 !! y = nodes st !! y) as Hnodes.
  { intros y Hy. simpl. by rewrite lookup_insert_ne. }
  assert (forall i l, brk st ∉ l -> level st1 i l = level st i l) as Hlev.
  { intros i l Hl. unfold level. induction l as [|y l IH]; [done|].
    rewrite !filter_cons, IH by set_solver. unfold height_of. by rewrite Hnodes by set_solver. }
  destruct (HF _ _ HA) as [HA1 HnA]. destruct (HF _ _ HB) as [HB1 HnB].
  split_and!; [|done|].
  - split; try done.
    + destruct Hhd as (nd & Hn & Hl). exists nd. simpl. by rewrite lookup_insert_ne.
    + simpl. apply NoDup_cons in Hnd as [Hh0 Hnd]. apply NoDup_app in Hnd as (N1 & N2 & N3).
      apply NoDup_cons. split; [set_solver|]. apply NoDup_app. split_and!; [done| |by apply NoDup_cons].
      set_solver.
    + eexists. simpl. rewrite lookup_insert_eq. split; [done|]. simpl.
      rewrite lookup_insert_eq, length_replicate. done.
    + unfold height_of. simpl. by rewrite lookup_insert_eq.
    + intros i. by rewrite !Hlev.
    + intros i Hi. rewrite !Hlev by done. rewrite decide_False by lia. cbn [app].
      pose proof (Hlk i Hi) as Hl. rewrite level_app in Hl.
      eapply links_frame; [exact Hl|]. intros z Hz. unfold load_next. rewrite Hnodes; [done|].
      intros ->. rewrite <- level_app, elem_of_cons, elem_of_level in Hz.
      destruct Hz as [?|[_ Hz]]; [done|]. set_solver.
    + intros a Ha. simpl in *. rewrite !lookup_insert_ne by lia. split; apply Hbrk; lia.
  - intros l Hl. unfold load_next. simpl. rewrite lookup_insert_eq. simpl.
    by rewrite lookup_replicate_2.
Qed.

Lemma randomHeight_range rng : (1 <= (randomHeight rng).1 <= MAX_HEIGHT)%nat.
Proof.
  unfold randomHeight.
  assert (forall fuel h, (1 <= h <= MAX_HEIGHT)%nat ->
    (1 <= (random_height_loop fuel rng h).1 <= MAX_HEIGHT)%nat) as H; [|apply H; unfold MAX_HEIGHT; lia].
  intros fuel.
  revert rng. induction fuel as [|fuel IH]; intros rng h Hh; simpl; [done|].
  case_decide; [|done]. destruct (rng 0%nat mod 4 =? 0); simpl; [apply IH|]; lia.
Qed.

Lemma wf_same_shape st st' chain l l' :
  wf st chain l -> head st' = head st ->
  (forall x i, load_next st' x i = load_next st x i) ->
  (forall x, height_of st' x = height_of st x) ->
  Forall2 (stores st') chain l' -> keys_sorted l' ->
  (forall a, (brk st' <= a)%nat -> nodes st' !! a = None /\ slots st' !! a = None) ->
  head_ok st' -> wf st' chain l'.
Proof.
  intros [_ Hnd _ _ Hlk _] Hh Hload Hht He Hs Hb Hhd. split; rewrite ?Hh; try done.
  intros i Hi. assert (level st' i chain = level st i chain) as ->.
  { unfold level. apply list_filter_iff. intros y. by rewrite Hht. }
  eapply links_frame; [by apply Hlk|done].
Qed.

Lemma insert_existing_spec st k v w y A B la lb :
  located st k A (y :: B) la ((k, w) :: lb) ->
  exists st', insert_existing v (succs0 st (y :: B)) st
    = Some (mkInsertResult false (match w with Some s => zlen s | None => 0 end), st') /\
    wf st' (A ++ y :: B) (la ++ (k, v) :: lb).
Proof.
  intros Hloc. pose proof Hloc as [Hwf HA HB Hlt Hge].
  apply Forall2_cons in HB as [Hy HB]. pose proof Hy as (n & Hn & Hk & Hsl & Hh & Hlen). simpl in *.
  unfold insert_existing. rewrite succs0_lookup by (unfold MAX_HEIGHT; lia).
  assert (succ_at st (y :: B) 0 = Some y) as ->.
  { unfold succ_at. by rewrite (level0 st (y :: B) ((k, w) :: lb)) by (by constructor). }
  cbn [mjoin option_join mbind option_bind]. rewrite Hn. cbn [mbind option_bind].
  rewrite Hsl. cbn [mbind option_bind makeSlot]. eexists. split; [done|].
  destruct (wf_brk _ _ _ Hwf (brk st) ltac:(done)) as [Hfn Hfs].
  set (st' := set_node _ _ _).
  assert (forall z, nodes st' !! z = if decide (y = z) then
            Some (mkNode (key n) (brk st) (height n) (next n)) else nodes st !! z) as Hnodes.
  { intros z. unfold st', set_node. simpl. apply lookup_insert. }
  assert (forall z e, z <> y -> stores st z e -> stores st' z e) as Hst.
  { intros z e Hz (m & Hm & Hmk & Hms & Hmh & Hml). exists m. rewrite Hnodes, decide_False by done.
    split_and!; [done|done| |apply Hmh..|done]. simpl. rewrite lookup_insert_ne; [done|]. congruence. }
  assert (y ∉ A /\ y ∉ B) as [HyA HyB].
  { pose proof (wf_nodup _ _ _ Hwf) as Hnd. apply NoDup_cons in Hnd as [_ Hnd].
    apply NoDup_app in Hnd as (_ & Hd & [? _]%NoDup_cons). set_solver. }
  assert (forall c lc, y ∉ c -> Forall2 (stores st) c lc -> Forall2 (stores st') c lc) as HF.
  { intros c lc Hc HF. induction HF as [|z e c lc Hz _ IH]; [done|].
    constructor; [apply Hst; [set_solver|done]|apply IH; set_solver]. }
  apply (wf_same_shape st st' _ _ _ Hwf); try done.
  - intros x i. unfold load_next. rewrite Hnodes. case_decide; [subst|done]. by rewrite Hn.
  - intros x. unfold height_of. rewrite Hnodes. case_decide; [subst|done]. by rewrite Hn.
  - apply Forall2_app; [by apply HF|]. constructor; [|by apply HF].
    eexists. rewrite Hnodes, decide_True by done. split; [done|]. simpl.
    by rewrite lookup_insert_eq.
  - pose proof (wf_sorted _ _ _ Hwf) as Hs. unfold keys_sorted in *. by rewrite fmap_app in *.
  - intros a Ha. rewrite Hnodes. unfold st', set_node in *. simpl in *.
    rewrite lookup_insert_ne by lia.
    case_decide; [subst|apply (wf_brk _ _ _ Hwf); lia].
    destruct (wf_brk _ _ _ Hwf a) as [? _]; [lia|congruence].
  - destruct (wf_head _ _ _ Hwf) as (m & Hm & Hml). unfold head_ok. rewrite Hnodes. simpl.
    case_decide as Hd; [|by exists m]. subst. rewrite Hn in Hm. simplify_eq. by eexists.
Qed.

Lemma sorted_middle k (v : option str) la lb :
  keys_sorted (la ++ lb) -> (forall k', k' ∈ la.*1 -> k' <s k) -> (forall k', k' ∈ lb.*1 -> k <s k') ->
  keys_sorted (la ++ (k, v) :: lb).
Proof.
  intros (Hd & Ha & Hb)%keys_sorted_app Hlt Hgt. apply keys_sorted_app. split_and!; [|done|].
  - simpl. intros k1 k2 H1 [->|H2]%elem_of_cons; auto.
  - by apply keys_sorted_cons.
Qed.

Lemma insert_new_spec st k v rng A B la lb :
  located st k A B la lb -> (forall k', k' ∈ lb.*1 -> k <s k') ->
  exists st' n,
    insert k v rng st = Some (mkInsertResult true 0, (randomHeight rng).2, st') /\
    wf st' (A ++ n :: B) (la ++ (k, v) :: lb).
Proof.
  intros Hloc Hgt. unfold insert. cbn [insert_loop].
  rewrite (located_find _ _ _ _ _ _ Hloc). cbn [mbind option_bind].
  assert ((match lb with [] => false | e :: _ => k =?s e.1 end) = false) as ->.
  { destruct lb as [|e lb]; [done|]. apply not_true_iff_false. intros ->%str_eqb_eq.
    apply (str_lt_irrefl e.1), Hgt. set_solver. }
  pose proof (randomHeight_range rng) as Hh.
  destruct (randomHeight rng) as [h rng']. simpl in Hh. cbv beta iota. cbn [snd].
  pose proof (create_linking st k v h A B la lb Hloc Hh) as Hcr.
  destruct (create k v h st) as [n st1]. destruct Hcr as (Hlk & _ & Hnone).
  destruct (init_links_spec st A B la lb n h k v h st1) as (st2 & Hst2 & Hlk2 & Hld2 & Hs2);
    [done|done|intros l Hl; rewrite Hnone by done; by eexists|].
  change (pred_at st A <$> seq 0 MAX_HEIGHT) with (preds0 st A).
  change (succ_at st B <$> seq 0 MAX_HEIGHT) with (succs0 st B). rewrite Hst2. cbn [mbind option_bind].
  rewrite succs0_lookup, preds0_lookup by (unfold MAX_HEIGHT; lia). cbn [mbind option_bind].
  destruct (linking_cas st A B la lb n h k v 0 st2) as (st3 & -> & Hlk3 & Hfr);
    [done|lia|apply Hs2; lia|]. cbn [mbind option_bind].
  destruct (link_upper_spec st A B la lb n h k v (h - 1) 1 st3) as (st4 & -> & Hlk4); [done|lia| |].
  { intros l Hl. destruct (decide (l = 0%nat)) as [->|Hl0]; [|rewrite Hfr by done; auto].
    pose proof (lk_n _ _ _ _ _ _ _ _ _ _ _ Hlk3) as (nd & Hnd & _ & _ & [? _] & Hlen).
    unfold load_next. rewrite Hnd. simpl. apply lookup_lt_is_Some_2. lia. }
  cbn [mbind option_bind]. exists st4, n. split; [done|].
  eapply linking_wf; [exact Hlk4|].
  pose proof (wf_sorted _ _ _ (loc_wf _ _ _ _ _ _ Hloc)).
  apply sorted_middle; [done|apply (loc_lt _ _ _ _ _ _ Hloc)|done].
Qed.

Lemma insert_spec st chain l k v rng :
  wf st chain l ->
  exists r rng' st' chain', insert k v rng st = Some (r, rng', st') /\
    wf st' chain' (ainsert k v l) /\
    r = mkInsertResult (bool_decide (alookup k l = None))
          (match alookup k l with Some (Some s) => zlen s | _ => 0 end).
Proof.
  intros H. destruct (wf_located _ _ _ k H) as (A & B & la & lb & -> & -> & Hloc).
  pose proof (loc_lt _ _ _ _ _ _ Hloc) as Hlt. pose proof (loc_ge _ _ _ _ _ _ Hloc) as Hge.
  assert (alookup k la = None) as Hla.
  { apply alookup_None. intros Hin. by apply Hlt, str_lt_irrefl in Hin. }
  rewrite ainsert_app_lt, alookup_app, Hla by done.
  assert (match lb with e :: _ => k = e.1 | [] => False end \/
          match lb with e :: _ => k <> e.1 | [] => True end) as [Heq|Hne].
  { destruct lb as [|e lb']; [by right|]. destruct (decide (k = e.1)); auto. }
  - destruct lb as [|[k0 w] lb]; [done|]. simpl in Heq. subst k0.
    pose proof (loc_B _ _ _ _ _ _ Hloc) as HB. destruct B as [|y B]; [by inversion HB|].
    destruct (insert_existing_spec st k v w y A B la lb Hloc) as (st' & Hins & Hwf').
    rewrite ainsert_head_eq, alookup_cons, decide_True by done.
    eexists _, rng, st', _. split; [|split; [exact Hwf'|done]].
    unfold insert. cbn [insert_loop]. rewrite (located_find _ _ _ _ _ _ Hloc). cbn [mbind option_bind fst].
    rewrite (proj2 (str_eqb_eq k k) eq_refl).
    change (succ_at st (y :: B) <$> seq 0 MAX_HEIGHT) with (succs0 st (y :: B)). by rewrite Hins.
  - assert (forall k', k' ∈ lb.*1 -> k <s k') as Hgt.
    { intros k' Hk'. destruct (str_lt_trichotomy k k') as [|[->|Hc]]; [done| |by apply Hge in Hk'].
      pose proof (wf_sorted _ _ _ H) as Hs. apply keys_sorted_app in Hs as (_ & _ & Hs).
      destruct lb as [|[k0 w] lb]; [set_solver|]. simpl in *.
      apply keys_sorted_cons in Hs as [Hs _]. apply elem_of_cons in Hk' as [?|Hk'%Hs]; [done|].
      exfalso. apply (Hge k0); [set_solver|done]. }
    destruct (insert_new_spec st k v rng A B la lb Hloc Hgt) as (st' & n & Hins & Hwf').
    assert (alookup k lb = None) as ->.
    { apply alookup_None. intros Hin. by apply Hgt, str_lt_irrefl in Hin. }
    rewrite ainsert_head_gt by done. by eexists _, _, st', _.
Qed.

(** ** Iteration *)

Lemma iterate_spec st x c lc fuel :
  links st 0 x c -> Forall2 (stores st) c lc -> (length c <= fuel)%nat ->
  iterate fuel st (List.hd_error c) = Some lc.
Proof.
  intros Hl HF. revert x fuel Hl. induction HF as [|y e c lc Hy HF IH]; intros x fuel Hl Hf.
  { by destruct fuel. }
  destruct fuel as [|fuel]; [simpl in Hf; lia|]. simpl in Hl, Hf |- *. destruct Hl as [_ Hl].
  destruct Hy as (n & Hn & Hk & Hs & _). unfold read_entry. rewrite Hn. simpl. rewrite Hs. simpl.
  assert (load_next st y 0 = Some (List.hd_error c)) as -> by (destruct c; simpl in *; tauto).
  cbn [mbind option_bind]. rewrite (IH y) by (done || lia). simpl. rewrite Hk. by destruct e.
Qed.

Lemma afrom_split (k : str) (la lb : list (str * option str)) :
  (forall k', k' ∈ la.*1 -> k' <s k) -> (forall k', k' ∈ lb.*1 -> ~ k' <s k) ->
  afrom k (la ++ lb) = lb.
Proof.
  intros Ha Hb. by rewrite afrom_app, (afrom_all k lb), (afrom_none k la).
Qed.

(** From the first node at or after a key, iteration yields the entries from that
    key on. *)
Lemma find_iterate st chain l k :
  wf st chain l ->
  exists ps ss s0, find st k = Some (bool_decide (is_Some (alookup k l)), ps, ss) /\
    ss !! 0%nat = Some s0 /\ iterate (size (nodes st)) st s0 = Some (afrom k l) /\
    (forall v, alookup k l = Some v -> exists y, s0 = Some y /\ read_entry st y = Some (k, v)).
Proof.
  intros H. destruct (wf_located _ _ _ k H) as (A & B & la & lb & -> & -> & Hloc).
  pose proof (loc_lt _ _ _ _ _ _ Hloc) as Hlt. pose proof (loc_ge _ _ _ _ _ _ Hloc) as Hge.
  pose proof (loc_B _ _ _ _ _ _ Hloc) as HB.
  exists (preds0 st A), (succs0 st B), (succ_at st B 0).
  assert (alookup k la = None) as Hla.
  { apply alookup_None. intros Hin. by apply Hlt, str_lt_irrefl in Hin. }
  assert (succ_at st B 0 = List.hd_error B) as Hs0 by (unfold succ_at; by rewrite (level0 st B lb HB)).
  pose proof (wf_sorted _ _ _ H) as Hsort. apply keys_sorted_app in Hsort as (_ & _ & Hsort).
  rewrite alookup_app, Hla.
  assert (forall e lb', lb = e :: lb' -> k <> e.1 -> alookup k lb = None) as Hhead.
  { intros [k0 w] lb' -> Hk. apply alookup_lt_head; [done|].
    destruct (str_lt_trichotomy k k0) as [|[?|Hc]]; [done..|]. exfalso. apply (Hge k0); [set_solver|done]. }
  split_and!.
  - rewrite (located_find _ _ _ _ _ _ Hloc). unfold preds0, succs0. do 3 f_equal.
    destruct lb as [|e lb]; [done|]. unfold str_eqb. apply bool_decide_ext.
    destruct (decide (k = e.1)) as [Hk|Hk]; [|by rewrite (Hhead e lb)].
    destruct e as [k0 w]. simpl in Hk. subst. rewrite alookup_cons, decide_True by done.
    split; [by eexists|done].
  - apply succs0_lookup. unfold MAX_HEIGHT. lia.
  - rewrite Hs0, afrom_split by done.
    eapply (iterate_spec st (default (head st) (last A)) B); [|done|].
    + pose proof (wf_links _ _ _ H 0 ltac:(unfold MAX_HEIGHT; lia)) as Hl.
      rewrite (level0 st (A ++ B) (la ++ lb) (wf_entries _ _ _ H)) in Hl. by apply links_app in Hl.
    + pose proof (chain_size _ _ _ H). rewrite length_app in *. lia.
  - intros v Hv. destruct HB as [|y e B lb Hy HB]; [done|].
    exists y. split; [done|]. destruct (decide (k = e.1)) as [Hk|Hk]; [|by rewrite (Hhead e lb) in Hv].
    destruct e as [k0 w]. simpl in Hk. subst. rewrite alookup_cons, decide_True in Hv by done.
    destruct Hy as (n & Hn & Hnk & Hns & _). unfold read_entry. rewrite Hn. simpl.
    rewrite Hns. simpl in *. congruence.
Qed.

Lemma wf_begin st chain l :
  wf st chain l -> exists s0, load_next st (head st) 0 = Some s0 /\
    iterate (size (nodes st)) st s0 = Some l.
Proof.
  intros H. exists (List.hd_error chain).
  pose proof (wf_links _ _ _ H 0 ltac:(unfold MAX_HEIGHT; lia)) as Hl.
  rewrite (level0 st chain l (wf_entries _ _ _ H)) in Hl. split.
  - by apply (links_load st 0 (head st) []).
  - eapply iterate_spec; [exact Hl|apply (wf_entries _ _ _ H)|].
    pose proof (chain_size _ _ _ H). lia.
Qed.

Lemma empty_wf : wf empty [] [].
Proof.
  split; try done.
  - by eexists.
  - repeat constructor. set_solver.
  - constructor.
  - intros i Hi. unfold MAX_HEIGHT in Hi. do 12 (destruct i as [|i]; [reflexivity|]). lia.
  - intros a Ha. change (2 <= a)%nat in Ha. unfold empty, create, makeSlot, set_node. simpl.
    rewrite !lookup_insert_ne by lia. done.
Qed.

End SkipList.
