(* ===== verification/Memtable.v ===== *)
(** * The memtable

    Models [src/memtable/skip_list.h], [Memtable]: the skip list with its byte
    and entry counters, which wrap at 64 bits.  [MemtableOps] is what the engine
    uses of it and [MemtableSpec] what it promises: a map from keys to optional
    values (no value: a tombstone), iterated in key order. *)

From S2P Require Import Prelude SkipList.
Open Scope Z_scope.

(** ** The interface *)

(** Operations return [None] on undefined behaviour. *)
Class MemtableOps (M : Type) := {
  mt_create : Z -> M;
  mt_put : str -> str -> Rng -> M -> option (Rng * M);
  mt_del : str -> Rng -> M -> option (Rng * M);
  mt_get : str -> M -> option (option (option str));
  mt_isFull : M -> bool;
  mt_size : M -> Z;
  mt_entries : M -> option (list (str * option str));      (* begin() .. end() *)
  mt_seek : str -> M -> option (list (str * option str))   (* seek(key) .. end() *)
}.

(** What a run of entries occupies: what [put] and [del] charge per entry. *)
Definition entry_bytes (e : str * option str) : Z :=
  zlen e.1 + match e.2 with Some v => zlen v | None => 0 end + 8.
Definition entries_bytes (l : list (str * option str)) : Z :=
  foldr (fun e a => entry_bytes e + a) 0 l.

(** [mt_rep m max l]: memtable [m], created with limit [max], holds the sorted
    run [l]. *)
Class MemtableSpec (M : Type) `{MemtableOps M} := {
  mt_rep : M -> Z -> list (str * option str) -> Prop;
  mt_rep_sorted m max l : mt_rep m max l -> keys_sorted l;
  mt_create_spec max : mt_rep (mt_create max) max [];
  mt_put_spec m max l k v rng : mt_rep m max l ->
    exists rng' m', mt_put k v rng m = Some (rng', m') /\ mt_rep m' max (ainsert k (Some v) l);
  mt_del_spec m max l k rng : mt_rep m max l ->
    exists rng' m', mt_del k rng m = Some (rng', m') /\ mt_rep m' max (ainsert k None l);
  mt_get_spec m max l k : mt_rep m max l -> mt_get k m = Some (alookup k l);
  mt_isFull_spec m max l : mt_rep m max l -> mt_isFull m = (max <=? u64 (entries_bytes l));
  mt_size_spec m max l : mt_rep m max l -> mt_size m = u64 (zlen l);
  mt_entries_spec m max l : mt_rep m max l -> mt_entries m = Some l;
  mt_seek_spec m max l k : mt_rep m max l -> mt_seek k m = Some (afrom k l)
}.

Module Memtable.

(** ** State and operations *)

Definition DEFAULT_MAX_BYTES : Z := 4 * 1024 * 1024.

Record t := mkT {
  max_bytes : Z;
  current_bytes : Z;
  count : Z;
  list_ : SkipList.state
}.

Definition create (max : Z) : t := mkT max 0 0 SkipList.empty.

(** The byte total moves by a signed difference, added or subtracted. *)
Definition adjustValueBytes (oldBytes newBytes : Z) (m : t) : t :=
  mkT (max_bytes m)
      (if oldBytes <=? newBytes then u64 (current_bytes m + (newBytes - oldBytes))
       else u64 (current_bytes m - (oldBytes - newBytes)))
      (count m) (list_ m).

(** A key was linked in: its bytes and one entry are charged. *)
Definition charge (bytes : Z) (m : t) : t :=
  mkT (max_bytes m) (u64 (current_bytes m + u64 bytes)) (u64 (count m + 1)) (list_ m).

Definition with_list (m : t) (l : SkipList.state) : t :=
  mkT (max_bytes m) (current_bytes m) (count m) l.

Definition put (k v : str) (rng : Rng) (m : t) : option (Rng * t) :=
  '(r, rng, l) ← SkipList.insert k (Some v) rng (list_ m);
  let m := with_list m l in
  Some (rng, if SkipList.inserted r then charge (zlen k + zlen v + 8) m
             else adjustValueBytes (SkipList.replacedValueBytes r) (zlen v) m).

Definition del (k : str) (rng : Rng) (m : t) : option (Rng * t) :=
  '(r, rng, l) ← SkipList.insert k None rng (list_ m);
  let m := with_list m l in
  Some (rng, if SkipList.inserted r then charge (zlen k + 8) m
             else adjustValueBytes (SkipList.replacedValueBytes r) 0 m).

(** [succs[0]->value.load()->v] when [find] hits. *)
Definition get (k : str) (m : t) : option (option (option str)) :=
  '(found, _, ss) ← SkipList.find (list_ m) k;
  if (found : bool) then
    y ← mjoin (ss !! 0%nat);
    e ← SkipList.read_entry (list_ m) y;
    Some (Some e.2)
  else Some None.

Definition isFull (m : t) : bool := max_bytes m <=? current_bytes m.
Definition size (m : t) : Z := count m.
Definition byteSize (m : t) : Z := current_bytes m.
Definition empty (m : t) : bool := size m =? 0.

(** What an [Iterator] from a node delivers until [end()]. *)
Definition drain (m : t) (from : option nat) : option (list (str * option str)) :=
  SkipList.iterate (base.size (SkipList.nodes (list_ m))) (list_ m) from.

Definition begin (m : t) : option (list (str * option str)) :=
  from ← SkipList.load_next (list_ m) (SkipList.head (list_ m)) 0;
  drain m from.

Definition seek (k : str) (m : t) : option (list (str * option str)) :=
  '(_, _, ss) ← SkipList.find (list_ m) k;
  from ← ss !! 0%nat;
  drain m from.

(** ** The invariant *)

(** The skip list is well formed and the counters count it. *)
Record rep (m : t) (max : Z) (l : list (str * option str)) : Prop := {
  rep_max : max_bytes m = max;
  rep_bytes : current_bytes m = u64 (entries_bytes l);
  rep_count : count m = u64 (zlen l);
  rep_list : exists chain, SkipList.wf (list_ m) chain l
}.

Lemma entries_bytes_app l1 l2 : entries_bytes (l1 ++ l2) = entries_bytes l1 + entries_bytes l2.
Proof. unfold entries_bytes. induction l1 as [|e l1 IH]; simpl; lia. Qed.

(** How one insertion moves the totals. *)
Lemma ainsert_counts k (v : option str) l :
  keys_sorted l ->
  match alookup k l with
  | None => entries_bytes (ainsert k v l) = entries_bytes l + entry_bytes (k, v) /\
            zlen (ainsert k v l) = zlen l + 1
  | Some w => entries_bytes (ainsert k v l)
                = entries_bytes l + entry_bytes (k, v) - entry_bytes (k, w) /\
              zlen (ainsert k v l) = zlen l
  end.
Proof.
  intros Hs. destruct (split_at_key k l Hs) as (la & lb & -> & Hlt & Hge).
  assert (alookup k la = None) as Hla.
  { apply alookup_None. intros Hin. by apply Hlt, str_lt_irrefl in Hin. }
  rewrite ainsert_app_lt, alookup_app, Hla, !entries_bytes_app, !length_app by done.
  destruct lb as [|[k0 w] lb]; [simpl; lia|]. rewrite alookup_cons. case_decide as Hk.
  - subst k0. rewrite ainsert_head_eq. simpl. lia.
  - apply keys_sorted_app in Hs as (_ & _ & Hs). assert (k <s k0) as Hlt0.
    { destruct (str_lt_trichotomy k k0) as [|[?|Hc]]; [done..|]. exfalso. apply (Hge k0); [set_solver|done]. }
    assert (alookup k lb = None) as Hn.
    { pose proof (alookup_lt_head k k0 w lb Hs Hlt0) as Hn. by rewrite alookup_cons, decide_False in Hn. }
    rewrite Hn, ainsert_head_gt; [simpl; lia|].
    apply keys_sorted_cons in Hs as [Hs _]. simpl.
    intros k' [->|?%Hs]%elem_of_cons; [done|]. by eapply str_lt_trans.
Qed.

Lemma u64_add_l a b : u64 (u64 a + b) = u64 (a + b).
Proof. unfold wrap. by rewrite Zplus_mod_idemp_l. Qed.
Lemma u64_add_r a b : u64 (a + u64 b) = u64 (a + b).
Proof. unfold wrap. by rewrite Zplus_mod_idemp_r. Qed.
Lemma u64_sub_l a b : u64 (u64 a - b) = u64 (a - b).
Proof. unfold wrap. by rewrite Zminus_mod_idemp_l. Qed.

(** One insertion with its accounting. *)
Lemma insert_rep m max l k v rng :
  rep m max l ->
  exists r rng' lst, SkipList.insert k v rng (list_ m) = Some (r, rng', lst) /\
    rep (if SkipList.inserted r
         then charge (zlen k + match v with Some s => zlen s | None => 0 end + 8) (with_list m lst)
         else adjustValueBytes (SkipList.replacedValueBytes r)
                (match v with Some s => zlen s | None => 0 end) (with_list m lst))
        max (ainsert k v l).
Proof.
  intros [Hmax Hb Hc [chain Hwf]].
  destruct (SkipList.insert_spec _ _ _ k v rng Hwf) as (r & rng' & lst & chain' & Hins & Hwf' & ->).
  exists (SkipList.mkInsertResult (bool_decide (alookup k l = None))
            (match alookup k l with Some (Some s) => zlen s | _ => 0 end)), rng', lst.
  split; [done|]. pose proof (ainsert_counts k v l (SkipList.wf_sorted _ _ _ Hwf)) as Hcnt. simpl.
  destruct (alookup k l) as [w|]; destruct Hcnt as [Hb' Hc']; simpl.
  - unfold adjustValueBytes, with_list. split; simpl; [done| | |by eexists].
    + rewrite Hb, Hb'. unfold entry_bytes. cbn [fst snd].
      case Z.leb_spec; intros; rewrite ?u64_add_l, ?u64_sub_l; f_equal; lia.
    + by rewrite Hc, Hc'.
  - unfold charge, with_list. split; simpl; [done| | |by eexists].
    + by rewrite Hb, Hb', u64_add_l, u64_add_r.
    + by rewrite Hc, Hc', u64_add_l.
Qed.

Lemma put_rep m max l k v rng :
  rep m max l -> exists rng' m', put k v rng m = Some (rng', m') /\ rep m' max (ainsert k (Some v) l).
Proof.
  intros H. destruct (insert_rep m max l k (Some v) rng H) as (r & rng' & lst & Hins & Hrep).
  unfold put. rewrite Hins. by eexists _, _.
Qed.

Lemma del_rep m max l k rng :
  rep m max l -> exists rng' m', del k rng m = Some (rng', m') /\ rep m' max (ainsert k None l).
Proof.
  intros H. destruct (insert_rep m max l k None rng H) as (r & rng' & lst & Hins & Hrep).
  unfold del. rewrite Hins. eexists _, _. split; [done|]. by rewrite Z.add_0_r in Hrep.
Qed.

Lemma create_rep max : rep (create max) max [].
Proof. split; try done. exists []. apply SkipList.empty_wf. Qed.

Lemma get_rep m max l k : rep m max l -> get k m = Some (alookup k l).
Proof.
  intros [_ _ _ [chain Hwf]].
  destruct (SkipList.find_iterate _ _ _ k Hwf) as (ps & ss & s0 & Hf & Hs0 & _ & Hentry).
  unfold get. rewrite Hf. cbn [mbind option_bind]. case_bool_decide as Hk.
  - destruct Hk as [v Hv]. destruct (Hentry v Hv) as (y & -> & Hy).
    rewrite Hs0. cbn [mjoin option_join mbind option_bind]. by rewrite Hy, Hv.
  - f_equal. symmetry. by apply eq_None_not_Some.
Qed.

Lemma seek_rep m max l k : rep m max l -> seek k m = Some (afrom k l).
Proof.
  intros [_ _ _ [chain Hwf]].
  destruct (SkipList.find_iterate _ _ _ k Hwf) as (ps & ss & s0 & Hf & Hs0 & Hit & _).
  unfold seek. rewrite Hf. cbn [mbind option_bind]. rewrite Hs0. exact Hit.
Qed.

Lemma begin_rep m max l : rep m max l -> begin m = Some l.
Proof.
  intros [_ _ _ [chain Hwf]]. destruct (SkipList.wf_begin _ _ _ Hwf) as (s0 & Hs0 & Hit).
  unfold begin. rewrite Hs0. exact Hit.
Qed.

(** ** Properties *)

(** C31: [put] and [del] act on the memtable as insertion of the value, or of a
    tombstone, into the sorted run it holds; the byte total stays the sum of
    key, value and 8 over the entries, and the count their number (modulo
    2^64), also across overwrites. *)
Theorem put_del_rep m max l k rng :
  rep m max l ->
  (forall v, exists rng' m', put k v rng m = Some (rng', m') /\ rep m' max (ainsert k (Some v) l)) /\
  (exists rng' m', del k rng m = Some (rng', m') /\ rep m' max (ainsert k None l)).
Proof. split; [intros v; by apply put_rep|by apply del_rep]. Qed.

(** reads of the memtable: [get] finds a key's value or tombstone exactly
    when the run holds it, [begin()] iterates the whole run in key order,
    [seek] the part from the given key on; [isFull] and [size] follow the
    entries held. *)
Theorem reads_rep m max l k :
  rep m max l ->
  get k m = Some (alookup k l) /\ begin m = Some l /\ seek k m = Some (afrom k l) /\
  isFull m = (max <=? u64 (entries_bytes l)) /\ size m = u64 (zlen l).
Proof.
  intros H. split_and!; [by eapply get_rep|by eapply begin_rep|by eapply seek_rep| |].
  - unfold isFull. by rewrite (rep_max _ _ _ H), (rep_bytes _ _ _ H).
  - apply (rep_count _ _ _ H).
Qed.
(** ** Witnesses *)

Definition sample_rng : Rng := fun i => Z.of_nat i * 3.

Lemma put_del_rep_witness :
  exists rng' m', put (bs "k") (bs "value") sample_rng (create 100) = Some (rng', m') /\
    rep m' 100 [(bs "k", Some (bs "value"))].
Proof. exact (proj1 (put_del_rep (create 100) 100 [] (bs "k") sample_rng (create_rep 100)) (bs "value")). Defined.

Lemma reads_rep_witness :
  get (bs "k") (create 100) = Some None /\ begin (create 100) = Some [] /\
  seek (bs "k") (create 100) = Some [] /\ isFull (create 100) = false /\ size (create 100) = 0.
Proof. exact (reads_rep (create 100) 100 [] (bs "k") (create_rep 100)). Defined.

(** Overwriting keeps one entry; deleting keeps the node. *)
Example overwrite_and_delete :
  (e1 ← put (bs "b") (bs "1") sample_rng (create 100);
   e2 ← put (bs "a") (bs "22") e1.1 e1.2;
   e3 ← put (bs "b") (bs "333") e2.1 e2.2;
   e4 ← del (bs "a") e3.1 e3.2;
   l ← begin e4.2;
   Some (l, byteSize e4.2, size e4.2))
  = Some ([(bs "a", None); (bs "b", Some (bs "333"))], 21, 2).
Proof. vm_compute. reflexivity. Qed.

End Memtable.

(** ** The implementation of the interface *)

#[export] Instance memtable_ops : MemtableOps Memtable.t := {|
  mt_create := Memtable.create;
  mt_put := Memtable.put;
  mt_del := Memtable.del;
  mt_get := Memtable.get;
  mt_isFull := Memtable.isFull;
  mt_size := Memtable.size;
  mt_entries := Memtable.begin;
  mt_seek := Memtable.seek
|}.

#[export] Program Instance memtable_spec : MemtableSpec Memtable.t := {| mt_rep := Memtable.rep |}.
Next Obligation. intros m max l [_ _ _ [chain Hwf]]. apply (SkipList.wf_sorted _ _ _ Hwf). Qed.
Next Obligation. apply Memtable.create_rep. Qed.
Next Obligation. intros. by apply Memtable.put_rep. Qed.
Next Obligation. intros. by apply Memtable.del_rep. Qed.
Next Obligation. intros m max l k. apply Memtable.get_rep. Qed.
Next Obligation. intros m max l H. simpl. unfold Memtable.isFull.
  by rewrite (Memtable.rep_max _ _ _ H), (Memtable.rep_bytes _ _ _ H). Qed.
Next Obligation. intros m max l H. apply (Memtable.rep_count _ _ _ H). Qed.
Next Obligation. intros m max l. apply Memtable.begin_rep. Qed.
Next Obligation. intros m max l k. apply Memtable.seek_rep. Qed.
