(* ===== verification/MemtableSteps.v ===== *)
(** * The memtable under concurrent calls

    Models [src/memtable/skip_list.h] as its atomics are meant to be used: any
    number of calls of [put], [del] and [get] run at once on one skip list.  A
    step of a call is one access to memory that another call may touch: a load or
    a compare-and-swap of a link, a load or store of a value pointer, an addition
    to a counter.  What a call does to a node it has not linked yet is one step
    with the allocation.  Accesses are sequentially consistent.

    [SkipList.insert] and [Memtable] are the same code run by one caller. *)

From S2P Require Import Prelude SkipList Memtable.
Open Scope Z_scope.

Module MemtableSteps.
Import SkipList.

(** ** Calls *)

Inductive op :=
  | Put (k v : str)
  | Del (k : str)
  | Get (k : str).

Definition op_key (o : op) : str := match o with Put k _ | Del k | Get k => k end.

(** What [insert] is called with. *)
Definition op_value (o : op) : option (option str) :=
  match o with Put _ v => Some (Some v) | Del _ => Some None | Get _ => None end.

(** The result of [get]; [put] and [del] return nothing. *)
Definition answer : Type := option (option (option str)).

(** Why [find] runs: first, or again while node [n] of height [h] is to be linked
    at level [i]. *)
Inductive resume := Begin | Relink (n h i : nat).

(** Where a call is: what it does next, and its local variables. *)
Inductive code :=
  | Walking (r : resume) (i x : nat) (ps : list nat) (ss : list (option nat))  (* load x->next[i] *)
  | Reading (y : nat)                                             (* get: load the value *)
  | LoadOld (y : nat)                                             (* insert: load the old value *)
  | Publish (y : nat) (replaced : Z)                              (* store the new cell *)
  | Alloc (ps : list nat) (ss : list (option nat))                (* randomHeight, Node::create *)
  | Swap0 (n h : nat) (ps : list nat) (ss : list (option nat))    (* link at level 0 *)
  | SetLink (n h i : nat) (ps : list nat) (ss : list (option nat))
  | SwapUp (n h i : nat) (ps : list nat) (ss : list (option nat)) (* link at level i *)
  | Account (r : InsertResult)                                    (* current_bytes_ *)
  | CountUp                                                       (* count_ *)
  | Stop (a : answer).

Record shared := mkShared { mem : state; bytes : Z; count : Z }.
Definition set_mem (st : state) (s : shared) : shared := mkShared st (bytes s) (count s).

(** [find] starts at the top of the head. *)
Definition search (r : resume) (st : state) : code := Walking r (MAX_HEIGHT - 1) (head st) [] [].

(** ** Steps of a call *)

Definition hits (k : str) (st : state) (s : option nat) : option bool :=
  match s with None => Some false | Some y => ky ← node_key st y; Some (ky =?s k) end.

(** [find] has filled both arrays. *)
Definition found (o : op) (r : resume) (ps : list nat) (ss : list (option nat)) (st : state) : option code :=
  s0 ← ss !! 0%nat;
  hit ← hits (op_key o) st s0;
  match r with
  | Relink n h i => Some (SetLink n h i ps ss)
  | Begin =>
      if (hit : bool) then
        y ← s0; Some (match op_value o with None => Reading y | Some _ => LoadOld y end)
      else Some (match op_value o with None => Stop (Some None) | Some _ => Alloc ps ss end)
  end.

(** Down one level, from [x] with successor [nx]. *)
Definition descend (o : op) (r : resume) (i x : nat) (nx : option nat) (ps : list nat) (ss : list (option nat)) (st : state)
  : option code :=
  match i with
  | O => found o r (x :: ps) (nx :: ss) st
  | S i => Some (Walking r i x (x :: ps) (nx :: ss))
  end.

Definition walk_step (o : op) (r : resume) (i x : nat) (ps : list nat) (ss : list (option nat)) (st : state) : option code :=
  nx ← load_next st x i;
  match nx with
  | None => descend o r i x nx ps ss st
  | Some y =>
      ky ← node_key st y;
      if ky <?s op_key o then Some (Walking r i y ps ss) else descend o r i x nx ps ss st
  end.

(** The next level to link, or the end of [insert]. *)
Definition next_level (n h i : nat) (ps : list nat) (ss : list (option nat)) : code :=
  if (i <? h)%nat then SetLink n h i ps ss else Account (mkInsertResult true 0).

(** What [put] and [del] add to [current_bytes_]. *)
Definition bytes_due (o : op) (r : InsertResult) : Z :=
  let new := match op_value o with Some (Some v) => zlen v | _ => 0 end in
  if inserted r then zlen (op_key o) + new + 8 else new - replacedValueBytes r.

(** One step; [h] is the height [randomHeight] draws. *)
Definition tstep (h : nat) (o : op) (c : code) (s : shared) : option (code * shared) :=
  let st := mem s in
  match c with
  | Walking r i x ps ss => c ← walk_step o r i x ps ss st; Some (c, s)
  | Reading y => n ← nodes st !! y; v ← slots st !! value n; Some (Stop (Some (Some v)), s)
  | LoadOld y =>
      n ← nodes st !! y;
      previous ← slots st !! value n;
      Some (Publish y (match previous with Some v => zlen v | None => 0 end), s)
  | Publish y replaced =>
      n ← nodes st !! y;
      v ← op_value o;
      let '(cell, st) := makeSlot v st in
      Some (Account (mkInsertResult false replaced), set_mem (set_node st y (mkNode (key n) cell (height n) (next n))) s)
  | Alloc ps ss =>
      v ← op_value o;
      let '(n, st) := create (op_key o) v h st in
      st ← init_links h ss n st;
      Some (Swap0 n h ps ss, set_mem st s)
  | Swap0 n h ps ss =>
      p0 ← ps !! 0%nat;
      s0 ← ss !! 0%nat;
      '(ok, st) ← cas st p0 0 s0 (Some n);
      Some (if (ok : bool) then next_level n h 1 ps ss else search Begin st, set_mem st s)
  | SetLink n h i ps ss =>
      succ ← ss !! i;
      st ← store_next st n i succ;
      Some (SwapUp n h i ps ss, set_mem st s)
  | SwapUp n h i ps ss =>
      pred ← ps !! i;
      succ ← ss !! i;
      '(ok, st) ← cas st pred i succ (Some n);
      Some (if (ok : bool) then next_level n h (S i) ps ss else search (Relink n h i) st, set_mem st s)
  | Account r =>
      Some (if inserted r then CountUp else Stop None, mkShared st (u64 (bytes s + bytes_due o r)) (count s))
  | CountUp => Some (Stop None, mkShared st (bytes s) (u64 (count s + 1)))
  | Stop _ => None
  end.

(** ** The memtable as a transition system *)

Record conf := mkConf { sh : shared; calls : gmap nat (op * code) }.

Inductive event :=
  | Call (id : nat) (o : op)
  | Return (id : nat) (a : answer).

Inductive step : conf -> option event -> conf -> Prop :=
  | step_call id o s l :
      l !! id = None ->
      step (mkConf s l) (Some (Call id o)) (mkConf s (<[id := (o, search Begin (mem s))]> l))
  | step_run id o c h c' s s' l :
      l !! id = Some (o, c) -> (1 <= h <= MAX_HEIGHT)%nat -> tstep h o c s = Some (c', s') ->
      step (mkConf s l) None (mkConf s' (<[id := (o, c')]> l))
  | step_return id o a s l :
      l !! id = Some (o, Stop a) ->
      step (mkConf s l) (Some (Return id a)) (mkConf s (delete id l)).

Definition initial : conf := mkConf (mkShared empty 0 0) ∅.

(** Runs with what a caller sees of them. *)
Inductive run {S} (R : S -> option event -> S -> Prop) : S -> list event -> S -> Prop :=
  | run_nil x : run R x [] x
  | run_snoc x y z tr e : run R x tr y -> R y e z -> run R x (tr ++ option_list e) z.

Definition reachable (x : conf) : Prop := exists tr, run step initial tr x.

(** ** The specification: a map with atomic operations *)

Definition apply (o : op) (l : list (str * option str)) : list (str * option str) * answer :=
  match op_value o with
  | Some v => (ainsert (op_key o) v l, None)
  | None => (l, Some (alookup (op_key o) l))
  end.

(** A call that is pending has taken effect with an answer, or not. *)
Record spec := mkSpec { contents : list (str * option str); pending : gmap nat (op * option answer) }.

Inductive spec_step : spec -> option event -> spec -> Prop :=
  | spec_call id o l m :
      m !! id = None -> spec_step (mkSpec l m) (Some (Call id o)) (mkSpec l (<[id := (o, None)]> m))
  | spec_effect id o l m :
      m !! id = Some (o, None) ->
      spec_step (mkSpec l m) None (mkSpec (apply o l).1 (<[id := (o, Some (apply o l).2)]> m))
  | spec_stutter x : spec_step x None x
  | spec_return id o a l m :
      m !! id = Some (o, Some a) -> spec_step (mkSpec l m) (Some (Return id a)) (mkSpec l (delete id m)).

Definition spec_initial : spec := mkSpec [] ∅.

End MemtableSteps.
