(* ===== verification/MemtableShape.v ===== *)
(** * The skip list while calls run

    The invariant of [MemtableSteps]: what holds of the nodes between two accesses
    of any calls, when some nodes are linked at part of their levels only, and
    what each running call knows.  [step_spec] says that every access is defined,
    keeps the invariant, disturbs no other call, and acts on the sorted run at one
    moment of each call. *)

From S2P Require Import Prelude SkipList Memtable MemtableSteps.
Open Scope Z_scope.

Module MemtableShape.
Import SkipList MemtableSteps.

(** ** The nodes *)

(** The nodes of a chain that are linked at level [i]; [lvl y] levels of [y] are. *)
Definition lev (lvl : nat -> nat) (i : nat) (l : list nat) : list nat :=
  filter (fun y => (i < lvl y)%nat) l.

(** As [SkipList.wf], with nodes linked up to [lvl] only. *)
Record shape (st : state) (chain : list nat) (l : list (str * option str)) (lvl : nat -> nat) : Prop := {
  sh_head : head_ok st;
  sh_nodup : NoDup (head st :: chain);
  sh_entries : Forall2 (stores st) chain l;
  sh_sorted : keys_sorted l;
  sh_links : forall i, (i < MAX_HEIGHT)%nat -> links st i (head st) (lev lvl i chain);
  sh_chain : forall y, y ∈ chain <-> (0 < lvl y)%nat;
  sh_height : forall y, (lvl y <= height_of st y)%nat;
  sh_brk : forall a, (brk st <= a)%nat -> nodes st !! a = None /\ slots st !! a = None
}.

Lemma filter_agree {A} (P Q : A -> Prop) `{!forall x, Decision (P x)} `{!forall x, Decision (Q x)} (l : list A) :
  (forall x, x ∈ l -> P x <-> Q x) -> filter P l = filter Q l.
Proof.
  induction l as [|x l IH]; intros Hl; [done|]. rewrite !filter_cons, IH by set_solver.
  pose proof (Hl x (list_elem_of_here _ _)). repeat case_decide; (done || tauto).
Qed.

(** When every node is linked at all its levels the list is well formed. *)
Lemma shape_wf st chain l lvl :
  shape st chain l lvl -> (forall y, y ∈ chain -> lvl y = height_of st y) -> wf st chain l.
Proof.
  intros [Hh Hnd He Hs Hl Hc Hle Hb] Hfull. split; try done.
  intros i Hi. assert (level st i chain = lev lvl i chain) as ->; [|auto].
  unfold level, lev. apply filter_agree. intros y Hy. by rewrite Hfull.
Qed.

Lemma lev_app lvl i l1 l2 : lev lvl i (l1 ++ l2) = lev lvl i l1 ++ lev lvl i l2.
Proof. apply filter_app. Qed.

Lemma elem_of_lev lvl i y l : y ∈ lev lvl i l <-> (i < lvl y)%nat /\ y ∈ l.
Proof. unfold lev. by rewrite list_elem_of_filter. Qed.

(** From a node on level [i] the link leads to a node of that level. *)
Lemma links_next st i x y l :
  links st i x l -> y ∈ x :: l ->
  exists s, load_next st y i = Some s /\ (forall z, s = Some z -> z ∈ l).
Proof.
  revert x. induction l as [|z l IH]; intros x Hl Hy; simpl in Hl.
  - exists None. split; [|done]. by apply list_elem_of_singleton in Hy as ->.
  - destruct Hl as [Hx Hl]. apply elem_of_cons in Hy as [->|Hy].
    + exists (Some z). split; [done|]. intros ? [= <-]. set_solver.
    + destruct (IH z Hl Hy) as (s & Hs & Hin). exists s. split; [done|]. set_solver.
Qed.

(** The one node of the first part whose link leaves it is its last. *)
Lemma links_border st i x l1 l2 y s :
  links st i x (l1 ++ l2) -> y ∈ x :: l1 -> load_next st y i = Some s ->
  (forall z, s = Some z -> z ∉ l1) -> y = default x (last l1) /\ s = List.hd_error l2.
Proof.
  revert x. induction l1 as [|z l1 IH]; intros x Hl Hy Hs Hout.
  - apply list_elem_of_singleton in Hy as ->. split; [done|].
    apply (links_load st i x []) in Hl. simpl in Hl. congruence.
  - destruct Hl as [Hx Hl]. apply elem_of_cons in Hy as [->|Hy].
    + exfalso. rewrite Hx in Hs. injection Hs as <-. apply (Hout z); set_solver.
    + destruct (IH z Hl Hy Hs) as [-> ->]; [set_solver|]. rewrite last_cons. by destruct (last l1).
Qed.

(** ** Before and behind a key *)

Definition below (st : state) (k : str) (y : nat) : Prop :=
  exists ky, node_key st y = Some ky /\ ky <s k.
Definition behind (st : state) (k : str) (y : nat) : Prop :=
  exists ky, node_key st y = Some ky /\ ~ ky <s k.

(** The chain, cut at a key. *)
Record cut (st : state) (k : str) (A B : list nat) (la lb : list (str * option str)) : Prop := {
  cut_A : Forall2 (stores st) A la;
  cut_B : Forall2 (stores st) B lb;
  cut_lt : forall k', k' ∈ la.*1 -> k' <s k;
  cut_ge : forall k', k' ∈ lb.*1 -> ~ k' <s k
}.

Lemma shape_cut st chain l lvl k :
  shape st chain l lvl -> exists A B la lb, chain = A ++ B /\ l = la ++ lb /\ cut st k A B la lb.
Proof.
  intros H. destruct (split_at_key k l (sh_sorted _ _ _ _ H)) as (la & lb & -> & Hlt & Hge).
  pose proof (sh_entries _ _ _ _ H) as He. apply Forall2_app_inv_r in He as (A & B & HA & HB & ->).
  exists A, B, la, lb. by split_and!.
Qed.

Lemma cut_below st k A B la lb y : cut st k A B la lb -> y ∈ A ++ B -> below st k y -> y ∈ A.
Proof.
  intros [_ HB _ Hge] [Hy|Hy]%elem_of_app (ky & Hk & Hlt); [done|].
  destruct (stores_all_ge st k B lb HB Hge y Hy) as (ky' & Hk' & Hn). congruence.
Qed.

Lemma cut_behind st k A B la lb y : cut st k A B la lb -> behind st k y -> y ∉ A.
Proof.
  intros [HA _ Hlt _] (ky & Hk & Hge) Hy.
  destruct (stores_all_lt st k A la HA Hlt y Hy) as (ky' & Hk' & Hn). congruence.
Qed.

(** The node that carries the key, if any, is the first behind the cut. *)
Lemma cut_hit st k A B la lb y :
  cut st k A B la lb -> keys_sorted (la ++ lb) -> y ∈ A ++ B -> node_key st y = Some k ->
  exists w B' lb', B = y :: B' /\ lb = (k, w) :: lb' /\ stores st y (k, w).
Proof.
  intros Hcut Hs Hy Hk. pose proof Hcut as [HA HB Hlt Hge].
  assert (y ∉ A) as HyA.
  { apply (cut_behind _ _ _ _ _ _ _ Hcut). exists k. auto using str_lt_irrefl. }
  assert (y ∈ B) as HyB by set_solver. apply keys_sorted_app in Hs as (_ & _ & Hs).
  destruct HB as [|z e B lb Hz HB]; [set_solver|]. destruct e as [k0 w].
  apply elem_of_cons in HyB as [->|HyB].
  - apply stores_key in Hz as Hk'. simpl in Hk'. replace k0 with k in * by congruence.
    by exists w, B, lb.
  - exfalso. apply keys_sorted_cons in Hs as [Hs _]. apply (Hge k0); [set_solver|].
    apply Hs. apply list_elem_of_lookup in HyB as [i Hi].
    destruct (Forall2_lookup_l _ _ _ _ _ HB Hi) as (e & He & Hst). apply stores_key in Hst.
    replace k with e.1 by congruence. apply list_elem_of_fmap_2. by eapply list_elem_of_lookup_2.
Qed.

(** Without such a node the key is absent. *)
Lemma cut_miss st k A B la lb :
  cut st k A B la lb -> keys_sorted (la ++ lb) ->
  (forall y, List.hd_error B = Some y -> node_key st y <> Some k) ->
  alookup k (la ++ lb) = None /\ forall k', k' ∈ lb.*1 -> k <s k'.
Proof.
  intros [HA HB Hlt Hge] Hs Hmiss. apply keys_sorted_app in Hs as (_ & _ & Hs).
  assert (forall k', k' ∈ lb.*1 -> k <s k') as Hgt.
  { destruct HB as [|y [k0 w] B lb Hy HB]; [set_solver|].
    assert (k <s k0) as H0.
    { apply stores_key in Hy. simpl in Hy.
      destruct (str_lt_trichotomy k k0) as [|[->|Hc]]; [done|by destruct (Hmiss y)|].
      exfalso. apply (Hge k0); [set_solver|done]. }
    apply keys_sorted_cons in Hs as [Hs _]. simpl.
    intros k' [->|Hk'%Hs]%elem_of_cons; eauto using str_lt_trans. }
  split; [|done]. apply alookup_None. rewrite fmap_app.
  intros [H%Hlt|H%Hgt]%elem_of_app; by apply str_lt_irrefl in H.
Qed.

(** ** What a call knows *)

Definition is_write (o : op) : Prop := is_Some (op_value o).

(** A node or the head, on level [i], with a smaller key. *)
Definition at_pred (st : state) (lvl : nat -> nat) (k : str) (x i : nat) : Prop :=
  x = head st \/ ((i < lvl x)%nat /\ below st k x).
Definition at_succ (st : state) (lvl : nat -> nat) (k : str) (s : option nat) (i : nat) : Prop :=
  forall y, s = Some y -> (i < lvl y)%nat /\ behind st k y.

(** [preds] and [succs], filled from level [j] on. *)
Record recorded (st : state) (lvl : nat -> nat) (k : str) (j : nat) (ps : list nat) (ss : list (option nat))
    : Prop := {
  rec_preds : length ps = (MAX_HEIGHT - j)%nat;
  rec_succs : length ss = (MAX_HEIGHT - j)%nat;
  rec_pred : forall m p, ps !! m = Some p -> at_pred st lvl k p (j + m);
  rec_succ : forall m s, ss !! m = Some s -> at_succ st lvl k s (j + m)
}.

(** The call's own node, linked below level [i] only. *)
Record upto (st : state) (lvl : nat -> nat) (k : str) (n h i : nat) : Prop := {
  up_level : lvl n = i;
  up_pos : (0 < i)%nat;
  up_bound : (i < h <= MAX_HEIGHT)%nat;
  up_height : height_of st n = h;
  up_key : node_key st n = Some k;
  up_head : n <> head st
}.

(** The call's own node, not linked. *)
Record private (st : state) (lvl : nat -> nat) (k : str) (v : option str) (n h : nat) : Prop := {
  pv_level : lvl n = 0%nat;
  pv_bound : (1 <= h <= MAX_HEIGHT)%nat;
  pv_height : height_of st n = h;
  pv_stores : stores st n (k, v);
  pv_head : n <> head st
}.

Definition missing (st : state) (k : str) (ss : list (option nat)) : Prop :=
  forall y, ss !! 0%nat = Some (Some y) -> node_key st y <> Some k.

Definition carries (st : state) (lvl : nat -> nat) (k : str) (y : nat) : Prop :=
  (0 < lvl y)%nat /\ node_key st y = Some k.

Definition ok (st : state) (lvl : nat -> nat) (o : op) (c : code) : Prop :=
  let k := op_key o in
  match c with
  | Walking r i x ps ss =>
      (i < MAX_HEIGHT)%nat /\ at_pred st lvl k x i /\ recorded st lvl k (S i) ps ss /\
      match r with Begin => True | Relink n h j => is_write o /\ upto st lvl k n h j end
  | Reading y => op_value o = None /\ carries st lvl k y
  | LoadOld y | Publish y _ => is_write o /\ carries st lvl k y
  | Alloc ps ss => is_write o /\ recorded st lvl k 0 ps ss /\ missing st k ss
  | Swap0 n h ps ss =>
      exists v, op_value o = Some v /\ recorded st lvl k 0 ps ss /\ missing st k ss /\
        private st lvl k v n h /\ (forall i, (i < h)%nat -> load_next st n i = ss !! i)
  | SetLink n h i ps ss => is_write o /\ recorded st lvl k 0 ps ss /\ upto st lvl k n h i
  | SwapUp n h i ps ss =>
      is_write o /\ recorded st lvl k 0 ps ss /\ upto st lvl k n h i /\ load_next st n i = ss !! i
  | Account _ | CountUp => is_write o
  | Stop _ => True
  end.

(** The node a call is about to link, or is linking. *)
Definition owned (c : code) : option nat :=
  match c with
  | Walking (Relink n _ _) _ _ _ _ | Swap0 n _ _ _ | SetLink n _ _ _ _ | SwapUp n _ _ _ _ => Some n
  | _ => None
  end.

(** ** What other calls leave alone *)

(** A step of a call that owns [own]. *)
Record ext (own : option nat) (st : state) (lvl : nat -> nat) (st' : state) (lvl' : nat -> nat) : Prop := {
  ext_head : head st' = head st;
  ext_key : forall y ky, node_key st y = Some ky ->
              node_key st' y = Some ky /\ height_of st' y = height_of st y;
  ext_lvl : forall y, (lvl y <= lvl' y)%nat;
  ext_same : forall y, own <> Some y -> lvl' y = lvl y;
  ext_links : forall y ky, own <> Some y -> y <> head st -> node_key st y = Some ky ->
              lvl' y = lvl y /\ forall j, (lvl y <= j)%nat -> load_next st' y j = load_next st y j;
  ext_stores : forall y e, own <> Some y -> y <> head st -> lvl y = 0%nat -> stores st y e -> stores st' y e
}.

Section stability.
Context {own : option nat} {st st' : state} {lvl lvl' : nat -> nat}.
Hypothesis Hext : ext own st lvl st' lvl'.

Lemma below_ext k y : below st k y -> below st' k y.
Proof. intros (ky & Hk & ?). exists ky. split; [by apply (ext_key _ _ _ _ _ Hext)|done]. Qed.

Lemma behind_ext k y : behind st k y -> behind st' k y.
Proof. intros (ky & Hk & ?). exists ky. split; [by apply (ext_key _ _ _ _ _ Hext)|done]. Qed.

Lemma at_pred_ext k x i : at_pred st lvl k x i -> at_pred st' lvl' k x i.
Proof.
  intros [->|[Hi Hb]]; [left; symmetry; apply (ext_head _ _ _ _ _ Hext)|right].
  split; [|by apply below_ext]. pose proof (ext_lvl _ _ _ _ _ Hext x). lia.
Qed.

Lemma at_succ_ext k s i : at_succ st lvl k s i -> at_succ st' lvl' k s i.
Proof.
  intros H y Hy. destruct (H y Hy) as [Hi Hb]. split; [|by apply behind_ext].
  pose proof (ext_lvl _ _ _ _ _ Hext y). lia.
Qed.

Lemma recorded_ext k j ps ss : recorded st lvl k j ps ss -> recorded st' lvl' k j ps ss.
Proof. intros []. split; eauto using at_pred_ext, at_succ_ext. Qed.

Lemma carries_ext k y : carries st lvl k y -> carries st' lvl' k y.
Proof.
  intros [Hl Hk]. split; [|by apply (ext_key _ _ _ _ _ Hext)].
  pose proof (ext_lvl _ _ _ _ _ Hext y). lia.
Qed.

Lemma missing_ext k ps ss : recorded st lvl k 0 ps ss -> missing st k ss -> missing st' k ss.
Proof.
  intros Hr Hm y Hy. destruct (rec_succ _ _ _ _ _ _ Hr _ _ Hy y eq_refl) as [_ (ky & Hk & _)].
  rewrite (proj1 (ext_key _ _ _ _ _ Hext y ky Hk)), <- Hk. by apply Hm.
Qed.

Lemma upto_ext k n h i : upto st lvl k n h i -> own <> Some n -> upto st' lvl' k n h i.
Proof.
  intros [Hl Hp Hb Hh Hk Hhd] Hown. destruct (ext_key _ _ _ _ _ Hext n k Hk) as [Hk' Hh'].
  split; try done; [|congruence|by rewrite (ext_head _ _ _ _ _ Hext)].
  rewrite (proj1 (ext_links _ _ _ _ _ Hext n k Hown Hhd Hk)). done.
Qed.

Lemma private_ext k v n h : private st lvl k v n h -> own <> Some n -> private st' lvl' k v n h.
Proof.
  intros [Hl Hb Hh Hs Hhd] Hown. apply stores_key in Hs as Hk. simpl in Hk.
  split; try done.
  - rewrite (proj1 (ext_links _ _ _ _ _ Hext n k Hown Hhd Hk)). done.
  - rewrite (proj2 (ext_key _ _ _ _ _ Hext n k Hk)). done.
  - by apply (ext_stores _ _ _ _ _ Hext).
  - by rewrite (ext_head _ _ _ _ _ Hext).
Qed.

(** What a call knows stays true while others run. *)
Lemma ok_ext o c : ok st lvl o c -> (forall n, owned c = Some n -> own <> Some n) -> ok st' lvl' o c.
Proof.
  intros Hok Hown. destruct c as [r i x ps ss|y|y|y z|ps ss|n h ps ss|n h i ps ss|n h i ps ss|r| |a];
    simpl in *; try done.
  - destruct Hok as (Hi & Hx & Hr & Hlk). split_and!; [done|by apply at_pred_ext|by apply recorded_ext|].
    destruct r; [done|]. destruct Hlk. split; [done|]. apply upto_ext; auto.
  - destruct Hok. split; [done|by apply carries_ext].
  - destruct Hok. split; [done|by apply carries_ext].
  - destruct Hok. split; [done|by apply carries_ext].
  - destruct Hok as (Hw & Hr & Hm). split_and!; [done|by apply recorded_ext|by eapply missing_ext].
  - destruct Hok as (v & Hv & Hr & Hm & Hp & Hn). exists v.
    split_and!; [done|by apply recorded_ext|by eapply missing_ext|apply private_ext; auto|].
    intros i Hi. pose proof (stores_key _ _ _ (pv_stores _ _ _ _ _ _ Hp)) as Hk.
    rewrite (proj2 (ext_links _ _ _ _ _ Hext n _ (Hown n eq_refl) (pv_head _ _ _ _ _ _ Hp) Hk)); [auto|].
    rewrite (pv_level _ _ _ _ _ _ Hp). lia.
  - destruct Hok as (Hw & Hr & Hu). split_and!; [done|by apply recorded_ext|apply upto_ext; auto].
  - destruct Hok as (Hw & Hr & Hu & Hn).
    split_and!; [done|by apply recorded_ext|apply upto_ext; auto|].
    rewrite (proj2 (ext_links _ _ _ _ _ Hext n _ (Hown n eq_refl) (up_head _ _ _ _ _ _ Hu) (up_key _ _ _ _ _ _ Hu)));
      [done|]. rewrite (up_level _ _ _ _ _ _ Hu). lia.
Qed.

End stability.

Lemma ext_refl own st lvl : ext own st lvl st lvl.
Proof. by split. Qed.

End MemtableShape.
