(* ===== verification/MemtableMoves.v ===== *)
(** * One access of one call

    What a step of [MemtableSteps] does to the invariant of [MemtableShape]: the
    search, allocation, linking and value updates, each as a lemma.  [tstep_spec]
    puts them together: every access of a running call is defined, keeps the
    invariant and what other calls know, has the effect of the operation on
    the sorted run at exactly one point, and brings the call closer to its end
    unless a link was made. *)

From stdpp Require Import functions.
From S2P Require Import Prelude SkipList Memtable MemtableSteps MemtableShape.
Open Scope Z_scope.

Module MemtableMoves.
Import SkipList MemtableSteps MemtableShape.

(** ** Effect *)

(** What a call will return, from the moment it has taken effect. *)
Definition outcome (c : code) : option answer :=
  match c with
  | Walking (Relink _ _ _) _ _ _ _ | SetLink _ _ _ _ _ | SwapUp _ _ _ _ _ | Account _ | CountUp => Some None
  | Stop a => Some a
  | _ => None
  end.

(** The call linked a new key and has not added its bytes yet. *)
Definition charging (c : code) : bool :=
  match c with
  | Walking (Relink _ _ _) _ _ _ _ | SetLink _ _ _ _ _ | SwapUp _ _ _ _ _ => true
  | Account r => inserted r
  | _ => false
  end.

Definition value_bytes (w : option str) : Z := match w with Some v => zlen v | None => 0 end.

Definition same_counters (s s' : shared) : Prop := bytes s' = bytes s /\ count s' = count s.

(** How a step acts on the sorted run and the counters. *)
Inductive effect (o : op) : code -> shared -> list (str * option str) ->
                            code -> shared -> list (str * option str) -> Prop :=
  | eff_silent c s l c' s' :
      outcome c' = outcome c -> charging c' = charging c -> (forall r, c <> Account r) -> c <> CountUp ->
      c' <> CountUp -> (forall r, c' = Account r -> inserted r = true) -> (forall y r, c' <> Publish y r) ->
      same_counters s s' -> effect o c s l c' s' l
  | eff_load_old y w s l :
      alookup (op_key o) l = Some w -> effect o (LoadOld y) s l (Publish y (value_bytes w)) s l
  | eff_read c s l s' :
      op_value o = None -> outcome c = None -> charging c = false -> same_counters s s' ->
      effect o c s l (Stop (Some (alookup (op_key o) l))) s' l
  | eff_link c s l v c' s' :
      op_value o = Some v -> outcome c = None -> charging c = false -> outcome c' = Some None ->
      charging c' = true -> alookup (op_key o) l = None -> same_counters s s' ->
      effect o c s l c' s' (ainsert (op_key o) v l)
  | eff_replace y r v w s l s' :
      op_value o = Some v -> alookup (op_key o) l = Some w -> same_counters s s' ->
      effect o (Publish y r) s l (Account (mkInsertResult false r)) s' (ainsert (op_key o) v l)
  | eff_account r s l :
      is_write o ->
      effect o (Account r) s l (if inserted r then CountUp else Stop None)
        (mkShared (mem s) (u64 (bytes s + bytes_due o r)) (count s)) l
  | eff_count s l :
      effect o CountUp s l (Stop None) (mkShared (mem s) (bytes s) (u64 (count s + 1))) l.

(** ** Distance to the end of a call *)

(** Links that the call may still make. *)
Definition links_due (c : code) : nat :=
  match c with
  | Walking Begin _ _ _ _ | LoadOld _ | Publish _ _ | Alloc _ _ | Swap0 _ _ _ _ => MAX_HEIGHT
  | Walking (Relink _ h i) _ _ _ _ | SetLink _ h i _ _ | SwapUp _ h i _ _ => h - i
  | _ => 0
  end.

(** Nodes of the chain behind [x], from [h] on. *)
Fixpoint after (x : nat) (chain : list nat) : nat :=
  match chain with
  | [] => 0
  | y :: chain => if decide (x = y) then length chain else after x chain
  end.
Definition rest (h : nat) (chain : list nat) (x : nat) : nat :=
  if decide (x = h) then length chain else after x chain.

(** The [m]-th of the recorded pairs no longer is a pair of neighbours on level [i]. *)
Definition stale (st : state) (ps : list nat) (ss : list (option nat)) (m i : nat) : nat :=
  match ps !! m, ss !! m with
  | Some p, Some s => if decide (load_next st p i = Some s) then 0 else 1
  | _, _ => 0
  end.

(** Steps left while nobody links. *)
Definition work (st : state) (chain : list nat) (c : code) : nat :=
  let again := (length chain + 20)%nat in
  match c with
  | Walking r i x ps ss =>
      i + rest (head st) chain x + 6 +
      match r with
      | Begin => 0
      | Relink n h j => if (i <? j)%nat then stale st ps ss (j - S i) j * again else 0
      end
  | Alloc ps ss => 5 + stale st ps ss 0 0 * again
  | Swap0 n h ps ss => 4 + stale st ps ss 0 0 * again
  | SetLink n h i ps ss => 5 + stale st ps ss i i * again
  | SwapUp n h i ps ss => 4 + stale st ps ss i i * again
  | LoadOld _ => 4
  | Publish _ _ => 3
  | Account _ => 2
  | Reading _ | CountUp => 1
  | Stop _ => 0
  end%nat.

(** Nothing that a search reads has changed. *)
Record quiet (st : state) (chain : list nat) (lvl : nat -> nat)
    (st' : state) (chain' : list nat) (lvl' : nat -> nat) : Prop := {
  qt_chain : chain' = chain;
  qt_head : head st' = head st;
  qt_load : forall y i, y = head st \/ (i < lvl y)%nat -> load_next st' y i = load_next st y i
}.

(** Quiet steps leave the distance of other calls as it is. *)
Lemma stale_quiet st chain lvl st' chain' lvl' k j ps ss m i :
  quiet st chain lvl st' chain' lvl' -> recorded st lvl k j ps ss -> (j + m)%nat = i ->
  stale st' ps ss m i = stale st ps ss m i.
Proof.
  intros Hq Hr <-. unfold stale. destruct (ps !! m) as [p|] eqn:Hp; [|done].
  destruct (ss !! m); [|done]. rewrite (qt_load _ _ _ _ _ _ Hq); [done|].
  destruct (rec_pred _ _ _ _ _ _ Hr _ _ Hp) as [?|[? _]]; auto.
Qed.

Lemma work_quiet st chain lvl st' chain' lvl' o c :
  quiet st chain lvl st' chain' lvl' -> ok st lvl o c -> work st' chain' c = work st chain c.
Proof.
  intros Hq Hok. unfold work. rewrite (qt_chain _ _ _ _ _ _ Hq), (qt_head _ _ _ _ _ _ Hq).
  destruct c as [r i x ps ss|y|y|y z|ps ss|n h ps ss|n h i ps ss|n h i ps ss|r| |a]; simpl in *; try done.
  - destruct Hok as (_ & _ & Hr & _). destruct r as [|n h j]; [done|].
    destruct (Nat.ltb_spec i j); [|done]. by erewrite (stale_quiet _ _ _ _ _ _ _ _ _ _ _ _ Hq Hr) by lia.
  - destruct Hok as (_ & Hr & _). by erewrite (stale_quiet _ _ _ _ _ _ _ _ _ _ _ _ Hq Hr) by lia.
  - destruct Hok as (v & _ & Hr & _). by erewrite (stale_quiet _ _ _ _ _ _ _ _ _ _ _ _ Hq Hr) by lia.
  - destruct Hok as (_ & Hr & _). by erewrite (stale_quiet _ _ _ _ _ _ _ _ _ _ _ _ Hq Hr) by lia.
  - destruct Hok as (_ & Hr & _). by erewrite (stale_quiet _ _ _ _ _ _ _ _ _ _ _ _ Hq Hr) by lia.
Qed.

(** ** What a step achieves *)

Record advance (o : op) (c : code) (s : shared) (chain : list nat) (l : list (str * option str)) (lvl : nat -> nat)
    (c' : code) (s' : shared) (chain' : list nat) (l' : list (str * option str)) (lvl' : nat -> nat) : Prop := {
  ad_shape : shape (mem s') chain' l' lvl';
  ad_ok : ok (mem s') lvl' o c';
  ad_ext : ext (owned c) (mem s) lvl (mem s') lvl';
  ad_owned : owned c' = None \/ owned c' = owned c \/ exists n, owned c' = Some n /\ node_key (mem s) n = None;
  ad_full : forall y, owned c = Some y -> (0 < lvl' y)%nat -> owned c' = Some y \/ lvl' y = height_of (mem s') y;
  ad_effect : effect o c s l c' s' l';
  ad_closer : (links_due c' < links_due c)%nat \/
    ((links_due c' <= links_due c)%nat /\ quiet (mem s) chain lvl (mem s') chain' lvl' /\
     (work (mem s') chain' c' < work (mem s) chain c)%nat)
}.

(** ** Searching *)

Lemma after_lt x chain : x ∈ chain -> (after x chain < length chain)%nat.
Proof.
  induction chain as [|y chain IH]; [set_solver|]. simpl. case_decide as Hxy; [lia|].
  intros [?|H%IH]%elem_of_cons; [done|lia].
Qed.

(** A link leads further down the chain. *)
Lemma links_forward st lvl i h chain x z :
  links st i h (lev lvl i chain) -> NoDup (h :: chain) -> x ∈ h :: lev lvl i chain ->
  load_next st x i = Some (Some z) -> (rest h chain z < rest h chain x)%nat.
Proof.
  revert h. induction chain as [|y chain IH]; intros h Hl Hnd Hx Hz.
  { apply list_elem_of_singleton in Hx as ->. simpl in Hl. congruence. }
  apply NoDup_cons in Hnd as [Hh Hnd]. apply not_elem_of_cons in Hh as [Hhy Hh].
  assert (forall w, w <> h -> rest h (y :: chain) w = rest y chain w) as Hrest.
  { intros w Hw. unfold rest. rewrite decide_False by done. simpl. by case_decide. }
  assert (forall w, w <> h -> rest h chain w = after w chain) as Hrest'.
  { intros w Hw. unfold rest. by rewrite decide_False. }
  pose proof (links_next st i h x (lev lvl i (y :: chain)) Hl Hx) as (s & Hs & Hin).
  rewrite Hz in Hs. injection Hs as <-. specialize (Hin z eq_refl).
  assert (z <> h) as Hzh by (apply elem_of_lev in Hin as [_ Hin]; set_solver).
  unfold lev in Hl, Hx, Hin. rewrite filter_cons in Hl, Hx, Hin. case_decide as Hy.
  - rewrite Hrest by done. destruct Hl as [Hly Hl]. apply elem_of_cons in Hx as [->|Hx].
    + rewrite Hly in Hz. injection Hz as <-. unfold rest. rewrite !decide_True by done. simpl. lia.
    + assert (x <> h) as Hxh.
      { apply elem_of_cons in Hx as [?|Hx]; [congruence|]. apply list_elem_of_filter in Hx as [_ Hx]. set_solver. }
      rewrite Hrest by done. by apply IH.
  - apply list_elem_of_filter in Hin as [Hzl Hin].
    assert (z <> y) as Hzy by congruence.
    assert (rest h (y :: chain) z = rest h chain z) as ->.
    { rewrite Hrest, Hrest' by done. unfold rest. by rewrite decide_False. }
    assert (rest h chain z < rest h chain x)%nat by (apply NoDup_cons_1_2 in Hnd; apply IH; [done|by constructor|done..]).
    enough (rest h chain x <= rest h (y :: chain) x)%nat by lia.
    unfold rest. case_decide; simpl; [lia|]. apply elem_of_cons in Hx as [|Hx]; [done|].
    rewrite decide_False; [lia|]. apply list_elem_of_filter in Hx as [? _]. congruence.
Qed.

Lemma shape_key st chain l lvl y : shape st chain l lvl -> y ∈ chain -> exists e, stores st y e.
Proof.
  intros H Hy. apply list_elem_of_lookup in Hy as [i Hi].
  destruct (Forall2_lookup_l _ _ _ _ _ (sh_entries _ _ _ _ H) Hi) as (e & _ & Hs). by exists e.
Qed.

Lemma at_pred_elem st chain l lvl k x i :
  shape st chain l lvl -> at_pred st lvl k x i -> x ∈ head st :: lev lvl i chain.
Proof.
  intros H [->|[Hi _]]; [set_solver|]. apply elem_of_cons. right. apply elem_of_lev. split; [done|].
  apply (sh_chain _ _ _ _ H). lia.
Qed.

(** Loading a link on the way. *)
Lemma load_ok st chain l lvl k x i :
  shape st chain l lvl -> (i < MAX_HEIGHT)%nat -> at_pred st lvl k x i ->
  exists s, load_next st x i = Some s /\
    (forall z, s = Some z -> (i < lvl z)%nat /\ z ∈ chain /\
       exists kz, node_key st z = Some kz /\ (rest (head st) chain z < rest (head st) chain x)%nat).
Proof.
  intros H Hi Hx. pose proof (sh_links _ _ _ _ H i Hi) as Hl.
  pose proof (at_pred_elem _ _ _ _ _ _ _ H Hx) as Hin.
  destruct (links_next _ _ _ _ _ Hl Hin) as (s & Hs & Hz). exists s. split; [done|].
  intros z ->. specialize (Hz z eq_refl). apply elem_of_lev in Hz as [Hzi Hz].
  destruct (shape_key _ _ _ _ _ H Hz) as [e He]. split_and!; [done..|]. exists e.1.
  split; [by apply stores_key|]. eapply links_forward; [done|apply (sh_nodup _ _ _ _ H)|done..].
Qed.

Lemma recorded_nil st lvl k : recorded st lvl k MAX_HEIGHT [] [].
Proof. by split. Qed.

Lemma recorded_cons st lvl k i x nx ps ss :
  (i < MAX_HEIGHT)%nat -> recorded st lvl k (S i) ps ss ->
  at_pred st lvl k x i -> at_succ st lvl k nx i -> recorded st lvl k i (x :: ps) (nx :: ss).
Proof.
  intros Hi [Hp Hs Hpr Hsu] Hx Hnx. split; simpl; [lia..| |].
  - intros [|m] p Hm; simpl in Hm; [injection Hm as <-; by rewrite Nat.add_0_r|].
    rewrite Nat.add_succ_r. by apply Hpr.
  - intros [|m] p Hm; simpl in Hm; [injection Hm as <-; by rewrite Nat.add_0_r|].
    rewrite Nat.add_succ_r. by apply Hsu.
Qed.

(** Steps that leave the shared state as it is. *)
Lemma advance_silent o c s chain l lvl c' :
  shape (mem s) chain l lvl -> ok (mem s) lvl o c' ->
  (owned c' = owned c \/ owned c = None /\ owned c' = None) ->
  effect o c s l c' s l -> (links_due c' <= links_due c)%nat ->
  (work (mem s) chain c' < work (mem s) chain c)%nat -> advance o c s chain l lvl c' s chain l lvl.
Proof.
  intros Hs Hok Hown He Hd Hw. split; try done.
  - destruct Hown as [|[_ ?]]; auto.
  - intros y Hy _. left. destruct Hown as [|[? _]]; congruence.
  - right. by split_and!.
Qed.

(** Where the neighbours on level 0 are, the key is or is missing. *)
Lemma neighbours st chain l lvl k x s i :
  shape st chain l lvl -> (i < MAX_HEIGHT)%nat -> at_pred st lvl k x i -> at_succ st lvl k s i ->
  load_next st x i = Some s ->
  exists A B la lb, chain = A ++ B /\ l = la ++ lb /\ cut st k A B la lb /\
    x = default (head st) (last (lev lvl i A)) /\ s = List.hd_error (lev lvl i B) /\
    (x = head st \/ x ∈ A).
Proof.
  intros H Hi Hx Hsu Hl. destruct (shape_cut _ _ _ _ k H) as (A & B & la & lb & -> & -> & Hcut).
  exists A, B, la, lb. split_and!; [done..| | |].
  1,2: pose proof (sh_links _ _ _ _ H i Hi) as Hlk; rewrite lev_app in Hlk;
    eapply links_border; [exact Hlk| |exact Hl|].
  1,3: destruct Hx as [->|[Hxi Hb]]; [set_solver|]; apply elem_of_cons; right; apply elem_of_lev;
    split; [done|]; eapply cut_below; [exact Hcut| |done]; apply (sh_chain _ _ _ _ H); lia.
  1,2: intros z -> Hz; apply elem_of_lev in Hz as [_ Hz];
    by apply (cut_behind _ _ _ _ _ _ _ Hcut (proj2 (Hsu z eq_refl))).
  destruct Hx as [?|[? ?]]; [by left|right]. eapply cut_below; [done| |done].
  apply (sh_chain _ _ _ _ H). lia.
Qed.

Lemma lev_0 st chain l lvl l' : shape st chain l lvl -> l' ⊆ chain -> lev lvl 0 l' = l'.
Proof. intros H Hl'. apply filter_id. intros y Hy. apply (sh_chain _ _ _ _ H). by apply Hl'. Qed.

Lemma stale_fresh st x nx ps ss i : load_next st x i = Some nx -> stale st (x :: ps) (nx :: ss) 0 i = 0%nat.
Proof. intros H. unfold stale. simpl. by rewrite decide_True. Qed.

(** What a pair just read adds to the distance of the search that reads it. *)
Lemma stale_cons st x nx ps ss i j g :
  load_next st x (S i) = Some nx ->
  ((if (i <? j)%nat then stale st (x :: ps) (nx :: ss) (j - S i) j * g else 0)
   = (if (S i <? j)%nat then stale st ps ss (j - S (S i)) j * g else 0))%nat.
Proof.
  intros H. destruct (Nat.ltb_spec (S i) j); destruct (Nat.ltb_spec i j); try lia.
  - replace (j - S i)%nat with (S (j - S (S i))) by lia. done.
  - replace j with (S i) by lia. by rewrite Nat.sub_diag, stale_fresh.
Qed.

Definition resuming (st : state) (lvl : nat -> nat) (o : op) (r : resume) : Prop :=
  match r with Begin => True | Relink n h j => is_write o /\ upto st lvl (op_key o) n h j end.

Section search_steps.
Context (o : op) (r : resume) (x : nat) (nx : option nat) (ps : list nat) (ss : list (option nat)).
Context (s : shared) (chain : list nat) (l : list (str * option str)) (lvl : nat -> nat).
Hypothesis Hs : shape (mem s) chain l lvl.
Hypothesis Hr : resuming (mem s) lvl o r.

Lemma key_shape y : (0 < lvl y)%nat -> exists ky, node_key (mem s) y = Some ky.
Proof.
  intros Hy. apply (sh_chain _ _ _ _ Hs) in Hy.
  destruct (shape_key _ _ _ _ _ Hs Hy) as [e He]. exists e.1. by apply stores_key.
Qed.

Lemma hits_ok :
  at_succ (mem s) lvl (op_key o) nx 0 ->
  (exists y, nx = Some y /\ hits (op_key o) (mem s) nx = Some true /\ carries (mem s) lvl (op_key o) y) \/
  (hits (op_key o) (mem s) nx = Some false /\ forall y, nx = Some y -> node_key (mem s) y <> Some (op_key o)).
Proof.
  intros Hsu. destruct nx as [y|]; [|by right]. destruct (Hsu y eq_refl) as [Hy _].
  destruct (key_shape y Hy) as [ky Hk]. unfold hits. cbv iota. rewrite Hk. cbn [mbind option_bind].
  destruct (ky =?s op_key o) eqn:E; str_prop.
  - left. exists y. by subst.
  - right. split; [done|]. intros ? [= <-] Hk'. apply not_true_iff_false in E. apply E, str_eqb_eq. congruence.
Qed.

Lemma found_ok :
  recorded (mem s) lvl (op_key o) 1 ps ss -> at_pred (mem s) lvl (op_key o) x 0 ->
  at_succ (mem s) lvl (op_key o) nx 0 -> load_next (mem s) x 0 = Some nx ->
  exists c', found o r (x :: ps) (nx :: ss) (mem s) = Some c' /\
    advance o (Walking r 0 x ps ss) s chain l lvl c' s chain l lvl.
Proof.
  intros Hrec Hx Hnx Hl. assert (0 < MAX_HEIGHT)%nat as H0 by (unfold MAX_HEIGHT; lia).
  pose proof (recorded_cons _ _ _ _ _ _ _ _ H0 Hrec Hx Hnx) as Hrec'.
  pose proof (stale_fresh _ _ _ ps ss _ Hl) as Hfresh.
  assert (exists b, hits (op_key o) (mem s) nx = Some b) as [hit Hhit].
  { destruct (hits_ok Hnx) as [(y & _ & ? & _)|[? _]]; eauto. }
  unfold found. cbn [lookup list_lookup mbind option_bind]. rewrite Hhit. cbn [mbind option_bind].
  destruct r as [|n h j].
  - destruct (hits_ok Hnx) as [(y & Hy & Hh & Hc)|[Hh Hmiss]];
      rewrite Hhit in Hh; injection Hh as ->; rewrite ?Hy; cbn [mbind option_bind]; eexists; (split; [done|]).
    + destruct (op_value o) as [v|] eqn:Hv; apply advance_silent; try done; simpl; try lia; auto.
      all: try (apply eff_silent; done). split; [by exists v|done].
    + destruct (op_value o) as [v|] eqn:Hv; apply advance_silent; try done; simpl; try lia; auto.
      * split_and!; [by exists v|done|]. intros y [= ->]. by apply Hmiss.
      * by apply eff_silent.
      * destruct (neighbours _ _ _ _ _ _ _ _ Hs H0 Hx Hnx Hl) as (A & B & la & lb & -> & -> & Hcut & _ & Hsn & _).
        rewrite (lev_0 _ _ _ _ _ Hs) in Hsn by set_solver.
        rewrite <- (proj1 (cut_miss _ _ _ _ _ _ Hcut (sh_sorted _ _ _ _ Hs) ltac:(subst; auto))).
        by apply eff_read.
  - destruct Hr as [Hw Hu]. eexists. split; [done|]. apply advance_silent; try done; auto; [by apply eff_silent|].
    simpl. pose proof (up_pos _ _ _ _ _ _ Hu). destruct j as [|j]; [lia|]. simpl. rewrite Nat.sub_0_r.
    change (stale (mem s) (x :: ps) (nx :: ss) (S j) (S j)) with (stale (mem s) ps ss j (S j)). lia.
Qed.

Lemma descend_ok i :
  (i < MAX_HEIGHT)%nat -> recorded (mem s) lvl (op_key o) (S i) ps ss ->
  at_pred (mem s) lvl (op_key o) x i -> at_succ (mem s) lvl (op_key o) nx i ->
  load_next (mem s) x i = Some nx ->
  exists c', descend o r i x nx ps ss (mem s) = Some c' /\
    advance o (Walking r i x ps ss) s chain l lvl c' s chain l lvl.
Proof.
  intros Hi Hrec Hx Hnx Hl. destruct i as [|i]; [by apply found_ok|].
  eexists. split; [done|]. apply advance_silent; try done; auto.
  - simpl. split_and!; [lia| |by apply recorded_cons|done].
    destruct Hx as [->|[? ?]]; [by left|right; split; [lia|done]].
  - by apply eff_silent; destruct r.
  - simpl. destruct r as [|n h j]; [lia|]. rewrite (stale_cons _ _ _ ps ss i j _ Hl). lia.
Qed.

End search_steps.

Lemma walk_ok o r i x ps ss s chain l lvl :
  shape (mem s) chain l lvl -> ok (mem s) lvl o (Walking r i x ps ss) ->
  exists c', walk_step o r i x ps ss (mem s) = Some c' /\
    advance o (Walking r i x ps ss) s chain l lvl c' s chain l lvl.
Proof.
  intros Hs (Hi & Hx & Hrec & Hr).
  destruct (load_ok _ _ _ _ _ _ _ Hs Hi Hx) as (nx & Hl & Hnx).
  unfold walk_step. rewrite Hl. cbn [mbind option_bind]. destruct nx as [y|].
  - destruct (Hnx y eq_refl) as (Hy & Hin & ky & Hk & Hlt). rewrite Hk. cbn [mbind option_bind].
    destruct (ky <?s op_key o) eqn:E.
    + apply str_ltb_lt in E. eexists. split; [done|]. apply advance_silent; try done; auto.
      * split_and!; [done| |done..]. right. split; [done|]. by exists ky.
      * by apply eff_silent; destruct r.
      * simpl. lia.
    + apply descend_ok; try done. intros ? [= <-]. split; [done|]. exists ky. split; [done|].
      intros Hc%str_ltb_lt. congruence.
  - by apply descend_ok.
Qed.

(** ** Values *)

(** The chain is cut at a key one of its nodes carries. *)
Lemma carried st chain l lvl k y :
  shape st chain l lvl -> carries st lvl k y ->
  exists A B la w lb, chain = A ++ y :: B /\ l = la ++ (k, w) :: lb /\
    cut st k A (y :: B) la ((k, w) :: lb) /\ stores st y (k, w).
Proof.
  intros H [Hy Hk]. destruct (shape_cut _ _ _ _ k H) as (A & B & la & lb & -> & -> & Hcut).
  apply (sh_chain _ _ _ _ H) in Hy.
  destruct (cut_hit _ _ _ _ _ _ _ Hcut (sh_sorted _ _ _ _ H) Hy Hk) as (w & B' & lb' & -> & -> & Hst).
  by exists A, B', la, w, lb'.
Qed.

Lemma cut_lookup st k A B la (w : option str) lb :
  cut st k A B la ((k, w) :: lb) -> alookup k (la ++ (k, w) :: lb) = Some w.
Proof.
  intros [_ _ Hlt _]. rewrite alookup_app, alookup_cons, decide_True by done.
  assert (alookup k la = None) as ->; [|done].
  apply alookup_None. intros Hin. by apply Hlt, str_lt_irrefl in Hin.
Qed.

(** A new cell in node [y]. *)
Definition publish (st : state) (y : nat) (n : Node) (v : option str) : state :=
  set_node (makeSlot v st).2 y (mkNode (key n) (brk st) (height n) (next n)).

Section publish.
Context (st : state) (y : nat) (n : Node) (v : option str).
Hypothesis Hy : nodes st !! y = Some n.
Hypothesis Hbrk : forall a, (brk st <= a)%nat -> nodes st !! a = None /\ slots st !! a = None.
Let st' : state := publish st y n v.

Lemma publish_nodes z :
  nodes st' !! z = if decide (y = z) then Some (mkNode (key n) (brk st) (height n) (next n)) else nodes st !! z.
Proof. apply lookup_insert. Qed.

Lemma publish_load z i : load_next st' z i = load_next st z i.
Proof. unfold load_next. rewrite publish_nodes. case_decide; [subst|done]. by rewrite Hy. Qed.

Lemma publish_height z : height_of st' z = height_of st z.
Proof. unfold height_of. rewrite publish_nodes. case_decide; [subst|done]. by rewrite Hy. Qed.

Lemma publish_key z : node_key st' z = node_key st z.
Proof. unfold node_key. rewrite publish_nodes. case_decide; [subst|done]. by rewrite Hy. Qed.

Lemma publish_other z e : z <> y -> stores st z e -> stores st' z e.
Proof.
  intros Hz (m & Hm & Hk & Hs & Hh & Hl). exists m. rewrite publish_nodes, decide_False by done.
  split_and!; [done|done| |apply Hh..|done].
  simpl. rewrite lookup_insert_ne; [done|]. intros Heq. destruct (Hbrk (value m)); [lia|congruence].
Qed.

Lemma publish_new k w : stores st y (k, w) -> stores st' y (k, v).
Proof.
  intros (m & Hm & Hk & _ & Hh & Hl). rewrite Hy in Hm. injection Hm as <-.
  eexists. rewrite publish_nodes, decide_True by done. split; [done|]. simpl.
  by rewrite lookup_insert_eq.
Qed.

Lemma publish_free a : (brk st' <= a)%nat -> nodes st' !! a = None /\ slots st' !! a = None.
Proof.
  intros Ha. simpl in Ha. rewrite publish_nodes. simpl. rewrite lookup_insert_ne by lia.
  case_decide; [subst|apply Hbrk; lia]. destruct (Hbrk a); [lia|congruence].
Qed.

Lemma publish_head_ok : head_ok st -> head_ok st'.
Proof.
  intros (m & Hm & Hml). unfold head_ok. rewrite publish_nodes. simpl.
  case_decide as Hd; [|by exists m]. subst. rewrite Hy in Hm. simplify_eq. by eexists.
Qed.

Lemma publish_ext lvl : (0 < lvl y)%nat -> ext None st lvl st' lvl.
Proof.
  intros Hl. split; try done.
  - intros z kz Hz. by rewrite publish_key, publish_height.
  - intros. split; [done|]. intros. apply publish_load.
  - intros z e _ _ Hz. apply publish_other. intros ->. lia.
Qed.

Lemma publish_shape chain l lvl k :
  shape st chain l lvl -> carries st lvl k y ->
  shape st' chain (ainsert k v l) lvl /\ exists w, alookup k l = Some w.
Proof.
  intros H Hc. destruct (carried _ _ _ _ _ _ H Hc) as (A & B & la & w & lb & -> & -> & Hcut & Hst).
  split; [|exists w; by eapply cut_lookup].
  pose proof (sh_nodup _ _ _ _ H) as Hnd. apply NoDup_cons_1_2, NoDup_app in Hnd as (_ & Hd & [HyB _]%NoDup_cons).
  assert (y ∉ A) as HyA by set_solver.
  assert (forall c lc, y ∉ c -> Forall2 (stores st) c lc -> Forall2 (stores st') c lc) as HF.
  { intros c lc Hyc HF. induction HF as [|z e c lc Hz _ IH]; [done|].
    constructor; [apply publish_other; [set_solver|done]|apply IH; set_solver]. }
  destruct Hcut as [HA HB Hlt _]. apply Forall2_cons in HB as [_ HB].
  rewrite ainsert_app_lt, ainsert_head_eq by done. split; try apply H.
  - by apply publish_head_ok, H.
  - apply Forall2_app; [by apply HF|]. constructor; [by eapply publish_new|by apply HF].
  - pose proof (sh_sorted _ _ _ _ H) as Hs. unfold keys_sorted in *. by rewrite fmap_app in *.
  - intros i Hi. eapply links_frame; [by apply (sh_links _ _ _ _ H)|]. intros. apply publish_load.
  - intros z. rewrite publish_height. apply H.
  - apply publish_free.
Qed.
End publish.

Lemma publish_ok o s chain l lvl y r h :
  shape (mem s) chain l lvl -> ok (mem s) lvl o (Publish y r) ->
  exists c' s' l', tstep h o (Publish y r) s = Some (c', s') /\
    advance o (Publish y r) s chain l lvl c' s' chain l' lvl.
Proof.
  intros Hs [[v Hv] Hc]. destruct (carried _ _ _ _ _ _ Hs Hc) as (A & B & la & w & lb & _ & _ & _ & n & Hn & _).
  simpl. rewrite Hn, Hv. cbn [mbind option_bind]. eexists _, _, _. split; [done|].
  pose proof (sh_brk _ _ _ _ Hs) as Hbrk.
  destruct (publish_shape (mem s) y n v Hn Hbrk _ _ _ _ Hs Hc) as [Hs' [w' Hw]].
  split; try done.
  - by exists v.
  - apply publish_ext; [done..|apply Hc].
  - by left.
  - by eapply eff_replace.
  - left. simpl. unfold MAX_HEIGHT. lia.
Qed.

(** Loading a value. *)
Lemma load_value st chain l lvl k y :
  shape st chain l lvl -> carries st lvl k y ->
  exists n w, nodes st !! y = Some n /\ slots st !! value n = Some w /\ alookup k l = Some w.
Proof.
  intros Hs Hc. destruct (carried _ _ _ _ _ _ Hs Hc) as (A & B & la & w & lb & _ & -> & Hcut & n & Hn & _ & Hw & _).
  exists n, w. split_and!; [done..|]. by eapply cut_lookup.
Qed.

Lemma load_old_ok o s chain l lvl y h :
  shape (mem s) chain l lvl -> ok (mem s) lvl o (LoadOld y) ->
  exists c', tstep h o (LoadOld y) s = Some (c', s) /\
    advance o (LoadOld y) s chain l lvl c' s chain l lvl.
Proof.
  intros Hs [Hw Hc]. destruct (load_value _ _ _ _ _ _ Hs Hc) as (n & w & Hn & Hv & Hl).
  simpl. rewrite Hn. cbn [mbind option_bind]. rewrite Hv. cbn [mbind option_bind].
  eexists. split; [done|]. apply advance_silent; auto; [done|by apply eff_load_old].
Qed.

Lemma reading_ok o s chain l lvl y h :
  shape (mem s) chain l lvl -> ok (mem s) lvl o (Reading y) ->
  exists c', tstep h o (Reading y) s = Some (c', s) /\
    advance o (Reading y) s chain l lvl c' s chain l lvl.
Proof.
  intros Hs [Hw Hc]. destruct (load_value _ _ _ _ _ _ Hs Hc) as (n & w & Hn & Hv & Hl).
  simpl. rewrite Hn. cbn [mbind option_bind]. rewrite Hv. cbn [mbind option_bind].
  eexists. split; [done|]. apply advance_silent; auto; [done|]. rewrite <- Hl. by apply eff_read.
Qed.

(** ** Allocation *)

(** [st'] is [st] with a new node [n]. *)
Record grown (st st' : state) (n : nat) (k : str) (v : option str) (h : nat) : Prop := {
  gr_head : head st' = head st;
  gr_head_ok : n <> head st -> head_ok st -> head_ok st';
  gr_load : forall y i, y <> n -> load_next st' y i = load_next st y i;
  gr_key : forall y, y <> n -> node_key st' y = node_key st y;
  gr_height : forall y, y <> n -> height_of st' y = height_of st y;
  gr_stores : forall y e, y <> n -> stores st y e -> stores st' y e;
  gr_new : stores st' n (k, v);
  gr_h : height_of st' n = h;
  gr_links : forall i, (i < h)%nat -> is_Some (load_next st' n i);
  gr_free : forall a, (brk st' <= a)%nat -> nodes st' !! a = None /\ slots st' !! a = None
}.

Lemma create_grown st k v h :
  (forall a, (brk st <= a)%nat -> nodes st !! a = None /\ slots st !! a = None) ->
  (1 <= h <= MAX_HEIGHT)%nat ->
  grown st (create k v h st).2 (brk st) k v h.
Proof.
  intros Hb Hh. unfold create, makeSlot, set_node. cbn [snd nodes slots head brk]. split; cbn [head brk].
  - done.
  - intros Hn (m & Hm & Hl). exists m. simpl. by rewrite lookup_insert_ne.
  - intros y i Hy. unfold load_next. simpl. by rewrite lookup_insert_ne.
  - intros y Hy. unfold node_key. simpl. by rewrite lookup_insert_ne.
  - intros y Hy. unfold height_of. simpl. by rewrite lookup_insert_ne.
  - intros y e Hy (m & Hm & Hk & Hsl & Hhm & Hl). exists m. simpl. rewrite lookup_insert_ne by done.
    split_and!; [done|done| |apply Hhm..|done]. rewrite lookup_insert_ne; [done|].
    intros Heq. destruct (Hb (value m)); [lia|congruence].
  - eexists. simpl. rewrite lookup_insert_eq. split; [done|]. simpl. by rewrite lookup_insert_eq, length_replicate.
  - unfold height_of. simpl. by rewrite lookup_insert_eq.
  - intros i Hi. unfold load_next. simpl. rewrite lookup_insert_eq. simpl.
    rewrite lookup_replicate_2 by done. by eexists.
  - intros a Ha. simpl. rewrite !lookup_insert_ne by lia. apply Hb. lia.
Qed.

Lemma grown_wrote st st1 st2 n k v h i w :
  grown st st1 n k v h -> wrote st1 st2 n i w -> grown st st2 n k v h.
Proof.
  intros [] Hw. split; rewrite ?(wr_head _ _ _ _ _ Hw), ?(wr_brk _ _ _ _ _ Hw), ?(wr_height _ _ _ _ _ Hw); try done.
  - intros. apply (wr_head_ok _ _ _ _ _ Hw). auto.
  - intros y j Hy. rewrite (wr_load _ _ _ _ _ Hw), decide_False by naive_solver. auto.
  - intros y Hy. rewrite (wr_key _ _ _ _ _ Hw). auto.
  - intros y Hy. rewrite (wr_height _ _ _ _ _ Hw). auto.
  - intros. apply (wr_stores _ _ _ _ _ Hw). auto.
  - apply (wr_stores _ _ _ _ _ Hw). auto.
  - intros j Hj. rewrite (wr_load _ _ _ _ _ Hw). case_decide; [by eexists|auto].
  - intros a Ha. destruct (gr_free0 a Ha). split; [by apply (wr_free _ _ _ _ _ Hw)|].
    by rewrite (wr_slots _ _ _ _ _ Hw).
Qed.

Lemma init_links_grown st st1 n k v h i ss :
  grown st st1 n k v h -> (i <= h)%nat -> (i <= length ss)%nat ->
  exists st2, init_links i ss n st1 = Some st2 /\ grown st st2 n k v h /\
    forall j, (j < i)%nat -> load_next st2 n j = ss !! j.
Proof.
  intros Hg. induction i as [|i IH]; intros Hi Hlen; [exists st1; split_and!; [done..|lia]|].
  destruct IH as (st2 & Hst2 & Hg2 & Hl2); [lia..|]. cbn [init_links]. rewrite Hst2. cbn [mbind option_bind].
  destruct (lookup_lt_is_Some_2 ss i Hlen) as [w Hw]. rewrite Hw. cbn [mbind option_bind].
  destruct (gr_links _ _ _ _ _ _ Hg2 i Hi) as [w' Hw'].
  destruct (store_next_Some st2 n i w w' Hw') as [st3 Hst3]. exists st3. split; [done|].
  apply store_next_wrote in Hst3. split; [by eapply grown_wrote|].
  intros j Hj. rewrite (wr_load _ _ _ _ _ Hst3). case_decide as Hd; [destruct Hd as [_ ->]; congruence|].
  apply Hl2. destruct (decide (j = i)); [naive_solver|lia].
Qed.

Lemma grown_ext st st' n k v h lvl :
  grown st st' n k v h -> node_key st n = None -> lvl n = 0%nat -> ext None st lvl st' lvl.
Proof.
  intros Hg Hn Hl. split; try done; [apply Hg|..].
  - intros y ky Hy. assert (y <> n) by congruence. by rewrite (gr_key _ _ _ _ _ _ Hg), (gr_height _ _ _ _ _ _ Hg).
  - intros y ky _ _ Hy. assert (y <> n) by congruence. split; [done|]. intros. by apply (gr_load _ _ _ _ _ _ Hg).
  - intros y e _ _ _ Hst. apply (gr_stores _ _ _ _ _ _ Hg); [|done]. apply stores_key in Hst. congruence.
Qed.

Lemma grown_shape st st' n k v h chain l lvl :
  shape st chain l lvl -> grown st st' n k v h -> node_key st n = None -> shape st' chain l lvl.
Proof.
  intros Hs Hg Hn. assert (n ∉ chain) as Hnc.
  { intros Hc. destruct (shape_key _ _ _ _ _ Hs Hc) as [e He%stores_key]. congruence. }
  assert (n <> head st) as Hnh.
  { intros ->. destruct (sh_head _ _ _ _ Hs) as (m & Hm & _). unfold node_key in Hn. by rewrite Hm in Hn. }
  destruct Hs as [Hhd Hnd He Hsort Hl Hc Hht Hb].
  split; rewrite ?(gr_head _ _ _ _ _ _ Hg); try done; [by apply (gr_head_ok _ _ _ _ _ _ Hg)| | | |apply Hg].
  - clear -He Hg Hnc. induction He as [|y e chain l Hy _ IH]; [done|].
    constructor; [apply (gr_stores _ _ _ _ _ _ Hg); [set_solver|done]|apply IH; set_solver].
  - intros i Hi. eapply links_frame; [by apply Hl|]. intros z Hz. apply (gr_load _ _ _ _ _ _ Hg).
    intros ->. apply elem_of_cons in Hz as [?|Hz]; [done|]. by apply elem_of_lev in Hz as [_ ?].
  - intros y. destruct (decide (y = n)) as [->|Hy]; [|by rewrite (gr_height _ _ _ _ _ _ Hg)].
    assert (~ (0 < lvl n)%nat) by (by rewrite <- Hc). lia.
Qed.

Lemma alloc_ok o s chain l lvl ps ss h :
  shape (mem s) chain l lvl -> ok (mem s) lvl o (Alloc ps ss) -> (1 <= h <= MAX_HEIGHT)%nat ->
  exists c' s', tstep h o (Alloc ps ss) s = Some (c', s') /\
    advance o (Alloc ps ss) s chain l lvl c' s' chain l lvl.
Proof.
  intros Hs ([v Hv] & Hrec & Hmiss) Hh. pose proof (sh_brk _ _ _ _ Hs) as Hb.
  cbn [tstep]. rewrite Hv. cbn [mbind option_bind].
  pose proof (create_grown (mem s) (op_key o) v h Hb Hh) as Hg.
  destruct (create (op_key o) v h (mem s)) as [n st1] eqn:Hcr.
  assert (n = brk (mem s)) as -> by (by injection Hcr). cbn [snd] in Hg.
  destruct (init_links_grown _ _ _ _ _ _ h ss Hg) as (st2 & -> & Hg2 & Hl2); [done|rewrite (rec_succs _ _ _ _ _ _ Hrec); lia|].
  cbn [mbind option_bind]. eexists _, _. split; [done|].
  assert (node_key (mem s) (brk (mem s)) = None) as Hn.
  { unfold node_key. by rewrite (proj1 (Hb _ (le_n _))). }
  assert (lvl (brk (mem s)) = 0%nat) as Hlvl.
  { pose proof (sh_height _ _ _ _ Hs (brk (mem s))) as Hle. unfold height_of in Hle.
    rewrite (proj1 (Hb _ (le_n _))) in Hle. lia. }
  pose proof (grown_ext _ _ _ _ _ _ _ Hg2 Hn Hlvl) as Hext.
  assert (brk (mem s) <> head (mem s)) as Hhd.
  { intros Heq. destruct (sh_head _ _ _ _ Hs) as (m & Hm & _). rewrite <- Heq in Hm.
    destruct (Hb _ (le_n _)); congruence. }
  assert (quiet (mem s) chain lvl st2 chain lvl) as Hq.
  { split; [done|apply Hg2|]. intros y i Hy. apply (gr_load _ _ _ _ _ _ Hg2). intros ->. destruct Hy; [done|lia]. }
  split; try done.
  - by eapply grown_shape.
  - exists v. split_and!; [done|by eapply recorded_ext|by eapply missing_ext| |done].
    split; [done|done|apply (gr_h _ _ _ _ _ _ Hg2)|apply (gr_new _ _ _ _ _ _ Hg2)|].
    simpl. by rewrite (gr_head _ _ _ _ _ _ Hg2).
  - right. right. by eexists.
  - by apply eff_silent.
  - right. split_and!; [done|done|]. simpl.
    rewrite (stale_quiet _ _ _ _ _ _ _ _ _ _ _ _ Hq Hrec) by done. lia.
Qed.

(** ** Links of the call's own node *)

Lemma wrote_shape st st' chain l lvl x i v :
  shape st chain l lvl -> wrote st st' x i v -> x <> head st -> (lvl x <= i)%nat -> shape st' chain l lvl.
Proof.
  intros [Hhd Hnd He Hsort Hl Hc Hht Hb] Hw Hx Hxi.
  split; rewrite ?(wr_head _ _ _ _ _ Hw); try done; [by apply (wr_head_ok _ _ _ _ _ Hw)| | | |].
  - eapply Forall2_impl; [exact He|]. apply (wr_stores _ _ _ _ _ Hw).
  - intros j Hj. eapply links_frame; [by apply Hl|]. intros z Hz. rewrite (wr_load _ _ _ _ _ Hw).
    apply decide_False. intros [-> ->]. apply elem_of_cons in Hz as [?|Hz]; [done|].
    apply elem_of_lev in Hz as [? _]. lia.
  - intros y. by rewrite (wr_height _ _ _ _ _ Hw).
  - intros a Ha. rewrite (wr_brk _ _ _ _ _ Hw) in Ha. destruct (Hb a Ha).
    split; [by apply (wr_free _ _ _ _ _ Hw)|by rewrite (wr_slots _ _ _ _ _ Hw)].
Qed.

(** Writing a link of the own node, or the link of a node that is already on that level. *)
Lemma wrote_ext st st' lvl lvl' n x i v :
  wrote st st' x i v -> (x = n \/ x = head st \/ (i < lvl x)%nat) ->
  (forall y, y <> n -> lvl' y = lvl y) -> (lvl n <= lvl' n)%nat -> ext (Some n) st lvl st' lvl'.
Proof.
  intros Hw Hx Hl Hn. split.
  - apply (wr_head _ _ _ _ _ Hw).
  - intros y ky Hy. by rewrite (wr_key _ _ _ _ _ Hw), (wr_height _ _ _ _ _ Hw).
  - intros y. destruct (decide (y = n)) as [->|Hy]; [done|]. by rewrite Hl.
  - intros y Hy. apply Hl. congruence.
  - intros y ky Hyn Hyh _. assert (y <> n) by congruence. split; [auto|]. intros j Hj.
    rewrite (wr_load _ _ _ _ _ Hw). apply decide_False. intros [-> ->].
    destruct Hx as [?|[?|?]]; [done|done|lia].
  - intros y e _ _ _. apply (wr_stores _ _ _ _ _ Hw).
Qed.

(** The own node's links are there. *)
Lemma upto_load st chain l lvl k n h i j :
  shape st chain l lvl -> upto st lvl k n h i -> (j < h)%nat -> exists w, load_next st n j = Some w.
Proof.
  intros Hs Hu Hj. assert (n ∈ chain) as Hn.
  { apply (sh_chain _ _ _ _ Hs). rewrite (up_level _ _ _ _ _ _ Hu). apply (up_pos _ _ _ _ _ _ Hu). }
  destruct (shape_key _ _ _ _ _ Hs Hn) as (e & m & Hm & _ & _ & _ & Hlen).
  pose proof (up_height _ _ _ _ _ _ Hu) as Hh. unfold height_of in Hh. rewrite Hm in Hh.
  unfold load_next. rewrite Hm. simpl. destruct (lookup_lt_is_Some_2 (next m) j) as [w Hw]; [lia|by exists w].
Qed.

Lemma set_link_ok o s chain l lvl n hn i ps ss h :
  shape (mem s) chain l lvl -> ok (mem s) lvl o (SetLink n hn i ps ss) ->
  exists c' s', tstep h o (SetLink n hn i ps ss) s = Some (c', s') /\
    advance o (SetLink n hn i ps ss) s chain l lvl c' s' chain l lvl.
Proof.
  intros Hs (Hw & Hrec & Hu). pose proof (up_bound _ _ _ _ _ _ Hu) as Hi.
  destruct (lookup_lt_is_Some_2 ss i) as [succ Hsucc]; [rewrite (rec_succs _ _ _ _ _ _ Hrec); lia|].
  destruct (upto_load _ _ _ _ _ _ _ _ i Hs Hu) as [w Hwn]; [lia|].
  destruct (store_next_Some (mem s) n i succ w Hwn) as [st' Hst'].
  cbn [tstep]. rewrite Hsucc. cbn [mbind option_bind]. rewrite Hst'. cbn [mbind option_bind].
  eexists _, _. split; [done|]. apply store_next_wrote in Hst'.
  assert (ext (Some n) (mem s) lvl st' lvl) as Hext by (eapply wrote_ext; [done|by left|done..]).
  assert (quiet (mem s) chain lvl st' chain lvl) as Hq.
  { split; [done|apply (wr_head _ _ _ _ _ Hst')|]. intros y j Hy. rewrite (wr_load _ _ _ _ _ Hst').
    apply decide_False. intros [-> ->]. destruct Hy as [Hy|Hy]; [by apply (up_head _ _ _ _ _ _ Hu)|].
    rewrite (up_level _ _ _ _ _ _ Hu) in Hy. lia. }
  split; try done.
  - eapply wrote_shape; [done..|apply (up_head _ _ _ _ _ _ Hu)|by rewrite (up_level _ _ _ _ _ _ Hu)].
  - split_and!; [done|by eapply recorded_ext| |].
    + destruct Hu. split; simpl; rewrite ?(wr_height _ _ _ _ _ Hst'), ?(wr_key _ _ _ _ _ Hst'), ?(wr_head _ _ _ _ _ Hst'); done.
    + simpl. by rewrite (wr_load _ _ _ _ _ Hst'), decide_True.
  - by right; left.
  - intros y Hy _. by left.
  - by apply eff_silent.
  - right. split_and!; [done|done|]. simpl.
    rewrite (stale_quiet _ _ _ _ _ _ _ _ _ _ _ _ Hq Hrec) by done. lia.
Qed.

(** ** Linking on a level *)

(** Node [n], linked below level [i], is linked there between the neighbours. *)
Lemma splice st st' A B n lvl i p s :
  NoDup (head st :: A ++ n :: B) -> lvl n = i -> (i < MAX_HEIGHT)%nat ->
  (forall j, (j < MAX_HEIGHT)%nat -> links st j (head st) (lev lvl j (A ++ n :: B))) ->
  (p = head st \/ (i < lvl p)%nat /\ p ∈ A) -> (forall z, s = Some z -> z ∉ A) ->
  load_next st p i = Some s -> load_next st n i = Some s -> wrote st st' p i (Some n) ->
  forall j, (j < MAX_HEIGHT)%nat -> links st' j (head st) (lev (<[n := S i]> lvl) j (A ++ n :: B)).
Proof.
  intros Hnd Hn Hi Hl Hp Hs Hlp Hln Hw j Hj. set (lvl' := <[n := S i]> lvl).
  assert (n ∉ A /\ n ∉ B) as [HnA HnB].
  { apply NoDup_cons_1_2, NoDup_app in Hnd as (_ & Hd & [? _]%NoDup_cons). set_solver. }
  assert (forall q, n ∉ q -> lev lvl' j q = lev lvl j q) as Hlev.
  { intros q Hq. apply filter_agree. intros y Hy. unfold lvl'. by rewrite fn_lookup_insert_ne by set_solver. }
  assert (lev lvl' j [n] = if decide (j < S i)%nat then [n] else []) as Hn'.
  { unfold lev, lvl'. rewrite filter_cons, fn_lookup_insert. by case_decide. }
  assert (lev lvl j [n] = if decide (j < i)%nat then [n] else []) as Hn0.
  { unfold lev. rewrite filter_cons, Hn. by case_decide. }
  pose proof (Hl j Hj) as Hlj. change (n :: B) with ([n] ++ B) in Hlj |- *.
  rewrite !lev_app, Hn0 in Hlj. rewrite !lev_app, Hn', !Hlev by done.
  destruct (decide (j = i)) as [->|Hji].
  - rewrite decide_False in Hlj by lia. rewrite decide_True by lia. cbn [app] in *.
    destruct (links_border _ _ _ _ _ p s Hlj) as [Hpe Hse]; [|done| |].
    { destruct Hp as [->|[? ?]]; [set_solver|]. apply elem_of_cons. right. by apply elem_of_lev. }
    { intros z Hz Hin. apply elem_of_lev in Hin as [_ Hin]. by eapply Hs. }
    eapply links_insert; [| |exact Hlj|by rewrite Hln, Hse|].
    + rewrite <- lev_app. apply NoDup_cons_2; [|apply NoDup_filter].
      * apply NoDup_cons_1_1 in Hnd. rewrite elem_of_lev. set_solver.
      * apply NoDup_cons_1_2 in Hnd. apply NoDup_app in Hnd as (? & Hd & [? ?]%NoDup_cons).
        apply NoDup_app. split_and!; [done| |done]. set_solver.
    + rewrite <- lev_app, elem_of_cons, elem_of_lev. apply NoDup_cons_1_1 in Hnd. set_solver.
    + intros y. rewrite (wr_load _ _ _ _ _ Hw), Hpe. apply decide_ext. naive_solver.
  - replace (if decide (j < S i)%nat then [n] else []) with (if decide (j < i)%nat then [n] else [])
      by (repeat case_decide; (done || lia)).
    eapply links_frame; [exact Hlj|]. intros z _. rewrite (wr_load _ _ _ _ _ Hw).
    apply decide_False. naive_solver.
Qed.

(** After a link at level [i] the call goes on with the next one, or is through. *)
Section linked.
Context (st : state) (lvl : nat -> nat) (o : op) (n h i : nat) (ps : list nat) (ss : list (option nat)).
Hypothesis Hw : is_write o.
Hypothesis Hrec : recorded st lvl (op_key o) 0 ps ss.
Hypothesis Hl : lvl n = S i.
Hypothesis Hi : (i < h <= MAX_HEIGHT)%nat.
Hypothesis Hh : height_of st n = h.
Hypothesis Hk : node_key st n = Some (op_key o).
Hypothesis Hhd : n <> head st.

Lemma next_level_ok : ok st lvl o (next_level n h (S i) ps ss).
Proof.
  unfold next_level. destruct (Nat.ltb_spec (S i) h); [|done]. split_and!; [done..|]. split; (done || lia).
Qed.
Lemma next_level_full : owned (next_level n h (S i) ps ss) = Some n \/ lvl n = height_of st n.
Proof. unfold next_level. destruct (Nat.ltb_spec (S i) h); [by left|right; lia]. Qed.
End linked.

Lemma next_level_owned n h i ps ss :
  owned (next_level n h i ps ss) = None \/ owned (next_level n h i ps ss) = Some n.
Proof. unfold next_level. case_match; auto. Qed.
Lemma next_level_outcome n h i ps ss : outcome (next_level n h i ps ss) = Some None.
Proof. unfold next_level. by case_match. Qed.
Lemma next_level_charging n h i ps ss : charging (next_level n h i ps ss) = true.
Proof. unfold next_level. by case_match. Qed.
Lemma next_level_due n h i ps ss : (i < h)%nat -> (links_due (next_level n h (S i) ps ss) < h - i)%nat.
Proof. unfold next_level. case_match; simpl; lia. Qed.

Lemma update_le (lvl : nat -> nat) n i y : (lvl n <= i)%nat -> (lvl y <= <[n := i]> lvl y)%nat.
Proof.
  intros H. destruct (decide (y = n)) as [->|Hy]; [by rewrite fn_lookup_insert|by rewrite fn_lookup_insert_ne].
Qed.

(** The shape after a link. *)
Lemma linked_shape st st' chain A B l l' n lvl i p s :
  shape st chain l lvl ->
  NoDup (head st :: A ++ n :: B) -> lvl n = i -> (i < MAX_HEIGHT)%nat -> (i < height_of st n)%nat ->
  (forall j, (j < MAX_HEIGHT)%nat -> links st j (head st) (lev lvl j (A ++ n :: B))) ->
  (p = head st \/ (i < lvl p)%nat /\ p ∈ A) -> (forall z, s = Some z -> z ∉ A) ->
  load_next st p i = Some s -> load_next st n i = Some s -> wrote st st' p i (Some n) ->
  Forall2 (stores st) (A ++ n :: B) l' -> keys_sorted l' ->
  (forall y, y ∈ A ++ n :: B <-> y = n \/ (0 < lvl y)%nat) ->
  shape st' (A ++ n :: B) l' (<[n := S i]> lvl).
Proof.
  intros Hs Hnd Hn Hi Hih Hl Hp Hss Hlp Hln Hw He Hsort Hc.
  split; rewrite ?(wr_head _ _ _ _ _ Hw); try done.
  - apply (wr_head_ok _ _ _ _ _ Hw), Hs.
  - eapply Forall2_impl; [exact He|]. apply (wr_stores _ _ _ _ _ Hw).
  - by eapply (splice st st' A B n lvl i p s).
  - intros y. rewrite Hc. destruct (decide (y = n)) as [->|Hy].
    + rewrite fn_lookup_insert. split; [lia|by left].
    + rewrite fn_lookup_insert_ne by done. naive_solver.
  - intros y. rewrite (wr_height _ _ _ _ _ Hw). destruct (decide (y = n)) as [->|Hy].
    + rewrite fn_lookup_insert. lia.
    + rewrite fn_lookup_insert_ne by done. apply Hs.
  - intros a Ha. rewrite (wr_brk _ _ _ _ _ Hw) in Ha. destruct (sh_brk _ _ _ _ Hs a Ha).
    split; [by apply (wr_free _ _ _ _ _ Hw)|by rewrite (wr_slots _ _ _ _ _ Hw)].
Qed.

Lemma linked_ext st st' chain l lvl k n i p :
  shape st chain l lvl -> wrote st st' p i (Some n) -> at_pred st lvl k p i -> (lvl n <= i)%nat ->
  ext (Some n) st lvl st' (<[n := S i]> lvl).
Proof.
  intros Hs Hw Hp Hn. eapply wrote_ext; [exact Hw| | |].
  - right. destruct Hp as [?|[? _]]; auto.
  - intros y Hy. by rewrite fn_lookup_insert_ne.
  - rewrite fn_lookup_insert. lia.
Qed.

(** The compare-and-swap, given what the call has recorded. *)
Lemma cas_ok st chain l lvl k ps ss i p sc n :
  shape st chain l lvl -> recorded st lvl k 0 ps ss -> (i < MAX_HEIGHT)%nat ->
  ps !! i = Some p -> ss !! i = Some sc ->
  (cas st p i sc (Some n) = Some (false, st) /\ stale st ps ss i i = 1%nat) \/
  (exists st', cas st p i sc (Some n) = Some (true, st') /\ load_next st p i = Some sc /\
     wrote st st' p i (Some n)).
Proof.
  intros Hs Hrec Hi Hp Hsc.
  destruct (load_ok _ _ _ _ _ _ _ Hs Hi (rec_pred _ _ _ _ _ _ Hrec _ _ Hp)) as (cur & Hcur & _).
  unfold cas, stale. rewrite Hcur, Hp, Hsc. cbn [mbind option_bind]. destruct (decide (cur = sc)) as [->|Hne].
  - right. destruct (store_next_Some st p i (Some n) _ Hcur) as [st' Hst'].
    exists st'. rewrite Hst'. split_and!; [done..|]. by apply store_next_wrote.
  - left. split; [done|]. rewrite decide_False; [done|]. congruence.
Qed.

Lemma swap0_linked st st' o v chain l lvl n h p sc ps ss :
  shape st chain l lvl -> recorded st lvl (op_key o) 0 ps ss -> missing st (op_key o) ss ->
  private st lvl (op_key o) v n h -> load_next st n 0 = ss !! 0%nat ->
  ps !! 0%nat = Some p -> ss !! 0%nat = Some sc ->
  load_next st p 0 = Some sc -> wrote st st' p 0 (Some n) ->
  alookup (op_key o) l = None /\
  exists chain', shape st' chain' (ainsert (op_key o) v l) (<[n := 1%nat]> lvl).
Proof.
  intros Hs Hrec Hmiss Hpv Hln Hp Hsc Hl Hw. assert (0 < MAX_HEIGHT)%nat as H0 by (unfold MAX_HEIGHT; lia).
  pose proof (rec_pred _ _ _ _ _ _ Hrec _ _ Hp) as Hpp. pose proof (rec_succ _ _ _ _ _ _ Hrec _ _ Hsc) as Hss.
  destruct (neighbours _ _ _ _ _ _ _ _ Hs H0 Hpp Hss Hl) as (A & B & la & lb & -> & -> & Hcut & _ & Hse & HpA).
  rewrite (lev_0 _ _ _ _ _ Hs) in Hse by set_solver.
  destruct (cut_miss _ _ _ _ _ _ Hcut (sh_sorted _ _ _ _ Hs)) as [Hnone Hgt].
  { intros y Hy. apply Hmiss. by rewrite Hsc, Hse, Hy. }
  split; [done|]. exists (A ++ n :: B). destruct Hpv as [Hlv Hb Hh Hst Hhd].
  assert (n ∉ A ++ B) as Hn by (rewrite (sh_chain _ _ _ _ Hs); lia).
  pose proof (sh_nodup _ _ _ _ Hs) as Hnd. apply NoDup_cons in Hnd as [Hh0 Hnd].
  rewrite ainsert_app_lt, ainsert_head_gt; [|done|apply Hcut].
  eapply (linked_shape st st' (A ++ B) A B _ _ n lvl 0 p sc); try done.
  - apply NoDup_cons. split; [set_solver|]. apply NoDup_app in Hnd as (N1 & N2 & N3).
    apply NoDup_app. split_and!; [done|set_solver|apply NoDup_cons; set_solver].
  - lia.
  - intros j Hj. replace (lev lvl j (A ++ n :: B)) with (lev lvl j (A ++ B)); [by apply (sh_links _ _ _ _ Hs)|].
    change (n :: B) with ([n] ++ B). rewrite !lev_app. f_equal. unfold lev.
    rewrite filter_cons, decide_False by lia. done.
  - destruct HpA as [?|?]; [by left|right]. split; [|done]. apply (sh_chain _ _ _ _ Hs). set_solver.
  - intros z ->. by apply (cut_behind _ _ _ _ _ _ _ Hcut (proj2 (Hss z eq_refl))).
  - by rewrite Hln.
  - apply Forall2_app; [apply Hcut|]. constructor; [done|apply Hcut].
  - apply sorted_middle; [apply Hs|apply Hcut|done].
  - intros y. rewrite <- (sh_chain _ _ _ _ Hs). set_solver.
Qed.

Lemma swap0_ok o s chain l lvl n hn ps ss h :
  shape (mem s) chain l lvl -> ok (mem s) lvl o (Swap0 n hn ps ss) ->
  exists c' s' chain' l' lvl', tstep h o (Swap0 n hn ps ss) s = Some (c', s') /\
    advance o (Swap0 n hn ps ss) s chain l lvl c' s' chain' l' lvl'.
Proof.
  intros Hs (v & Hv & Hrec & Hmiss & Hpv & Hln). assert (0 < MAX_HEIGHT)%nat as H0 by (unfold MAX_HEIGHT; lia).
  pose proof (pv_bound _ _ _ _ _ _ Hpv) as Hhn.
  destruct (lookup_lt_is_Some_2 ps 0) as [p Hp]; [rewrite (rec_preds _ _ _ _ _ _ Hrec); lia|].
  destruct (lookup_lt_is_Some_2 ss 0) as [sc Hsc]; [rewrite (rec_succs _ _ _ _ _ _ Hrec); lia|].
  cbn [tstep]. rewrite Hp, Hsc. cbn [mbind option_bind].
  destruct (cas_ok _ _ _ _ _ _ _ _ _ _ n Hs Hrec H0 Hp Hsc) as [(-> & Hstale)|(st' & -> & Hl & Hw)];
    cbn [mbind option_bind]; eexists _, _.
  - exists chain, l, lvl. split; [done|]. destruct s as [st b c]. simpl in *. split; try done.
    + simpl. split_and!; [unfold MAX_HEIGHT; lia|by left|apply recorded_nil|done].
    + by left.
    + intros y [= <-]. rewrite (pv_level _ _ _ _ _ _ Hpv). lia.
    + by apply eff_silent.
    + right. split_and!; [done|done|]. simpl. unfold rest. rewrite decide_True by done. lia.
  - destruct (swap0_linked _ _ _ _ _ _ _ _ _ _ _ _ _ Hs Hrec Hmiss Hpv (Hln 0%nat ltac:(lia)) Hp Hsc Hl Hw)
      as [Hnone [chain' Hs']].
    exists chain', (ainsert (op_key o) v l), (<[n := 1%nat]> lvl). split; [done|].
    assert (ext (Some n) (mem s) lvl st' (<[n := 1%nat]> lvl)) as Hext.
    { eapply linked_ext; [done..|apply (rec_pred _ _ _ _ _ _ Hrec _ _ Hp)|]. rewrite (pv_level _ _ _ _ _ _ Hpv). lia. }
    destruct Hpv as [Hlv _ Hh Hst Hhd]. apply stores_key in Hst.
    split; try done.
    + apply next_level_ok; simpl; rewrite ?fn_lookup_insert, ?(wr_height _ _ _ _ _ Hw), ?(wr_key _ _ _ _ _ Hw), ?(wr_head _ _ _ _ _ Hw);
        [by exists v|by eapply recorded_ext|done|lia|done..].
    + destruct (next_level_owned n hn 1 ps ss) as [E|E]; rewrite E; auto.
    + intros y [= <-] _. apply next_level_full; simpl; rewrite ?fn_lookup_insert, ?(wr_height _ _ _ _ _ Hw), ?(wr_head _ _ _ _ _ Hw); (done || lia).
    + apply eff_link; try done; [apply next_level_outcome|apply next_level_charging].
    + left. pose proof (next_level_due n hn 0 ps ss ltac:(lia)). cbn [links_due]. lia.
Qed.

Lemma swap_up_linked st st' lvl k chain l n h i p sc ps ss :
  shape st chain l lvl -> recorded st lvl k 0 ps ss -> upto st lvl k n h i -> load_next st n i = ss !! i ->
  ps !! i = Some p -> ss !! i = Some sc ->
  load_next st p i = Some sc -> wrote st st' p i (Some n) -> shape st' chain l (<[n := S i]> lvl).
Proof.
  intros Hs Hrec Hu Hln Hp Hsc Hl Hw. pose proof (up_bound _ _ _ _ _ _ Hu) as Hi.
  pose proof (rec_pred _ _ _ _ _ _ Hrec _ _ Hp) as Hpp. pose proof (rec_succ _ _ _ _ _ _ Hrec _ _ Hsc) as Hss.
  destruct Hu as [Hlv Hpos Hb Hh Hk Hhd].
  destruct (carried _ _ _ _ k n Hs) as (A & B & la & w & lb & -> & -> & Hcut & _); [split; [lia|done]|].
  eapply (linked_shape st st' _ A B _ _ n lvl i p sc); try done; try apply Hs; try lia.
  - destruct Hpp as [?|[? Hbl]]; [by left|right]. split; [done|].
    eapply cut_below; [done| |done]. apply (sh_chain _ _ _ _ Hs). simpl in *. lia.
  - intros z ->. by apply (cut_behind _ _ _ _ _ _ _ Hcut (proj2 (Hss z eq_refl))).
  - by rewrite Hln.
  - intros y. rewrite <- (sh_chain _ _ _ _ Hs). set_solver.
Qed.

Lemma swap_up_ok o s chain l lvl n hn i ps ss h :
  shape (mem s) chain l lvl -> ok (mem s) lvl o (SwapUp n hn i ps ss) ->
  exists c' s' lvl', tstep h o (SwapUp n hn i ps ss) s = Some (c', s') /\
    advance o (SwapUp n hn i ps ss) s chain l lvl c' s' chain l lvl'.
Proof.
  intros Hs (Hwr & Hrec & Hu & Hln). pose proof (up_bound _ _ _ _ _ _ Hu) as Hi.
  assert (i < MAX_HEIGHT)%nat as Hi' by lia.
  destruct (lookup_lt_is_Some_2 ps i) as [p Hp]; [rewrite (rec_preds _ _ _ _ _ _ Hrec); lia|].
  destruct (lookup_lt_is_Some_2 ss i) as [sc Hsc]; [rewrite (rec_succs _ _ _ _ _ _ Hrec); lia|].
  cbn [tstep]. rewrite Hp, Hsc. cbn [mbind option_bind].
  destruct (cas_ok _ _ _ _ _ _ _ _ _ _ n Hs Hrec Hi' Hp Hsc) as [(-> & Hstale)|(st' & -> & Hl & Hw)];
    cbn [mbind option_bind]; eexists _, _.
  - exists lvl. split; [done|]. destruct s as [st b c]. simpl in *. split; try done.
    + simpl. split_and!; [unfold MAX_HEIGHT; lia|by left|apply recorded_nil|done..].
    + by right; left.
    + intros y Hy _. by left.
    + by apply eff_silent.
    + right. split_and!; [done|done|]. simpl. unfold rest. rewrite decide_True by done.
      destruct (Nat.ltb_spec 11 i); [unfold MAX_HEIGHT in *; lia|lia].
  - exists (<[n := S i]> lvl). split; [done|].
    assert (ext (Some n) (mem s) lvl st' (<[n := S i]> lvl)) as Hext.
    { eapply linked_ext; [done..|apply (rec_pred _ _ _ _ _ _ Hrec _ _ Hp)|]. by rewrite (up_level _ _ _ _ _ _ Hu). }
    pose proof (swap_up_linked _ _ _ _ _ _ _ _ _ _ _ _ _ Hs Hrec Hu Hln Hp Hsc Hl Hw) as Hs'.
    destruct Hu as [Hlv Hpos Hb Hh Hk Hhd].
    split; try done.
    + apply next_level_ok; simpl; rewrite ?fn_lookup_insert, ?(wr_height _ _ _ _ _ Hw), ?(wr_key _ _ _ _ _ Hw), ?(wr_head _ _ _ _ _ Hw);
        [done|by eapply recorded_ext|done..].
    + destruct (next_level_owned n hn (S i) ps ss) as [E|E]; rewrite E; auto.
    + intros y [= <-] _. apply next_level_full; simpl; rewrite ?fn_lookup_insert, ?(wr_height _ _ _ _ _ Hw), ?(wr_head _ _ _ _ _ Hw); (done || lia).
    + apply eff_silent; try done; [apply next_level_outcome|apply next_level_charging|..].
      * unfold next_level. by case_match.
      * unfold next_level. case_match; [done|]. by intros r [= <-].
      * intros y r. unfold next_level. by case_match.
    + left. apply next_level_due. lia.
Qed.

(** ** Every access *)

Lemma account_ok o s chain l lvl r h :
  shape (mem s) chain l lvl -> ok (mem s) lvl o (Account r) ->
  exists c' s', tstep h o (Account r) s = Some (c', s') /\
    advance o (Account r) s chain l lvl c' s' chain l lvl.
Proof.
  intros Hs Hw. eexists _, _. split; [done|]. split; try done.
  - by destruct (inserted r).
  - left. by destruct (inserted r).
  - by apply eff_account.
  - right. split_and!; [|done|]; destruct (inserted r); simpl; lia.
Qed.

Lemma count_ok o s chain l lvl h :
  shape (mem s) chain l lvl -> ok (mem s) lvl o CountUp ->
  exists c' s', tstep h o CountUp s = Some (c', s') /\
    advance o CountUp s chain l lvl c' s' chain l lvl.
Proof.
  intros Hs Hw. eexists _, _. split; [done|]. split; try done.
  - by left.
  - apply eff_count.
  - right. split_and!; [done..|simpl; lia].
Qed.

Lemma tstep_spec h o c s chain l lvl :
  shape (mem s) chain l lvl -> ok (mem s) lvl o c -> (1 <= h <= MAX_HEIGHT)%nat -> (forall a, c <> Stop a) ->
  exists c' s' chain' l' lvl', tstep h o c s = Some (c', s') /\
    advance o c s chain l lvl c' s' chain' l' lvl'.
Proof.
  intros Hs Hok Hh Hc. destruct c as [r i x ps ss|y|y|y z|ps ss|n hn ps ss|n hn i ps ss|n hn i ps ss|r| |a].
  - destruct (walk_ok _ _ _ _ _ _ _ _ _ _ Hs Hok) as (c' & Hw & Ha).
    exists c', s, chain, l, lvl. split; [|done]. simpl. by rewrite Hw.
  - destruct (reading_ok _ _ _ _ _ _ h Hs Hok) as (c' & ? & ?). by exists c', s, chain, l, lvl.
  - destruct (load_old_ok _ _ _ _ _ _ h Hs Hok) as (c' & ? & ?). by exists c', s, chain, l, lvl.
  - destruct (publish_ok _ _ _ _ _ _ _ h Hs Hok) as (c' & s' & l' & ? & ?). by exists c', s', chain, l', lvl.
  - destruct (alloc_ok _ _ _ _ _ _ _ _ Hs Hok Hh) as (c' & s' & ? & ?). by exists c', s', chain, l, lvl.
  - by apply swap0_ok.
  - destruct (set_link_ok _ _ _ _ _ _ _ _ _ _ h Hs Hok) as (c' & s' & ? & ?). by exists c', s', chain, l, lvl.
  - destruct (swap_up_ok _ _ _ _ _ _ _ _ _ _ h Hs Hok) as (c' & s' & lvl' & ? & ?). by exists c', s', chain, l, lvl'.
  - destruct (account_ok _ _ _ _ _ _ h Hs Hok) as (c' & s' & ? & ?). by exists c', s', chain, l, lvl.
  - destruct (count_ok _ _ _ _ _ h Hs Hok) as (c' & s' & ? & ?). by exists c', s', chain, l, lvl.
  - by destruct (Hc a).
Qed.

End MemtableMoves.
