(* ===== verification/MemtableLin.v ===== *)
(** * The memtable is linearizable

    The theorems about concurrent calls of [put], [del] and [get]: every run of
    [MemtableSteps] answers as the map with atomic operations; no call reaches
    undefined behaviour; every schedule ends the calls under way; the entry count
    is exact once no call runs, and so is the byte total when no two writers of one
    key ran at once ([overwrites_miscount] shows that they must not). *)

From stdpp Require Import functions.
From S2P Require Import Prelude SkipList Memtable MemtableSteps MemtableShape MemtableMoves.
Open Scope Z_scope.

Module MemtableLin.
Import SkipList MemtableSteps MemtableShape MemtableMoves.


(** ** The invariant of a configuration *)

Record inv (x : conf) (chain : list nat) (l : list (str * option str)) (lvl : nat -> nat) : Prop := {
  iv_shape : shape (mem (sh x)) chain l lvl;
  iv_ok : forall id o c, calls x !! id = Some (o, c) -> ok (mem (sh x)) lvl o c;
  iv_owned : forall id1 id2 o1 c1 o2 c2 n, id1 <> id2 ->
    calls x !! id1 = Some (o1, c1) -> calls x !! id2 = Some (o2, c2) ->
    owned c1 = Some n -> owned c2 <> Some n;
  iv_full : forall y, y ∈ chain -> lvl y = height_of (mem (sh x)) y \/
    exists id o c, calls x !! id = Some (o, c) /\ owned c = Some y
}.

Lemma ok_owned_key st lvl o c n : ok st lvl o c -> owned c = Some n -> exists k, node_key st n = Some k.
Proof.
  destruct c as [[|n' h j] i x ps ss|y|y|y z|ps ss|n' h ps ss|n' h i ps ss|n' h i ps ss|r| |a];
    intros Hok Hn; simpl in *; simplify_eq.
  - destruct Hok as (_ & _ & _ & _ & Hu). eexists. apply (up_key _ _ _ _ _ _ Hu).
  - destruct Hok as (v & _ & _ & _ & Hp & _). eexists. eapply stores_key, (pv_stores _ _ _ _ _ _ Hp).
  - destruct Hok as (_ & _ & Hu). eexists. apply (up_key _ _ _ _ _ _ Hu).
  - destruct Hok as (_ & _ & Hu & _). eexists. apply (up_key _ _ _ _ _ _ Hu).
Qed.

Lemma initial_inv : inv initial [] [] (fun _ => 0%nat).
Proof.
  pose proof empty_wf as [Hh Hn He Hs Hl Hb]. split; simpl.
  - split; try done; [|lia]. intros y. split; [intros []%not_elem_of_nil|lia].
  - intros id o c Hid. by rewrite lookup_empty in Hid.
  - intros id1 id2 o1 c1 o2 c2 n _ Hid. by rewrite lookup_empty in Hid.
  - intros y []%not_elem_of_nil.
Qed.

Lemma call_inv id o s m chain l lvl :
  inv (mkConf s m) chain l lvl -> m !! id = None ->
  inv (mkConf s (<[id := (o, search Begin (mem s))]> m)) chain l lvl.
Proof.
  intros [Hs Hok Hown Hfull] Hid. simpl in *. split; simpl; [done|..].
  - intros id' o' c'. rewrite lookup_insert_Some. intros [[<- [= <- <-]]|[Hne Hl]]; [|by eauto].
    simpl. split_and!; [unfold MAX_HEIGHT; lia|by left|apply recorded_nil|done].
  - intros id1 id2 o1 c1 o2 c2 n Hne. rewrite !lookup_insert_Some.
    intros [[<- [= <- <-]]|[? Hl1]] [[<- [= <- <-]]|[? Hl2]]; try done. by eapply (Hown id1 id2).
  - intros y Hy. destruct (Hfull y Hy) as [?|(id' & o' & c' & Hl & Ho)]; [by left|right].
    exists id', o', c'. split; [|done]. rewrite lookup_insert_ne; [done|]. intros ->. congruence.
Qed.

Lemma return_inv id o a s m chain l lvl :
  inv (mkConf s m) chain l lvl -> m !! id = Some (o, Stop a) -> inv (mkConf s (delete id m)) chain l lvl.
Proof.
  intros [Hs Hok Hown Hfull] Hid. simpl in *. split; simpl; [done|..].
  - intros id' o' c' [_ Hl]%lookup_delete_Some. by eauto.
  - intros id1 id2 o1 c1 o2 c2 n Hne [_ H1]%lookup_delete_Some [_ H2]%lookup_delete_Some. by eapply Hown.
  - intros y Hy. destruct (Hfull y Hy) as [?|(id' & o' & c' & Hl & Ho)]; [by left|right].
    exists id', o', c'. split; [|done]. rewrite lookup_delete_ne; [done|]. intros ->.
    rewrite Hid in Hl. by simplify_eq.
Qed.

Lemma run_inv id o c s m chain l lvl c' s' chain' l' lvl' :
  inv (mkConf s m) chain l lvl -> m !! id = Some (o, c) ->
  advance o c s chain l lvl c' s' chain' l' lvl' -> inv (mkConf s' (<[id := (o, c')]> m)) chain' l' lvl'.
Proof.
  intros [Hs Hok Hown Hfull] Hid [Hs' Hok' Hext Hnew Hfull' _ _]. simpl in *. split; simpl; [done|..].
  - intros id2 o2 c2. rewrite lookup_insert_Some. intros [[<- [= <- <-]]|[Hne Hl]]; [done|].
    eapply ok_ext; [done|by eauto|]. intros n Hn Ho. by eapply (Hown id id2).
  - assert (forall id2 o2 c2 n, id <> id2 -> m !! id2 = Some (o2, c2) -> owned c2 = Some n -> owned c' <> Some n) as Hc'.
    { intros id2 o2 c2 n Hne Hl Hn Hn'. destruct Hnew as [E|[E|(n' & E & Hk)]].
      - congruence.
      - rewrite E in Hn'. by eapply (Hown id id2).
      - destruct (ok_owned_key _ _ _ _ _ (Hok _ _ _ Hl) Hn) as [k Hk']. congruence. }
    intros id1 id2 o1 c1 o2 c2 n Hne. rewrite !lookup_insert_Some.
    intros [[<- [= <- <-]]|[? Hl1]] [[<- [= <- <-]]|[? Hl2]] Hn1 Hn2; try done.
    + by eapply (Hc' id2).
    + by eapply (Hc' id1).
    + by eapply (Hown id1 id2).
  - intros y Hy. pose proof (proj1 (sh_chain _ _ _ _ Hs' y) Hy) as Hpos.
    destruct (decide (owned c = Some y)) as [Hc|Hc].
    { destruct (Hfull' y Hc Hpos) as [?|?]; [right|by left]. exists id, o, c'. by rewrite lookup_insert_eq. }
    rewrite (ext_same _ _ _ _ _ Hext y Hc) in Hpos |- *. apply (sh_chain _ _ _ _ Hs) in Hpos.
    destruct (Hfull y Hpos) as [Hf|(id' & o' & c2 & Hl & Ho)].
    + left. destruct (shape_key _ _ _ _ _ Hs Hpos) as [e He%stores_key].
      by rewrite (proj2 (ext_key _ _ _ _ _ Hext y _ He)).
    + right. exists id', o', c2. split; [|done]. rewrite lookup_insert_ne; [done|].
      intros ->. rewrite Hid in Hl. by simplify_eq.
Qed.

(** ** Simulation *)

Definition pending_of (x : conf) : gmap nat (op * option answer) :=
  (fun oc => (oc.1, outcome oc.2)) <$> calls x.

(** A step changes the sorted run as the operation does, when the call takes effect. *)
Lemma effect_apply o c s l c' s' l' :
  effect o c s l c' s' l' ->
  (outcome c' = outcome c /\ l' = l) \/
  (outcome c = None /\ outcome c' = Some (apply o l).2 /\ l' = (apply o l).1).
Proof.
  intros H. destruct H as [c s l c' s' Ho|y w s l Hw|c s l s' Hv Hc|c s l v c' s' Hv Hc _ Hc'|y r v w s l s' Hv Hw|r s l _|s l];
    unfold apply; rewrite ?Hv; auto. left. by destruct (inserted r).
Qed.

(** A step of a configuration, with what it does to the invariant's parameters. *)
Inductive moved : conf -> list nat -> list (str * option str) -> (nat -> nat) -> option event ->
                  conf -> list nat -> list (str * option str) -> (nat -> nat) -> Prop :=
  | mv_call id o s m chain l lvl :
      m !! id = None ->
      moved (mkConf s m) chain l lvl (Some (Call id o))
            (mkConf s (<[id := (o, search Begin (mem s))]> m)) chain l lvl
  | mv_run id o c s m chain l lvl c' s' chain' l' lvl' :
      m !! id = Some (o, c) -> advance o c s chain l lvl c' s' chain' l' lvl' ->
      moved (mkConf s m) chain l lvl None (mkConf s' (<[id := (o, c')]> m)) chain' l' lvl'
  | mv_return id o a s m chain l lvl :
      m !! id = Some (o, Stop a) ->
      moved (mkConf s m) chain l lvl (Some (Return id a)) (mkConf s (delete id m)) chain l lvl.

Lemma step_moved x e y chain l lvl :
  inv x chain l lvl -> step x e y -> exists chain' l' lvl', moved x chain l lvl e y chain' l' lvl'.
Proof.
  intros Hinv Hstep. destruct Hstep as [id o s m Hid|id o c h c' s s' m Hid Hh Ht|id o a s m Hid].
  - exists chain, l, lvl. by apply mv_call.
  - pose proof (iv_shape _ _ _ _ Hinv) as Hs. pose proof (iv_ok _ _ _ _ Hinv _ _ _ Hid) as Hok. simpl in *.
    destruct (tstep_spec h o c s chain l lvl Hs Hok Hh) as (c2 & s2 & chain' & l' & lvl' & Ht2 & Had).
    { by intros a ->. }
    rewrite Ht in Ht2. injection Ht2 as <- <-. exists chain', l', lvl'. by eapply mv_run.
  - exists chain, l, lvl. by eapply mv_return.
Qed.

Lemma moved_inv x chain l lvl e y chain' l' lvl' :
  moved x chain l lvl e y chain' l' lvl' -> inv x chain l lvl -> inv y chain' l' lvl'.
Proof.
  intros [id o s m c1 l1 v1 Hid|id o c s m c1 l1 v1 c' s' c2 l2 v2 Hid Had|id o a s m c1 l1 v1 Hid] H.
  - by apply call_inv.
  - by eapply run_inv.
  - by eapply return_inv.
Qed.

Lemma moved_spec x chain l lvl e y chain' l' lvl' :
  moved x chain l lvl e y chain' l' lvl' -> spec_step (mkSpec l (pending_of x)) e (mkSpec l' (pending_of y)).
Proof.
  intros [id o s m c1 l1 v1 Hid|id o c s m c1 l1 v1 c' s' c2 l2 v2 Hid Had|id o a s m c1 l1 v1 Hid];
    unfold pending_of; simpl; rewrite ?fmap_insert, ?fmap_delete.
  - apply spec_call. by rewrite lookup_fmap, Hid.
  - destruct (effect_apply _ _ _ _ _ _ _ (ad_effect _ _ _ _ _ _ _ _ _ _ _ Had)) as [[E ->]|(Ho & E & ->)];
      simpl; rewrite E.
    + rewrite insert_id; [apply spec_stutter|]. by rewrite lookup_fmap, Hid.
    + apply spec_effect. rewrite lookup_fmap, Hid. simpl. by rewrite Ho.
  - eapply spec_return. by rewrite lookup_fmap, Hid.
Qed.

(** What holds initially and is kept by every step of a run, [I], holds after it;
    the specification takes part in the run. *)
Lemma runs_keep (R : conf -> option event -> conf -> Prop) (I : conf -> list (str * option str) -> Prop) tr x :
  (forall x e y, R x e y -> step x e y) -> I initial [] ->
  (forall x chain l lvl e y chain' l' lvl', R x e y -> inv x chain l lvl -> I x l ->
     moved x chain l lvl e y chain' l' lvl' -> I y l') ->
  run R initial tr x ->
  exists chain l lvl, inv x chain l lvl /\ I x l /\ run spec_step spec_initial tr (mkSpec l (pending_of x)).
Proof.
  intros HR H0 HI. remember initial as i eqn:Hi. intros H. induction H as [x|x y z tr e _ IH Hst]; subst.
  - exists [], [], (fun _ => 0%nat). split_and!; [apply initial_inv|done|]. apply run_nil.
  - destruct (IH eq_refl H0) as (chain & l & lvl & Hinv & HIy & Hrun).
    destruct (step_moved _ _ _ _ _ _ Hinv (HR _ _ _ Hst)) as (chain' & l' & lvl' & Hm).
    exists chain', l', lvl'. split_and!; [by eapply moved_inv|by eapply HI|].
    eapply run_snoc; [done|]. by eapply moved_spec.
Qed.

Lemma runs_inv tr x :
  run step initial tr x ->
  exists chain l lvl, inv x chain l lvl /\ run spec_step spec_initial tr (mkSpec l (pending_of x)).
Proof.
  intros H. destruct (runs_keep step (fun _ _ => True) tr x) as (chain & l & lvl & ? & _ & ?); auto. by exists chain, l, lvl.
Qed.

(** Without running calls, every node is linked on all its levels. *)
Lemma quiescent_wf x chain l lvl :
  inv x chain l lvl -> calls x = ∅ -> wf (mem (sh x)) chain l.
Proof.
  intros [Hs _ _ Hf] He. eapply shape_wf; [done|]. intros y Hy.
  destruct (Hf y Hy) as [?|(id & o & c & Hl & _)]; [done|]. by rewrite He, lookup_empty in Hl.
Qed.

(** ** Sums over the running calls *)

Definition total (f : op * code -> Z) (m : gmap nat (op * code)) : Z := map_fold (fun _ oc a => f oc + a) 0 m.

Lemma total_empty f : total f ∅ = 0.
Proof. apply map_fold_empty. Qed.

Lemma total_insert f id oc m : m !! id = None -> total f (<[id := oc]> m) = f oc + total f m.
Proof.
  intros H. unfold total. rewrite map_fold_insert_L; [done| |done]. intros. simpl. lia.
Qed.

Lemma total_delete f id oc m : m !! id = Some oc -> total f m = f oc + total f (delete id m).
Proof. intros H. rewrite <- (insert_delete_id m id oc H) at 1. apply total_insert, lookup_delete_eq. Qed.

Lemma total_update f id oc m : total f (<[id := oc]> m) = f oc + total f (delete id m).
Proof. rewrite <- insert_delete_eq. apply total_insert, lookup_delete_eq. Qed.

Lemma total_ext f g m : (forall id oc, m !! id = Some oc -> f oc = g oc) -> total f m = total g m.
Proof.
  induction m as [|id oc m Hid IH] using map_ind; intros H; [done|].
  rewrite !total_insert by done. rewrite (H id) by apply lookup_insert_eq. f_equal. apply IH.
  intros id' oc' Hl. apply (H id'). rewrite lookup_insert_ne; [done|]. congruence.
Qed.

Lemma total_nonneg f m : (forall oc, 0 <= f oc) -> 0 <= total f m.
Proof.
  intros H. induction m as [|id oc m Hid IH] using map_ind; [done|].
  rewrite total_insert by done. specialize (H oc). lia.
Qed.

(** ** Counters *)

(** What a call has yet to add to [count_] and to [current_bytes_]. *)
Definition owes_count (oc : op * code) : Z :=
  if charging oc.2 then 1 else match oc.2 with CountUp => 1 | _ => 0 end.
Definition owes_bytes (oc : op * code) : Z :=
  if charging oc.2 then bytes_due oc.1 (mkInsertResult true 0)
  else match oc.2 with Account r => bytes_due oc.1 r | _ => 0 end.

Lemma effect_count o c s l c' s' l' t :
  effect o c s l c' s' l' -> keys_sorted l ->
  count s = u64 (zlen l - (owes_count (o, c) + t)) -> count s' = u64 (zlen l' - (owes_count (o, c') + t)).
Proof.
  intros H Hsort Hc. unfold owes_count in *. simpl in *.
  destruct H as [c s l c' s' _ Hch _ Hc1 Hc2 _ _ [_ ->]|y w s l _|c s l s' _ Ho Hch [_ ->]
    |c s l v c' s' Hv Ho Hch _ Hch' Hn [_ ->]|y r v w s l s' Hv Hw [_ ->]|r s l _|s l]; simpl in *; try done.
  - rewrite Hch. rewrite Hc. do 2 f_equal. by destruct (charging c), c, c'.
  - rewrite Hch in Hc. rewrite Hc. by destruct c.
  - rewrite Hch in Hc. rewrite Hch', Hc. pose proof (Memtable.ainsert_counts (op_key o) v l Hsort) as Hcnt.
    rewrite Hn in Hcnt. destruct Hcnt as [_ ->]. f_equal. destruct c; try done; lia.
  - pose proof (Memtable.ainsert_counts (op_key o) v l Hsort) as Hcnt. rewrite Hw in Hcnt. by destruct Hcnt as [_ ->].
  - rewrite Hc. by destruct (inserted r).
  - rewrite Hc, Memtable.u64_add_l. f_equal. lia.
Qed.

Lemma effect_bytes o c s l c' s' l' t :
  effect o c s l c' s' l' -> keys_sorted l ->
  (forall y r w, c = Publish y r -> alookup (op_key o) l = Some w -> r = value_bytes w) ->
  bytes s = u64 (entries_bytes l - (owes_bytes (o, c) + t)) ->
  bytes s' = u64 (entries_bytes l' - (owes_bytes (o, c') + t)).
Proof.
  intros H Hsort Hr Hc. unfold owes_bytes in *. simpl in *.
  destruct H as [c s l c' s' _ Hch Hc1 _ _ Hc2 _ [-> _]|y w s l _|c s l s' _ Ho Hch [-> _]
    |c s l v c' s' Hv Ho Hch _ Hch' Hn [-> _]|y r v w s l s' Hv Hw [-> _]|r s l _|s l]; simpl in *; try done.
  - rewrite Hch, Hc. destruct (charging c) eqn:E; [done|].
    assert (forall r, c' <> Account r) as Hc3.
    { intros r ->. simpl in Hch. rewrite (Hc2 r eq_refl) in Hch. congruence. }
    destruct c; try (by destruct (Hc1 _ eq_refl)); destruct c'; try done; by destruct (Hc3 _ eq_refl).
  - rewrite Hch in Hc. rewrite Hc. by destruct c.
  - rewrite Hch in Hc. rewrite Hch', Hc. pose proof (Memtable.ainsert_counts (op_key o) v l Hsort) as Hcnt.
    rewrite Hn in Hcnt. destruct Hcnt as [-> _]. f_equal. unfold bytes_due, entry_bytes. rewrite Hv. simpl.
    destruct c; try done; destruct v; lia.
  - pose proof (Memtable.ainsert_counts (op_key o) v l Hsort) as Hcnt. rewrite Hw in Hcnt. destruct Hcnt as [-> _].
    rewrite Hc, (Hr y r w eq_refl Hw). f_equal. unfold bytes_due, entry_bytes, value_bytes. rewrite Hv. simpl.
    destruct v; lia.
  - rewrite Hc, Memtable.u64_add_l. f_equal. destruct (inserted r) eqn:E; simpl; [|lia].
    unfold bytes_due. rewrite E. simpl. lia.
Qed.

(** The counters, but for what running calls owe them. *)
Definition counted (x : conf) (l : list (str * option str)) : Prop :=
  count (sh x) = u64 (zlen l - total owes_count (calls x)).

Lemma moved_counted x chain l lvl e y chain' l' lvl' :
  moved x chain l lvl e y chain' l' lvl' -> inv x chain l lvl -> counted x l -> counted y l'.
Proof.
  intros [id o s m c1 l1 v1 Hid|id o c s m c1 l1 v1 c' s' c2 l2 v2 Hid Had|id o a s m c1 l1 v1 Hid] Hinv;
    unfold counted; simpl.
  - by rewrite total_insert.
  - rewrite total_update, (total_delete _ _ _ _ Hid).
    eapply effect_count; [apply Had|apply (iv_shape _ _ _ _ Hinv)].
  - by rewrite (total_delete _ _ _ _ Hid).
Qed.

(** No two writers of one key at once. *)
Definition exclusive (x : conf) : Prop :=
  forall id1 id2 o1 c1 o2 c2, id1 <> id2 -> calls x !! id1 = Some (o1, c1) -> calls x !! id2 = Some (o2, c2) ->
    is_write o1 -> is_write o2 -> op_key o1 <> op_key o2.

Record tight (x : conf) (l : list (str * option str)) : Prop := {
  tg_exclusive : exclusive x;
  tg_bytes : bytes (sh x) = u64 (entries_bytes l - total owes_bytes (calls x));
  tg_replaced : forall id o y r w, calls x !! id = Some (o, Publish y r) ->
    alookup (op_key o) l = Some w -> r = value_bytes w
}.

(** Other keys are not touched. *)
Lemma effect_other o c s l c' s' l' k :
  effect o c s l c' s' l' -> (is_write o -> op_key o <> k) -> alookup k l' = alookup k l.
Proof.
  intros H Hk.
  assert (forall v, op_value o = Some v -> alookup k (ainsert (op_key o) v l) = alookup k l) as Hins.
  { intros v Hv. rewrite alookup_ainsert, decide_False; [done|]. intros ->. by apply Hk; [exists v|]. }
  destruct H; auto.
Qed.

Lemma effect_publish o c s l y r s' l' :
  effect o c s l (Publish y r) s' l' -> forall w, alookup (op_key o) l' = Some w -> r = value_bytes w.
Proof.
  intros H w Hw. remember (Publish y r) as c' eqn:Hc'.
  destruct H as [c s l c' s' _ _ _ _ _ _ Hp _|y' w' s l Hw'|c s l s' _ _ _ _
    |c s l v c' s' _ _ _ Ho _ _ _|y' r' v w' s l s' _ _ _|r' s l _|s l]; subst; try done.
  - by destruct (Hp y r).
  - by simplify_eq.
  - by destruct (inserted r').
Qed.

Lemma moved_tight x chain l lvl e y chain' l' lvl' :
  moved x chain l lvl e y chain' l' lvl' -> inv x chain l lvl -> exclusive y -> tight x l -> tight y l'.
Proof.
  intros [id o s m c1 l1 v1 Hid|id o c s m c1 l1 v1 c' s' c2 l2 v2 Hid Had|id o a s m c1 l1 v1 Hid] Hinv Hex [Hx Hb Hr];
    split; simpl in *; try done.
  - by rewrite total_insert.
  - intros id' o' y' r w. rewrite lookup_insert_Some. intros [[_ ?]|[_ Hl]]; [done|by eapply Hr].
  - rewrite total_update. rewrite (total_delete _ _ _ _ Hid) in Hb.
    eapply effect_bytes; [apply Had|apply (iv_shape _ _ _ _ Hinv)| |done].
    intros y' r w -> Hw. by eapply Hr.
  - intros id' o' y' r w. rewrite lookup_insert_Some. intros [[<- [= <- ->]]|[Hne Hl]].
    + eapply effect_publish, Had.
    + rewrite (effect_other _ _ _ _ _ _ _ (op_key o') (ad_effect _ _ _ _ _ _ _ _ _ _ _ Had)).
      * by eapply Hr.
      * intros Hw. eapply (Hx id id'); [done..|].
        apply (iv_ok _ _ _ _ Hinv _ _ _ Hl).
  - by rewrite (total_delete _ _ _ _ Hid) in Hb.
  - intros id' o' y' r w [_ Hl]%lookup_delete_Some. by eapply Hr.
Qed.

(** ** The end of every schedule *)

Definition links_left (x : conf) : Z := total (fun oc => Z.of_nat (links_due oc.2)) (calls x).
Definition work_left (x : conf) (chain : list nat) : Z :=
  total (fun oc => Z.of_nat (S (work (mem (sh x)) chain oc.2))) (calls x).

(** Steps of running calls. *)
Definition finishing (x y : conf) : Prop := exists e, step x e y /\ forall id o, e <> Some (Call id o).

Lemma moved_closer x chain l lvl e y chain' l' lvl' :
  moved x chain l lvl e y chain' l' lvl' -> inv x chain l lvl -> (forall id o, e <> Some (Call id o)) ->
  links_left y < links_left x \/ (links_left y <= links_left x /\ work_left y chain' < work_left x chain).
Proof.
  intros [id o s m c1 l1 v1 Hid|id o c s m c1 l1 v1 c' s' c2 l2 v2 Hid Had|id o a s m c1 l1 v1 Hid] Hinv He;
    unfold links_left, work_left; simpl.
  - by destruct (He id o).
  - rewrite !total_update, !(total_delete _ _ _ _ Hid). cbn [snd].
    destruct (ad_closer _ _ _ _ _ _ _ _ _ _ _ Had) as [Hl|(Hl & Hq & Hw)]; [left; lia|right; split; [lia|]].
    rewrite (total_ext (fun oc => Z.of_nat (S (work (mem s') c2 oc.2))) (fun oc => Z.of_nat (S (work (mem s) c1 oc.2)))).
    + lia.
    + intros id' [o' c3] [_ Hid']%lookup_delete_Some. simpl.
      by rewrite (work_quiet _ _ _ _ _ _ _ _ Hq (iv_ok _ _ _ _ Hinv _ _ _ Hid')).
  - right. rewrite !(total_delete _ id _ m Hid). simpl. lia.
Qed.

Lemma finishing_acc x chain l lvl : inv x chain l lvl -> Acc (fun y x => finishing x y) x.
Proof.
  assert (forall x chain, 0 <= links_left x /\ 0 <= work_left x chain) as Hpos.
  { intros. split; apply total_nonneg; intros; lia. }
  remember (links_left x) as a eqn:Ha. revert x chain l lvl Ha.
  induction a as [a IHa] using (well_founded_ind (Z.lt_wf 0)). intros x chain l lvl Ha.
  remember (work_left x chain) as b eqn:Hb. revert x chain l lvl Ha Hb.
  induction b as [b IHb] using (well_founded_ind (Z.lt_wf 0)). intros x chain l lvl Ha Hb Hinv.
  constructor. intros y (e & Hst & He).
  destruct (step_moved _ _ _ _ _ _ Hinv Hst) as (chain' & l' & lvl' & Hm).
  pose proof (moved_inv _ _ _ _ _ _ _ _ _ Hm Hinv) as Hinv'.
  destruct (Hpos y chain') as [Hy1 Hy2].
  destruct (moved_closer _ _ _ _ _ _ _ _ _ Hm Hinv He) as [Hl|[Hl Hw]]; [eapply IHa; [|done..]; lia|].
  destruct (decide (links_left y = a)) as [Hya|Hya]; [|eapply IHa; [|done..]; lia].
  eapply IHb; [|by symmetry|done..]. lia.
Qed.

(** ** Schedules, executed *)

Inductive move := MCall (id : nat) (o : op) | MRun (id h : nat) | MReturn (id : nat).

Definition play (v : move) (x : conf) : option (option event * conf) :=
  match v with
  | MCall id o =>
      match calls x !! id with
      | None => Some (Some (Call id o), mkConf (sh x) (<[id := (o, search Begin (mem (sh x)))]> (calls x)))
      | Some _ => None
      end
  | MRun id h =>
      '(o, c) ← calls x !! id;
      '(c, s) ← (if decide (1 <= h <= MAX_HEIGHT)%nat then tstep h o c (sh x) else None);
      Some (None, mkConf s (<[id := (o, c)]> (calls x)))
  | MReturn id =>
      '(_, c) ← calls x !! id;
      match c with Stop a => Some (Some (Return id a), mkConf (sh x) (delete id (calls x))) | _ => None end
  end.

(** Stops where a configuration fails the test [P]. *)
Fixpoint play_all (P : conf -> bool) (vs : list move) (x : conf) : option (list event * conf) :=
  match vs with
  | [] => Some ([], x)
  | v :: vs =>
      '(e, y) ← play v x;
      if P y then '(tr, z) ← play_all P vs y; Some (option_list e ++ tr, z) else None
  end.

Lemma play_step v x e y : play v x = Some (e, y) -> step x e y.
Proof.
  destruct x as [s m]. destruct v as [id o|id h|id]; simpl.
  - destruct (m !! id) eqn:E; [done|]. intros [= <- <-]. by apply step_call.
  - destruct (m !! id) as [[o c]|] eqn:E; simpl; [|done]. case_decide; simpl; [|done].
    destruct (tstep h o c s) as [[c' s']|] eqn:Ht; simpl; [|done]. intros [= <- <-]. by eapply step_run.
  - destruct (m !! id) as [[o c]|] eqn:E; simpl; [|done]. destruct c; try done. intros [= <- <-].
    by eapply step_return.
Qed.

Lemma run_trans {S} (R : S -> option event -> S -> Prop) x y z t1 t2 :
  run R x t1 y -> run R y t2 z -> run R x (t1 ++ t2) z.
Proof.
  intros H1 H2. induction H2 as [y|y z w t2 e _ IH Hst]; [by rewrite app_nil_r|].
  rewrite app_assoc. eapply run_snoc; [by apply IH|done].
Qed.

Lemma play_all_run (P : conf -> bool) vs x tr y :
  play_all P vs x = Some (tr, y) -> run (fun x e y => step x e y /\ P y = true) x tr y.
Proof.
  revert x tr. induction vs as [|v vs IH]; intros x tr Hp; simpl in Hp.
  - injection Hp as <- <-. apply run_nil.
  - destruct (play v x) as [[e w]|] eqn:Hv; simpl in Hp; [|done]. destruct (P w) eqn:HP; [|done].
    destruct (play_all P vs w) as [[tr' z]|] eqn:Hvs; simpl in Hp; [|done]. injection Hp as <- <-.
    apply (run_trans _ x w); [|by apply IH].
    rewrite <- (app_nil_l (option_list e)). eapply run_snoc; [apply run_nil|].
    split; [by eapply play_step|done].
Qed.

Lemma run_weaken {S} (R R' : S -> option event -> S -> Prop) x tr y :
  (forall x e y, R x e y -> R' x e y) -> run R x tr y -> run R' x tr y.
Proof. intros H Hr. induction Hr; [apply run_nil|]. eapply run_snoc; [done|auto]. Qed.

Definition any : conf -> bool := fun _ => true.

Lemma play_run vs x tr y : play_all any vs x = Some (tr, y) -> run step x tr y.
Proof. intros H%play_all_run. eapply run_weaken; [|exact H]. by intros ??? []. Qed.

(** [exclusive], computed. *)
Definition rivals (a b : nat * (op * code)) : bool :=
  bool_decide (a.1 <> b.1) && bool_decide (is_write a.2.1) && bool_decide (is_write b.2.1) &&
  bool_decide (op_key a.2.1 = op_key b.2.1).
Definition exclusive_b (x : conf) : bool :=
  let l := map_to_list (calls x) in forallb (fun a => forallb (fun b => negb (rivals a b)) l) l.

Lemma exclusive_b_ok x : exclusive_b x = true -> exclusive x.
Proof.
  unfold exclusive_b. rewrite forallb_forall. intros H id1 id2 o1 c1 o2 c2 Hne H1 H2 Hw1 Hw2 Hk.
  apply elem_of_map_to_list, list_elem_of_In in H1, H2. specialize (H _ H1).
  rewrite forallb_forall in H. specialize (H _ H2). unfold rivals in H. simpl in H.
  by rewrite !bool_decide_eq_true_2 in H by done.
Qed.

(** ** Properties *)

Lemma stopped_or_not c : (exists a, c = Stop a) \/ (forall a, c <> Stop a).
Proof. destruct c; (by left; eexists) || (by right). Qed.

(** C9: Linearizability: whatever the interleaving of the calls' accesses, their
    calls and returns are those of a map whose operations take effect at one
    instant between call and return; once no call runs the list is well formed and
    holds the map's entries, and [size()] is their number. *)
Theorem memtable_linearizable tr x :
  run step initial tr x ->
  exists S, run spec_step spec_initial tr S /\ pending S = pending_of x /\
    (calls x = ∅ -> (exists chain, wf (mem (sh x)) chain (contents S)) /\
       count (sh x) = u64 (zlen (contents S))).
Proof.
  intros H. destruct (runs_keep step counted tr x) as (chain & l & lvl & Hinv & Hc & Hrun);
    [done|done|intros; by eapply moved_counted|done|].
  exists (mkSpec l (pending_of x)). split_and!; [done..|]. intros He. split.
  - exists chain. by eapply quiescent_wf.
  - unfold counted in Hc. by rewrite He, total_empty, Z.sub_0_r in Hc.
Qed.

Definition key_before (st : state) (y z : nat) : Prop :=
  exists ky kz, node_key st y = Some ky /\ node_key st z = Some kz /\ ky <s kz.

Lemma chain_sorted st chain l :
  Forall2 (stores st) chain l -> keys_sorted l -> StronglySorted (key_before st) chain.
Proof.
  induction 1 as [|y [k v] chain l Hy HF IH]; [constructor|].
  intros [Hk Hs]%keys_sorted_cons. constructor; [by apply IH|].
  apply Forall_forall. intros z Hz. apply list_elem_of_lookup in Hz as [i Hi].
  destruct (Forall2_lookup_l _ _ _ _ _ HF Hi) as (e & He & Hst%stores_key).
  exists k, e.1. split_and!; [by apply stores_key in Hy|done|].
  apply Hk, list_elem_of_fmap_2. by eapply list_elem_of_lookup_2.
Qed.

Lemma StronglySorted_filter {A} (R : A -> A -> Prop) (P : A -> Prop) `{!forall x, Decision (P x)} l :
  StronglySorted R l -> StronglySorted R (filter P l).
Proof.
  induction 1 as [|x l Hl IH Hx]; [constructor|]. rewrite filter_cons. case_decide; [|done].
  constructor; [done|]. apply Forall_forall. intros y [_ Hy]%list_elem_of_filter.
  by eapply Forall_forall in Hx.
Qed.

(** What [test_skip_list_invariants.cpp] samples, at every moment of every
    run: on each level the links from the head end after finitely many nodes, visit
    none twice and meet strictly increasing keys; so no link leads back, also
    while upper levels are being linked again after a lost swap. *)
Theorem levels_never_cycle x i :
  reachable x -> (i < MAX_HEIGHT)%nat ->
  exists l, links (mem (sh x)) i (head (mem (sh x))) l /\ NoDup (head (mem (sh x)) :: l) /\
    StronglySorted (key_before (mem (sh x))) l /\ (length l < size (nodes (mem (sh x))))%nat.
Proof.
  intros [tr Hr] Hi. destruct (runs_inv _ _ Hr) as (chain & l & lvl & Hinv & _).
  pose proof (iv_shape _ _ _ _ Hinv) as Hs. exists (lev lvl i chain).
  pose proof (stored_size _ _ _ (sh_head _ _ _ _ Hs) (sh_nodup _ _ _ _ Hs) (sh_entries _ _ _ _ Hs)).
  pose proof (length_filter (fun y => (i < lvl y)%nat) chain).
  split_and!; [by apply Hs| | |unfold lev; lia].
  - pose proof (sh_nodup _ _ _ _ Hs) as [Hn1 Hn2]%NoDup_cons.
    apply NoDup_cons. split; [|by apply NoDup_filter]. by intros [_ ?]%elem_of_lev.
  - apply StronglySorted_filter. eapply chain_sorted; apply Hs.
Qed.

(** What holds of a configuration between accesses. *)
Definition well_formed (x : conf) : Prop := exists chain l lvl, inv x chain l lvl.

(** C23: The running calls and the list stay well formed at every access, and no
    access of a call is undefined: each call that has not finished can take its
    next step, whatever the others did. *)
Theorem accesses_safe x :
  well_formed x ->
  (forall e y, step x e y -> well_formed y) /\
  (forall id o c h, calls x !! id = Some (o, c) -> (1 <= h <= MAX_HEIGHT)%nat ->
     (exists a, c = Stop a) \/ exists c' s', tstep h o c (sh x) = Some (c', s')).
Proof.
  intros (chain & l & lvl & Hinv). split.
  - intros e y Hst. destruct (step_moved _ _ _ _ _ _ Hinv Hst) as (chain' & l' & lvl' & Hm).
    exists chain', l', lvl'. by eapply moved_inv.
  - intros id o c h Hid Hh. destruct (stopped_or_not c) as [?|Hc]; [by left|right].
    destruct (tstep_spec h o c (sh x) chain l lvl) as (c' & s' & ? & ? & ? & Ht & _);
      [apply Hinv|by eapply (iv_ok _ _ _ _ Hinv)|done..|]. by exists c', s'.
Qed.

(** C24: No call waits for another and none is starved for ever: from any
    configuration a run reaches, every schedule of the running calls is finite, and
    as long as one runs a step is possible. *)
Theorem calls_end x :
  reachable x -> Acc (fun y x => finishing x y) x /\ (calls x <> ∅ -> exists y, finishing x y).
Proof.
  intros [tr Hr]. destruct (runs_inv _ _ Hr) as (chain & l & lvl & Hinv & _).
  split; [by eapply finishing_acc|]. intros [id [[o c] Hid]]%map_choose.
  destruct x as [s m]. simpl in *. destruct (stopped_or_not c) as [[a ->]|Hc].
  - exists (mkConf s (delete id m)), (Some (Return id a)). split; [by eapply step_return|done].
  - destruct (tstep_spec 1 o c s chain l lvl) as (c' & s' & ? & ? & ? & Ht & _);
      [apply Hinv|by eapply (iv_ok _ _ _ _ Hinv)|unfold MAX_HEIGHT; lia|done|].
    exists (mkConf s' (<[id := (o, c')]> m)), None. split; [|done]. eapply step_run; [done| |done]. unfold MAX_HEIGHT. lia.
Qed.

(** C25: With one writer per key at a time, which is how the source says it is
    used, the quiet list with its counters is the memtable that holds the entries of
    the map: byte total and count are exact modulo 2^64. *)
Theorem single_writer_rep tr x max :
  run (fun x e y => step x e y /\ exclusive y) initial tr x -> calls x = ∅ ->
  exists S, run spec_step spec_initial tr S /\
    Memtable.rep (Memtable.mkT max (bytes (sh x)) (count (sh x)) (mem (sh x))) max (contents S).
Proof.
  intros H He.
  destruct (runs_keep (fun x e y => step x e y /\ exclusive y) (fun x l => counted x l /\ tight x l) tr x)
    as (chain & l & lvl & Hinv & [Hc Ht] & Hrun); [by intros ??? []| | |done|].
  - split; [done|]. split; try done; intros id ? ? ? ? ?; intros; by rewrite lookup_empty in *.
  - intros y ? ? ? e z ? ? ? [_ Hex] Hy [Hc Ht] Hm.
    split; [by eapply moved_counted|by eapply moved_tight].
  - exists (mkSpec l (pending_of x)). split; [done|]. split; simpl; [done| | |].
    + pose proof (tg_bytes _ _ Ht) as Hb. by rewrite He, total_empty, Z.sub_0_r in Hb.
    + unfold counted in Hc. by rewrite He, total_empty, Z.sub_0_r in Hc.
    + exists chain. by eapply quiescent_wf.
Qed.

(** ** Witnesses *)

Definition steps_of (id h n : nat) : list move := replicate n (MRun id h).

(** Two inserts race for the head's link on level 0; the loser searches again. *)
Definition race : list move :=
  [MCall 0 (Put (bs "a") (bs "1")); MCall 1 (Put (bs "b") (bs "22"))] ++
  steps_of 0 2 13 ++ steps_of 1 1 13 ++ steps_of 0 2 1 ++ steps_of 1 1 1 ++ steps_of 0 2 4 ++
  [MReturn 0; MCall 2 (Get (bs "b"))] ++ steps_of 2 1 5 ++ steps_of 1 1 17 ++ steps_of 2 1 9 ++
  [MReturn 2; MReturn 1].

Definition race_end : conf := default initial (snd <$> play_all any race initial).

Definition race_trace : list event :=
  [Call 0 (Put (bs "a") (bs "1")); Call 1 (Put (bs "b") (bs "22")); Return 0 None;
   Call 2 (Get (bs "b")); Return 2 (Some (Some (Some (bs "22")))); Return 1 None].

Definition conf_view (x : conf) := (bytes (sh x), count (sh x), map_to_list (calls x),
  Memtable.begin (Memtable.mkT 0 (bytes (sh x)) (count (sh x)) (mem (sh x)))).

Example race_computed :
  (tx ← play_all any race initial; Some (tx.1, conf_view tx.2))
  = Some (race_trace, (21, 2, [], Some [(bs "a", Some (bs "1")); (bs "b", Some (bs "22"))])).
Proof. vm_compute. reflexivity. Qed.

Lemma memtable_linearizable_witness :
  exists x S, run step initial race_trace x /\ run spec_step spec_initial race_trace S /\
    calls x = ∅ /\ count (sh x) = u64 (zlen (contents S)).
Proof.
  assert (run step initial race_trace race_end) as Hr.
  { apply (play_run race). vm_compute. reflexivity. }
  destruct (memtable_linearizable _ _ Hr) as (S & HS & _ & Hq).
  assert (calls race_end = ∅) as He by (vm_compute; reflexivity).
  exists race_end, S. split_and!; [done..|apply (Hq He)].
Defined.

(** The race, half way: one call links upper levels, one is about to fail. *)
Definition midway : conf := default initial (snd <$> play_all any (take 29 race) initial).

Lemma midway_reachable : reachable midway.
Proof. eexists. apply (play_run (take 29 race)). vm_compute. reflexivity. Qed.

Lemma accesses_safe_witness :
  well_formed midway /\ exists c' s', tstep 1 (Put (bs "b") (bs "22"))
    (default CountUp (snd <$> calls midway !! 1%nat)) (sh midway) = Some (c', s').
Proof.
  assert (well_formed midway) as Hw.
  { destruct midway_reachable as [tr Hr]. destruct (runs_inv _ _ Hr) as (chain & l & lvl & Hinv & _).
    by exists chain, l, lvl. }
  split; [done|]. destruct (accesses_safe midway Hw) as [_ Hs].
  destruct (calls midway !! 1%nat) as [[o c]|] eqn:E; [|vm_compute in E; discriminate E].
  assert (o = Put (bs "b") (bs "22")) as -> by (vm_compute in E; by injection E as <- _).
  destruct (Hs 1%nat _ c 1%nat E) as [[a Ha]|?]; [unfold MAX_HEIGHT; lia| |done].
  exfalso. rewrite Ha in E. vm_compute in E. discriminate E.
Defined.

Lemma levels_never_cycle_witness :
  exists l, links (mem (sh midway)) 1 (head (mem (sh midway))) l /\ (length l < size (nodes (mem (sh midway))))%nat.
Proof.
  destruct (levels_never_cycle midway 1 midway_reachable) as (l & Hl & _ & _ & Hlen); [unfold MAX_HEIGHT; lia|].
  by exists l.
Defined.

Lemma calls_end_witness : Acc (fun y x => finishing x y) midway /\ exists y, finishing midway y.
Proof.
  destruct (calls_end midway midway_reachable) as [Ha Hp]. split; [done|]. apply Hp.
  intros E. apply (f_equal (lookup 0%nat)) in E. vm_compute in E. discriminate E.
Defined.

(** Overwrites of one key, one after the other, beside a write of another. *)
Definition turns : list move :=
  [MCall 0 (Put (bs "a") (bs "1"))] ++ steps_of 0 1 16 ++ [MReturn 0; MCall 1 (Put (bs "b") (bs "2")); MCall 0 (Put (bs "a") (bs "333"))] ++
  steps_of 0 1 10 ++ steps_of 1 1 17 ++ steps_of 0 1 5 ++ [MReturn 1; MReturn 0].

Example turns_computed :
  (tx ← play_all exclusive_b turns initial; Some (conf_view tx.2))
  = Some (22, 2, [], Some [(bs "a", Some (bs "333")); (bs "b", Some (bs "2"))]).
Proof. vm_compute. reflexivity. Qed.

Lemma single_writer_rep_witness :
  exists tr x S, run spec_step spec_initial tr S /\
    Memtable.rep (Memtable.mkT 100 (bytes (sh x)) (count (sh x)) (mem (sh x))) 100 (contents S) /\
    bytes (sh x) = 22.
Proof.
  set (tx := default ([], initial) (play_all exclusive_b turns initial)).
  destruct (single_writer_rep tx.1 tx.2 100) as (S & HS & Hrep).
  - eapply run_weaken; [|apply (play_all_run exclusive_b turns)].
    + intros x e y [Hst Hx]. split; [done|by apply exclusive_b_ok].
    + vm_compute. reflexivity.
  - vm_compute. reflexivity.
  - exists tx.1, tx.2, S. split_and!; [done..|vm_compute; reflexivity].
Defined.

(** ** Two overwrites at once *)

(** Both overwrites of a 20-byte value read it before either replaces it. *)
Definition clash : list move :=
  [MCall 0 (Put (bs "k") (bs "aaaaaaaaaaaaaaaaaaaa"))] ++ steps_of 0 1 16 ++
  [MReturn 0; MCall 1 (Put (bs "k") []); MCall 2 (Put (bs "k") [])] ++
  steps_of 1 1 13 ++ steps_of 2 1 13 ++ steps_of 1 1 2 ++ steps_of 2 1 2 ++ [MReturn 1; MReturn 2].

(** That a key has one writer at a time is needed: two overwrites at once can
    both subtract the value they replace, so that [current_bytes_] wraps and a
    memtable of 9 bytes reports more than 2^63 bytes and is full. *)
Theorem overwrites_miscount :
  exists tr x, run step initial tr x /\ calls x = ∅ /\
    let m := Memtable.mkT Memtable.DEFAULT_MAX_BYTES (bytes (sh x)) (count (sh x)) (mem (sh x)) in
    Memtable.begin m = Some [(bs "k", Some [])] /\
    Memtable.byteSize m = 2 ^ 64 - 11 /\ Memtable.isFull m = true.
Proof.
  set (tx := default ([], initial) (play_all any clash initial)). exists tx.1, tx.2. cbv zeta.
  split_and!; [apply (play_run clash); vm_compute; reflexivity|vm_compute; reflexivity..].
Qed.

End MemtableLin.
