(* ===== verification/MemtableSolo.v ===== *)
(** * One call alone

    [SkipList.insert] and [Memtable.put], [del], [get] are [MemtableSteps] run by
    a single call: whatever state it starts in, the steps of the call lead to the
    result and the state that the sequential definitions compute.  So the engine,
    which calls the memtable under its lock, and the theorems on concurrent calls
    are about the same code. *)

From S2P Require Import Prelude SkipList Memtable MemtableSteps.
Open Scope Z_scope.

Module MemtableSolo.
Import SkipList MemtableSteps.

(** One step of the only call, where [randomHeight] draws [h]. *)
Definition alone (h : nat) (o : op) (a b : code * shared) : Prop := tstep h o a.1 a.2 = Some b.

Section alone.
Context (h : nat) (o : op).

Lemma alone_once c s b d : tstep h o c s = Some b -> rtc (alone h o) b d -> rtc (alone h o) (c, s) d.
Proof. intros H1 H2. by eapply rtc_l. Qed.

(** The walk along a level stops at a node from which the search descends. *)
Lemma walk_alone fuel s i x p nx r ps ss :
  walk fuel (mem s) (op_key o) i x = Some (p, nx) ->
  rtc (alone h o) (Walking r i x ps ss, s) (Walking r i p ps ss, s) /\
  walk_step o r i p ps ss (mem s) = descend o r i p nx ps ss (mem s).
Proof.
  revert x. induction fuel as [|fuel IH]; intros x; simpl; [done|].
  destruct (load_next (mem s) x i) as [[y|]|] eqn:Hl; simpl; [| |done].
  - destruct (node_key (mem s) y) as [ky|] eqn:Hk; simpl; [|done].
    destruct (ky <?s op_key o) eqn:E.
    + intros [H1 H2]%IH. split; [|done]. eapply alone_once; [|exact H1].
      simpl. unfold walk_step. rewrite Hl. simpl. rewrite Hk. simpl. by rewrite E.
    + intros [= <- <-]. split; [apply rtc_refl|]. unfold walk_step. rewrite Hl. simpl. rewrite Hk. simpl. by rewrite E.
  - intros [= <- <-]. split; [apply rtc_refl|]. unfold walk_step. by rewrite Hl.
Qed.

Lemma find_levels_alone s i x ps' ss' r ps ss c :
  find_levels (S i) (mem s) (op_key o) x = Some (ps', ss') ->
  found o r (ps' ++ ps) (ss' ++ ss) (mem s) = Some c ->
  rtc (alone h o) (Walking r i x ps ss, s) (c, s).
Proof.
  revert x ps' ss' ps ss. induction i as [|i IH]; intros x ps' ss' ps ss Hf Hc; cbn [find_levels] in Hf.
  - destruct (walk _ _ _ _ _) as [[p nx]|] eqn:Hw; simpl in Hf; [|done]. injection Hf as <- <-. simpl in Hc.
    destruct (walk_alone _ _ _ _ _ _ r ps ss Hw) as [H1 H2]. etrans; [exact H1|]. apply rtc_once.
    unfold alone. simpl. rewrite H2. simpl. by rewrite Hc.
  - destruct (walk _ _ _ (S i) _) as [[p nx]|] eqn:Hw; cbn [mbind option_bind] in Hf; [|done].
    destruct (find_levels (S i) (mem s) (op_key o) p) as [[ps0 ss0]|] eqn:Hf0;
      cbn [find_levels] in Hf0; rewrite Hf0 in Hf; simpl in Hf; [|done]. injection Hf as <- <-.
    destruct (walk_alone _ _ _ _ _ _ r ps ss Hw) as [H1 H2]. etrans; [exact H1|].
    eapply alone_once; [simpl; by rewrite H2|]. rewrite <- !app_assoc in Hc.
    eapply IH; [exact Hf0|exact Hc].
Qed.

Lemma find_alone s b ps ss c :
  find (mem s) (op_key o) = Some (b, ps, ss) ->
  (forall s0, ss !! 0%nat = Some s0 -> hits (op_key o) (mem s) s0 = Some b -> found o Begin ps ss (mem s) = Some c) ->
  rtc (alone h o) (search Begin (mem s), s) (c, s).
Proof.
  unfold find. intros Hf Hc.
  destruct (find_levels MAX_HEIGHT (mem s) (op_key o) (head (mem s))) as [[ps' ss']|] eqn:Hfl; cbn [mbind option_bind] in Hf; [|done].
  destruct (ss' !! 0%nat) as [s0|] eqn:Hs0; cbn [mbind option_bind] in Hf; [|done].
  destruct (match s0 with Some _ => _ | None => _ end) as [b'|] eqn:Hh; cbn [mbind option_bind] in Hf; [|done].
  injection Hf as -> -> ->. eapply (find_levels_alone s 11 _ _ _ Begin [] []); [exact Hfl|].
  rewrite !app_nil_r. by apply (Hc s0).
Qed.

(** Linking the upper levels. *)
Lemma link_upper_alone m n i ps ss s st' :
  link_upper m (op_key o) n i ps ss (mem s) = Some st' ->
  rtc (alone h o) (next_level n (i + m) i ps ss, s) (Account (mkInsertResult true 0), set_mem st' s).
Proof.
  revert i s. induction m as [|m IH]; intros i s; cbn [link_upper link_level]; unfold next_level.
  - intros [= <-]. rewrite Nat.add_0_r, Nat.ltb_irrefl. by destruct s.
  - rewrite (proj2 (Nat.ltb_lt i (i + S m))) by lia.
    destruct (ps !! i) as [p|] eqn:Hp; cbn [mbind option_bind]; [|done].
    destruct (ss !! i) as [sc|] eqn:Hsc; cbn [mbind option_bind]; [|done].
    destruct (store_next (mem s) n i sc) as [st1|] eqn:Hst; cbn [mbind option_bind]; [|done].
    destruct (cas st1 p i sc (Some n)) as [[[|] st2]|] eqn:Hcas; cbn [mbind option_bind]; [| |done].
    + intros H. eapply alone_once; [cbn [tstep]; rewrite Hsc; cbn [mbind option_bind]; by rewrite Hst|].
      eapply alone_once.
      { cbn [tstep]. rewrite Hp, Hsc. cbn [mbind option_bind mem set_mem]. by rewrite Hcas. }
      rewrite Nat.add_succ_r. exact (IH (S i) (set_mem st2 s) H).
    + by destruct (find st2 (op_key o)) as [[[b ps2] ss2]|].
Qed.

(** [insert] until its result is known. *)
Lemma insert_alone v rng s r rng' st' :
  op_value o = Some v -> h = (randomHeight rng).1 ->
  insert (op_key o) v rng (mem s) = Some (r, rng', st') ->
  rtc (alone h o) (search Begin (mem s), s) (Account r, set_mem st' s).
Proof.
  intros Hv Hh. unfold insert. cbn [insert_loop].
  destruct (find (mem s) (op_key o)) as [[[b ps] ss]|] eqn:Hf; cbn [mbind option_bind]; [|done].
  destruct b.
  - unfold insert_existing. destruct (ss !! 0%nat) as [[y|]|] eqn:Hs0; cbn [mjoin option_join mbind option_bind]; try done.
    destruct (nodes (mem s) !! y) as [n|] eqn:Hn; cbn [mbind option_bind]; [|done].
    destruct (slots (mem s) !! value n) as [w|] eqn:Hw; cbn [mbind option_bind]; [|done].
    intros [= <- <- <-]. transitivity (LoadOld y, s).
    { eapply find_alone; [exact Hf|]. intros s0 E Hit. unfold found. rewrite Hs0 in E |- *. injection E as <-.
      cbn [mbind option_bind]. rewrite Hit. cbn [mbind option_bind]. by rewrite Hv. }
    eapply alone_once; [cbn [tstep]; rewrite Hn; cbn [mbind option_bind]; by rewrite Hw|].
    eapply alone_once; [cbn [tstep]; rewrite Hn, Hv; reflexivity|]. apply rtc_refl.
  - destruct (randomHeight rng) as [h' rng1] eqn:Hrng. simpl in Hh. subst h'.
    destruct (create (op_key o) v h (mem s)) as [n st1] eqn:Hcr.
    destruct (init_links h ss n st1) as [st2|] eqn:Hil; cbn [mbind option_bind]; [|done].
    destruct (ps !! 0%nat) as [p0|] eqn:Hp0; cbn [mbind option_bind]; [|done].
    destruct (ss !! 0%nat) as [s0|] eqn:Hs0; cbn [mbind option_bind]; [|done].
    destruct (cas st2 p0 0 s0 (Some n)) as [[[|] st3]|] eqn:Hcas; cbn [mbind option_bind]; try done.
    destruct (link_upper (h - 1) (op_key o) n 1 ps ss st3) as [st4|] eqn:Hlu; cbn [mbind option_bind]; [|done].
    intros [= <- <- <-]. transitivity (Alloc ps ss, s).
    { eapply find_alone; [exact Hf|]. intros s1 E Hit. unfold found. rewrite Hs0 in E |- *. injection E as <-.
      cbn [mbind option_bind]. rewrite Hit. cbn [mbind option_bind]. by rewrite Hv. }
    eapply alone_once; [cbn [tstep]; rewrite Hv; cbn [mbind option_bind]; rewrite Hcr, Hil; reflexivity|].
    eapply alone_once; [cbn [tstep]; rewrite Hp0, Hs0; cbn [mbind option_bind mem set_mem]; rewrite Hcas; reflexivity|].
    pose proof (link_upper_alone (h - 1) n 1 ps ss (set_mem st3 s) st4 Hlu) as H.
    pose proof (randomHeight_range rng) as Hr. rewrite Hrng in Hr. simpl in Hr.
    by replace (1 + (h - 1))%nat with h in H by lia.
Qed.

End alone.

(** The shared state of a memtable. *)
Definition shared_of (m : Memtable.t) : shared :=
  mkShared (Memtable.list_ m) (Memtable.current_bytes m) (Memtable.count m).

(** The accounting at the end of [put] and [del]. *)
Lemma account_alone h o v m r lst :
  op_value o = Some v ->
  let new := match v with Some s => zlen s | None => 0 end in
  rtc (alone h o) (Account r, set_mem lst (shared_of m))
    (Stop None, shared_of
       (if inserted r then Memtable.charge (zlen (op_key o) + new + 8) (Memtable.with_list m lst)
        else Memtable.adjustValueBytes (replacedValueBytes r) new (Memtable.with_list m lst))).
Proof.
  intros Hv new. assert (bytes_due o r = if inserted r then zlen (op_key o) + new + 8 else new - replacedValueBytes r) as Hd.
  { unfold bytes_due. by rewrite Hv. }
  eapply alone_once; [reflexivity|]. rewrite Hd. cbn [bytes count mem set_mem shared_of]. destruct (inserted r).
  - eapply alone_once; [reflexivity|]. unfold shared_of, Memtable.charge. simpl.
    by rewrite Memtable.u64_add_r.
  - unfold shared_of, Memtable.adjustValueBytes, Memtable.with_list. simpl.
    destruct (_ <=? _); [done|]. by replace (Memtable.current_bytes m + (new - replacedValueBytes r))
      with (Memtable.current_bytes m - (replacedValueBytes r - new)) by lia.
Qed.

(** C32: A call alone on the memtable takes the steps of [MemtableSteps] to exactly
    the state and counters, or the answer, of the sequential [put], [del] and
    [get], in any state in which these are defined. *)
Theorem calls_alone m k rng :
  let h := (randomHeight rng).1 in
  (forall v rng' m', Memtable.put k v rng m = Some (rng', m') ->
     rtc (alone h (Put k v)) (search Begin (Memtable.list_ m), shared_of m) (Stop None, shared_of m')) /\
  (forall rng' m', Memtable.del k rng m = Some (rng', m') ->
     rtc (alone h (Del k)) (search Begin (Memtable.list_ m), shared_of m) (Stop None, shared_of m')) /\
  (forall a, Memtable.get k m = Some a ->
     rtc (alone h (Get k)) (search Begin (Memtable.list_ m), shared_of m) (Stop (Some a), shared_of m)).
Proof.
  intros h. split_and!.
  - intros v rng' m'. unfold Memtable.put.
    destruct (insert k (Some v) rng (Memtable.list_ m)) as [[[r rng1] lst]|] eqn:Hi; simpl; [|done]. intros [= <- <-].
    etrans; [eapply (insert_alone h (Put k v) (Some v) rng (shared_of m)); [done|done|exact Hi]|].
    by apply (account_alone h (Put k v) (Some v)).
  - intros rng' m'. unfold Memtable.del.
    destruct (insert k None rng (Memtable.list_ m)) as [[[r rng1] lst]|] eqn:Hi; simpl; [|done]. intros [= <- <-].
    etrans; [eapply (insert_alone h (Del k) None rng (shared_of m)); [done|done|exact Hi]|].
    etrans; [by apply (account_alone h (Del k) None)|]. simpl. by rewrite Z.add_0_r.
  - intros a. unfold Memtable.get.
    destruct (find (Memtable.list_ m) k) as [[[b ps] ss]|] eqn:Hf; cbn [mbind option_bind]; [|done]. destruct b.
    + destruct (ss !! 0%nat) as [[y|]|] eqn:Hs0; cbn [mjoin option_join mbind option_bind]; try done.
      unfold read_entry. destruct (nodes (Memtable.list_ m) !! y) as [n|] eqn:Hn; simpl; [|done].
      destruct (slots (Memtable.list_ m) !! value n) as [w|] eqn:Hw; simpl; [|done]. intros [= <-].
      transitivity (Reading y, shared_of m).
      * apply (find_alone h (Get k) (shared_of m) true ps ss); [exact Hf|]. intros s0 E Hit. unfold found. rewrite Hs0 in E |- *. injection E as <-.
        cbn [mbind option_bind]. by rewrite Hit.
      * eapply alone_once; [|apply rtc_refl]. cbn [tstep shared_of mem]. rewrite Hn. simpl. by rewrite Hw.
    + intros [= <-]. apply (find_alone h (Get k) (shared_of m) false ps ss); [exact Hf|]. intros s0 E Hit. unfold found. rewrite E.
      cbn [mbind option_bind]. by rewrite Hit.
Qed.

Lemma calls_alone_witness :
  exists m', Memtable.put (bs "k") (bs "v") Memtable.sample_rng (Memtable.create 100) = Some m' /\
    rtc (alone 2 (Put (bs "k") (bs "v")))
      (search Begin SkipList.empty, shared_of (Memtable.create 100)) (Stop None, shared_of m'.2).
Proof.
  destruct (calls_alone (Memtable.create 100) (bs "k") Memtable.sample_rng) as [Hp _].
  destruct (Memtable.put (bs "k") (bs "v") Memtable.sample_rng (Memtable.create 100)) as [[rng' m']|] eqn:E;
    [|vm_compute in E; discriminate E].
  exists (rng', m'). split; [done|]. exact (Hp _ _ _ E).
Defined.

End MemtableSolo.
