(* ===== verification/Bloom.v ===== *)
(** * The blocked Bloom filter of a table

    Models [src/sstable/block_bloom_filter.h]: blocks of eight 64-bit words, two
    64-bit hashes accumulated in one pass, eight probes inside one block, and
    the filter's on-disk form.  Sizing is computed in IEEE double precision
    with the Standard Library's specification floats. *)

From Stdlib Require Import SpecFloat Znumtheory.
From S2P Require Import Prelude.
Open Scope Z_scope.

Module Bloom.

(** ** State *)

(** [Block]: eight words. *)
Definition zero_block : list Z := replicate 8 0.

Record BloomFilter := mkBloomFilter {
  blocks : list (list Z);
  num_blocks : Z;
  num_hashes : Z
}.

(** ** Sizing *)

Definition double_mul : spec_float -> spec_float -> spec_float := SFmul 53 1024.
Definition double_div : spec_float -> spec_float -> spec_float := SFdiv 53 1024.
Definition double_of_Z (z : Z) : spec_float := binary_normalize 53 1024 z 0 false.

(** [std::log(0.01)] and [std::log(2.0)]. *)
Definition log_fpr : spec_float := S754_finite true 5184960683398421 (-50).
Definition log_2 : spec_float := S754_finite false 6243314768165359 (-53).

(** [static_cast<size_t>]: the fraction is dropped.  A value that does not fit
    is undefined behaviour in C++; it takes 10^18 keys to reach one. *)
Definition double_to_size (x : spec_float) : Z :=
  match x with
  | S754_finite false m e => u64 (Z.shiftl (Zpos m) e)
  | _ => 0
  end.

Definition total_bits (expected_keys : Z) : Z :=
  double_to_size (double_div (double_mul (SFopp (double_of_Z expected_keys)) log_fpr)
                             (double_mul log_2 log_2)).

Definition create (expected_keys : Z) : BloomFilter :=
  let n := u64 (total_bits expected_keys + 511) / 512 in
  let n := if n =? 0 then 1 else n in
  mkBloomFilter (replicate (Z.to_nat n) zero_block) n 8.

(** ** Hashing *)

Definition hash_step (h : Z * Z) (c : byte) : Z * Z :=
  let h1 := u64 (Z.lxor h.1 (byte_Z c) * 1099511628211) in
  let h2 := u64 (Z.lxor h.2 (byte_Z c) * 0x9E3779B97F4A7C15) in
  (h1, Z.lor (u64 (Z.shiftl h2 27)) (Z.shiftr h2 37)).

Definition hash (key : str) : Z * Z :=
  let '(h1, h2) := foldl hash_step (14695981039346656037, 1099511628211) key in
  let h2 := Z.lxor h2 (Z.shiftr h2 33) in
  let h2 := u64 (h2 * 0xff51afd7ed558ccd) in
  let h2 := Z.lxor h2 (Z.shiftr h2 29) in
  (h1, Z.lor h2 1).

(** The bit of probe [i]. *)
Definition probe (h1 h2 : Z) (i : nat) : Z := u64 (h1 + u64 (Z.of_nat i * h2)) mod 512.

Definition probes (bf : BloomFilter) (h1 h2 : Z) : list Z :=
  probe h1 h2 <$> seq 0 (Z.to_nat (num_hashes bf)).

(** ** Operations *)

Definition set_bit (block : list Z) (bit : Z) : list Z :=
  alter (fun w => Z.lor w (Z.shiftl 1 (bit mod 64))) (Z.to_nat (bit / 64)) block.

Definition test_bit (block : list Z) (bit : Z) : bool :=
  bool_decide (Z.land (default 0 (block !! Z.to_nat (bit / 64))) (Z.shiftl 1 (bit mod 64)) <> 0).

Definition insert (key : str) (bf : BloomFilter) : BloomFilter :=
  let '(h1, h2) := hash key in
  let idx := Z.to_nat (h1 mod num_blocks bf) in
  mkBloomFilter (alter (fun b => foldl set_bit b (probes bf h1 h2)) idx (blocks bf))
                (num_blocks bf) (num_hashes bf).

Definition mayContain (key : str) (bf : BloomFilter) : bool :=
  let '(h1, h2) := hash key in
  let block := default [] (blocks bf !! Z.to_nat (h1 mod num_blocks bf)) in
  forallb (test_bit block) (probes bf h1 h2).

(** The words of all blocks, as [memcpy] copies them. *)
Definition serialize (bf : BloomFilter) : str :=
  mjoin ((fun b => mjoin (enc_le 8 <$> b)) <$> blocks bf).

Fixpoint words (n : nat) (data : str) : list Z :=
  match n with
  | O => []
  | S n => dec_le (take 8 data) :: words n (drop 8 data)
  end.

Fixpoint read_blocks (n : nat) (data : str) : list (list Z) :=
  match n with
  | O => []
  | S n => words 8 data :: read_blocks n (drop 64 data)
  end.

(** Zero counts are clamped; a short buffer leaves the blocks empty. *)
Definition deserialize (n_blocks n_hashes : Z) (data : str) : BloomFilter :=
  let n_blocks := if n_blocks =? 0 then 1 else n_blocks in
  let n_hashes := if n_hashes =? 0 then 1 else n_hashes in
  let n := Z.to_nat n_blocks in
  mkBloomFilter (if u64 (n_blocks * 64) <=? zlen data then read_blocks n data
                 else replicate n zero_block)
                n_blocks n_hashes.

(** ** The invariant: every access of [insert] and [mayContain] is in range *)

Definition block_ok (b : list Z) : Prop := length b = 8%nat /\ Forall (fun w => 0 <= w < 2 ^ 64) b.

Record wf (bf : BloomFilter) : Prop := {
  wf_num : 0 < num_blocks bf;
  wf_len : zlen (blocks bf) = num_blocks bf;
  wf_blocks : Forall block_ok (blocks bf);
  wf_hashes : 0 < num_hashes bf
}.

Lemma probe_range h1 h2 i : 0 <= probe h1 h2 i < 512.
Proof. apply Z.mod_pos_bound. lia. Qed.

Lemma probes_range bf h1 h2 b : b ∈ probes bf h1 h2 -> 0 <= b < 512.
Proof. intros (i & -> & _)%list_elem_of_fmap. apply probe_range. Qed.

Lemma zero_block_ok : block_ok zero_block.
Proof. split; [done|]. repeat constructor; lia. Qed.

Lemma lor_bit_range w i : 0 <= w < 2 ^ 64 -> 0 <= i < 64 -> 0 <= Z.lor w (Z.shiftl 1 i) < 2 ^ 64.
Proof.
  intros. apply lor_range; [lia|done|]. rewrite Z.shiftl_1_l. split; [lia|].
  apply Z.pow_lt_mono_r; lia.
Qed.

Lemma set_bit_ok b i : block_ok b -> block_ok (set_bit b i).
Proof.
  intros [Hl Hw]. unfold set_bit. split; [by rewrite length_alter|].
  apply Forall_alter; [done|]. intros w _ Hw'.
  apply lor_bit_range; [done|]. apply Z.mod_pos_bound. lia.
Qed.

Lemma set_bits_ok l b : block_ok b -> block_ok (foldl set_bit b l).
Proof. revert b. induction l; intros; simpl; auto using set_bit_ok. Qed.

Lemma create_wf n : wf (create n).
Proof.
  unfold create. set (m := u64 _ / 512).
  assert (0 <= m) by (apply Z.div_pos; [apply wrap_range|]; lia).
  destruct (Z.eqb_spec m 0); split; simpl; try lia; rewrite ?length_replicate; try lia;
    try apply Forall_replicate; try apply zero_block_ok.
  by constructor; [apply zero_block_ok|].
Qed.

Lemma insert_wf k bf : wf bf -> wf (insert k bf).
Proof.
  intros [Hn Hl Hb Hh]. unfold insert. destruct (hash k) as [h1 h2]. split; simpl; try done.
  - by rewrite length_alter.
  - apply Forall_alter; [done|]. intros b _. apply set_bits_ok.
Qed.

(** The block a key selects exists. *)
Lemma block_lookup bf h : wf bf -> exists b, blocks bf !! Z.to_nat (h mod num_blocks bf) = Some b /\ block_ok b.
Proof.
  intros [Hn Hl Hb Hh]. pose proof (Z.mod_pos_bound h (num_blocks bf) Hn).
  destruct (lookup_lt_is_Some_2 (blocks bf) (Z.to_nat (h mod num_blocks bf))) as [b Hb']; [lia|].
  exists b. split; [done|]. by eapply Forall_lookup_1.
Qed.

(** ** Bits *)

Lemma test_bit_spec b i :
  0 <= i < 512 -> test_bit b i = Z.testbit (default 0 (b !! Z.to_nat (i / 64))) (i mod 64).
Proof.
  intros Hi. unfold test_bit. rewrite Z.shiftl_1_l.
  set (w := default 0 _). pose proof (Z.mod_pos_bound i 64 ltac:(lia)).
  destruct (Z.testbit w (i mod 64)) eqn:E.
  - apply bool_decide_eq_true. intros H0. assert (Z.testbit (Z.land w (2 ^ (i mod 64))) (i mod 64) = true) as H1.
    { by rewrite Z.land_spec, E, Z.pow2_bits_true by lia. }
    by rewrite H0, Z.testbit_0_l in H1.
  - apply bool_decide_eq_false. intros H0. apply H0, Z.bits_inj'. intros j Hj.
    rewrite Z.land_spec, Z.testbit_0_l, Z.pow2_bits_eqb by lia.
    destruct (Z.eqb_spec (i mod 64) j) as [<-|]; [by rewrite E|by rewrite andb_false_r].
Qed.

Lemma test_set_bit b i j :
  0 <= i < 512 -> 0 <= j < 512 -> length b = 8%nat ->
  test_bit (set_bit b i) j = (i =? j) || test_bit b j.
Proof.
  intros Hi Hj Hl. rewrite !test_bit_spec by done. unfold set_bit.
  destruct (decide (i / 64 = j / 64)) as [Hw|Hw].
  - rewrite Hw, list_lookup_alter_eq.
    destruct (lookup_lt_is_Some_2 b (Z.to_nat (j / 64))) as [w Hwl].
    { rewrite Hl. assert (j / 64 < 8) by div_lia. assert (0 <= j / 64) by div_lia. lia. }
    rewrite Hwl. simpl. rewrite Z.lor_spec, Z.shiftl_1_l, Z.pow2_bits_eqb
      by (apply Z.mod_pos_bound; lia).
    rewrite orb_comm. f_equal. destruct (Z.eqb_spec (i mod 64) (j mod 64)), (Z.eqb_spec i j); try done.
    + div_lia.
    + congruence.
  - rewrite list_lookup_alter_ne.
    + destruct (Z.eqb_spec i j) as [->|]; [done|]. done.
    + intros H. apply Hw. apply Z2Nat.inj in H; [done|apply Z.div_pos; lia|apply Z.div_pos; lia].
Qed.

Lemma test_set_bits l b j :
  (forall i, i ∈ l -> 0 <= i < 512) -> 0 <= j < 512 -> block_ok b ->
  test_bit (foldl set_bit b l) j = bool_decide (j ∈ l) || test_bit b j.
Proof.
  revert b. induction l as [|i l IH]; intros b Hl Hj Hb; cbn [foldl].
  { by rewrite bool_decide_false by set_solver. }
  rewrite IH by (try apply set_bit_ok; set_solver).
  rewrite test_set_bit by (done || (apply Hl; set_solver) || apply Hb).
  destruct (Z.eqb_spec i j) as [->|Hij]; cbn [orb].
  - rewrite (bool_decide_true (j ∈ j :: l)) by set_solver. by rewrite orb_true_r.
  - f_equal. apply bool_decide_ext. set_solver.
Qed.

Lemma mayContain_spec k bf :
  mayContain k bf = true <->
  forall j, j ∈ probes bf (hash k).1 (hash k).2 ->
    test_bit (default [] (blocks bf !! Z.to_nat ((hash k).1 mod num_blocks bf))) j = true.
Proof.
  unfold mayContain. destruct (hash k) as [h1 h2]. simpl. rewrite forallb_forall.
  setoid_rewrite <- list_elem_of_In. done.
Qed.

Lemma insert_probes k bf h1 h2 : probes (insert k bf) h1 h2 = probes bf h1 h2.
Proof. unfold insert. by destruct (hash k). Qed.

(** A bit once set stays set. *)
Lemma insert_mono k k' bf : wf bf -> mayContain k bf = true -> mayContain k (insert k' bf) = true.
Proof.
  intros Hwf. rewrite !mayContain_spec. setoid_rewrite insert_probes. intros H j Hj.
  specialize (H j Hj). pose proof (probes_range _ _ _ _ Hj).
  unfold insert. destruct (hash k') as [g1 g2] eqn:Hk'. simpl.
  destruct (block_lookup bf (hash k).1 Hwf) as (b & Hb & Hok). rewrite Hb in H.
  destruct (decide (Z.to_nat (g1 mod num_blocks bf) = Z.to_nat ((hash k).1 mod num_blocks bf))) as [->|Hne].
  - rewrite list_lookup_alter_eq, Hb. simpl. rewrite test_set_bits; [|intros ?; apply probes_range|done|done].
    simpl in H. rewrite H. apply orb_true_r.
  - rewrite list_lookup_alter_ne by done. by rewrite Hb.
Qed.

Lemma insert_self k bf : wf bf -> mayContain k (insert k bf) = true.
Proof.
  intros Hwf. apply mayContain_spec. intros j Hj. rewrite insert_probes in Hj.
  pose proof (probes_range _ _ _ _ Hj).
  unfold insert. destruct (hash k) as [h1 h2]. simpl in *. rewrite list_lookup_alter_eq.
  destruct (block_lookup bf h1 Hwf) as (b & -> & Hok). simpl.
  rewrite test_set_bits; [|intros ?; apply probes_range|done|done]. by rewrite bool_decide_true.
Qed.

Definition insert_all (keys : list str) (bf : BloomFilter) : BloomFilter := foldl (fun b k => insert k b) bf keys.

Lemma insert_all_wf keys bf : wf bf -> wf (insert_all keys bf).
Proof. revert bf. induction keys; intros; simpl; auto using insert_wf. Qed.

Lemma insert_all_mono keys k bf : wf bf -> mayContain k bf = true -> mayContain k (insert_all keys bf) = true.
Proof. revert bf. induction keys; intros; simpl; auto using insert_wf, insert_mono. Qed.

Lemma insert_all_contains keys k bf : wf bf -> k ∈ keys -> mayContain k (insert_all keys bf) = true.
Proof.
  revert bf. induction keys as [|k' keys IH]; intros bf Hwf Hk; [set_solver|]. simpl.
  apply elem_of_cons in Hk as [<-|Hk]; [|apply IH; auto using insert_wf].
  apply insert_all_mono; auto using insert_wf, insert_self.
Qed.

(** ** The eight probes of a key are eight bits *)

Lemma hash_odd k : Z.odd (hash k).2 = true.
Proof.
  unfold hash. destruct (foldl _ _ _) as [h1 h2]. simpl.
  by rewrite <- Z.bit0_odd, Z.lor_spec, orb_true_r.
Qed.

Lemma probe_mod h1 h2 i : probe h1 h2 i = (h1 + Z.of_nat i * h2) mod 512.
Proof.
  unfold probe, wrap. rewrite Zplus_mod_idemp_r.
  symmetry. apply Zmod_div_mod; [lia|lia|]. by exists (2 ^ 55).
Qed.

Lemma odd_rel_prime_512 h : Z.odd h = true -> rel_prime 512 h.
Proof.
  intros Ho. assert (rel_prime h 2) as H2.
  { apply rel_prime_sym, prime_rel_prime; [apply prime_2|]. intros H%Z.mod_divide; [|lia].
    by rewrite Zmod_odd, Ho in H. }
  apply rel_prime_sym. change 512 with (2 * (2 * (2 * (2 * (2 * (2 * (2 * (2 * 2)))))))).
  repeat (apply rel_prime_mult; [done|]). done.
Qed.

Lemma probe_inj h1 h2 i j :
  Z.odd h2 = true -> (i < 512)%nat -> (j < 512)%nat -> probe h1 h2 i = probe h1 h2 j -> i = j.
Proof.
  intros Ho Hi Hj. rewrite !probe_mod. intros H.
  assert (((Z.of_nat i - Z.of_nat j) * h2) mod 512 = 0) as Hm.
  { replace ((Z.of_nat i - Z.of_nat j) * h2)
      with ((h1 + Z.of_nat i * h2) - (h1 + Z.of_nat j * h2)) by lia.
    by rewrite Zminus_mod, H, Z.sub_diag. }
  apply Z.mod_divide in Hm; [|lia]. rewrite Z.mul_comm in Hm.
  apply Gauss in Hm; [|by apply odd_rel_prime_512]. destruct Hm as [q Hq]. lia.
Qed.

(** ** Round trip *)

Lemma length_words l : length (mjoin (enc_le 8 <$> l)) = (8 * length l)%nat.
Proof. induction l as [|w l IH]; [done|]. rewrite fmap_cons, mjoin_cons. cbn [length].
  rewrite length_app, length_enc_le, IH. lia. Qed.

Lemma words_enc l rest :
  Forall (fun w => 0 <= w < 2 ^ 64) l -> words (length l) (mjoin (enc_le 8 <$> l) ++ rest) = l.
Proof.
  induction 1 as [|w l Hw _ IH]; [done|]. rewrite fmap_cons, mjoin_cons. cbn [length words].
  rewrite <- app_assoc, take_app_length', drop_app_length', IH by (by rewrite length_enc_le).
  by rewrite dec_enc_le_small.
Qed.

Lemma length_block b : block_ok b -> length (mjoin (enc_le 8 <$> b)) = 64%nat.
Proof. intros [Hl _]. rewrite length_words, Hl. done. Qed.

Lemma length_blocks l :
  Forall block_ok l -> length (mjoin ((fun b => mjoin (enc_le 8 <$> b)) <$> l)) = (64 * length l)%nat.
Proof.
  induction 1 as [|b l Hb _ IH]; [done|]. rewrite fmap_cons, mjoin_cons. cbn [length].
  rewrite length_app, length_block, IH by done. simpl. lia.
Qed.

Lemma length_serialize bf : wf bf -> zlen (serialize bf) = 64 * num_blocks bf.
Proof. intros Hwf. unfold serialize. rewrite length_blocks by apply Hwf. rewrite <- (wf_len _ Hwf). lia. Qed.

Lemma read_blocks_enc l rest :
  Forall block_ok l ->
  read_blocks (length l) (mjoin ((fun b => mjoin (enc_le 8 <$> b)) <$> l) ++ rest) = l.
Proof.
  induction 1 as [|b l Hb _ IH]; [done|]. rewrite fmap_cons, mjoin_cons. cbn [length read_blocks].
  rewrite <- app_assoc, drop_app_length', IH by (by rewrite length_block). f_equal.
  destruct Hb as [Hl Hw]. rewrite <- Hl at 1. by apply words_enc.
Qed.

Lemma deserialize_serialize bf :
  wf bf -> num_blocks bf < 2 ^ 58 ->
  deserialize (num_blocks bf) (num_hashes bf) (serialize bf) = bf.
Proof.
  intros Hwf Hmax. pose proof (length_serialize bf Hwf) as Hlen. destruct Hwf as [Hn Hl Hb Hh].
  unfold deserialize. rewrite (proj2 (Z.eqb_neq _ _)), (proj2 (Z.eqb_neq (num_hashes bf) 0)) by lia.
  rewrite wrap_small, (proj2 (Z.leb_le _ _)) by lia. rewrite <- Hl, Nat2Z.id. unfold serialize.
  pose proof (read_blocks_enc (blocks bf) [] Hb) as Hr. rewrite app_nil_r in Hr. rewrite Hr, Hl.
  by destruct bf.
Qed.

Lemma words_ok n data : length (words n data) = n /\ Forall (fun w => 0 <= w < 2 ^ 64) (words n data).
Proof.
  revert data. induction n as [|n IH]; intros data; [done|]. destruct (IH (drop 8 data)) as [H1 H2].
  split; [simpl; by rewrite H1|]. constructor; [|done].
  pose proof (dec_le_bound (take 8 data)) as [? Hu]. split; [done|].
  eapply Z.lt_le_trans; [exact Hu|]. apply Z.pow_le_mono_r; [lia|]. rewrite length_take. lia.
Qed.

Lemma read_blocks_ok n data : length (read_blocks n data) = n /\ Forall block_ok (read_blocks n data).
Proof.
  revert data. induction n as [|n IH]; intros data; [done|]. destruct (IH (drop 64 data)) as [H1 H2].
  split; [simpl; by rewrite H1|]. constructor; [|done]. apply (words_ok 8 data).
Qed.

Lemma deserialize_wf nb nh data : 0 <= nb -> 0 <= nh -> wf (deserialize nb nh data).
Proof.
  intros Hb Hh. unfold deserialize. destruct (Z.eqb_spec nb 0), (Z.eqb_spec nh 0); split; cbn [num_blocks num_hashes blocks]; try lia.
  all: case_match; rewrite ?(proj1 (read_blocks_ok _ _)), ?length_replicate; try lia.
  all: (apply read_blocks_ok || apply Forall_replicate, zero_block_ok).
Qed.

Lemma create_bound n : num_blocks (create n) < 2 ^ 56.
Proof.
  unfold create. simpl. pose proof (wrap_range 64 (total_bits n + 511) ltac:(lia)).
  destruct (_ =? 0); simpl; div_lia.
Qed.

Lemma insert_all_num keys bf :
  num_blocks (insert_all keys bf) = num_blocks bf /\ num_hashes (insert_all keys bf) = num_hashes bf.
Proof.
  revert bf. induction keys as [|k keys IH]; intros bf; [done|]. simpl.
  destruct (IH (insert k bf)) as [-> ->]. unfold insert. by destruct (hash k).
Qed.

(** ** Properties *)

(** C37: no false negatives, across the disk: a key inserted into a new filter is
    reported as present whatever keys are inserted before and after it, and
    still is in the filter read back from the serialised bytes. *)
Theorem no_false_negatives n keys k :
  k ∈ keys ->
  let bf := insert_all keys (create n) in
  mayContain k bf = true /\
  mayContain k (deserialize (num_blocks bf) (num_hashes bf) (serialize bf)) = true.
Proof.
  intros Hk bf. assert (wf bf) as Hwf by apply insert_all_wf, create_wf.
  assert (num_blocks bf < 2 ^ 58) as Hmax.
  { unfold bf. rewrite (proj1 (insert_all_num keys (create n))). pose proof (create_bound n). lia. }
  rewrite deserialize_serialize by done. split; apply insert_all_contains; auto using create_wf.
Qed.

Lemma no_false_negatives_witness :
  let bf := insert_all [bs "a"; bs "b"] (create 2) in
  mayContain (bs "a") bf = true /\
  mayContain (bs "a") (deserialize (num_blocks bf) (num_hashes bf) (serialize bf)) = true.
Proof. apply (no_false_negatives 2 [bs "a"; bs "b"] (bs "a")). set_solver. Defined.

(** the eight probes of any key in a new filter are eight different bits of
    one block: the forced-odd step never lets them collapse. *)
Theorem probes_distinct n k :
  let ps := probes (create n) (hash k).1 (hash k).2 in
  NoDup ps /\ length ps = 8%nat /\ Forall (fun b => 0 <= b < 512) ps.
Proof.
  intros ps. unfold ps, probes. change (Z.to_nat (num_hashes (create n))) with 8%nat. split_and!.
  - apply NoDup_alt. intros i j b Hi Hj.
    apply list_lookup_fmap_Some in Hi as (x & -> & Hx), Hj as (y & Heq & Hy).
    apply lookup_seq in Hx as [-> ?], Hy as [-> ?].
    by apply probe_inj in Heq; [|apply hash_odd|lia..].
  - done.
  - apply Forall_fmap, Forall_forall. intros i _. apply probe_range.
Qed.

(** C38: whatever counts and bytes a file supplies, the filter built from them is
    well formed: at least one block and one hash, and every access of
    [mayContain] in range. *)
Theorem deserialize_safe nb nh data :
  0 <= nb -> 0 <= nh ->
  let bf := deserialize nb nh data in
  wf bf /\ forall k, exists b, blocks bf !! Z.to_nat ((hash k).1 mod num_blocks bf) = Some b /\
    forall j, j ∈ probes bf (hash k).1 (hash k).2 -> is_Some (b !! Z.to_nat (j / 64)).
Proof.
  intros Hb Hh bf. pose proof (deserialize_wf nb nh data Hb Hh) as Hwf. split; [done|].
  intros k. destruct (block_lookup bf (hash k).1 Hwf) as (b & Hbl & Hok & _). exists b. split; [done|].
  intros j Hj%probes_range. apply lookup_lt_is_Some_2. div_lia.
Qed.

Lemma deserialize_safe_witness :
  wf (deserialize 0 0 (bs "garbage")).
Proof. apply (deserialize_safe 0 0 (bs "garbage")); lia. Defined.

(** The double-precision sizing gives what the C++ program gives. *)
Example sizes : total_bits <$> [1; 2; 3; 10; 100; 1000] = [9; 19; 28; 95; 958; 9585].
Proof. vm_compute. reflexivity. Qed.

End Bloom.
