(* ===== verification/BlockCache.v ===== *)
(** * The block cache

    Models [src/sstable/lru_block_cache.h]: the LRU list, the hash map of
    iterators into it, eviction and invalidation.  A list iterator is the
    identity of a node; following one that is not in the list is undefined
    behaviour ([None]), which the invariant rules out.  Byte counts wrap at 64
    bits. *)

From S2P Require Import Prelude.
Open Scope Z_scope.

Module BlockCache.

(** ** State *)

Abbreviation entry := (list Init.Byte.byte * option (list Init.Byte.byte))%type (only parsing).

(** [CacheKey]: path and block offset. *)
Abbreviation CacheKey := (list Init.Byte.byte * Z)%type (only parsing).

Record Node := mkNode {
  id : nat;
  key : CacheKey;
  value : list entry;
  byte_size : Z
}.

Record t := mkT {
  capacity : Z;
  max_bytes : Z;
  current_bytes : Z;
  lru_list : list Node;
  map_ : gmap CacheKey nat;
  next_id : nat
}.

Definition create (cap max : Z) : t := mkT cap max 0 [] ∅ 0.

(** [globalInstance] *)
Definition global : t := create 1024 (4 * 1024 * 1024).

(** ** Sizes

    Capacities as libstdc++ leaves them for a vector grown by [push_back] and a
    string built from a buffer: the next power of two, and at least 15. *)

Definition vector_capacity (n : Z) : Z := if n =? 0 then 0 else 2 ^ Z.log2_up n.
Definition string_capacity (s : str) : Z := Z.max 15 (zlen s).

Definition sizeof_vector : Z := 24.
Definition sizeof_Entry : Z := 72.

Definition calculateBlockBytes (entries : list entry) : Z :=
  u64 (foldr (fun e a => string_capacity e.1
                 + match e.2 with Some v => string_capacity v | None => 0 end + a)
        (sizeof_vector + vector_capacity (zlen entries) * sizeof_Entry) entries).

(** ** List access by iterator *)

Fixpoint extract (i : nat) (l : list Node) : option (Node * list Node) :=
  match l with
  | [] => None
  | n :: l =>
      if decide (id n = i) then Some (n, l)
      else '(m, l) ← extract i l; Some (m, n :: l)
  end.

(** [evictIfNeeded]: from the back, until both limits hold. *)
Fixpoint evict_loop (fuel : nat) (c : t) : t :=
  match fuel with
  | O => c
  | S fuel =>
      match last (lru_list c) with
      | None => c
      | Some n =>
          if (capacity c <? Z.of_nat (size (map_ c))) || (max_bytes c <? current_bytes c) then
            evict_loop fuel
              (mkT (capacity c) (max_bytes c) (u64 (current_bytes c - byte_size n))
                   (take (length (lru_list c) - 1) (lru_list c)) (delete (key n) (map_ c)) (next_id c))
          else c
      end
  end.

Definition evictIfNeeded (c : t) : t := evict_loop (length (lru_list c)) c.

(** ** Operations *)

Definition get (path : str) (offset : Z) (c : t) : option (option (list entry) * t) :=
  match map_ c !! (path, offset) with
  | None => Some (None, c)
  | Some i =>
      '(n, rest) ← extract i (lru_list c);
      Some (Some (value n),
            mkT (capacity c) (max_bytes c) (current_bytes c) (n :: rest) (map_ c) (next_id c))
  end.

Definition put (path : str) (offset : Z) (entries : list entry) (c : t) : option t :=
  let k := (path, offset) in
  let new_bytes := calculateBlockBytes entries in
  match map_ c !! k with
  | Some i =>
      '(n, rest) ← extract i (lru_list c);
      let bytes := u64 (u64 (current_bytes c - byte_size n) + new_bytes) in
      Some (evictIfNeeded
              (mkT (capacity c) (max_bytes c) bytes
                   (mkNode (id n) (key n) entries new_bytes :: rest) (map_ c) (next_id c)))
  | None =>
      Some (evictIfNeeded
              (mkT (capacity c) (max_bytes c) (u64 (current_bytes c + new_bytes))
                   (mkNode (next_id c) k entries new_bytes :: lru_list c)
                   (<[k := next_id c]> (map_ c)) (S (next_id c))))
  end.

Fixpoint invalidate_loop (path : str) (l : list Node) (bytes : Z) (m : gmap CacheKey nat)
  : list Node * Z * gmap CacheKey nat :=
  match l with
  | [] => ([], bytes, m)
  | n :: l =>
      if (key n).1 =?s path
      then invalidate_loop path l (u64 (bytes - byte_size n)) (delete (key n) m)
      else let '(l, bytes, m) := invalidate_loop path l bytes m in (n :: l, bytes, m)
  end.

Definition invalidatePath (path : str) (c : t) : t :=
  let '(l, bytes, m) := invalidate_loop path (lru_list c) (current_bytes c) (map_ c) in
  mkT (capacity c) (max_bytes c) bytes l m (next_id c).

Definition clear (c : t) : t := mkT (capacity c) (max_bytes c) 0 [] ∅ (next_id c).

(** ** The invariant *)

Definition bytes_of (l : list Node) : Z := foldr (fun n a => byte_size n + a) 0 l.

Record inv (c : t) : Prop := {
  inv_keys : NoDup (key <$> lru_list c);
  inv_ids : NoDup (id <$> lru_list c);
  inv_fresh : Forall (fun n => (id n < next_id c)%nat) (lru_list c);
  inv_map : forall k i, map_ c !! k = Some i <-> exists n, n ∈ lru_list c /\ key n = k /\ id n = i;
  inv_bytes : current_bytes c = u64 (bytes_of (lru_list c));
  inv_sizes : Forall (fun n => byte_size n = calculateBlockBytes (value n)) (lru_list c)
}.

(** ** The abstract LRU cache: keys and blocks, most recently used first *)

Definition contents (c : t) : list (CacheKey * list entry) :=
  (fun n => (key n, value n)) <$> lru_list c.

Definition cost (l : list (CacheKey * list entry)) : Z :=
  foldr (fun e a => calculateBlockBytes e.2 + a) 0 l.

(** The longest prefix within both limits. *)
Fixpoint trim (n : nat) (cap max : Z) (l : list (CacheKey * list entry)) :=
  match n with
  | O => []
  | S n' =>
      if (Z.of_nat n <=? cap) && (u64 (cost (take n l)) <=? max) then take n l
      else trim n' cap max l
  end.

Definition without (k : CacheKey) (l : list (CacheKey * list entry)) :=
  filter (fun e => e.1 <> k) l.
Fixpoint peek (k : CacheKey) (l : list (CacheKey * list entry)) : option (list entry) :=
  match l with
  | [] => None
  | (k', v) :: l => if decide (k' = k) then Some v else peek k l
  end.

(** ** Lemmas *)

Lemma extract_spec i l n rest :
  extract i l = Some (n, rest) ->
  id n = i /\ l ≡ₚ n :: rest /\
  (NoDup (key <$> l) -> ((fun n => (key n, value n)) <$> rest)
     = without (key n) ((fun n => (key n, value n)) <$> l)).
Proof.
  revert n rest. induction l as [|m l IH]; intros n rest; cbn [extract]; [done|].
  case_decide as Hm.
  - intros [= -> ->]. split_and!; [done|done|]. rewrite !fmap_cons. intros [Hni Hnd]%NoDup_cons.
    unfold without. rewrite filter_cons_False by (simpl; tauto).
    symmetry. apply filter_id. intros e (x & -> & Hx)%list_elem_of_fmap. simpl. intros Heq.
    apply Hni. rewrite <- Heq. by apply list_elem_of_fmap_2.
  - destruct (extract i l) as [[m' l']|]; [|done]. cbn [mbind option_bind]. intros [= <- <-].
    destruct (IH m' l' eq_refl) as (Hi & Hp & Hk). split_and!; [done| |].
    + rewrite Hp. apply Permutation_swap.
    + rewrite !fmap_cons. intros [Hni Hnd]%NoDup_cons. unfold without.
      rewrite filter_cons_True; [by rewrite Hk|]. simpl. intros Heq. apply Hni. rewrite Heq.
      apply list_elem_of_fmap_2. rewrite Hp. set_solver.
Qed.

Lemma extract_Some i l n : n ∈ l -> id n = i -> exists m rest, extract i l = Some (m, rest).
Proof.
  induction l as [|m l IH]; [set_solver|]. intros [->|Hin]%elem_of_cons Hi; cbn [extract].
  - rewrite decide_True by done. by eexists _, _.
  - case_decide; [by eexists _, _|]. destruct (IH Hin Hi) as (m' & rest & ->). by eexists _, _.
Qed.

Lemma bytes_of_Permutation l l' : l ≡ₚ l' -> bytes_of l = bytes_of l'.
Proof. induction 1; simpl in *; unfold bytes_of in *; simpl; lia. Qed.

Lemma u64_idem_l a b : u64 (u64 a + b) = u64 (a + b).
Proof. unfold wrap. by rewrite Zplus_mod_idemp_l. Qed.
Lemma u64_sub_idem a b : u64 (u64 a - b) = u64 (a - b).
Proof. unfold wrap. by rewrite Zminus_mod_idemp_l. Qed.

Lemma bytes_of_cost c : inv c -> bytes_of (lru_list c) = cost (contents c).
Proof.
  intros H. pose proof (inv_sizes _ H) as Hs. unfold contents.
  induction Hs as [|n l Hn _ IH]; [done|]. simpl. rewrite Hn. unfold bytes_of in *. simpl. by rewrite IH.
Qed.

Lemma inv_map_size c : inv c -> size (map_ c) = length (lru_list c).
Proof.
  intros H. assert (dom (map_ c) = list_to_set (key <$> lru_list c)) as Hd.
  { apply set_eq. intros k. rewrite elem_of_dom, elem_of_list_to_set, list_elem_of_fmap. split.
    - intros [i (n & Hn & <- & _)%(inv_map _ H)]. by exists n.
    - intros (n & -> & Hn). exists (id n). apply (inv_map _ H). by exists n. }
  rewrite <- size_dom, Hd, size_list_to_set by apply (inv_keys _ H). by rewrite length_fmap.
Qed.

(** The invariant only depends on the nodes up to order. *)
Lemma inv_Permutation c l' :
  inv c -> lru_list c ≡ₚ l' -> inv (mkT (capacity c) (max_bytes c) (current_bytes c) l' (map_ c) (next_id c)).
Proof.
  intros [Hk Hi Hf Hm Hb Hs] Hp. split; simpl.
  - by rewrite <- Hp.
  - by rewrite <- Hp.
  - by rewrite <- Hp.
  - intros k i. rewrite Hm. by setoid_rewrite Hp.
  - by rewrite Hb, (bytes_of_Permutation _ _ Hp).
  - by rewrite <- Hp.
Qed.

Lemma trim_take n m cap max l : (n <= m)%nat -> trim n cap max (take m l) = trim n cap max l.
Proof.
  induction n as [|n IH]; intros Hn; [done|]. cbn [trim].
  rewrite take_take, Nat.min_l, IH by lia. done.
Qed.

Lemma inv_evict_one c l n :
  inv c -> lru_list c = l ++ [n] ->
  inv (mkT (capacity c) (max_bytes c) (u64 (current_bytes c - byte_size n)) l
           (delete (key n) (map_ c)) (next_id c)).
Proof.
  intros [Hk Hi Hf Hm Hb Hs] Hl. rewrite Hl, fmap_app in Hk.
  rewrite Hl, fmap_app in Hi. rewrite Hl in Hf, Hs, Hb.
  apply NoDup_app in Hk as (Hk & Hkd & _). apply NoDup_app in Hi as (Hi & _ & _).
  apply Forall_app in Hf as [Hf _], Hs as [Hs _].
  split; simpl; try done.
  - intros k i. rewrite lookup_delete_Some, Hm, Hl. split.
    + intros [Hne (x & [Hx|Hx%list_elem_of_singleton]%elem_of_app & Hxk & Hxi)]; [by exists x|].
      by subst.
    + intros (x & Hx & Hxk & Hxi). split.
      * intros Heq. apply (Hkd (key x)); [by apply list_elem_of_fmap_2|]. subst. rewrite <- Heq. set_solver.
      * exists x. set_solver.
  - rewrite Hb, u64_sub_idem. f_equal. unfold bytes_of. rewrite foldr_app. simpl.
    clear. induction l as [|x l IH]; simpl; lia.
Qed.

Lemma evict_spec c :
  inv c ->
  inv (evictIfNeeded c) /\
  contents (evictIfNeeded c) = trim (length (lru_list c)) (capacity c) (max_bytes c) (contents c) /\
  capacity (evictIfNeeded c) = capacity c /\ max_bytes (evictIfNeeded c) = max_bytes c.
Proof.
  unfold evictIfNeeded. remember (length (lru_list c)) as n eqn:Hn.
  revert c Hn. induction n as [|n IH]; intros c Hn Hinv.
  { simpl. split_and!; [done| |done..]. unfold contents. by destruct (lru_list c). }
  cbn [evict_loop trim].
  destruct (lru_list c) as [|x l] eqn:Hl using rev_ind; [simpl in Hn; lia|]. clear IHl.
  rewrite last_snoc, length_app in *. simpl in Hn.
  rewrite (inv_map_size _ Hinv), Hl, length_app. cbn [length].
  assert (S n = length (contents c)) as Hc by (unfold contents; rewrite length_fmap, Hl, length_app; simpl; lia).
  replace (length l + 1)%nat with (S n) by lia.
  rewrite (take_ge (contents c)) by lia.
  rewrite <- (bytes_of_cost _ Hinv), <- (inv_bytes _ Hinv).
  rewrite (Z.leb_antisym (capacity c)), (Z.leb_antisym (max_bytes c)), <- negb_orb.
  destruct (_ || _) eqn:E; cbn [negb].
  - replace (S n - 1)%nat with (length l) by lia. rewrite take_app_length.
    destruct (IH (mkT (capacity c) (max_bytes c) (u64 (current_bytes c - byte_size x)) l
                      (delete (key x) (map_ c)) (next_id c))) as (H1 & H2 & H3 & H4);
      [simpl; lia|by apply inv_evict_one|].
    split_and!; [done| |done..]. rewrite H2. cbn [capacity max_bytes].
    rewrite <- (trim_take n n _ _ (contents c)) by lia. f_equal.
    unfold contents. cbn [lru_list]. rewrite Hl, fmap_app, take_app_le by (rewrite length_fmap; lia).
    rewrite take_ge; [done|]. rewrite length_fmap. lia.
  - split_and!; done.
Qed.

Lemma peek_lookup k l : NoDup l.*1 -> forall v, peek k l = Some v <-> (k, v) ∈ l.
Proof.
  induction l as [|[k' w] l IH]; intros Hnd v; simpl; [set_solver|].
  apply NoDup_cons in Hnd as [Hk Hnd]. case_decide as Hd.
  - subst. split; [intros [= ->]; set_solver|]. intros [?|Hin]%elem_of_cons; [congruence|].
    apply (list_elem_of_fmap_2 fst) in Hin. done.
  - rewrite IH by done. set_solver.
Qed.

Lemma contents_keys c : (contents c).*1 = key <$> lru_list c.
Proof. unfold contents. rewrite <- list_fmap_compose. by apply list_fmap_ext. Qed.

(** The iterator the map holds for a key leads to the node with that key. *)
Lemma map_extract c k i :
  inv c -> map_ c !! k = Some i ->
  exists n rest, extract i (lru_list c) = Some (n, rest) /\ key n = k /\ id n = i /\
    lru_list c ≡ₚ n :: rest /\ peek k (contents c) = Some (value n) /\
    ((fun n => (key n, value n)) <$> rest) = without k (contents c).
Proof.
  intros Hinv (x & Hx & Hxk & Hxi)%(inv_map _ Hinv).
  destruct (extract_Some i _ x Hx Hxi) as (n & rest & He). exists n, rest.
  destruct (extract_spec _ _ _ _ He) as (Hi & Hp & Hw).
  assert (n = x) as ->.
  { assert (n ∈ lru_list c) as Hn by (rewrite Hp; set_solver).
    apply list_elem_of_lookup in Hn as [a Ha], Hx as [b Hb].
    assert (a = b) as ->; [|congruence].
    apply (NoDup_lookup (id <$> lru_list c) a b i); [apply (inv_ids _ Hinv)|..];
      rewrite list_lookup_fmap, ?Ha, ?Hb; simpl; congruence. }
  split_and!; try done.
  - apply peek_lookup; [rewrite contents_keys; apply (inv_keys _ Hinv)|].
    unfold contents. rewrite <- Hxk. by apply (list_elem_of_fmap_2 (fun n => (key n, value n))).
  - rewrite <- Hxk. by apply Hw, (inv_keys _ Hinv).
Qed.

Lemma map_None_peek c k : inv c -> map_ c !! k = None -> peek k (contents c) = None /\ without k (contents c) = contents c.
Proof.
  intros Hinv Hk. assert (k ∉ (contents c).*1) as Hni.
  { rewrite contents_keys. intros (n & -> & Hn)%list_elem_of_fmap.
    enough (map_ c !! key n = Some (id n)) by congruence. apply (inv_map _ Hinv). by exists n. }
  split.
  - destruct (peek k (contents c)) eqn:E; [|done].
    apply peek_lookup in E; [|rewrite contents_keys; apply (inv_keys _ Hinv)].
    apply (list_elem_of_fmap_2 fst) in E. done.
  - apply filter_id. intros e He Heq. apply Hni. rewrite <- Heq. by apply list_elem_of_fmap_2.
Qed.

Lemma get_refines path off c :
  inv c ->
  exists c', get path off c = Some (peek (path, off) (contents c), c') /\ inv c' /\
    capacity c' = capacity c /\ max_bytes c' = max_bytes c /\
    contents c' = match peek (path, off) (contents c) with
                  | Some v => ((path, off), v) :: without (path, off) (contents c)
                  | None => contents c
                  end.
Proof.
  intros Hinv. unfold get. destruct (map_ c !! (path, off)) as [i|] eqn:Hm.
  - destruct (map_extract c _ i Hinv Hm) as (n & rest & -> & Hk & Hi & Hp & -> & Hrest).
    cbn [mbind option_bind]. eexists. split; [done|]. split_and!; [by apply inv_Permutation|done..|].
    unfold contents in *. cbn [lru_list]. by rewrite fmap_cons, Hrest, Hk.
  - destruct (map_None_peek c _ Hinv Hm) as [-> _]. by exists c.
Qed.

Lemma inv_overwrite c n rest v :
  inv c -> lru_list c ≡ₚ n :: rest ->
  inv (mkT (capacity c) (max_bytes c)
           (u64 (u64 (current_bytes c - byte_size n) + calculateBlockBytes v))
           (mkNode (id n) (key n) v (calculateBlockBytes v) :: rest) (map_ c) (next_id c)).
Proof.
  intros Hinv Hp. destruct (inv_Permutation c _ Hinv Hp) as [Hk Hi Hf Hm Hb Hs]. simpl in *.
  split; simpl; try done.
  - by apply Forall_cons in Hf as [? ?]; constructor.
  - intros k i. rewrite Hm. split; intros (x & Hx & Hxk & Hxi).
    + apply elem_of_cons in Hx as [->|Hx]; [eexists; split; [apply list_elem_of_here|done]|].
      exists x. set_solver.
    + apply elem_of_cons in Hx as [->|Hx]; [exists n; set_solver|]. exists x. set_solver.
  - rewrite Hb, u64_sub_idem, u64_idem_l. f_equal. unfold bytes_of. simpl. lia.
  - apply Forall_cons in Hs as [? ?]. by constructor.
Qed.

Lemma inv_insert c k v :
  inv c -> map_ c !! k = None ->
  inv (mkT (capacity c) (max_bytes c) (u64 (current_bytes c + calculateBlockBytes v))
           (mkNode (next_id c) k v (calculateBlockBytes v) :: lru_list c)
           (<[k := next_id c]> (map_ c)) (S (next_id c))).
Proof.
  intros Hinv Hnone. destruct (map_None_peek c k Hinv Hnone) as [_ _].
  assert (forall n, n ∈ lru_list c -> key n <> k) as Hfresh.
  { intros n Hn <-. enough (map_ c !! key n = Some (id n)) by congruence. apply (inv_map _ Hinv). by exists n. }
  destruct Hinv as [Hk Hi Hf Hm Hb Hs]. split; simpl.
  - apply NoDup_cons. split; [|done]. intros (n & Hn & Hin)%list_elem_of_fmap. by apply (Hfresh n).
  - apply NoDup_cons. split; [|done]. intros (n & Hn & Hin)%list_elem_of_fmap.
    rewrite Forall_forall in Hf. specialize (Hf n Hin). lia.
  - constructor; [simpl; lia|]. eapply Forall_impl; [exact Hf|]. simpl. intros; lia.
  - intros k' i. rewrite lookup_insert_Some, Hm. split.
    + intros [[<- <-]|[Hne (n & Hn & Hnk & Hni)]].
      * eexists. split; [apply list_elem_of_here|done].
      * exists n. set_solver.
    + intros (n & [->|Hn]%elem_of_cons & Hnk & Hni); simpl in *; [by left|].
      right. split; [|by exists n]. intros ->. by apply (Hfresh n).
  - rewrite Hb, u64_idem_l. f_equal. unfold bytes_of. simpl. lia.
  - by constructor.
Qed.

Lemma put_refines path off v c :
  inv c ->
  exists c', put path off v c = Some c' /\ inv c' /\
    capacity c' = capacity c /\ max_bytes c' = max_bytes c /\
    contents c' = (let l := ((path, off), v) :: without (path, off) (contents c) in
                   trim (length l) (capacity c) (max_bytes c) l).
Proof.
  intros Hinv. unfold put. destruct (map_ c !! (path, off)) as [i|] eqn:Hm.
  - destruct (map_extract c _ i Hinv Hm) as (n & rest & -> & Hk & Hi & Hp & _ & Hrest).
    cbn [mbind option_bind]. eexists. split; [done|].
    destruct (evict_spec _ (inv_overwrite c n rest v Hinv Hp)) as (H1 & H2 & H3 & H4).
    split_and!; [done..|]. rewrite H2. cbn [capacity max_bytes lru_list length]. rewrite <- Hrest, length_fmap.
    unfold contents. cbn [lru_list]. rewrite fmap_cons. simpl. by rewrite Hk.
  - destruct (map_None_peek c _ Hinv Hm) as [_ ->].
    eexists. split; [done|].
    destruct (evict_spec _ (inv_insert c (path, off) v Hinv Hm)) as (H1 & H2 & H3 & H4).
    split_and!; [done..|]. rewrite H2. cbn [capacity max_bytes lru_list length].
    unfold contents. by rewrite length_fmap.
Qed.

(** Invalidation walks the list once. *)
Lemma invalidate_loop_spec path l bytes m :
  let '(l', bytes', m') := invalidate_loop path l (u64 bytes) m in
  l' = filter (fun n => (key n).1 <> path) l /\
  bytes' = u64 (bytes - bytes_of l + bytes_of l') /\
  (forall k, m' !! k = if decide (k.1 = path /\ k ∈ key <$> l) then None else m !! k).
Proof.
  revert bytes m. induction l as [|n l IH]; intros bytes m; cbn [invalidate_loop].
  { split_and!; [done|f_equal; unfold bytes_of; simpl; lia|]. intros k.
    rewrite decide_False by set_solver. done. }
  unfold str_eqb. case_bool_decide as Hp.
  - rewrite u64_sub_idem. specialize (IH (bytes - byte_size n) (delete (key n) m)).
    destruct (invalidate_loop _ _ _ _) as [[l' b'] m']. destruct IH as (-> & -> & Hm).
    split_and!.
    + by rewrite filter_cons_False by tauto.
    + f_equal. unfold bytes_of. simpl. lia.
    + intros k. rewrite Hm. destruct (decide (key n = k)) as [<-|Hne].
      * rewrite lookup_delete_eq, (decide_True (P := _ /\ key n ∈ key <$> n :: l)) by set_solver.
        by case_decide.
      * rewrite lookup_delete_ne by done. apply decide_ext. set_solver.
  - specialize (IH bytes m). destruct (invalidate_loop _ _ _ _) as [[l' b'] m']. destruct IH as (-> & -> & Hm).
    split_and!.
    + by rewrite filter_cons_True.
    + f_equal. unfold bytes_of. simpl. lia.
    + intros k. rewrite Hm. apply decide_ext. set_solver.
Qed.

Lemma invalidate_refines path c :
  inv c ->
  inv (invalidatePath path c) /\
  contents (invalidatePath path c) = filter (fun e => e.1.1 <> path) (contents c) /\
  capacity (invalidatePath path c) = capacity c /\ max_bytes (invalidatePath path c) = max_bytes c.
Proof.
  intros Hinv. unfold invalidatePath. rewrite (inv_bytes _ Hinv).
  pose proof (invalidate_loop_spec path (lru_list c) (bytes_of (lru_list c)) (map_ c)) as H.
  destruct (invalidate_loop _ _ _ _) as [[l' b'] m']. destruct H as (-> & -> & Hm).
  destruct Hinv as [Hk Hi Hf Hmap Hb Hs]. split; [|split; [|done]].
  - split; simpl.
    + eapply sublist_NoDup; [exact Hk|]. apply fmap_sublist, sublist_filter.
    + eapply sublist_NoDup; [exact Hi|]. apply fmap_sublist, sublist_filter.
    + rewrite Forall_forall in *. intros n [_ Hn]%list_elem_of_filter. auto.
    + intros k i. rewrite Hm. split.
      * case_decide as Hd; [done|]. intros (n & Hn & Hnk & Hni)%Hmap. exists n.
        rewrite list_elem_of_filter. split_and!; try done. intros Hp. apply Hd. subst k.
        split; [done|by apply list_elem_of_fmap_2].
      * intros (n & [Hp Hn]%list_elem_of_filter & Hnk & Hni). rewrite decide_False.
        -- apply Hmap. by exists n.
        -- intros [Hp' _]. congruence.
    + f_equal. lia.
    + rewrite Forall_forall in *. intros n [_ Hn]%list_elem_of_filter. auto.
  - unfold contents. cbn [lru_list]. clear. induction (lru_list c) as [|n l IH]; [done|].
    rewrite fmap_cons, !filter_cons.
    repeat case_decide; rewrite ?fmap_cons, ?IH; simpl in *; (done || tauto).
Qed.

Lemma empty_inv cap max nid : inv (mkT cap max 0 [] ∅ nid).
Proof.
  split; simpl; [constructor..| |done|constructor]. intros k i. rewrite lookup_empty.
  split; [done|]. intros (n & Hn & _). set_solver.
Qed.

Lemma create_inv cap max : inv (create cap max).
Proof. apply empty_inv. Qed.

(** What a trimmed list keeps is a prefix, within both limits. *)
Lemma trim_prefix n cap max l : exists m, (m <= n)%nat /\ trim n cap max l = take m l.
Proof.
  induction n as [|n IH]; [by exists 0%nat|]. cbn [trim]. case_match; [by exists (S n)|].
  destruct IH as (m & ? & ->). exists m. split; [lia|done].
Qed.

Lemma trim_limits n cap max l :
  0 <= cap -> 0 <= max -> zlen (trim n cap max l) <= cap /\ u64 (cost (trim n cap max l)) <= max.
Proof.
  intros Hc Hm. induction n as [|n IH]; [done|]. cbn [trim]. case_match eqn:E; [|done].
  apply andb_true_iff in E as [E1%Z.leb_le E2%Z.leb_le]. split; [|done]. rewrite length_take. lia.
Qed.

Lemma peek_take k m l v : peek k (take m l) = Some v -> peek k l = Some v.
Proof.
  revert m. induction l as [|[k' w] l IH]; intros [|m]; simpl; try done. case_decide; [done|apply IH].
Qed.

Lemma peek_without k k' l : peek k (without k' l) = if decide (k = k') then None else peek k l.
Proof.
  induction l as [|[k0 w] l IH]; [by case_decide|]. unfold without. rewrite filter_cons. simpl.
  repeat case_decide; simpl; repeat case_decide; subst; try done; try tauto.
Qed.

Lemma peek_filter k (P : CacheKey * list entry -> Prop) `{!forall e, Decision (P e)} l v :
  peek k (filter P l) = Some v -> exists e, e ∈ l /\ e = (k, v) /\ P e.
Proof.
  induction l as [|[k0 w] l IH]; [done|]. rewrite filter_cons. case_decide; simpl.
  - case_decide; [intros [= ->]; subst; eexists; split; [apply list_elem_of_here|done]|].
    intros (e & ? & ? & ?)%IH. exists e. set_solver.
  - intros (e & ? & ? & ?)%IH. exists e. set_solver.
Qed.

(** ** Properties *)

(** The cache implements the abstract LRU cache. *)
Definition refines (c : t) (cap max : Z) (l : list (CacheKey * list entry)) : Prop :=
  inv c /\ contents c = l /\ capacity c = cap /\ max_bytes c = max.

(** C33: the hash map, the LRU list and the byte counter together implement an
    LRU cache: [get] returns the cached block and moves it to the front, [put]
    replaces or adds the block at the front and then drops blocks from the back
    until both limits hold, [invalidatePath] drops exactly the blocks of a path,
    and no operation follows a stale iterator. *)
Theorem lru_refinement c cap max l path off v :
  refines c cap max l ->
  (exists c', get path off c = Some (peek (path, off) l, c') /\
     refines c' cap max (match peek (path, off) l with
                         | Some w => ((path, off), w) :: without (path, off) l
                         | None => l
                         end)) /\
  (exists c', put path off v c = Some c' /\
     refines c' cap max (let l' := ((path, off), v) :: without (path, off) l in
                         trim (length l') cap max l')) /\
  refines (invalidatePath path c) cap max (filter (fun e => e.1.1 <> path) l) /\
  refines (clear c) cap max [].
Proof.
  intros (Hinv & <- & <- & <-). split_and!.
  - destruct (get_refines path off c Hinv) as (c' & -> & ? & ? & ? & ?). by exists c'.
  - destruct (put_refines path off v c Hinv) as (c' & -> & ? & ? & ? & ?). by exists c'.
  - destruct (invalidate_refines path c Hinv) as (? & ? & ? & ?). by split.
  - split; [apply empty_inv|done].
Qed.

Lemma lru_refinement_witness :
  refines (create 2 100000) 2 100000 [] /\
  exists c', put (bs "p") 0 [] (create 2 100000) = Some c' /\
    refines c' 2 100000 [((bs "p", 0), [])].
Proof.
  assert (refines (create 2 100000) 2 100000 []) as H by (split; [apply create_inv|done]).
  split; [exact H|]. exact (proj1 (proj2 (lru_refinement _ _ _ _ (bs "p") 0 [] H))).
Defined.

(** the cache never serves a wrong block: after [put] a lookup gives the
    block just put under its key, or what was cached before under another key,
    or a miss; after [put] both limits hold. *)
Theorem put_coherent c path off v k w :
  inv c -> 0 <= capacity c -> 0 <= max_bytes c ->
  exists c', put path off v c = Some c' /\ inv c' /\
    (peek k (contents c') = Some w ->
       if decide (k = (path, off)) then w = v else peek k (contents c) = Some w) /\
    zlen (contents c') <= capacity c /\ current_bytes c' <= max_bytes c.
Proof.
  intros Hinv Hc Hm. destruct (put_refines path off v c Hinv) as (c' & Hput & Hinv' & Ec & Em & Hl).
  exists c'. split_and!; [done|done| | |].
  - rewrite Hl. cbv zeta. destruct (trim_prefix (length (((path, off), v) :: without (path, off) (contents c)))
      (capacity c) (max_bytes c) (((path, off), v) :: without (path, off) (contents c))) as (m & _ & ->).
    intros H%peek_take. simpl in H. case_decide as Hk.
    + subst. case_decide; [congruence|done].
    + rewrite decide_False by done. rewrite peek_without in H. by case_decide.
  - rewrite Hl. by apply trim_limits.
  - rewrite (inv_bytes _ Hinv'), (bytes_of_cost _ Hinv'), Hl. by apply trim_limits.
Qed.

Lemma put_coherent_witness :
  exists c', put (bs "p") 0 [] (create 2 100000) = Some c' /\ inv c' /\
    (peek (bs "p", 0) (contents c') = Some [] -> @nil entry = []) /\
    zlen (contents c') <= 2 /\ current_bytes c' <= 100000.
Proof.
  destruct (put_coherent (create 2 100000) (bs "p") 0 [] (bs "p", 0) []) as (c' & H1 & H2 & H3 & H4 & H5);
    [apply create_inv|discriminate|discriminate|].
  exists c'. split; [exact H1|]. split; [exact H2|]. split; [reflexivity|]. split; [exact H4|exact H5].
Defined.

End BlockCache.
