(* ===== verification/World.v ===== *)
(** * The process and its files

    What the storage code acts on: files by path, the outcomes of the system
    calls it will make, the process-wide block cache and the fault registry.
    Stateful code is written in the monad [M] of functions from a world to a
    result and the next world; an exception or a crash keeps the world it left.

    Files persist across a crash as the page cache does across a [SIGKILL]:
    [fsync] has no other effect here than that it may fail.  A descriptor or
    stream holds the content its file had when it was opened; no file is written
    in place while it is read. *)

From S2P Require Import Prelude BlockCache Fault.
Open Scope Z_scope.

(** ** State *)

(** The outcome of a system call that may fail.  A failing write leaves a prefix
    of the given length; a failing [pread] returns that many bytes. *)
Inductive outcome : Set :=
  | Success
  | Failure
  | Partial (n : nat).

Record world := mkWorld {
  files : gmap str str;
  io : list outcome;            (* of the next calls; afterwards all succeed *)
  cache : BlockCache.t;
  faults : Fault.state
}.

Definition set_files (m : gmap str str) (w : world) : world := mkWorld m (io w) (cache w) (faults w).
Definition set_io (l : list outcome) (w : world) : world := mkWorld (files w) l (cache w) (faults w).
Definition set_cache (c : BlockCache.t) (w : world) : world := mkWorld (files w) (io w) c (faults w).
Definition set_faults (f : Fault.state) (w : world) : world := mkWorld (files w) (io w) (cache w) f.

(** ** The monad *)

Definition M (A : Type) : Type := world -> result A * world.

#[export] Instance M_ret : MRet M := fun A a w => (Ok a, w).
#[export] Instance M_bind : MBind M := fun A B f m w =>
  match m w with
  | (Ok a, w) => f a w
  | (Throw e, w) => (Throw e, w)
  | (Crashed, w) => (Crashed, w)
  | (Undefined, w) => (Undefined, w)
  end.

Definition throw {A} (e : exn) : M A := fun w => (Throw e, w).
Definition undefined {A} : M A := fun w => (Undefined, w).
Definition of_result {A} (r : result A) : M A := fun w => (r, w).
Definition of_option {A} (o : option A) : M A :=
  match o with Some a => mret a | None => undefined end.

(** [try { m } catch (...) { h }] *)
Definition try_catch {A} (m : M A) (h : exn -> M A) : M A := fun w =>
  match m w with
  | (Throw e, w) => h e w
  | r => r
  end.

Definition gets {A} (f : world -> A) : M A := fun w => (Ok (f w), w).
Definition modify (f : world -> world) : M unit := fun w => (Ok tt, f w).

(** ** Fault points *)

Definition with_faults {A} (f : Fault.state -> result A * Fault.state) : M A := fun w =>
  let '(r, st) := f (faults w) in (r, set_faults st w).
Definition hit (p : string) : M unit := with_faults (Fault.hit p).
Definition crashPoint (p : string) : M unit := with_faults (Fault.crashPoint p).

(** ** System calls *)

Definition next_outcome : M outcome := fun w =>
  match io w with
  | [] => (Ok Success, w)
  | o :: l => (Ok o, set_io l w)
  end.

Definition is_success (o : outcome) : bool := match o with Success => true | _ => false end.

(** A call with no effect but that it may fail: [fsync], [close], opening a
    directory. *)
Definition call : M bool := o ← next_outcome; mret (is_success o).

(** Opening for reading: the content, unless the file is missing or the call
    fails. *)
Definition open_read (path : str) : M (option str) :=
  ok ← call;
  c ← gets (fun w => files w !! path);
  mret (if (ok : bool) then c else None).

(** [std::ofstream] with [trunc]. *)
Definition open_trunc (path : str) : M bool :=
  ok ← call;
  if (ok : bool) then modify (fun w => set_files (<[path := []]> (files w)) w) ;; mret true
  else mret false.

(** Flushing the bytes written to a stream: whether the stream is good after. *)
Definition flush_to (path data : str) : M bool :=
  o ← next_outcome;
  match o with
  | Success => modify (fun w => set_files (<[path := data]> (files w)) w) ;; mret true
  | Failure => mret false
  | Partial n => modify (fun w => set_files (<[path := take n data]> (files w)) w) ;; mret false
  end.

(** [filesystem::remove] with an [error_code]: whether it reported an error. *)
Definition remove (path : str) : M bool :=
  ok ← call;
  if (ok : bool) then modify (fun w => set_files (delete path (files w)) w) ;; mret false
  else mret true.

(** [filesystem::rename] with an [error_code]: whether it succeeded. *)
Definition rename (from to : str) : M bool :=
  ok ← call;
  c ← gets (fun w => files w !! from);
  match c, ok with
  | Some c, true => modify (fun w => set_files (<[to := c]> (delete from (files w))) w) ;; mret true
  | _, _ => mret false
  end.

(** ** Reasoning about a run

    [wp m Q w]: running [m] from [w] ends with a result and a world in [Q].
    Each rule for a call also says that it succeeds when no failure is pending. *)

Definition wp {A} (m : M A) (Q : result A -> world -> Prop) (w : world) : Prop := Q (m w).1 (m w).2.

(** What follows a step: the next step on a value, the end otherwise. *)
Definition after {A B} (f : A -> M B) (Q : result B -> world -> Prop) (r : result A) (w : world) : Prop :=
  match r with
  | Ok a => wp (f a) Q w
  | Throw e => Q (Throw e) w
  | Crashed => Q Crashed w
  | Undefined => Q Undefined w
  end.

Lemma wp_ret {A} (a : A) Q w : Q (Ok a) w -> wp (mret a) Q w.
Proof. done. Qed.

Lemma wp_bind {A B} (m : M A) (f : A -> M B) Q w : wp m (after f Q) w -> wp (m ≫= f) Q w.
Proof. unfold wp, mbind, M_bind. by destruct (m w) as [[a|e| |] w1]. Qed.

Lemma wp_mono {A} (m : M A) (P Q : result A -> world -> Prop) w :
  wp m P w -> (forall r w', P r w' -> Q r w') -> wp m Q w.
Proof. unfold wp. auto. Qed.

Lemma wp_throw {A} e (Q : result A -> world -> Prop) w : Q (Throw e) w -> wp (throw e) Q w.
Proof. done. Qed.

Lemma wp_of_result {A} (r : result A) Q w : Q r w -> wp (of_result r) Q w.
Proof. done. Qed.

Lemma wp_of_option {A} (a : A) Q w : Q (Ok a) w -> wp (of_option (Some a)) Q w.
Proof. done. Qed.

Lemma wp_gets {A} (f : world -> A) Q w : Q (Ok (f w)) w -> wp (gets f) Q w.
Proof. done. Qed.

Lemma wp_modify (f : world -> world) Q w : Q (Ok tt) (f w) -> wp (modify f) Q w.
Proof. done. Qed.

Lemma wp_try {A} (m : M A) h Q w :
  wp m (fun r w' => match r with Throw e => wp (h e) Q w' | r => Q r w' end) w -> wp (try_catch m h) Q w.
Proof. unfold wp, try_catch. by destruct (m w) as [[a|e| |] w1]. Qed.

Lemma wp_next_outcome Q w :
  (forall o l, (io w = [] -> o = Success /\ l = []) -> Q (Ok o) (set_io l w)) -> wp next_outcome Q w.
Proof.
  intros H. unfold wp, next_outcome. destruct w as [f io c fl]. simpl in *. destruct io as [|o l]; simpl.
  - by apply (H Success []).
  - by apply (H o l).
Qed.

Lemma wp_call Q w :
  (forall b l, (io w = [] -> b = true /\ l = []) -> Q (Ok b) (set_io l w)) -> wp call Q w.
Proof.
  intros H. apply wp_bind, wp_next_outcome. intros o l Ho. apply wp_ret, H.
  intros Hio. by destruct (Ho Hio) as [-> ->].
Qed.

Lemma wp_open_read path Q w :
  (forall o l, (o = None \/ o = files w !! path) -> (io w = [] -> o = files w !! path /\ l = []) ->
     Q (Ok o) (set_io l w)) -> wp (open_read path) Q w.
Proof.
  intros H. apply wp_bind, wp_call. intros b l Hb. apply wp_bind, wp_gets, wp_ret. cbn [files set_io].
  destruct b; apply H; auto; intros Hio; destruct (Hb Hio); done.
Qed.

Lemma wp_open_trunc path Q w :
  (forall l, (io w = [] -> l = []) -> Q (Ok true) (set_files (<[path := []]> (files w)) (set_io l w))) ->
  (forall l, io w <> [] -> Q (Ok false) (set_io l w)) -> wp (open_trunc path) Q w.
Proof.
  intros Ht Hf. apply wp_bind, wp_call. intros [] l Hb; cbn [after].
  - apply wp_bind, wp_modify, wp_ret, Ht. intros Hio. by destruct (Hb Hio).
  - apply wp_ret, Hf. intros Hio. by destruct (Hb Hio).
Qed.

(** A failed flush leaves the file as it was, or with a part of the data. *)
Lemma wp_flush_to path data Q w :
  (forall l, (io w = [] -> l = []) -> Q (Ok true) (set_files (<[path := data]> (files w)) (set_io l w))) ->
  (forall l, io w <> [] -> Q (Ok false) (set_io l w)) ->
  (forall l c, io w <> [] -> Q (Ok false) (set_files (<[path := c]> (files w)) (set_io l w))) ->
  wp (flush_to path data) Q w.
Proof.
  intros Ht Hf Hp. apply wp_bind, wp_next_outcome. intros [| |n] l Hb; cbn [after].
  - apply wp_bind, wp_modify, wp_ret, Ht. intros Hio. by destruct (Hb Hio).
  - apply wp_ret, Hf. intros Hio. by destruct (Hb Hio).
  - apply wp_bind, wp_modify, wp_ret, Hp. intros Hio. by destruct (Hb Hio).
Qed.

Lemma wp_remove path Q w :
  (forall l, (io w = [] -> l = []) -> Q (Ok false) (set_files (delete path (files w)) (set_io l w))) ->
  (forall l, io w <> [] -> Q (Ok true) (set_io l w)) -> wp (remove path) Q w.
Proof.
  intros Ht Hf. apply wp_bind, wp_call. intros [] l Hb; cbn [after].
  - apply wp_bind, wp_modify, wp_ret, Ht. intros Hio. by destruct (Hb Hio).
  - apply wp_ret, Hf. intros Hio. by destruct (Hb Hio).
Qed.

Lemma wp_rename from to c Q w :
  files w !! from = Some c ->
  (forall l, (io w = [] -> l = []) ->
     Q (Ok true) (set_files (<[to := c]> (delete from (files w))) (set_io l w))) ->
  (forall l, io w <> [] -> Q (Ok false) (set_io l w)) -> wp (rename from to) Q w.
Proof.
  intros Hc Ht Hf. apply wp_bind, wp_call. intros b l Hb. apply wp_bind, wp_gets. cbn [files set_io after].
  rewrite Hc. destruct b.
  - apply wp_bind, wp_modify, wp_ret, Ht. intros Hio. by destruct (Hb Hio).
  - apply wp_ret, Hf. intros Hio. by destruct (Hb Hio).
Qed.

(** A step that does nothing but use up outcomes. *)
Definition only_io (w w' : world) : Prop := exists l, (io w = [] -> l = []) /\ w' = set_io l w.

#[export] Instance only_io_po : PreOrder only_io.
Proof.
  split; [intros w; exists (io w); by destruct w|]. intros w1 w2 w3 (l2 & H2 & ->) (l3 & H3 & ->). exists l3.
  split; [|done]. intros Hio. by apply H3, H2.
Qed.

Lemma only_io_set w l : (io w = [] -> l = []) -> only_io w (set_io l w).
Proof. intros H. by exists l. Qed.

(** A call whose outcome is ignored. *)
Lemma wp_ignored_call {B} (k : bool -> M B) Q w :
  (forall b w', only_io w w' -> wp (k b) Q w') -> wp (b ← call; k b) Q w.
Proof.
  intros Hk. apply wp_bind, wp_call. intros b l Hb. cbn [after]. apply Hk, only_io_set.
  intros Hio. by destruct (Hb Hio).
Qed.

(** A fault point does nothing while nothing is armed. *)
Lemma wp_with_faults {A} (f : Fault.state -> result A * Fault.state) Q w :
  Q (f (faults w)).1 (set_faults (f (faults w)).2 w) -> wp (with_faults f) Q w.
Proof. unfold wp, with_faults. by destruct (f (faults w)). Qed.

(** ** Runs without failing calls *)

Lemma bind_ok {A B} (m : M A) (f : A -> M B) w a w' : m w = (Ok a, w') -> (m ≫= f) w = f a w'.
Proof. intros H. unfold mbind, M_bind. by rewrite H. Qed.

Section quiet.
Context (w : world) (Hq : io w = []).

Lemma call_quiet : call w = (Ok true, w).
Proof. unfold call, next_outcome, mbind, M_bind. by rewrite Hq. Qed.

Lemma open_read_quiet p : open_read p w = (Ok (files w !! p), w).
Proof. unfold open_read. by rewrite (bind_ok _ _ _ _ _ call_quiet). Qed.

Lemma remove_quiet p : remove p w = (Ok false, set_files (delete p (files w)) w).
Proof. unfold remove. by rewrite (bind_ok _ _ _ _ _ call_quiet). Qed.

Lemma rename_quiet a b c :
  files w !! a = Some c -> rename a b w = (Ok true, set_files (<[b := c]> (delete a (files w))) w).
Proof.
  intros Hc. unfold rename. rewrite (bind_ok _ _ _ _ _ call_quiet).
  rewrite (bind_ok (gets _) _ w (Some c) w) by (unfold gets; by rewrite Hc). done.
Qed.
End quiet.
