(* ===== verification/Names.v ===== *)
(** * File names

    Table names as [LSMEngine::sstPath] and [LeveledCompactor::makeSSTPath]
    build them and as [loadSSTables] and [LeveledCompactor::run] read them back,
    with what they use of [std::filesystem::path], [std::stoi] and stream
    formatting. *)

From S2P Require Import Prelude.
Open Scope Z_scope.

Module Names.

(** ** Characters *)

Definition dash : byte := "-"%byte.
Definition dot : byte := "."%byte.
Definition slash : byte := "/"%byte.

Definition is_digit (b : byte) : bool := (48 <=? byte_Z b) && (byte_Z b <=? 57).
Definition is_space (b : byte) : bool := bool_decide (byte_Z b ∈ [32; 9; 10; 11; 12; 13]).
Definition digit_value (b : byte) : Z := byte_Z b - 48.
Definition digit (z : Z) : byte := Z_byte (48 + z).

(** ** Numbers *)

Definition INT_MAX : Z := 2 ^ 31 - 1.

Fixpoint dec_loop (fuel : nat) (z : Z) (acc : str) : str :=
  match fuel with
  | O => acc
  | S fuel => if z <? 10 then digit z :: acc else dec_loop fuel (z / 10) (digit (z mod 10) :: acc)
  end.

(** [oss << z] for [z >= 0]. *)
Definition decimal (z : Z) : str := dec_loop (S (Z.to_nat (Z.log2 z))) z [].

(** [std::setw(n) << std::setfill('0')] *)
Definition setw (n : nat) (s : str) : str := replicate (n - length s) "0"%byte ++ s.

Definition digits_value (s : str) : Z := foldl (fun a b => 10 * a + digit_value b) 0 s.

Fixpoint leading_digits (s : str) : str :=
  match s with
  | b :: s => if is_digit b then b :: leading_digits s else []
  | [] => []
  end.

Fixpoint skip_space (s : str) : str :=
  match s with
  | b :: s' => if is_space b then skip_space s' else s
  | [] => []
  end.

(** [std::stoi]: [None] when it throws. *)
Definition stoi (s : str) : option Z :=
  let s := skip_space s in
  let '(neg, s) := match s with
                   | b :: s' => if (b =? "-")%byte then (true, s')
                                else if (b =? "+")%byte then (false, s') else (false, s)
                   | [] => (false, [])
                   end in
  let ds := leading_digits s in
  match ds with
  | [] => None
  | _ => let v := if (neg : bool) then - digits_value ds else digits_value ds in
         if (- 2 ^ 31 <=? v) && (v <=? INT_MAX) then Some v else None
  end.

(** ** [std::filesystem::path] and [std::string] *)

Fixpoint split_first (c : byte) (s : str) : option (str * str) :=
  match s with
  | [] => None
  | b :: s => if (b =? c)%byte then Some ([], s)
              else '(x, y) ← split_first c s; Some (b :: x, y)
  end.

Fixpoint split_last (c : byte) (s : str) : option (str * str) :=
  match s with
  | [] => None
  | b :: s =>
      match split_last c s with
      | Some (x, y) => Some (b :: x, y)
      | None => if (b =? c)%byte then Some ([], s) else None
      end
  end.

Fixpoint has_prefix (p s : str) : bool :=
  match p, s with
  | [], _ => true
  | a :: p, b :: s => (a =? b)%byte && has_prefix p s
  | _ :: _, [] => false
  end.

Definition filename (p : str) : str :=
  match split_last slash p with Some (_, f) => f | None => p end.

(** [stem()] and [extension()] of a file name. *)
Definition split_ext (f : str) : str * str :=
  if bool_decide (f = [dot; dot]) then (f, [])
  else match split_last dot f with
       | Some ([], _) | None => (f, [])
       | Some (a, b) => (a, dot :: b)
       end.
Definition stem (p : str) : str := (split_ext (filename p)).1.
Definition extension (p : str) : str := (split_ext (filename p)).2.

Definition parent_path (p : str) : str :=
  match split_last slash p with Some (d, _) => d | None => [] end.

(** ** Table names *)

Definition sst_stem (level counter : Z) : str :=
  bs "sst-" ++ decimal level ++ [dash] ++ setw 6 (decimal counter).

(** [makeSSTPath], [sstPath] *)
Definition sstPath (data_dir : str) (level counter : Z) : str :=
  data_dir ++ [slash] ++ sst_stem level counter ++ bs ".sst".

Definition tmp_of (path : str) : str := path ++ bs ".tmp".

Definition allDigits (s : str) : bool := bool_decide (s <> []) && forallb is_digit s.

(** The level and counter [loadSSTables] reads from a file, when it accepts it. *)
Definition parse_name (path : str) : option (Z * Z) :=
  if bool_decide (extension path = bs ".sst") && has_prefix (bs "sst-") (stem path) then
    '(level_str, counter_str) ← split_first dash (drop 4 (stem path));
    if allDigits level_str && allDigits counter_str then
      let level := digits_value level_str in
      let counter := digits_value counter_str in
      if (level <=? INT_MAX) && (counter <=? INT_MAX) then Some (level, counter) else None
    else None
  else None.

(** The files of a directory, in the order the map lists them. *)
Definition in_dir (dir path : str) : bool :=
  bool_decide (parent_path path = dir) && bool_decide (slash ∈ path).

(** ** Lemmas *)

Lemma byte_eqb_spec (a b : byte) : (a =? b)%byte = bool_decide (a = b).
Proof.
  case_bool_decide as H; [subst; by apply Byte.byte_dec_lb|].
  destruct (a =? b)%byte eqn:E; [|done]. by apply Byte.byte_dec_bl in E.
Qed.

Lemma split_last_None c s : c ∉ s -> split_last c s = None.
Proof.
  induction s as [|b s IH]; [done|]. intros [Hb Hs]%not_elem_of_cons. simpl. rewrite IH by done.
  rewrite byte_eqb_spec. by rewrite bool_decide_false.
Qed.

Lemma split_last_app c a b : c ∉ b -> split_last c (a ++ c :: b) = Some (a, b).
Proof.
  intros Hb. induction a as [|x a IH]; simpl.
  - rewrite split_last_None by done. by rewrite byte_eqb_spec, bool_decide_true.
  - by rewrite IH.
Qed.

Lemma split_first_app c a b : c ∉ a -> split_first c (a ++ c :: b) = Some (a, b).
Proof.
  induction a as [|x a IH]; intros Ha; simpl.
  - by rewrite byte_eqb_spec, bool_decide_true.
  - apply not_elem_of_cons in Ha as [Hx Ha]. rewrite byte_eqb_spec, bool_decide_false by done.
    by rewrite IH.
Qed.

Lemma has_prefix_app p s : has_prefix p (p ++ s) = true.
Proof. induction p; simpl; [done|]. by rewrite byte_eqb_spec, bool_decide_true. Qed.

Lemma has_prefix_spec p s : has_prefix p s = true <-> exists t, s = p ++ t.
Proof.
  split.
  - revert s. induction p as [|a p IH]; intros s; simpl; [by exists s|]. destruct s as [|b s]; [done|].
    rewrite byte_eqb_spec. intros [->%bool_decide_eq_true (t & ->)%IH]%andb_true_iff. by exists t.
  - intros [t ->]. apply has_prefix_app.
Qed.

Lemma digit_range z : 0 <= z < 10 -> byte_Z (digit z) = 48 + z.
Proof. intros. unfold digit. rewrite Z_byte_Z, Z.mod_small by lia. done. Qed.

Lemma digit_is_digit z : 0 <= z < 10 -> is_digit (digit z) = true.
Proof. intros. unfold is_digit. rewrite digit_range by done. apply andb_true_iff. lia. Qed.

Lemma not_digit b s : is_digit b = false -> forallb is_digit s = true -> b ∉ s.
Proof. intros Hb Hs Hin. rewrite forallb_forall in Hs. rewrite Hs in Hb; [done|by apply list_elem_of_In]. Qed.

Lemma digits_value_app s t : digits_value (s ++ t) = digits_value s * 10 ^ zlen t + digits_value t.
Proof.
  unfold digits_value. rewrite foldl_app. generalize (foldl (fun a b => 10 * a + digit_value b) 0 s).
  assert (forall a, foldl (fun a b => 10 * a + digit_value b) a t
    = a * 10 ^ zlen t + foldl (fun a b => 10 * a + digit_value b) 0 t) as H; [|intros; by rewrite H].
  induction t as [|b t IH]; intros a; [simpl; lia|]. cbn [foldl length].
  rewrite (IH (10 * a + _)), (IH (10 * 0 + _)), Nat2Z.inj_succ, Z.pow_succ_r by lia. lia.
Qed.

Lemma dec_loop_spec fuel z acc :
  0 <= z < 10 ^ Z.of_nat fuel -> (0 < fuel)%nat ->
  exists s, dec_loop fuel z acc = s ++ acc /\ digits_value s = z /\ forallb is_digit s = true /\ s <> [].
Proof.
  revert z acc. induction fuel as [|fuel IH]; intros z acc Hz Hf; [lia|]. cbn [dec_loop].
  destruct (Z.ltb_spec z 10) as [H|H].
  - exists [digit z]. split_and!; [done| | |done].
    + unfold digits_value, digit_value. simpl. rewrite digit_range by lia. lia.
    + simpl. by rewrite digit_is_digit by lia.
  - rewrite Nat2Z.inj_succ, Z.pow_succ_r in Hz by lia.
    pose proof (Z.mod_pos_bound z 10 ltac:(lia)).
    destruct (IH (z / 10) (digit (z mod 10) :: acc)) as (s & -> & Hv & Hd & Hne).
    + split; [apply Z.div_pos; lia|]. apply Z.div_lt_upper_bound; lia.
    + destruct fuel; [simpl in Hz; lia|lia].
    + exists (s ++ [digit (z mod 10)]). split_and!.
      * by rewrite <- app_assoc.
      * rewrite digits_value_app, Hv. unfold digits_value at 1, digit_value. simpl.
        rewrite digit_range by done. pose proof (Z.div_mod z 10 ltac:(lia)). lia.
      * rewrite forallb_app, Hd. simpl. by rewrite digit_is_digit.
      * by destruct s.
Qed.

Lemma decimal_spec z :
  0 <= z -> digits_value (decimal z) = z /\ forallb is_digit (decimal z) = true /\ decimal z <> [].
Proof.
  intros Hz. unfold decimal.
  destruct (dec_loop_spec (S (Z.to_nat (Z.log2 z))) z []) as (s & -> & ?); [|lia|by rewrite app_nil_r].
  split; [done|]. rewrite Nat2Z.inj_succ, Z2Nat.id by apply Z.log2_nonneg.
  destruct (decide (z = 0)) as [->|]; [done|].
  eapply Z.lt_le_trans; [apply (Z.log2_spec z); lia|]. apply Z.pow_le_mono_l. lia.
Qed.

Lemma digits_value_zeros n s : digits_value (replicate n "0"%byte ++ s) = digits_value s.
Proof.
  rewrite digits_value_app. assert (digits_value (replicate n "0"%byte) = 0) as ->; [|lia].
  unfold digits_value. induction n; simpl; [done|]. exact IHn.
Qed.

Lemma setw_spec n z :
  0 <= z -> digits_value (setw n (decimal z)) = z /\ forallb is_digit (setw n (decimal z)) = true /\
    setw n (decimal z) <> [].
Proof.
  intros Hz. destruct (decimal_spec z Hz) as (Hv & Hd & Hne). unfold setw. split_and!.
  - by rewrite digits_value_zeros.
  - rewrite forallb_app, Hd. generalize (n - length (decimal z))%nat. intros m. by induction m.
  - destruct (replicate _ _); [done|]. done.
Qed.

Lemma sstPath_filename dir l c :
  0 <= l -> 0 <= c -> filename (sstPath dir l c) = sst_stem l c ++ bs ".sst" /\
    parent_path (sstPath dir l c) = dir /\
    stem (sstPath dir l c) = sst_stem l c /\ extension (sstPath dir l c) = bs ".sst".
Proof.
  intros Hl Hc. destruct (decimal_spec l Hl) as (_ & Hdl & _), (setw_spec 6 c Hc) as (_ & Hdc & _).
  assert (slash ∉ sst_stem l c ++ bs ".sst") as Hslash.
  { unfold sst_stem. rewrite !not_elem_of_app.
    pose proof (not_digit slash _ eq_refl Hdl). pose proof (not_digit slash _ eq_refl Hdc).
    split_and!; try done; vm_compute; set_solver. }
  assert (filename (sstPath dir l c) = sst_stem l c ++ bs ".sst") as Hf.
  { unfold filename, sstPath. simpl app. by rewrite split_last_app. }
  split; [done|]. split.
  { unfold parent_path, sstPath. simpl app. by rewrite split_last_app. }
  unfold stem, extension, split_ext. rewrite Hf.
  rewrite bool_decide_false by done.
  change (bs ".sst") with (dot :: bs "sst"). rewrite split_last_app by (vm_compute; set_solver).
  done.
Qed.

(** Reading a name back gives the level and counter it was made from. *)
Lemma parse_sstPath dir l c :
  0 <= l <= INT_MAX -> 0 <= c <= INT_MAX -> parse_name (sstPath dir l c) = Some (l, c).
Proof.
  intros Hl Hc. unfold parse_name.
  destruct (sstPath_filename dir l c) as (_ & _ & -> & ->); [lia..|].
  destruct (decimal_spec l) as (Hvl & Hdl & Hnl); [lia|].
  destruct (setw_spec 6 c) as (Hvc & Hdc & Hnc); [lia|].
  rewrite bool_decide_true by done. unfold sst_stem. rewrite has_prefix_app. cbn [andb].
  change (drop 4 (bs "sst-" ++ decimal l ++ [dash] ++ setw 6 (decimal c)))
    with (decimal l ++ [dash] ++ setw 6 (decimal c)). cbn [app].
  rewrite split_first_app by (by apply not_digit). cbn [mbind option_bind].
  unfold allDigits. rewrite !bool_decide_true, Hdl, Hdc, Hvl, Hvc by done. cbn [andb].
  by rewrite !(proj2 (Z.leb_le _ _)) by lia.
Qed.

(** The level shows in the prefix the compactor tests. *)
Lemma sst_level_prefix l c k s :
  0 <= l -> 0 <= c -> 0 <= k ->
  has_prefix (bs "sst-" ++ decimal k ++ [dash]) (sst_stem l c ++ s) = bool_decide (l = k).
Proof.
  intros Hl Hc Hk. unfold sst_stem. rewrite <- !app_assoc. case_bool_decide as Heq.
  - subst. rewrite !(app_assoc (bs "sst-")), !(app_assoc _ [dash]). apply has_prefix_app.
  - apply not_true_iff_false. intros (t & Ht)%has_prefix_spec. apply Heq. rewrite <- !app_assoc in Ht.
    apply app_inv_head in Ht. cbn [app] in Ht.
    destruct (decimal_spec l Hl) as (Hvl & Hdl & _), (decimal_spec k Hk) as (Hvk & Hdk & _).
    assert (Some (decimal l, setw 6 (decimal c) ++ s) = Some (decimal k, t)) as [= Heq' _].
    { rewrite <- !(split_first_app dash) by by apply not_digit. by rewrite Ht. }
    by rewrite <- Hvl, Heq', Hvk.
Qed.

Lemma leading_digits_all s : forallb is_digit s = true -> leading_digits s = s.
Proof. induction s as [|b s IH]; [done|]. simpl. intros [-> ?]%andb_true_iff. by rewrite IH. Qed.

Lemma stoi_digits s :
  forallb is_digit s = true -> s <> [] -> 0 <= digits_value s <= INT_MAX -> stoi s = Some (digits_value s).
Proof.
  intros Hd Hne Hv. destruct s as [|b s]; [done|]. unfold stoi.
  assert (is_digit b = true) as Hb by (simpl in Hd; by apply andb_true_iff in Hd as [? _]).
  assert (skip_space (b :: s) = b :: s) as ->.
  { simpl. destruct (is_space b) eqn:E; [|done]. unfold is_digit in Hb. unfold is_space in E.
    apply bool_decide_eq_true in E. apply andb_true_iff in Hb as [?%Z.leb_le ?%Z.leb_le].
    repeat (apply elem_of_cons in E as [E|E]; [lia|]). set_solver. }
  rewrite !byte_eqb_spec, !bool_decide_false; [|by intros ->..].
  rewrite leading_digits_all by done. unfold INT_MAX in *.
  by rewrite !(proj2 (Z.leb_le _ _)) by lia.
Qed.

(** Temporaries are told apart by their extension. *)
Lemma tmp_extension p :
  filename p <> [] -> extension (tmp_of p) = bs ".tmp" /\ filename (tmp_of p) = filename p ++ bs ".tmp" /\
    parent_path (tmp_of p) = parent_path p.
Proof.
  intros Hne. assert (split_last slash (tmp_of p)
    = match split_last slash p with Some (a, b) => Some (a, b ++ bs ".tmp") | None => None end) as Hs.
  { unfold tmp_of. clear. induction p as [|b p IH]; [done|]. cbn [app split_last]. rewrite IH.
    destruct (split_last slash p) as [[a b']|]; [done|]. by destruct (b =? slash)%byte. }
  assert (filename (tmp_of p) = filename p ++ bs ".tmp") as Hf.
  { unfold filename. rewrite Hs. by destruct (split_last slash p) as [[a b]|]. }
  split_and!; [|done|unfold parent_path; rewrite Hs; by destruct (split_last slash p) as [[a b]|]].
  unfold extension, split_ext. rewrite Hf. change (bs ".tmp") with (dot :: bs "tmp").
  rewrite split_last_app by (vm_compute; set_solver). rewrite bool_decide_false.
  - by destruct (filename p).
  - intros H. apply (f_equal length) in H. rewrite length_app in H. simpl in H. lia.
Qed.

Lemma sstPath_inj dir l c c' :
  0 <= l <= INT_MAX -> 0 <= c <= INT_MAX -> 0 <= c' <= INT_MAX ->
  sstPath dir l c = sstPath dir l c' -> c = c'.
Proof.
  intros Hl Hc Hc' H. pose proof (parse_sstPath dir l c Hl Hc) as H1. rewrite H, parse_sstPath in H1 by done.
  by simplify_eq.
Qed.

Lemma tmp_of_inj p q : tmp_of p = tmp_of q -> p = q.
Proof. apply app_inv_tail. Qed.

Lemma sst_name dir l c :
  0 <= l -> 0 <= c -> filename (sstPath dir l c) <> [] /\ extension (sstPath dir l c) = bs ".sst" /\
    in_dir dir (sstPath dir l c) = true.
Proof.
  intros Hl Hc. destruct (sstPath_filename dir l c Hl Hc) as (-> & Hp & _ & ->). split_and!; [done|done|].
  unfold in_dir. rewrite Hp, !bool_decide_true; [done| |done]. unfold sstPath. set_solver.
Qed.

(** ** Properties *)

(** A table's name identifies it: what [sstPath] writes for a level and a
    counter, [loadSSTables] reads back as that level and counter, however many
    digits they have; so different tables have different paths. *)
Theorem name_roundtrip dir l c l' c' :
  0 <= l <= INT_MAX -> 0 <= c <= INT_MAX -> 0 <= l' <= INT_MAX -> 0 <= c' <= INT_MAX ->
  parse_name (sstPath dir l c) = Some (l, c) /\
  (sstPath dir l c = sstPath dir l' c' -> l = l' /\ c = c').
Proof.
  intros Hl Hc Hl' Hc'. split; [by apply parse_sstPath|]. intros Heq.
  pose proof (parse_sstPath dir l c Hl Hc) as H1. rewrite Heq, parse_sstPath in H1 by done. by simplify_eq.
Qed.

Lemma name_roundtrip_witness :
  parse_name (sstPath (bs "db") 10 1000000) = Some (10, 1000000) /\
  (sstPath (bs "db") 10 1000000 = sstPath (bs "db") 1 0 -> 10 = 1 /\ 1000000 = 0).
Proof. apply (name_roundtrip (bs "db") 10 1000000 1 0); unfold INT_MAX; lia. Defined.

Example path_example : sstPath (bs "d") 0 7 = bs "d/sst-0-000007.sst".
Proof. vm_compute. reflexivity. Qed.
Example parse_rejects : parse_name (bs "d/sst-0--1.sst") = None /\ parse_name (bs "d/sst-0-0.sst.tmp") = None.
Proof. vm_compute. auto. Qed.

End Names.
