(* ===== verification/TableFormat.v ===== *)
(** * The table file: layout, writing and reading

    Models the parts of [src/sstable/sstable_builder.cpp] and
    [sstable_reader.cpp] that are functions of bytes: the serialisation of
    entries, sparse index, Bloom filter and footer, the input stream with its
    fail bit and short reads, the parsing done by the constructor, block parsing
    and the streaming iterator.  The calls around them are in [SSTable]. *)

From S2P Require Import Prelude Bloom.
Open Scope Z_scope.

Module TableFormat.

Abbreviation entry := (list Init.Byte.byte * option (list Init.Byte.byte))%type (only parsing).

Definition TARGET_BLOCK_SIZE : Z := 4096.

(** ** Writing

    Each writer appends to the bytes written so far; [Some e] is the exception
    that stopped it. *)

Definition writeUint32 (v : Z) : str := enc_le 4 v.
Definition writeUint64 (v : Z) : str := enc_le 8 v.

Definition writeString (out s : str) : str * option exn :=
  if UINT32_MAX <? zlen s
  then (out, Some (LengthError "SSTable: string exceeds the 4 GiB limit"))
  else (out ++ writeUint32 (zlen s) ++ s, None).

Definition writeEntry (out : str) (e : entry) : str * option exn :=
  let out := out ++ [match e.2 with Some _ => x00 | None => x01 end] in
  match writeString out e.1 with
  | (out, Some x) => (out, Some x)
  | (out, None) => writeString out (default [] e.2)
  end.

Definition entry_size (e : entry) : Z :=
  1 + 4 + zlen e.1 + 4 + match e.2 with Some v => zlen v | None => 0 end.

(** The loop over the entries: output, index, filter, bytes in the block. *)
Fixpoint write_entries (first : bool) (entries : list entry) (out : str) (index : list (str * Z))
    (bloom : Bloom.BloomFilter) (block_bytes : Z)
  : str * list (str * Z) * Bloom.BloomFilter * option exn :=
  match entries with
  | [] => (out, index, bloom, None)
  | e :: entries =>
      let opens := first || (TARGET_BLOCK_SIZE <=? block_bytes) in
      let index := if opens then index ++ [(e.1, zlen out)] else index in
      let block_bytes := if opens then 0 else block_bytes in
      let bloom := Bloom.insert e.1 bloom in
      match writeEntry out e with
      | (out, Some x) => (out, index, bloom, Some x)
      | (out, None) => write_entries false entries out index bloom (u64 (block_bytes + entry_size e))
      end
  end.

Fixpoint write_index (index : list (str * Z)) (out : str) : str * option exn :=
  match index with
  | [] => (out, None)
  | (key, offset) :: index =>
      match writeString out key with
      | (out, Some x) => (out, Some x)
      | (out, None) => write_index index (out ++ writeUint64 offset)
      end
  end.

Definition serializeBloom (bf : Bloom.BloomFilter) : str :=
  writeUint64 (Bloom.num_hashes bf) ++ writeUint64 (Bloom.num_blocks bf) ++ Bloom.serialize bf.

(** What [write] puts into the stream before it flushes it. *)
Definition build (entries : list entry) : str * option exn :=
  let '(out, index, bloom, x) :=
    write_entries true entries [] [] (Bloom.create (Z.max (zlen entries) 1)) 0 in
  match x with
  | Some x => (out, Some x)
  | None =>
      let index_offset := zlen out in
      if UINT32_MAX <? zlen index
      then (out, Some (LengthError "SSTable: index entry count exceeds uint32_t"))
      else
        match write_index index (out ++ writeUint32 (zlen index)) with
        | (out, Some x) => (out, Some x)
        | (out, None) =>
            let bloom_offset := zlen out in
            (out ++ serializeBloom bloom ++ writeUint64 index_offset ++ writeUint64 bloom_offset, None)
        end
  end.

(** The precondition [write] checks. *)
Fixpoint check_sorted (entries : list entry) : bool :=
  match entries with
  | a :: (b :: _) as rest => (a.1 <?s b.1) && check_sorted rest
  | _ => true
  end.

(** ** The input stream *)

Record ifstream := mkIn { content : str; pos : Z; failbit : bool }.

(** [read]: the bytes that arrived; a short read sets the fail bit. *)
Definition sread (n : Z) (s : ifstream) : str * ifstream :=
  if failbit s then ([], s)
  else let d := slice (pos s) n (content s) in
       (d, mkIn (content s) (pos s + zlen d) (zlen d <? n)).

(** [static_cast<uint64_t>(in.tellg())] *)
Definition tellg (s : ifstream) : Z := if failbit s then UINT64_MAX else pos s.

(** [seekg] to an unsigned offset, which becomes a signed one. *)
Definition seekg (p : Z) (s : ifstream) : ifstream :=
  if failbit s then s
  else if 2 ^ 63 <=? p then mkIn (content s) (pos s) true
  else mkIn (content s) p false.

(** [seekg(-n, std::ios::end)] *)
Definition seek_from_end (n : Z) (s : ifstream) : ifstream :=
  if failbit s then s
  else if zlen (content s) <? n then mkIn (content s) (pos s) true
  else mkIn (content s) (zlen (content s) - n) false.

Definition peek_eof (s : ifstream) : bool := failbit s || (zlen (content s) <=? pos s).

Definition readUint32 (s : ifstream) : Z * ifstream := let '(d, s) := sread 4 s in (dec_le d, s).
Definition readUint64 (s : ifstream) : Z * ifstream := let '(d, s) := sread 8 s in (dec_le d, s).

(** The bytes read over a zero-filled buffer of length [n]. *)
Definition pad (n : Z) (d : str) : str := d ++ replicate (Z.to_nat n - length d) x00.

Definition readString (s : ifstream) (max_len : Z) : result (str * ifstream) :=
  let '(len, s) := readUint32 s in
  if max_len <? len then Throw (RuntimeError "SSTable: string length exceeds file size; table is corrupt")
  else let '(d, s) := sread len s in Ok (pad len d, s).

(** The tombstone byte is uninitialised until it has been read. *)
Definition readEntry (s : ifstream) (max_len : Z) : result (entry * ifstream) :=
  let '(d, s) := sread 1 s in
  match readString s max_len with
  | Ok (key, s) =>
      match readString s max_len with
      | Ok (val, s) =>
          match d with
          | [] => Undefined
          | b :: _ => Ok ((key, if (b =? x00)%byte then Some val else None), s)
          end
      | Throw e => Throw e | Crashed => Crashed | Undefined => Undefined
      end
  | Throw e => Throw e | Crashed => Crashed | Undefined => Undefined
  end.

Definition deserializeBloom (s : ifstream) : result (Bloom.BloomFilter * ifstream) :=
  let '(h, s) := sread 8 s in
  let '(b, s) := sread 8 s in
  if zlen b <? 8 then Undefined   (* the counts are uninitialised *)
  else
    let num_hashes := dec_le h in
    let num_blocks := dec_le b in
    let here := tellg s in
    let file_size := tellg (seek_from_end 0 s) in
    let available := if u64 (here + 16) <=? file_size then u64 (file_size - here - 16) else 0 in
    if available / 64 <? num_blocks
    then Throw (RuntimeError "SSTable: bloom filter block count exceeds file contents")
    else let '(data, s) := sread (u64 (num_blocks * 64)) s in
         Ok (Bloom.deserialize num_blocks num_hashes (pad (u64 (num_blocks * 64)) data), s).

(** ** The table object *)

(** [fd_] is the content behind the descriptor; a moved-from table has neither
    descriptor nor filter. *)
Record t := mkT {
  path : str;
  fd : option str;
  index : list (str * Z);
  bloom : option Bloom.BloomFilter;
  smallest_key : str;
  largest_key : str;
  file_size : Z;
  index_offset : Z
}.

Fixpoint read_index (n : nat) (s : ifstream) (max_len : Z) : result (list (str * Z) * ifstream) :=
  match n with
  | O => Ok ([], s)
  | S n =>
      match readString s max_len with
      | Ok (key, s) =>
          let '(offset, s) := readUint64 s in
          match read_index n s max_len with
          | Ok (index, s) => Ok ((key, offset) :: index, s)
          | Throw e => Throw e | Crashed => Crashed | Undefined => Undefined
          end
      | Throw e => Throw e | Crashed => Crashed | Undefined => Undefined
      end
  end.

(** Reading entries up to the index; the last one read is kept. *)
Fixpoint last_entry (fuel : nat) (s : ifstream) (index_offset max_len : Z) (e : entry) : result entry :=
  match fuel with
  | O => Undefined
  | S fuel =>
      if tellg s <? index_offset then
        match readEntry s max_len with
        | Ok (e, s) => last_entry fuel s index_offset max_len e
        | Throw e => Throw e | Crashed => Crashed | Undefined => Undefined
        end
      else Ok e
  end.

(** The constructor, given the file's content. *)
Definition load (p : str) (data : str) : result t :=
  let size := zlen data in
  if size <? 16 then Throw (RuntimeError "SSTable: file too small")
  else
    let s := seek_from_end 16 (mkIn data size false) in
    let '(index_offset, s) := readUint64 s in
    let '(bloom_offset, s) := readUint64 s in
    if (size <? index_offset) || (size <? bloom_offset) || (bloom_offset <? index_offset)
    then Throw (RuntimeError "SSTable: footer offsets fall outside the file")
    else
      let '(index_count, s) := readUint32 (seekg index_offset s) in
      let region := bloom_offset - index_offset in
      let available := if 4 <=? region then region - 4 else 0 in
      if available / 12 <? index_count
      then Throw (RuntimeError "SSTable: index entry count exceeds file contents")
      else
        match read_index (Z.to_nat index_count) s size with
        | Ok (index, s) =>
            match deserializeBloom (seekg bloom_offset s) with
            | Ok (bf, s) =>
                match head index, last index with
                | Some (smallest, _), Some (_, off) =>
                    match last_entry (S (length data)) (seekg off s) index_offset size ([], None) with
                    | Ok e => Ok (mkT p (Some data) index (Some bf) smallest e.1 size index_offset)
                    | Throw e => Throw e | Crashed => Crashed | Undefined => Undefined
                    end
                | _, _ => Ok (mkT p (Some data) index (Some bf) [] [] size index_offset)
                end
            | Throw e => Throw e | Crashed => Crashed | Undefined => Undefined
            end
        | Throw e => Throw e | Crashed => Crashed | Undefined => Undefined
        end.

(** The move constructor: the new object and what the old one becomes. *)
Definition move (o : t) : t * t :=
  (mkT (path o) (fd o) (index o) (bloom o) (smallest_key o) (largest_key o) 0 (index_offset o),
   mkT [] None [] None [] [] (file_size o) (index_offset o)).

(** The move assignment. *)
Definition move_assign (dst src : t) : t * t :=
  (mkT (path src) (fd src) (index src) (bloom src) (smallest_key src) (largest_key src)
       (file_size dst) (index_offset src),
   mkT [] None [] None [] [] (file_size src) (index_offset src)).

(** ** Searching *)

(** The binary search of [get] and [findBlock]. *)
Fixpoint search (fuel : nat) (index : list (str * Z)) (key : str) (lo hi : nat) : option nat :=
  if (lo <? hi)%nat then
    match fuel with
    | O => None
    | S fuel =>
        let mid := (lo + (hi - lo + 1) / 2)%nat in
        '(k, _) ← index !! mid;
        if k <=?s key then search fuel index key mid hi else search fuel index key lo (mid - 1)
    end
  else Some lo.

Definition find_index (index : list (str * Z)) (key : str) : option nat :=
  search (length index) index key 0 (length index - 1).

(** [findBlock] *)
Definition findBlock (index : list (str * Z)) (key : str) : option Z :=
  match index with
  | [] => Some 0
  | _ => lo ← find_index index key; '(_, off) ← index !! lo; Some off
  end.

Fixpoint parse_loop (fuel : nat) (buf : str) (offset : Z) : list entry :=
  match fuel with
  | O => []
  | S fuel =>
      let size := zlen buf in
      if offset + 9 <=? size then
        let tomb := slice offset 1 buf in
        let key_len := read_le 4 (offset + 1) buf in
        let offset := offset + 1 + 4 in
        if size <? offset + key_len + 4 then []
        else
          let key := slice offset key_len buf in
          let offset := offset + key_len in
          let val_len := read_le 4 offset buf in
          let offset := offset + 4 in
          if size <? offset + val_len then []
          else (key, if bool_decide (tomb = [x00]) then Some (slice offset val_len buf) else None)
               :: parse_loop fuel buf (offset + val_len)
      else []
  end.

Definition parseBlockEntries (buf : str) : list entry := parse_loop (S (length buf)) buf 0.

(** The scan of a block by [get]. *)
Fixpoint scan_block (es : list entry) (key : str) : option (option str) :=
  match es with
  | [] => None
  | e :: es => if e.1 =?s key then Some e.2 else if key <?s e.1 then None else scan_block es key
  end.

(** [readAll]'s loop. *)
Fixpoint read_all_loop (fuel : nat) (s : ifstream) (idx_off max_len : Z) : result (list entry) :=
  match fuel with
  | O => Undefined
  | S fuel =>
      if (tellg s <? idx_off) && negb (peek_eof s) then
        match readEntry s max_len with
        | Ok (e, s) =>
            match read_all_loop fuel s idx_off max_len with
            | Ok l => Ok (e :: l)
            | r => r
            end
        | Throw e => Throw e | Crashed => Crashed | Undefined => Undefined
        end
      else Ok []
  end.

Definition read_all (data : str) (max_len : Z) : result (list entry) :=
  let '(idx_off, s) := readUint64 (seek_from_end 16 (mkIn data 0 false)) in
  read_all_loop (S (length data)) (seekg 0 s) idx_off max_len.

(** ** The streaming iterator *)

(** [in_] is [None] when the file could not be opened. *)
Record Iter := mkIter { in_ : option ifstream; data_end_offset : Z; current_ : option entry }.

Definition read_zeroed (n : Z) (s : ifstream) : str * ifstream :=
  let '(d, s) := sread n s in (pad n d, s).

Definition advance (it : Iter) : Iter :=
  match in_ it with
  | None => mkIter None (data_end_offset it) None
  | Some s =>
      if (tellg s <? data_end_offset it) && negb (peek_eof s) then
        let '(tomb, s) := read_zeroed 1 s in
        let '(key_len, s) := readUint32 s in
        let '(key, s) := read_zeroed key_len s in
        let '(val_len, s) := readUint32 s in
        let '(val, s) := read_zeroed val_len s in
        mkIter (Some s) (data_end_offset it)
               (Some (key, if bool_decide (tomb = [x00]) then Some val else None))
      else mkIter (Some s) (data_end_offset it) None
  end.

(** The constructor, given what opening the file gave. *)
Definition new_iter (file : option str) (data_end start : Z) : Iter :=
  advance (mkIter ((fun d => let s := mkIn d 0 false in if 0 <? start then seekg start s else s) <$> file)
                  data_end None).

Definition hasNext (it : Iter) : bool := bool_decide (is_Some (current_ it)).

(** [next], undefined on an exhausted iterator. *)
Definition next (it : Iter) : option (entry * Iter) :=
  e ← current_ it; Some (e, advance it).

(** The loop of [createIterator(start_key)]. *)
Fixpoint skip_loop (fuel : nat) (start_key : str) (it : Iter) : option Iter :=
  match current_ it with
  | Some e =>
      if e.1 <?s start_key then
        match fuel with
        | O => None
        | S fuel => '(_, it) ← next it; skip_loop fuel start_key it
        end
      else Some it
  | None => Some it
  end.

(** ** What a written table contains *)

Definition enc_entry (e : entry) : str :=
  [match e.2 with Some _ => x00 | None => x01 end]
  ++ (enc_le 4 (zlen e.1) ++ e.1) ++ (enc_le 4 (zlen (default [] e.2)) ++ default [] e.2).
Definition enc_entries (es : list entry) : str := mjoin (enc_entry <$> es).

(** The runs of entries between two index entries. *)
Fixpoint chunk_loop (bytes : Z) (acc : list entry) (es : list entry) : list (list entry) :=
  match es with
  | [] => [acc]
  | e :: es =>
      if TARGET_BLOCK_SIZE <=? bytes then acc :: chunk_loop (u64 (entry_size e)) [e] es
      else chunk_loop (u64 (bytes + entry_size e)) (acc ++ [e]) es
  end.
Definition chunks (es : list entry) : list (list entry) :=
  match es with [] => [] | e :: es => chunk_loop (u64 (entry_size e)) [e] es end.

(** The first key of every chunk and where it starts. *)
Fixpoint chunk_index (off : Z) (cs : list (list entry)) : list (str * Z) :=
  match cs with
  | [] => []
  | c :: cs => (match c with e :: _ => e.1 | [] => [] end, off)
               :: chunk_index (off + zlen (enc_entries c)) cs
  end.

Definition enc_index (index : list (str * Z)) : str :=
  mjoin ((fun p => enc_le 4 (zlen p.1) ++ p.1 ++ enc_le 8 p.2) <$> index).

Definition filter_of (es : list entry) : Bloom.BloomFilter :=
  Bloom.insert_all es.*1 (Bloom.create (Z.max (zlen es) 1)).

Definition index_of (es : list entry) : list (str * Z) := chunk_index 0 (chunks es).

Definition table_bytes (es : list entry) : str :=
  let data := enc_entries es in
  let idx := enc_le 4 (zlen (index_of es)) ++ enc_index (index_of es) in
  data ++ idx ++ serializeBloom (filter_of es)
  ++ enc_le 8 (zlen data) ++ enc_le 8 (zlen data + zlen idx).

(** Strings fit their length fields, the index its count, the file a stream. *)
Definition entry_ok (e : entry) : Prop := zlen e.1 <= UINT32_MAX /\ zlen (default [] e.2) <= UINT32_MAX.
Definition table_ok (es : list entry) : Prop :=
  Forall entry_ok es /\ zlen (index_of es) <= UINT32_MAX /\ zlen (table_bytes es) < 2 ^ 63.

(** The table object the constructor makes of it. *)
Definition table_of (p : str) (es : list entry) : t :=
  mkT p (Some (table_bytes es)) (index_of es) (Some (filter_of es))
      (match head es with Some e => e.1 | None => [] end)
      (match last es with Some e => e.1 | None => [] end)
      (zlen (table_bytes es)) (zlen (enc_entries es)).

(** ** Short tables fit the format *)

Lemma enc_entry_bound e : entry_ok e -> zlen (enc_entry e) <= 2 ^ 34.
Proof.
  intros [Hk Hv]. unfold enc_entry, UINT32_MAX in *. rewrite !length_app, !length_enc_le. simpl length. lia.
Qed.

Lemma enc_entries_bound es : Forall entry_ok es -> zlen (enc_entries es) <= zlen es * 2 ^ 34.
Proof.
  induction 1 as [|e es He _ IH]; [done|]. unfold enc_entries. rewrite fmap_cons, mjoin_cons, length_app.
  pose proof (enc_entry_bound e He). fold (enc_entries es). cbn [length]. lia.
Qed.

Lemma enc_index_bound idx :
  Forall (fun p => zlen p.1 <= UINT32_MAX) idx -> zlen (enc_index idx) <= zlen idx * 2 ^ 33.
Proof.
  induction 1 as [|p idx Hp _ IH]; [done|]. unfold enc_index. rewrite fmap_cons, mjoin_cons, length_app.
  fold (enc_index idx). rewrite !length_app, !length_enc_le. unfold UINT32_MAX in *. cbn [length]. lia.
Qed.

Lemma length_chunk_loop bytes acc es : (length (chunk_loop bytes acc es) <= S (length es))%nat.
Proof.
  revert bytes acc. induction es as [|e es IH]; intros bytes acc; cbn [chunk_loop length]; [lia|].
  destruct (_ <=? _); cbn [length]; [specialize (IH (u64 (entry_size e)) [e])|specialize (IH (u64 (bytes + entry_size e)) (acc ++ [e]))]; lia.
Qed.

Lemma length_index_of es : (length (index_of es) <= length es)%nat.
Proof.
  unfold index_of. assert (forall off cs, length (chunk_index off cs) = length cs) as ->.
  { intros off cs. revert off. induction cs; intros; simpl; auto. }
  destruct es; [done|]. apply length_chunk_loop.
Qed.

(** ** Writing produces that layout *)

Lemma writeString_ok out s :
  zlen s <= UINT32_MAX -> writeString out s = (out ++ enc_le 4 (zlen s) ++ s, None).
Proof. intros. unfold writeString. by rewrite (proj2 (Z.ltb_ge _ _)) by lia. Qed.

Lemma writeEntry_ok out e : entry_ok e -> writeEntry out e = (out ++ enc_entry e, None).
Proof.
  intros [Hk Hv]. unfold writeEntry. rewrite writeString_ok, writeString_ok by done.
  unfold enc_entry. by rewrite <- !app_assoc.
Qed.

Lemma enc_entries_app a b : enc_entries (a ++ b) = enc_entries a ++ enc_entries b.
Proof. unfold enc_entries. by rewrite fmap_app, mjoin_app. Qed.

Lemma enc_entries_cons e es : enc_entries (e :: es) = enc_entry e ++ enc_entries es.
Proof. done. Qed.

Lemma chunk_index_app off cs c :
  chunk_index off (cs ++ [c])
  = chunk_index off cs ++ [(match c with e :: _ => e.1 | [] => [] end, off + zlen (enc_entries (mjoin cs)))].
Proof.
  revert off. induction cs as [|c' cs IH]; intros off; cbn [app chunk_index].
  - simpl. by rewrite Z.add_0_r.
  - rewrite IH, mjoin_cons, enc_entries_app, length_app. do 4 f_equal. lia.
Qed.

(** The loop in the middle: [cs] are the finished chunks, [acc] the open one. *)
Lemma write_entries_spec es cs acc bf bytes :
  Forall entry_ok es -> acc <> [] ->
  write_entries false es (enc_entries (mjoin cs ++ acc)) (chunk_index 0 (cs ++ [acc])) bf bytes
  = (enc_entries (mjoin cs ++ acc ++ es), chunk_index 0 (cs ++ chunk_loop bytes acc es),
     Bloom.insert_all es.*1 bf, None).
Proof.
  intros Hok. revert cs acc bf bytes. induction Hok as [|e es He Hok IH]; intros cs acc bf bytes Hacc.
  { cbn [write_entries chunk_loop]. by rewrite app_nil_r. }
  cbn [write_entries chunk_loop orb]. destruct (TARGET_BLOCK_SIZE <=? bytes) eqn:E.
  - rewrite writeEntry_ok by done. cbn [fmap list_fmap]. unfold Bloom.insert_all. cbn [foldl].
    fold (Bloom.insert_all es.*1 (Bloom.insert e.1 bf)).
    assert (mjoin cs ++ acc = mjoin (cs ++ [acc])) as Hj by (by rewrite mjoin_app, mjoin_singleton).
    pose proof (IH (cs ++ [acc]) [e] (Bloom.insert e.1 bf) (u64 (0 + entry_size e)) ltac:(done)) as H.
    rewrite (chunk_index_app _ (cs ++ [acc]) [e]), <- Hj, !Z.add_0_l in H. rewrite !Z.add_0_l.
    rewrite enc_entries_app in H at 1. change (enc_entries [e]) with (enc_entry e ++ []) in H.
    rewrite app_nil_r in H. rewrite H. rewrite <- !app_assoc. done.
  - rewrite writeEntry_ok by done. cbn [fmap list_fmap]. unfold Bloom.insert_all. cbn [foldl].
    fold (Bloom.insert_all es.*1 (Bloom.insert e.1 bf)).
    pose proof (IH cs (acc ++ [e]) (Bloom.insert e.1 bf) (u64 (bytes + entry_size e))) as H.
    rewrite chunk_index_app in H. rewrite chunk_index_app.
    assert (match acc ++ [e] with e' :: _ => e'.1 | [] => [] end
            = match acc with e' :: _ => e'.1 | [] => [] end) as Hh by (by destruct acc).
    rewrite Hh, app_assoc, enc_entries_app in H.
    change (enc_entries [e]) with (enc_entry e ++ []) in H. rewrite app_nil_r in H.
    rewrite H by (by destruct acc). rewrite <- !app_assoc. done.
Qed.

Lemma write_index_spec idx out :
  Forall (fun p => zlen p.1 <= UINT32_MAX) idx -> write_index idx out = (out ++ enc_index idx, None).
Proof.
  intros H. revert out. induction H as [|[k o] idx Hk _ IH]; intros out; cbn [write_index].
  { unfold enc_index. simpl. by rewrite app_nil_r. }
  rewrite writeString_ok by done. rewrite IH. unfold enc_index. rewrite fmap_cons, mjoin_cons. simpl.
  by rewrite <- !app_assoc.
Qed.

Lemma chunk_loop_keys (P : str -> Prop) bytes acc es :
  acc <> [] -> Forall (fun e => P e.1) acc -> Forall (fun e => P e.1) es ->
  Forall (fun c => exists e c', c = e :: c' /\ P e.1) (chunk_loop bytes acc es).
Proof.
  intros Hacc Ha He. revert bytes acc Hacc Ha. induction He as [|e es He _ IH]; intros bytes acc Hacc Ha; simpl.
  - constructor; [|done]. destruct Ha as [|x l Hx]; [done|]. by exists x, l.
  - case_match.
    + constructor; [|apply IH; [done|by constructor]]. destruct Ha as [|x l Hx]; [done|]. by exists x, l.
    + apply IH; [by destruct acc|]. apply Forall_app. split; [done|by constructor].
Qed.

Lemma chunks_keys (P : str -> Prop) es :
  Forall (fun e => P e.1) es -> Forall (fun c => exists e c', c = e :: c' /\ P e.1) (chunks es).
Proof. destruct 1; [constructor|]. apply chunk_loop_keys; [done| |done]. by constructor. Qed.

Lemma index_keys (P : str -> Prop) off cs :
  Forall (fun c : list entry => exists e c', c = e :: c' /\ P e.1) cs ->
  Forall (fun p => P p.1) (chunk_index off cs).
Proof.
  intros H. revert off. induction H as [|c cs (e & c' & -> & He) _ IH]; intros off; constructor; auto.
Qed.

Lemma build_ok es :
  Forall entry_ok es -> zlen (index_of es) <= UINT32_MAX -> build es = (table_bytes es, None).
Proof.
  intros Hok Hidx. unfold build.
  assert (write_entries true es [] [] (Bloom.create (Z.max (zlen es) 1)) 0
          = (enc_entries es, index_of es, filter_of es, None)) as ->.
  { unfold index_of, filter_of, chunks. destruct Hok as [|e es He Hok]; [done|].
    cbn [write_entries orb]. rewrite writeEntry_ok by done. cbn [app].
    pose proof (write_entries_spec es [] [e] (Bloom.insert e.1 (Bloom.create (Z.max (zlen (e :: es)) 1)))
                  (u64 (0 + entry_size e)) Hok ltac:(done)) as H.
    cbn [app mjoin list_join] in H. change (enc_entries [e]) with (enc_entry e ++ []) in H.
    rewrite app_nil_r, Z.add_0_l in H. rewrite Z.add_0_l. exact H. }
  rewrite (proj2 (Z.ltb_ge _ _)) by lia. rewrite write_index_spec.
  - unfold table_bytes, writeUint32, writeUint64. rewrite !length_app, <- !app_assoc.
    do 5 f_equal. do 3 f_equal. lia.
  - apply (index_keys (fun k => zlen k <= UINT32_MAX)), (chunks_keys (fun k => zlen k <= UINT32_MAX)). eapply Forall_impl; [exact Hok|]. by intros e [? _].
Qed.

(** ** Reading at a position *)

Lemma sread_at pre d post n :
  n = zlen d ->
  sread n (mkIn (pre ++ d ++ post) (zlen pre) false)
  = (d, mkIn (pre ++ d ++ post) (zlen (pre ++ d)) false).
Proof.
  intros ->. unfold sread. cbn [failbit pos content]. rewrite slice_app_mid by done.
  rewrite Z.ltb_irrefl, length_app. do 2 f_equal. lia.
Qed.

Lemma readUint32_at pre v post :
  0 <= v <= UINT32_MAX ->
  readUint32 (mkIn (pre ++ enc_le 4 v ++ post) (zlen pre) false)
  = (v, mkIn (pre ++ enc_le 4 v ++ post) (zlen (pre ++ enc_le 4 v)) false).
Proof.
  intros. unfold readUint32. rewrite sread_at by (by rewrite length_enc_le).
  rewrite dec_enc_le_small; [done|]. unfold UINT32_MAX in *. lia.
Qed.

Lemma readUint64_at pre v post :
  0 <= v < 2 ^ 64 ->
  readUint64 (mkIn (pre ++ enc_le 8 v ++ post) (zlen pre) false)
  = (v, mkIn (pre ++ enc_le 8 v ++ post) (zlen (pre ++ enc_le 8 v)) false).
Proof.
  intros. unfold readUint64. rewrite sread_at by (by rewrite length_enc_le).
  by rewrite dec_enc_le_small.
Qed.

Lemma pad_full d : pad (zlen d) d = d.
Proof. unfold pad. rewrite Nat2Z.id, Nat.sub_diag. apply app_nil_r. Qed.

(** Moving the position over a known piece of the content. *)
Lemma mkIn_assoc pre d post p f : mkIn (pre ++ d ++ post) p f = mkIn ((pre ++ d) ++ post) p f.
Proof. by rewrite app_assoc. Qed.

Lemma readString_at pre s post max :
  zlen s <= max -> zlen s <= UINT32_MAX ->
  readString (mkIn (pre ++ (enc_le 4 (zlen s) ++ s) ++ post) (zlen pre) false) max
  = Ok (s, mkIn (pre ++ (enc_le 4 (zlen s) ++ s) ++ post) (zlen (pre ++ enc_le 4 (zlen s) ++ s)) false).
Proof.
  intros Hm Hu. unfold readString. rewrite <- app_assoc, readUint32_at by lia.
  rewrite (proj2 (Z.ltb_ge _ _)) by lia. rewrite mkIn_assoc, sread_at, pad_full by done.
  by rewrite <- !app_assoc.
Qed.

Lemma readEntry_at pre e post max :
  entry_ok e -> zlen e.1 <= max -> zlen (default [] e.2) <= max ->
  readEntry (mkIn (pre ++ enc_entry e ++ post) (zlen pre) false) max
  = Ok (e, mkIn (pre ++ enc_entry e ++ post) (zlen (pre ++ enc_entry e)) false).
Proof.
  intros [Hk Hv] Hkm Hvm. unfold readEntry, enc_entry. destruct e as [k v]. cbn [fst snd] in *.
  set (tb := match v with Some _ => x00 | None => x01 end). rewrite <- !(app_assoc [tb]).
  rewrite sread_at by done. rewrite mkIn_assoc, <- (app_assoc (enc_le 4 (zlen k) ++ k)).
  rewrite readString_at by done. rewrite mkIn_assoc, readString_at by done.
  rewrite <- !app_assoc. subst tb. by destruct v.
Qed.

Lemma length_enc_entry e : zlen (enc_entry e) = 9 + zlen e.1 + zlen (default [] e.2).
Proof. unfold enc_entry. rewrite !length_app, !length_enc_le. simpl length. lia. Qed.

Lemma enc_entry_lengths e es post :
  e ∈ es -> zlen e.1 <= zlen (enc_entries es ++ post) /\ zlen (default [] e.2) <= zlen (enc_entries es ++ post).
Proof.
  intros He. apply list_elem_of_split in He as (a & b & ->).
  rewrite enc_entries_app, enc_entries_cons, !length_app. pose proof (length_enc_entry e). lia.
Qed.

(** ** The constructor reads the layout back *)

Lemma read_index_at pre idx post max :
  Forall (fun p => zlen p.1 <= UINT32_MAX /\ zlen p.1 <= max /\ 0 <= p.2 < 2 ^ 64) idx ->
  read_index (length idx) (mkIn (pre ++ enc_index idx ++ post) (zlen pre) false) max
  = Ok (idx, mkIn (pre ++ enc_index idx ++ post) (zlen (pre ++ enc_index idx)) false).
Proof.
  intros H. revert pre. induction H as [|[k o] idx (H1 & H2 & H3) _ IH]; intros pre; cbn [length read_index].
  { unfold enc_index. simpl. by rewrite app_nil_r. }
  cbn [fst snd] in *. unfold enc_index. rewrite fmap_cons, mjoin_cons. fold (enc_index idx). cbn [fst snd].
  rewrite <- (app_assoc (enc_le 4 _)), <- (app_assoc _ (enc_le 8 o)), (app_assoc (enc_le 4 _) k).
  rewrite <- (app_assoc (enc_le 4 (zlen k) ++ k)). rewrite <- (app_assoc (enc_le 8 o)).
  rewrite readString_at by done. rewrite mkIn_assoc, readUint64_at by done.
  rewrite mkIn_assoc, IH. by rewrite <- !app_assoc.
Qed.

Lemma deserializeBloom_at pre bf post :
  Bloom.wf bf -> Bloom.num_blocks bf < 2 ^ 57 -> Bloom.num_hashes bf < 2 ^ 64 -> length post = 16%nat ->
  zlen (pre ++ serializeBloom bf ++ post) < 2 ^ 63 ->
  exists s, deserializeBloom (mkIn (pre ++ serializeBloom bf ++ post) (zlen pre) false) = Ok (bf, s) /\
    failbit s = false /\ content s = pre ++ serializeBloom bf ++ post.
Proof.
  intros Hwf Hnb Hnh Hpost Hmax. pose proof (Bloom.wf_num _ Hwf) as H0. pose proof (Bloom.wf_hashes _ Hwf) as H1.
  pose proof (Bloom.length_serialize bf Hwf) as Hlen.
  unfold deserializeBloom, serializeBloom, writeUint64 in *. rewrite <- !app_assoc in *.
  rewrite sread_at by (by rewrite length_enc_le). rewrite mkIn_assoc, sread_at by (by rewrite length_enc_le).
  rewrite length_enc_le, (proj2 (Z.ltb_ge _ _)) by lia.
  rewrite !dec_enc_le_small by lia. rewrite mkIn_assoc, (app_assoc pre) in *.
  rewrite (app_assoc (pre ++ _)) in *. set (P := (pre ++ _) ++ _) in *.
  assert (zlen (P ++ Bloom.serialize bf ++ post) = zlen P + 64 * Bloom.num_blocks bf + 16) as HL
    by (rewrite !length_app; lia).
  unfold tellg, seek_from_end. cbn [failbit content pos].
  rewrite (proj2 (Z.ltb_ge _ 0)) by lia. cbn [pos failbit]. rewrite HL, Z.sub_0_r in *.
  rewrite (wrap_small 64 (_ + 16)) by lia. rewrite (proj2 (Z.leb_le _ _)) by lia.
  rewrite (wrap_small 64 (_ - _ - _)) by lia. rewrite (wrap_small 64 (Bloom.num_blocks bf * 64)) by lia.
  rewrite (proj2 (Z.ltb_ge _ _)) by (apply Z.div_le_lower_bound; lia).
  rewrite sread_at by lia.
  replace (Bloom.num_blocks bf * 64) with (zlen (Bloom.serialize bf)) by lia. rewrite pad_full.
  rewrite Bloom.deserialize_serialize by (done || lia). by eexists.
Qed.

Lemma last_entry_at es : forall pre post max e0 fuel,
  Forall entry_ok es ->
  Forall (fun e => zlen e.1 <= max /\ zlen (default [] e.2) <= max) es ->
  (length es < fuel)%nat ->
  last_entry fuel (mkIn (pre ++ enc_entries es ++ post) (zlen pre) false) (zlen (pre ++ enc_entries es)) max e0
  = Ok (default e0 (last es)).
Proof.
  induction es as [|e es IH]; intros pre post max e0 [|fuel] Hok Hmax Hf; simpl in Hf; try lia.
  { cbn [last_entry]. unfold tellg. cbn [failbit pos]. rewrite app_nil_r, Z.ltb_irrefl. done. }
  apply Forall_cons in Hok as [He Hok], Hmax as [[H1 H2] Hmax].
  cbn [last_entry]. unfold tellg. cbn [failbit pos]. rewrite enc_entries_cons.
  pose proof (length_enc_entry e). rewrite (proj2 (Z.ltb_lt _ _)) by (rewrite !length_app; lia).
  rewrite <- (app_assoc (enc_entry e)), readEntry_at by done.
  rewrite mkIn_assoc, (app_assoc pre (enc_entry e)), IH by (done || lia).
  rewrite last_cons. by destruct (last es).
Qed.

(** Up to a million entries of any size fit. *)
Lemma table_ok_small es : Forall entry_ok es -> zlen es <= 2 ^ 20 -> table_ok es.
Proof.
  intros Hok Hlen. pose proof (length_index_of es) as Hil. split; [done|].
  split; [unfold UINT32_MAX; lia|].
  pose proof (enc_entries_bound es Hok) as He.
  assert (Forall (fun p => zlen p.1 <= UINT32_MAX) (index_of es)) as Hk.
  { apply (index_keys (fun k => zlen k <= UINT32_MAX)), (chunks_keys (fun k => zlen k <= UINT32_MAX)).
    eapply Forall_impl; [exact Hok|]. by intros e [? _]. }
  pose proof (enc_index_bound _ Hk) as Hi.
  assert (Bloom.wf (filter_of es)) as Hwf by apply Bloom.insert_all_wf, Bloom.create_wf.
  assert (Bloom.num_blocks (filter_of es) < 2 ^ 56) as Hnb.
  { unfold filter_of. rewrite (proj1 (Bloom.insert_all_num _ _)). apply Bloom.create_bound. }
  unfold table_bytes, serializeBloom, writeUint64.
  rewrite !length_app, !length_enc_le. pose proof (Bloom.length_serialize _ Hwf). lia.
Qed.

(** Where the chunks are. *)
Lemma mjoin_chunk_loop bytes acc es : mjoin (chunk_loop bytes acc es) = acc ++ es.
Proof.
  revert bytes acc. induction es as [|e es IH]; intros bytes acc; cbn [chunk_loop].
  - simpl. by rewrite !app_nil_r.
  - destruct (_ <=? _); [rewrite mjoin_cons; by rewrite IH|]. by rewrite IH, <- app_assoc.
Qed.

Lemma mjoin_chunks es : mjoin (chunks es) = es.
Proof. destruct es; [done|]. apply mjoin_chunk_loop. Qed.

Lemma length_chunk_index off cs : length (chunk_index off cs) = length cs.
Proof. revert off. induction cs; intros; simpl; auto. Qed.

Lemma chunk_index_lookup off cs i c :
  cs !! i = Some c ->
  chunk_index off cs !! i
  = Some (match c with e :: _ => e.1 | [] => [] end, off + zlen (enc_entries (mjoin (take i cs)))).
Proof.
  revert off i. induction cs as [|c' cs IH]; intros off [|i]; simpl; [done|done| |].
  - intros [= ->]. by rewrite Z.add_0_r.
  - intros Hi. rewrite (IH _ _ Hi). change (c' ++ _) with (c' ++ mjoin (take i cs)).
    rewrite enc_entries_app, length_app. do 2 f_equal. lia.
Qed.

Lemma chunk_index_range off cs :
  0 <= off -> Forall (fun p => off <= p.2 <= off + zlen (enc_entries (mjoin cs))) (chunk_index off cs).
Proof.
  revert off. induction cs as [|c cs IH]; intros off Hoff; constructor.
  - simpl. lia.
  - rewrite mjoin_cons, enc_entries_app, length_app. eapply Forall_impl; [apply IH; lia|]. simpl. intros; lia.
Qed.

Lemma length_enc_index idx : zlen (enc_index idx) >= 12 * zlen idx.
Proof.
  induction idx as [|p idx IH]; [done|]. unfold enc_index. rewrite fmap_cons, mjoin_cons. fold (enc_index idx).
  rewrite !length_app, !length_enc_le. cbn [length]. lia.
Qed.

Lemma length_entries es : zlen es <= zlen (enc_entries es).
Proof.
  induction es as [|e es IH]; [done|]. rewrite enc_entries_cons, length_app.
  pose proof (length_enc_entry e). cbn [length]. lia.
Qed.

Lemma entries_fit_file es : (length es <= length (table_bytes es))%nat.
Proof. pose proof (length_entries es). unfold table_bytes. rewrite length_app. lia. Qed.

Lemma filter_of_wf es :
  Bloom.wf (filter_of es) /\ Bloom.num_blocks (filter_of es) < 2 ^ 57 /\ Bloom.num_hashes (filter_of es) = 8.
Proof.
  unfold filter_of. destruct (Bloom.insert_all_num es.*1 (Bloom.create (Z.max (zlen es) 1))) as [-> ->].
  pose proof (Bloom.create_bound (Z.max (zlen es) 1)).
  split_and!; [apply Bloom.insert_all_wf, Bloom.create_wf|lia|done].
Qed.

Lemma last_chunk_last es c : last (chunks es) = Some c -> last c = last es.
Proof.
  intros Hc. assert (c <> []) as Hne.
  { apply last_Some_elem_of in Hc.
    pose proof (chunks_keys (fun _ => True) es) as H. rewrite !Forall_forall in H.
    destruct (H ltac:(done) c Hc) as (e & c' & -> & _). done. }
  rewrite <- (mjoin_chunks es) at 1. destruct (chunks es) as [|c' cs _] eqn:E using rev_ind; [done|].
  rewrite last_snoc in Hc. simplify_eq.
  rewrite mjoin_app, mjoin_singleton, last_app. by destruct (last c) eqn:El; [|apply last_None in El].
Qed.

(** The lengths and offsets of the layout. *)
Lemma table_layout es :
  table_ok es ->
  let D := enc_entries es in
  let C := enc_le 4 (zlen (index_of es)) in
  let I := enc_index (index_of es) in
  let B := serializeBloom (filter_of es) in
  let F1 := enc_le 8 (zlen D) in
  let F2 := enc_le 8 (zlen D + zlen (C ++ I)) in
  table_bytes es = D ++ (C ++ I) ++ B ++ F1 ++ F2 /\
  zlen (table_bytes es) = zlen D + 4 + zlen I + zlen B + 16 /\ 12 * zlen (index_of es) <= zlen I.
Proof.
  intros (_ & _ & Hmax) D C I B F1 F2. split; [done|].
  split; [|pose proof (length_enc_index (index_of es)); unfold I; lia].
  change (table_bytes es) with (D ++ (C ++ I) ++ B ++ F1 ++ F2).
  rewrite !length_app. unfold C, F1, F2. rewrite !length_enc_le. lia.
Qed.

(** The last chunk: what is in front of it, and its index entry. *)
Lemma last_chunk es k off :
  last (index_of es) = Some (k, off) ->
  exists P c e, es = P ++ c /\ off = zlen (enc_entries P) /\ last c = Some e /\ last es = Some e.
Proof.
  unfold index_of. intros El. destruct (chunks es) as [|c cs _] eqn:Ec using rev_ind; [done|].
  rewrite chunk_index_app, last_snoc in El. injection El as _ <-.
  assert (last (chunks es) = Some c) as Hc by (by rewrite Ec, last_snoc).
  pose proof (last_chunk_last es c Hc) as Hlast.
  assert (is_Some (last c)) as [e He].
  { pose proof (chunks_keys (fun _ => True) es) as H. rewrite !Forall_forall in H.
    apply last_Some_elem_of in Hc. destruct (H ltac:(done) c Hc) as (e0 & c' & -> & _).
    rewrite last_cons. by destruct (last c'). }
  exists (mjoin cs), c, e. split_and!; [|lia|done|congruence].
  by rewrite <- (mjoin_chunks es), Ec, mjoin_app, mjoin_singleton.
Qed.

Lemma index_nil es : last (index_of es) = None -> es = [].
Proof.
  intros El%last_None. unfold index_of in El. rewrite <- (mjoin_chunks es).
  apply (f_equal length) in El. rewrite length_chunk_index in El. by destruct (chunks es).
Qed.

Lemma table_entries_ok es :
  table_ok es ->
  Forall (fun e => zlen e.1 <= zlen (table_bytes es) /\ zlen (default [] e.2) <= zlen (table_bytes es)) es /\
  Forall (fun p => zlen p.1 <= UINT32_MAX /\ zlen p.1 <= zlen (table_bytes es) /\ 0 <= p.2 < 2 ^ 64) (index_of es).
Proof.
  intros Hok. destruct (table_layout es Hok) as (HT & HL & _). destruct Hok as (Hent & _ & Hmax).
  assert (Forall (fun e => zlen e.1 <= zlen (table_bytes es) /\ zlen (default [] e.2) <= zlen (table_bytes es)) es) as Hsz.
  { apply Forall_forall. intros e He. rewrite HT. by apply (enc_entry_lengths e es). }
  split; [done|].
  assert (Forall (fun e : entry => zlen e.1 <= zlen (table_bytes es)) es) as Hsz1
    by (eapply Forall_impl; [exact Hsz|naive_solver]).
  assert (Forall (fun e : entry => zlen e.1 <= UINT32_MAX) es) as Hk
    by (eapply Forall_impl; [exact Hent|by intros e [? _]]).
  pose proof (index_keys (fun k => zlen k <= UINT32_MAX) 0 _ (chunks_keys _ es Hk)) as H1.
  pose proof (index_keys (fun k => zlen k <= zlen (table_bytes es)) 0 _ (chunks_keys _ es Hsz1)) as H2.
  pose proof (chunk_index_range 0 (chunks es) ltac:(lia)) as H3. rewrite mjoin_chunks in H3.
  fold (index_of es) in H1, H2, H3. rewrite Forall_forall in *. intros q Hq.
  specialize (H1 q Hq). specialize (H2 q Hq). specialize (H3 q Hq). simpl in *. lia.
Qed.

(** Reading the last chunk gives the last entry. *)
Lemma load_last es s k off :
  table_ok es -> failbit s = false -> content s = table_bytes es -> last (index_of es) = Some (k, off) ->
  exists e, last es = Some e /\
    last_entry (S (length (table_bytes es))) (seekg off s) (zlen (enc_entries es)) (zlen (table_bytes es)) ([], None)
    = Ok e.
Proof.
  intros Hok Hf Hc (P & c & e & HPc & -> & He & Hes)%last_chunk. exists e. split; [done|].
  destruct (table_layout es Hok) as (HT & HL & _). destruct (table_entries_ok es Hok) as [Hsz _].
  destruct Hok as (Hent & _ & Hmax). pose proof (length_entries es) as Hle.
  assert (enc_entries es = enc_entries P ++ enc_entries c) as HD by (by rewrite HPc, enc_entries_app).
  assert (zlen (enc_entries P) <= zlen (enc_entries es)) by (rewrite HD, length_app; lia).
  assert (length c <= length es)%nat by (rewrite HPc, length_app; lia).
  unfold seekg. rewrite Hf, (proj2 (Z.leb_gt _ _)) by lia. rewrite Hc.
  assert (forall Q : entry -> Prop, Forall Q es -> Forall Q c) as Hsub.
  { intros Q HQ. rewrite HPc in HQ. by apply Forall_app in HQ as [_ ?]. }
  apply Hsub in Hent, Hsz.
  assert (length c < S (length (table_bytes es)))%nat as Hfuel by lia. revert Hfuel Hsz.
  generalize (S (length (table_bytes es))) as fuel, (zlen (table_bytes es)) as max. intros fuel max Hfuel Hsz.
  rewrite HT, HD, <- (app_assoc (enc_entries P)), last_entry_at by done. by rewrite He.
Qed.

Lemma head_key es :
  match head (index_of es) with Some (k, _) => k | None => [] end
  = match head es with Some e => e.1 | None => [] end.
Proof.
  pose proof (mjoin_chunks es) as Hj. pose proof (chunks_keys (fun _ => True) es) as Hk.
  rewrite !Forall_forall in Hk. specialize (Hk ltac:(done)). unfold index_of.
  destruct (chunks es) as [|c cs]; [by rewrite <- Hj|].
  destruct (Hk c) as (e & c' & -> & _); [set_solver|]. by rewrite <- Hj.
Qed.

(** The constructor reads back what [write] wrote. *)
Lemma load_written p es : table_ok es -> load p (table_bytes es) = Ok (table_of p es).
Proof.
  intros Hok. destruct (table_layout es Hok) as (HT & HL & HI). destruct (table_entries_ok es Hok) as [_ Hidx].
  set (D := enc_entries es) in *. set (C := enc_le 4 (zlen (index_of es))) in *.
  set (I := enc_index (index_of es)) in *. set (B := serializeBloom (filter_of es)) in *.
  pose proof Hok as (_ & Hcnt & Hmax). destruct (filter_of_wf es) as (Hwf & Hnb & Hnh).
  assert (zlen C = 4) as HC by (unfold C; by rewrite length_enc_le).
  assert (zlen (C ++ I) = 4 + zlen I) as HCI by (rewrite length_app; lia).
  set (F1 := enc_le 8 (zlen D)) in *. set (F2 := enc_le 8 (zlen D + zlen (C ++ I))) in *.
  assert (table_bytes es = (D ++ (C ++ I) ++ B) ++ F1 ++ F2) as HT0 by (rewrite HT; by rewrite <- !app_assoc).
  assert (zlen (D ++ (C ++ I) ++ B) = zlen (table_bytes es) - 16) as H0
    by (rewrite !length_app in *; lia).
  unfold load. rewrite (proj2 (Z.ltb_ge _ _)) by lia. unfold seek_from_end. cbn [failbit content].
  rewrite (proj2 (Z.ltb_ge _ _)) by lia. rewrite HT0 at 1. rewrite <- H0. unfold F1 at 1.
  rewrite readUint64_at by lia. fold F1. rewrite mkIn_assoc.
  replace (((D ++ (C ++ I) ++ B) ++ F1) ++ F2) with (((D ++ (C ++ I) ++ B) ++ F1) ++ F2 ++ []) by by rewrite app_nil_r.
  unfold F2 at 1. rewrite readUint64_at by lia. fold F2. rewrite app_nil_r, <- app_assoc, <- HT0.
  rewrite !(proj2 (Z.ltb_ge _ _)) by lia. cbn [orb].
  unfold seekg at 1. cbn [failbit content pos]. rewrite (proj2 (Z.leb_gt _ _)) by lia.
  rewrite HT at 1. rewrite <- (app_assoc C). unfold C at 1. rewrite readUint32_at by lia. fold C.
  rewrite (app_assoc C), <- HT.
  rewrite (proj2 (Z.leb_le 4 _)) by lia. rewrite (proj2 (Z.ltb_ge _ _)).
  2: { apply Z.div_le_lower_bound; lia. }
  rewrite Nat2Z.id. rewrite HT at 1. rewrite <- (app_assoc C), (app_assoc D). unfold I at 1.
  rewrite read_index_at by done. fold I.
  replace (((D ++ C) ++ I ++ B ++ F1 ++ F2)) with (table_bytes es) by (rewrite HT; by rewrite <- !app_assoc).
  unfold seekg at 1. cbn [failbit content pos]. rewrite (proj2 (Z.leb_gt _ _)) by lia.
  destruct (deserializeBloom_at (D ++ C ++ I) (filter_of es) (F1 ++ F2)) as (s' & Hs' & Hf' & Hc');
    [done|done|rewrite Hnh; lia|unfold F1, F2; by rewrite length_app, !length_enc_le| |].
  { fold B. rewrite HT in Hmax. by rewrite <- !app_assoc in *. }
  fold B in Hs', Hc'.
  replace ((D ++ C ++ I) ++ B ++ F1 ++ F2) with (table_bytes es) in Hs', Hc' by (rewrite HT; by rewrite <- !app_assoc).
  replace (zlen D + zlen (C ++ I)) with (zlen (D ++ C ++ I)) by (rewrite !length_app; lia).
  rewrite Hs'. unfold table_of. fold D.
  destruct (last (index_of es)) as [[k off]|] eqn:El.
  - destruct (load_last es s' k off Hok Hf' Hc' El) as (e & He & Hle).
    destruct (head (index_of es)) as [[k0 o0]|] eqn:Eh.
    + cbn beta iota. fold D in Hle. rewrite Hle, He. do 2 f_equal.
      pose proof (head_key es) as Hk. rewrite Eh in Hk. done.
    + apply head_None in Eh. by rewrite Eh in El.
  - assert (head (index_of es) = None) as -> by (apply last_None in El; by rewrite El).
    apply index_nil in El. by subst.
Qed.

(** ** Blocks *)

(** A known piece of a buffer, whatever way the buffer is bracketed. *)
Lemma slice_known buf (a b c : str) off n :
  buf = a ++ b ++ c -> off = zlen a -> n = zlen b -> slice off n buf = b.
Proof. intros -> -> ->. by apply slice_app_mid. Qed.

Lemma read_le_known buf (a c : str) v off :
  buf = a ++ enc_le 4 v ++ c -> off = zlen a -> 0 <= v <= UINT32_MAX -> read_le 4 off buf = v.
Proof. intros -> -> Hv. apply (read_le_app a c 4); [done|]. unfold UINT32_MAX in Hv. lia. Qed.

Lemma parse_loop_at c : forall pre fuel,
  Forall entry_ok c -> (length c < fuel)%nat -> parse_loop fuel (pre ++ enc_entries c) (zlen pre) = c.
Proof.
  induction c as [|e c IH]; intros pre [|fuel] Hok Hf; simpl in Hf; try lia.
  { cbn [parse_loop]. rewrite app_nil_r, (proj2 (Z.leb_gt _ _)) by lia. done. }
  apply Forall_cons in Hok as [[Hk Hv] Hok].
  cbn [parse_loop]. rewrite enc_entries_cons. pose proof (length_enc_entry e) as Hle.
  rewrite (proj2 (Z.leb_le _ _)) by (rewrite !length_app; lia).
  pose proof (IH (pre ++ enc_entry e) fuel Hok ltac:(lia)) as IH'. rewrite <- app_assoc in IH'.
  assert (zlen (pre ++ enc_entry e ++ enc_entries c) = zlen pre + zlen (enc_entry e) + zlen (enc_entries c)) as HL
    by (rewrite !length_app; lia).
  assert (zlen (pre ++ enc_entry e) = zlen pre + zlen (enc_entry e)) as Hpe by (rewrite length_app; lia).
  rewrite Hpe in IH'. destruct e as [k v]. unfold enc_entry in HL, IH', Hle |- *. cbn [fst snd] in *.
  set (tb := match v with Some _ => x00 | None => x01 end) in *. set (w := default [] v) in *.
  set (buf := pre ++ _) in *. set (rest := enc_entries c) in *.
  rewrite (read_le_known buf (pre ++ [tb]) (k ++ enc_le 4 (zlen w) ++ w ++ rest) (zlen k))
    by (subst buf; rewrite ?length_app, <- ?app_assoc; simpl; (done || lia)).
  rewrite (proj2 (Z.ltb_ge _ _)) by lia.
  rewrite (slice_known buf (pre ++ [tb] ++ enc_le 4 (zlen k)) k (enc_le 4 (zlen w) ++ w ++ rest))
    by (subst buf; rewrite ?length_app, ?length_enc_le, <- ?app_assoc; simpl; (done || lia)).
  rewrite (read_le_known buf (pre ++ [tb] ++ enc_le 4 (zlen k) ++ k) (w ++ rest) (zlen w))
    by (subst buf; rewrite ?length_app, ?length_enc_le, <- ?app_assoc; simpl; (done || lia)).
  rewrite (proj2 (Z.ltb_ge _ _)) by lia.
  rewrite (slice_known buf pre [tb] (enc_le 4 (zlen k) ++ k ++ enc_le 4 (zlen w) ++ w ++ rest))
    by (subst buf; rewrite <- ?app_assoc; simpl; (done || lia)).
  rewrite (slice_known buf (pre ++ [tb] ++ enc_le 4 (zlen k) ++ k ++ enc_le 4 (zlen w)) w rest)
    by (subst buf; rewrite ?length_app, ?length_enc_le, <- ?app_assoc; simpl; (done || lia)).
  f_equal; [subst tb w; by destruct v|].
  replace (zlen pre + 1 + 4 + zlen k + 4 + zlen w)
    with (zlen pre + zlen ([tb] ++ (enc_le 4 (zlen k) ++ k) ++ enc_le 4 (zlen w) ++ w)) by lia.
  exact IH'.
Qed.

(** A block parses to its entries. *)
Lemma parse_block c : Forall entry_ok c -> parseBlockEntries (enc_entries c) = c.
Proof.
  intros Hok. apply (parse_loop_at c [] _ Hok). pose proof (length_entries c). simpl. lia.
Qed.

Lemma scan_block_spec c key : keys_sorted c -> scan_block c key = alookup key c.
Proof.
  induction c as [|[k v] c IH]; [done|]. intros Hs. cbn [scan_block fst snd]. rewrite alookup_cons.
  destruct (decide (key = k)) as [->|Hne].
  - by rewrite (proj2 (str_eqb_eq k k) eq_refl).
  - destruct (k =?s key) eqn:E; [str_prop; congruence|].
    destruct (key <?s k) eqn:E2; str_prop.
    + pose proof (alookup_lt_head key k v c Hs E2) as H. rewrite alookup_cons, decide_False in H by done.
      by rewrite H.
    + apply IH. by apply keys_sorted_cons in Hs as [_ ?].
Qed.

(** ** The binary search *)

Lemma search_spec fuel idx key lo hi :
  (lo <= hi < length idx)%nat -> (hi - lo <= fuel)%nat ->
  (lo = 0%nat \/ exists k o, idx !! lo = Some (k, o) /\ ~ key <s k) ->
  (forall k o, idx !! S hi = Some (k, o) -> key <s k) ->
  exists r, search fuel idx key lo hi = Some r /\ (r < length idx)%nat /\
    (r = 0%nat \/ exists k o, idx !! r = Some (k, o) /\ ~ key <s k) /\
    (forall k o, idx !! S r = Some (k, o) -> key <s k).
Proof.
  revert lo hi. induction fuel as [|fuel IH]; intros lo hi Hr Hf Hlo Hhi; cbn [search].
  { rewrite (proj2 (Nat.ltb_ge _ _)) by lia. exists lo. replace lo with hi in * by lia. by split_and!; [|lia|..]. }
  destruct (Nat.ltb_spec lo hi) as [Hlt|Hge].
  2: { exists lo. replace lo with hi in * by lia. by split_and!; [|lia|..]. }
  pose proof (Nat.div_mod_eq (hi - lo + 1) 2). pose proof (Nat.mod_upper_bound (hi - lo + 1) 2 ltac:(lia)).
  set (mid := (lo + (hi - lo + 1) / 2)%nat) in *.
  assert (lo < mid <= hi)%nat as Hmid by lia.
  destruct (lookup_lt_is_Some_2 idx mid) as [[k o] Hm]; [lia|]. rewrite Hm. cbn [mbind option_bind].
  destruct (k <=?s key) eqn:E.
  - apply IH; [lia|lia| |done]. right. exists k, o. split; [done|].
    str_prop. destruct E as [->|E]; [apply str_lt_irrefl|by apply str_lt_asym].
  - apply IH; [lia|lia|done|]. replace (S (mid - 1)) with mid by lia. rewrite Hm. intros ? ? [= <- <-].
    unfold str_leb in E. apply negb_false_iff in E. by str_prop.
Qed.

(** The chunk a key belongs to holds all that the table says of it. *)
Lemma chunk_lookup (cs : list (list entry)) off r c key :
  keys_sorted (mjoin cs) -> Forall (fun c => exists e c', c = e :: c' /\ True) cs ->
  cs !! r = Some c ->
  (r = 0%nat \/ exists k o, chunk_index off cs !! r = Some (k, o) /\ ~ key <s k) ->
  (forall k o, chunk_index off cs !! S r = Some (k, o) -> key <s k) ->
  alookup key (mjoin cs) = alookup key c /\ keys_sorted c.
Proof.
  intros Hs Hne Hc Hlo Hhi. pose proof (lookup_lt_Some _ _ _ Hc) as Hlen.
  rewrite (mjoin_middle cs r c Hc) in Hs |- *. apply keys_sorted_app in Hs as (H1 & H2 & H3).
  apply keys_sorted_app in H3 as (H3 & H4 & H5). split; [|done].
  rewrite Forall_forall in Hne. rewrite alookup_app.
  assert (alookup key (mjoin (take r cs)) = None) as ->.
  { destruct Hlo as [->|(k & o & Hi & Hk)]; [done|]. rewrite (chunk_index_lookup _ _ _ c Hc) in Hi.
    destruct (Hne c) as (e & c' & -> & _); [by eapply list_elem_of_lookup_2|]. injection Hi as <- <-.
    apply alookup_None. intros Hin. apply Hk. apply H1; [done|]. set_solver. }
  destruct (alookup key c) as [v|] eqn:Ec; rewrite alookup_app, Ec; [done|].
  destruct (cs !! S r) as [c2|] eqn:E2.
  - specialize (Hhi _ _ (chunk_index_lookup _ _ _ c2 E2)).
    destruct (Hne c2) as (e & c' & -> & _); [by eapply list_elem_of_lookup_2|].
    rewrite (drop_S _ (e :: c')) in H5 |- * by done. rewrite mjoin_cons in H5 |- *. cbn [app] in *.
    destruct e as [k v]. by apply alookup_lt_head.
  - apply lookup_ge_None in E2. by rewrite drop_ge by lia.
Qed.

(** What [get] finds: the block of the key, where it lies, and what it holds. *)
Lemma find_block es key :
  table_ok es -> keys_sorted es -> es <> [] ->
  exists r c k off, find_index (index_of es) key = Some r /\ index_of es !! r = Some (k, off) /\
    (match index_of es !! S r with Some (_, o) => o | None => zlen (enc_entries es) end)
      = off + zlen (enc_entries c) /\
    slice off (zlen (enc_entries c)) (table_bytes es) = enc_entries c /\
    0 <= off /\ off + zlen (enc_entries c) <= zlen (table_bytes es) /\
    c <> [] /\ Forall entry_ok c /\ alookup key es = alookup key c /\ keys_sorted c.
Proof.
  intros Hok Hs Hne. pose proof (chunks_keys (fun _ => True) es) as Hk.
  assert (Forall (fun c : list entry => exists e c', c = e :: c' /\ True) (chunks es)) as Hne'
    by (apply Hk, Forall_forall; done). clear Hk.
  assert (0 < length (chunks es))%nat as Hpos.
  { rewrite <- (mjoin_chunks es) in Hne. destruct (chunks es); [done|]. simpl. lia. }
  destruct (search_spec (length (index_of es)) (index_of es) key 0 (length (index_of es) - 1))
    as (r & Hr & Hlt & Hlo & Hhi).
  { unfold index_of. rewrite length_chunk_index. lia. } { lia. } { by left. }
  { intros k o Hk%lookup_lt_Some. lia. }
  unfold index_of in Hlt. rewrite length_chunk_index in Hlt.
  destruct (lookup_lt_is_Some_2 (chunks es) r Hlt) as [c Hc].
  destruct (chunk_lookup (chunks es) 0 r c key) as [Hal Hsc]; [by rewrite mjoin_chunks|done..|].
  rewrite mjoin_chunks in Hal.
  destruct (table_layout es Hok) as (HT & HL & _). destruct Hok as (Hent & _ & Hmax).
  set (P := mjoin (take r (chunks es))). set (Q := mjoin (drop (S r) (chunks es))).
  assert (es = P ++ c ++ Q) as Hes.
  { rewrite <- (mjoin_chunks es). by apply mjoin_middle. }
  assert (enc_entries es = enc_entries P ++ enc_entries c ++ enc_entries Q) as HD
    by (by rewrite Hes, !enc_entries_app).
  exists r, c, (match c with e :: _ => e.1 | [] => [] end), (zlen (enc_entries P)).
  split; [done|]. split; [apply (chunk_index_lookup 0 (chunks es) r c Hc)|].
  split; [|split; [|split; [lia|split; [|split; [|split; [|done]]]]]].
  - unfold index_of. destruct (chunks es !! S r) as [c2|] eqn:E2.
    + rewrite (chunk_index_lookup 0 (chunks es) (S r) c2 E2), (take_S_r _ _ c) by done.
      rewrite mjoin_app, mjoin_singleton, enc_entries_app, length_app. subst P. lia.
    + assert (chunk_index 0 (chunks es) !! S r = None) as ->.
      { apply lookup_ge_None. rewrite length_chunk_index. by apply lookup_ge_None. }
      apply lookup_ge_None in E2. assert (Q = []) as HQ by (subst Q; by rewrite drop_ge by lia).
      rewrite HD, HQ, !length_app. simpl. lia.
  - rewrite HT, HD, <- !app_assoc. by apply slice_app_mid.
  - rewrite HD, !length_app in HL. lia.
  - rewrite Forall_forall in Hne'. destruct (Hne' c) as (? & ? & -> & _); [by eapply list_elem_of_lookup_2|done].
  - rewrite Hes in Hent. apply Forall_app in Hent as [_ Hent]. by apply Forall_app in Hent as [? _].
Qed.

(** ** Iteration *)

(** The stream stands before the entries [es], which end the data section. *)
Definition at_entries (s : ifstream) (data_end : Z) (es : list entry) : Prop :=
  exists pre post, s = mkIn (pre ++ enc_entries es ++ post) (zlen pre) false /\
    data_end = zlen (pre ++ enc_entries es).

(** What the iterator will still deliver. *)
Definition iter_rep (it : Iter) (es : list entry) : Prop :=
  Forall entry_ok es /\
  match es with
  | [] => current_ it = None
  | e :: es => current_ it = Some e /\ exists s, in_ it = Some s /\ at_entries s (data_end_offset it) es
  end.

Lemma read_zeroed_at pre d post n :
  n = zlen d ->
  read_zeroed n (mkIn (pre ++ d ++ post) (zlen pre) false)
  = (d, mkIn (pre ++ d ++ post) (zlen (pre ++ d)) false).
Proof. intros ->. unfold read_zeroed. by rewrite sread_at, pad_full. Qed.

Lemma advance_rep s data_end es cur :
  at_entries s data_end es -> Forall entry_ok es -> iter_rep (advance (mkIter (Some s) data_end cur)) es.
Proof.
  intros (pre & post & -> & ->) Hok. split; [done|]. unfold advance. cbn [in_ data_end_offset].
  unfold tellg, peek_eof. cbn [failbit pos content orb].
  destruct es as [|e es].
  { rewrite app_nil_r, Z.ltb_irrefl. done. }
  apply Forall_cons in Hok as [[Hk Hv] Hok]. rewrite enc_entries_cons. pose proof (length_enc_entry e).
  rewrite (proj2 (Z.ltb_lt _ _)), (proj2 (Z.leb_gt _ _)) by (rewrite !length_app; lia). cbn [negb andb].
  destruct e as [k v]. cbn [fst snd] in *. set (w := default [] v) in *.
  set (tb := match v with Some _ => x00 | None => x01 end).
  assert (enc_entry (k, v) ++ enc_entries es
    = [tb] ++ enc_le 4 (zlen k) ++ k ++ enc_le 4 (zlen w) ++ w ++ enc_entries es) as ->
    by (unfold enc_entry; cbn [fst snd]; by rewrite <- !app_assoc).
  rewrite <- !app_assoc. rewrite read_zeroed_at by done.
  rewrite mkIn_assoc, readUint32_at by lia. rewrite mkIn_assoc, read_zeroed_at by done.
  rewrite mkIn_assoc, readUint32_at by lia. rewrite mkIn_assoc, read_zeroed_at by done.
  cbn [current_ in_ data_end_offset]. split; [subst tb w; by destruct v|].
  eexists. split; [done|]. eexists _, post. rewrite mkIn_assoc. split; [done|].
  unfold enc_entry. cbn [fst snd]. fold tb w. by rewrite <- !app_assoc.
Qed.

Lemma next_rep it e es : iter_rep it (e :: es) -> exists it', next it = Some (e, it') /\ iter_rep it' es.
Proof.
  intros (Hok & Hc & s & Hs & Hat). exists (advance it). unfold next. rewrite Hc. split; [done|].
  destruct it as [i d c]. cbn [in_ data_end_offset] in *. subst i.
  apply advance_rep; [done|]. by apply Forall_cons in Hok as [_ ?].
Qed.

(** What a client's loop over [hasNext] and [next] collects, with fuel. *)
Fixpoint drained (fuel : nat) (it : Iter) : option (list entry) :=
  match fuel with
  | O => None
  | S fuel => if hasNext it then '(e, it) ← next it; l ← drained fuel it; Some (e :: l) else Some []
  end.

Lemma drained_rep fuel it es : iter_rep it es -> (length es < fuel)%nat -> drained fuel it = Some es.
Proof.
  revert it es. induction fuel as [|fuel IH]; intros it es Hit Hf; [lia|]. cbn [drained]. unfold hasNext.
  destruct es as [|e es]; [by rewrite (proj2 Hit)|]. rewrite (proj1 (proj2 Hit)), bool_decide_true by by eexists.
  destruct (next_rep _ _ _ Hit) as (it' & -> & Hit'). cbn [mbind option_bind]. cbn in Hf. by rewrite (IH it' es) by (done || lia).
Qed.

(** The file bounds what is left. *)
Lemma iter_length it es :
  iter_rep it es -> (length es <= 1 + match in_ it with Some f => length (content f) | None => 0 end)%nat.
Proof.
  destruct es as [|e l]; intros H; [simpl; lia|]. destruct H as (_ & _ & s & -> & pre & post & -> & _).
  cbn [content length]. rewrite !length_app. enough (length l <= length (enc_entries l))%nat by lia.
  clear. induction l as [|e l IH]; [done|]. rewrite enc_entries_cons, length_app. pose proof (length_enc_entry e). simpl. lia.
Qed.

Lemma hasNext_rep it es : iter_rep it es -> hasNext it = bool_decide (es <> []).
Proof.
  intros [_ H]. unfold hasNext. destruct es as [|e es]; [by rewrite H|].
  destruct H as [-> _]. by rewrite !bool_decide_true by (done || by eexists).
Qed.

Lemma peek_rep it es : iter_rep it es -> current_ it = head es.
Proof. intros [_ H]. destruct es; [done|]. by destruct H. Qed.

(** An iterator opened at the boundary between [P] and [Q] delivers [Q]. *)
Lemma new_iter_rep es P Q :
  table_ok es -> es = P ++ Q ->
  iter_rep (new_iter (Some (table_bytes es)) (zlen (enc_entries es)) (zlen (enc_entries P))) Q.
Proof.
  intros Hok Hes. destruct (table_layout es Hok) as (HT & HL & _). destruct Hok as (Hent & _ & Hmax).
  assert (enc_entries es = enc_entries P ++ enc_entries Q) as HD by (by rewrite Hes, enc_entries_app).
  unfold new_iter. cbn [fmap option_fmap option_map].
  apply advance_rep; [|rewrite Hes in Hent; by apply Forall_app in Hent as [_ ?]].
  eexists (enc_entries P), _. split; [|by rewrite HD].
  assert (zlen (enc_entries P) < 2 ^ 63) by (rewrite HD, !length_app in HL; lia).
  rewrite HT, HD, <- !app_assoc. cbv zeta. destruct (Z.ltb_spec 0 (zlen (enc_entries P))).
  - unfold seekg. cbn [failbit pos content]. by rewrite (proj2 (Z.leb_gt _ _)) by lia.
  - f_equal. lia.
Qed.

(** [findBlock] stops at a chunk with every smaller chunk below the key. *)
Lemma findBlock_spec es key :
  keys_sorted es -> exists P Q, es = P ++ Q /\ findBlock (index_of es) key = Some (zlen (enc_entries P)) /\
    (forall k, k ∈ P.*1 -> k <s key).
Proof.
  intros Hs. pose proof (chunks_keys (fun _ => True) es) as Hk.
  rewrite !Forall_forall in Hk. specialize (Hk ltac:(done)).
  destruct (decide (chunks es = [])) as [Hnil|Hne].
  { exists [], es. unfold index_of. rewrite Hnil. split_and!; [done|done|set_solver]. }
  assert (0 < length (chunks es))%nat as Hpos by (destruct (chunks es); [done|simpl; lia]).
  destruct (search_spec (length (index_of es)) (index_of es) key 0 (length (index_of es) - 1))
    as (r & Hr & Hlt & Hlo & Hhi).
  { unfold index_of. rewrite length_chunk_index. lia. } { lia. } { by left. }
  { intros k o Hl%lookup_lt_Some. lia. }
  unfold index_of in Hlt. rewrite length_chunk_index in Hlt.
  destruct (lookup_lt_is_Some_2 (chunks es) r Hlt) as [c Hc].
  pose proof (chunk_index_lookup 0 (chunks es) r c Hc) as Hi. fold (index_of es) in Hi.
  pose proof (mjoin_middle _ _ _ Hc) as Hm. rewrite mjoin_chunks in Hm.
  exists (mjoin (take r (chunks es))), (c ++ mjoin (drop (S r) (chunks es))). split_and!; [done| |].
  - unfold findBlock, find_index. rewrite Hr. destruct (index_of es) eqn:E; [by rewrite lookup_nil in Hi|].
    rewrite <- E in *. cbn [mbind option_bind]. by rewrite Hi.
  - intros k Hin. destruct Hlo as [->|(k0 & o & Hi' & Hge)]; [set_solver|].
    rewrite Hi in Hi'. destruct (Hk c) as (e & c' & -> & _); [by eapply list_elem_of_lookup_2|].
    injection Hi' as <- <-. rewrite Hm in Hs. apply keys_sorted_app in Hs as (H1 & _ & _).
    eapply str_lt_le_trans; [apply H1; [exact Hin|]|exact Hge]. set_solver.
Qed.

Lemma skip_loop_rep fuel start it es :
  iter_rep it es -> keys_sorted es -> (length es <= fuel)%nat ->
  exists it', skip_loop fuel start it = Some it' /\ iter_rep it' (afrom start es).
Proof.
  revert it es. induction fuel as [|fuel IH]; intros it es Hit Hs Hf.
  { destruct es; [|simpl in Hf; lia]. exists it. simpl. by rewrite (peek_rep _ _ Hit). }
  cbn [skip_loop]. rewrite (peek_rep _ _ Hit). destruct es as [|e es]; [by exists it|].
  change (head (e :: es)) with (Some e). cbv iota.
  destruct (e.1 <?s start) eqn:E; str_prop.
  - destruct (next_rep _ _ _ Hit) as (it' & Hn & Hit'). rewrite Hn. cbn [mbind option_bind].
    rewrite afrom_cons_lt by done. apply IH; [done| |simpl in Hf; lia].
    destruct e. by apply keys_sorted_cons in Hs as [_ ?].
  - exists it. split; [done|]. rewrite afrom_all; [done|]. destruct e as [k v].
    apply keys_sorted_cons in Hs as [Hs _]. simpl in *. intros k' [->|Hk'%Hs]%elem_of_cons Hlt.
    + destruct E as [->|E]; [by apply (str_lt_irrefl k)|by apply (str_lt_asym start k)].
    + destruct E as [->|E]; [by apply (str_lt_asym k k')|].
      apply (str_lt_asym start k'); [by eapply str_lt_trans|done].
Qed.

(** ** [readAll] *)

Lemma read_all_at es : forall pre post max fuel,
  Forall entry_ok es -> Forall (fun e => zlen e.1 <= max /\ zlen (default [] e.2) <= max) es ->
  (length es < fuel)%nat ->
  read_all_loop fuel (mkIn (pre ++ enc_entries es ++ post) (zlen pre) false) (zlen (pre ++ enc_entries es)) max
  = Ok es.
Proof.
  induction es as [|e es IH]; intros pre post max [|fuel] Hok Hmax Hf; simpl in Hf; try lia.
  { cbn [read_all_loop]. unfold tellg. cbn [failbit pos]. by rewrite app_nil_r, Z.ltb_irrefl. }
  apply Forall_cons in Hok as [He Hok], Hmax as [[H1 H2] Hmax].
  cbn [read_all_loop]. unfold tellg, peek_eof. cbn [failbit pos content orb]. rewrite enc_entries_cons.
  pose proof (length_enc_entry e).
  rewrite (proj2 (Z.ltb_lt _ _)), (proj2 (Z.leb_gt _ _)) by (rewrite !length_app; lia). cbn [negb andb].
  rewrite <- (app_assoc (enc_entry e)), readEntry_at by done.
  by rewrite mkIn_assoc, (app_assoc pre (enc_entry e)), IH by (done || lia).
Qed.

Lemma footer_index es :
  table_ok es ->
  exists s, readUint64 (seek_from_end 16 (mkIn (table_bytes es) 0 false)) = (zlen (enc_entries es), s) /\
    failbit s = false /\ content s = table_bytes es.
Proof.
  intros Hok. destruct (table_layout es Hok) as (HT & HL & _). destruct Hok as (_ & _ & Hmax).
  unfold seek_from_end. cbn [failbit content]. rewrite (proj2 (Z.ltb_ge _ _)) by lia.
  rewrite !app_assoc in HT. rewrite <- (app_assoc _ (enc_le 8 _) (enc_le 8 _)) in HT.
  set (pre := _ ++ serializeBloom _) in HT.
  assert (zlen (table_bytes es) - 16 = zlen pre) as ->.
  { rewrite HT, !length_app, !length_enc_le. lia. }
  rewrite HT, readUint64_at by lia. by eexists.
Qed.

Lemma read_all_written es max :
  table_ok es -> Forall (fun e => zlen e.1 <= max /\ zlen (default [] e.2) <= max) es ->
  read_all (table_bytes es) max = Ok es.
Proof.
  intros Hok Hm. unfold read_all. destruct (footer_index es Hok) as (s & -> & Hf & Hc).
  destruct (table_layout es Hok) as (HT & HL & _). pose proof (length_entries es) as Hle.
  unfold seekg. rewrite Hf. change (2 ^ 63 <=? 0) with false. cbv iota. rewrite Hc.
  assert (length es < S (length (table_bytes es)))%nat as Hfuel by lia. revert Hfuel.
  generalize (S (length (table_bytes es))) as fuel. intros fuel Hfuel. rewrite HT.
  apply (read_all_at es []); [apply Hok|done..].
Qed.

(** ** Arbitrary files *)

(** A read moves the position forward inside the file, or fails. *)
Lemma sread_pos n s d s' :
  sread n s = (d, s') -> 0 <= pos s ->
  content s' = content s /\ 0 <= pos s' /\
  (failbit s = false -> pos s' = pos s + zlen d /\ (zlen d = 0 \/ pos s' <= zlen (content s))) /\
  (failbit s = true -> failbit s' = true).
Proof.
  unfold sread. destruct (failbit s) eqn:Hf; intros [= <- <-] Hp; [done|]. cbn [content pos failbit].
  split_and!; [done|lia| |done]. intros _. split; [done|]. unfold slice. rewrite length_take, length_drop. lia.
Qed.

Lemma readString_pos s max r s' :
  readString s max = Ok (r, s') -> 0 <= pos s ->
  content s' = content s /\ 0 <= pos s' /\ (failbit s' = false -> failbit s = false /\ pos s <= pos s').
Proof.
  unfold readString, readUint32. destruct (sread 4 s) as [d1 s1] eqn:E1. case_match; [done|].
  destruct (sread _ s1) as [d2 s2] eqn:E2. intros [= _ <-] Hp.
  destruct (sread_pos _ _ _ _ E1 Hp) as (C1 & P1 & F1 & G1).
  destruct (sread_pos _ _ _ _ E2 P1) as (C2 & P2 & F2 & G2).
  split_and!; [congruence|done|]. intros Hf.
  assert (failbit s1 = false) as Hf1 by (destruct (failbit s1); [by rewrite G2 in Hf|done]).
  assert (failbit s = false) as Hf0 by (destruct (failbit s); [by rewrite G1 in Hf1|done]).
  split; [done|]. destruct (F1 Hf0) as [? _], (F2 Hf1) as [? _]. lia.
Qed.

(** One more entry: the tombstone byte is there, and the position advances. *)
Lemma readEntry_progress s max :
  failbit s = false -> 0 <= pos s < zlen (content s) ->
  match readEntry s max with
  | Ok (_, s') => content s' = content s /\ 0 <= pos s' /\ (failbit s' = false -> pos s < pos s')
  | Throw _ => True
  | Crashed | Undefined => False
  end.
Proof.
  intros Hf Hp. unfold readEntry. destruct (sread 1 s) as [d s1] eqn:E1.
  destruct (sread_pos _ _ _ _ E1 ltac:(lia)) as (C1 & P1 & F1 & _). destruct (F1 Hf) as [Hpos _].
  assert (zlen d = 1) as Hd.
  { unfold sread in E1. rewrite Hf in E1. injection E1 as <- _. rewrite slice_length; lia. }
  destruct d as [|b d]; [done|].
  destruct (readString s1 max) as [[k s2]|e| |] eqn:E2; [|done|by unfold readString in E2; repeat case_match..].
  destruct (readString_pos _ _ _ _ E2 P1) as (C2 & P2 & F2).
  destruct (readString s2 max) as [[v s3]|e| |] eqn:E3; [|done|by unfold readString in E3; repeat case_match..].
  destruct (readString_pos _ _ _ _ E3 P2) as (C3 & P3 & F3).
  split_and!; [congruence|done|]. intros Hf3. destruct (F3 Hf3) as [Hf2 ?], (F2 Hf2) as [_ ?]. lia.
Qed.

(** ** Properties *)

(** the constructor's scan for the largest key ends on every file, however
    corrupt, without reading an uninitialised tombstone byte. *)
Theorem last_entry_total s idx max e :
  0 <= pos s -> idx <= zlen (content s) -> zlen (content s) < 2 ^ 63 ->
  match last_entry (S (length (content s))) s idx max e with
  | Ok _ | Throw _ => True
  | Crashed | Undefined => False
  end.
Proof.
  intros Hp Hi Hmax.
  assert (forall fuel s e, 0 <= pos s -> idx <= zlen (content s) -> zlen (content s) < 2 ^ 63 ->
            (failbit s = false -> zlen (content s) - pos s < Z.of_nat fuel) -> (0 < fuel)%nat ->
            match last_entry fuel s idx max e with
            | Ok _ | Throw _ => True | Crashed | Undefined => False end) as H; [|apply H; lia].
  clear. induction fuel as [|fuel IH]; intros s e Hp Hi Hmax Hf H0; [lia|]. cbn [last_entry].
  destruct (Z.ltb_spec (tellg s) idx) as [Hlt|]; [|done]. unfold tellg in Hlt.
  destruct (failbit s) eqn:Hfb; [unfold UINT64_MAX in Hlt; lia|].
  pose proof (readEntry_progress s max Hfb ltac:(lia)) as Hr.
  destruct (readEntry s max) as [[e' s']| | |]; [|done..]. destruct Hr as (Hc & Hp' & Hadv).
  specialize (Hf eq_refl). apply IH; rewrite ?Hc; [done..| |lia]. intros Hfb'. specialize (Hadv Hfb'). lia.
Qed.

Lemma last_entry_total_witness :
  match last_entry 5 (mkIn (bs "junk") 0 false) 4 4 ([], None) with
  | Ok _ | Throw _ => True
  | Crashed | Undefined => False
  end.
Proof.
  apply (last_entry_total (mkIn (bs "junk") 0 false) 4 4 ([], None)); vm_compute; (discriminate || reflexivity).
Defined.

(** moving a table loses its file size: [readAll] on the moved-to object
    throws for every table whose first key is not empty, though its file is
    intact. *)
Theorem moved_readAll_throws p es k v :
  table_ok ((k, v) :: es) -> k <> [] ->
  exists e, read_all (table_bytes ((k, v) :: es)) (file_size (move (table_of p ((k, v) :: es))).1) = Throw e.
Proof.
  intros Hok Hk. unfold read_all. destruct (footer_index _ Hok) as (s & -> & Hf & Hc).
  destruct (table_layout _ Hok) as (HT & HL & _). destruct Hok as (Hent & _ & Hmax).
  apply Forall_cons in Hent as [[Hku Hvu] _]. cbn [fst snd] in *.
  unfold seekg. rewrite Hf. change (2 ^ 63 <=? 0) with false. cbv iota. rewrite Hc.
  assert (0 < zlen (enc_entries ((k, v) :: es))) as Hpos.
  { rewrite enc_entries_cons, length_app. pose proof (length_enc_entry (k, v)). lia. }
  cbn [read_all_loop]. unfold tellg, peek_eof. cbn [failbit pos content orb].
  rewrite (proj2 (Z.ltb_lt _ _)), (proj2 (Z.leb_gt _ _)) by lia. cbn [negb andb].
  unfold readEntry. cbn [move file_size fst]. rewrite HT, enc_entries_cons. unfold enc_entry. cbn [fst snd].
  rewrite <- !app_assoc. set (rest := (match v with Some _ => x00 | None => x01 end :: [])).
  rewrite (fun post => sread_at [] rest post 1 eq_refl : sread 1 (mkIn (rest ++ post) 0 false) = _).
  unfold readString. cbn [app]. rewrite readUint32_at by lia. destruct k as [|b k]; [done|].
  rewrite (proj2 (Z.ltb_lt _ _)) by (simpl; lia). by eexists.
Qed.

Lemma moved_readAll_throws_witness :
  exists e, read_all (table_bytes [(bs "k", Some (bs "v"))])
              (file_size (move (table_of (bs "p") [(bs "k", Some (bs "v"))])).1) = Throw e.
Proof.
  apply (moved_readAll_throws (bs "p") [] (bs "k") (Some (bs "v"))); [|discriminate].
  split; [repeat constructor; vm_compute; discriminate|]. split; [vm_compute; discriminate|vm_compute; reflexivity].
Defined.

(** A footer whose filter offset is the file's end passes the checks, and the
    constructor goes on with uninitialised counts. *)
Example load_uninitialised :
  load (bs "p") (enc_le 4 0 ++ enc_le 8 0 ++ enc_le 8 20) = Undefined.
Proof. vm_compute. reflexivity. Qed.

End TableFormat.
