(* ===== verification/SSTable.v ===== *)
(** * Tables on disk

    Models the operations of [SSTable] in [src/sstable/sstable_builder.cpp] and
    [sstable_reader.cpp] as they act on the files, the block cache and the
    outcomes of system calls: publishing a table under its name, opening it,
    point lookups through the cache, and iterators. *)

From S2P Require Import Prelude Bloom BlockCache Fault World Names TableFormat.
Open Scope Z_scope.

Module SSTable.
Import TableFormat.

(** ** Writing *)

Definition fail {A} (what : string) : M A := throw (RuntimeError what).

(** Removal whose own failure is ignored. *)
Definition discardPartial (tmp : str) : M unit := _ ← remove tmp; mret tt.

Definition fsyncParentDir : M unit :=
  opened ← call;
  if negb opened then fail "SSTable: cannot open directory for fsync" else
  synced ← call;
  if negb synced then _ ← call; fail "SSTable: directory fsync failed" else
  closed ← call;
  if negb closed then fail "SSTable: directory close after fsync failed" else mret tt.

Definition write (path : str) (entries : list entry) : M unit :=
  if negb (check_sorted entries) then fail "SSTable: entries must be sorted by key and unique" else
  let tmp := Names.tmp_of path in
  created ← open_trunc tmp;
  if negb created then fail "SSTable: cannot create file" else
  match build entries with
  | (data, Some e) => _ ← flush_to tmp data; throw e   (* the stream's destructor flushes *)
  | (data, None) =>
      good ← flush_to tmp data;
      if negb good then discardPartial tmp ;; fail "SSTable: failed while writing" else
      closed ← call;
      if negb closed then discardPartial tmp ;; fail "SSTable: failed while closing" else
      fd ← open_read tmp;
      match fd with
      | None => discardPartial tmp ;; fail "SSTable: cannot reopen for fsync"
      | Some _ =>
          synced ← call;
          if negb synced then _ ← call; discardPartial tmp ;; fail "SSTable: fsync failed" else
          closed ← call;
          if negb closed then discardPartial tmp ;; fail "SSTable: close after fsync failed" else
          published ← rename tmp path;
          if negb published then discardPartial tmp ;; fail "SSTable: cannot publish" else
          fsyncParentDir
      end
  end.

(** ** Opening and closing *)

(** The constructor. *)
Definition open (path : str) : M t :=
  fd ← open_read path;
  match fd with
  | None => fail "SSTable: cannot open"
  | Some _ =>
      stream ← open_read path;
      match stream with
      | None => fail "SSTable: cannot open"
      | Some data => of_result (load path data)
      end
  end.

(** The destructor. *)
Definition destroy (o : t) : M unit :=
  modify (fun w => set_cache (BlockCache.invalidatePath (path o) (cache w)) w).

(** ** Reading *)

(** [pread] of [len] bytes at [off]; [None]: it fails. *)
Definition pread (fd : str) (len off : Z) : M (option str) :=
  o ← next_outcome;
  mret (if 2 ^ 63 <=? off then None
        else match o with
             | Success => Some (slice off len fd)
             | Failure => None
             | Partial n => Some (take n (slice off len fd))
             end).

Definition get (o : t) (key : str) : M (option (option str)) :=
  bf ← of_option (bloom o);
  if negb (Bloom.mayContain key bf) then mret None else
  match index o with
  | [] => mret None
  | _ =>
      lo ← of_option (find_index (index o) key);
      '(_, block_start) ← of_option (index o !! lo);
      let block_end := match index o !! S lo with Some (_, off) => off | None => index_offset o end in
      c ← gets cache;
      '(cached, c) ← of_option (BlockCache.get (path o) block_start c);
      modify (set_cache c) ;;
      match cached with
      | Some entries => mret (scan_block entries key)
      | None =>
          match fd o with
          | None => fail "SSTable: persistent descriptor invalid"
          | Some file =>
              if block_end <=? block_start then mret None else
              let block_len := block_end - block_start in
              if 2 ^ 63 <=? block_len then throw (LengthError "basic_string") else
              bytes ← pread file block_len block_start;
              match bytes with
              | None => fail "SSTable: pread I/O error"
              | Some buf =>
                  if zlen buf <? block_len then fail "SSTable: incomplete pread read" else
                  let entries := parseBlockEntries buf in
                  c ← gets cache;
                  c ← of_option (BlockCache.put (path o) block_start entries c);
                  modify (set_cache c) ;;
                  mret (scan_block entries key)
              end
          end
      end
  end.

Definition readAll (o : t) : M (list entry) :=
  file ← open_read (path o);
  match file with
  | None => mret []
  | Some data => of_result (read_all data (file_size o))
  end.

(** ** Iterators *)

(** [createIterator()] and [createIterator(start_key)]; a file that cannot be
    opened gives an iterator that delivers nothing. *)
Definition createIterator (o : t) : M Iter :=
  file ← open_read (path o);
  mret (new_iter file (index_offset o) 0).

Definition createIteratorFrom (o : t) (start_key : str) : M Iter :=
  off ← of_option (findBlock (index o) start_key);
  file ← open_read (path o);
  of_option (skip_loop (S (length (default [] file))) start_key (new_iter file (index_offset o) off)).

(** ** Publishing a table *)

Lemma tmp_ne path : Names.tmp_of path <> path.
Proof.
  unfold Names.tmp_of. intros H. apply (f_equal length) in H. rewrite length_app in H. simpl in H. lia.
Qed.

Lemma check_sorted_spec es : check_sorted es = true <-> keys_sorted es.
Proof.
  induction es as [|a es IH]; [split; [constructor|done]|].
  destruct es as [|b es].
  { split; [|done]. intros _. repeat constructor. }
  change (check_sorted (a :: b :: es)) with ((a.1 <?s b.1) && check_sorted (b :: es)).
  rewrite andb_true_iff, IH, str_ltb_lt. destruct a as [ka va]. rewrite keys_sorted_cons. cbn [fst].
  split; intros [H1 H2]; split; try done.
  - destruct b as [kb vb]. simpl in *. apply keys_sorted_cons in H2 as [H2 _].
    intros k [->|Hk%H2]%elem_of_cons; [done|]. by eapply str_lt_trans.
  - apply H1. set_solver.
Qed.

(** Worlds that differ in the outcomes still to come and in [tmp]. *)
Record only_tmp (tmp : str) (w w' : world) : Prop := {
  ot_files : forall q, q <> tmp -> files w' !! q = files w !! q;
  ot_cache : cache w' = cache w;
  ot_faults : faults w' = faults w
}.

Lemma only_tmp_refl tmp w : only_tmp tmp w w.
Proof. done. Qed.

Lemma only_tmp_io tmp w w' l : only_tmp tmp w w' -> only_tmp tmp w (set_io l w').
Proof. by intros []. Qed.

Lemma only_tmp_set tmp w w' l m :
  only_tmp tmp w w' -> (forall q, q <> tmp -> m !! q = files w' !! q) ->
  only_tmp tmp w (set_files m (set_io l w')).
Proof. intros [H1 H2 H3] Hm. split; [|done..]. intros q Hq. simpl. by rewrite Hm, H1. Qed.

(** Discarding the temporary and throwing. *)
Lemma discard_throw {A} tmp w w' what (Q : result A -> world -> Prop) :
  only_tmp tmp w w' ->
  (forall w'', only_tmp tmp w w'' -> Q (Throw (RuntimeError what)) w'') ->
  wp (discardPartial tmp ;; fail what) Q w'.
Proof.
  intros Hw HQ. apply wp_bind, wp_bind, wp_remove; intros l _; cbn [after]; apply wp_ret, wp_throw, HQ.
  - apply only_tmp_set; [done|]. intros q Hq. by rewrite lookup_delete_ne.
  - by apply only_tmp_io.
Qed.

Lemma fsyncParentDir_wp (Q : result unit -> world -> Prop) w :
  (forall l, (io w = [] -> l = []) -> Q (Ok tt) (set_io l w)) ->
  (forall l e, io w <> [] -> Q (Throw e) (set_io l w)) -> wp fsyncParentDir Q w.
Proof.
  intros Hok Hth. unfold fsyncParentDir. apply wp_bind, wp_call. intros [] l1 H1; cbn [after negb].
  2: { apply wp_throw, Hth. intros Hio. by destruct (H1 Hio). }
  apply wp_bind, wp_call. intros [] l2 H2; cbn [after negb].
  2: { apply wp_bind, wp_call. intros b l3 _. apply wp_throw. apply Hth. intros Hio.
       destruct (H1 Hio) as [_ ->]. by destruct (H2 eq_refl). }
  apply wp_bind, wp_call. intros [] l3 H3; cbn [after negb].
  - apply wp_ret, Hok. intros Hio. destruct (H1 Hio) as [_ ->], (H2 eq_refl) as [_ ->], (H3 eq_refl) as [_ ->]. done.
  - apply wp_throw, Hth. intros Hio. destruct (H1 Hio) as [_ ->], (H2 eq_refl) as [_ ->], (H3 eq_refl) as [? _]. done.
Qed.

(** What [write] can end in. *)
Inductive write_end (path : str) (es : list entry) (w : world) : result unit -> world -> Prop :=
  | write_untouched e w' :
      only_tmp (Names.tmp_of path) w w' ->
      io w <> [] \/ check_sorted es = false \/ is_Some (build es).2 ->
      write_end path es w (Throw e) w'
  | write_published r data l :
      check_sorted es = true -> build es = (data, None) ->
      (io w = [] -> r = Ok tt /\ l = []) -> r = Ok tt \/ (exists e, r = Throw e) ->
      write_end path es w r
        (mkWorld (<[path := data]> (delete (Names.tmp_of path) (files w))) l (cache w) (faults w)).

(** The steps between the flush and the rename: the temporary holds [data]. *)
Record staged (tmp data : str) (w w' : world) : Prop := {
  st_files : files w' = <[tmp := data]> (files w);
  st_cache : cache w' = cache w;
  st_faults : faults w' = faults w;
  st_io : io w = [] -> io w' = []
}.

Lemma staged_io tmp data w w' l :
  staged tmp data w w' -> (io w' = [] -> l = []) -> staged tmp data w (set_io l w').
Proof. intros [H1 H2 H3 H4] Hl. split; simpl; auto. Qed.

Lemma staged_only tmp data w w' : staged tmp data w w' -> only_tmp tmp w w'.
Proof. intros [H1 H2 H3 _]. split; [|done..]. intros q Hq. by rewrite H1, lookup_insert_ne. Qed.

(** One checked call of that stretch: it may fail only if a failure is pending. *)
Lemma staged_call {B} tmp data w w' what (k : M B) (Q : result B -> world -> Prop) :
  staged tmp data w w' ->
  (forall w'', staged tmp data w w'' -> wp k Q w'') ->
  (forall w'', io w <> [] -> only_tmp tmp w w'' -> Q (Throw (RuntimeError what)) w'') ->
  wp (ok ← call; if negb ok then discardPartial tmp ;; fail what else k) Q w'.
Proof.
  intros Hw Hk HQ. apply wp_bind, wp_call. intros [] l Hl; cbn [after negb].
  - apply Hk. apply staged_io; [done|]. intros Hio. by destruct (Hl Hio).
  - eapply discard_throw; [apply only_tmp_io; by eapply staged_only|]. intros w'' Hw''. apply HQ; [|done].
    intros Hio. destruct (Hl (st_io _ _ _ _ Hw Hio)); done.
Qed.

Lemma staged_publish path es data w w' :
  check_sorted es = true -> build es = (data, None) -> staged (Names.tmp_of path) data w w' ->
  wp (published ← rename (Names.tmp_of path) path;
      if negb published then discardPartial (Names.tmp_of path) ;; fail "SSTable: cannot publish"
      else fsyncParentDir) (write_end path es w) w'.
Proof.
  intros Hs Hb Hw. apply wp_bind.
  apply (wp_rename _ _ data); [by rewrite (st_files _ _ _ _ Hw), lookup_insert_eq| |]; intros l Hl; cbn [after negb].
  - assert (forall l', set_io l' (set_files (<[path := data]> (delete (Names.tmp_of path) (files w'))) (set_io l w'))
      = mkWorld (<[path := data]> (delete (Names.tmp_of path) (files w))) l' (cache w) (faults w)) as Hw'.
    { intros l'. unfold set_files, set_io. simpl. f_equal; [|apply Hw..].
      by rewrite (st_files _ _ _ _ Hw), delete_insert_eq. }
    apply fsyncParentDir_wp; cbn [io set_files set_io]; intros l'; [intros Hl'|intros e Hl']; rewrite Hw'.
    + apply (write_published _ _ _ _ data); auto. intros Hio. split; [done|]. apply Hl', Hl, (st_io _ _ _ _ Hw Hio).
    + apply (write_published _ _ _ _ data); eauto. intros Hio. exfalso. apply Hl', Hl, (st_io _ _ _ _ Hw Hio).
  - eapply discard_throw; [apply only_tmp_io; by eapply staged_only|]. intros w'' Hw''.
    constructor; [done|]. left. intros Hio. by apply Hl, (st_io _ _ _ _ Hw).
Qed.

Lemma write_spec path es w : wp (write path es) (write_end path es w) w.
Proof.
  unfold write. destruct (check_sorted es) eqn:Hs; cbn [negb].
  2: { apply wp_throw. constructor; [apply only_tmp_refl|auto]. }
  set (tmp := Names.tmp_of path).
  assert (forall c l, only_tmp tmp w (set_files (<[tmp := c]> (files w)) (set_io l w))) as Hot.
  { intros c l. apply only_tmp_set; [done|]. intros q Hq. by rewrite lookup_insert_ne. }
  assert (forall c l l', only_tmp tmp w (set_files (<[tmp := c]> (<[tmp := []]> (files w)))
            (set_io l' (set_files (<[tmp := []]> (files w)) (set_io l w))))) as Hot2.
  { intros c l l'. split; [|done..]. intros q Hq. simpl. by rewrite !lookup_insert_ne. }
  apply wp_bind, wp_open_trunc; intros l Hl; cbn [after negb].
  2: { apply wp_throw. constructor; [by apply only_tmp_io|by left]. }
  destruct (build es) as [data [e|]] eqn:Hb.
  { assert (forall w', only_tmp tmp w w' -> write_end path es w (Throw e) w') as He.
    { intros w' Hw'. constructor; [done|]. right. right. rewrite Hb. by eexists. }
    apply wp_bind, wp_flush_to; intros; cbn [after]; apply wp_throw, He; cbn [files set_files];
      [apply Hot2|apply only_tmp_io, Hot|apply Hot2]. }
  apply wp_bind, wp_flush_to; cbn [files set_files io set_io]; intros l2; [intros Hl2|intros Hl2|intros c Hl2]; cbn [after negb].
  2,3: eapply discard_throw; [first [apply Hot2 | apply only_tmp_io, Hot]|];
       intros w' Hw'; constructor; [done|left; auto].
  assert (staged tmp data w (set_files (<[tmp := data]> (<[tmp := []]> (files w)))
            (set_io l2 (set_files (<[tmp := []]> (files w)) (set_io l w))))) as Hst.
  { split; simpl; [by rewrite insert_insert_eq|done..|auto]. }
  assert (forall e w', io w <> [] -> only_tmp tmp w w' -> write_end path es w (Throw e) w') as Hfail.
  { intros e w' Hio Hw'. constructor; [done|by left]. }
  eapply staged_call; [exact Hst| |intros; by apply Hfail]. clear Hst. intros w1 Hst.
  apply wp_bind, wp_open_read. intros o l3 Ho Hl3. cbn [after].
  destruct o as [content|].
  2: { eapply discard_throw; [apply only_tmp_io; by eapply staged_only|]. intros w' Hw'.
       apply Hfail; [|done]. intros Hio. destruct (Hl3 (st_io _ _ _ _ Hst Hio)) as [H _].
       by rewrite (st_files _ _ _ _ Hst), lookup_insert_eq in H. }
  assert (staged tmp data w (set_io l3 w1)) as Hst1.
  { apply staged_io; [done|]. intros Hio. by destruct (Hl3 Hio). }
  apply wp_bind, wp_call. intros [] l4 Hl4; cbn [after negb].
  2: { apply wp_bind, wp_call. intros b l5 _. cbn [after].
       eapply discard_throw; [apply only_tmp_io, only_tmp_io; by eapply staged_only|]. intros w' Hw'.
       apply Hfail; [|done]. intros Hio. destruct (Hl4 (st_io _ _ _ _ Hst1 Hio)). done. }
  eapply (staged_call tmp data); [apply staged_io; [exact Hst1|]; intros Hio; by destruct (Hl4 Hio)| |intros; by apply Hfail].
  intros w2 Hst2. by apply (staged_publish path es data).
Qed.

Lemma write_quiet path es w :
  io w = [] -> table_ok es -> keys_sorted es ->
  write path es w
  = (Ok tt, mkWorld (<[path := table_bytes es]> (delete (Names.tmp_of path) (files w))) [] (cache w) (faults w)).
Proof.
  intros Hq Hok Hs. pose proof (write_spec path es w) as H. unfold wp in H.
  pose proof (build_ok es ltac:(apply Hok) ltac:(apply Hok)) as Hb.
  destruct (write path es w) as [r w']. cbn [fst snd] in H. destruct H as [e w' _ Hwhy|r data l Hcs Hb' Hio Hr].
  - destruct Hwhy as [?|[Hcs|Hx]]; [done| |rewrite Hb in Hx; by destruct Hx].
    apply check_sorted_spec in Hs. congruence.
  - rewrite Hb in Hb'. injection Hb' as <-. by destruct (Hio Hq) as [-> ->].
Qed.

(** ** Opening *)

Lemma open_spec path w (Q : result t -> world -> Prop) :
  (forall l data, files w !! path = Some data -> (io w = [] -> l = []) ->
     Q (load path data) (set_io l w)) ->
  (forall l, io w <> [] \/ files w !! path = None ->
     Q (Throw (RuntimeError "SSTable: cannot open")) (set_io l w)) ->
  wp (open path) Q w.
Proof.
  intros Hok Hth. unfold open. apply wp_bind, wp_open_read. intros o l Ho Hl. cbn [after].
  destruct o as [d|].
  2: { apply wp_throw, Hth. destruct (io w) eqn:Hio; [right; by destruct (Hl eq_refl)|by left]. }
  apply wp_bind, wp_open_read. cbn [files set_io io]. intros o2 l2 Ho2 Hl2. cbn [after].
  change (set_io l2 (set_io l w)) with (set_io l2 w).
  destruct o2 as [data|].
  - destruct Ho2 as [?|Hd]; [done|]. apply wp_of_result, Hok; [done|].
    intros Hio. destruct (Hl Hio) as [_ ->]. by destruct (Hl2 eq_refl).
  - apply wp_throw, Hth. destruct (io w) eqn:Hio; [right|by left].
    destruct (Hl eq_refl) as [_ ->]. by destruct (Hl2 eq_refl).
Qed.

(** ** Point lookups *)

(** Every block of the table that the cache holds is the block on disk. *)
Definition cache_ok (c : BlockCache.t) (o : t) : Prop :=
  BlockCache.inv c /\
  forall r k off v, index o !! r = Some (k, off) ->
    BlockCache.peek (path o, off) (BlockCache.contents c) = Some v ->
    forall d, fd o = Some d ->
    v = parseBlockEntries
          (slice off ((match index o !! S r with Some (_, o') => o' | None => index_offset o end) - off) d).

Lemma cache_ok_empty o cap max : cache_ok (BlockCache.create cap max) o.
Proof. split; [apply BlockCache.create_inv|]. intros r k off v _ H. done. Qed.

(** What a lookup does to the cache: nothing wrong appears in it. *)
Lemma cache_ok_get c o path off r c' :
  cache_ok c o -> BlockCache.get path off c = Some (r, c') -> cache_ok c' o.
Proof.
  intros [Hinv Hc] Hg. destruct (BlockCache.get_refines path off c Hinv) as (c2 & Hg2 & Hinv2 & _ & _ & Hcont).
  rewrite Hg in Hg2. injection Hg2 as -> <-. split; [done|].
  intros r0 k off0 v Hi Hp. apply (Hc r0 k off0 v Hi). rewrite Hcont in Hp. destruct (BlockCache.peek _ _) eqn:E; [|done].
  simpl in Hp. case_decide as Hd; [by rewrite <- Hd; congruence|].
  rewrite BlockCache.peek_without, decide_False in Hp by congruence. done.
Qed.

Lemma cache_ok_put c o p off v c' :
  cache_ok c o -> BlockCache.put p off v c = Some c' ->
  (p = path o -> forall r k, index o !! r = Some (k, off) -> forall d, fd o = Some d ->
     v = parseBlockEntries
          (slice off ((match index o !! S r with Some (_, o') => o' | None => index_offset o end) - off) d)) ->
  cache_ok c' o.
Proof.
  intros [Hinv Hc] Hg Hv. destruct (BlockCache.put_refines p off v c Hinv) as (c2 & Hg2 & Hinv2 & _ & _ & Hcont).
  rewrite Hg in Hg2. injection Hg2 as <-. split; [done|].
  intros r k off0 w Hi Hp d Hd. rewrite Hcont in Hp. cbv zeta in Hp.
  destruct (BlockCache.trim_prefix (length ((p, off, v) :: BlockCache.without (p, off) (BlockCache.contents c)))
    (BlockCache.capacity c) (BlockCache.max_bytes c) ((p, off, v) :: BlockCache.without (p, off) (BlockCache.contents c)))
    as (m & _ & Hm). rewrite Hm in Hp. apply BlockCache.peek_take in Hp. simpl in Hp.
  case_decide as Heq; [injection Heq as -> ->; simplify_eq; by eapply Hv|].
  rewrite BlockCache.peek_without, decide_False in Hp by congruence. by eapply Hc.
Qed.

Lemma cache_ok_invalidate c o p : cache_ok c o -> cache_ok (BlockCache.invalidatePath p c) o.
Proof.
  intros [Hinv Hc]. destruct (BlockCache.invalidate_refines p c Hinv) as (Hinv' & Hcont & _ & _). split; [done|].
  intros r k off v Hi Hp d Hd. rewrite Hcont in Hp.
  apply BlockCache.peek_filter in Hp as (e & He & -> & _). eapply Hc; [done| |done].
  apply BlockCache.peek_lookup; [|done]. rewrite BlockCache.contents_keys. apply (BlockCache.inv_keys _ Hinv).
Qed.

(** After its path has been invalidated the cache says nothing about a table. *)
Lemma cache_ok_fresh c o : BlockCache.inv c -> cache_ok (BlockCache.invalidatePath (path o) c) o.
Proof.
  intros Hinv. destruct (BlockCache.invalidate_refines (path o) c Hinv) as (Hinv' & Hcont & _ & _). split; [done|].
  intros r k off v Hi Hp. rewrite Hcont in Hp. by apply BlockCache.peek_filter in Hp as (e & _ & -> & ?).
Qed.

Lemma filter_of_contains es k : k ∈ es.*1 -> Bloom.mayContain k (filter_of es) = true.
Proof. apply Bloom.insert_all_contains, Bloom.create_wf. Qed.

Lemma index_offset_inj es i j k k' off :
  index_of es !! i = Some (k, off) -> index_of es !! j = Some (k', off) -> i = j.
Proof.
  assert (forall i j k k' off, index_of es !! i = Some (k, off) -> index_of es !! j = Some (k', off) ->
            ~ (i < j)%nat) as H.
  { clear. intros i j k k' off Hi Hj Hlt. unfold index_of in *.
    pose proof (lookup_lt_Some _ _ _ Hi) as Hil. pose proof (lookup_lt_Some _ _ _ Hj) as Hjl.
    rewrite length_chunk_index in *.
    destruct (lookup_lt_is_Some_2 _ _ Hil) as [c Hc], (lookup_lt_is_Some_2 _ _ Hjl) as [c' Hc'].
    rewrite (chunk_index_lookup _ _ _ c Hc) in Hi. rewrite (chunk_index_lookup _ _ _ c' Hc') in Hj.
    injection Hi as _ Hi. injection Hj as _ Hj.
    pose proof (chunks_keys (fun _ => True) es) as Hk. rewrite !Forall_forall in Hk.
    specialize (Hk ltac:(done) c (list_elem_of_lookup_2 _ _ _ Hc)). destruct Hk as (e & c0 & -> & _).
    assert ((take j (chunks es)) !! i = Some (e :: c0)) as Ht by (by rewrite lookup_take_lt).
    rewrite (mjoin_middle _ _ _ Ht), take_take, Nat.min_l in Hj by lia.
    rewrite !enc_entries_app, enc_entries_cons, !length_app in Hj.
    pose proof (length_enc_entry e). lia. }
  intros Hi Hj. destruct (Nat.lt_trichotomy i j) as [Hc|[?|Hc]]; [|done|].
  - destruct (H _ _ _ _ _ Hi Hj Hc).
  - destruct (H _ _ _ _ _ Hj Hi Hc).
Qed.

(** A lookup in the table of [es] gives what [es] says, or throws when a failure
    is pending; the files are untouched and the cache stays right. *)
Lemma get_spec p es key w (Q : result (option (option str)) -> world -> Prop) :
  table_ok es -> keys_sorted es -> cache_ok (cache w) (table_of p es) ->
  (forall l c, (io w = [] -> l = []) ->
     (forall o, cache_ok (cache w) o -> (path o = p -> o = table_of p es) -> cache_ok c o) ->
     Q (Ok (alookup key es)) (set_cache c (set_io l w))) ->
  (forall l c e, io w <> [] ->
     (forall o, cache_ok (cache w) o -> (path o = p -> o = table_of p es) -> cache_ok c o) ->
     Q (Throw e) (set_cache c (set_io l w))) ->
  wp (get (table_of p es) key) Q w.
Proof.
  intros Hok Hs Hcache HQ Hth. unfold get. cbn [bloom table_of]. apply wp_bind, wp_of_option. cbn [after].
  destruct (Bloom.mayContain key (filter_of es)) eqn:Hbf; cbn [negb].
  2: { assert (alookup key es = None) as Hn.
       { apply alookup_None. intros Hin%filter_of_contains. congruence. }
       rewrite <- Hn. apply wp_ret. specialize (HQ (io w) (cache w)). destruct w. apply HQ; auto. }
  cbn [index table_of]. destruct (index_of es) as [|i0 idx] eqn:Hidx.
  { assert (es = []) as -> by (apply index_nil; by rewrite Hidx).
    apply wp_ret. specialize (HQ (io w) (cache w)). destruct w. apply HQ; auto. }
  rewrite <- Hidx. assert (es <> []) as Hne by (intros ->; done).
  destruct (find_block es key Hok Hs Hne)
    as (r & c & k & off & Hr & Hi & Hend & Hslice & Hoff & Hbound & Hcne & Hcok & Hal & Hsc).
  rewrite Hr. apply wp_bind, wp_of_option. cbn [after]. rewrite Hi. apply wp_bind, wp_of_option. cbn [after].
  cbn [index_offset table_of path fd]. rewrite Hidx in Hend. rewrite Hidx. rewrite Hend. apply wp_bind, wp_gets. cbn [after].
  pose proof Hcache as [Hinv Hblk].
  destruct (BlockCache.get_refines p off (cache w) Hinv) as (c1 & Hg & Hinv1 & _ & _ & _).
  assert (forall o, cache_ok (cache w) o -> cache_ok c1 o) as Hc1 by (intros o Ho; by eapply cache_ok_get).
  assert (scan_block c key = alookup key es) as Hscan by (by rewrite scan_block_spec).
  rewrite Hg. apply wp_bind, wp_of_option. cbn [after]. apply wp_bind, wp_modify. cbn [after].
  destruct (BlockCache.peek (p, off) (BlockCache.contents (cache w))) as [v|] eqn:Hp.
  { assert (v = c) as ->.
    { rewrite (Hblk r k off v Hi Hp _ eq_refl). cbn [index table_of index_offset]. rewrite Hidx, Hend.
      replace (off + zlen (enc_entries c) - off) with (zlen (enc_entries c)) by lia.
      rewrite Hslice. by apply parse_block. }
    apply wp_ret. rewrite Hscan. specialize (HQ (io w) c1). destruct w. apply HQ; auto. }
  assert (0 < zlen (enc_entries c)) as Hpos.
  { destruct c as [|e c]; [done|]. rewrite enc_entries_cons, length_app. pose proof (length_enc_entry e). lia. }
  assert (zlen (table_bytes es) < 2 ^ 63) as Hmax by apply Hok.
  rewrite (proj2 (Z.leb_gt _ _)) by lia. replace (off + zlen (enc_entries c) - off) with (zlen (enc_entries c)) by lia.
  rewrite (proj2 (Z.leb_gt _ _)) by lia. unfold pread. apply wp_bind, wp_bind, wp_next_outcome. intros o l Ho. cbn [after].
  rewrite (proj2 (Z.leb_gt _ _)), Hslice by lia. apply wp_ret. cbn [after].
  assert (forall e, io w <> [] -> Q (Throw e) (set_io l (set_cache c1 w))) as Hthrow.
  { intros e Hio. apply (Hth l c1 e Hio). auto. }
  assert (wp (c0 ← gets cache; c0 ← of_option (BlockCache.put p off (parseBlockEntries (enc_entries c)) c0);
              modify (set_cache c0) ;; mret (scan_block (parseBlockEntries (enc_entries c)) key)) Q
             (set_io l (set_cache c1 w))) as Hfinish.
  { rewrite parse_block, Hscan by done. apply wp_bind, wp_gets. cbn [after cache set_io set_cache].
    destruct (BlockCache.put_refines p off c c1 Hinv1) as (c2 & Hput & _). rewrite Hput.
    apply wp_bind, wp_of_option. cbn [after]. apply wp_bind, wp_modify, wp_ret. apply (HQ l c2).
    - intros Hio. by destruct (Ho Hio).
    - intros o' Ho' Hpath. eapply cache_ok_put; [by apply Hc1|exact Hput|].
      intros Heq r' k' Hi' d Hd. symmetry in Heq. rewrite (Hpath Heq) in Hi', Hd |- *.
      cbn [index table_of fd index_offset] in *. injection Hd as <-.
      rewrite <- (index_offset_inj es r r' k k' off Hi Hi'). rewrite Hidx, Hend.
      replace (off + zlen (enc_entries c) - off) with (zlen (enc_entries c)) by lia.
      rewrite Hslice. symmetry. by apply parse_block. }
  destruct o as [| |n].
  - by rewrite Z.ltb_irrefl.
  - apply wp_throw, Hthrow. intros Hio. by destruct (Ho Hio).
  - destruct (Z.ltb_spec (zlen (take n (enc_entries c))) (zlen (enc_entries c))).
    + apply wp_throw, Hthrow. intros Hio. by destruct (Ho Hio).
    + rewrite take_ge; [done|]. rewrite length_take in *. lia.
Qed.

(** ** Properties *)

(** C29: publishing is atomic, whatever calls fail: [write] never crashes, leaves
    every other file, the cache and the fault registry alone, and the table's
    name either still means what it meant or is the complete table, readable
    by the constructor; without failures it returns. *)
Theorem write_atomic path es w :
  table_ok es -> keys_sorted es ->
  let r := (write path es w).1 in
  let w' := (write path es w).2 in
  (forall q, q <> path -> q <> Names.tmp_of path -> files w' !! q = files w !! q) /\
  cache w' = cache w /\ faults w' = faults w /\
  (files w' !! path = files w !! path \/ files w' !! path = Some (table_bytes es)) /\
  (r = Ok tt /\ files w' !! path = Some (table_bytes es) /\ files w' !! Names.tmp_of path = None /\
     load path (table_bytes es) = Ok (table_of path es) \/
   exists e, r = Throw e) /\
  (io w = [] -> r = Ok tt).
Proof.
  intros Hok Hs r w'. pose proof (write_spec path es w) as H. fold r w' in H.
  pose proof (build_ok es ltac:(apply Hok) ltac:(apply Hok)) as Hb.
  pose proof (tmp_ne path) as Hne. unfold wp in H. fold r w' in H. destruct H as [e w' [H1 H2 H3] Hwhy|r data l Hcs Hb' Hio Hr].
  - split_and!; [|done|done| | |].
    + intros q _ Hq. by apply H1.
    + left. by apply H1.
    + right. by eexists.
    + intros Hnil. destruct Hwhy as [?|[Hcs|Hx]]; [done| |rewrite Hb in Hx; by destruct Hx].
      apply check_sorted_spec in Hs. congruence.
  - rewrite Hb in Hb'. injection Hb' as <-. cbn [files cache faults]. split_and!; [|done|done| | |].
    + intros q Hq Hq'. by rewrite lookup_insert_ne, lookup_delete_ne.
    + right. apply lookup_insert_eq.
    + destruct Hr as [->|[e ->]]; [left|by right; eexists]. split_and!; [done| | |by apply load_written].
      * apply lookup_insert_eq.
      * by rewrite lookup_insert_ne, lookup_delete_eq.
    + intros Hnil. by destruct (Hio Hnil).
Qed.

Definition sample_world : world := mkWorld ∅ [] (BlockCache.create 4 100000) Fault.init.
Definition sample : list entry := [(bs "a", Some (bs "1")); (bs "b", None); (bs "c", Some (bs "3"))].

Lemma sample_ok : table_ok sample /\ keys_sorted sample.
Proof.
  split; [|repeat constructor; vm_compute; reflexivity].
  split; [repeat constructor; vm_compute; discriminate|]. split; [vm_compute; discriminate|vm_compute; reflexivity].
Qed.

Lemma write_atomic_witness :
  (write (bs "d/t.sst") sample sample_world).1 = Ok tt.
Proof.
  apply (write_atomic (bs "d/t.sst") sample sample_world); [apply sample_ok|apply sample_ok|reflexivity].
Defined.

(** C30: a table survives its file.  For every list of entries that fits the
    format, no call failing, [write] puts a file under the name from which the
    constructor builds a table with the entries' index, filter, smallest and
    largest key; [readAll] returns the entries; [createIterator()] delivers all of
    them, from the first to the last, and [createIterator(start)] those from the
    key [start] on. *)
Theorem table_roundtrip p es start w :
  table_ok es -> keys_sorted es -> io w = [] ->
  exists w1, write p es w = (Ok tt, w1) /\ files w1 !! p = Some (table_bytes es) /\
  open p w1 = (Ok (table_of p es), w1) /\ readAll (table_of p es) w1 = (Ok es, w1) /\
  (exists it, createIterator (table_of p es) w1 = (Ok it, w1) /\ drained (S (length es)) it = Some es) /\
  (exists it, createIteratorFrom (table_of p es) start w1 = (Ok it, w1) /\ drained (S (length es)) it = Some (afrom start es)).
Proof.
  intros Hok Hs Hq. destruct (table_entries_ok es Hok) as [Hsz _]. eexists. split; [by apply write_quiet|].
  set (w1 := mkWorld _ _ _ _). assert (files w1 !! p = Some (table_bytes es)) as Hf by apply lookup_insert_eq.
  assert (open_read p w1 = (Ok (Some (table_bytes es)), w1)) as Hr by (rewrite open_read_quiet, Hf; done).
  split; [done|]. split_and!.
  - unfold open. rewrite !(bind_ok _ _ _ _ _ Hr). unfold of_result. by rewrite load_written.
  - unfold readAll. change (path (table_of p es)) with p. rewrite (bind_ok _ _ _ _ _ Hr). unfold of_result. by rewrite read_all_written.
  - unfold createIterator. change (path (table_of p es)) with p. rewrite (bind_ok _ _ _ _ _ Hr). eexists. split; [reflexivity|].
    eapply drained_rep; [by apply (new_iter_rep es [] es)|lia].
  - destruct (findBlock_spec es start Hs) as (P & Q & Hes & Hoff & Hlt). pose proof (new_iter_rep es P Q Hok Hes) as Hit.
    assert (keys_sorted Q) as HsQ by (rewrite Hes in Hs; by apply keys_sorted_app in Hs as (_ & _ & ?)).
    destruct (skip_loop_rep (S (length (table_bytes es))) start _ Q Hit HsQ) as (it' & Hskip & Hit').
    { pose proof (f_equal length Hes) as Hl. rewrite length_app in Hl. pose proof (entries_fit_file es). lia. }
    exists it'. unfold createIteratorFrom. change (index (table_of p es)) with (index_of es). rewrite Hoff.
    change (path (table_of p es)) with p. cbn [of_option]. rewrite (bind_ok (mret _) _ w1 (zlen (enc_entries P)) w1) by done.
    rewrite (bind_ok _ _ _ _ _ Hr). cbn [default]. change (index_offset (table_of p es)) with (zlen (enc_entries es)).
    change (id (table_bytes es)) with (table_bytes es). rewrite Hskip. split; [done|].
    rewrite Hes, afrom_app, (afrom_none start P) by done. eapply drained_rep; [exact Hit'|].
    rewrite !length_app. cbn [length]. pose proof (List.filter_length_le (fun e => negb (e.1 <?s start)) Q). unfold afrom. lia.
Qed.

Lemma table_roundtrip_witness :
  exists w1, write (bs "d/t.sst") sample sample_world = (Ok tt, w1) /\
    (exists it, createIterator (table_of (bs "d/t.sst") sample) w1 = (Ok it, w1) /\ drained 4 it = Some sample) /\
    (exists it, createIteratorFrom (table_of (bs "d/t.sst") sample) (bs "b") w1 = (Ok it, w1) /\ drained 4 it = Some (afrom (bs "b") sample)).
Proof.
  destruct (table_roundtrip (bs "d/t.sst") sample (bs "b") sample_world) as (w1 & H1 & _ & _ & _ & H2 & H3); [apply sample_ok|apply sample_ok|reflexivity|].
  by exists w1.
Defined.

(** C28: a point lookup in a table is exact: through the filter, the sparse index,
    the block cache and a block read, [get] returns the value or tombstone of
    every key of the table and nothing for any other key; it throws only if a
    call fails, changes no file, and leaves in the cache only blocks that are
    right for every open table. *)
Theorem get_exact p es key w :
  table_ok es -> keys_sorted es -> cache_ok (cache w) (table_of p es) ->
  let r := (get (table_of p es) key w).1 in
  let w' := (get (table_of p es) key w).2 in
  (r = Ok (alookup key es) \/ io w <> [] /\ exists e, r = Throw e) /\
  files w' = files w /\ faults w' = faults w /\
  (forall o, cache_ok (cache w) o -> (path o = p -> o = table_of p es) -> cache_ok (cache w') o).
Proof.
  intros Hok Hs Hc r w'.
  apply (get_spec p es key w (fun r w' => (r = Ok (alookup key es) \/ io w <> [] /\ exists e, r = Throw e) /\
    files w' = files w /\ faults w' = faults w /\
    (forall o, cache_ok (cache w) o -> (path o = p -> o = table_of p es) -> cache_ok (cache w') o))); [done..| |].
  - intros l c _ H. split_and!; auto.
  - intros l c e Hio H. split_and!; eauto.
Qed.

Lemma get_exact_witness :
  (get (table_of (bs "t") sample) (bs "b") sample_world).1 = Ok (Some None).
Proof.
  destruct (get_exact (bs "t") sample (bs "b") sample_world) as [[H|[H _]] _];
    [apply sample_ok|apply sample_ok|apply cache_ok_empty|exact H|destruct (H eq_refl)].
Defined.

End SSTable.
