(* ===== verification/Layers.v ===== *)
(** * Layers of sorted runs: what a sequence of tables means

    The abstract specification shared by compaction, lookups, scans and
    recovery.  A store is a list of sorted runs, oldest first; a key means what
    the newest run that has it says; a tombstone means absent.  Merging runs is
    specified by repeatedly taking the smallest head key. *)

From S2P Require Import Prelude.
Open Scope Z_scope.

Module Layers.

Abbreviation entry := (list Init.Byte.byte * option (list Init.Byte.byte))%type (only parsing).

(** ** Meaning *)

(** The newest entry for a key. *)
Fixpoint layered (k : str) (ls : list (list entry)) : option (option str) :=
  match ls with
  | [] => None
  | l :: ls => match layered k ls with Some r => Some r | None => alookup k l end
  end.

(** What a reader sees. *)
Definition visible (k : str) (ls : list (list entry)) : option str := mjoin (layered k ls).

(** Two stores a reader cannot tell apart. *)
Definition same_view (ls ls' : list (list entry)) : Prop := forall k, visible k ls = visible k ls'.

#[export] Instance same_view_equiv : Equivalence same_view.
Proof.
  split; [by intros ? ?|intros a b H k; by rewrite H|]. intros a b c H1 H2 k. by rewrite H1, H2.
Qed.

(** [out] holds exactly what is visible, without tombstones. *)
Definition merged (ls : list (list entry)) (out : list entry) : Prop :=
  keys_sorted out /\ forall k, alookup k out = Some <$> visible k ls.

Lemma layered_app k ls1 ls2 :
  layered k (ls1 ++ ls2) = match layered k ls2 with Some r => Some r | None => layered k ls1 end.
Proof.
  induction ls1 as [|l ls1 IH]; simpl; [by destruct (layered k ls2)|]. rewrite IH. by destruct (layered k ls2).
Qed.

Lemma layered_None k ls : layered k ls = None <-> Forall (fun l => alookup k l = None) ls.
Proof.
  induction ls as [|l ls IH]; simpl; [split; [constructor|done]|].
  rewrite Forall_cons, <- IH. destruct (layered k ls); naive_solver.
Qed.

Lemma same_view_app_l ls ls1 ls2 :
  (forall k, layered k ls1 = layered k ls2) -> same_view (ls ++ ls1) (ls ++ ls2).
Proof. intros H k. unfold visible. by rewrite !layered_app, H. Qed.

(** Replacing the oldest layers by others with the same view, below the rest. *)
Lemma same_view_app_r ls1 ls2 ls : same_view ls1 ls2 -> same_view (ls1 ++ ls) (ls2 ++ ls).
Proof.
  intros H k. specialize (H k). unfold visible in *. rewrite !layered_app. by destruct (layered k ls).
Qed.

Lemma merged_view ls out : merged ls out -> same_view [out] ls.
Proof.
  intros [_ H] k. unfold visible. simpl. rewrite H. unfold visible. by destruct (mjoin (layered k ls)).
Qed.

(** A run cut into pieces means the same as the run. *)
Lemma layered_pieces k (ps : list (list entry)) :
  keys_sorted (mjoin ps) -> layered k ps = alookup k (mjoin ps).
Proof.
  induction ps as [|p ps IH]; [done|]. rewrite mjoin_cons, alookup_app. simpl. intros Hs.
  apply keys_sorted_app in Hs as (Hd & _ & Hs). rewrite IH by done.
  destruct (alookup k (mjoin ps)) as [v|] eqn:E; [|by destruct (alookup k p)].
  assert (alookup k p = None) as ->; [|done]. apply alookup_None. intros Hin.
  apply (str_lt_irrefl k), Hd; [done|]. apply alookup_Some_elem in E.
  by apply (list_elem_of_fmap_2 fst) in E.
Qed.

(** Pieces of the merge, as layers, mean what was merged. *)
Lemma merged_pieces ls ps : merged ls (mjoin ps) -> same_view ps ls.
Proof.
  intros [Hs Hm] k. unfold visible at 1. rewrite layered_pieces, Hm by done. by destruct (visible k ls).
Qed.

(** ** Crash states of a replacement

    The pieces of the merged run are added above the old base, some of them,
    and then the inputs go, oldest first. *)

(** Adding any of the merged pieces between the bases and the upper layers, while
    all inputs are there, changes nothing. *)
Lemma view_publish base upper ps n :
  merged (base ++ upper) (mjoin ps) ->
  same_view (base ++ take n ps ++ upper) (base ++ upper).
Proof.
  intros [Hs Hm] k. unfold visible. rewrite !layered_app.
  destruct (layered k upper) as [r|] eqn:Eu; [done|].
  assert (keys_sorted (mjoin (take n ps))) as Hs'.
  { rewrite <- (take_drop n ps), mjoin_app in Hs. by apply keys_sorted_app in Hs as (_ & ? & _). }
  rewrite layered_pieces by done.
  destruct (alookup k (mjoin (take n ps))) as [v|] eqn:E; [|done].
  assert (alookup k (mjoin ps) = Some v) as Ha.
  { rewrite <- (take_drop n ps), mjoin_app, alookup_app. by rewrite E. }
  rewrite Hm in Ha. unfold visible in Ha. rewrite layered_app, Eu in Ha.
  destruct (layered k base) as [[w|]|]; simpl in *; congruence.
Qed.

(** With all pieces published, any of the oldest inputs may be gone. *)
Lemma view_remove base upper ps n :
  merged (base ++ upper) (mjoin ps) ->
  same_view (drop n base ++ ps ++ drop (n - length base) upper) (base ++ upper).
Proof.
  intros [Hs Hm] k. unfold visible. specialize (Hm k). unfold visible in Hm.
  rewrite layered_app in Hm. rewrite !layered_app, (layered_pieces k ps) by done. rewrite Hm. clear Hm.
  destruct (decide (n <= length base)%nat) as [Hn|Hn].
  - replace (n - length base)%nat with 0%nat by lia. rewrite drop_0.
    destruct (layered k upper) as [r|]; [done|].
    assert (layered k base = match layered k (drop n base) with
              Some r => Some r | None => layered k (take n base) end) as ->
      by (by rewrite <- layered_app, take_drop).
    destruct (layered k (drop n base)) as [[v|]|]; simpl; [done|done|].
    by destruct (mjoin (layered k (take n base))).
  - rewrite (drop_ge base) by lia. simpl.
    assert (layered k upper = match layered k (drop (n - length base) upper) with
              Some r => Some r | None => layered k (take (n - length base) upper) end) as ->
      by (by rewrite <- layered_app, take_drop).
    destruct (layered k (drop (n - length base) upper)) as [r|]; [done|].
    destruct (layered k (take (n - length base) upper)) as [[v|]|]; [done|done|].
    by destruct (layered k base) as [[v|]|].
Qed.

(** ** Merging by smallest head *)

(** The head of a source goes when its key is [k]. *)
Definition drop_key (k : str) (s : list entry) : list entry :=
  match s with
  | e :: s' => if decide (e.1 = k) then s' else s
  | [] => []
  end.

(** Among the sources at [k], the newest one's value wins. *)
Fixpoint head_value (k : str) (srcs : list (list entry)) : option (option str) :=
  match srcs with
  | [] => None
  | s :: srcs =>
      match head_value k srcs with
      | Some v => Some v
      | None => match s with e :: _ => if decide (e.1 = k) then Some e.2 else None | [] => None end
      end
  end.

(** [merges srcs out]: [out] is what repeatedly taking a smallest key gives, the
    newest value of each, tombstones included. *)
Inductive merges : list (list entry) -> list entry -> Prop :=
  | merges_done srcs : Forall (fun s => s = []) srcs -> merges srcs []
  | merges_step srcs k v out :
      head_value k srcs = Some v ->
      (forall s (e : entry), s ∈ srcs -> head s = Some e -> ~ e.1 <s k) ->
      merges (drop_key k <$> srcs) out -> merges srcs ((k, v) :: out).

Lemma drop_key_sorted k s : keys_sorted s -> keys_sorted (drop_key k s).
Proof. destruct s as [|[k' v] s]; [done|]. intros H. simpl. case_decide; [|done]. by apply keys_sorted_cons in H as [_ ?]. Qed.

(** Keys are at least the head's. *)
Lemma sorted_head_min k (s : list entry) e :
  keys_sorted s -> (forall e : entry, head s = Some e -> ~ e.1 <s k) -> e ∈ s -> ~ e.1 <s k.
Proof.
  destruct s as [|e0 s]; [set_solver|]. intros Hs Hh He.
  assert (~ e0.1 <s k) as H0 by by apply Hh.
  apply elem_of_cons in He as [->|He]; [done|]. destruct e0 as [k0 v0].
  apply keys_sorted_cons in Hs as [Hs _]. intros Hlt. apply H0. eapply str_lt_trans; [apply Hs|exact Hlt].
  by apply list_elem_of_fmap_2.
Qed.

Lemma alookup_drop_key_ne k k' s : k' <> k -> alookup k' (drop_key k s) = alookup k' s.
Proof.
  intros Hne. destruct s as [|[k0 v0] s]; simpl; [done|]. case_decide; [|done]. subst.
  unfold str_eqb. by rewrite bool_decide_false.
Qed.

Lemma drop_key_above k s k' :
  keys_sorted s -> (forall e : entry, head s = Some e -> ~ e.1 <s k) -> k' ∈ (drop_key k s).*1 -> k <s k'.
Proof.
  intros Hs Hh Hin. destruct s as [|[k0 v0] s]; simpl in *; [set_solver|].
  apply keys_sorted_cons in Hs as [Hs _]. assert (~ k0 <s k) as H0 by by apply (Hh (k0, v0)).
  case_decide as E; [subst; by apply Hs|].
  assert (k <s k0) as Hlt by (destruct (str_lt_trichotomy k k0) as [?|[?|?]]; congruence).
  simpl in Hin. apply elem_of_cons in Hin as [->|Hin]; [done|]. eapply str_lt_trans; [exact Hlt|by apply Hs].
Qed.

(** At the smallest key, [head_value] is what the layers say. *)
Lemma head_value_layered k srcs :
  Forall keys_sorted srcs -> (forall s (e : entry), s ∈ srcs -> head s = Some e -> ~ e.1 <s k) ->
  head_value k srcs = layered k srcs.
Proof.
  induction 1 as [|s srcs Hs _ IH]; intros Hmin; [done|]. simpl. rewrite IH by set_solver.
  destruct (layered k srcs); [done|]. destruct s as [|[k0 v0] s]; [done|].
  rewrite alookup_cons. cbn [fst snd]. destruct (decide (k = k0)) as [->|Hne]; [by rewrite decide_True|].
  rewrite decide_False by congruence. symmetry. apply alookup_None. intros Hin.
  apply keys_sorted_cons in Hs as [Hs _]. apply (Hmin ((k0, v0) :: s) (k0, v0)); [set_solver|done|].
  by apply Hs.
Qed.

Lemma layered_drop_key k k' srcs : k' <> k -> layered k' (drop_key k <$> srcs) = layered k' srcs.
Proof.
  intros Hne. induction srcs as [|s srcs IH]; [done|]. rewrite fmap_cons. simpl. rewrite IH.
  destruct (layered k' srcs); [done|]. by apply alookup_drop_key_ne.
Qed.

Lemma merges_spec srcs out :
  merges srcs out -> Forall keys_sorted srcs ->
  keys_sorted out /\ (forall k, alookup k out = layered k srcs).
Proof.
  induction 1 as [srcs Hnil|srcs k v out Hv Hmin Hm IH]; intros Hs.
  { split; [constructor|]. intros k. symmetry. apply layered_None. eapply Forall_impl; [exact Hnil|]. by intros ? ->. }
  destruct IH as [Hso Hlo].
  { apply Forall_fmap. eapply Forall_impl; [exact Hs|]. intros s. apply drop_key_sorted. }
  rewrite head_value_layered in Hv by done. split.
  - apply keys_sorted_cons. split; [|done]. intros k' Hk'.
    assert (is_Some (alookup k' out)) as [w Hw].
    { destruct (alookup k' out) eqn:E; [by eexists|]. by apply alookup_None in E. }
    rewrite Hlo in Hw. assert (~ layered k' (drop_key k <$> srcs) = None) as Hn by congruence.
    rewrite layered_None, Forall_fmap in Hn. unfold compose in Hn.
    apply not_Forall_Exists in Hn; [|intros ?; apply _]. apply Exists_exists in Hn as (s & Hin & Hns).
    rewrite Forall_forall in Hs. apply (drop_key_above k s); [by apply Hs|set_solver|].
    destruct (decide (k' ∈ (drop_key k s).*1)); [done|]. exfalso. apply Hns. by apply alookup_None.
  - intros k'. rewrite alookup_cons. case_decide as E; [subst; by rewrite Hv|].
    rewrite Hlo. by apply layered_drop_key.
Qed.

(** Dropping the tombstones of a merge leaves what is visible. *)
Definition live (l : list entry) : list entry := filter (fun e => is_Some e.2) l.

Lemma live_sorted l : keys_sorted l -> keys_sorted (live l).
Proof.
  induction l as [|[k v] l IH]; [done|]. rewrite keys_sorted_cons. intros [Hk Hs]. unfold live.
  rewrite filter_cons. case_decide; [|by apply IH]. apply keys_sorted_cons. split; [|by apply IH].
  intros k' (e & -> & [_ He]%list_elem_of_filter)%list_elem_of_fmap. apply Hk. by apply list_elem_of_fmap_2.
Qed.

Lemma alookup_live k l : keys_sorted l -> alookup k (live l) = Some <$> mjoin (alookup k l).
Proof.
  induction l as [|[k0 v0] l IH]; [done|]. intros Hs. apply keys_sorted_cons in Hs as [Hk Hs].
  unfold live. rewrite filter_cons, alookup_cons. fold (live l). cbn [snd]. destruct (decide (is_Some v0)) as [[w ->]|Hn].
  - rewrite alookup_cons. case_decide; [done|]. by apply IH.
  - rewrite IH by done. case_decide; [|done]. subst. assert (alookup k0 l = None) as ->.
    { apply alookup_None. intros Hin. by apply Hk, str_lt_irrefl in Hin. }
    destruct v0; [by destruct Hn|done].
Qed.

Lemma merges_merged srcs out : merges srcs out -> Forall keys_sorted srcs -> merged srcs (live out).
Proof.
  intros Hm Hs. destruct (merges_spec _ _ Hm Hs) as [Hso Hlo].
  split; [by apply live_sorted|]. intros k. rewrite alookup_live by done. unfold visible. by rewrite Hlo.
Qed.

(** ** The heads of the sources *)

(** Heads of all sources are at least [k]. *)
Definition heads_ge (k : str) (ss : list (list entry)) : Prop :=
  forall s (e : entry), s ∈ ss -> head s = Some e -> ~ e.1 <s k.

Definition at_key (k : str) (s : list entry) : Prop := fst <$> head s = Some k.

Lemma drop_key_none k (ss : list (list entry)) :
  (forall s, s ∈ ss -> ~ at_key k s) -> drop_key k <$> ss = ss.
Proof.
  intros H. rewrite <- (list_fmap_id ss) at 2. apply list_fmap_ext. intros i x Hi.
  specialize (H x (list_elem_of_lookup_2 _ _ _ Hi)). unfold at_key in H.
  destruct x as [|e l]; [done|]. simpl. by rewrite decide_False by (simpl in H; congruence).
Qed.

(** A source at [k] moved past it. *)
Lemma drop_key_insert k (ss : list (list entry)) i e l :
  ss !! i = Some (e :: l) -> e.1 = k -> keys_sorted (e :: l) ->
  drop_key k <$> <[i := l]> ss = drop_key k <$> ss /\ ~ at_key k l.
Proof.
  intros Hi He Hs. assert (~ at_key k l) as Hl.
  { unfold at_key. destruct l as [|e' l]; [done|]. simpl. intros [= Heq]. destruct e as [ke ve].
    apply keys_sorted_cons in Hs as [Hs _]. simpl in *. subst. apply (str_lt_irrefl e'.1). apply Hs. set_solver. }
  split; [|done]. rewrite list_fmap_insert. apply list_insert_id. rewrite list_lookup_fmap, Hi. simpl.
  rewrite decide_True by done. f_equal. destruct l as [|e' l]; [done|]. simpl. unfold at_key in Hl. simpl in Hl.
  by rewrite decide_False by congruence.
Qed.

#[export] Instance at_key_dec k s : Decision (at_key k s).
Proof. unfold at_key. apply _. Defined.

Definition count_at (k : str) (ss : list (list entry)) : nat := length (filter (at_key k) ss).

Lemma count_at_insert k ss i e l :
  ss !! i = Some (e :: l) -> e.1 = k -> ~ at_key k l -> count_at k ss = S (count_at k (<[i := l]> ss)).
Proof.
  intros Hi He Hl. unfold count_at. assert (i < length ss)%nat as Hlen by by eapply lookup_lt_Some.
  rewrite insert_take_drop by done. rewrite <- (take_drop_middle ss i _ Hi) at 1.
  rewrite !filter_app, !filter_cons, !length_app. rewrite decide_True by (unfold at_key; simpl; congruence).
  rewrite decide_False by done. simpl. lia.
Qed.

Lemma heads_ge_insert k ss i e l :
  heads_ge k ss -> ss !! i = Some (e :: l) -> keys_sorted (e :: l) -> heads_ge k (<[i := l]> ss).
Proof.
  intros Hge Hi Hs x e' Hx He'. apply list_elem_of_lookup in Hx as [j Hj].
  destruct (decide (i = j)) as [<-|Hne].
  - rewrite list_lookup_insert_eq in Hj by by eapply lookup_lt_Some. injection Hj as <-.
    assert (~ e.1 <s k) as H0 by (eapply (Hge (e :: l)); [by eapply list_elem_of_lookup_2|done]).
    intros Hlt. apply H0. destruct e as [ke ve]. apply keys_sorted_cons in Hs as [Hs _]. simpl.
    eapply str_lt_trans; [apply Hs|exact Hlt]. destruct l; [done|]. injection He' as ->. set_solver.
  - rewrite list_lookup_insert_ne in Hj by done. eapply Hge; [by eapply list_elem_of_lookup_2|done].
Qed.

Lemma sorted_insert (ss : list (list entry)) i e l :
  Forall keys_sorted ss -> ss !! i = Some (e :: l) -> keys_sorted (e :: l) /\ Forall keys_sorted (<[i := l]> ss).
Proof.
  intros Hs Hi. pose proof (Forall_lookup_1 _ _ _ _ Hs Hi) as H. simpl in H. split; [done|].
  apply Forall_insert; [done|]. destruct e. by apply keys_sorted_cons in H as [_ ?].
Qed.

Lemma head_value_max k (ss : list (list entry)) i e l :
  ss !! i = Some (e :: l) -> e.1 = k ->
  (forall j e' l', ss !! j = Some (e' :: l') -> e'.1 = k -> (j <= i)%nat) ->
  head_value k ss = Some e.2.
Proof.
  revert i. induction ss as [|s ss IH]; intros i Hi He Hmax; [done|]. destruct i as [|i]; simpl in Hi |- *.
  - injection Hi as ->. assert (head_value k ss = None) as ->.
    { clear IH. assert (forall j e' l', ss !! j = Some (e' :: l') -> e'.1 <> k) as Hn.
      { intros j e' l' Hj Hk. specialize (Hmax (S j) e' l' Hj Hk). lia. }
      clear Hmax. induction ss as [|s ss IH]; [done|]. simpl.
      rewrite IH by (intros j e' l' Hj; by apply (Hn (S j) e' l')).
      destruct s as [|e' l']; [done|]. specialize (Hn 0%nat e' l' eq_refl). by rewrite decide_False. }
    by rewrite decide_True.
  - rewrite (IH i Hi He); [done|]. intros j e' l' Hj Hk. specialize (Hmax (S j) e' l' Hj Hk). lia.
Qed.

(** The number of entries still to merge. *)
Definition total (ss : list (list entry)) : nat := foldr (fun s a => (length s + a)%nat) 0%nat ss.

Lemma total_drop k ss i e l :
  ss !! i = Some (e :: l) -> e.1 = k -> (total (drop_key k <$> ss) < total ss)%nat.
Proof.
  assert (forall ss, total (drop_key k <$> ss) <= total ss)%nat as Hle.
  { clear. intros ss. induction ss as [|s ss IH]; [done|]. rewrite fmap_cons. simpl.
    assert (length (drop_key k s) <= length s)%nat; [|lia].
    destruct s; simpl; [lia|]. case_decide; simpl; lia. }
  revert i. induction ss as [|s ss IH]; intros [|i] Hi He; [done..| |]; rewrite fmap_cons; simpl.
  - injection Hi as ->. simpl. rewrite decide_True by done. specialize (Hle ss). lia.
  - specialize (IH i Hi He). assert (length (drop_key k s) <= length s)%nat; [|lia].
    destruct s; simpl; [lia|]. case_decide; simpl; lia.
Qed.

Lemma drop_keys_sorted k ss : Forall keys_sorted ss -> Forall keys_sorted (drop_key k <$> ss).
Proof. intros H. apply Forall_fmap. eapply Forall_impl; [exact H|]. intros s. apply drop_key_sorted. Qed.

(** The step of the specification is determined. *)
Lemma merges_step_inv (ss : list (list entry)) k v (e : entry) i l :
  heads_ge k ss -> head_value k ss = Some v -> heads_ge e.1 ss -> ss !! i = Some (e :: l) -> k = e.1.
Proof.
  intros Hk Hv He Hi.
  assert (exists (s : list entry) (e' : entry), s ∈ ss /\ head s = Some e' /\ e'.1 = k) as (s & e' & Hs & Hh & Hek).
  { clear -Hv. revert v Hv. induction ss as [|s ss IH]; intros v Hv; [done|]. simpl in Hv.
    destruct (head_value k ss) as [v'|] eqn:E; [destruct (IH v' eq_refl) as (s' & e' & ? & ?); exists s', e'; set_solver|].
    destruct s as [|e l]; [done|]. case_decide; [|done]. exists (e :: l), e. set_solver. }
  pose proof (He s e' Hs Hh) as H1. pose proof (Hk _ e (list_elem_of_lookup_2 _ _ _ Hi) eq_refl) as H2.
  rewrite Hek in H1. destruct (str_lt_trichotomy k e.1) as [?|[?|?]]; done.
Qed.

Lemma live_cons (e : entry) (l : list entry) : live (e :: l) = match e.2 with Some _ => e :: live l | None => live l end.
Proof.
  unfold live. rewrite filter_cons. destruct e as [k [v|]]; case_decide as H; [done| |by destruct H|done].
  exfalso. apply H. by eexists.
Qed.

(** Some head is smallest. *)
Lemma smallest_head (ss : list (list entry)) :
  Forall (fun s => s = []) ss \/ exists i e l, ss !! i = Some (e :: l) /\ heads_ge e.1 ss.
Proof.
  induction ss as [|s ss IH]; [by left|]. destruct s as [|e l].
  - destruct IH as [Hn|(i & e & l & Hi & Hge)]; [left; by constructor|right]. exists (S i), e, l. split; [done|].
    intros x e' [->|Hx]%elem_of_cons He'; [done|]. by eapply Hge.
  - right. destruct IH as [Hn|(i & e' & l' & Hi & Hge)].
    + exists 0%nat, e, l. split; [done|]. intros x e' [->|Hx]%elem_of_cons He'.
      * injection He' as ->. apply str_lt_irrefl.
      * rewrite Forall_forall in Hn. by rewrite (Hn x Hx) in He'.
    + destruct (str_lt_trichotomy e'.1 e.1) as [Hlt|Hle].
      * exists (S i), e', l'. split; [done|]. intros x e2 [->|Hx]%elem_of_cons He2; [|by eapply Hge].
        injection He2 as <-. by apply str_lt_asym.
      * exists 0%nat, e, l. split; [done|]. intros x e2 [->|Hx]%elem_of_cons He2.
        -- injection He2 as ->. apply str_lt_irrefl.
        -- intros Hlt. apply (Hge x e2 Hx He2). destruct Hle as [->|Hle]; [done|]. by eapply str_lt_trans.
Qed.

Lemma head_value_some k (ss : list (list entry)) i e l :
  ss !! i = Some (e :: l) -> e.1 = k -> is_Some (head_value k ss).
Proof.
  revert i. induction ss as [|s ss IH]; intros [|i] Hi He; [done..| |]; simpl in *.
  - injection Hi as ->. destruct (head_value k ss); [by eexists|]. rewrite decide_True by done. by eexists.
  - destruct (IH i Hi He) as [v ->]. by eexists.
Qed.

(** Merging always has a result, with no more entries than the sources. *)
Lemma merges_exists (ss : list (list entry)) :
  Forall keys_sorted ss -> exists out, merges ss out /\ (length out <= total ss)%nat.
Proof.
  remember (total ss) as n eqn:Hn. assert (total ss <= n)%nat as Hle by lia. clear Hn. revert ss Hle.
  induction n as [|n IH]; intros ss Hle Hs; destruct (smallest_head ss) as [Hnil|(i & e & l & Hi & Hge)].
  1,3: exists []; split; [by constructor|simpl; lia].
  - pose proof (total_drop e.1 ss i e l Hi eq_refl). lia.
  - pose proof (total_drop e.1 ss i e l Hi eq_refl).
    destruct (IH (drop_key e.1 <$> ss)) as (out & Hm & Hlen); [lia|by apply drop_keys_sorted|].
    destruct (head_value_some e.1 ss i e l Hi eq_refl) as [v Hv].
    exists ((e.1, v) :: out). split; [by econstructor|simpl; lia].
Qed.

End Layers.
