(* ===== verification/Compaction.v ===== *)
(** * Leveled compaction

    Models [src/compaction/leveled_compactor.cpp]: choosing to compact, sweeping
    abandoned temporaries, numbering the outputs, the streaming k-way merge
    through a min-heap, staging, publishing with rollback, and removing the
    inputs, with every fault point in its place. *)

From S2P Require Import Prelude Bloom BlockCache Fault World Names TableFormat SSTable Layers.
Open Scope Z_scope.

Module Compaction.
Import TableFormat Layers.

Definition L0_THRESHOLD : nat := 4.
Definition L1_MAX_FILE_ENTRIES : Z := 1000.

(** ** The heap

    [std::priority_queue] with [std::greater]: [top] is a node that is greater
    than no other. *)

Record HeapNode := mkHeapNode { node_entry : entry; sst_index : nat }.

(** [operator>]: by key, then the newer table (higher index) first. *)
Definition heap_gt (a b : HeapNode) : bool :=
  if (node_entry a).1 =?s (node_entry b).1 then (sst_index a <? sst_index b)%nat
  else (node_entry b).1 <?s (node_entry a).1.

Fixpoint pop_min (h : list HeapNode) : option (HeapNode * list HeapNode) :=
  match h with
  | [] => None
  | n :: h =>
      match pop_min h with
      | None => Some (n, [])
      | Some (m, rest) => if heap_gt n m then Some (m, n :: rest) else Some (n, m :: rest)
      end
  end.

(** The heap and the iterators of the merge. *)
Record sources := mkSources { heap : list HeapNode; iterators : list Iter }.

(** [if (iterators[i]->hasNext()) min_heap.push({iterators[i]->next(), i})] *)
Definition pull (i : nat) (s : sources) : option sources :=
  it ← iterators s !! i;
  if hasNext it then
    '(e, it) ← next it;
    Some (mkSources (mkHeapNode e i :: heap s) (<[i := it]> (iterators s)))
  else Some s.

(** Consuming older duplicates of [key]. *)
Fixpoint consume_duplicates (fuel : nat) (key : str) (s : sources) : option sources :=
  match pop_min (heap s) with
  | None => Some s
  | Some (m, rest) =>
      if (node_entry m).1 =?s key then
        match fuel with
        | O => None
        | S fuel =>
            s ← pull (sst_index m) (mkSources rest (iterators s));
            consume_duplicates fuel key s
        end
      else Some s
  end.

(** One round: the winning node, and the sources moved past its key. *)
Definition merge_round (s : sources) : option (option (entry * sources)) :=
  match pop_min (heap s) with
  | None => Some None
  | Some (winner, rest) =>
      s ← pull (sst_index winner) (mkSources rest (iterators s));
      s ← consume_duplicates (length (iterators s)) (node_entry winner).1 s;
      Some (Some (node_entry winner, s))
  end.

(** ** Phase 1: merging into staged temporaries *)

Record merge_state := mkMerge {
  srcs : sources;
  current_l1_buffer : list entry;
  staged : list (str * str);          (* temporary, final *)
  l1_counter : Z
}.

(** Runs [m]; an exception becomes a value, so that the state it leaves in the
    caller's variables is kept. *)
Definition attempt (m : M unit) : M (option exn) :=
  try_catch (m ;; mret None) (fun e => mret (Some e)).

Definition fsyncFile (path : str) : M unit :=
  fd ← open_read path;
  match fd with
  | None => mret tt
  | Some _ => _ ← call; _ ← call; mret tt
  end.

Definition fsyncDir : M unit :=
  opened ← call;
  if (opened : bool) then _ ← call; _ ← call; mret tt else mret tt.

(** [int] addition: overflow is undefined. *)
Definition int_succ (n : Z) : M Z := if n =? Names.INT_MAX then undefined else mret (n + 1).

Definition flushBuffer (dir : str) (st : merge_state) : M (option exn * merge_state) :=
  match current_l1_buffer st with
  | [] => mret (None, st)
  | buffer =>
      let final_path := Names.sstPath dir 1 (l1_counter st) in
      counter ← int_succ (l1_counter st);
      let tmp_path := Names.tmp_of final_path in
      e ← attempt (SSTable.write tmp_path buffer);
      match e with
      | Some e => mret (Some e, mkMerge (srcs st) buffer (staged st) counter)
      | None =>
          fsyncFile tmp_path ;;
          mret (None, mkMerge (srcs st) [] (staged st ++ [(tmp_path, final_path)]) counter)
      end
  end.

Fixpoint merge_loop (fuel : nat) (dir : str) (st : merge_state) : M (option exn * merge_state) :=
  match fuel with
  | O => undefined
  | S fuel =>
      round ← of_option (merge_round (srcs st));
      match round with
      | None => mret (None, st)
      | Some (winner, s) =>
          match winner.2 with
          | None => merge_loop fuel dir (mkMerge s (current_l1_buffer st) (staged st) (l1_counter st))
          | Some _ =>
              let buffer := current_l1_buffer st ++ [winner] in
              let st := mkMerge s buffer (staged st) (l1_counter st) in
              if L1_MAX_FILE_ENTRIES <=? zlen buffer then
                '(e, st) ← flushBuffer dir st;
                match e with Some e => mret (Some e, st) | None => merge_loop fuel dir st end
              else merge_loop fuel dir st
          end
      end
  end.

Fixpoint createIterators (i : nat) (tables : list t) (s : sources) : M sources :=
  match tables with
  | [] => mret s
  | o :: tables =>
      it ← SSTable.createIterator o;
      s ← of_option (pull i (mkSources (heap s) (iterators s ++ [it])));
      createIterators (S i) tables s
  end.

(** Enough for every entry of every file. *)
Definition merge_fuel (s : sources) : nat :=
  S (foldr (fun it a => (2 + match in_ it with Some f => length (content f) | None => 0 end + a)%nat)
       0%nat (iterators s)).

Definition merge_phase (dir : str) (tables : list t) (l1_start : Z) : M (option exn * merge_state) :=
  s ← createIterators 0 tables (mkSources [] []);
  '(e, st) ← merge_loop (merge_fuel s) dir (mkMerge s [] [] l1_start);
  match e with
  | Some e => mret (Some e, st)
  | None =>
      '(e, st) ← flushBuffer dir st;
      match e with
      | Some e => mret (Some e, st)
      | None => e ← attempt (hit "compact.after_merge"); mret (e, st)
      end
  end.

(** ** Phase 2: publishing *)

(** What was renamed, when an exception stops the loop. *)
Fixpoint publish_loop (l : list (str * str)) (published : nat) : M (option exn * nat) :=
  match l with
  | [] => mret (None, published)
  | (tmp, fin) :: l =>
      ok ← rename tmp fin;
      if negb ok then mret (Some (RuntimeError "filesystem::rename"), published) else
      e ← attempt (hit "compact.mid_publish");
      match e with
      | Some e => mret (Some e, S published)
      | None => publish_loop l (S published)
      end
  end.

Definition open_attempt (path : str) : M (exn + t) :=
  try_catch (o ← SSTable.open path; mret (inr o)) (fun e => mret (inl e)).

Fixpoint open_loop (l : list (str * str)) (fresh : list t) : M (option exn * list t) :=
  match l with
  | [] => mret (None, fresh)
  | (_, fin) :: l =>
      r ← open_attempt fin;
      match r with
      | inl e => mret (Some e, fresh)
      | inr o => open_loop l (fresh ++ [o])
      end
  end.

Definition publish_phase (l : list (str * str)) : M (option exn * nat * list t) :=
  '(e, published) ← publish_loop l 0;
  match e with
  | Some e => mret (Some e, published, [])
  | None =>
      fsyncDir ;;
      '(e, fresh) ← open_loop l [];
      match e with
      | Some e => mret (Some e, published, fresh)
      | None => e ← attempt (hit "compact.after_publish"); mret (e, published, fresh)
      end
  end.

Fixpoint for_each {A} (f : A -> M unit) (l : list A) : M unit :=
  match l with
  | [] => mret tt
  | a :: l => f a ;; for_each f l
  end.

Definition remove_quietly (path : str) : M unit := _ ← remove path; mret tt.

(** Undoing the renames that happened and dropping the other temporaries. *)
Definition rollback (l : list (str * str)) (published : nat) : M unit :=
  for_each (fun p => remove_quietly p.2) (take published l) ;;
  for_each (fun p => remove_quietly p.1) (drop published l).

(** ** Numbering *)

Definition dir_paths (dir : str) : M (list str) :=
  ok ← call;
  if (ok : bool) then gets (fun w => List.filter (Names.in_dir dir) (map_to_list (files w)).*1)
  else mret [].

Definition sweep (paths : list str) : M unit :=
  for_each (fun p => if bool_decide (Names.extension p = bs ".tmp") then remove_quietly p else mret tt) paths.

(** [l1_start = std::max(l1_start, std::stoi(digits) + 1)], skipped when [stoi]
    throws. *)
Definition number_past (start : Z) (digits : str) : M Z :=
  match Names.stoi digits with
  | None => mret start
  | Some n => n ← int_succ n; mret (Z.max start n)
  end.

Fixpoint number_tables (start : Z) (paths : list str) : M Z :=
  match paths with
  | [] => mret start
  | p :: paths =>
      start ← match Names.split_last Names.dash (Names.stem p) with
              | Some (_, digits) => number_past start digits
              | None => mret start
              end;
      number_tables start paths
  end.

Fixpoint number_disk (start : Z) (paths : list str) : M Z :=
  match paths with
  | [] => mret start
  | p :: paths =>
      start ← (if bool_decide (Names.extension p = bs ".sst") && Names.has_prefix (bs "sst-1-") (Names.stem p)
               then number_past start (drop 6 (Names.stem p)) else mret start);
      number_disk start paths
  end.

(** ** The whole run *)

Definition is_level (prefix : str) (o : t) : bool := Names.has_prefix prefix (Names.filename (path o)).

(** Phase 3, for one input: a removal that fails is only reported. *)
Definition remove_input (o : t) : M unit :=
  crashPoint "compact.mid_remove" ;; remove_quietly (path o).

Definition run (dir : str) (sstables : list t) (sst_counter : Z) : M (list t * Z) :=
  let l0 := List.filter (is_level (bs "sst-0-")) sstables in
  let l1 := List.filter (fun o => negb (is_level (bs "sst-0-") o) && is_level (bs "sst-1-") o) sstables in
  if (length l0 <? L0_THRESHOLD)%nat then mret (sstables, sst_counter) else
  paths ← dir_paths dir;
  sweep paths ;;
  l1_start ← number_tables 0 (path <$> l1);
  paths ← dir_paths dir;
  l1_start ← number_disk l1_start paths;
  '(e, st) ← merge_phase dir sstables l1_start;
  match e with
  | Some e => for_each (fun p => remove_quietly p.1) (staged st) ;; throw e
  | None =>
      '(e, published, fresh) ← publish_phase (staged st);
      match e with
      | Some e => for_each SSTable.destroy fresh ;; rollback (staged st) published ;; throw e
      | None =>
          for_each remove_input sstables ;;
          fsyncDir ;;
          crashPoint "compact.after_remove" ;;
          for_each SSTable.destroy sstables ;;
          mret (fresh, 0)
      end
  end.

(** ** The heap *)

(** [a] leaves the heap before [b]. *)
Definition before (a b : HeapNode) : Prop :=
  (node_entry a).1 <s (node_entry b).1 \/
  (node_entry a).1 = (node_entry b).1 /\ (sst_index b < sst_index a)%nat.

Lemma heap_gt_before a b : heap_gt a b = true <-> before b a.
Proof.
  unfold heap_gt, before, str_eqb. case_bool_decide as H.
  - rewrite H, Nat.ltb_lt. split; [auto|]. intros [?%str_lt_irrefl|[_ ?]]; done.
  - rewrite str_ltb_lt. split; [auto|]. intros [?|[? _]]; [done|congruence].
Qed.

Lemma before_trans a b c : before a b -> before b c -> before a c.
Proof.
  unfold before. intros [H1|[E1 H1]] [H2|[E2 H2]].
  - left. by eapply str_lt_trans.
  - left. by rewrite <- E2.
  - left. by rewrite E1.
  - right. split; [congruence|lia].
Qed.

Lemma before_total a b : sst_index a <> sst_index b -> before a b \/ before b a.
Proof.
  intros Hi. unfold before.
  destruct (str_lt_trichotomy (node_entry a).1 (node_entry b).1) as [|[E|]]; auto.
  rewrite E. destruct (Nat.lt_trichotomy (sst_index a) (sst_index b)) as [|[|]]; auto; lia.
Qed.

(** [top] is the unique first node. *)
Lemma pop_min_spec h :
  NoDup (sst_index <$> h) ->
  match pop_min h with
  | None => h = []
  | Some (m, rest) => h ≡ₚ m :: rest /\ Forall (before m) rest
  end.
Proof.
  induction h as [|n h IH]; [done|]. rewrite fmap_cons. intros [Hn Hnd]%NoDup_cons. specialize (IH Hnd).
  cbn [pop_min]. destruct (pop_min h) as [[m rest]|]; [|subst; by repeat constructor].
  destruct IH as [Hp Hr].
  assert (forall x, x ∈ h -> sst_index n <> sst_index x) as Hne.
  { intros x Hx Heq. apply Hn. rewrite Heq. by apply list_elem_of_fmap_2. }
  destruct (heap_gt n m) eqn:E.
  - apply heap_gt_before in E. split; [rewrite Hp; apply Permutation_swap|by constructor].
  - assert (before n m) as Hnm.
    { destruct (before_total n m) as [|Hb]; [apply Hne; rewrite Hp; set_solver|done|].
      apply heap_gt_before in Hb. congruence. }
    split; [by rewrite Hp|]. constructor; [done|]. eapply Forall_impl; [exact Hr|].
    intros x. by apply before_trans.
Qed.

(** ** The sources *)

(** [ss] is what each table still has to give: its node in the heap, if any, and
    what its iterator delivers behind that. *)
Record srcs_rep (s : sources) (ss : list (list entry)) : Prop := {
  sr_iters : Forall2 (fun it x => iter_rep it (tail x)) (iterators s) ss;
  sr_heap : forall n, n ∈ heap s <-> exists l, ss !! sst_index n = Some (node_entry n :: l);
  sr_nodup : NoDup (sst_index <$> heap s)
}.

(** Advancing one source whose node is not in the heap. *)
Lemma pull_rep i h its ss x :
  Forall2 (fun it x => iter_rep it (tail x)) its ss -> ss !! i = Some x ->
  (forall n, n ∈ h <-> sst_index n <> i /\ exists l, ss !! sst_index n = Some (node_entry n :: l)) ->
  NoDup (sst_index <$> h) ->
  exists s', pull i (mkSources h its) = Some s' /\ srcs_rep s' (<[i := tail x]> ss).
Proof.
  intros Hits Hi Hh Hnd. destruct (Forall2_lookup_r _ _ _ _ _ Hits Hi) as (it & Hit & Hrep).
  assert (i < length ss)%nat as Hlen by by eapply lookup_lt_Some.
  unfold pull. cbn [iterators heap]. rewrite Hit. cbn [mbind option_bind].
  rewrite (hasNext_rep _ _ Hrep). destruct (tail x) as [|e l] eqn:Ex.
  - rewrite bool_decide_false by tauto. eexists. split; [done|]. split; cbn [iterators heap]; [| |done].
    + rewrite <- (list_insert_id its i it) by done. apply Forall2_insert; [done|]. exact Hrep.
    + intros n. rewrite Hh. destruct (decide (sst_index n = i)) as [->|Hne].
      * rewrite list_lookup_insert_eq by done. naive_solver.
      * rewrite list_lookup_insert_ne by done. naive_solver.
  - rewrite bool_decide_true by done. destruct (next_rep _ _ _ Hrep) as (it' & -> & Hrep').
    cbn [mbind option_bind]. eexists. split; [done|]. split; cbn [iterators heap].
    + by apply Forall2_insert.
    + intros n. rewrite elem_of_cons, Hh. destruct (decide (sst_index n = i)) as [Heq|Hne].
      * rewrite Heq, list_lookup_insert_eq by done. destruct n as [ne ni]. simpl in *. subst ni.
        split; [intros [[= ->]|[? _]]; [by eexists|done]|]. intros [l' [= -> _]]. by left.
      * rewrite list_lookup_insert_ne by done. split; [|naive_solver].
        intros [->|?]; [done|naive_solver].
    + rewrite fmap_cons. apply NoDup_cons. split; [|done].
      intros (n & Hn & Hin)%list_elem_of_fmap. apply Hh in Hin as [? _]. simpl in Hn. congruence.
Qed.

(** Popping a node and advancing its source. *)
Lemma pop_pull_rep s ss m rest :
  srcs_rep s ss -> pop_min (heap s) = Some (m, rest) ->
  exists l s', ss !! sst_index m = Some (node_entry m :: l) /\
    pull (sst_index m) (mkSources rest (iterators s)) = Some s' /\ srcs_rep s' (<[sst_index m := l]> ss).
Proof.
  intros [Hits Hheap Hnd] Hpop. pose proof (pop_min_spec _ Hnd) as Hs. rewrite Hpop in Hs. destruct Hs as [Hp _].
  destruct (proj1 (Hheap m) ltac:(rewrite Hp; set_solver)) as [l Hl]. exists l.
  rewrite Hp, fmap_cons in Hnd. apply NoDup_cons in Hnd as [Hm Hnd].
  destruct (pull_rep (sst_index m) rest (iterators s) ss _ Hits Hl) as (s' & Hpull & Hrep'); [|done|by exists s'].
  intros n. split.
  - intros Hn. split; [|apply Hheap; rewrite Hp; set_solver]. intros Heq. apply Hm. rewrite <- Heq.
    by apply list_elem_of_fmap_2.
  - intros [Hne Hex]. apply Hheap in Hex. rewrite Hp in Hex. apply elem_of_cons in Hex as [->|?]; done.
Qed.

(** The top's key is the smallest head. *)
Lemma top_heads s ss m rest :
  srcs_rep s ss -> pop_min (heap s) = Some (m, rest) ->
  heads_ge (node_entry m).1 ss /\
  (forall j e l, ss !! j = Some (e :: l) -> e.1 = (node_entry m).1 -> (j <= sst_index m)%nat).
Proof.
  intros [_ Hheap Hnd] Hpop. pose proof (pop_min_spec _ Hnd) as Hs. rewrite Hpop in Hs. destruct Hs as [Hp Hb].
  assert (forall j e l, ss !! j = Some (e :: l) -> mkHeapNode e j = m \/ before m (mkHeapNode e j)) as H.
  { intros j e l Hj. assert (mkHeapNode e j ∈ heap s) as Hin by (apply Hheap; by exists l).
    rewrite Hp in Hin. apply elem_of_cons in Hin as [?|Hin]; [by left|right]. rewrite Forall_forall in Hb. auto. }
  split.
  - intros x e Hx He. apply list_elem_of_lookup in Hx as [j Hj]. destruct x as [|e' l]; [done|].
    injection He as ->. destruct (H j e l Hj) as [<-|[?|[? _]]]; simpl in *.
    + apply str_lt_irrefl.
    + by apply str_lt_asym.
    + intros Hlt. apply (str_lt_irrefl e.1). congruence.
  - intros j e l Hj He. destruct (H j e l Hj) as [<-|[Hlt|[_ ?]]]; simpl in *; [done| |lia].
    rewrite He in Hlt. by apply str_lt_irrefl in Hlt.
Qed.

Lemma consume_spec fuel k s ss :
  srcs_rep s ss -> Forall keys_sorted ss -> heads_ge k ss -> (count_at k ss <= fuel)%nat ->
  exists s', consume_duplicates fuel k s = Some s' /\ srcs_rep s' (drop_key k <$> ss).
Proof.
  revert s ss. induction fuel as [|fuel IH]; intros s ss Hrep Hs Hge Hf; cbn [consume_duplicates];
    pose proof (pop_min_spec _ (sr_nodup _ _ Hrep)) as Hp;
    destruct (pop_min (heap s)) as [[m rest]|] eqn:Epop.
  2,4: exists s; split; [done|]; rewrite drop_key_none; [done|]; intros x Hx Hat;
    apply list_elem_of_lookup in Hx as [j Hj]; destruct x as [|e l]; [done|];
    assert (mkHeapNode e j ∈ heap s) as Hin by (apply (sr_heap _ _ Hrep); by exists l);
    rewrite Hp in Hin; set_solver.
  all: destruct (pop_pull_rep _ _ _ _ Hrep Epop) as (l & s' & Hl & Hpull & Hrep');
    destruct (sorted_insert _ _ _ _ Hs Hl) as [Hse Hs'];
    destruct (top_heads _ _ _ _ Hrep Epop) as [Htop _].
  all: destruct ((node_entry m).1 =?s k) eqn:E.
  2,4: exists s; split; [done|]; rewrite drop_key_none; [done|]; intros x Hx Hat;
    unfold at_key in Hat; destruct (head x) as [e|] eqn:Ee; [|done]; injection Hat as Hek;
    specialize (Htop x e Hx Ee); specialize (Hge _ _ (list_elem_of_lookup_2 _ _ _ Hl) eq_refl); simpl in Hge;
    rewrite Hek in Htop; destruct (str_lt_trichotomy k (node_entry m).1) as [?|[Heq|?]]; [done| |done];
    rewrite Heq, (proj2 (str_eqb_eq _ _) eq_refl) in E; done.
  all: str_prop; destruct (drop_key_insert k ss _ _ _ Hl E Hse) as [Hdk Hnat];
    pose proof (count_at_insert k ss _ _ _ Hl E Hnat) as Hc.
  1: lia.
  rewrite Hpull. cbn [mbind option_bind]. rewrite <- Hdk.
  apply IH; [done|done|by eapply heads_ge_insert|lia].
Qed.

(** One round of the merge is one step of the specification. *)
Lemma merge_round_spec s ss :
  srcs_rep s ss -> Forall keys_sorted ss ->
  (merge_round s = Some None /\ Forall (fun x => x = []) ss) \/
  exists e s', merge_round s = Some (Some (e, s')) /\ head_value e.1 ss = Some e.2 /\
    heads_ge e.1 ss /\ srcs_rep s' (drop_key e.1 <$> ss) /\
    exists i l, ss !! i = Some (e :: l).
Proof.
  intros Hrep Hs. unfold merge_round. pose proof (pop_min_spec _ (sr_nodup _ _ Hrep)) as Hp.
  destruct (pop_min (heap s)) as [[m rest]|] eqn:Epop; [right|left].
  - destruct (pop_pull_rep _ _ _ _ Hrep Epop) as (l & s' & Hl & Hpull & Hrep').
    destruct (sorted_insert _ _ _ _ Hs Hl) as [Hse Hs'].
    destruct (top_heads _ _ _ _ Hrep Epop) as [Htop Hmax].
    destruct (drop_key_insert _ ss _ _ _ Hl eq_refl Hse) as [Hdk Hnat].
    destruct (consume_spec (length (iterators s')) (node_entry m).1 s' _ Hrep' Hs') as (s2 & Hc & Hrep2).
    { by eapply heads_ge_insert. }
    { unfold count_at. rewrite (Forall2_length _ _ _ (sr_iters _ _ Hrep')). apply length_filter. }
    exists (node_entry m), s2. rewrite Hpull. cbn [mbind option_bind]. rewrite Hc.
    split_and!; [done| |done|by rewrite <- Hdk|by eauto]. by eapply head_value_max.
  - split; [done|]. apply Forall_forall. intros x Hx. apply list_elem_of_lookup in Hx as [j Hj].
    destruct x as [|e l]; [done|]. exfalso.
    assert (mkHeapNode e j ∈ heap s) as Hin by (apply (sr_heap _ _ Hrep); by exists l).
    rewrite Hp in Hin. set_solver.
Qed.

End Compaction.
