(* ===== verification/CompactionSpec.v ===== *)
(** * Compaction: correctness of a run

    The merge phase writes the merged runs; a run that fails or is killed at any
    fault point leaves on disk a store with the same contents, and one that
    returns has replaced the tables by their merge.  [Compaction] has the model
    and the heap; [Layers] the specification. *)

From S2P Require Import Prelude Bloom BlockCache Fault World Names TableFormat SSTable Layers Compaction.
Open Scope Z_scope.

Module CompactionSpec.
Import TableFormat Layers Compaction.

(** ** Steps of a run *)

(** Only temporaries differ. *)
Record frame_tmp (w w' : world) : Prop := {
  fr_files : forall p, Names.extension p <> bs ".tmp" -> files w' !! p = files w !! p;
  fr_cache : cache w' = cache w;
  fr_armed : Fault.g_armed (faults w) = false -> Fault.g_armed (faults w') = false;
  fr_io : io w = [] -> io w' = []
}.

#[export] Instance frame_tmp_po : PreOrder frame_tmp.
Proof.
  split; [by intros w|]. intros w0 w1 w2 [A1 A2 A3 A4] [B1 B2 B3 B4]. split; [|congruence|auto..].
  intros p Hp. by rewrite B1, A1.
Qed.

Lemma frame_only_io w w' : only_io w w' -> frame_tmp w w'.
Proof. by intros (l & Hl & ->). Qed.

Lemma frame_faults w0 w f :
  frame_tmp w0 w -> (Fault.g_armed (faults w) = false -> Fault.g_armed f = false) -> frame_tmp w0 (set_faults f w).
Proof. intros [A1 A2 A3 A4] Hf. split; simpl; auto. Qed.

(** Nothing arms the registry while a run goes on. *)
Lemma was_armed f f' : (Fault.g_armed f = false -> Fault.g_armed f' = false) -> Fault.g_armed f' = true -> Fault.g_armed f = true.
Proof. destruct (Fault.g_armed f); [done|]. intros H. by rewrite H. Qed.

(** Touching a temporary. *)
Lemma frame_only_tmp t w w' :
  Names.extension t = bs ".tmp" -> SSTable.only_tmp t w w' -> (io w = [] -> io w' = []) -> frame_tmp w w'.
Proof.
  intros Ht [H1 H2 H3] Hio. split; [|done|congruence|done]. intros p Hp. apply H1. congruence.
Qed.

Lemma frame_remove p l w :
  Names.extension p = bs ".tmp" -> (io w = [] -> l = []) -> frame_tmp w (set_files (delete p (files w)) (set_io l w)).
Proof. intros Hp Hl. split; [|done..]. intros q Hq. simpl. apply lookup_delete_ne. congruence. Qed.

Lemma wp_attempt (m : M unit) Q w :
  wp m (fun r w' => match r with
                    | Ok _ => Q (Ok None) w' | Throw e => Q (Ok (Some e)) w'
                    | Crashed => Q Crashed w' | Undefined => Q Undefined w'
                    end) w -> wp (attempt m) Q w.
Proof.
  intros H. apply wp_try, wp_bind. eapply wp_mono; [exact H|]. intros [[]|e| |] w' HQ; cbn [after]; [by apply wp_ret|by apply wp_ret|done..].
Qed.

Lemma wp_int_succ n Q w : n <> Names.INT_MAX -> Q (Ok (n + 1)) w -> wp (int_succ n) Q w.
Proof. intros Hn HQ. unfold int_succ. by rewrite (proj2 (Z.eqb_neq _ _)). Qed.

Lemma fsyncFile_wp p w : wp (fsyncFile p) (fun r w' => r = Ok tt /\ only_io w w') w.
Proof.
  unfold fsyncFile. apply wp_bind, wp_open_read. intros o l _ Hl. cbn [after].
  assert (only_io w (set_io l w)) as H by (apply only_io_set; intros Hio; by destruct (Hl Hio)).
  destruct o; [|by apply wp_ret]. do 2 (apply wp_ignored_call; intros ? ? ?). apply wp_ret.
  split; [done|]. by do 2 (etrans; [|done]).
Qed.

Lemma fsyncDir_wp w : wp fsyncDir (fun r w' => r = Ok tt /\ only_io w w') w.
Proof.
  unfold fsyncDir. apply wp_ignored_call. intros [] w1 H1; [|by apply wp_ret].
  do 2 (apply wp_ignored_call; intros ? ? ?). apply wp_ret. split; [done|]. by do 2 (etrans; [|done]).
Qed.

Section merge.
Context (dir : str) (start : Z).

Definition fin (i : nat) : str := Names.sstPath dir 1 (start + Z.of_nat i).
Definition tmp (i : nat) : str := Names.tmp_of (fin i).
Definition outputs (n : nat) : list (str * str) := (fun i => (tmp i, fin i)) <$> seq 0 n.

(** The pieces staged so far, each in its temporary. *)
Record staged_ok (w0 w : world) (st : merge_state) (ps : list (list entry)) : Prop := {
  so_staged : staged st = outputs (length ps);
  so_counter : l1_counter st = start + zlen ps;
  so_files : forall i p, ps !! i = Some p -> files w !! tmp i = Some (table_bytes p);
  so_pieces : Forall (fun p => p <> [] /\ zlen p <= 1000 /\ Forall entry_ok p) ps;
  so_frame : frame_tmp w0 w
}.

Hypothesis Hstart : 0 <= start.

Lemma fin_facts i : Names.filename (fin i) <> [] /\ Names.extension (fin i) = bs ".sst".
Proof. destruct (Names.sst_name dir 1 (start + Z.of_nat i)) as (H1 & H2 & _); [lia|lia|done]. Qed.

Lemma tmp_facts i : Names.extension (tmp i) = bs ".tmp" /\ Names.extension (Names.tmp_of (tmp i)) = bs ".tmp".
Proof.
  destruct (fin_facts i) as [H1 H2]. destruct (Names.tmp_extension (fin i) H1) as (H3 & H4 & _).
  split; [done|]. apply Names.tmp_extension. fold (tmp i) in H4. rewrite H4. by destruct (Names.filename (fin i)).
Qed.

Lemma fin_inj i j :
  start + Z.of_nat i <= Names.INT_MAX -> start + Z.of_nat j <= Names.INT_MAX -> fin i = fin j -> i = j.
Proof. intros Hi Hj H. apply Names.sstPath_inj in H; [lia|unfold Names.INT_MAX in *; lia..]. Qed.

Lemma tmp_ne_tmp2 i j : tmp i <> Names.tmp_of (tmp j).
Proof.
  unfold tmp. intros H%Names.tmp_of_inj. destruct (fin_facts i) as [_ Hi], (tmp_facts j) as [Hj _].
  unfold tmp in Hj. rewrite <- H, Hi in Hj. by vm_compute in Hj.
Qed.

(** What an exception of the merge leaves: nothing but temporaries, all of them
    listed. *)
Definition merge_failed (w0 w : world) (st : merge_state) : Prop :=
  (exists n, staged st = outputs n) /\ frame_tmp w0 w.

Lemma staged_failed w0 w w' st ps s b c :
  staged_ok w0 w st ps -> frame_tmp w w' -> merge_failed w0 w' (mkMerge s b (staged st) c).
Proof. intros Hst Hw. split; [eexists; apply Hst|]. etrans; [apply Hst|done]. Qed.

(** A piece in its temporary. *)
Lemma staged_write w0 w w' st ps b c :
  staged_ok w0 w st ps -> b <> [] -> zlen b <= 1000 -> Forall entry_ok b -> c = l1_counter st + 1 -> c <= Names.INT_MAX ->
  files w' = <[tmp (length ps) := table_bytes b]> (delete (Names.tmp_of (tmp (length ps))) (files w)) ->
  frame_tmp w w' ->
  staged_ok w0 w' (mkMerge (srcs st) [] (staged st ++ [(tmp (length ps), fin (length ps))]) c) (ps ++ [b]).
Proof.
  intros [Hst Hcnt Hfiles Hps Hfr] Hne Hlen Hok -> Hmax Hf Hfr'. split; cbn [staged l1_counter srcs].
  - rewrite Hst. unfold outputs. rewrite length_app, Nat.add_1_r, seq_S, fmap_app. done.
  - rewrite Hcnt, length_app. simpl. lia.
  - intros i p Hi. rewrite Hf. destruct (decide (i = length ps)) as [->|Hne'].
    + rewrite lookup_app_r, Nat.sub_diag in Hi by lia. injection Hi as <-. apply lookup_insert_eq.
    + assert (i < length ps)%nat as Hlt.
      { apply lookup_lt_Some in Hi. rewrite length_app in Hi. simpl in Hi. lia. }
      rewrite lookup_app_l in Hi by done.
      rewrite lookup_insert_ne, lookup_delete_ne; [by apply Hfiles|intros H; symmetry in H; by apply tmp_ne_tmp2 in H|].
      intros H%Names.tmp_of_inj%fin_inj; lia.
  - apply Forall_app. split; [done|]. by repeat constructor.
  - by etrans.
Qed.

(** Staging one more piece; it fails only if a call does. *)
Lemma flushBuffer_spec w0 w st ps :
  staged_ok w0 w st ps -> current_l1_buffer st <> [] -> keys_sorted (current_l1_buffer st) ->
  Forall entry_ok (current_l1_buffer st) -> zlen (current_l1_buffer st) <= 1000 ->
  l1_counter st < Names.INT_MAX ->
  wp (flushBuffer dir st) (fun r w' =>
    match r with
    | Ok (None, st') => staged_ok w0 w' st' (ps ++ [current_l1_buffer st]) /\ current_l1_buffer st' = [] /\ srcs st' = srcs st
    | Ok (Some _, st') => io w0 <> [] /\ merge_failed w0 w' st'
    | _ => False
    end) w.
Proof.
  intros Hst Hne Hs Hok Hlen Hmax. unfold flushBuffer.
  destruct (current_l1_buffer st) as [|e0 b0] eqn:Eb; [done|]. rewrite <- Eb in *. clear Eb e0 b0.
  set (b := current_l1_buffer st) in *.
  assert (Names.sstPath dir 1 (l1_counter st) = fin (length ps)) as -> by (unfold fin; by rewrite (so_counter _ _ _ _ Hst)).
  fold (tmp (length ps)). set (t := tmp (length ps)). destruct (tmp_facts (length ps)) as [Ht1 Ht2]. fold t in Ht1, Ht2.
  assert (table_ok b) as Htab by (apply table_ok_small; [done|lia]).
  assert (io w <> [] -> io w0 <> []) as Hio by (intros Hn H; by apply Hn, Hst).
  apply wp_bind, wp_int_succ; [lia|]. cbn [after]. apply wp_bind, wp_attempt.
  eapply wp_mono; [apply SSTable.write_spec|]. intros r w' H. destruct H as [e w1 Hot Hwhy|r data l Hcs Hb Hq Hr].
  - cbn [after]. apply wp_ret. assert (io w <> []) as Hn.
    { destruct Hwhy as [?|[Hc|Hx]]; [done| |rewrite build_ok in Hx; [by destruct Hx|apply Htab..]].
      apply SSTable.check_sorted_spec in Hs. congruence. }
    split; [auto|]. eapply staged_failed; [done|]. eapply frame_only_tmp; [exact Ht2|done|done].
  - rewrite build_ok in Hb by apply Htab. injection Hb as <-. set (w1 := mkWorld _ _ _ _).
    assert (frame_tmp w w1) as Hfr.
    { split; [|done|done|]; [|intros Hn; by destruct (Hq Hn)]. intros p Hp. unfold w1. cbn [files].
      rewrite lookup_insert_ne, lookup_delete_ne by congruence. done. }
    destruct r as [[]|e| |]; cbn [after]; [| |by destruct Hr as [Hr|[e Hr]]..].
    2: { apply wp_ret. split; [|by eapply staged_failed]. apply Hio. intros Hn. by destruct (Hq Hn). }
    apply wp_bind. eapply wp_mono; [apply fsyncFile_wp|]. intros r w2 [-> Hw2]. cbn [after]. apply wp_ret.
    split; [|done]. destruct Hw2 as (l2 & Hl2 & ->). eapply staged_write; try done; [lia|].
    etrans; [exact Hfr|]. by apply frame_only_io, only_io_set.
Qed.

Lemma drop_key_ok k (ss : list (list entry)) :
  Forall (Forall entry_ok) ss -> Forall (Forall entry_ok) (drop_key k <$> ss).
Proof.
  intros H. apply Forall_fmap. eapply Forall_impl; [exact H|]. intros [|e s]; [done|]. simpl.
  case_decide; [|done]. by intros [_ ?]%Forall_cons.
Qed.

(** The merge under way: [ss] is still to be read and merges to [out]. *)
Record merging (w0 w : world) (st : merge_state) (ps ss : list (list entry)) (out : list entry) : Prop := {
  mg_staged : staged_ok w0 w st ps;
  mg_rep : srcs_rep (srcs st) ss;
  mg_sorted : Forall keys_sorted ss;
  mg_entries : Forall (Forall entry_ok) ss;
  mg_out : merges ss out;
  mg_keys : keys_sorted (mjoin ps ++ current_l1_buffer st ++ live out);
  mg_buffer : Forall entry_ok (current_l1_buffer st);
  mg_room : zlen (current_l1_buffer st) < 1000;
  mg_numbers : l1_counter st + zlen out < Names.INT_MAX
}.

(** What the outputs will hold. *)
Definition outgoing (st : merge_state) (ps : list (list entry)) (out : list entry) : list entry :=
  mjoin ps ++ current_l1_buffer st ++ live out.

(** A round of the merge delivers the head of what the sources merge to. *)
Lemma merging_round w0 w st ps ss out :
  merging w0 w st ps ss out ->
  (merge_round (srcs st) = Some None /\ out = []) \/
  exists e s' ss' out', merge_round (srcs st) = Some (Some (e, s')) /\ out = e :: out' /\ (total ss' < total ss)%nat /\
    entry_ok e /\ srcs_rep s' ss' /\ Forall keys_sorted ss' /\ Forall (Forall entry_ok) ss' /\ merges ss' out'.
Proof.
  intros [_ Hrep Hs Hok Hm _ _ _ _].
  destruct (merge_round_spec _ _ Hrep Hs) as [[-> Hnil]|(e & s' & -> & Hv & Hge & Hrep' & i & l & Hi)]; [left|right].
  - split; [done|]. inversion Hm as [? _ |? k v out' Hkv]; subst; [done|]. exfalso.
    clear -Hnil Hkv. induction Hnil as [|s ss -> _ IH]; [done|]. simpl in Hkv. by destruct (head_value k ss).
  - inversion Hm as [? Hnil|? k v out' Hkv Hkmin Hm']; subst.
    { exfalso. rewrite Forall_forall in Hnil. by specialize (Hnil _ (list_elem_of_lookup_2 _ _ _ Hi)). }
    pose proof (merges_step_inv ss k v e i l Hkmin Hkv Hge Hi) as ->. rewrite Hv in Hkv. injection Hkv as <-.
    exists e, s', (drop_key e.1 <$> ss), out'. split_and!; try done; [by destruct e|by eapply total_drop| |by apply drop_keys_sorted|by apply drop_key_ok].
    rewrite Forall_forall in Hok. specialize (Hok _ (list_elem_of_lookup_2 _ _ _ Hi)). by apply Forall_cons in Hok as [? _].
Qed.

(** A tombstone is dropped. *)
Lemma merging_skip w0 w st ps ss e out s' ss' :
  merging w0 w st ps ss (e :: out) -> e.2 = None ->
  srcs_rep s' ss' -> Forall keys_sorted ss' -> Forall (Forall entry_ok) ss' -> merges ss' out ->
  let st' := mkMerge s' (current_l1_buffer st) (staged st) (l1_counter st) in
  merging w0 w st' ps ss' out /\ outgoing st' ps out = outgoing st ps (e :: out).
Proof.
  intros [H1 _ _ _ _ H6 H7 H8 H9] He Hrep Hs Hok Hm st'. unfold outgoing. rewrite live_cons, He in H6 |- *. split; [|done].
  split; try done; [by destruct H1; split|]. cbn [l1_counter st']. simpl in H9. lia.
Qed.

(** An entry goes to the buffer, and a full buffer to a temporary. *)
Lemma merging_push w0 w st ps ss e out s' ss' (Q : result (option exn * merge_state) -> world -> Prop)
    (k : merge_state -> M (option exn * merge_state)) :
  merging w0 w st ps ss (e :: out) -> is_Some e.2 -> entry_ok e ->
  srcs_rep s' ss' -> Forall keys_sorted ss' -> Forall (Forall entry_ok) ss' -> merges ss' out ->
  let st1 := mkMerge s' (current_l1_buffer st ++ [e]) (staged st) (l1_counter st) in
  (forall w' st' ps', merging w0 w' st' ps' ss' out -> outgoing st' ps' out = outgoing st ps (e :: out) -> wp (k st') Q w') ->
  (forall w' x st', io w0 <> [] -> merge_failed w0 w' st' -> Q (Ok (Some x, st')) w') ->
  wp (if L1_MAX_FILE_ENTRIES <=? zlen (current_l1_buffer st ++ [e]) then
        '(x, st) ← flushBuffer dir st1; match x with Some x => mret (Some x, st) | None => k st end
      else k st1) Q w.
Proof.
  intros [H1 _ _ _ _ H6 H7 H8 H9] [v He] Heok Hrep Hs Hok Hm st1 Hk HQ.
  set (b := current_l1_buffer st ++ [e]) in *. assert (outgoing st1 ps out = outgoing st ps (e :: out)) as Hc.
  { unfold outgoing. rewrite live_cons, He. cbn [current_l1_buffer st1]. unfold b. by rewrite <- app_assoc. }
  assert (staged_ok w0 w st1 ps) as Hst1 by (by destruct H1; split).
  assert (Forall entry_ok b) as Hb by (apply Forall_app; split; [done|]; by constructor).
  assert (zlen b = zlen (current_l1_buffer st) + 1) as Hbl by (subst b; rewrite length_app; simpl; lia).
  assert (keys_sorted (mjoin ps ++ b ++ live out)) as Hks by (unfold outgoing in Hc; cbn [current_l1_buffer st1] in Hc; by rewrite Hc).
  simpl in H9. unfold L1_MAX_FILE_ENTRIES. destruct (Z.leb_spec 1000 (zlen b)) as [Hfull|Hroom].
  - apply wp_bind. eapply wp_mono; [apply (flushBuffer_spec w0 w st1 ps Hst1)|];
      [by destruct (current_l1_buffer st)| |done|cbn [current_l1_buffer st1]; lia|cbn [l1_counter st1]; lia|].
    { apply keys_sorted_app in Hks as (_ & _ & Hks). by apply keys_sorted_app in Hks as (_ & ? & _). }
    intros [[[x|] st2]|x| |] w2 H; cbn [after]; try done; [destruct H; by apply wp_ret, HQ|].
    destruct H as (Hst2 & Hb2 & Hs2). cbn [current_l1_buffer srcs st1] in Hst2, Hs2. eapply Hk.
    + split; rewrite ?Hs2, ?Hb2; try done. { by rewrite mjoin_app, mjoin_singleton, <- app_assoc. }
      rewrite (so_counter _ _ _ _ Hst2), length_app. rewrite (so_counter _ _ _ _ H1) in H9. simpl. lia.
    + rewrite <- Hc. unfold outgoing. rewrite Hb2, mjoin_app, mjoin_singleton, <- app_assoc. done.
  - apply (Hk w st1 ps); [|done]. split; try done. cbn [l1_counter st1]. lia.
Qed.

Lemma merge_loop_spec w0 fuel : forall w st ps ss out,
  merging w0 w st ps ss out -> (total ss < fuel)%nat ->
  wp (merge_loop fuel dir st) (fun r w' =>
    match r with
    | Ok (None, st') => exists ps' ss', merging w0 w' st' ps' ss' [] /\ outgoing st' ps' [] = outgoing st ps out
    | Ok (Some _, st') => io w0 <> [] /\ merge_failed w0 w' st'
    | _ => False
    end) w.
Proof.
  induction fuel as [|fuel IH]; intros w st ps ss out H Hf; [lia|]. cbn [merge_loop].
  destruct (merging_round _ _ _ _ _ _ H) as [[-> ->]|(e & s' & ss' & out' & -> & -> & Ht & He & Hrep & Hs & Hok & Hm)];
    apply wp_bind, wp_of_option; cbn [after]; [apply wp_ret; by exists ps, ss|].
  destruct e.2 as [v|] eqn:Ev.
  - eapply merging_push; [exact H|by rewrite Ev|done..| |].
    + intros w1 st1 ps1 H1 Hc. eapply wp_mono; [apply (IH w1 st1 ps1 ss' out' H1); lia|].
      intros [[[x|] st2]|x| |] w2; try done. intros (ps' & ss2 & H2 & Hc2). exists ps', ss2. by rewrite <- Hc.
    + done.
  - destruct (merging_skip _ _ _ _ _ _ _ _ _ H Ev Hrep Hs Hok Hm) as [H1 Hc].
    eapply wp_mono; [apply (IH w _ ps ss' out' H1); lia|].
    intros [[[x|] st2]|x| |] w2; try done. intros (ps' & ss2 & H2 & Hc2). exists ps', ss2. by rewrite <- Hc.
Qed.

(** What the iterators of tables give: a file that cannot be opened gives
    nothing. *)
Definition reads (w : world) (rs ls : list (list entry)) : Prop :=
  Forall2 (fun r l => r = l \/ io w <> [] /\ r = []) rs ls.

Lemma reads_quiet w rs ls : reads w rs ls -> io w = [] -> rs = ls.
Proof. intros H Hio. induction H as [|r l rs ls [->|[? _]] _ ->]; done. Qed.

Lemma reads_Forall (P : list entry -> Prop) w rs ls : reads w rs ls -> P [] -> Forall P ls -> Forall P rs.
Proof.
  intros H Hn. induction H as [|r l rs ls Hr _ IH]; [constructor|]. intros [? ?]%Forall_cons.
  constructor; [by destruct Hr as [->|[_ ->]]|auto].
Qed.

Lemma reads_total w rs ls : reads w rs ls -> (total rs <= total ls)%nat.
Proof.
  induction 1 as [|r l rs ls Hr _ IH]; [done|]. cbn [total foldr]. fold (total rs) (total ls).
  destruct Hr as [->|[_ ->]]; simpl; lia.
Qed.

(** One more source. *)
Lemma pull_new s ss it es :
  srcs_rep s ss -> iter_rep it es ->
  exists s', pull (length ss) (mkSources (heap s) (iterators s ++ [it])) = Some s' /\ srcs_rep s' (ss ++ [es]).
Proof.
  intros [Hits Hheap Hnd] Hit.
  destruct (pull_rep (length ss) (heap s) (iterators s ++ [it]) (ss ++ [([], None) :: es]) (([], None) :: es))
    as (s1 & Hpull & Hrep1); [| | |done|].
  { apply Forall2_app; [done|]. by constructor. }
  { by rewrite lookup_app_r, Nat.sub_diag by lia. }
  { intros n. rewrite Hheap. split.
    - intros [l Hl]. pose proof (lookup_lt_Some _ _ _ Hl). split; [lia|]. exists l. by rewrite lookup_app_l by lia.
    - intros [Hne [l Hl]]. exists l. rewrite lookup_app in Hl. destruct (ss !! sst_index n) eqn:En; [done|].
      apply lookup_ge_None in En. apply list_lookup_singleton_Some in Hl as [? _]. lia. }
  exists s1. split; [done|]. by rewrite insert_app_r_alt, Nat.sub_diag in Hrep1 by lia.
Qed.

(** Opening the iterators of tables that are all on disk. *)
Lemma createIterators_spec w0 : forall (tables : list (str * list entry)) w i s ss,
  only_io w0 w -> srcs_rep s ss -> i = length ss ->
  Forall (fun x => files w0 !! x.1 = Some (table_bytes x.2) /\ table_ok x.2) tables ->
  wp (createIterators i ((fun x => table_of x.1 x.2) <$> tables) s) (fun r w' =>
    exists s' rs, r = Ok s' /\ only_io w0 w' /\ srcs_rep s' (ss ++ rs) /\ reads w0 rs tables.*2) w.
Proof.
  induction tables as [|[p es] tables IH]; intros w i s ss Hw Hrep -> Htab.
  { apply wp_ret. exists s, []. rewrite app_nil_r. split_and!; [done..|constructor]. }
  apply Forall_cons in Htab as [[Hp Hok] Htab]. rewrite fmap_cons. cbn [createIterators fst snd] in *.
  unfold SSTable.createIterator. cbn [path index_offset table_of].
  apply wp_bind, wp_bind, wp_open_read. intros o l Ho Hl. cbn [after]. apply wp_ret. cbn [after].
  destruct Hw as (l0 & Hl0 & ->). cbn [files set_io io] in *. change (set_io l (set_io l0 w0)) with (set_io l w0).
  assert (only_io w0 (set_io l w0)) as Hw' by (apply only_io_set; intros Hio; by destruct (Hl (Hl0 Hio))).
  set (it := new_iter o (zlen (enc_entries es)) 0).
  assert (exists r, iter_rep it r /\ (r = es \/ io w0 <> [] /\ r = [])) as (r & Hit & Hr).
  { destruct o as [c|].
    - exists es. split; [|by left]. destruct Ho as [?|Ho]; [done|]. rewrite Hp in Ho. injection Ho as ->.
      apply (new_iter_rep es [] es Hok eq_refl).
    - exists []. split; [done|]. right. split; [|done]. intros Hio. destruct (Hl (Hl0 Hio)) as [E _]. by rewrite Hp in E. }
  destruct (pull_new s ss it r Hrep Hit) as (s1 & Hpull & Hrep1). rewrite Hpull. apply wp_bind, wp_of_option. cbn [after].
  eapply wp_mono; [apply (IH _ (S (length ss)) s1 (ss ++ [r]) Hw' Hrep1); [|done]|].
  { rewrite length_app. simpl. lia. }
  intros r1 w' (s2 & rs & -> & Hw2 & Hrep2 & Hrs). exists s2, (r :: rs). rewrite <- app_assoc in Hrep2.
  split_and!; [done..|by constructor].
Qed.

Lemma fuel_enough s ss : srcs_rep s ss -> (total ss < merge_fuel s)%nat.
Proof.
  intros [Hits _ _]. unfold merge_fuel. apply Nat.lt_succ_r.
  induction Hits as [|it x its ss Hit _ IH]; [simpl; lia|]. cbn [foldr total] in *. fold (total ss) in IH |- *.
  enough (length x <= 2 + match in_ it with Some f => length (content f) | None => 0 end)%nat by lia.
  pose proof (iter_length _ _ Hit). destruct x; simpl in *; lia.
Qed.

Lemma hit_disarmed p st : Fault.g_armed st = false -> Fault.hit p st = (Ok tt, st).
Proof. intros H. unfold Fault.hit. by rewrite H. Qed.

Lemma crashPoint_disarmed p st : Fault.g_armed st = false -> Fault.crashPoint p st = (Ok tt, st).
Proof. intros H. unfold Fault.crashPoint. by rewrite H. Qed.

Lemma fires_armed_flag p st : Fault.g_armed (Fault.fires p st).2 = Fault.g_armed st.
Proof. unfold Fault.fires. by case_match. Qed.

Lemma hit_cases p st :
  (exists f, Fault.hit p st = (Ok tt, f) /\ (Fault.g_armed st = false -> Fault.g_armed f = false)) \/
  (exists f, Fault.hit p st = (Throw (Injected p), f) /\ Fault.g_armed st = true) \/
  (exists f, Fault.hit p st = (Crashed, f) /\ Fault.g_armed st = true).
Proof.
  unfold Fault.hit, Fault.hitSlow. destruct (Fault.g_armed st) eqn:E; [|left; by exists st].
  destruct (Fault.fires p st) as [[[| |]|] f].
  - right. left. by exists f.
  - right. right. by exists f.
  - left. by exists f.
  - left. by exists f.
Qed.

Lemma crashPoint_cases p st :
  (exists f, Fault.crashPoint p st = (Ok tt, f) /\ (Fault.g_armed st = false -> Fault.g_armed f = false)) \/
  (exists f, Fault.crashPoint p st = (Crashed, f) /\ Fault.g_armed st = true).
Proof.
  unfold Fault.crashPoint, Fault.crashPointSlow. destruct (Fault.g_armed st) eqn:E; [|left; by exists st].
  destruct (Fault.fires p st) as [[[| |]|] f]; [left|right|left|left]; by exists f.
Qed.

(** A fault point whose exception is caught. *)
Lemma wp_attempt_hit p (Q : result (option exn) -> world -> Prop) w :
  (forall f, (Fault.g_armed (faults w) = false -> Fault.g_armed f = false) -> Q (Ok None) (set_faults f w)) ->
  (forall f, Fault.g_armed (faults w) = true -> Q (Ok (Some (Injected p))) (set_faults f w)) ->
  (forall f, Fault.g_armed (faults w) = true -> Q Crashed (set_faults f w)) ->
  wp (attempt (hit p)) Q w.
Proof.
  intros H1 H2 H3. apply wp_attempt, wp_with_faults.
  destruct (hit_cases p (faults w)) as [(f & -> & Hf)|[(f & -> & Hf)|(f & -> & Hf)]]; cbn [fst snd]; auto.
Qed.

(** What phase 1 leaves: the merge of what it could read, cut into temporaries. *)
Definition merge_out (w w' : world) (tables : list (str * list entry)) (st : merge_state) (ps : list (list entry)) : Prop :=
  staged_ok w w' st ps /\ zlen ps <= Z.of_nat (total tables.*2) /\
  exists rs, reads w rs tables.*2 /\ merged rs (mjoin ps).

(** No more pieces than entries. *)
Lemma pieces_few (ps : list (list entry)) :
  Forall (fun p => p <> [] /\ zlen p <= 1000 /\ Forall entry_ok p) ps -> (length ps <= length (mjoin ps))%nat.
Proof.
  induction 1 as [|p ps (Hne & _) _ IH]; [simpl; lia|]. rewrite mjoin_cons, length_app. destruct p; [done|]. simpl. lia.
Qed.

Lemma length_live out : (length (live out) <= length out)%nat.
Proof. apply length_filter. Qed.

(** The last piece. *)
Lemma flush_rest w0 w st ps ss :
  merging w0 w st ps ss [] ->
  wp (flushBuffer dir st) (fun r w' =>
    match r with
    | Ok (None, st') => exists ps', staged_ok w0 w' st' ps' /\ mjoin ps' = outgoing st ps []
    | Ok (Some _, st') => io w0 <> [] /\ merge_failed w0 w' st'
    | _ => False
    end) w.
Proof.
  intros [H1 _ _ _ _ H6 H7 H8 H9]. simpl in H9. unfold outgoing. change (live []) with (@nil entry). rewrite app_nil_r in H6 |- *.
  destruct (decide (current_l1_buffer st = [])) as [Hnil|Hne].
  - unfold flushBuffer. rewrite Hnil. apply wp_ret. exists ps. by rewrite app_nil_r.
  - eapply wp_mono; [apply (flushBuffer_spec w0 w st ps H1 Hne); [|done|lia|lia]|].
    { by apply keys_sorted_app in H6 as (_ & _ & ?). }
    intros [[[x|] st2]|x| |] w2; try done. intros (Hst & _). eexists. split; [exact Hst|]. by rewrite mjoin_app, mjoin_singleton.
Qed.

Lemma merge_phase_spec w (tables : list (str * list entry)) :
  Forall (fun x => files w !! x.1 = Some (table_bytes x.2) /\ table_ok x.2 /\ keys_sorted x.2) tables ->
  start + Z.of_nat (total tables.*2) + 1 < Names.INT_MAX ->
  wp (merge_phase dir ((fun x => table_of x.1 x.2) <$> tables) start) (fun r w' =>
    match r with
    | Ok (None, st) => exists ps, merge_out w w' tables st ps
    | Ok (Some _, st) => (io w <> [] \/ Fault.g_armed (faults w) = true) /\ merge_failed w w' st
    | Crashed => Fault.g_armed (faults w) = true /\ exists st ps, merge_out w w' tables st ps
    | _ => False
    end) w.
Proof.
  intros Htab Hmax. unfold merge_phase.
  assert (srcs_rep (mkSources [] []) []) as Hrep0.
  { split; [constructor| |constructor]. intros n. split; [set_solver|]. intros [l Hl]. done. }
  apply wp_bind. eapply wp_mono; [apply (createIterators_spec w tables w 0 (mkSources [] []) [] (reflexivity w) Hrep0 eq_refl)|].
  { eapply Forall_impl; [exact Htab|]. naive_solver. }
  intros r w1 (s & rs & -> & Hw1 & Hrep & Hrs). cbn [after]. simpl in Hrep.
  assert (Forall keys_sorted rs) as Hsort.
  { eapply reads_Forall; [done|constructor|]. apply Forall_fmap. eapply Forall_impl; [exact Htab|]. naive_solver. }
  assert (Forall (Forall entry_ok) rs) as Hent.
  { eapply reads_Forall; [done|constructor|]. apply Forall_fmap. eapply Forall_impl; [exact Htab|]. intros x (_ & [? _] & _). done. }
  destruct (merges_exists rs Hsort) as (out & Hm & Hlen). pose proof (reads_total _ _ _ Hrs) as Htot.
  pose proof (merges_merged _ _ Hm Hsort) as Hmd. pose proof Hmd as [Hlive _].
  set (st0 := mkMerge s [] [] start).
  assert (merging w w1 st0 [] rs out) as Hst0.
  { split; try done; [|cbn [l1_counter st0]; lia].
    split; cbn [staged l1_counter st0]; [done|simpl; lia|done|constructor|by apply frame_only_io]. }
  apply wp_bind. eapply wp_mono; [apply (merge_loop_spec w (merge_fuel s) w1 st0 [] rs out Hst0); by apply fuel_enough|].
  intros [[[x|] st1]|x| |] w2 H; cbn [after]; try done; [apply wp_ret; naive_solver|].
  destruct H as (ps & ss & H & Hc). apply wp_bind. eapply wp_mono; [by eapply flush_rest|].
  intros [[[x|] st2]|x| |] w3 H3; cbn [after]; try done; [apply wp_ret; naive_solver|].
  destruct H3 as (ps' & Hst' & Hj). rewrite Hc in Hj. change (outgoing st0 [] out) with (live out) in Hj.
  assert (merge_out w w3 tables st2 ps') as Hout.
  { split; [done|]. split; [|exists rs; split; [done|by rewrite Hj]].
    pose proof (pieces_few ps' (so_pieces _ _ _ _ Hst')) as Hps. rewrite Hj in Hps. pose proof (length_live out). lia. }
  assert (forall f, (Fault.g_armed (faults w3) = false -> Fault.g_armed f = false) -> merge_out w (set_faults f w3) tables st2 ps') as Hout'.
  { intros f Hf. destruct Hout as [[S1 S2 S3 S4 S5] Hout]. split; [|done]. split; try done. by apply frame_faults. }
  assert (Fault.g_armed (faults w3) = true -> Fault.g_armed (faults w) = true) as Harm.
  { eapply was_armed, fr_armed, Hst'. }
  apply wp_bind, wp_attempt_hit; intros f Hf; cbn [after]; [apply wp_ret; by exists ps'; auto|apply wp_ret|].
  - split; [by right; auto|]. split; [eexists; apply Hst'|]. apply frame_faults; [apply Hst'|congruence].
  - split; [auto|]. exists st2, ps'. apply Hout'. congruence.
Qed.

(** ** Publishing *)

Context (ps : list (list entry)).
Hypothesis Hrange : start + zlen ps <= Names.INT_MAX.

(** The files once the first [n] outputs have their names. *)
Fixpoint publish_map (n : nat) (m : gmap str str) : gmap str str :=
  match n with
  | O => m
  | S n => match ps !! n with
           | Some p => <[fin n := table_bytes p]> (publish_map n m)
           | None => publish_map n m
           end
  end.

Record pub_ok (w0 : world) (n : nat) (w : world) : Prop := {
  po_files : forall p, Names.extension p <> bs ".tmp" -> files w !! p = publish_map n (files w0) !! p;
  po_tmp : forall i p, (n <= i)%nat -> ps !! i = Some p -> files w !! tmp i = Some (table_bytes p);
  po_cache : cache w = cache w0;
  po_armed : Fault.g_armed (faults w0) = false -> Fault.g_armed (faults w) = false;
  po_io : io w0 = [] -> io w = []
}.

Lemma staged_pub w0 w st : staged_ok w0 w st ps -> pub_ok w0 0 w.
Proof. intros [_ _ Hf _ [H1 H2 H3 H4]]. split; simpl; auto. Qed.

Lemma pub_faults w0 n w f :
  pub_ok w0 n w -> (Fault.g_armed (faults w) = false -> Fault.g_armed f = false) -> pub_ok w0 n (set_faults f w).
Proof. intros [H1 H2 H3 H4 H5] Hf. split; simpl; auto. Qed.

Lemma pub_io w0 n w w' : pub_ok w0 n w -> only_io w w' -> pub_ok w0 n w'.
Proof. intros [H1 H2 H3 H4 H5] (l & Hl & ->). split; simpl; auto. Qed.

Lemma pub_armed w0 n w : pub_ok w0 n w -> Fault.g_armed (faults w) = true -> Fault.g_armed (faults w0) = true.
Proof. intros H. eapply was_armed, po_armed, H. Qed.

Lemma rename_pub w0 n w p :
  pub_ok w0 n w -> ps !! n = Some p ->
  wp (rename (tmp n) (fin n)) (fun r w' => r = Ok true /\ pub_ok w0 (S n) w' \/ r = Ok false /\ io w0 <> [] /\ pub_ok w0 n w') w.
Proof.
  intros Hpub Hp. destruct Hpub as [H1 H2 H3 H4 H5] eqn:E. apply (wp_rename _ _ (table_bytes p)); [by apply H2|intros l Hl; left|intros l Hl; right].
  2: { split_and!; [done|auto|]. eapply pub_io; [exact Hpub|]. by apply only_io_set. }
  split; [done|]. destruct (fin_facts n) as [_ Hfe], (tmp_facts n) as [Hte _].
  pose proof (lookup_lt_Some _ _ _ Hp) as Hlen.
  split; cbn [files set_files set_io cache faults io]; [| |by auto..].
  - intros q Hq. cbn [publish_map]. rewrite Hp. destruct (decide (q = fin n)) as [->|Hne].
    + by rewrite !lookup_insert_eq.
    + rewrite !lookup_insert_ne, lookup_delete_ne by congruence. by apply H1.
  - intros i q Hi Hq. pose proof (lookup_lt_Some _ _ _ Hq).
    rewrite lookup_insert_ne, lookup_delete_ne; [apply H2; [lia|done]| |].
    + intros Heq%Names.tmp_of_inj%fin_inj; lia.
    + intros Heq. destruct (tmp_facts i) as [Hti _]. rewrite <- Heq, Hfe in Hti. by vm_compute in Hti.
Qed.

Lemma outputs_drop n : (n < length ps)%nat -> drop n (outputs (length ps)) = (tmp n, fin n) :: drop (S n) (outputs (length ps)).
Proof.
  intros Hn. apply drop_S. unfold outputs. rewrite list_lookup_fmap, lookup_seq_lt by done. done.
Qed.

Lemma publish_loop_spec w0 m : forall n w,
  (n + m = length ps)%nat -> pub_ok w0 n w ->
  wp (publish_loop (drop n (outputs (length ps))) n)
     (fun r w' => match r with
                  | Ok (None, k) => k = length ps /\ pub_ok w0 (length ps) w'
                  | Ok (Some e, k) => (k <= length ps)%nat /\ pub_ok w0 k w' /\ (io w0 <> [] \/ Fault.g_armed (faults w0) = true)
                  | Crashed => exists k, (k <= length ps)%nat /\ pub_ok w0 k w' /\ Fault.g_armed (faults w0) = true
                  | _ => False
                  end) w.
Proof.
  induction m as [|m IH]; intros n w Hn Hpub.
  { rewrite drop_ge by (unfold outputs; rewrite length_fmap, length_seq; lia). apply wp_ret.
    replace n with (length ps) in * by lia. done. }
  rewrite outputs_drop by lia. cbn [publish_loop].
  destruct (lookup_lt_is_Some_2 ps n) as [p Hp]; [lia|].
  apply wp_bind. eapply wp_mono; [by eapply rename_pub|].
  intros r w1 [[-> Hpub1]|(-> & Hio & Hpub1)]; cbn [after negb]; [|apply wp_ret; split_and!; [lia|done|by left]].
  apply wp_bind, wp_attempt_hit; intros f Hf; cbn [after].
  - apply (IH (S n)); [lia|by apply pub_faults].
  - apply wp_ret. split_and!; [lia|apply pub_faults; [done|congruence]|right; by eapply pub_armed].
  - exists (S n). split_and!; [lia|apply pub_faults; [done|congruence]|by eapply pub_armed].
Qed.

Lemma publish_map_other n m q :
  (forall i, (i < n)%nat -> q <> fin i) -> publish_map n m !! q = m !! q.
Proof.
  induction n as [|n IH]; intros Hq; [done|]. cbn [publish_map].
  destruct (ps !! n); [rewrite lookup_insert_ne by (symmetry; apply Hq; lia)|]; apply IH; intros; apply Hq; lia.
Qed.

Lemma publish_map_fin n m i p :
  (i < n)%nat -> (n <= length ps)%nat -> ps !! i = Some p -> publish_map n m !! fin i = Some (table_bytes p).
Proof.
  induction n as [|n IH]; intros Hi Hn Hp; [lia|]. cbn [publish_map].
  destruct (lookup_lt_is_Some_2 ps n) as [q Hq]; [lia|]. rewrite Hq. destruct (decide (i = n)) as [->|Hne].
  - rewrite lookup_insert_eq. congruence.
  - rewrite lookup_insert_ne; [apply IH; (lia || done)|]. intros Heq%fin_inj; lia.
Qed.

(** The tables opened on the outputs. *)
Definition fresh_of : list t := imap (fun i p => table_of (fin i) p) ps.

Hypothesis Hpieces : Forall (fun p => p <> [] /\ zlen p <= 1000 /\ Forall entry_ok p) ps.

Lemma open_loop_spec w0 m : forall n fresh w,
  (n + m = length ps)%nat -> pub_ok w0 (length ps) w ->
  wp (open_loop (drop n (outputs (length ps))) fresh)
     (fun r w' => only_io w w' /\
                  match r with
                  | Ok (None, l) => l = fresh ++ drop n fresh_of
                  | Ok (Some _, _) => io w <> []
                  | _ => False
                  end) w.
Proof.
  induction m as [|m IH]; intros n fresh w Hn Hpub.
  { rewrite !drop_ge; [apply wp_ret; by rewrite app_nil_r|unfold fresh_of; rewrite length_imap; lia|].
    unfold outputs. rewrite length_fmap, length_seq. lia. }
  rewrite outputs_drop by lia. cbn [open_loop].
  destruct (lookup_lt_is_Some_2 ps n) as [p Hp]; [lia|].
  assert (files w !! fin n = Some (table_bytes p)) as Hf.
  { destruct (fin_facts n) as [_ He]. rewrite (po_files _ _ _ Hpub); [|rewrite He; by vm_compute].
    apply publish_map_fin; (lia || done). }
  assert (table_ok p) as Hok.
  { pose proof (Forall_lookup_1 _ _ _ _ Hpieces Hp) as (_ & ? & ?). apply table_ok_small; [done|lia]. }
  apply wp_bind, wp_try, wp_bind, SSTable.open_spec.
  - intros l data Hd Hl. rewrite Hf in Hd. injection Hd as <-. rewrite load_written by done. cbn [after]. apply wp_ret. cbn [after].
    assert (only_io w (set_io l w)) as Hw by by apply only_io_set.
    eapply wp_mono; [apply (IH (S n) _ (set_io l w)); [lia|by eapply pub_io]|]. intros r w' [Hw' Hr]. split; [by etrans|].
    destruct r as [[[x|] fr]|x| |]; try done. { intros Hio. by apply Hr, Hl. }
    rewrite Hr, <- app_assoc. f_equal. rewrite (drop_S fresh_of (table_of (fin n) p) n); [done|].
    unfold fresh_of. by rewrite list_lookup_imap, Hp.
  - intros l [Hio|Hn']; [|congruence]. cbn [after]. apply wp_ret. split; [by apply only_io_set|done].
Qed.

Lemma publish_phase_spec w0 w :
  pub_ok w0 0 w ->
  wp (publish_phase (outputs (length ps)))
     (fun r w' => match r with
                  | Ok (None, k, fresh) => k = length ps /\ fresh = fresh_of /\ pub_ok w0 (length ps) w'
                  | Ok (Some e, k, fresh) =>
                       (k <= length ps)%nat /\ pub_ok w0 k w' /\ (io w0 <> [] \/ Fault.g_armed (faults w0) = true)
                  | Crashed => exists k, (k <= length ps)%nat /\ pub_ok w0 k w' /\ Fault.g_armed (faults w0) = true
                  | _ => False
                  end) w.
Proof.
  intros Hpub. unfold publish_phase. apply wp_bind.
  eapply wp_mono; [apply (publish_loop_spec w0 (length ps) 0 w eq_refl Hpub)|].
  intros [[[e|] k]|e| |] w1 H; cbn [after]; try done.
  destruct H as [-> Hpub1]. apply wp_bind. eapply wp_mono; [apply fsyncDir_wp|]. intros r w2 [-> H2]. cbn [after].
  pose proof (pub_io _ _ _ _ Hpub1 H2) as Hpub2.
  apply wp_bind. eapply wp_mono; [apply (open_loop_spec w0 (length ps) 0 [] w2 eq_refl Hpub2)|].
  intros r w3 [H3 Hr]. pose proof (pub_io _ _ _ _ Hpub2 H3) as Hpub3.
  destruct r as [[[e|] fr]|e| |]; cbn [after]; try done.
  - apply wp_ret. split_and!; [lia|done|left]. intros Hio. by apply Hr, (po_io _ _ _ Hpub2).
  - cbn [app] in Hr. rewrite drop_0 in Hr. subst fr.
    apply wp_bind, wp_attempt_hit; intros f Hf; cbn [after]; [apply wp_ret|apply wp_ret|].
    + split_and!; [done|done|by apply pub_faults].
    + split_and!; [lia|apply pub_faults; [done|congruence]|right; by eapply pub_armed].
    + exists (length ps). split_and!; [lia|apply pub_faults; [done|congruence]|by eapply pub_armed].
Qed.
End merge.

(** ** Removing *)

Definition delete_all (l : list str) (m : gmap str str) : gmap str str := foldl (fun m p => delete p m) m l.

Lemma delete_all_lookup l m q : delete_all l m !! q = if decide (q ∈ l) then None else m !! q.
Proof.
  revert m. induction l as [|p l IH]; intros m; cbn [delete_all foldl]; [by rewrite decide_False by set_solver|].
  fold (delete_all l (delete p m)). rewrite IH. destruct (decide (q = p)) as [->|Hne].
  - rewrite lookup_delete_eq, (decide_True (P := p ∈ p :: l)) by set_solver. by case_decide.
  - rewrite lookup_delete_ne by done. apply decide_ext. set_solver.
Qed.

Lemma delete_all_app l l' m : delete_all (l ++ l') m = delete_all l' (delete_all l m).
Proof. apply foldl_app. Qed.

(** Removals of the files [l]: those of [q] succeeded. *)
Record removed (l q : list str) (w w' : world) : Prop := {
  rm_sub : q `sublist_of` l;
  rm_all : io w = [] -> q = l;
  rm_files : files w' = delete_all q (files w);
  rm_cache : cache w' = cache w;
  rm_armed : Fault.g_armed (faults w) = false -> Fault.g_armed (faults w') = false;
  rm_io : io w = [] -> io w' = []
}.

Lemma removed_nil w : removed [] [] w w.
Proof. by split. Qed.

Lemma removed_app l1 l2 q1 q2 w0 w1 w2 :
  removed l1 q1 w0 w1 -> removed l2 q2 w1 w2 -> removed (l1 ++ l2) (q1 ++ q2) w0 w2.
Proof.
  intros [A1 A2 A3 A4 A5 A6] [B1 B2 B3 B4 B5 B6]. split; [by apply sublist_app| | |congruence|auto..].
  - intros Hio. by rewrite A2, B2 by auto.
  - by rewrite B3, A3, delete_all_app.
Qed.

Lemma remove_quietly_spec p w : wp (remove_quietly p) (fun r w' => r = Ok tt /\ exists q, removed [p] q w w') w.
Proof.
  apply wp_bind, wp_remove; intros l Hl; cbn [after]; apply wp_ret; (split; [done|]); [exists [p]|exists []]; split; try done.
  apply sublist_nil_l.
Qed.

Lemma for_each_remove {A} (f : A -> str) (l : list A) w :
  wp (for_each (fun a => remove_quietly (f a)) l) (fun r w' => r = Ok tt /\ exists q, removed (f <$> l) q w w') w.
Proof.
  revert w. induction l as [|a l IH]; intros w; [apply wp_ret; split; [done|exists []; apply removed_nil]|]. cbn [for_each fmap list_fmap].
  apply wp_bind. eapply wp_mono; [apply remove_quietly_spec|]. intros r w1 [-> [q1 H1]]. cbn [after].
  eapply wp_mono; [apply IH|]. intros r w2 [-> [q2 H2]]. split; [done|]. exists (q1 ++ q2). exact (removed_app _ _ _ _ _ _ _ H1 H2).
Qed.

Definition forget (l : list str) (c : BlockCache.t) : BlockCache.t :=
  foldl (fun c p => BlockCache.invalidatePath p c) c l.

Lemma for_each_destroy l w :
  for_each SSTable.destroy l w = (Ok tt, set_cache (forget (path <$> l) (cache w)) w).
Proof.
  revert w. induction l as [|o l IH]; intros w; [by destruct w|]. cbn [for_each fmap list_fmap].
  rewrite (bind_ok _ _ w tt (set_cache (BlockCache.invalidatePath (path o) (cache w)) w)) by done.
  by rewrite IH.
Qed.

Lemma remove_inputs_spec (l : list t) w :
  wp (for_each remove_input l)
     (fun r w' =>
        match r with
        | Ok _ => exists q, removed (path <$> l) q w w'
        | Crashed => Fault.g_armed (faults w) = true /\
            exists j q, (j <= length l)%nat /\ removed (take j (path <$> l)) q w w'
        | _ => False
        end) w.
Proof.
  revert w. induction l as [|o l IH]; intros w; [exists []; apply removed_nil|]. cbn [for_each].
  apply wp_bind. unfold remove_input, crashPoint. apply wp_bind. apply wp_with_faults.
  destruct (crashPoint_cases "compact.mid_remove" (faults w)) as [(f & -> & Hf)|(f & -> & Hf)]; cbn [fst snd after].
  - assert (removed [] [] w (set_faults f w)) as H0 by by split.
    eapply wp_mono; [apply remove_quietly_spec|]. intros r w1 [-> [q1 H1]]. cbn [after].
    pose proof (removed_app _ _ _ _ _ _ _ H0 H1) as H01. cbn [app] in H01.
    eapply wp_mono; [apply IH|]. intros [[]|e| |] w2 H2; try done.
    + destruct H2 as [q2 H2]. exists (q1 ++ q2). exact (removed_app _ _ _ _ _ _ _ H01 H2).
    + destruct H2 as (Ha & j & q2 & Hj & H2). split.
      * by eapply was_armed; [apply H01|].
      * exists (S j), (q1 ++ q2). split; [simpl; lia|]. exact (removed_app _ _ _ _ _ _ _ H01 H2).
  - split; [done|]. exists 0%nat, []. split; [lia|]. split; try done. simpl. congruence.
Qed.

End CompactionSpec.
