(* ===== verification/CompactionRun.v ===== *)
(** * Compaction: a whole run

    [run] from its numbering to the removal of its inputs: how it can end, and
    what is on disk and in the table list then.  [CompactionSpec] has the
    phases; [Layers] what tables mean. *)

From S2P Require Import Prelude Bloom BlockCache Fault World Names TableFormat SSTable Layers Compaction CompactionSpec.
Open Scope Z_scope.

Module CompactionRun.
Import TableFormat Layers Compaction CompactionSpec.

(** ** Numbering *)

(** The numbers the compactor reads from level-1 names on disk. *)
Definition disk_number (dir : str) (m : gmap str str) (p : str) (n : Z) : Prop :=
  is_Some (m !! p) /\ Names.in_dir dir p = true /\ Names.extension p = bs ".sst" /\
  Names.has_prefix (bs "sst-1-") (Names.stem p) = true /\ Names.stoi (drop 6 (Names.stem p)) = Some n.

(** There is room for [k] more numbers. *)
Definition numbers_bounded (dir : str) (m : gmap str str) (k : Z) : Prop :=
  k < Names.INT_MAX /\ forall p n, disk_number dir m p n -> n + 1 + k < Names.INT_MAX.

Lemma number_past_spec start digits n k w :
  Names.stoi digits = Some n -> n + 1 + k < Names.INT_MAX -> 0 <= k ->
  number_past start digits w = (Ok (Z.max start (n + 1)), w).
Proof.
  intros Hn Hk H0. unfold number_past. rewrite Hn. unfold int_succ.
  rewrite (proj2 (Z.eqb_neq _ _)) by lia. done.
Qed.

Lemma number_disk_spec (dir : str) (m : gmap str str) (k : Z) w : forall (paths : list str) start,
  numbers_bounded dir m k -> 0 <= k -> 0 <= start -> start + k < Names.INT_MAX ->
  Forall (fun p => is_Some (m !! p) /\ Names.in_dir dir p = true) paths ->
  exists s, number_disk start paths w = (Ok s, w) /\ start <= s /\ s + k < Names.INT_MAX /\
    forall p n, p ∈ paths -> disk_number dir m p n -> n < s.
Proof.
  induction paths as [|p paths IH]; intros start [Hk Hb] H0 Hs Hsk Hall.
  { exists start. split_and!; [done|lia|done|set_solver]. }
  apply Forall_cons in Hall as [[Hp Hin] Hall]. cbn [number_disk].
  assert (exists s1, (if bool_decide (Names.extension p = bs ".sst") && Names.has_prefix (bs "sst-1-") (Names.stem p)
            then number_past start (drop 6 (Names.stem p)) else mret start) w = (Ok s1, w) /\
          start <= s1 /\ s1 + k < Names.INT_MAX /\ (forall n, disk_number dir m p n -> n < s1)) as (s1 & H1 & H2 & H3 & H4).
  { destruct (bool_decide _ && _) eqn:E.
    - apply andb_true_iff in E as [E1%bool_decide_eq_true E2].
      destruct (Names.stoi (drop 6 (Names.stem p))) as [n|] eqn:En.
      + assert (disk_number dir m p n) as Hd by done. specialize (Hb p n Hd).
        rewrite (number_past_spec start _ n k w En Hb H0). exists (Z.max start (n + 1)).
        split_and!; [done|lia|lia|]. intros n' (_ & _ & _ & _ & Hn'). rewrite En in Hn'. injection Hn' as <-. lia.
      + unfold number_past. rewrite En. exists start. split_and!; [done|lia|done|].
        intros n' (_ & _ & _ & _ & Hn'). congruence.
    - exists start. split_and!; [done|lia|done|]. intros n' (_ & _ & E1 & E2 & _).
      rewrite E1, E2, bool_decide_true in E by done. done. }
  rewrite (bind_ok _ _ _ _ _ H1). destruct (IH s1) as (s & H5 & H6 & H7 & H8); [done|lia..|done|].
  exists s. split_and!; [done|lia|done|]. intros q n [->|Hq]%elem_of_cons Hd; [|by eapply H8].
  specialize (H4 n Hd). lia.
Qed.

Lemma sst_digits (dir : str) (c : Z) :
  0 <= c <= Names.INT_MAX ->
  let p := Names.sstPath dir 1 c in
  Names.stem p = Names.sst_stem 1 c /\ Names.has_prefix (bs "sst-1-") (Names.stem p) = true /\
  Names.stoi (drop 6 (Names.stem p)) = Some c /\
  exists a, Names.split_last Names.dash (Names.stem p) = Some (a, drop 6 (Names.stem p)).
Proof.
  intros Hc p. destruct (Names.sstPath_filename dir 1 c) as (_ & _ & Hs & _); [lia..|]. fold p in Hs. rewrite Hs.
  destruct (Names.setw_spec 6 c) as (Hv & Hd & Hne); [lia|].
  split; [done|]. split; [done|]. split.
  - change (drop 6 (Names.sst_stem 1 c)) with (Names.setw 6 (Names.decimal c)).
    rewrite Names.stoi_digits; [by rewrite Hv|done..|]. by rewrite Hv.
  - exists (bs "sst-1"). change (Names.sst_stem 1 c) with (bs "sst-1" ++ Names.dash :: Names.setw 6 (Names.decimal c)).
    rewrite Names.split_last_app; [done|]. by apply Names.not_digit.
Qed.

Lemma number_tables_spec (dir : str) (k : Z) w : forall (paths : list str) start,
  0 <= k -> 0 <= start -> start + k < Names.INT_MAX ->
  Forall (fun p => exists c, p = Names.sstPath dir 1 c /\ 0 <= c /\ c + 1 + k < Names.INT_MAX) paths ->
  exists s, number_tables start paths w = (Ok s, w) /\ start <= s /\ s + k < Names.INT_MAX /\
    forall c, 0 <= c <= Names.INT_MAX -> Names.sstPath dir 1 c ∈ paths -> c < s.
Proof.
  induction paths as [|p paths IH]; intros start H0 Hs Hsk Hall; [exists start; split_and!; [done|lia|done|set_solver]|].
  apply Forall_cons in Hall as [(c & -> & Hc & Hck) Hall]. cbn [number_tables].
  destruct (sst_digits dir c) as (_ & _ & Hst & a & Ha); [lia|]. rewrite Ha.
  rewrite (bind_ok _ _ _ _ _ (number_past_spec start _ c k w Hst Hck H0)).
  destruct (IH (Z.max start (c + 1))) as (s & H1 & H2 & H3 & H4); [lia..|done|]. exists s. split_and!; [done|lia|done|].
  intros c' Hc' [Heq|Hin]%elem_of_cons; [|by apply H4]. apply Names.sstPath_inj in Heq; [lia|unfold Names.INT_MAX in *; lia..].
Qed.

Lemma elem_of_dir_paths (dir : str) (m : gmap str str) (p : str) :
  p ∈ List.filter (Names.in_dir dir) (map_to_list m).*1 <-> is_Some (m !! p) /\ Names.in_dir dir p = true.
Proof.
  rewrite list_elem_of_In, filter_In, <- list_elem_of_In, list_elem_of_fmap. split; intros [H ?]; split; try done.
  - destruct H as ([q c] & -> & Hq%elem_of_map_to_list). by eexists.
  - destruct H as [c Hc]. exists (p, c). split; [done|]. by apply elem_of_map_to_list.
Qed.

(** The files a listing finds; none when it fails. *)
Lemma dir_paths_wp (dir : str) w :
  wp (dir_paths dir) (fun r w' => only_io w w' /\ exists paths, r = Ok paths /\
    (forall p, p ∈ paths -> is_Some (files w !! p) /\ Names.in_dir dir p = true) /\
    (io w = [] -> forall p, is_Some (files w !! p) -> Names.in_dir dir p = true -> p ∈ paths)) w.
Proof.
  unfold dir_paths. apply wp_bind, wp_call. intros b l Hb. cbn [after].
  assert (only_io w (set_io l w)) as Hw by (apply only_io_set; intros Hio; by destruct (Hb Hio)).
  destruct b; [apply wp_gets|apply wp_ret]; (split; [done|]); eexists; (split; [done|]); split.
  - intros p. apply elem_of_dir_paths.
  - intros _ p H1 H2. by apply elem_of_dir_paths.
  - intros p []%elem_of_nil.
  - intros Hio. by destruct (Hb Hio).
Qed.

Lemma sweep_spec paths : forall w, wp (sweep paths) (fun r w' => r = Ok tt /\ frame_tmp w w') w.
Proof.
  induction paths as [|p paths IH]; intros w; [by apply wp_ret|]. unfold sweep. cbn [for_each]. apply wp_bind.
  assert (wp (if bool_decide (Names.extension p = bs ".tmp") then remove_quietly p else mret tt)
            (fun r w' => r = Ok tt /\ frame_tmp w w') w) as H1.
  { case_bool_decide as He; [|by apply wp_ret]. eapply wp_mono; [apply remove_quietly_spec|]. intros r w' [-> [q [Hq _ Hf Hc Ha Hi]]].
    split; [done|]. split; [|done..]. intros p' Hp'. rewrite Hf, delete_all_lookup. rewrite decide_False; [done|].
    intros Hin. apply Hp'. apply (sublist_subseteq _ _ Hq) in Hin. apply list_elem_of_singleton in Hin. congruence. }
  eapply wp_mono; [exact H1|]. intros r w1 [-> Hf]. cbn [after]. eapply wp_mono; [apply IH|]. intros r w2 [-> Hf2].
  split; [done|by etrans].
Qed.

(** ** A whole run *)

(** A table on disk: its level, its counter and its entries. *)
Definition layer : Type := Z * Z * list entry.
Definition layer_path (dir : str) (x : layer) : str := Names.sstPath dir x.1.1 x.1.2.
Definition layer_table (dir : str) (x : layer) : t := table_of (layer_path dir x) x.2.

Definition layer_ok (dir : str) (m : gmap str str) (x : layer) : Prop :=
  0 <= x.1.1 <= 1 /\ 0 <= x.1.2 < Names.INT_MAX /\ table_ok x.2 /\ keys_sorted x.2 /\
  m !! layer_path dir x = Some (table_bytes x.2).

(** The outputs of a run: the merge, cut into pieces, under new names. *)
Record outputs_ok (dir : str) (xs : list layer) (m : gmap str str) (start : Z) (ps : list (list entry)) : Prop := {
  oo_start : 0 <= start;
  oo_range : start + zlen ps <= Names.INT_MAX;
  oo_merged : merged xs.*2 (mjoin ps);
  oo_pieces : Forall (fun p => p <> [] /\ zlen p <= 1000 /\ Forall entry_ok p) ps;
  oo_above : forall p n, disk_number dir m p n -> n < start
}.

Definition files_are (w' : world) (m : gmap str str) : Prop :=
  forall p, Names.extension p <> bs ".tmp" -> files w' !! p = m !! p.

(** How a run can end when no call fails; fault points may be armed. *)
Inductive run_end (dir : str) (xs : list layer) (ctr : Z) (w : world) : result (list t * Z) -> world -> Prop :=
  | run_skipped :
      (length (List.filter (fun x : layer => (x.1.1 =? 0)%Z) xs) < L0_THRESHOLD)%nat ->
      run_end dir xs ctr w (Ok (layer_table dir <$> xs, ctr)) w
  | run_done start ps w' :
      outputs_ok dir xs (files w) start ps ->
      files_are w' (delete_all (layer_path dir <$> xs) (publish_map dir start ps (length ps) (files w))) ->
      cache w' = forget (layer_path dir <$> xs) (cache w) -> io w' = [] ->
      (Fault.g_armed (faults w) = false -> Fault.g_armed (faults w') = false) ->
      run_end dir xs ctr w (Ok (fresh_of dir start ps, 0)) w'
  | run_threw e q w' :
      Fault.g_armed (faults w) = true -> files_are w' (files w) -> cache w' = forget q (cache w) -> io w' = [] ->
      run_end dir xs ctr w (Throw e) w'
  | run_crashed start ps n j w' :
      Fault.g_armed (faults w) = true -> outputs_ok dir xs (files w) start ps ->
      (n <= length ps)%nat -> (j = 0 \/ n = length ps)%nat -> (j <= length xs)%nat ->
      files_are w' (delete_all (take j (layer_path dir <$> xs)) (publish_map dir start ps n (files w))) ->
      run_end dir xs ctr w Crashed w'.

Lemma layer_level dir m x l :
  layer_ok dir m x -> 0 <= l ->
  is_level (bs "sst-" ++ Names.decimal l ++ [Names.dash]) (layer_table dir x) = (x.1.1 =? l).
Proof.
  intros (Hl & Hc & _) Hl'. unfold is_level, layer_table, layer_path. cbn [path table_of].
  destruct (Names.sstPath_filename dir x.1.1 x.1.2) as (-> & _); [lia..|].
  rewrite Names.sst_level_prefix by lia. case_bool_decide; lia.
Qed.

Lemma l0_count dir m (xs : list layer) :
  Forall (layer_ok dir m) xs ->
  length (List.filter (is_level (bs "sst-0-")) (layer_table dir <$> xs)) = length (List.filter (fun x : layer => (x.1.1 =? 0)%Z) xs).
Proof.
  change (bs "sst-0-") with (bs "sst-" ++ Names.decimal 0 ++ [Names.dash]).
  induction 1 as [|x xs Hx _ IH]; [done|]. rewrite fmap_cons. cbn [List.filter].
  rewrite (layer_level dir m) by (done || lia). destruct (x.1.1 =? 0); cbn [length]; by rewrite IH.
Qed.

Lemma l1_numbers dir m (xs : list layer) k :
  Forall (layer_ok dir m) xs -> numbers_bounded dir m k ->
  Forall (fun p => exists c, p = Names.sstPath dir 1 c /\ 0 <= c /\ c + 1 + k < Names.INT_MAX)
    (path <$> List.filter (fun o => negb (is_level (bs "sst-0-") o) && is_level (bs "sst-1-") o) (layer_table dir <$> xs)).
Proof.
  intros Hxs [_ Hk]. apply Forall_fmap, Forall_forall. intros o [Ho Hl]%list_elem_of_In%filter_In.
  apply list_elem_of_In, list_elem_of_fmap in Ho as (x & -> & Hx). rewrite Forall_forall in Hxs. specialize (Hxs x Hx).
  apply andb_true_iff in Hl as [_ Hl]. change (bs "sst-1-") with (bs "sst-" ++ Names.decimal 1 ++ [Names.dash]) in Hl.
  rewrite (layer_level dir m) in Hl by (done || lia). apply Z.eqb_eq in Hl.
  destruct Hxs as (_ & Hc & _ & _ & Hm). unfold compose. cbn [path layer_table table_of].
  unfold layer_path in *. rewrite Hl in *. exists x.1.2. split_and!; [done|lia|]. apply (Hk (Names.sstPath dir 1 x.1.2)).
  destruct (sst_digits dir x.1.2) as (_ & Hp & Hs & _); [lia|]. destruct (Names.sst_name dir 1 x.1.2) as (_ & He & Hi); [lia..|].
  split_and!; [by eexists|done..].
Qed.

Lemma frame_disk dir w w' p n : frame_tmp w w' -> disk_number dir (files w') p n <-> disk_number dir (files w) p n.
Proof.
  intros [Hf _ _ _]. unfold disk_number. split; intros (H1 & H2 & H3 & H4 & H5); split_and!; try done;
    specialize (Hf p ltac:(by rewrite H3)); revert H1; rewrite Hf; auto.
Qed.

(** The names of the outputs are free. *)
Lemma outputs_free dir xs m start ps i :
  outputs_ok dir xs m start ps -> (i < length ps)%nat -> m !! fin dir start i = None.
Proof.
  intros [H0 Hr _ _ Ha] Hi. destruct (m !! fin dir start i) eqn:E; [|done]. exfalso.
  destruct (sst_digits dir (start + Z.of_nat i)) as (_ & Hp & Hs & _); [lia|].
  destruct (Names.sst_name dir 1 (start + Z.of_nat i)) as (_ & He & Hd); [lia..|].
  specialize (Ha (fin dir start i) (start + Z.of_nat i)). enough (start + Z.of_nat i < start) by lia.
  apply Ha. split_and!; [by eexists|done..].
Qed.

Lemma outputs_snd dir start n : (outputs dir start n).*2 = fin dir start <$> seq 0 n.
Proof. unfold outputs. by rewrite <- list_fmap_compose. Qed.

Lemma outputs_fst dir start n : (outputs dir start n).*1 = tmp dir start <$> seq 0 n.
Proof. unfold outputs. by rewrite <- list_fmap_compose. Qed.

Lemma delete_tmps dir start l m p :
  0 <= start -> (forall q, q ∈ l -> exists i, q = tmp dir start i) -> Names.extension p <> bs ".tmp" ->
  delete_all l m !! p = m !! p.
Proof.
  intros H0 Hl Hp. rewrite delete_all_lookup. rewrite decide_False; [done|]. intros Hin.
  destruct (Hl p Hin) as [i ->]. apply Hp. by apply tmp_facts.
Qed.

(** ** Runs in which calls may fail *)

(** The outputs of a run that merged what it could read. *)
Record outputs_made (dir : str) (xs : list layer) (w : world) (start : Z) (ps : list (list entry)) : Prop := {
  om_start : 0 <= start;
  om_range : start + zlen ps <= Names.INT_MAX;
  om_merged : exists rs, reads w rs xs.*2 /\ merged rs (mjoin ps);
  om_pieces : Forall (fun p => p <> [] /\ zlen p <= 1000 /\ Forall entry_ok p) ps;
  om_inputs : forall x i, x ∈ xs -> (i < length ps)%nat -> layer_path dir x <> fin dir start i;
  om_above : io w = [] -> forall p n, disk_number dir (files w) p n -> n < start
}.

(** How a run can end; [q] is what was removed of what was to be. *)
Inductive run_ends (dir : str) (xs : list layer) (ctr : Z) (w : world) : result (list t * Z) -> world -> Prop :=
  | ends_skipped :
      (length (List.filter (fun x : layer => (x.1.1 =? 0)%Z) xs) < L0_THRESHOLD)%nat ->
      run_ends dir xs ctr w (Ok (layer_table dir <$> xs, ctr)) w
  | ends_done start ps q w' :
      outputs_made dir xs w start ps ->
      q `sublist_of` (layer_path dir <$> xs) -> (io w = [] -> q = layer_path dir <$> xs /\ io w' = []) ->
      files_are w' (delete_all q (publish_map dir start ps (length ps) (files w))) ->
      cache w' = forget (layer_path dir <$> xs) (cache w) ->
      (Fault.g_armed (faults w) = false -> Fault.g_armed (faults w') = false) ->
      run_ends dir xs ctr w (Ok (fresh_of dir start ps, 0)) w'
  | ends_abandoned e w' :
      io w <> [] \/ Fault.g_armed (faults w) = true -> (io w = [] -> io w' = []) ->
      files_are w' (files w) -> cache w' = cache w ->
      (Fault.g_armed (faults w) = false -> Fault.g_armed (faults w') = false) ->
      run_ends dir xs ctr w (Throw e) w'
  | ends_undone e start ps n q c w' :
      io w <> [] \/ Fault.g_armed (faults w) = true -> outputs_made dir xs w start ps -> (n <= length ps)%nat ->
      q `sublist_of` (fin dir start <$> seq 0 n) -> (io w = [] -> q = fin dir start <$> seq 0 n /\ io w' = []) ->
      files_are w' (delete_all q (publish_map dir start ps n (files w))) -> cache w' = forget c (cache w) ->
      (Fault.g_armed (faults w) = false -> Fault.g_armed (faults w') = false) ->
      run_ends dir xs ctr w (Throw e) w'
  | ends_crashed start ps n j q w' :
      Fault.g_armed (faults w) = true -> outputs_made dir xs w start ps ->
      (n <= length ps)%nat -> (j = 0 \/ n = length ps)%nat -> (j <= length xs)%nat ->
      q `sublist_of` take j (layer_path dir <$> xs) -> (io w = [] -> q = take j (layer_path dir <$> xs)) ->
      files_are w' (delete_all q (publish_map dir start ps n (files w))) ->
      run_ends dir xs ctr w Crashed w'.

Lemma outputs_made_quiet dir xs w start ps : outputs_made dir xs w start ps -> io w = [] -> outputs_ok dir xs (files w) start ps.
Proof. intros [H1 H2 (rs & Hr & Hm) H4 _ H6] Hio. rewrite (reads_quiet _ _ _ Hr Hio) in Hm. split; try done. by apply H6. Qed.

(** Without failing calls. *)
Lemma run_ends_quiet dir xs ctr w r w' : run_ends dir xs ctr w r w' -> io w = [] -> run_end dir xs ctr w r w'.
Proof.
  intros H Hio. destruct H as [Hl|start ps q w' Ho _ Hq Hf Hc Ha|e w' [?|Hw] Hi Hf Hc _|e start ps n q c w' [?|Hw] Ho Hn _ Hq Hf Hc _|
    start ps n j q w' Hw Ho Hn Hj Hl _ Hq Hf]; try done.
  - by constructor.
  - destruct (Hq Hio) as [-> Hi]. by eapply run_done; [apply outputs_made_quiet|..].
  - eapply (run_threw _ _ _ _ e []); auto.
  - destruct (Hq Hio) as [-> Hi]. eapply run_threw; [done| |exact Hc|done]. intros p Hp. rewrite Hf, delete_all_lookup by done.
    pose proof (outputs_made_quiet _ _ _ _ _ Ho Hio) as Ho'. case_decide as Hin.
    + apply list_elem_of_fmap in Hin as (i & -> & Hi'%elem_of_seq). symmetry. eapply outputs_free; [done|lia].
    + apply publish_map_other. intros i Hi' ->. apply Hin. apply list_elem_of_fmap_2, elem_of_seq. lia.
  - rewrite (Hq Hio) in Hf. by eapply run_crashed; [|apply outputs_made_quiet|..].
Qed.

(** Undoing the publication of [n] outputs. *)
Lemma rollback_spec dir start ps w0 w n :
  0 <= start -> files_are w (publish_map dir start ps n (files w0)) -> (io w0 = [] -> io w = []) ->
  (Fault.g_armed (faults w0) = false -> Fault.g_armed (faults w) = false) -> (n <= length ps)%nat ->
  wp (rollback (outputs dir start (length ps)) n) (fun r w' => r = Ok tt /\ exists q,
    q `sublist_of` (fin dir start <$> seq 0 n) /\ (io w0 = [] -> q = fin dir start <$> seq 0 n /\ io w' = []) /\
    files_are w' (delete_all q (publish_map dir start ps n (files w0))) /\ cache w' = cache w /\
    (Fault.g_armed (faults w0) = false -> Fault.g_armed (faults w') = false)) w.
Proof.
  intros H0 P1 P5 P4 Hn. unfold rollback. apply wp_bind. eapply wp_mono; [apply for_each_remove|].
  intros r w1 [-> [q [A1 A2 A3 A4 A5 A6]]]. cbn [after]. eapply wp_mono; [apply for_each_remove|].
  intros r w2 [-> [q2 [B1 B2 B3 B4 B5 B6]]]. split; [done|]. exists q.
  rewrite fmap_take, outputs_snd, <- fmap_take, take_seq in A1, A2. replace (n `min` length ps)%nat with n in A1, A2 by lia.
  split_and!; [done|auto| |congruence|auto]. intros p Hp.
  rewrite B3, (delete_tmps dir start); [|done| |done].
  - rewrite A3, !delete_all_lookup, P1 by done. done.
  - intros p' Hp'%(sublist_subseteq _ _ B1). apply list_elem_of_fmap in Hp' as (x & -> & Hx).
    assert (x ∈ outputs dir start (length ps)) as Hx' by (rewrite <- (take_drop n (outputs dir start (length ps))); set_solver). clear Hx.
    unfold outputs in Hx'. apply list_elem_of_fmap in Hx' as (i & -> & _). by exists i.
Qed.

(** Phase 3, once the outputs have their names. *)
Lemma remove_phase_spec dir xs ctr w start ps w1 :
  outputs_made dir xs w start ps -> pub_ok dir start ps w (length ps) w1 ->
  wp (for_each remove_input (layer_table dir <$> xs) ;; fsyncDir ;; crashPoint "compact.after_remove" ;;
      for_each SSTable.destroy (layer_table dir <$> xs) ;; mret (fresh_of dir start ps, 0))
     (run_ends dir xs ctr w) w1.
Proof.
  intros Ho Hpub. pose proof Hpub as [P1 _ P3 P4 P5].
  assert (path <$> (layer_table dir <$> xs) = layer_path dir <$> xs) as Hpath by by rewrite <- list_fmap_compose.
  assert (forall q w2 w3, files w2 = delete_all q (files w1) -> files_are w3 (files w2) ->
            files_are w3 (delete_all q (publish_map dir start ps (length ps) (files w)))) as Hfiles.
  { intros q w2 w3 Hq Hw p Hp. rewrite Hw, Hq, !delete_all_lookup by done. case_decide; [done|by apply P1]. }
  apply wp_bind. eapply wp_mono; [apply remove_inputs_spec|]. rewrite Hpath, length_fmap.
  intros r w2 Hr. destruct r as [[]|e| |]; cbn [after]; [|done| |done].
  2: { destruct Hr as (Ha & j & q & Hj & [R1 R2 R3 R4 R5 R6]). eapply (ends_crashed _ _ _ _ start ps (length ps) j q); auto.
       - by eapply pub_armed.
       - eapply (Hfiles q w2 w2); [exact R3|done]. }
  destruct Hr as (q & [R1 R2 R3 R4 R5 R6]).
  apply wp_bind. eapply wp_mono; [apply fsyncDir_wp|]. intros r w3 [-> Hw3]. cbn [after].
  pose proof (frame_only_io _ _ Hw3) as [F1 F2 F3 F4].
  apply wp_bind, wp_with_faults.
  destruct (crashPoint_cases "compact.after_remove" (faults w3)) as [(f & -> & Hf)|(f & -> & Hf)]; cbn [fst snd after].
  - unfold wp. rewrite (bind_ok _ _ _ _ _ (for_each_destroy _ _)). rewrite Hpath.
    eapply (ends_done _ _ _ _ start ps q); cbn [files cache io faults set_cache set_faults fst snd mret M_ret]; [done|done|auto| |congruence|auto].
    apply (Hfiles q w2); [exact R3|exact F1].
  - eapply (ends_crashed _ _ _ _ start ps (length ps) (length xs) q); cbn [fst snd]; auto; rewrite ?(take_ge (layer_path dir <$> xs)) by (by rewrite length_fmap); auto.
    + eapply was_armed; [|exact Hf]. auto.
    + apply (Hfiles q w2); [exact R3|exact F1].
Qed.

Lemma publish_run dir xs ctr w start ps w1 :
  outputs_made dir xs w start ps -> pub_ok dir start ps w 0 w1 ->
  wp ('(e, published, fresh) ← publish_phase (outputs dir start (length ps));
      match e with
      | Some e => for_each SSTable.destroy fresh ;; rollback (outputs dir start (length ps)) published ;; throw e
      | None =>
          for_each remove_input (layer_table dir <$> xs) ;; fsyncDir ;; crashPoint "compact.after_remove" ;;
          for_each SSTable.destroy (layer_table dir <$> xs) ;; mret (fresh, 0)
      end) (run_ends dir xs ctr w) w1.
Proof.
  intros Ho Hpub. apply wp_bind.
  eapply wp_mono; [eapply (publish_phase_spec dir start (om_start _ _ _ _ _ Ho) ps (om_range _ _ _ _ _ Ho) (om_pieces _ _ _ _ _ Ho)); exact Hpub|].
  intros [[[[e|] k] fr]|e| |] w2 H; cbn [after]; try done.
  - destruct H as (Hk & [P1 _ P3 P4 P5] & Ha). unfold wp. rewrite (bind_ok _ _ _ _ _ (for_each_destroy fr w2)).
    set (w3 := set_cache (forget (path <$> fr) (cache w2)) w2).
    apply wp_bind. eapply wp_mono; [apply (rollback_spec dir start ps w w3 k (om_start _ _ _ _ _ Ho)); done|].
    intros r w4 [-> (q & R1 & R2 & R3 & R4 & R5)]. cbn [after]. apply wp_throw.
    eapply (ends_undone _ _ _ _ e start ps k q (path <$> fr)); try done. rewrite R4. cbn [w3 cache set_cache].
    by rewrite P3.
  - destruct H as (-> & -> & Hp). by apply remove_phase_spec.
  - destruct H as (k & Hk & Hp & Ha). eapply (ends_crashed _ _ _ _ start ps k 0 []); try done; [by left|lia|].
    intros p Hne. cbn [take delete_all foldl]. by apply Hp.
Qed.

(** Every level-1 table is among those the numbering looks at. *)
Lemma l1_listed dir m (xs : list layer) x :
  Forall (layer_ok dir m) xs -> x ∈ xs -> x.1.1 = 1 ->
  Names.sstPath dir 1 x.1.2 ∈
    path <$> List.filter (fun o => negb (is_level (bs "sst-0-") o) && is_level (bs "sst-1-") o) (layer_table dir <$> xs).
Proof.
  intros Hxs Hx E. rewrite Forall_forall in Hxs. apply list_elem_of_fmap. exists (layer_table dir x).
  split; [change (path (layer_table dir x)) with (Names.sstPath dir x.1.1 x.1.2); by rewrite E|]. apply list_elem_of_In, filter_In.
  split; [by apply list_elem_of_In, list_elem_of_fmap_2|].
  change (bs "sst-0-") with (bs "sst-" ++ Names.decimal 0 ++ [Names.dash]).
  change (bs "sst-1-") with (bs "sst-" ++ Names.decimal 1 ++ [Names.dash]).
  by rewrite !(layer_level dir m x), E by (auto || lia).
Qed.

(** What the numbering guarantees about the first number. *)
Record numbered (dir : str) (xs : list layer) (w : world) (start : Z) : Prop := {
  nb_start : 0 <= start;
  nb_room : start + Z.of_nat (total xs.*2) + 1 < Names.INT_MAX;
  nb_inputs : forall x, x ∈ xs -> x.1.1 = 1 -> x.1.2 < start;
  nb_above : io w = [] -> forall p n, disk_number dir (files w) p n -> n < start
}.

Lemma merge_outputs dir xs w w1 w2 start st ps tables :
  numbered dir xs w start -> Forall (layer_ok dir (files w)) xs -> frame_tmp w w1 -> tables.*2 = xs.*2 ->
  merge_out dir start w1 w2 tables st ps -> outputs_made dir xs w start ps.
Proof.
  intros [N1 N2 N3 N4] Hxs Hfr Ht (Hst & Hps & rs & Hrs & Hm). rewrite Ht in Hps, Hrs.
  split; [done|lia|exists rs; split; [|done]|apply Hst| |done].
  - eapply Forall2_impl; [exact Hrs|]. intros r l [->|[Hio ->]]; [by left|right]. split; [|done].
    intros Hq. by apply Hio, (fr_io _ _ Hfr).
  - intros x i Hx Hi Heq. rewrite Forall_forall in Hxs. destruct (Hxs x Hx) as (Hl & Hc & _).
    unfold layer_path, fin in Heq. assert (0 <= start + Z.of_nat i <= Names.INT_MAX) as Hi' by lia.
    destruct (Z.eq_dec x.1.1 1) as [E|E].
    + rewrite E in Heq. apply Names.sstPath_inj in Heq; [|lia..]. specialize (N3 x Hx E). lia.
    + apply (f_equal Names.parse_name) in Heq. rewrite !Names.parse_sstPath in Heq by lia. congruence.
Qed.

(** The merge phase and what follows, from the first number. *)
Lemma merge_run dir xs ctr w start w1 :
  frame_tmp w w1 -> Forall (layer_ok dir (files w)) xs -> numbered dir xs w start ->
  wp ('(e, st) ← merge_phase dir (layer_table dir <$> xs) start;
      match e with
      | Some e => for_each (fun p => remove_quietly p.1) (staged st) ;; throw e
      | None =>
          '(e, published, fresh) ← publish_phase (staged st);
          match e with
          | Some e => for_each SSTable.destroy fresh ;; rollback (staged st) published ;; throw e
          | None =>
              for_each remove_input (layer_table dir <$> xs) ;; fsyncDir ;; crashPoint "compact.after_remove" ;;
              for_each SSTable.destroy (layer_table dir <$> xs) ;; mret (fresh, 0)
          end
      end) (run_ends dir xs ctr w) w1.
Proof.
  intros Hfr Hxs Hnb. set (tables := (fun x => (layer_path dir x, x.2)) <$> xs).
  assert (tables.*2 = xs.*2) as Ht2 by (unfold tables; by rewrite <- list_fmap_compose).
  assert (layer_table dir <$> xs = (fun x => table_of x.1 x.2) <$> tables) as Htab
    by (unfold tables; by rewrite <- list_fmap_compose).
  assert (Forall (fun x => files w1 !! x.1 = Some (table_bytes x.2) /\ table_ok x.2 /\ keys_sorted x.2) tables) as Hdisk.
  { unfold tables. apply Forall_fmap. eapply Forall_impl; [exact Hxs|]. intros x (Hl & Hc & Hok & Hks & Hm).
    split_and!; [|done..]. cbn [fst]. rewrite (fr_files _ _ Hfr); [done|].
    destruct (Names.sst_name dir x.1.1 x.1.2) as (_ & He & _); [lia..|]. unfold layer_path. rewrite He. by vm_compute. }
  pose proof Hnb as [N1 N2 _ _]. pose proof (fun w2 st ps => merge_outputs dir xs w w1 w2 start st ps tables Hnb Hxs Hfr Ht2) as Hmade.
  apply wp_bind. rewrite Htab at 1. eapply wp_mono; [apply (merge_phase_spec dir start N1 w1 tables Hdisk); by rewrite Ht2|].
  intros [[[e|] st]|e| |] w2 H; cbn [after]; try done.
  - destruct H as (Hwhy & [n Hn] & Hfr2). rewrite Hn. assert (frame_tmp w w2) as [F1 F2 F3 F4] by by etrans.
    apply wp_bind. eapply wp_mono; [apply for_each_remove|]. intros r w3 [-> [q [R1 R2 R3 R4 R5 R6]]]. cbn [after]. apply wp_throw.
    apply ends_abandoned; auto; [destruct Hwhy as [Hio|Ha]; [left|right]| |congruence].
    + intros Hq. by apply Hio, Hfr.
    + eapply was_armed, Ha. apply Hfr.
    + intros p Hp. rewrite R3, (delete_tmps dir start); [by apply F1|done| |done].
      intros p' Hp'%(sublist_subseteq _ _ R1). rewrite outputs_fst in Hp'. apply list_elem_of_fmap in Hp' as (i & -> & _). by exists i.
  - destruct H as (ps & Hout). pose proof (Hmade w2 st ps Hout) as Ho. destruct Hout as ([S1 S2 S3 S4 S5] & _).
    rewrite S1. apply publish_run; [done|]. assert (frame_tmp w w2) as [F1 F2 F3 F4] by by etrans.
    by split; [..|intros i p _; apply S3| | |].
  - destruct H as (Ha & st & ps & Hout). pose proof (Hmade w2 st ps Hout) as Ho. destruct Hout as (Hst & _).
    eapply (ends_crashed _ _ _ _ start ps 0 0 []); try done; [eapply was_armed, Ha; apply Hfr|lia|by left|lia|].
    intros p Hp. cbn. assert (frame_tmp w w2) as [F1 _ _ _] by (etrans; [exact Hfr|apply Hst]). by apply F1.
Qed.

(** Too few level-0 tables: nothing is done. *)
Lemma run_skips dir xs ctr w :
  Forall (layer_ok dir (files w)) xs -> (length (List.filter (fun x : layer => (x.1.1 =? 0)%Z) xs) < L0_THRESHOLD)%nat ->
  run dir (layer_table dir <$> xs) ctr w = (Ok (layer_table dir <$> xs, ctr), w).
Proof. intros Hxs Hlt. unfold run. rewrite (l0_count dir (files w)) by done. apply Nat.ltb_lt in Hlt. by rewrite Hlt. Qed.

Lemma run_ends_disarmed dir xs ctr w r w' :
  run_ends dir xs ctr w r w' -> Fault.g_armed (faults w) = false -> Fault.g_armed (faults w') = false.
Proof. destruct 1; auto. congruence. Qed.

(** How a run ends, whatever calls fail. *)
Lemma run_ends_spec dir xs ctr w :
  Forall (layer_ok dir (files w)) xs -> numbers_bounded dir (files w) (Z.of_nat (total xs.*2) + 1) ->
  wp (run dir (layer_table dir <$> xs) ctr) (run_ends dir xs ctr w) w.
Proof.
  intros Hxs Hk. destruct (Nat.lt_ge_cases (length (List.filter (fun x : layer => (x.1.1 =? 0)%Z) xs)) L0_THRESHOLD) as [Hlt|Hge].
  { unfold wp. rewrite run_skips by done. by constructor. }
  unfold run. rewrite (l0_count dir (files w)) by done. apply Nat.ltb_ge in Hge. rewrite Hge.
  set (k := Z.of_nat (total xs.*2) + 1) in *.
  apply wp_bind. eapply wp_mono; [apply dir_paths_wp|]. intros r w1 [H1 (paths1 & -> & _)]. cbn [after].
  apply wp_bind. eapply wp_mono; [apply sweep_spec|]. intros r w2 [-> H2]. cbn [after].
  assert (frame_tmp w w2) as Hfr by (etrans; [by apply frame_only_io|done]).
  destruct (number_tables_spec dir k w2 _ 0 ltac:(lia) ltac:(lia) (proj1 Hk)
              (l1_numbers dir (files w) xs k Hxs Hk)) as (s1 & Hn1 & Hs1 & Hb1 & Hab1).
  unfold wp. rewrite (bind_ok _ _ _ _ _ Hn1). fold (wp (A := list t * Z)).
  apply wp_bind. eapply wp_mono; [apply dir_paths_wp|]. intros r w3 [H3 (paths & -> & Hp1 & Hp2)]. cbn [after].
  destruct (number_disk_spec dir (files w2) k w3 paths s1) as (s2 & Hn2 & Hs2 & Hb2 & Hab); [|lia|lia|done| |].
  { destruct Hk as [Hk1 Hk2]. split; [done|]. intros p n Hd. apply (Hk2 p). by apply (frame_disk dir w w2). }
  { by apply Forall_forall. }
  unfold wp. rewrite (bind_ok _ _ _ _ _ Hn2). apply merge_run; [by etrans; [|apply frame_only_io]|done|].
  split; [lia|lia| |].
  - intros x Hx E. enough (x.1.2 < s1) by lia. apply Hab1; [|by apply (l1_listed dir (files w))].
    rewrite Forall_forall in Hxs. destruct (Hxs x Hx) as (_ & Hc & _). lia.
  - intros Hio p n Hd. apply (frame_disk dir w w2 _ _ Hfr) in Hd. apply (Hab p n); [|done].
    apply Hp2; [by apply Hfr|apply Hd..].
Qed.

Lemma run_spec dir xs ctr w :
  io w = [] -> Forall (layer_ok dir (files w)) xs ->
  numbers_bounded dir (files w) (Z.of_nat (total xs.*2) + 1) ->
  wp (run dir (layer_table dir <$> xs) ctr) (run_end dir xs ctr w) w.
Proof.
  intros Hio Hxs Hk. eapply wp_mono; [by apply run_ends_spec|]. intros r w' H. by apply run_ends_quiet.
Qed.


End CompactionRun.
