(* ===== verification/Store.v ===== *)
(** * The tables of a directory

    What [LSMEngine::loadSSTables] finds on disk and [LeveledCompactor::run]
    maintains: the files of a directory that carry table names are exactly the
    tables of a store, in the order that decides which shadows which.  The
    properties of compaction are stated here. *)

From stdpp Require Import sorting.
From S2P Require Import Prelude Bloom BlockCache Fault World Names TableFormat SSTable Layers Compaction CompactionSpec CompactionRun.
Open Scope Z_scope.

Module Store.
Import TableFormat Layers Compaction CompactionSpec CompactionRun.

(** ** The store of a directory *)

(** [x] is shadowed by [y]: a higher level, or an earlier file of the same level. *)
Definition older (x y : layer) : Prop := y.1.1 < x.1.1 \/ x.1.1 = y.1.1 /\ x.1.2 < y.1.2.

(** The tables in [dir] are [xs], oldest first. *)
Record stored (dir : str) (m : gmap str str) (xs : list layer) : Prop := {
  st_layers : Forall (layer_ok dir m) xs;
  st_sorted : StronglySorted older xs;
  st_only : forall p, is_Some (m !! p) -> Names.in_dir dir p = true -> is_Some (Names.parse_name p) ->
              p ∈ layer_path dir <$> xs
}.

Lemma older_trans x y z : older x y -> older y z -> older x z.
Proof. unfold older. lia. Qed.

Lemma older_irrefl x : ~ older x x.
Proof. unfold older. lia. Qed.

Lemma layer_path_inj dir m x y :
  layer_ok dir m x -> layer_ok dir m y -> layer_path dir x = layer_path dir y -> x.1 = y.1.
Proof.
  intros (Hx1 & Hx2 & _) (Hy1 & Hy2 & _) H. unfold layer_path in H.
  pose proof (Names.parse_sstPath dir x.1.1 x.1.2) as Hp. unfold Names.INT_MAX in *.
  rewrite H, Names.parse_sstPath in Hp by (unfold Names.INT_MAX; lia).
  destruct x as [[] ?], y as [[] ?]. simpl in *. specialize (Hp ltac:(lia) ltac:(lia)). congruence.
Qed.

(** Distinct tables, distinct files. *)
Lemma stored_paths dir m xs : stored dir m xs -> NoDup (layer_path dir <$> xs).
Proof.
  intros [Hok Hs _]. induction Hs as [|x xs Hs IH Hx]; [constructor|].
  apply Forall_cons in Hok as [Hxo Hok]. rewrite fmap_cons. apply NoDup_cons. split; [|by apply IH].
  intros (y & Heq & Hy)%list_elem_of_fmap. rewrite Forall_forall in Hx, Hok. specialize (Hx y Hy).
  pose proof (layer_path_inj _ _ _ _ Hxo (Hok y Hy) Heq) as H. unfold older in Hx. rewrite H in Hx. lia.
Qed.

(** Only the files of the directory matter. *)
Lemma stored_ext dir m m' xs :
  (forall p, Names.extension p <> bs ".tmp" -> m' !! p = m !! p) -> stored dir m xs -> stored dir m' xs.
Proof.
  intros Hm [H1 H2 H3]. split; [|done|].
  - eapply Forall_impl; [exact H1|]. intros x (Hl & Hc & Hok & Hs & Hf). split_and!; try done; [lia..|].
    rewrite Hm; [done|]. destruct (Names.sst_name dir x.1.1 x.1.2) as (_ & He & _); [lia..|].
    unfold layer_path. rewrite He. by vm_compute.
  - intros p Hp Hd Hn. apply H3; [|done|done]. rewrite <- Hm; [done|].
    destruct Hn as [lc Hn]. unfold Names.parse_name in Hn. case_bool_decide as He; [|done]. rewrite He. by vm_compute.
Qed.

(** ** Levels *)

Definition at_level (l : Z) (x : layer) : bool := x.1.1 =? l.
Definition l1 (xs : list layer) : list layer := List.filter (at_level 1) xs.
Definition l0 (xs : list layer) : list layer := List.filter (at_level 0) xs.

Lemma stored_levels dir m xs : stored dir m xs -> xs = l1 xs ++ l0 xs.
Proof.
  intros [Hok Hs _]. unfold l1, l0. induction Hs as [|x xs Hs IH Hx]; [done|].
  apply Forall_cons in Hok as [(Hl & _) Hok]. specialize (IH Hok). cbn [List.filter].
  destruct (at_level 1 x) eqn:E1; unfold at_level in E1.
  - unfold at_level at 2. apply Z.eqb_eq in E1. rewrite E1. cbn. f_equal. exact IH.
  - apply Z.eqb_neq in E1. assert (x.1.1 = 0) as H0 by lia.
    assert (List.filter (at_level 1) xs = []) as Hn.
    { clear -Hx H0. induction Hx as [|y xs Hy _ IH]; [done|]. cbn [List.filter].
      rewrite IH. unfold at_level. rewrite (proj2 (Z.eqb_neq y.1.1 1)); [done|]. unfold older in Hy. lia. }
    rewrite Hn in IH |- *. unfold at_level at 1. rewrite H0. cbn [app Z.eqb]. f_equal. exact IH.
Qed.

(** ** The outputs of a compaction as tables *)

Definition outs (start : Z) (ps : list (list entry)) : list layer := imap (fun i p => (1, start + Z.of_nat i, p)) ps.

Lemma outs_lookup start ps i p : ps !! i = Some p -> outs start ps !! i = Some (1, start + Z.of_nat i, p).
Proof. intros H. unfold outs. by rewrite list_lookup_imap, H. Qed.

Lemma elem_of_outs start ps n x :
  x ∈ take n (outs start ps) -> exists i p, (i < n)%nat /\ ps !! i = Some p /\ x = (1, start + Z.of_nat i, p).
Proof.
  intros [i Hi]%list_elem_of_lookup. apply lookup_take_Some in Hi as [Hi Hn]. unfold outs in Hi.
  rewrite list_lookup_imap in Hi. destruct (ps !! i) as [p|] eqn:Hp; [|done]. injection Hi as <-. by exists i, p.
Qed.

Lemma outs_entries start ps : (outs start ps).*2 = ps.
Proof. unfold outs. rewrite fmap_imap. unfold compose. cbn [snd]. apply list_eq. intros i. rewrite list_lookup_imap. by destruct (ps !! i). Qed.

Lemma outs_tables dir start ps : layer_table dir <$> outs start ps = fresh_of dir start ps.
Proof. unfold outs, fresh_of. by rewrite fmap_imap. Qed.

Lemma outs_sorted start ps : StronglySorted older (outs start ps).
Proof.
  induction ps as [|p ps IH] using rev_ind; [constructor|]. unfold outs in *. rewrite imap_app.
  apply StronglySorted_app_2; [|done|repeat constructor].
  intros x y Hx Hy%list_elem_of_singleton. change (imap _ ps) with (outs start ps) in Hx.
  rewrite <- (take_ge (outs start ps) (length ps)) in Hx by (unfold outs; by rewrite length_imap).
  apply elem_of_outs in Hx as (i & q & Hi & _ & ->). subst y. right. cbn. lia.
Qed.

(** What is on disk when the first [n] outputs have their names and the first [j]
    inputs are gone. *)
Definition interim (xs : list layer) (start : Z) (ps : list (list entry)) (n j : nat) : list layer :=
  drop j (l1 xs) ++ take n (outs start ps) ++ drop (j - length (l1 xs)) (l0 xs).

Lemma layer_disk_number dir m x :
  layer_ok dir m x -> x.1.1 = 1 -> disk_number dir m (layer_path dir x) x.1.2.
Proof.
  intros (_ & Hc & _ & _ & Hm) H1. unfold layer_path in *. rewrite H1 in *.
  destruct (sst_digits dir x.1.2) as (_ & Hp & Hs & _); [lia|].
  destruct (Names.sst_name dir 1 x.1.2) as (_ & He & Hi); [lia..|]. split_and!; [by eexists|done..].
Qed.

Section interim.
Context (dir : str) (m : gmap str str) (xs : list layer) (start : Z) (ps : list (list entry)) (n j : nat).
Hypotheses (Hst : stored dir m xs) (Ho : outputs_ok dir xs m start ps) (Hn : (n <= length ps)%nat).

(** The files once [n] outputs are published and [j] inputs removed. *)
Let files' : gmap str str := delete_all (take j (layer_path dir <$> xs)) (publish_map dir start ps n m).

Lemma input_ok x : x ∈ xs -> layer_ok dir m x.
Proof. revert x. apply Forall_forall, Hst. Qed.

Lemma input_free x i : x ∈ xs -> (i < length ps)%nat -> layer_path dir x <> fin dir start i.
Proof.
  intros Hx Hi Heq. destruct (input_ok x Hx) as (_ & _ & _ & _ & Hf). rewrite Heq in Hf.
  by rewrite (outputs_free _ _ _ _ _ i Ho Hi) in Hf.
Qed.

Lemma inputs_left : drop j xs = drop j (l1 xs) ++ drop (j - length (l1 xs)) (l0 xs).
Proof. rewrite (stored_levels _ _ _ Hst) at 1. by rewrite drop_app. Qed.

Lemma input_kept x : x ∈ drop j xs -> layer_path dir x ∉ take j (layer_path dir <$> xs).
Proof.
  intros Hx Hin. pose proof (stored_paths _ _ _ Hst) as Hnd. rewrite <- (take_drop j xs), fmap_app in Hnd. rewrite <- fmap_take in Hin.
  apply NoDup_app in Hnd as (_ & Hd & _). apply (Hd _ Hin). by apply list_elem_of_fmap_2.
Qed.

Lemma interim_layers : Forall (layer_ok dir files') (interim xs start ps n j).
Proof.
  pose proof (oo_start _ _ _ _ _ Ho) as H0. pose proof (oo_range _ _ _ _ _ Ho) as Hr.
  apply Forall_forall. intros x Hx. unfold interim in Hx.
  assert (x ∈ drop j xs \/ x ∈ take n (outs start ps)) as [Hx'|Hx'] by (rewrite inputs_left; set_solver); clear Hx.
  - assert (x ∈ xs) as Hxs by (rewrite <- (take_drop j xs); set_solver).
    destruct (input_ok x Hxs) as (Hl & Hc & Hto & Hks & Hf). split_and!; try done; [lia..|].
    unfold files'. rewrite delete_all_lookup, decide_False by by apply input_kept.
    rewrite publish_map_other; [done|]. intros i Hi. apply input_free; [done|lia].
  - apply elem_of_outs in Hx' as (i & p & Hi & Hp & ->). cbn [fst snd].
    pose proof (lookup_lt_Some _ _ _ Hp) as Hlen.
    pose proof (Forall_lookup_1 _ _ _ _ (oo_pieces _ _ _ _ _ Ho) Hp) as (Hne & Hz & He).
    assert (keys_sorted p) as Hks.
    { destruct (oo_merged _ _ _ _ _ Ho) as [Hs _]. rewrite (mjoin_middle ps i p Hp) in Hs.
      apply keys_sorted_app in Hs as (_ & _ & Hs). by apply keys_sorted_app in Hs as (_ & ? & _). }
    split; [cbn; lia|]. split; [cbn; lia|]. split; [apply table_ok_small; [done|cbn; lia]|]. split; [done|].
    change (layer_path dir (1, start + Z.of_nat i, p)) with (fin dir start i). cbn [snd].
    unfold files'. rewrite delete_all_lookup, decide_False; [by apply publish_map_fin|].
    intros Hin. assert (fin dir start i ∈ layer_path dir <$> xs) as (x & Heq & Hx)%list_elem_of_fmap.
    { rewrite <- (take_drop j (layer_path dir <$> xs)). set_solver. }
    by eapply input_free.
Qed.

Lemma interim_sorted : StronglySorted older (interim xs start ps n j).
Proof.
  pose proof (oo_start _ _ _ _ _ Ho) as H0.
  unfold interim. pose proof (st_sorted _ _ _ Hst) as Hs. rewrite <- (take_drop j xs) in Hs.
  apply StronglySorted_app_1_r in Hs. rewrite inputs_left in Hs. apply StronglySorted_app in Hs as (Hs1 & Hs2 & Hs3).
  apply StronglySorted_app_2; [|done|apply StronglySorted_app_2; [| |done]].
  + intros x y Hx Hy.
    assert (x ∈ l1 xs) as Hx1 by (rewrite <- (take_drop j (l1 xs)); set_solver).
    apply list_elem_of_In, filter_In in Hx1 as [Hx1%list_elem_of_In Hlx%Z.eqb_eq].
    apply elem_of_app in Hy as [Hy|Hy]; [|by apply Hs1].
    apply elem_of_outs in Hy as (i & p & Hi & Hp & ->). right. split; [done|]. cbn [fst snd].
    pose proof (oo_above _ _ _ _ _ Ho _ _ (layer_disk_number dir m x (input_ok x Hx1) Hlx)). lia.
  + intros x y Hx Hy. apply elem_of_outs in Hx as (i & p & Hi & Hp & ->).
    assert (y ∈ l0 xs) as Hy1 by (rewrite <- (take_drop (j - length (l1 xs)) (l0 xs)); set_solver).
    apply list_elem_of_In, filter_In in Hy1 as [_ Hly%Z.eqb_eq]. left. cbn [fst snd]. lia.
  + pose proof (outs_sorted start ps) as Ho'. rewrite <- (take_drop n (outs start ps)) in Ho'.
    by apply StronglySorted_app_1_l in Ho'.
Qed.

Lemma publish_map_paths p : is_Some (publish_map dir start ps n m !! p) ->
  (exists i, (i < n)%nat /\ p = fin dir start i) \/ is_Some (m !! p).
Proof.
  clear. induction n as [|n' IH]; [by right|]. cbn [publish_map]. intros Hp. destruct (ps !! n') eqn:E.
  - destruct (decide (p = fin dir start n')) as [->|Hne]; [left; exists n'; split; [lia|done]|].
    rewrite lookup_insert_ne in Hp by done. destruct (IH Hp) as [(i & ? & ->)|?]; [left; exists i; split; [lia|done]|by right].
  - destruct (IH Hp) as [(i & ? & ->)|?]; [left; exists i; split; [lia|done]|by right].
Qed.

Lemma interim_only p :
  is_Some (files' !! p) -> Names.in_dir dir p = true -> is_Some (Names.parse_name p) -> p ∈ layer_path dir <$> interim xs start ps n j.
Proof.
  unfold files'. intros Hp Hd Hname. rewrite delete_all_lookup in Hp. case_decide as Hin; [by destruct Hp|].
  destruct (publish_map_paths p Hp) as [(i & Hi & ->)|Hmp].
  - destruct (lookup_lt_is_Some_2 ps i) as [q Hq]; [lia|].
    change (fin dir start i) with (layer_path dir (1, start + Z.of_nat i, q)). apply list_elem_of_fmap_2.
    unfold interim. rewrite !elem_of_app. right. left. apply list_elem_of_lookup. exists i.
    rewrite lookup_take_lt by done. by apply outs_lookup.
  - pose proof (st_only _ _ _ Hst p Hmp Hd Hname) as Hx.
    rewrite <- (take_drop j (layer_path dir <$> xs)), elem_of_app in Hx. destruct Hx as [Hx|Hx]; [done|].
    rewrite <- fmap_drop, inputs_left in Hx. unfold interim. rewrite !fmap_app in *. set_solver.
Qed.

Lemma interim_stored m' :
  (forall p, Names.extension p <> bs ".tmp" -> m' !! p = files' !! p) -> stored dir m' (interim xs start ps n j).
Proof.
  intros Hm'. eapply stored_ext; [exact Hm'|]. split; [apply interim_layers|apply interim_sorted|apply interim_only].
Qed.

End interim.

(** ** Runs of the compactor on a store *)

(** Numbers left for the outputs of merging [xs]. *)
Definition room (dir : str) (m : gmap str str) (xs : list layer) : Prop :=
  numbers_bounded dir m (Z.of_nat (total xs.*2) + 1).

Lemma interim_view xs start ps n j dir m :
  outputs_ok dir xs m start ps -> stored dir m xs -> (j = 0 \/ n = length ps)%nat ->
  same_view (interim xs start ps n j).*2 xs.*2.
Proof.
  intros Ho Hst Hnj. pose proof (oo_merged _ _ _ _ _ Ho) as Hm.
  assert (xs.*2 = (l1 xs).*2 ++ (l0 xs).*2) as Hx by (rewrite <- fmap_app; f_equal; by apply (stored_levels dir m)).
  rewrite Hx in Hm |- *. unfold interim.
  rewrite !fmap_app, !fmap_drop, fmap_take, outs_entries. destruct Hnj as [->| ->].
  - rewrite !drop_0. by apply view_publish.
  - rewrite take_ge by lia. replace (length (l1 xs)) with (length (l1 xs).*2) by apply length_fmap. by apply view_remove.
Qed.

(** What a store is after a run, whichever way it ends. *)
Definition run_leaves (dir : str) (xs : list layer) (ctr : Z) (w : world) (r : result (list t * Z)) (w' : world) : Prop :=
  match r with
  | Ok (tables, ctr') =>
      exists xs', stored dir (files w') xs' /\ tables = layer_table dir <$> xs' /\ same_view xs'.*2 xs.*2 /\
        ((length (l0 xs) < L0_THRESHOLD)%nat /\ xs' = xs /\ ctr' = ctr /\ w' = w \/
         (L0_THRESHOLD <= length (l0 xs))%nat /\ l0 xs' = [] /\ ctr' = 0 /\ merged xs.*2 (mjoin xs'.*2) /\
         Forall (fun x : layer => x.2 <> [] /\ zlen x.2 <= L1_MAX_FILE_ENTRIES) xs')
  | Throw _ => forall p, Names.extension p <> bs ".tmp" -> files w' !! p = files w !! p
  | Crashed => exists xs', stored dir (files w') xs' /\ same_view xs'.*2 xs.*2
  | Undefined => False
  end.

Lemma outs_l0 start ps : l0 (outs start ps) = [].
Proof.
  destruct (l0 (outs start ps)) as [|x l] eqn:E; [done|]. exfalso.
  assert (x ∈ l0 (outs start ps)) as Hx by (rewrite E; set_solver).
  apply list_elem_of_In, filter_In in Hx as [Hx%list_elem_of_In Hl%Z.eqb_eq].
  rewrite <- (take_ge (outs start ps) (length ps)) in Hx by (unfold outs; by rewrite length_imap).
  by apply elem_of_outs in Hx as (i & p & _ & _ & ->).
Qed.

Lemma run_store dir xs ctr w :
  io w = [] -> stored dir (files w) xs -> room dir (files w) xs ->
  wp (run dir (layer_table dir <$> xs) ctr)
     (fun r w' => run_end dir xs ctr w r w' /\ run_leaves dir xs ctr w r w' /\
        (Fault.g_armed (faults w) = false -> exists o, r = Ok o)) w.
Proof.
  intros Hio Hst Hroom. unfold wp.
  pose proof (run_spec dir xs ctr w Hio (st_layers _ _ _ Hst) Hroom) as H. unfold wp in H.
  destruct (Nat.ltb_spec (length (l0 xs)) L0_THRESHOLD) as [Hlt|Hge].
  { pose proof (run_skips dir xs ctr w (st_layers _ _ _ Hst) Hlt) as Hrun. rewrite Hrun in *. cbn [fst snd] in *. split_and!; [done| |eauto]. exists xs. split_and!; [done|done|reflexivity|by left]. }
  split; [done|]. destruct H as [Hlt|start ps w' Ho Hf Hc Hio' Ha|e q w' Ha Hf Hc Hio'|start ps n j w' Ha Ho Hn Hj Hjl Hf].
  - exfalso. unfold l0, at_level in Hge. lia.
  - split; [|eauto]. pose proof (interim_stored dir (files w) xs start ps (length ps) (length xs) Hst Ho (le_n _) (files w')) as Hs.
    pose proof (interim_view xs start ps (length ps) (length xs) dir _ Ho Hst (or_intror eq_refl)) as Hv.
    assert (interim xs start ps (length ps) (length xs) = outs start ps) as Hi.
    { unfold interim. rewrite (stored_levels _ _ _ Hst) at 1 3. rewrite length_app.
      rewrite !drop_ge, take_ge by (unfold outs; rewrite ?length_imap; lia). apply app_nil_r. }
    rewrite Hi in Hs, Hv. exists (outs start ps). rewrite outs_tables. split_and!; [|done|done|right; split_and!].
    + apply Hs. rewrite take_ge by (by rewrite length_fmap). done.
    + done.
    + apply outs_l0.
    + done.
    + rewrite outs_entries. apply Ho.
    + apply Forall_forall. intros x Hx.
      rewrite <- (take_ge (outs start ps) (length ps)) in Hx by (unfold outs; by rewrite length_imap).
      apply elem_of_outs in Hx as (i & p & _ & Hp & ->). cbn [snd].
      pose proof (Forall_lookup_1 _ _ _ _ (oo_pieces _ _ _ _ _ Ho) Hp) as (? & ? & _). done.
  - split; [|congruence]. intros p Hp. by apply Hf.
  - split; [|congruence]. exists (interim xs start ps n j). split; [by eapply interim_stored|by eapply interim_view].
Qed.

(** ** A store from its tables *)

Definition disk_of (dir : str) (xs : list layer) : gmap str str :=
  list_to_map ((fun x => (layer_path dir x, table_bytes x.2)) <$> xs).

Definition layer_sound (x : layer) : Prop :=
  0 <= x.1.1 <= 1 /\ 0 <= x.1.2 < Names.INT_MAX /\ table_ok x.2 /\ keys_sorted x.2.

Lemma disk_of_paths dir xs p c : disk_of dir xs !! p = Some c -> p ∈ layer_path dir <$> xs.
Proof.
  intros H%elem_of_list_to_map_2. apply list_elem_of_fmap in H as (x & [= -> _] & Hx). by apply list_elem_of_fmap_2.
Qed.

Lemma disk_of_stored dir xs : Forall layer_sound xs -> StronglySorted older xs -> stored dir (disk_of dir xs) xs.
Proof.
  intros Hok Hs. assert (NoDup (layer_path dir <$> xs)) as Hnd.
  { induction Hs as [|x xs Hs IH Hx]; [constructor|]. apply Forall_cons in Hok as [(Hl & Hc & _) Hok].
    rewrite fmap_cons. apply NoDup_cons. split; [|by apply IH]. intros (y & Heq & Hy)%list_elem_of_fmap.
    rewrite Forall_forall in Hok, Hx. destruct (Hok y Hy) as (Hl' & Hc' & _). specialize (Hx y Hy). unfold layer_path in Heq.
    pose proof (Names.parse_sstPath dir x.1.1 x.1.2) as Hp. unfold Names.INT_MAX in *.
    rewrite Heq, Names.parse_sstPath in Hp by (unfold Names.INT_MAX; lia).
    specialize (Hp ltac:(lia) ltac:(lia)). unfold older in Hx. injection Hp as ? ?. lia. }
  split; [|done|].
  - apply Forall_forall. intros x Hx. rewrite Forall_forall in Hok. destruct (Hok x Hx) as (? & ? & ? & ?).
    split_and!; try done; [lia..|]. apply elem_of_list_to_map_1.
    + by rewrite <- list_fmap_compose.
    + by apply (list_elem_of_fmap_2 (fun x => (layer_path dir x, table_bytes x.2))).
  - intros p [c Hp] _ _. by eapply disk_of_paths.
Qed.

(** With no level-1 table there is room. *)
Lemma disk_of_room dir xs :
  Forall layer_sound xs -> Forall (fun x => at_level 0 x = true) xs ->
  Z.of_nat (total xs.*2) + 1 < Names.INT_MAX -> room dir (disk_of dir xs) xs.
Proof.
  intros Hok Hl Ht. split; [done|]. intros p n ([c Hp] & _ & _ & Hpre & _). exfalso.
  apply disk_of_paths, list_elem_of_fmap in Hp as (x & -> & Hx). rewrite Forall_forall in Hok, Hl.
  destruct (Hok x Hx) as (H1 & H2 & _). specialize (Hl x Hx). apply Z.eqb_eq in Hl. unfold layer_path in Hpre.
  destruct (Names.sstPath_filename dir x.1.1 x.1.2) as (_ & _ & Hs & _); [lia..|]. rewrite Hs in Hpre.
  change (bs "sst-1-") with (bs "sst-" ++ Names.decimal 1 ++ [Names.dash]) in Hpre.
  rewrite <- (app_nil_r (Names.sst_stem _ _)), Names.sst_level_prefix in Hpre by lia.
  case_bool_decide; [lia|done].
Qed.

(** ** Properties *)

(** C12: a compaction that returns, no call having failed (with failing calls,
    [CompactionFail.failing_calls_keep_tables]; [unreadable_input_dropped] below
    is one that returns without an input's entries), on at least the threshold of
    level-0 tables, has replaced the tables by their merge: the
    new tables are those on disk, all of level 1, of at most 1000 entries each,
    and together they hold, in key order, exactly the newest value of every key
    that is not deleted; no input is left and the counter restarts. *)
Theorem compaction_correct dir xs ctr w tables ctr' w' :
  io w = [] -> stored dir (files w) xs -> room dir (files w) xs -> (L0_THRESHOLD <= length (l0 xs))%nat ->
  run dir (layer_table dir <$> xs) ctr w = (Ok (tables, ctr'), w') ->
  exists xs', stored dir (files w') xs' /\ tables = layer_table dir <$> xs' /\ ctr' = 0 /\
    l0 xs' = [] /\ merged xs.*2 (mjoin xs'.*2) /\
    Forall (fun x : layer => x.2 <> [] /\ zlen x.2 <= L1_MAX_FILE_ENTRIES) xs'.
Proof.
  intros Hio Hst Hroom Hl Hrun. pose proof (run_store dir xs ctr w Hio Hst Hroom) as (_ & H & _).
  rewrite Hrun in H. destruct H as (xs' & H1 & H2 & H3 & [(Hlt & _)|(_ & H4 & H5 & H6 & H7)]); [lia|].
  exists xs'. by split_and!.
Qed.

(** C13: compaction is crash safe: whatever fault points are armed, a run ends in
    a value, in an exception that leaves every table as it was, or in a crash
    that leaves a directory which, reopened, shows the same contents; with
    nothing armed it returns. *)
Theorem compaction_crash_safe dir xs ctr w :
  io w = [] -> stored dir (files w) xs -> room dir (files w) xs ->
  let r := (run dir (layer_table dir <$> xs) ctr w).1 in
  let w' := (run dir (layer_table dir <$> xs) ctr w).2 in
  match r with
  | Ok _ | Crashed => exists xs', stored dir (files w') xs' /\ same_view xs'.*2 xs.*2
  | Throw _ => stored dir (files w') xs
  | Undefined => False
  end /\ (Fault.g_armed (faults w) = false -> exists o, r = Ok o).
Proof.
  intros Hio Hst Hroom r w'. pose proof (run_store dir xs ctr w Hio Hst Hroom) as (_ & H & Hok).
  fold r w' in H, Hok. split; [|done]. destruct r as [[tables ctr']|e| |]; [|by eapply stored_ext|done..].
  destruct H as (xs' & H1 & _ & H3 & _). by exists xs'.
Qed.

(** ** Witnesses *)

Definition kv (k v : string) : entry := (bs k, Some (bs v)).
Definition tomb (k : string) : entry := (bs k, None).

(** Four level-0 tables: overwrites and a deletion. *)
Definition sample_layers : list layer :=
  [ (0, 0, [kv "a" "1"; kv "b" "1"; kv "c" "1"]); (0, 1, [kv "b" "2"]);
    (0, 2, [tomb "a"; kv "d" "4"]); (0, 3, [kv "c" "3"]) ].

Definition sample_world : world := mkWorld (disk_of (bs "db") sample_layers) [] BlockCache.global Fault.init.

Lemma sample_sound : Forall layer_sound sample_layers.
Proof.
  repeat constructor; try (vm_compute; congruence); try (vm_compute; reflexivity).
  all: intros ? ?; vm_compute; congruence.
Qed.

Lemma sample_stored : stored (bs "db") (disk_of (bs "db") sample_layers) sample_layers.
Proof. apply disk_of_stored; [apply sample_sound|]. repeat constructor; right; split; (done || vm_compute; reflexivity). Qed.

Lemma sample_room : room (bs "db") (disk_of (bs "db") sample_layers) sample_layers.
Proof. apply disk_of_room; [apply sample_sound|by repeat constructor|vm_compute; reflexivity]. Qed.

(** The run on the sample: one table, with the newest values and no tombstone. *)
Definition sample_merged : layer := (1, 0, [kv "b" "2"; kv "c" "3"; kv "d" "4"]).

Example sample_run :
  (run (bs "db") (layer_table (bs "db") <$> sample_layers) 4 sample_world).1
  = Ok ([layer_table (bs "db") sample_merged], 0).
Proof. vm_compute. reflexivity. Qed.

Lemma compaction_correct_witness :
  exists xs', stored (bs "db") (files (run (bs "db") (layer_table (bs "db") <$> sample_layers) 4 sample_world).2) xs' /\
    [layer_table (bs "db") sample_merged] = layer_table (bs "db") <$> xs' /\ 0 = 0 /\ l0 xs' = [] /\
    merged sample_layers.*2 (mjoin xs'.*2) /\
    Forall (fun x : layer => x.2 <> [] /\ zlen x.2 <= L1_MAX_FILE_ENTRIES) xs'.
Proof.
  apply (compaction_correct (bs "db") sample_layers 4 sample_world); [reflexivity|apply sample_stored|apply sample_room| |].
  - vm_compute. lia.
  - rewrite <- sample_run. apply surjective_pairing.
Defined.

(** Killed at the second removal of an input. *)
Definition crash_world : world := set_faults (Fault.arm "compact.mid_remove" 2 Fault.ACrash 1 Fault.init) sample_world.

Lemma crash_run : (run (bs "db") (layer_table (bs "db") <$> sample_layers) 4 crash_world).1 = Crashed.
Proof. vm_compute. reflexivity. Qed.

Lemma compaction_crash_safe_witness :
  exists xs', stored (bs "db") (files (run (bs "db") (layer_table (bs "db") <$> sample_layers) 4 crash_world).2) xs' /\
    same_view xs'.*2 sample_layers.*2.
Proof.
  pose proof (compaction_crash_safe (bs "db") sample_layers 4 crash_world eq_refl sample_stored sample_room) as [H _].
  rewrite crash_run in H. exact H.
Defined.

(** A table whose file cannot be opened for the merge is treated as empty: the
    run returns, the first table's key is not among the outputs, and its file is
    removed. *)
Definition lossy_layers : list layer :=
  [ (0, 0, [kv "a" "1"]); (0, 1, [kv "b" "2"]); (0, 2, [kv "c" "3"]); (0, 3, [kv "d" "4"]) ].
Definition lossy_world : world :=
  mkWorld (disk_of (bs "db") lossy_layers) [Success; Success; Failure] BlockCache.global Fault.init.

Example unreadable_input_dropped :
  (run (bs "db") (layer_table (bs "db") <$> lossy_layers) 4 lossy_world).1
  = Ok ([layer_table (bs "db") (1, 0, [kv "b" "2"; kv "c" "3"; kv "d" "4"])], 0) /\
  files (run (bs "db") (layer_table (bs "db") <$> lossy_layers) 4 lossy_world).2 !! layer_path (bs "db") (0, 0, [])
  = None.
Proof. vm_compute. auto. Qed.

End Store.
