(* ===== verification/CompactionFail.v ===== *)
(** * Compaction: failing calls

    What a run of the compactor may do to the tables it was given when system
    calls fail: a run that throws leaves every one of them on disk as it was, and
    one that returns has the merge of what it could read under new names.
    [CompactionRun] has the ways a run ends. *)

From S2P Require Import Prelude Bloom BlockCache Fault World Names TableFormat SSTable Layers Compaction CompactionSpec CompactionRun Store.
Open Scope Z_scope.

Module CompactionFail.
Import TableFormat Layers Compaction CompactionSpec CompactionRun Store.

Section run.
Context (dir : str) (xs : list layer) (w : world).
Hypothesis Hxs : Forall (layer_ok dir (files w)) xs.

(** The names a run may take: of level 1, and of none of the tables it merges. *)
Definition new_name (p : str) : Prop := (exists c, p = Names.sstPath dir 1 c) /\ p ∉ layer_path dir <$> xs.

(** The tables that stand for the merge of what was read of [xs]. *)
Record replaced (m : gmap str str) (xs' : list layer) : Prop := {
  rp_read : exists rs, reads w rs xs.*2 /\ merged rs (mjoin xs'.*2);
  rp_layers : Forall (layer_ok dir m) xs';
  rp_paths : NoDup (layer_path dir <$> xs');
  rp_new : Forall (fun x : layer => x.1.1 = 1 /\ layer_path dir x ∉ layer_path dir <$> xs) xs';
  rp_size : Forall (fun x : layer => x.2 <> [] /\ zlen x.2 <= L1_MAX_FILE_ENTRIES) xs'
}.

Lemma layers_kept m : (forall x, x ∈ xs -> m !! layer_path dir x = files w !! layer_path dir x) -> Forall (layer_ok dir m) xs.
Proof.
  intros Hm. rewrite Forall_forall in Hxs |- *. intros x Hx. destruct (Hxs x Hx) as (H1 & H2 & H3 & H4 & H5).
  split_and!; try done; [lia..|]. by rewrite Hm.
Qed.

(** The name of a table is no temporary. *)
Lemma layer_name x : x ∈ xs -> Names.extension (layer_path dir x) <> bs ".tmp".
Proof.
  intros Hx. rewrite Forall_forall in Hxs. destruct (Hxs x Hx) as (Hl & Hc & _).
  destruct (Names.sst_name dir x.1.1 x.1.2) as (_ & He & _); [lia..|]. unfold layer_path. rewrite He. by vm_compute.
Qed.

Section made.
Context (start : Z) (ps : list (list entry)).
Hypothesis Ho : outputs_made dir xs w start ps.

Lemma input_published x n : x ∈ xs -> (n <= length ps)%nat ->
  publish_map dir start ps n (files w) !! layer_path dir x = files w !! layer_path dir x.
Proof. intros Hx Hn. apply publish_map_other. intros i Hi. apply (om_inputs _ _ _ _ _ Ho); [done|lia]. Qed.

Lemma fin_new i : (i < length ps)%nat -> fin dir start i ∉ layer_path dir <$> xs.
Proof. intros Hi (x & Heq & Hx)%list_elem_of_fmap. by eapply om_inputs. Qed.

Lemma in_outs x : x ∈ outs start ps -> exists i p, (i < length ps)%nat /\ ps !! i = Some p /\ x = (1, start + Z.of_nat i, p).
Proof.
  intros Hx. rewrite <- (take_ge (outs start ps) (length ps)) in Hx by (unfold outs; by rewrite length_imap).
  by apply elem_of_outs.
Qed.

(** The outputs under their names, whatever was removed of the inputs. *)
Lemma outs_replace q m :
  q `sublist_of` (layer_path dir <$> xs) -> 
  (forall p, Names.extension p <> bs ".tmp" -> m !! p = delete_all q (publish_map dir start ps (length ps) (files w)) !! p) ->
  replaced m (outs start ps).
Proof.
  intros Hq Hm. pose proof Ho as [H0 Hr (rs & Hrs & [Hs Hmg]) Hps _ _].
  assert (Forall (layer_ok dir m) (outs start ps)) as Hok.
  { apply Forall_forall. intros x (i & p & Hi & Hp & ->)%in_outs.
    pose proof (Forall_lookup_1 _ _ _ _ Hps Hp) as (Hne & Hz & He).
    rewrite (mjoin_middle ps i p Hp) in Hs. apply keys_sorted_app in Hs as (_ & _ & Hs). apply keys_sorted_app in Hs as (_ & Hks & _).
    split; [cbn; lia|]. split; [cbn; lia|]. split; [apply table_ok_small; [done|cbn; lia]|]. split; [done|].
    change (layer_path dir (1, start + Z.of_nat i, p)) with (fin dir start i). cbn [snd].
    rewrite Hm; [|destruct (fin_facts dir start H0 i) as [_ ->]; by vm_compute].
    rewrite delete_all_lookup, decide_False; [by apply publish_map_fin|].
    intros Hin%(sublist_subseteq _ _ Hq). by apply (fin_new i). }
  split; [|done| | |].
  - exists rs. by rewrite outs_entries.
  - assert (stored dir (disk_of dir (outs start ps)) (outs start ps)) as Hst; [|by eapply stored_paths].
    apply disk_of_stored; [|apply outs_sorted]. eapply Forall_impl; [exact Hok|]. intros x (? & ? & ? & ? & _). done.
  - apply Forall_forall. intros x (i & p & Hi & Hp & ->)%in_outs. split; [done|]. by apply (fin_new i).
  - apply Forall_forall. intros x (i & p & Hi & Hp & ->)%in_outs. by pose proof (Forall_lookup_1 _ _ _ _ Hps Hp) as (? & ? & _).
Qed.
(** Publishing, and undoing it, touches new names only. *)
Lemma published_new n q p : (n <= length ps)%nat -> q `sublist_of` (fin dir start <$> seq 0 n) ->
  delete_all q (publish_map dir start ps n (files w)) !! p = files w !! p \/ new_name p.
Proof.
  intros Hn Hq. destruct (decide (p ∈ fin dir start <$> seq 0 n)) as [Hin|Hin]; [right|left].
  - apply list_elem_of_fmap in Hin as (i & -> & Hi%elem_of_seq). split; [by eexists|]. apply fin_new. lia.
  - rewrite delete_all_lookup, decide_False by (intros H%(sublist_subseteq _ _ Hq); done).
    apply publish_map_other. intros i Hi ->. apply Hin, list_elem_of_fmap_2, elem_of_seq. lia.
Qed.
End made.

(** What a run leaves of the tables, whatever calls fail. *)
Definition run_keeps (ctr : Z) (r : result (list t * Z)) (w' : world) : Prop :=
  match r with
  | Ok (tables, ctr') =>
      (length (l0 xs) < L0_THRESHOLD)%nat /\ tables = layer_table dir <$> xs /\ ctr' = ctr /\ w' = w \/
      (L0_THRESHOLD <= length (l0 xs))%nat /\ ctr' = 0 /\ cache w' = forget (layer_path dir <$> xs) (cache w) /\
      exists xs', tables = layer_table dir <$> xs' /\ replaced (files w') xs'
  | Throw _ =>
      (io w <> [] \/ Fault.g_armed (faults w) = true) /\
      Forall (layer_ok dir (files w')) xs /\ (exists q, cache w' = forget q (cache w)) /\
      forall p, Names.extension p <> bs ".tmp" -> files w' !! p = files w !! p \/ new_name p
  | Crashed =>
      Fault.g_armed (faults w) = true /\
      (Forall (layer_ok dir (files w')) xs \/ exists xs', replaced (files w') xs')
  | Undefined => False
  end.

Lemma keeps_new m :
  (forall p, Names.extension p <> bs ".tmp" -> m !! p = files w !! p \/ new_name p) -> Forall (layer_ok dir m) xs.
Proof.
  intros Hm. apply layers_kept. intros x Hx. destruct (Hm (layer_path dir x)) as [|[_ Hn]]; [by apply layer_name|done|].
  destruct Hn. by apply list_elem_of_fmap_2.
Qed.

Lemma run_ends_keeps ctr r w' : (L0_THRESHOLD <= length (l0 xs))%nat -> run_ends dir xs ctr w r w' -> run_keeps ctr r w'.
Proof.
  intros Hge H. destruct H as [Hl|start ps q w' Ho Hq _ Hf Hc _|e w' Hwhy _ Hf Hc _|e start ps n q c w' Hwhy Ho Hn Hq _ Hf Hc _|
    start ps n j q w' Ha Ho Hn Hj Hl Hq _ Hf].
  - by left.
  - right. split; [done|]. split; [done|]. split; [done|]. exists (outs start ps). rewrite outs_tables. split; [done|]. by eapply outs_replace.
  - assert (forall p, Names.extension p <> bs ".tmp" -> files w' !! p = files w !! p \/ new_name p) as Hk by (intros p Hp; left; by apply Hf).
    split; [done|]. split; [by apply keeps_new|]. split; [by exists []|done].
  - assert (forall p, Names.extension p <> bs ".tmp" -> files w' !! p = files w !! p \/ new_name p) as Hk.
    { intros p Hp. rewrite Hf by done. by eapply published_new. }
    split; [done|]. split; [by apply keeps_new|]. split; [by exists c|done].
  - split; [done|]. destruct Hj as [->| ->].
    + left. apply sublist_nil_r in Hq as ->. apply keeps_new. intros p Hp. rewrite Hf by done.
      eapply published_new; [done|done|apply sublist_nil_l].
    + right. exists (outs start ps). eapply outs_replace; [done| |exact Hf]. etrans; [exact Hq|apply sublist_take].
Qed.

Lemma run_keeps_spec ctr :
  room dir (files w) xs -> wp (run dir (layer_table dir <$> xs) ctr) (fun r w' => run_ends dir xs ctr w r w' /\ run_keeps ctr r w') w.
Proof.
  intros Hr. pose proof (run_ends_spec dir xs ctr w Hxs Hr) as H. unfold wp in *. split; [done|].
  destruct (Nat.lt_ge_cases (length (l0 xs)) L0_THRESHOLD) as [Hlt|Hge]; [|by apply run_ends_keeps].
  rewrite run_skips by done. by left.
Qed.

End run.

(** ** Property *)


(** The one output has its name when opening it fails, and so does the removal
    that should undo that: the run throws, all inputs are there, and one file
    more. *)
Definition refusing : world := set_io (replicate 24 Success ++ [Failure; Failure]) sample_world.
Definition refused := run (bs "db") (layer_table (bs "db") <$> sample_layers) 4 refusing.


End CompactionFail.
