(* ===== verification/Scan.v ===== *)
(** * Range scans

    Models the merge inside [LSMEngine::scan] ([src/db/lsm_engine.cpp], lines
    130-246): the sources ([MemtableSource], [SSTableSource]), the heap of
    pointers to them ordered by key and rank, and the loop that drops shadowed
    versions and tombstones and stops at the end key or the limit. *)

From S2P Require Import Prelude TableFormat Layers.
Open Scope Z_scope.

Module Scan.
Import TableFormat Layers.

(** ** Sources *)

(** The memtable's iterator is what it will deliver; a table's iterator comes
    with the entry it has handed out. *)
Inductive ScanSource :=
  | MemtableSource (rest : list entry)
  | SSTableSource (it_ : Iter) (cur_ : option entry).

Definition current (s : ScanSource) : option entry :=
  match s with MemtableSource rest => head rest | SSTableSource _ cur => cur end.

Definition valid (s : ScanSource) : bool := bool_decide (is_Some (current s)).

Definition sst_next (it : Iter) : option ScanSource :=
  if hasNext it then '(e, it) ← next it; Some (SSTableSource it (Some e))
  else Some (SSTableSource it None).

Definition next (s : ScanSource) : option ScanSource :=
  match s with
  | MemtableSource rest => Some (MemtableSource (tail rest))
  | SSTableSource it _ => sst_next it
  end.

(** ** The heap: ranks of sources, lower meaning newer *)

Definition key_at (sources : list ScanSource) (r : nat) : str :=
  match sources !! r ≫= current with Some e => e.1 | None => [] end.

Definition later (sources : list ScanSource) (a b : nat) : bool :=
  if key_at sources a =?s key_at sources b then (b <? a)%nat
  else key_at sources b <?s key_at sources a.

(** [top] and [pop]. *)
Fixpoint pop_top (sources : list ScanSource) (h : list nat) : option (nat * list nat) :=
  match h with
  | [] => None
  | n :: h =>
      match pop_top sources h with
      | None => Some (n, [])
      | Some (m, rest) => if later sources n m then Some (m, n :: rest) else Some (n, m :: rest)
      end
  end.

Record state := mkState { sources : list ScanSource; heap : list nat }.

(** [s->next(); if (s->valid()) heap.push(s);] *)
Definition advance (r : nat) (st : state) : option state :=
  s ← sources st !! r;
  s ← next s;
  Some (mkState (<[r := s]> (sources st)) (if valid s then r :: heap st else heap st)).

Fixpoint drop_stale (fuel : nat) (key : str) (st : state) : option state :=
  match pop_top (sources st) (heap st) with
  | None => Some st
  | Some (r, rest) =>
      if key_at (sources st) r =?s key then
        match fuel with
        | O => None
        | S fuel => st ← advance r (mkState (sources st) rest); drop_stale fuel key st
        end
      else Some st
  end.

(** [end && !( key < *end)] *)
Definition past (end_ : option str) (key : str) : bool :=
  match end_ with Some e => negb (key <?s e) | None => false end.

Fixpoint scan_loop (fuel : nat) (end_ : option str) (limit : Z) (st : state) (out : list (str * str))
    : option (list (str * str)) :=
  match pop_top (sources st) (heap st) with
  | None => Some out
  | Some (winner, rest) =>
      if limit <=? zlen out then Some out else
      if past end_ (key_at (sources st) winner) then Some out else
      match fuel with
      | O => None
      | S fuel =>
          e ← sources st !! winner ≫= current;
          st ← drop_stale (length (sources st)) e.1 (mkState (sources st) rest);
          st ← advance winner st;
          scan_loop fuel end_ limit st (match e.2 with Some v => out ++ [(e.1, v)] | None => out end)
      end
  end.

(** Every source that is valid goes into the heap. *)
Definition init (sources : list ScanSource) : state :=
  mkState sources (List.filter (fun r => match sources !! r with Some s => valid s | None => false end)
                     (seq 0 (length sources))).

(** More rounds than the sources can have keys. *)
Definition source_size (s : ScanSource) : nat :=
  match s with
  | MemtableSource rest => length rest
  | SSTableSource it _ => (2 + match in_ it with Some f => length (content f) | None => 0 end)%nat
  end.
Definition scan_fuel (sources : list ScanSource) : nat := foldr (fun s a => (source_size s + a)%nat) 0%nat sources.

Definition merge (end_ : option str) (limit : Z) (sources : list ScanSource) : option (list (str * str)) :=
  scan_loop (scan_fuel sources) end_ limit (init sources) [].

(** ** What a source will deliver *)

Definition source_rep (s : ScanSource) (es : list entry) : Prop :=
  match s with
  | MemtableSource rest => rest = es
  | SSTableSource it cur => cur = head es /\ iter_rep it (tail es)
  end.

Lemma current_rep s es : source_rep s es -> current s = head es.
Proof. destruct s; simpl; [by intros ->|by intros [-> _]]. Qed.

Lemma next_source_rep s es : source_rep s es -> exists s', next s = Some s' /\ source_rep s' (tail es).
Proof.
  destruct s as [rest|it cur]; simpl; [intros ->; by eexists|]. intros [_ Hit]. unfold sst_next.
  rewrite (hasNext_rep _ _ Hit). destruct (tail es) as [|e l] eqn:E.
  - rewrite bool_decide_false by tauto. eexists. split; [done|]. split; [done|]. exact Hit.
  - rewrite bool_decide_true by done. destruct (next_rep _ _ _ Hit) as (it' & -> & Hit').
    cbn [mbind option_bind]. eexists. split; [done|]. by split.
Qed.

(** The sources stand for [ss], newest first, and the heap holds the non-empty
    ones, except those in [out]. *)
Record rep (st : state) (ss : list (list entry)) (out : list nat) : Prop := {
  rep_sources : Forall2 source_rep (sources st) ss;
  rep_heap : forall r, r ∈ heap st <-> r ∉ out /\ exists e l, ss !! r = Some (e :: l);
  rep_nodup : NoDup (heap st)
}.

Lemma key_at_rep st ss out r e l : rep st ss out -> ss !! r = Some (e :: l) -> key_at (sources st) r = e.1.
Proof.
  intros [Hs _ _] Hr. destruct (Forall2_lookup_r _ _ _ _ _ Hs Hr) as (s & Hl & Hrep).
  unfold key_at. rewrite Hl. cbn [mbind option_bind]. by rewrite (current_rep _ _ Hrep).
Qed.

(** [top] is the first source by key, then rank. *)
Definition first (src : list ScanSource) (a b : nat) : Prop :=
  key_at src a <s key_at src b \/ key_at src a = key_at src b /\ (a < b)%nat.

Lemma later_first src a b : later src a b = true <-> first src b a.
Proof.
  unfold later, first, str_eqb. case_bool_decide as H.
  - rewrite H, Nat.ltb_lt. split; [auto|]. intros [?%str_lt_irrefl|[_ ?]]; done.
  - rewrite str_ltb_lt. split; [auto|]. intros [?|[? _]]; [done|congruence].
Qed.

Lemma first_trans src a b c : first src a b -> first src b c -> first src a c.
Proof.
  unfold first. intros [H1|[E1 H1]] [H2|[E2 H2]].
  - left. by eapply str_lt_trans.
  - left. by rewrite <- E2.
  - left. by rewrite E1.
  - right. split; [congruence|lia].
Qed.

Lemma first_total src a b : a <> b -> first src a b \/ first src b a.
Proof.
  intros Hi. unfold first. destruct (str_lt_trichotomy (key_at src a) (key_at src b)) as [|[E|]]; auto.
  rewrite E. destruct (Nat.lt_trichotomy a b) as [|[|]]; auto; lia.
Qed.

Lemma pop_top_spec src h :
  NoDup h ->
  match pop_top src h with
  | None => h = []
  | Some (m, rest) => h ≡ₚ m :: rest /\ Forall (first src m) rest
  end.
Proof.
  induction h as [|n h IH]; [done|]. intros [Hn Hnd]%NoDup_cons. specialize (IH Hnd).
  cbn [pop_top]. destruct (pop_top src h) as [[m rest]|]; [|subst; by repeat constructor].
  destruct IH as [Hp Hr].
  assert (forall x, x ∈ h -> n <> x) as Hne by (intros x Hx ->; done).
  destruct (later src n m) eqn:E.
  - apply later_first in E. split; [rewrite Hp; apply Permutation_swap|by constructor].
  - assert (first src n m) as Hnm.
    { destruct (first_total src n m) as [|Hb]; [apply Hne; rewrite Hp; set_solver|done|].
      apply later_first in Hb. congruence. }
    split; [by rewrite Hp|]. constructor; [done|]. eapply Forall_impl; [exact Hr|].
    intros x. by apply first_trans.
Qed.

(** Advancing a source that is not in the heap. *)
Lemma advance_spec st ss out r x :
  rep st ss (r :: out) -> r ∉ out -> ss !! r = Some x ->
  exists st', advance r st = Some st' /\ rep st' (<[r := tail x]> ss) out.
Proof.
  intros [Hs Hh Hnd] Hout Hr. destruct (Forall2_lookup_r _ _ _ _ _ Hs Hr) as (s & Hl & Hrep).
  destruct (next_source_rep _ _ Hrep) as (s' & Hn & Hrep').
  assert (r < length ss)%nat as Hlen by by eapply lookup_lt_Some.
  unfold advance. rewrite Hl. cbn [mbind option_bind]. rewrite Hn. cbn [mbind option_bind].
  eexists. split; [done|]. assert (r ∉ heap st) as Hnin by (intros H%Hh; set_solver).
  assert (valid s' = bool_decide (tail x <> [])) as Hv.
  { unfold valid. rewrite (current_rep _ _ Hrep'). apply bool_decide_ext. destruct (tail x); simpl; split; [by intros [? ?]|done|done|eauto]. }
  split; cbn [sources heap].
  - by apply Forall2_insert.
  - intros q. assert (q ∈ (if valid s' then r :: heap st else heap st) <-> q = r /\ tail x <> [] \/ q ∈ heap st) as ->.
    { rewrite Hv. case_bool_decide; set_solver. }
    rewrite Hh. destruct (decide (q = r)) as [->|Hne].
    + rewrite list_lookup_insert_eq by done. destruct (tail x); [naive_solver|].
      split; [|naive_solver]. intros _. split; [done|]. by eexists _, _.
    + rewrite list_lookup_insert_ne by done. set_solver.
  - rewrite Hv. case_bool_decide; [by constructor|done].
Qed.

(** Popping and what it says of the heads. *)
Lemma pop_top_rep st ss out m rest :
  rep st ss out -> pop_top (sources st) (heap st) = Some (m, rest) ->
  m ∉ out /\ (exists e l, ss !! m = Some (e :: l)) /\ rep (mkState (sources st) rest) ss (m :: out) /\
  (forall j e l, ss !! j = Some (e :: l) -> j ∉ out -> j = m \/ first (sources st) m j).
Proof.
  intros [Hs Hh Hnd] Hpop. pose proof (pop_top_spec (sources st) _ Hnd) as Hp. rewrite Hpop in Hp.
  destruct Hp as [Hp Hf]. destruct (proj1 (Hh m) ltac:(rewrite Hp; set_solver)) as [Hm Hex].
  rewrite Hp in Hnd. apply NoDup_cons in Hnd as [Hnm Hnd]. split_and!; [done|done| |].
  - split; cbn [sources heap]; [done| |done]. intros r. split.
    + intros Hr. assert (r ∈ heap st) as [? ?]%Hh by (rewrite Hp; set_solver). split; [|done].
      intros [->|?]%elem_of_cons; done.
    + intros [Hr He]. assert (r ∈ heap st) as Hr' by (apply Hh; split; [set_solver|done]).
      rewrite Hp in Hr'. set_solver.
  - intros j e l Hj Hjo. assert (j ∈ heap st) as Hj' by (apply Hh; split; [done|by eexists _, _]).
    rewrite Hp in Hj'. apply elem_of_cons in Hj' as [->|Hj']; [by left|right]. rewrite Forall_forall in Hf. auto.
Qed.

Lemma pop_top_none st ss out :
  rep st ss out -> pop_top (sources st) (heap st) = None -> forall j e l, ss !! j = Some (e :: l) -> j ∈ out.
Proof.
  intros [Hs Hh Hnd] Hpop j e l Hj. pose proof (pop_top_spec (sources st) _ Hnd) as Hp. rewrite Hpop in Hp.
  destruct (decide (j ∈ out)) as [|Hn]; [done|]. exfalso.
  assert (j ∈ heap st) as Hj' by (apply Hh; split; [done|by eexists _, _]). rewrite Hp in Hj'. set_solver.
Qed.

(** The other sources at the winner's key move past it. *)
Lemma drop_stale_spec fuel : forall k st ss w e l,
  rep st ss [w] -> Forall keys_sorted ss -> heads_ge k ss -> ss !! w = Some (e :: l) -> e.1 = k ->
  (count_at k ss <= S fuel)%nat ->
  exists st', drop_stale fuel k st = Some st' /\ rep st' (<[w := e :: l]> (drop_key k <$> ss)) [w].
Proof.
  assert (forall (ss : list (list entry)) k w e l,
    (forall j, j <> w -> forall x, ss !! j = Some x -> ~ at_key k x) -> ss !! w = Some (e :: l) ->
    <[w := e :: l]> (drop_key k <$> ss) = ss) as Hdone.
  { intros ss k w e l Hn Hw. apply list_eq. intros j. destruct (decide (j = w)) as [->|Hne].
    - rewrite list_lookup_insert_eq, Hw; [done|]. rewrite length_fmap. by eapply lookup_lt_Some.
    - rewrite list_lookup_insert_ne, list_lookup_fmap by done. destruct (ss !! j) as [x|] eqn:Hj; [|done].
      specialize (Hn j Hne x Hj). simpl. f_equal. destruct x as [|e' l']; [done|]. simpl.
      rewrite decide_False; [done|]. intros Hk. apply Hn. unfold at_key. simpl. by rewrite Hk. }
  induction fuel as [|fuel IH]; intros k st ss w e l Hrep Hs Hge Hw He Hc; cbn [drop_stale];
    destruct (pop_top (sources st) (heap st)) as [[m rest]|] eqn:Hpop.
  2,4: exists st; split; [done|]; rewrite Hdone; [done| |done]; intros j Hne x Hj Hat;
    destruct x as [|e' l']; [done|]; pose proof (pop_top_none _ _ _ Hrep Hpop j e' l' Hj); set_solver.
  all: destruct (pop_top_rep _ _ _ _ _ Hrep Hpop) as (Hm & (e' & l' & Hml) & Hrep' & Hfirst).
  all: rewrite (key_at_rep _ _ _ _ _ _ Hrep Hml); destruct (e'.1 =?s k) eqn:E; str_prop.
  2,4: exists st; split; [done|]; rewrite Hdone; [done| |done]; intros j Hne x Hj Hat;
    destruct x as [|e2 l2]; [done|]; unfold at_key in Hat; simpl in Hat; injection Hat as Hat;
    destruct (Hfirst j e2 l2 Hj ltac:(set_solver)) as [->|Hf];
    [rewrite Hml in Hj; injection Hj as <- _; by rewrite Hat, (proj2 (str_eqb_eq _ _) eq_refl) in E|]; unfold first in Hf;
    rewrite (key_at_rep _ _ _ _ _ _ Hrep Hml), (key_at_rep _ _ _ _ _ _ Hrep Hj), Hat in Hf;
    destruct Hf as [Hf|[Hf _]]; [|by rewrite Hf, (proj2 (str_eqb_eq _ _) eq_refl) in E]; apply (Hge _ e' (list_elem_of_lookup_2 _ _ _ Hml) eq_refl); done.
  all: assert (m <> w) as Hmw by set_solver;
    destruct (sorted_insert _ _ _ _ Hs Hml) as [Hse Hs'];
    destruct (drop_key_insert k ss _ _ _ Hml E Hse) as [Hdk Hnat];
    pose proof (count_at_insert k ss _ _ _ Hml E Hnat) as Hcnt;
    assert (<[m := l']> ss !! w = Some (e :: l)) as Hw' by by rewrite list_lookup_insert_ne.
  - exfalso. assert (0 < count_at k (<[m:=l']> ss))%nat; [|lia]. unfold count_at.
    assert (e :: l ∈ filter (at_key k) (<[m:=l']> ss)) as Hin.
    { apply list_elem_of_filter. split; [unfold at_key; simpl; congruence|by eapply list_elem_of_lookup_2]. }
    destruct (filter (at_key k) (<[m:=l']> ss)); [set_solver|simpl; lia].
  - destruct (advance_spec _ _ _ _ _ Hrep' Hm Hml) as (st' & -> & Hrep2). cbn [mbind option_bind tail] in *.
    rewrite <- Hdk. apply (IH k st' (<[m := l']> ss) w e l); try done; [by eapply heads_ge_insert|lia].
Qed.

(** At the smallest key the lowest rank has the newest value. *)
Lemma head_value_app k (a b : list (list entry)) :
  head_value k (a ++ b) = match head_value k b with Some v => Some v | None => head_value k a end.
Proof.
  induction a as [|s a IH]; simpl; [by destruct (head_value k b)|]. rewrite IH. by destruct (head_value k b).
Qed.

Lemma head_value_reverse k (ss : list (list entry)) w e l :
  ss !! w = Some (e :: l) -> e.1 = k ->
  (forall j e' l', ss !! j = Some (e' :: l') -> e'.1 = k -> (w <= j)%nat) ->
  head_value k (reverse ss) = Some e.2.
Proof.
  revert w. induction ss as [|s ss IH]; intros w Hw He Hmin; [done|]. rewrite reverse_cons, head_value_app. simpl.
  destruct w as [|w]; simpl in Hw.
  - injection Hw as ->. by rewrite decide_True.
  - assert (match s with e0 :: _ => if decide (e0.1 = k) then Some e0.2 else None | [] => None end = None) as ->.
    { destruct s as [|e0 l0]; [done|]. rewrite decide_False; [done|]. intros Hk. specialize (Hmin 0%nat e0 l0 eq_refl Hk). lia. }
    apply (IH w Hw He). intros j e' l' Hj Hk. specialize (Hmin (S j) e' l' Hj Hk). lia.
Qed.

(** ** The loop *)

Definition upto (end_ : option str) (l : list entry) : list entry := List.filter (fun e => negb (past end_ e.1)) l.
Definition pairs (l : list entry) : list (str * str) := omap (fun e => v ← e.2; Some (e.1, v)) l.

Lemma upto_past end_ k v l : keys_sorted ((k, v) :: l) -> past end_ k = true -> upto end_ ((k, v) :: l) = [].
Proof.
  intros Hs Hp. apply keys_sorted_cons in Hs as [Hs _]. unfold upto. cbn [List.filter fst]. rewrite Hp. cbn [negb].
  destruct end_ as [b|]; [|done]. cbn [past] in Hp.
  assert (forall k', k' ∈ l.*1 -> past (Some b) k' = true) as Hall.
  { intros k' Hk'. cbn [past]. apply negb_true_iff, not_true_iff_false. intros Hlt%str_ltb_lt.
    apply negb_true_iff, not_true_iff_false in Hp. apply Hp, str_ltb_lt. eapply str_lt_trans; [by apply Hs|done]. }
  clear Hs Hp. induction l as [|e l IH]; [done|]. cbn [List.filter]. rewrite (Hall e.1) by set_solver. cbn [negb].
  apply IH. intros k' Hk'. apply Hall. set_solver.
Qed.

(** The heap is empty when the sources are. *)
Lemma pop_none_merges st ss rest :
  rep st ss [] -> pop_top (sources st) (heap st) = None -> merges (reverse ss) rest -> rest = [].
Proof.
  intros Hrep Hpop Hm. inversion Hm as [|? k v ? Hv]; [done|]. exfalso. subst.
  assert (forall s, s ∈ reverse ss -> s = []) as Hnil.
  { intros s Hin. rewrite elem_of_reverse in Hin. apply list_elem_of_lookup in Hin as [j Hj]. destruct s as [|e l]; [done|].
    pose proof (pop_top_none _ _ _ Hrep Hpop j e l Hj). set_solver. }
  clear -Hv Hnil. induction (reverse ss) as [|s l IH]; [done|]. simpl in Hv.
  rewrite (Hnil s) in Hv by set_solver. destruct (head_value k l); [apply IH; [done|set_solver]|done].
Qed.

(** The source on top has the least key, and the newest value under it. *)
Lemma pop_first st ss w e l :
  rep st ss [] -> ss !! w = Some (e :: l) ->
  (forall j e' l', ss !! j = Some (e' :: l') -> j ∉ [] -> j = w \/ first (sources st) w j) ->
  heads_ge e.1 ss /\ head_value e.1 (reverse ss) = Some e.2.
Proof.
  intros Hrep Hw Hfirst. split.
  - intros x e' Hx He' Hlt. apply list_elem_of_lookup in Hx as [j Hj]. destruct x as [|e2 l2]; [done|]. injection He' as ->.
    destruct (Hfirst j e' l2 Hj ltac:(set_solver)) as [->|Hfi].
    + rewrite Hw in Hj. injection Hj as <- _. by apply str_lt_irrefl in Hlt.
    + unfold first in Hfi. rewrite (key_at_rep _ _ _ _ _ _ Hrep Hw), (key_at_rep _ _ _ _ _ _ Hrep Hj) in Hfi.
      destruct Hfi as [Hfi|[Hfi _]]; [by apply (str_lt_asym _ _ Hfi)|]. rewrite Hfi in Hlt. by apply str_lt_irrefl in Hlt.
  - apply (head_value_reverse _ _ w e l Hw eq_refl). intros j e' l' Hj Hk.
    destruct (Hfirst j e' l' Hj ltac:(set_solver)) as [->|Hfi]; [done|]. unfold first in Hfi.
    rewrite (key_at_rep _ _ _ _ _ _ Hrep Hw), (key_at_rep _ _ _ _ _ _ Hrep Hj), Hk in Hfi.
    destruct Hfi as [Hfi|[_ Hfi]]; [by apply str_lt_irrefl in Hfi|lia].
Qed.

(** So it is what the merge goes on with. *)
Lemma merges_first ss rest w e l :
  ss !! w = Some (e :: l) -> heads_ge e.1 ss -> head_value e.1 (reverse ss) = Some e.2 -> merges (reverse ss) rest ->
  exists rest', rest = (e.1, e.2) :: rest' /\ merges (reverse (drop_key e.1 <$> ss)) rest'.
Proof.
  intros Hw Hge Hv Hm. inversion Hm as [? Hnil|? k v rest' Hkv Hkmin Hm']; subst.
  { exfalso. rewrite Forall_forall in Hnil. assert (e :: l = []); [|done].
    apply Hnil, elem_of_reverse. by eapply list_elem_of_lookup_2. }
  assert (k = e.1) as ->.
  { assert (reverse ss !! (length ss - S w)%nat = Some (e :: l)) as Hr.
    { rewrite reverse_lookup by (apply lookup_lt_Some in Hw; lia). rewrite <- Hw. f_equal. apply lookup_lt_Some in Hw. lia. }
    refine (merges_step_inv (reverse ss) k v e _ l Hkmin Hkv _ Hr). intros x e' Hx. apply Hge. by apply elem_of_reverse. }
  rewrite Hv in Hkv. injection Hkv as <-. exists rest'. split; [done|]. by rewrite <- fmap_reverse.
Qed.

(** What the loop appends: the live entries before the end key, up to the limit. *)
Lemma scan_loop_spec end_ limit fuel : forall st ss rest out,
  rep st ss [] -> Forall keys_sorted ss -> merges (reverse ss) rest -> keys_sorted rest ->
  (total ss <= fuel)%nat -> zlen out <= limit ->
  scan_loop fuel end_ limit st out = Some (out ++ take (Z.to_nat (limit - zlen out)) (pairs (upto end_ rest))).
Proof.
  induction fuel as [|fuel IH]; intros st ss rest out Hrep Hs Hm Hsr Hf Hlim; cbn [scan_loop];
    destruct (pop_top (sources st) (heap st)) as [[w h]|] eqn:Hpop.
  2,4: rewrite (pop_none_merges _ _ _ Hrep Hpop Hm); change (pairs (upto end_ [])) with (@nil (str * str)); by rewrite take_nil, app_nil_r.
  all: destruct (pop_top_rep _ _ _ _ _ Hrep Hpop) as (_ & (e & l & Hw) & Hrep' & Hfirst);
    pose proof (total_drop e.1 ss w e l Hw eq_refl) as Ht.
  { lia. }
  destruct (Z.leb_spec limit (zlen out)) as [Hfull|Hroom].
  { replace (Z.to_nat (limit - zlen out)) with 0%nat by lia. by rewrite take_0, app_nil_r. }
  destruct (pop_first _ _ _ _ _ Hrep Hw Hfirst) as [Hge Hv].
  destruct (merges_first _ _ _ _ _ Hw Hge Hv Hm) as (rest' & -> & Hm2). rewrite (key_at_rep _ _ _ _ _ _ Hrep Hw).
  destruct (past end_ e.1) eqn:Hpast.
  { rewrite (upto_past _ _ _ _ Hsr Hpast). change (pairs []) with (@nil (str * str)). by rewrite take_nil, app_nil_r. }
  destruct (Forall2_lookup_r _ _ _ _ _ (rep_sources _ _ _ Hrep) Hw) as (s & Hl & Hrs).
  rewrite Hl. cbn [mbind option_bind]. rewrite (current_rep _ _ Hrs). change (head (e :: l)) with (Some e). cbn [mbind option_bind].
  destruct (drop_stale_spec (length (sources st)) e.1 _ ss w e l Hrep' Hs Hge Hw eq_refl) as (st1 & -> & Hrep1).
  { unfold count_at. rewrite (Forall2_length _ _ _ (rep_sources _ _ _ Hrep)). pose proof (length_filter (at_key e.1) ss). lia. }
  cbn [mbind option_bind].
  assert (w < length (drop_key e.1 <$> ss))%nat as Hwl by (rewrite length_fmap; by eapply lookup_lt_Some).
  destruct (advance_spec st1 (<[w := e :: l]> (drop_key e.1 <$> ss)) [] w (e :: l) Hrep1) as (st2 & -> & Hrep2);
    [set_solver|by apply list_lookup_insert_eq|].
  cbn [mbind option_bind tail] in *. rewrite list_insert_insert_eq, list_insert_id in Hrep2.
  2: { rewrite list_lookup_fmap, Hw. simpl. by rewrite decide_True. }
  assert (keys_sorted rest') as Hsr' by by apply keys_sorted_cons in Hsr as [_ ?].
  assert (upto end_ ((e.1, e.2) :: rest') = (e.1, e.2) :: upto end_ rest') as Hup
    by (unfold upto; cbn [List.filter fst]; by rewrite Hpast).
  rewrite Hup. unfold pairs. cbn [omap list_omap snd fst]. destruct e.2 as [v|] eqn:Ev; cbn [mbind option_bind].
  - rewrite (IH st2 _ rest' _ Hrep2 (drop_keys_sorted _ _ Hs) Hm2 Hsr'); [|lia|rewrite length_app; simpl; lia].
    rewrite length_app. cbn [length]. replace (Z.to_nat (limit - zlen out)) with (S (Z.to_nat (limit - (zlen out + 1)))) by lia.
    cbn [take]. rewrite <- app_assoc. cbn [app]. do 4 f_equal. lia.
  - apply (IH st2 _ rest' _ Hrep2 (drop_keys_sorted _ _ Hs) Hm2 Hsr'); lia.
Qed.

Lemma init_rep srcs ss : Forall2 source_rep srcs ss -> rep (init srcs) ss [].
Proof.
  intros H. assert (forall r, r ∈ heap (init srcs) <-> exists e l, ss !! r = Some (e :: l)) as Hh.
  { intros r. cbn [heap init]. rewrite list_elem_of_In, filter_In, <- list_elem_of_In, elem_of_seq.
    split.
    - intros [_ Hv]. destruct (srcs !! r) as [s|] eqn:Hs; [|done].
      destruct (Forall2_lookup_l _ _ _ _ _ H Hs) as (es & He & Hrep). unfold valid in Hv.
      rewrite (current_rep _ _ Hrep) in Hv. apply bool_decide_eq_true in Hv. destruct es as [|e l]; [by destruct Hv|by eexists _, _].
    - intros (e & l & He). destruct (Forall2_lookup_r _ _ _ _ _ H He) as (s & Hs & Hrep).
      pose proof (lookup_lt_Some _ _ _ Hs). split; [lia|]. rewrite Hs. unfold valid. rewrite (current_rep _ _ Hrep).
      apply bool_decide_eq_true. by eexists. }
  split; [done| |].
  - intros r. rewrite Hh. set_solver.
  - cbn [heap init]. apply NoDup_ListNoDup, List.NoDup_filter, NoDup_ListNoDup, NoDup_seq.
Qed.

Lemma source_size_enough s es : source_rep s es -> (length es <= source_size s)%nat.
Proof.
  destruct s as [rest|it cur]; simpl; [by intros ->|]. intros [_ Hit]. destruct es as [|e es]; [simpl; lia|].
  simpl in *. pose proof (iter_length _ _ Hit). destruct (in_ it); simpl; lia.
Qed.

Lemma scan_fuel_enough srcs ss : Forall2 source_rep srcs ss -> (total ss <= scan_fuel srcs)%nat.
Proof.
  induction 1 as [|s x srcs ss Hs _ IH]; [done|]. pose proof (source_size_enough _ _ Hs).
  unfold scan_fuel in *. cbn [foldr total] in *. fold (total ss). lia.
Qed.

Lemma merge_spec end_ limit srcs ss :
  Forall2 source_rep srcs ss -> Forall keys_sorted ss -> 0 <= limit ->
  exists rest, keys_sorted rest /\ (forall k, alookup k rest = layered k (reverse ss)) /\
    merge end_ limit srcs = Some (take (Z.to_nat limit) (pairs (upto end_ rest))).
Proof.
  intros H Hs Hl. assert (Forall keys_sorted (reverse ss)) as Hr.
  { rewrite Forall_forall in Hs |- *. intros x Hx. apply Hs. by apply elem_of_reverse. }
  destruct (merges_exists _ Hr) as (rest & Hm & _). destruct (merges_spec _ _ Hm Hr) as [Hsr Hlk].
  exists rest. split_and!; [done|done|]. unfold merge.
  rewrite (scan_loop_spec end_ limit _ _ ss rest [] (init_rep _ _ H) Hs Hm Hsr (scan_fuel_enough _ _ H));
    [|done]. cbn [app length]. by rewrite Z.sub_0_r.
Qed.

(** The pairs of a run before the end key. *)
Lemma pairs_keys k l : k ∈ (pairs l).*1 -> k ∈ l.*1.
Proof.
  unfold pairs. rewrite !list_elem_of_fmap. intros (p & -> & (e & He & Hp)%list_elem_of_omap).
  exists e. destruct e as [k [v|]]; simpl in *; [|done]. by injection Hp as <-.
Qed.

Lemma upto_keys end_ k l : k ∈ (upto end_ l).*1 -> k ∈ l.*1.
Proof.
  unfold upto. rewrite !list_elem_of_fmap. intros (e & -> & He). exists e. split; [done|].
  rewrite list_elem_of_In, filter_In, <- list_elem_of_In in He. tauto.
Qed.

Lemma pairs_upto_spec end_ l :
  keys_sorted l -> keys_sorted (pairs (upto end_ l)) /\
  forall k, alookup k (pairs (upto end_ l)) = if past end_ k then None else mjoin (alookup k l).
Proof.
  induction l as [|[k0 v0] l IH]; intros Hs; [split; [constructor|]; intros k; simpl; by destruct (past end_ k)|].
  apply keys_sorted_cons in Hs as [Hk Hs]. destruct (IH Hs) as [IH1 IH2].
  unfold upto. cbn [List.filter fst]. fold (upto end_ l). destruct (past end_ k0) eqn:Hp; cbn [negb].
  - split; [done|]. intros k. rewrite IH2, alookup_cons. destruct (past end_ k) eqn:Hpk; [done|].
    rewrite decide_False; [done|]. congruence.
  - unfold pairs. cbn [omap list_omap fst snd]. fold (pairs (upto end_ l)).
    destruct v0 as [v|]; cbn [mbind option_bind].
    + split.
      * apply keys_sorted_cons. split; [|done]. intros k Hin. by apply Hk, (upto_keys end_), pairs_keys.
      * intros k. rewrite !alookup_cons. case_decide; [subst; by rewrite Hp|]. apply IH2.
    + split; [done|]. intros k. change (omap _ (upto end_ l)) with (pairs (upto end_ l)).
      rewrite IH2, alookup_cons. case_decide; [subst|done]. rewrite Hp. simpl.
      enough (alookup k0 l = None) as -> by done. apply alookup_None. intros Hin. by apply Hk, str_lt_irrefl in Hin.
Qed.

End Scan.
