(* ===== verification/Replay.v ===== *)
(** * Replaying a log

    The run a memtable holds after the records of a log have been applied to it,
    and what a reader then sees over the tables below.  After a crash some of
    the records that were not durable are missing: per key, what is left is what
    some prefix of the log gives. *)

From S2P Require Import Prelude WalFormat TableFormat Layers CompactionRun.
Open Scope Z_scope.

Module Replay.
Import TableFormat Layers CompactionRun.

(** [put] or [del], by the record's type. *)
Definition record_value (x : WAL.Entry) : option str :=
  match WAL.type x with WAL.PUT => Some (WAL.value x) | WAL.DEL => None end.

Definition apply_record (l : list entry) (x : WAL.Entry) : list entry := ainsert (WAL.key x) (record_value x) l.

(** The memtable's run after the records [es]. *)
Definition mem_of (es : list WAL.Entry) : list entry := foldl apply_record [] es.

(** What a reader sees of the tables [xs] with the memtable's run [l] on top. *)
Definition view (xs : list layer) (l : list entry) (k : str) : option str := visible k (xs.*2 ++ [l]).

(** What is written under [k], in order. *)
Definition writes (k : str) (es : list WAL.Entry) : list (option str) :=
  omap (fun x => if decide (WAL.key x = k) then Some (record_value x) else None) es.

Lemma mem_of_app es x : mem_of (es ++ [x]) = apply_record (mem_of es) x.
Proof. unfold mem_of. by rewrite foldl_app. Qed.

Lemma mem_of_sorted es : keys_sorted (mem_of es).
Proof.
  induction es as [|x es IH] using rev_ind; [apply keys_sorted_nil|]. rewrite mem_of_app. by apply ainsert_sorted.
Qed.

Lemma writes_app k es1 es2 : writes k (es1 ++ es2) = writes k es1 ++ writes k es2.
Proof. apply omap_app. Qed.

Lemma mem_of_lookup k es : alookup k (mem_of es) = last (writes k es).
Proof.
  induction es as [|x es IH] using rev_ind; [done|]. rewrite mem_of_app, writes_app. unfold apply_record.
  rewrite alookup_ainsert. unfold writes at 2. cbn. destruct (decide (k = WAL.key x)) as [->|Hne].
  - rewrite decide_True by done. by rewrite last_snoc.
  - rewrite decide_False by congruence. cbn. by rewrite app_nil_r.
Qed.

Lemma mem_of_nil es : mem_of es = [] -> es = [].
Proof.
  destruct es as [|x es _] using rev_ind; [done|]. rewrite mem_of_app. intros H.
  pose proof (alookup_ainsert (WAL.key x) (WAL.key x) (record_value x) (mem_of es)) as Ha.
  unfold apply_record in H. rewrite H, decide_True in Ha; done.
Qed.

Lemma view_lookup xs l k : view xs l k = match alookup k l with Some v => v | None => visible k xs.*2 end.
Proof. unfold view, visible. rewrite layered_app. cbn. by destruct (alookup k l). Qed.

Lemma view_ext xs l l' k : alookup k l = alookup k l' -> view xs l k = view xs l' k.
Proof. rewrite !view_lookup. by intros ->. Qed.

(** Tables with the same contents are as good. *)
Lemma view_same xs xs' l k : same_view xs'.*2 xs.*2 -> view xs' l k = view xs l k.
Proof. intros Hs. by rewrite !view_lookup, (Hs k). Qed.

(** A memtable above its own table. *)
Lemma view_flushed xs new l k : new.2 = l -> view (xs ++ [new]) l k = view xs l k.
Proof.
  intros <-. rewrite !view_lookup. destruct (alookup k new.2) as [v|] eqn:E; [done|].
  rewrite fmap_app. cbn. unfold visible. rewrite layered_app. cbn. by rewrite E.
Qed.

Lemma view_empty xs k : view xs [] k = visible k xs.*2.
Proof. by rewrite view_lookup. Qed.

Lemma view_above xs new l k : view (xs ++ [new]) l k = match alookup k l with Some v => v | None => view xs new.2 k end.
Proof.
  rewrite view_lookup. destruct (alookup k l); [done|]. unfold view. by rewrite fmap_app.
Qed.

(** ** Missing records *)

Lemma writes_prefix k es ws v : writes k es = ws ++ [v] -> exists es1, es1 `prefix_of` es /\ writes k es1 = ws ++ [v].
Proof.
  revert ws. induction es as [|x es IH] using rev_ind; intros ws; [by destruct ws|].
  rewrite writes_app. unfold writes at 2. cbn. destruct (decide (WAL.key x = k)) as [E|E]; cbn.
  - intros Hw. exists (es ++ [x]). split; [done|]. rewrite writes_app. unfold writes at 2. cbn. by rewrite decide_True.
  - rewrite app_nil_r. intros Hw. destruct (IH _ Hw) as (es1 & Hp & ?). exists es1. split; [|done]. by apply prefix_app_r.
Qed.

Lemma writes_split k es v : v ∈ writes k es -> exists es1, es1 `prefix_of` es /\ last (writes k es1) = Some v.
Proof.
  intros (ws & ws' & Hw)%list_elem_of_split. revert ws' Hw. induction es as [|x es IH] using rev_ind; intros ws' Hw; [by destruct ws|].
  destruct ws' as [|z ws' _] using rev_ind.
  - destruct (writes_prefix k (es ++ [x]) ws v Hw) as (es1 & ? & E). exists es1. by rewrite E, last_snoc.
  - rewrite writes_app in Hw. unfold writes at 2 in Hw. cbn in Hw. destruct (decide (WAL.key x = k)) as [E|E]; cbn in Hw.
    + rewrite app_comm_cons, app_assoc in Hw. apply app_inj_tail in Hw as [Hw _].
      destruct (IH ws' Hw) as (es1 & Hp & ?). exists es1. split; [|done]. by apply prefix_app_r.
    + rewrite app_nil_r in Hw. destruct (IH _ Hw) as (es1 & Hp & ?). exists es1. split; [|done]. by apply prefix_app_r.
Qed.

(** Dropping records of [p] leaves, per key, what a prefix of it gives. *)
Lemma sublist_prefix s p p' k :
  p' `sublist_of` p -> exists p1, p1 `prefix_of` p /\ alookup k (mem_of (s ++ p')) = alookup k (mem_of (s ++ p1)).
Proof.
  intros Hsub. destruct (last (writes k p')) as [v|] eqn:E.
  - assert (v ∈ writes k p) as Hin.
    { apply last_Some in E as [ws E]. assert (v ∈ writes k p') as Hv by (rewrite E; set_solver).
      unfold writes in *. apply list_elem_of_omap in Hv as (x & Hx & Hk). apply list_elem_of_omap. exists x. split; [|done].
      by eapply elem_of_sublist. }
    destruct (writes_split _ _ _ Hin) as (p1 & Hp & Hl). exists p1. split; [done|].
    rewrite !mem_of_lookup, !writes_app. apply last_Some in E as [? ->]. apply last_Some in Hl as [? ->].
    by rewrite !app_assoc, !last_snoc.
  - exists []. split; [apply prefix_nil|]. rewrite !mem_of_lookup, !writes_app. apply last_None in E as ->. done.
Qed.

(** ** One more record *)

(** The contents [v] once the record [x] is applied. *)
Definition upd (x : WAL.Entry) (v : str -> option str) : str -> option str :=
  fun k => if decide (k = WAL.key x) then record_value x else v k.

Lemma view_apply xs l x k : view xs (apply_record l x) k = upd x (view xs l) k.
Proof.
  unfold upd, apply_record. rewrite !view_lookup, alookup_ainsert.
  by destruct (decide (k = WAL.key x)).
Qed.

(** ** What a crash may leave under a key *)

(** What the durable records [s] and some prefix of the others, [p], make of the
    tables. *)
Definition may (xs : list layer) (s p : list WAL.Entry) (k : str) (v : option str) : Prop :=
  exists p1, p1 `prefix_of` p /\ v = view xs (mem_of (s ++ p1)) k.

Lemma may_log xs s p p' k : p' `sublist_of` p -> may xs s p k (view xs (mem_of (s ++ p')) k).
Proof.
  intros Hp. destruct (sublist_prefix s p p' k Hp) as (p1 & Hp1 & He). exists p1. split; [done|]. by apply view_ext.
Qed.

Lemma may_now xs s p k : may xs s p k (view xs (mem_of (s ++ p)) k).
Proof. by exists p. Qed.

Lemma may_snoc xs s p x k v : may xs s p k v -> may xs s (p ++ [x]) k v.
Proof. intros (p1 & Hp & ->). exists p1. split; [by apply prefix_app_r|done]. Qed.

(** More of the log may have become durable. *)
Lemma may_durable xs s p s' p' k v :
  s ++ p = s' ++ p' -> (length s <= length s')%nat -> may xs s' p' k v -> may xs s p k v.
Proof.
  intros He Hl (p1 & [q ->] & ->).
  assert (s' = s ++ take (length s' - length s) p) as Hs.
  { apply (f_equal (take (length s'))) in He. rewrite take_app_length, take_app in He.
    rewrite (take_ge s) in He by done. done. }
  exists (take (length s' - length s) p ++ p1). rewrite app_assoc, <- Hs. split; [|done].
  exists q. rewrite Hs, <- !app_assoc in He. apply app_inv_head in He. by rewrite <- app_assoc.
Qed.

(** One more record adds one value. *)
Lemma may_split xs s p x k v :
  may xs s (p ++ [x]) k v -> may xs s p k v \/ v = view xs (mem_of (s ++ p ++ [x])) k.
Proof.
  intros (p1 & Hp & ->). destruct Hp as [q Hq]. destruct q as [|y q _] using rev_ind.
  - right. rewrite app_nil_r in Hq. by rewrite <- Hq.
  - rewrite app_assoc in Hq. apply app_inj_tail in Hq as [-> _]. left. eexists. split; [|done]. by exists q.
Qed.

(** The log of [s] and [p], perhaps with more of it durable, or an empty log above
    other tables. *)
Definition later (xs : list layer) (s p : list WAL.Entry) (xs' : list layer) (s' p' : list WAL.Entry) : Prop :=
  s' = [] /\ p' = [] \/ xs' = xs /\ s ++ p = s' ++ p' /\ (length s <= length s')%nat.

Lemma may_later xs s p xs' s' p' k v :
  later xs s p xs' s' p' -> may xs' s' p' k v -> v = view xs' (mem_of (s' ++ p')) k \/ may xs s p k v.
Proof.
  intros [[-> ->]|(-> & He & Hl)] Hv; [left|right; by eapply may_durable].
  destruct Hv as (p1 & ->%prefix_nil_inv & ->). done.
Qed.

End Replay.
