(* ===== verification/LogSpec.v ===== *)
(** * The write-ahead log as the engine sees it

    [LogOps] is what [LSMEngine] calls of [WAL] ([src/wal/wal.h]); [LogSpec] what
    it relies on, proved of the writer's model in [WalLog].  A log holds the
    records appended since it was last cleared: those known to survive the death
    of the process, then those that may.  A type [D] stands for the log on disk
    between two lives of the engine.

    The index [b] of the representation predicates says that no system call the
    log makes fails. *)

From S2P Require Import Prelude WalFormat Fault Kernel.
Open Scope Z_scope.

Class LogOps (W D : Type) := {
  log_ticket : Type;
  log_open : bool -> D -> result W;                       (* WAL::WAL *)
  log_durable : W -> bool;                                (* durability() == Durable *)
  log_append : WAL.Type_ -> str -> str -> W -> Fault.state -> result log_ticket * W * Fault.state;
  log_waitDurable : log_ticket -> W -> Fault.state -> result unit * W * Fault.state;
  log_sync : W -> Fault.state -> result unit * W * Fault.state;
  log_recover : W -> result (list WAL.Entry);
  log_clear : W -> Fault.state -> result unit * W * Fault.state;
  log_close : W -> Fault.state -> result D * Fault.state  (* WAL::~WAL *)
}.

(** The file size a record adds. *)
Definition record_bytes (e : WAL.Entry) : Z :=
  WAL.align512 (WAL.record_size (zlen (WAL.key e)) (zlen (WAL.value e))).

(** What the registry does while an operation runs: nothing arms it. *)
Definition stays_disarmed (f f' : Fault.state) : Prop := Fault.g_armed f = false -> Fault.g_armed f' = false.

#[export] Instance stays_disarmed_po : PreOrder stays_disarmed.
Proof. unfold stays_disarmed. split; [by intros f|intros f1 f2 f3; auto]. Qed.

(** The record is written in one piece, where requests of up to [whole] bytes are
    (and larger ones too, where nothing fails). *)
Definition fits (whole : Z) (b : bool) (k v : str) : Prop :=
  record_bytes (WAL.mkEntry WAL.PUT k v) <= Kernel.write_limit whole b.

Class LogSpec (W D : Type) `{LogOps W D} := {
  (** Records of so many bytes are written whole or not at all. *)
  log_whole : Z;
  log_whole_max : log_whole <= Kernel.MAX_RW_COUNT;
  (** [log_rep b w s p]: the records of the log are [s ++ p], and [s] survives. *)
  log_rep : bool -> W -> list WAL.Entry -> list WAL.Entry -> Prop;
  (** The ticket stands for the first [n] of them. *)
  log_covers : bool -> W -> list WAL.Entry -> list WAL.Entry -> log_ticket -> nat -> Prop;
  (** The ticket is from before the log was last cleared. *)
  log_passed : W -> log_ticket -> Prop;
  (** The same records, in a log that may be of no further use. *)
  log_left : W -> list WAL.Entry -> list WAL.Entry -> Prop;
  log_size : W -> Z;
  (** What can be on disk if the process dies now. *)
  log_dies : W -> D -> Prop;
  disk_rep : D -> list WAL.Entry -> Prop;
  disk_size : D -> Z;
  disk_size_nonneg d : 0 <= disk_size d;
  (** The system can run a log on it. *)
  disk_ready : bool -> D -> Prop;

  log_rep_left b w s p : log_rep b w s p -> log_left w s p;
  log_rep_weaken b w s p : log_rep b w s p -> log_rep false w s p;
  log_covers_rep b w s p t n : log_covers b w s p t n -> log_rep b w s p;

  log_append_spec b ty k v w f s p :
    let e := WAL.mkEntry ty k v in
    log_rep b w s p -> (b = true -> Fault.g_armed f = false) -> fits log_whole b k v -> log_size w + record_bytes e <= 2 ^ 63 ->
    let '(r, w', f') := log_append ty k v w f in
    stays_disarmed f f' /\ log_durable w' = log_durable w /\
    log_size w <= log_size w' <= log_size w + record_bytes e /\
    (b = true -> exists t, r = Ok t) /\
    match r with
    | Ok t => log_covers b w' s (p ++ [e]) t (length (s ++ p ++ [e]))
    | Throw _ | Crashed => log_rep b w' s p \/ log_rep b w' s (p ++ [e])
    | Undefined => False
    end;

  log_waitDurable_spec b t w f s p n :
    log_covers b w s p t n -> (b = true -> Fault.g_armed f = false) ->
    let '(r, w', f') := log_waitDurable t w f in
    stays_disarmed f f' /\ log_durable w' = log_durable w /\ log_size w' = log_size w /\ (b = true -> r = Ok tt) /\
    exists s' p', s ++ p = s' ++ p' /\ (length s <= length s')%nat /\
    match r with
    | Ok _ => log_rep b w' s' p' /\ (n <= length s')%nat
    | Throw _ => log_rep b w' s' p'
    | Crashed => log_left w' s' p'
    | Undefined => False
    end;

  log_passed_spec b t w f s p : log_rep b w s p -> log_passed w t -> log_waitDurable t w f = (Ok tt, w, f);

  log_sync_spec b w f s p :
    log_rep b w s p -> (b = true -> Fault.g_armed f = false) ->
    let '(r, w', f') := log_sync w f in
    stays_disarmed f f' /\ log_durable w' = log_durable w /\ log_size w' = log_size w /\ (b = true -> r = Ok tt) /\
    match r with
    | Ok _ => log_rep b w' (s ++ p) []
    | Throw _ | Crashed => exists s' p', s ++ p = s' ++ p' /\ (length s <= length s')%nat /\ log_left w' s' p'
    | Undefined => False
    end;

  log_clear_spec b w f s p :
    log_rep b w s p -> (b = true -> Fault.g_armed f = false) ->
    let '(r, w', f') := log_clear w f in
    stays_disarmed f f' /\ log_durable w' = log_durable w /\ (b = true -> r = Ok tt) /\
    match r with
    | Ok _ => log_rep b w' [] [] /\ log_size w' = 0 /\ (forall t n, log_covers b w s p t n -> log_passed w' t)
    | Throw _ => log_size w' <= log_size w /\ (log_left w' s p \/ log_left w' [] [])
    | Crashed | Undefined => False
    end;

  log_dies_spec w s p d :
    log_left w s p -> log_dies w d ->
    disk_size d <= log_size w /\ exists p', p' `sublist_of` p /\ disk_rep d (s ++ p');

  log_close_spec b w f s p :
    log_rep b w s p -> (b = true -> Fault.g_armed f = false) ->
    let '(r, f') := log_close w f in
    stays_disarmed f f' /\ exists d p', r = Ok d /\ disk_size d <= log_size w /\ disk_ready b d /\
      p' `sublist_of` p /\ disk_rep d (s ++ p') /\ (b = true -> p' = p);

  log_open_spec b durable d es :
    disk_rep d es -> disk_ready b d ->
    match log_open durable d with
    | Ok w => log_rep b w es [] /\ log_durable w = durable /\ log_size w = disk_size d /\
        (log_recover w = Ok es \/ exists x, log_recover w = Throw x) /\
        (b = true -> disk_size d <= WAL.MAX_RECOVERY_BYTES -> log_recover w = Ok es)
    | Throw _ => b = false
    | Crashed | Undefined => False
    end
}.

Definition loggable {W D : Type} `{LogSpec W D} (b : bool) (k v : str) : Prop := fits log_whole b k v.
