(* ===== verification/WalWriter.v ===== *)
(** * The write-ahead log: writer

    Models [src/wal/wal.h] and [src/wal/wal_writer.cpp]: records submitted
    through [io_uring] at explicit offsets, completions reaped with bounded
    resubmission of cancelled writes, the durability wait of one thread,
    [clear], and the two ends of a log's life.  [WalThreads] has the
    calls of several threads at once. *)

From S2P Require Import Prelude WalFormat Fault Kernel LogSpec.
Open Scope Z_scope.

Module WalWriter.
Import Kernel.

(** ** State *)

(** What [recordFailure] is told. *)
Inductive Failure :=
  | ResubmitFailed (err offset : Z)
  | WriteCancelled (attempts offset : Z)
  | WriteFailed (err : Z)
  | ShortWrite (res bytes : Z)
  | DrainFailed (err : Z).

(** [struct PendingWrite]; the buffer belongs to it. *)
Record PendingWrite := mkPending { buf : str; bytes : Z; offset : Z; attempts : Z }.

(** [struct Ticket] *)
Record Ticket := mkTicket { epoch : Z; end_ : Z }.

Record t (R : Type) := mkWAL {
  fd_ : bool;                          (* fd_ >= 0 *)
  durability_ : bool;                  (* Durability::Durable *)
  sync_in_progress_ : bool;
  epoch_ : Z;
  sync_calls_ : Z;
  cancel_retries_ : Z;
  durable_end_ : Z;
  ring_ready_ : bool;
  failure_ : option Failure;           (* None: the empty string *)
  pending_cqes_ : Z;
  write_offset_ : Z;
  heap : gmap Z PendingWrite;          (* the PendingWrite objects alive *)
  next_ptr : Z;
  kernel : R
}.
Arguments mkWAL {R}.
Arguments fd_ {R}.
Arguments durability_ {R}.
Arguments sync_in_progress_ {R}.
Arguments epoch_ {R}.
Arguments sync_calls_ {R}.
Arguments cancel_retries_ {R}.
Arguments durable_end_ {R}.
Arguments ring_ready_ {R}.
Arguments failure_ {R}.
Arguments pending_cqes_ {R}.
Arguments write_offset_ {R}.
Arguments heap {R}.
Arguments next_ptr {R}.
Arguments kernel {R}.

(** A conversion to [int32_t]. *)
Definition i32 (z : Z) : Z := let u := u32 z in if u <? 2 ^ 31 then u else u - 2 ^ 32.

Definition kMaxWriteAttempts : Z := 6.

Section writer.
Context {R : Type} `{!Uring R}.
Implicit Types (s : t R) (f : Fault.state).

Definition set_kernel (r : R) s : t R :=
  mkWAL (fd_ s) (durability_ s) (sync_in_progress_ s) (epoch_ s) (sync_calls_ s) (cancel_retries_ s) (durable_end_ s)
    (ring_ready_ s) (failure_ s) (pending_cqes_ s) (write_offset_ s) (heap s) (next_ptr s) r.
Definition set_heap (h : gmap Z PendingWrite) (n : Z) s : t R :=
  mkWAL (fd_ s) (durability_ s) (sync_in_progress_ s) (epoch_ s) (sync_calls_ s) (cancel_retries_ s) (durable_end_ s)
    (ring_ready_ s) (failure_ s) (pending_cqes_ s) (write_offset_ s) h n (kernel s).
Definition set_failure (x : option Failure) s : t R :=
  mkWAL (fd_ s) (durability_ s) (sync_in_progress_ s) (epoch_ s) (sync_calls_ s) (cancel_retries_ s) (durable_end_ s)
    (ring_ready_ s) x (pending_cqes_ s) (write_offset_ s) (heap s) (next_ptr s) (kernel s).
Definition set_pending (n : Z) s : t R :=
  mkWAL (fd_ s) (durability_ s) (sync_in_progress_ s) (epoch_ s) (sync_calls_ s) (cancel_retries_ s) (durable_end_ s)
    (ring_ready_ s) (failure_ s) n (write_offset_ s) (heap s) (next_ptr s) (kernel s).
Definition set_offset (n : Z) s : t R :=
  mkWAL (fd_ s) (durability_ s) (sync_in_progress_ s) (epoch_ s) (sync_calls_ s) (cancel_retries_ s) (durable_end_ s)
    (ring_ready_ s) (failure_ s) (pending_cqes_ s) n (heap s) (next_ptr s) (kernel s).
Definition set_handles (fd ready : bool) s : t R :=
  mkWAL fd (durability_ s) (sync_in_progress_ s) (epoch_ s) (sync_calls_ s) (cancel_retries_ s) (durable_end_ s)
    ready (failure_ s) (pending_cqes_ s) (write_offset_ s) (heap s) (next_ptr s) (kernel s).
Definition set_sync (b : bool) (durable_end : Z) s : t R :=
  mkWAL (fd_ s) (durability_ s) b (epoch_ s) (sync_calls_ s) (cancel_retries_ s) durable_end
    (ring_ready_ s) (failure_ s) (pending_cqes_ s) (write_offset_ s) (heap s) (next_ptr s) (kernel s).
Definition set_epoch (n : Z) s : t R :=
  mkWAL (fd_ s) (durability_ s) (sync_in_progress_ s) n (sync_calls_ s) (cancel_retries_ s) (durable_end_ s)
    (ring_ready_ s) (failure_ s) (pending_cqes_ s) (write_offset_ s) (heap s) (next_ptr s) (kernel s).
Definition set_stats (syncs retries : Z) s : t R :=
  mkWAL (fd_ s) (durability_ s) (sync_in_progress_ s) (epoch_ s) syncs retries (durable_end_ s)
    (ring_ready_ s) (failure_ s) (pending_cqes_ s) (write_offset_ s) (heap s) (next_ptr s) (kernel s).

(** Operations act on the log and the fault registry. *)
Definition Wr (A : Type) : Type := t R -> Fault.state -> result A * t R * Fault.state.

#[export] Instance Wr_ret : MRet Wr := fun A a s f => (Ok a, s, f).
#[export] Instance Wr_bind : MBind Wr := fun A B g m s f =>
  match m s f with
  | (Ok a, s, f) => g a s f
  | (Throw x, s, f) => (Throw x, s, f)
  | (Crashed, s, f) => (Crashed, s, f)
  | (Undefined, s, f) => (Undefined, s, f)
  end.

Definition throw {A} (x : exn) : Wr A := fun s f => (Throw x, s, f).
Definition undefined {A} : Wr A := fun s f => (Undefined, s, f).
Definition reads_ {A} (g : t R -> A) : Wr A := fun s f => (Ok (g s), s, f).
Definition update (g : t R -> t R) : Wr unit := fun s f => (Ok tt, g s, f).
Definition hit (p : string) : Wr unit := fun s f => let '(r, f) := Fault.hit p f in (r, s, f).
Definition shouldFail (p : string) : Wr bool := fun s f => let '(b, f) := Fault.shouldFail p f in (Ok b, s, f).

(** A system call. *)
Definition sys {A} (g : R -> A * R) : Wr A := fun s f => let '(a, r) := g (kernel s) in (Ok a, set_kernel r s, f).
(** A call on the ring: undefined behaviour once the ring was exited. *)
Definition ring {A} (g : R -> A * R) : Wr A :=
  ready ← reads_ ring_ready_; if (ready : bool) then sys g else undefined.
Definition ring_ (g : R -> R) : Wr unit := ring (fun r => (tt, g r)).

(** Objects: dereferencing or freeing a dead one is undefined behaviour. *)
Definition alloc (x : PendingWrite) : Wr Z :=
  p ← reads_ next_ptr; update (fun s => set_heap (<[p := x]> (heap s)) (p + 1) s) ;; mret p.
Definition deref (p : Z) : Wr PendingWrite :=
  h ← reads_ heap; match h !! p with Some x => mret x | None => undefined end.
Definition store (p : Z) (x : PendingWrite) : Wr unit := update (fun s => set_heap (<[p := x]> (heap s)) (next_ptr s) s).
Definition free (p : Z) : Wr unit := deref p ;; update (fun s => set_heap (delete p (heap s)) (next_ptr s) s).

(** ** Completions *)

Definition recordFailure (detail : Failure) : Wr unit :=
  update (fun s => match failure_ s with None => set_failure (Some detail) s | Some _ => s end).

(** [io_uring_prep_write] takes the length as an [unsigned]. *)
Definition queue_write (slot : sqe) (p : Z) (x : PendingWrite) : Wr unit :=
  ring_ (prep_write slot p (take (Z.to_nat (u32 (bytes x))) (buf x)) (offset x)) ;;
  ring_ (set_data slot (Some p)).

Definition resubmit (p : Z) : Wr Z :=
  slot ← ring get_sqe;
  match slot with
  | None => mret 0
  | Some slot =>
      x ← deref p;
      let x := mkPending (buf x) (bytes x) (offset x) (attempts x + 1) in
      store p x ;;
      queue_write slot p x ;;
      submitted ← ring submit;
      if submitted <? 0 then
        ring_ (set_data slot None) ;;
        recordFailure (ResubmitFailed (- submitted) (offset x)) ;;
        mret (-1)
      else mret 1
  end.

(** The last lines of [reap]'s loop. *)
Definition finish : Wr unit :=
  ring_ cqe_seen ;;
  update (fun s => if 0 <? pending_cqes_ s then set_pending (pending_cqes_ s - 1) s else s).

(** [cqe->res], as the fault points change it. *)
Definition faulted (x : PendingWrite) (res : Z) : Wr Z :=
  e ← shouldFail "wal.cqe_error";
  let res := if (e : bool) then - EIO else res in
  h ← shouldFail "wal.short_write";
  let res := if (h : bool) then i32 (bytes x / 2) else res in
  c ← shouldFail "wal.cqe_cancel";
  mret (if (c : bool) then - ECANCELED else res).

(** One iteration of [reap]'s loop. *)
Definition reap_one (res : Z) (data : option Z) : Wr unit :=
  match data with
  | None => finish
  | Some p =>
      x ← deref p;
      res ← faulted x res;
      let done := free p ;; finish in
      if res =? - ECANCELED then
        let cancelled := y ← deref p; recordFailure (WriteCancelled (attempts y) (offset y)) ;; done in
        if attempts x <? kMaxWriteAttempts then
          r ← resubmit p;
          update (fun s => set_stats (sync_calls_ s) (u64 (cancel_retries_ s + 1)) s) ;;
          if r =? 1 then ring_ cqe_seen
          else if r <? 0 then finish
          else cancelled
        else cancelled
      else if res <? 0 then recordFailure (WriteFailed (- res)) ;; done
      else if res <? bytes x then recordFailure (ShortWrite res (bytes x)) ;; done
      else done
  end.

Fixpoint reap_loop (fuel : nat) : Wr unit :=
  match fuel with
  | O => undefined
  | S fuel =>
      c ← ring peek_cqe;
      match c with
      | None => mret tt
      | Some (res, data) => reap_one res data ;; reap_loop fuel
      end
  end.

(** Every completion either ends a request or is one of its at most six. *)
Definition fuel_of s : nat := S (events (kernel s) + 6 * size (heap s)).

Definition reap : Wr unit := fuel ← reads_ fuel_of; reap_loop fuel.

Fixpoint drain_loop (fuel : nat) : Wr unit :=
  match fuel with
  | O => undefined
  | S fuel =>
      more ← reads_ (fun s => (0 <? pending_cqes_ s) && ring_ready_ s);
      if (more : bool) then
        ret ← ring wait_cqe_timeout;
        if ret =? - EINTR then drain_loop fuel
        else if ret <? 0 then recordFailure (DrainFailed (- ret))
        else reap ;; drain_loop fuel
      else mret tt
  end.

Definition drain : Wr unit := reap ;; fuel ← reads_ fuel_of; drain_loop fuel.

(** ** Appending *)

(** [io_uring_get_sqe], with one retry after flushing the queue. *)
Definition acquire_sqe : Wr sqe :=
  slot ← ring get_sqe;
  match slot with
  | Some slot => mret slot
  | None =>
      flushed ← ring submit;
      if flushed <? 0 then throw (RuntimeError "WAL: io_uring_submit failed while draining") else
      update (fun s => set_pending (u64 (pending_cqes_ s + flushed)) s) ;;
      reap ;;
      slot ← ring get_sqe;
      match slot with
      | Some slot => mret slot
      | None => throw (RuntimeError "WAL: io_uring submission queue full")
      end
  end.

Definition writeEntry (ty : WAL.Type_) (k v : str) : Wr Ticket :=
  failure ← reads_ failure_;
  if bool_decide (failure <> None) then throw (RuntimeError "WAL: refusing to write") else
  if (UINT32_MAX <? zlen k) || (UINT32_MAX <? zlen v)
  then throw (LengthError "WAL: key or value exceeds the 4 GiB limit") else
  hit "wal.before_append" ;;
  let data := WAL.encode (WAL.mkEntry ty k v) in
  let aligned_size := zlen data in
  ok ← sys memalign;
  if negb ok then throw (RuntimeError "WAL: memalign failed") else
  slot ← acquire_sqe;
  off ← reads_ write_offset_;
  update (set_offset (u64 (off + aligned_size))) ;;
  let x := mkPending data aligned_size off 1 in
  p ← alloc x;
  queue_write slot p x ;;
  submitted ← ring submit;
  if submitted <? 0 then
    ring_ (set_data slot None) ;;
    throw (RuntimeError "WAL: io_uring_submit failed")
  else
  update (fun s => set_pending (u64 (pending_cqes_ s + submitted)) s) ;;
  reap ;;
  ticket ← reads_ (fun s => mkTicket (epoch_ s) (write_offset_ s));
  hit "wal.after_append" ;;
  mret ticket.

Definition appendPut (k v : str) : Wr Ticket := writeEntry WAL.PUT k v.
Definition appendDel (k : str) : Wr Ticket := writeEntry WAL.DEL k [].

(** ** Durability *)

(** What the group-commit leader does without [sync_mu_]: the end of the log it
    has made stable, or the error. *)
Definition leader : Wr (option string * Z) :=
  drain ;;
  failure ← reads_ failure_;
  target ← reads_ write_offset_;
  fd ← reads_ fd_;
  if bool_decide (failure <> None) then mret (Some "write failed", target) else
  hit "wal.before_fdatasync" ;;
  update (fun s => set_stats (u64 (sync_calls_ s + 1)) (cancel_retries_ s) s) ;;
  injected ← shouldFail "wal.fdatasync_error";
  ok ← (if (injected : bool) then mret false else if (fd : bool) then sys fdatasync else mret false);
  if negb ok then mret (Some "fdatasync failed", target) else
  hit "wal.after_fdatasync" ;;
  mret (None, target).

(** [catch (...)] *)
Definition on_throw {A} (m h : Wr A) : Wr A := fun s f =>
  match m s f with
  | (Throw x, s, f) => match h s f with (Ok _, s, f) => (Throw x, s, f) | r => r end
  | r => r
  end.

Definition sync_flag (b : bool) : Wr unit := update (fun s => set_sync b (durable_end_ s) s).

(** Another thread's leadership is waited for; alone that wait never ends. *)
Fixpoint wait_loop (fuel : nat) (ticket : Ticket) : Wr unit :=
  match fuel with
  | O => undefined
  | S fuel =>
      s ← reads_ id;
      if negb (epoch ticket =? epoch_ s) then mret tt
      else if end_ ticket <=? durable_end_ s then mret tt
      else if sync_in_progress_ s then wait_loop fuel ticket
      else
        sync_flag true ;;
        '(error, target) ← on_throw leader (sync_flag false ;; mret (None, 0));
        sync_flag false ;;
        update (fun s' => if bool_decide (error = None) && (epoch_ s' =? epoch_ s)
                          then set_sync false (Z.max (durable_end_ s') target) s' else s') ;;
        match error with
        | Some what => throw (RuntimeError what)
        | None => wait_loop fuel ticket
        end
  end.

(** One leadership covers the whole log, so the second test succeeds. *)
Definition waitDurable (ticket : Ticket) : Wr unit := wait_loop 2 ticket.

Definition sync : Wr unit :=
  ticket ← reads_ (fun s => mkTicket (epoch_ s) (write_offset_ s)); waitDurable ticket.

Definition logPut (k v : str) : Wr unit :=
  ticket ← appendPut k v; d ← reads_ durability_; if (d : bool) then waitDurable ticket else mret tt.
Definition logDel (k : str) : Wr unit :=
  ticket ← appendDel k; d ← reads_ durability_; if (d : bool) then waitDurable ticket else mret tt.

(** ** Clearing, opening, closing *)

Definition clear : Wr unit :=
  busy ← reads_ sync_in_progress_;
  if (busy : bool) then undefined else
  update (set_sync false 0) ;;
  update (fun s => set_epoch (u64 (epoch_ s + 1)) s) ;;
  drain ;;
  ready ← reads_ ring_ready_;
  fd ← reads_ fd_;
  (if (ready : bool) then ring_ queue_exit ;; update (set_handles fd false) else mret tt) ;;
  update (set_handles false false) ;;
  failed ← sys remove_log;
  if (failed : bool) then throw (RuntimeError "WAL: failed to remove log during clear") else
  opened ← sys open_log;
  if negb opened then throw (RuntimeError "WAL: cannot reopen log after clear") else
  update (set_handles true false) ;;
  update (set_offset 0) ;;
  ok ← sys queue_init;
  if negb ok then
    update (set_handles false false) ;;
    throw (RuntimeError "WAL: failed to re-init io_uring after clear")
  else
  update (set_handles true true) ;;
  update (set_pending 0) ;;
  update (set_failure None).

(** [WAL::WAL] *)
Definition open (durable : bool) (r : R) : result (t R) :=
  let '(opened, r) := open_log r in
  if negb opened then Throw (RuntimeError "WAL: cannot open file with O_DIRECT") else
  let '(size, r) := stat_log r in
  match size with
  | None => Throw (RuntimeError "WAL: cannot stat log to establish write offset")
  | Some size =>
      let '(ok, r) := queue_init r in
      if negb ok then Throw (RuntimeError "WAL: failed to init io_uring") else
      Ok (mkWAL true durable false 0 0 0 0 true None 0 size ∅ 1 r)
  end.

(** [WAL::~WAL] *)
Definition close_ : Wr unit :=
  drain ;;
  fd ← reads_ fd_;
  _ ← (if (fd : bool) then sys fdatasync else mret true);
  ready ← reads_ ring_ready_;
  (if (ready : bool) then ring_ queue_exit ;; update (set_handles fd false) else mret tt).

Definition recover s : result (list WAL.Entry) :=
  WAL.recover (read_log (kernel s)) ((fun data => zlen data) <$> read_log (kernel s)) (reads (kernel s)).

End writer.

End WalWriter.
