(* ===== verification/WalDisk.v ===== *)
(** * The write-ahead log on disk

    What the log file and the requests in flight have to do with the records
    the writer has appended: every request rewrites the place of one record, the
    file is the image of the log with the missing records as holes, and no two
    requests share a buffer.  The kernel's own progress keeps all of it. *)

From S2P Require Import Prelude WalFormat Kernel WalWriter.
Open Scope Z_scope.

Module WalDisk.
Import WAL Kernel WalWriter.

(** ** Images of logs *)

Definition entry_of (x : slot) : Entry := match x with Written e | Lost e => e end.
Definition is_written (x : slot) : Prop := match x with Written _ => True | Lost _ => False end.

(** The file need not extend over missing records at its end. *)
Definition image (data : str) (l : list slot) : Prop :=
  exists l1 l2, l = l1 ++ l2 /\ data = log_bytes l1 /\ Forall (fun x => ~ is_written x) l2.

Lemma log_bytes_app l1 l2 : log_bytes (l1 ++ l2) = log_bytes l1 ++ log_bytes l2.
Proof. unfold log_bytes. by rewrite fmap_app, concat_app. Qed.

Lemma log_bytes_cons x l : log_bytes (x :: l) = slot_bytes x ++ log_bytes l.
Proof. done. Qed.

Lemma length_slot x : length (slot_bytes x) = length (encode (entry_of x)).
Proof. destruct x; simpl; [done|]. by rewrite length_replicate. Qed.

Lemma length_log l l' : entry_of <$> l = entry_of <$> l' -> length (log_bytes l) = length (log_bytes l').
Proof.
  revert l'. induction l as [|x l IH]; intros [|x' l']; [done..|]. rewrite !fmap_cons. intros [= He Hl].
  rewrite !log_bytes_cons, !length_app, !length_slot, He. by rewrite (IH l').
Qed.

Lemma log_bytes_lost l : Forall (fun x => ~ is_written x) l -> log_bytes l = replicate (length (log_bytes l)) x00.
Proof.
  induction 1 as [|x l Hx _ IH]; [done|]. rewrite log_bytes_cons, length_app, replicate_add.
  rewrite <- IH. destruct x as [e|e]; [by destruct Hx|]. simpl. by rewrite length_replicate.
Qed.

Lemma survivors_app l1 l2 : survivors (l1 ++ l2) = survivors l1 ++ survivors l2.
Proof. apply omap_app. Qed.

Lemma survivors_lost l : Forall (fun x => ~ is_written x) l -> survivors l = [].
Proof. induction 1 as [|[e|e] l Hx _ IH]; [done|by destruct Hx|done]. Qed.

Lemma survivors_written l : Forall is_written l -> survivors l = entry_of <$> l.
Proof. induction 1 as [|[e|e] l Hx _ IH]; [done| |done]. cbn. by rewrite <- IH. Qed.

Lemma survivors_sub l : survivors l `sublist_of` (entry_of <$> l).
Proof. induction l as [|[e|e] l IH]; cbn; [done|by apply sublist_skip|by apply sublist_cons]. Qed.

Lemma image_nil : image [] [].
Proof. by exists [], []. Qed.

(** What recovery reads from an image. *)
Lemma image_survivors data l :
  image data l -> exists l1, data = log_bytes l1 /\ survivors l1 = survivors l.
Proof.
  intros (l1 & l2 & -> & -> & Hl2). exists l1. split; [done|]. by rewrite survivors_app, (survivors_lost l2), app_nil_r.
Qed.

Lemma image_size data l : image data l -> zlen data <= zlen (log_bytes l).
Proof. intros (l1 & l2 & -> & -> & _). rewrite log_bytes_app, length_app. lia. Qed.

Lemma image_lost data l x : image data l -> ~ is_written x -> image data (l ++ [x]).
Proof.
  intros (l1 & l2 & -> & -> & Hl2) Hx. exists l1, (l2 ++ [x]). rewrite app_assoc. split_and!; [done..|].
  apply Forall_app. split; [done|]. by constructor.
Qed.

(** Writing a record at its place. *)
Lemma pwrite_spec data l1 l2 x :
  image data (l1 ++ x :: l2) ->
  image (pwrite (zlen (log_bytes l1)) (encode (entry_of x)) data) (l1 ++ Written (entry_of x) :: l2).
Proof.
  intros (a & b & Hab & -> & Hb). unfold pwrite. rewrite Nat2Z.id.
  set (n := length (log_bytes l1)). set (e := encode (entry_of x)).
  assert (length (slot_bytes x) = length e) as He by apply length_slot.
  destruct (decide (length l1 < length a)%nat) as [Hlt|Hge].
  - assert (exists a2, a = l1 ++ x :: a2 /\ l2 = a2 ++ b) as (a2 & -> & ->).
    { apply app_eq_app in Hab as (m & [[-> Hm]|[-> Hm]]).
      - rewrite length_app in Hlt. lia.
      - destruct m as [|y m]; [rewrite app_nil_r in Hlt; lia|]. injection Hm as <- ->. by exists m. }
    exists (l1 ++ Written (entry_of x) :: a2), b. rewrite <- app_assoc. split_and!; [done| |done].
    rewrite !log_bytes_app, !log_bytes_cons. cbn [slot_bytes]. fold e.
    unfold n. rewrite take_app_length, length_app, drop_app_add.
    replace (length (log_bytes l1) - _)%nat with 0%nat by lia. cbn [replicate app].
    by rewrite <- He, drop_app_length.
  - assert (exists c, l1 = a ++ c /\ b = c ++ x :: l2) as (c & -> & ->).
    { apply app_eq_app in Hab as (m & [[-> ->]|[-> Hm]]); [by exists m|].
      rewrite length_app in Hge. assert (m = []) as -> by (destruct m; [done|cbn in Hge; lia]).
      exists []. rewrite !app_nil_r. by split. }
    apply Forall_app in Hb as [Hc [_ Hl2]%Forall_cons].
    exists (a ++ c ++ [Written (entry_of x)]), l2. rewrite <- !app_assoc. split_and!; [done| |done].
    unfold n. rewrite !log_bytes_app, log_bytes_cons, length_app. cbn [slot_bytes]. fold e.
    rewrite take_ge by lia. f_equal. rewrite drop_ge by lia.
    replace (length (log_bytes a) + length (log_bytes c) - length (log_bytes a))%nat with (length (log_bytes c)) by lia.
    rewrite <- log_bytes_lost by done. done.
Qed.

Lemma length_encode_pos e : (0 < length (encode e))%nat.
Proof. pose proof (length_encode e). pose proof (align512_bounds (record_size (zlen (key e)) (zlen (value e)))). unfold record_size in *. lia. Qed.

(** ** Requests and places *)

Definition reqs {S} (k : kstate S) : list req := (k_sq k).*2 ++ (k_fly k).*1 ++ (k_cq k).*1.

(** [place l0 l1 i P q]: after the log [l0] of earlier lives, [q] writes the
    [i]-th record of this life, which has landed if [P]. *)
Definition place (l0 l1 : list slot) (i : nat) (P : Prop) (q : req) : Prop :=
  exists x, l1 !! i = Some x /\ r_off q = zlen (log_bytes (l0 ++ take i l1)) /\ r_data q = encode (entry_of x) /\
    zlen (r_data q) <= MAX_RW_COUNT /\ (P -> is_written x).

(** The object that owns the buffer of a request is alive. *)
Definition on_heap (h : gmap Z PendingWrite) (q : req) : Prop :=
  exists x, h !! r_buf q = Some x /\ buf x = r_data q /\ bytes x = zlen (r_data q) /\ offset x = r_off q /\
    1 <= attempts x /\ (r_tag q = None \/ r_tag q = Some (r_buf q)).

(** Records keep their places while more of them land. *)
Definition grows : list slot -> list slot -> Prop :=
  Forall2 (fun x y => entry_of x = entry_of y /\ (is_written x -> is_written y)).

#[export] Instance grows_po : PreOrder grows.
Proof.
  split.
  - intros l. induction l; by constructor.
  - intros l1 l2 l3 H. revert l3. induction H as [|x y l1 l2 [He Hw] _ IH]; intros l3 H3; inversion H3 as [|? z ? l3' [He' Hw']]; subst.
    + constructor.
    + constructor; [|by apply IH]. split; [congruence|auto].
Qed.

Lemma grows_entries l l' : grows l l' -> entry_of <$> l = entry_of <$> l'.
Proof. induction 1 as [|x y l l' [He _] _ IH]; [done|]. by rewrite !fmap_cons, He, IH. Qed.

Lemma grows_length l l' : grows l l' -> length l = length l'.
Proof. apply Forall2_length. Qed.

Lemma grows_lookup l l' i x :
  grows l l' -> l !! i = Some x -> exists y, l' !! i = Some y /\ entry_of y = entry_of x /\ (is_written x -> is_written y).
Proof. intros H Hi. destruct (Forall2_lookup_l _ _ _ _ _ H Hi) as (y & ? & ? & ?). by exists y. Qed.

Lemma grows_lost l l' i e : grows l l' -> l' !! i = Some (Lost e) -> l !! i = Some (Lost e).
Proof.
  intros H Hi. destruct (Forall2_lookup_r _ _ _ _ _ H Hi) as (x & Hx & He & Hw). rewrite Hx. f_equal.
  destruct x; simpl in *; [tauto|congruence].
Qed.

Lemma grows_size l0 l l' : grows l l' -> length (log_bytes (l0 ++ l)) = length (log_bytes (l0 ++ l')).
Proof. intros H. apply length_log. by rewrite !fmap_app, (grows_entries _ _ H). Qed.

Lemma grows_take l l' n : grows l l' -> grows (take n l) (take n l').
Proof. apply Forall2_take. Qed.

Lemma grows_written l i x : l !! i = Some x -> grows l (<[i := Written (entry_of x)]> l).
Proof.
  revert i. induction l as [|y l IH]; intros [|i] Hi; [done..| |]; simpl in *.
  - injection Hi as ->. constructor; [done|]. change (grows l l). reflexivity.
  - constructor; [done|]. by apply IH.
Qed.

(** Records landed and records were appended. *)
Definition extends (l l' : list slot) : Prop := exists l1 l2, grows l l1 /\ l' = l1 ++ l2.

Lemma grows_extends l l' : grows l l' -> extends l l'.
Proof. intros Hg. exists l', []. by rewrite app_nil_r. Qed.

Lemma extends_snoc l x : extends l (l ++ [x]).
Proof. by exists l, [x]. Qed.

#[export] Instance extends_po : PreOrder extends.
Proof.
  split; [intros l; by apply grows_extends|]. intros l1 l2 l3 (m1 & n1 & H1 & ->) (m2 & n2 & H2 & ->).
  apply Forall2_app_inv_l in H2 as (m3 & n3 & H3 & H4 & ->). exists m3, (n3 ++ n2). split; [by etrans|by rewrite <- app_assoc].
Qed.

Lemma extends_length l l' : extends l l' -> (length l <= length l')%nat.
Proof. intros (m & n & ->%grows_length & ->). rewrite length_app. lia. Qed.

Lemma extends_take l l' i : extends l l' -> (i <= length l)%nat -> grows (take i l) (take i l').
Proof.
  intros (m & n & Hg & ->) Hi. rewrite take_app_le by (by rewrite <- (grows_length _ _ Hg)). by apply grows_take.
Qed.

Lemma grows_all_written l l' : grows l l' -> Forall is_written l -> Forall is_written l'.
Proof.
  intros Hg Hw. apply Forall_lookup. intros i [e|e] Hx; [done|].
  pose proof (grows_lost _ _ _ _ Hg Hx) as Hx'. by eapply Forall_lookup_1 in Hx'.
Qed.

Lemma place_grows l0 l1 l1' i P q : grows l1 l1' -> place l0 l1 i P q -> place l0 l1' i P q.
Proof.
  intros Hg (x & Hi & Ho & Hd & Hm & HP). destruct (grows_lookup _ _ _ _ Hg Hi) as (y & Hy & He & Hw).
  exists y. split_and!; [done| |congruence|done|tauto]. rewrite Ho. f_equal. by apply grows_size, grows_take.
Qed.

Lemma place_app l0 l1 l2 i P q : place l0 l1 i P q -> place l0 (l1 ++ l2) i P q.
Proof.
  intros (x & Hi & Ho & Hrest). exists x. split_and!; [by apply lookup_app_l_Some| |apply Hrest..].
  rewrite take_app_le; [done|]. apply lookup_lt_Some in Hi. lia.
Qed.

Lemma place_weaken l0 l1 i (P Q : Prop) q : (Q -> P) -> place l0 l1 i P q -> place l0 l1 i Q q.
Proof. intros HPQ (x & ? & ? & ? & ? & ?). exists x. tauto. Qed.

Lemma log_bytes_take_lt (l : list slot) i j x : l !! i = Some x -> (i < j)%nat -> (length (log_bytes (take i l)) < length (log_bytes (take j l)))%nat.
Proof.
  intros Hi Hj. rewrite <- (take_drop_middle l i x Hi) at 2.
  assert (length (take i l) = i) as Hl by (rewrite length_take; apply lookup_lt_Some in Hi; lia).
  rewrite take_app_ge by lia. rewrite Hl. replace (j - i)%nat with (S (j - i - 1)) by lia. cbn [take].
  rewrite log_bytes_app, log_bytes_cons, !length_app, length_slot. pose proof (length_encode_pos (entry_of x)). lia.
Qed.

Lemma place_inj l0 l1 i j P Q q : place l0 l1 i P q -> place l0 l1 j Q q -> i = j.
Proof.
  intros (x & Hi & Ho & _) (y & Hj & Ho' & _). rewrite Ho, !log_bytes_app, !length_app in Ho'.
  destruct (Nat.lt_trichotomy i j) as [Hlt|[Heq|Hlt]]; [|done|].
  - pose proof (log_bytes_take_lt l1 i j x Hi Hlt). lia.
  - pose proof (log_bytes_take_lt l1 j i y Hj Hlt). lia.
Qed.

(** ** The invariant of file and requests *)

Record kinv {S} (h : gmap Z PendingWrite) (lossless : Prop) (k : kstate S) (l0 l1 : list slot) : Prop := {
  ki_file : exists data, k_file k = Some data /\ image data (l0 ++ l1);
  ki_heap : Forall (on_heap h) (reqs k);
  ki_nodup : NoDup (r_buf <$> reqs k);
  ki_sq : Forall (fun x => exists i, place l0 l1 i False x.2) (k_sq k);
  ki_fly : Forall (fun x => exists i, place l0 l1 i (x.2 = true) x.1) (k_fly k);
  ki_cq : Forall (fun x => exists i, place l0 l1 i (x.2 = zlen (r_data x.1)) x.1) (k_cq k);
  ki_res : Forall (fun x => x.2 <= zlen (r_data x.1)) (k_cq k);
  ki_full : k_reliable k = true -> Forall (fun x => x.2 = zlen (r_data x.1)) (k_cq k);
  (** While nothing has failed, a record that is missing is being written. *)
  ki_live : k_accepts k = true -> lossless -> forall i e, l1 !! i = Some (Lost e) ->
    exists q, q ∈ reqs k /\ place l0 l1 i False q;
  ki_tag : k_accepts k = true -> Forall (fun q => r_tag q = Some (r_buf q)) (reqs k);
  ki_apart : NoDup (r_off <$> reqs k);
  (** Every request is written in one piece. *)
  ki_whole : Forall (fun q => zlen (r_data q) <= k_limit k) (reqs k)
}.

Lemma reqs_perm {S} (k : kstate S) A x B res :
  k_fly k = A ++ x :: B -> reqs (set_rings (k_sq k) (A ++ B) (k_cq k ++ [(x.1, res)]) k) ≡ₚ reqs k.
Proof.
  intros Hf. unfold reqs. cbn. rewrite Hf, !fmap_app, !fmap_cons. cbn.
  rewrite <- !app_assoc. do 2 f_equiv. cbn. rewrite (Permutation_middle B.*1). f_equiv.
  by rewrite Permutation_app_comm.
Qed.

Lemma reqs_land {S} (k : kstate S) A q b b' B f :
  k_fly k = A ++ (q, b) :: B -> reqs (set_file f (set_rings (k_sq k) (A ++ (q, b') :: B) (k_cq k) k)) = reqs k.
Proof. intros Hf. unfold reqs. cbn. by rewrite Hf, !fmap_app, !fmap_cons. Qed.

Lemma kinv_step {S} h (X : Prop) (k k1 : kstate S) l0 l1 :
  kstep k k1 -> kinv h X k l0 l1 -> exists l1', grows l1 l1' /\ kinv h X k1 l0 l1'.
Proof.
  intros Hstep [Hfile Hheap Hnd Hsq Hfly Hcq Hres' Hfull Hlive Htag Hapart Hwhole].
  destruct Hstep as [A q b B k f Hf Hk _|A q b B k f n Hf _ Hlong|A q b B k Hf Hk|A q b B k res Hf Hres Hb Hr].
  - pose proof Hfly as Hq. rewrite Hf in Hq. apply Forall_app in Hq as [HA [(i & x & Hi & Ho & Hd & Hm & _) HB]%Forall_cons].
    cbn [fst snd] in *. set (l1' := <[i := Written (entry_of x)]> l1). pose proof (grows_written _ _ _ Hi : grows l1 l1') as Hg.
    exists l1'. split; [done|]. destruct Hfile as (data & Hdata & Himg). rewrite Hk in Hdata. injection Hdata as ->.
    split; rewrite ?(reqs_land k A q b true B) by done; cbn [k_file k_sq k_fly k_cq k_accepts k_reliable set_file set_rings].
    + eexists. split; [done|]. rewrite Ho, Hd.
      assert (l0 ++ l1 = (l0 ++ take i l1) ++ x :: drop (Datatypes.S i) l1) as Hl.
      { rewrite <- app_assoc. f_equal. symmetry. by apply take_drop_middle. }
      rewrite Hl in Himg. apply pwrite_spec in Himg. rewrite <- app_assoc in Himg.
      unfold l1'. rewrite insert_take_drop by (by eapply lookup_lt_Some). done.
    + done.
    + done.
    + eapply Forall_impl; [exact Hsq|]. intros y [j Hj]. exists j. by eapply place_grows.
    + apply Forall_app. split; [|constructor].
      * eapply Forall_impl; [exact HA|]. intros y [j Hj]. exists j. by eapply place_grows.
      * exists i. exists (Written (entry_of x)). unfold l1'. rewrite list_lookup_insert_eq by (by eapply lookup_lt_Some).
        split_and!; [done| |done|done|done]. cbn [fst]. rewrite Ho. f_equal. by apply grows_size, grows_take.
      * eapply Forall_impl; [exact HB|]. intros y [j Hj]. exists j. by eapply place_grows.
    + eapply Forall_impl; [exact Hcq|]. intros y [j Hj]. exists j. by eapply place_grows.
    + done.
    + done.
    + intros Ha HX j e Hj. destruct (Hlive Ha HX j e (grows_lost _ _ _ _ Hg Hj)) as (q' & Hin & Hp).
      exists q'. split; [done|by eapply place_grows].
    + done.
    + done.
    + done.
  - exfalso. assert (q ∈ reqs k) as Hq.
    { unfold reqs. rewrite Hf, fmap_app, fmap_cons. set_solver. }
    rewrite Forall_forall in Hwhole. specialize (Hwhole q Hq). cbv beta in Hwhole. lia.
  - destruct Hfile as (data & Hdata & _). congruence.
  - exists l1. split; [done|]. pose proof (reqs_perm k A (q, b) B res Hf) as Hp. cbn [fst] in Hp.
    rewrite Hf in Hfly. apply Forall_app in Hfly as [HA [Hq HB]%Forall_cons]. cbn [fst snd] in Hq.
    split; cbn [k_file k_sq k_fly k_cq k_accepts k_reliable set_rings]; [done|by rewrite Hp|by rewrite Hp|done| | | | | |by rewrite Hp|by rewrite Hp|by rewrite Hp].
    + by apply Forall_app.
    + apply Forall_app. split; [done|]. constructor; [|done]. destruct Hq as [i Hi]. exists i. cbn [fst snd].
      eapply place_weaken; [|exact Hi]. intros ->. apply Hb; [|done]. by destruct Hi as (? & _ & _ & _ & ? & _).
    + apply Forall_app. split; [done|]. by constructor.
    + intros Hrel. apply Forall_app. split; [by apply Hfull|]. constructor; [|done]. cbn. apply Hr; [done|].
      by destruct Hq as (? & ? & _ & _ & _ & ? & _).
    + intros Ha HX i e Hi. destruct (Hlive Ha HX i e Hi) as (q' & Hin & Hq'). exists q'. split; [|done]. by rewrite Hp.
Qed.

Lemma kinv_steps {S} h (X : Prop) (k k1 : kstate S) l0 l1 :
  ksteps k k1 -> kinv h X k l0 l1 -> exists l1', grows l1 l1' /\ kinv h X k1 l0 l1'.
Proof.
  intros Hs. revert l1. induction Hs as [k|k k1 k2 H1 _ IH]; intros l1 Hi; [by exists l1|].
  destruct (kinv_step _ _ _ _ _ _ H1 Hi) as (l1' & Hg & Hi'). destruct (IH _ Hi') as (l1'' & Hg' & Hi'').
  exists l1''. split; [by etrans|done].
Qed.

(** ** What the calls do to it *)

Lemma kinv_weaken {S} h (X Y : Prop) (k : kstate S) l0 l1 : (Y -> X) -> kinv h X k l0 l1 -> kinv h Y k l0 l1.
Proof. intros HXY [? ? ? ? ? ? ? ? Hlive ? ? ?]. split; [done..| |done|done|done]. intros Ha HY. apply Hlive; auto. Qed.

(** The kernel touches neither the submission queue nor old completions. *)
Definition set_sq {S} sq (k : kstate S) : kstate S := set_rings sq (k_fly k) (k_cq k) k.
Definition drop_cq {S} (k : kstate S) : kstate S := set_rings (k_sq k) (k_fly k) (tail (k_cq k)) k.

Lemma kstep_sq {S} sq (k k1 : kstate S) : kstep k k1 -> kstep (set_sq sq k) (set_sq sq k1).
Proof.
  destruct 1 as [A q b B k f Hf Hk Hm|A q b B k f n Hf Hk Hm|A q b B k Hf Hk|A q b B k res Hf Hres Hb Hr].
  - by apply (step_land A q b B (set_sq sq k) f).
  - by apply (step_land_part A q b B (set_sq sq k) f n).
  - by apply (step_land_gone A q b B (set_sq sq k)).
  - by apply (step_complete A q b B (set_sq sq k) res).
Qed.

Lemma ksteps_sq {S} sq (k k1 : kstate S) : ksteps k k1 -> ksteps (set_sq sq k) (set_sq sq k1).
Proof. induction 1 as [k|k k1 k2 H _ IH]; [apply rtc_refl|]. eapply rtc_l; [by apply kstep_sq|done]. Qed.

Lemma kstep_drop {S} (k k1 : kstate S) x l :
  kstep k k1 -> k_cq k = x :: l -> kstep (drop_cq k) (drop_cq k1) /\ exists l', k_cq k1 = x :: l'.
Proof.
  unfold drop_cq. destruct 1 as [A q b B k f Hf Hk Hm|A q b B k f n Hf Hk Hm|A q b B k Hf Hk|A q b B k res Hf Hres Hb Hr]; intros Hc.
  - split; [by apply (step_land A q b B (drop_cq k) f)|by exists l].
  - split; [by apply (step_land_part A q b B (drop_cq k) f n)|by exists l].
  - split; [by apply (step_land_gone A q b B (drop_cq k))|by exists l].
  - cbn. rewrite Hc. split; [|by eexists]. cbn [app tail].
    pose proof (step_complete A q b B (drop_cq k) res Hf Hres Hb Hr) as H. unfold drop_cq in H. cbn in H. by rewrite Hc in H.
Qed.

Lemma ksteps_drop {S} (k k1 : kstate S) x l :
  ksteps k k1 -> k_cq k = x :: l -> ksteps (drop_cq k) (drop_cq k1) /\ exists l', k_cq k1 = x :: l'.
Proof.
  intros H. revert l. induction H as [k|k k1 k2 H _ IH]; intros l Hc; [split; [apply rtc_refl|by exists l]|].
  destruct (kstep_drop _ _ _ _ H Hc) as [Hd [l' Hl']]. destruct (IH _ Hl') as [Hd' Hl'']. split; [by eapply rtc_l|done].
Qed.

Lemma reqs_drop {S} (k : kstate S) q res l : k_cq k = (q, res) :: l -> reqs k ≡ₚ q :: reqs (drop_cq k).
Proof. intros Hc. unfold reqs. cbn. rewrite Hc. cbn. rewrite !app_assoc. by rewrite Permutation_middle. Qed.

Lemma drop_events {S} (k : kstate S) x l : k_cq k = x :: l -> pending_events k = Datatypes.S (pending_events (drop_cq k)).
Proof. intros Hc. unfold pending_events, drop_cq. cbn. rewrite Hc. cbn. lia. Qed.

(** A finished request leaves; its object dies with it. *)
Lemma kinv_drop {S} h h' (X Y : Prop) (k : kstate S) l0 l1 q res l :
  kinv h X k l0 l1 -> k_cq k = (q, res) :: l -> (k_accepts k = true -> Y -> X /\ res = zlen (r_data q)) ->
  (forall p, p <> r_buf q -> h' !! p = h !! p) -> kinv h' Y (drop_cq k) l0 l1.
Proof.
  intros [Hfile Hheap Hnd Hsq Hfly Hcq Hres' Hfull Hlive Htag Hapart Hwhole] Hc HY Hh'. pose proof (reqs_drop k q res l Hc) as Hp.
  rewrite Hp in Hheap, Hnd, Htag, Hapart, Hwhole. rewrite fmap_cons in Hnd, Hapart.
  apply NoDup_cons in Hnd as [Hnew Hnd]. apply NoDup_cons in Hapart as [_ Hapart].
  apply Forall_cons in Hheap as [_ Hheap]. rewrite Hc in Hcq. apply Forall_cons in Hcq as [[i Hi] Hcq].
  split; cbn [drop_cq set_rings k_file k_sq k_fly k_cq k_accepts k_reliable].
  - done.
  - rewrite Forall_forall in Hheap |- *. intros q' Hq'. destruct (Hheap q' Hq') as (x & Hx & Hrest). exists x.
    split; [|done]. rewrite Hh'; [done|]. intros E. apply Hnew. rewrite <- E. by apply list_elem_of_fmap_2.
  - done.
  - done.
  - done.
  - by rewrite Hc.
  - rewrite Hc in Hres' |- *. by apply Forall_cons in Hres' as [_ ?].
  - intros Hr. specialize (Hfull Hr). rewrite Hc in Hfull |- *. by apply Forall_cons in Hfull as [_ ?].
  - intros Ha [HX ->]%(HY Ha) j e Hj. destruct (Hlive Ha HX j e Hj) as (q' & Hq' & Hpl). rewrite Hp in Hq'.
    apply elem_of_cons in Hq' as [->|Hq']; [|by exists q']. exfalso.
    pose proof (place_inj _ _ _ _ _ _ _ Hpl Hi) as ->. destruct Hi as (x & Hx & _ & _ & _ & Hw).
    rewrite Hj in Hx. injection Hx as <-. by apply Hw.
  - intros Ha. specialize (Htag Ha). by apply Forall_cons in Htag as [_ ?].
  - done.
  - by apply Forall_cons in Hwhole as [_ ?].
Qed.

(** A request enters the submission queue. *)
Lemma kinv_push {S} h h' (X : Prop) (k : kstate S) l0 l1 l1' slot q i :
  kinv h False k l0 l1 -> (exists l2, l1' = l1 ++ l2 /\ Forall (fun x => ~ is_written x) l2) ->
  (forall q', q' ∈ reqs k -> on_heap h' q') -> on_heap h' q -> r_tag q = Some (r_buf q) ->
  r_buf q ∉ r_buf <$> reqs k -> r_off q ∉ r_off <$> reqs k -> zlen (r_data q) <= k_limit k -> place l0 l1' i False q ->
  (k_accepts k = true -> X -> forall j e, l1' !! j = Some (Lost e) -> exists q', q' ∈ q :: reqs k /\ place l0 l1' j False q') ->
  kinv h' X (set_sq (k_sq k ++ [(slot, q)]) k) l0 l1'.
Proof.
  intros [Hfile _ Hnd Hsq Hfly Hcq Hres' Hfull _ Htag Hapart Hwhole] (l2 & -> & Hl2) Hheap' Hq Hqt Hbuf Hoff Hlim Hpl Hlive.
  set (k' := set_sq _ k).
  assert (reqs k' ≡ₚ q :: reqs k) as Hp.
  { unfold reqs, k'. cbn. rewrite fmap_app, <- app_assoc. cbn. symmetry. apply Permutation_middle. }
  split; cbn [k' set_sq set_rings k_file k_sq k_fly k_cq k_accepts k_reliable].
  - destruct Hfile as (data & ? & Himg). exists data. split; [done|]. clear -Himg Hl2. revert l1 Himg.
    induction Hl2 as [|x l2 Hx _ IH]; intros l1 Himg; [by rewrite app_nil_r|].
    replace (l1 ++ x :: l2) with ((l1 ++ [x]) ++ l2) by (by rewrite <- app_assoc). apply IH. rewrite app_assoc.
    by apply image_lost.
  - rewrite Hp. constructor; [done|]. apply Forall_forall. auto.
  - rewrite Hp, fmap_cons. by constructor.
  - apply Forall_app. split; [|constructor; [by exists i|done]]. eapply Forall_impl; [exact Hsq|]. intros x [j ?].
    exists j. by apply place_app.
  - eapply Forall_impl; [exact Hfly|]. intros x [j ?]. exists j. by apply place_app.
  - eapply Forall_impl; [exact Hcq|]. intros x [j ?]. exists j. by apply place_app.
  - done.
  - done.
  - intros Ha HX j e Hj. destruct (Hlive Ha HX j e Hj) as (q' & Hin & ?). exists q'. by rewrite Hp.
  - intros Ha. rewrite Hp. constructor; [done|]. by apply Htag.
  - rewrite Hp, fmap_cons. by constructor.
  - rewrite Hp. by constructor.
Qed.

(** Submitting moves entries on. *)
Lemma kinv_submit {S} h (X : Prop) (k : kstate S) l0 l1 n :
  kinv h X k l0 l1 ->
  kinv h X (set_rings (drop n (k_sq k)) (k_fly k ++ ((fun x => (x.2, false)) <$> take n (k_sq k))) (k_cq k) k) l0 l1.
Proof.
  intros [Hfile Hheap Hnd Hsq Hfly Hcq Hres' Hfull Hlive Htag Hapart Hwhole]. set (k' := set_rings _ _ _ k).
  assert (reqs k' ≡ₚ reqs k) as Hp.
  { unfold reqs, k'. cbn. rewrite fmap_app, <- list_fmap_compose. change (fst ∘ _) with (fun x : S * req => x.2).
    rewrite <- (take_drop n (k_sq k)) at 3. rewrite fmap_app. change (fmap (fun x : S * req => x.2)) with (fmap (FMap := list_fmap) (snd (A := S) (B := req))).
    rewrite !app_assoc. f_equiv. rewrite <- !app_assoc. rewrite (Permutation_app_comm (k_fly k).*1). rewrite !app_assoc. f_equiv.
    by rewrite Permutation_app_comm. }
  rewrite <- (take_drop n (k_sq k)) in Hsq. apply Forall_app in Hsq as [Ht Hd].
  split; cbn [k' set_rings k_file k_sq k_fly k_cq k_accepts k_reliable]; rewrite ?Hp; try done.
  - apply Forall_app. split; [done|]. apply Forall_fmap. eapply Forall_impl; [exact Ht|]. intros x [i Hi]. exists i. cbn.
    by eapply place_weaken; [|exact Hi].
  - intros Ha HX i e Hi. destruct (Hlive Ha HX i e Hi) as (q & ? & ?). exists q. by rewrite Hp.
Qed.

(** Detaching the last entry from its object. *)
Lemma kinv_detach {S} h (X : Prop) (k : kstate S) l0 l1 l slot q :
  kinv h X k l0 l1 -> k_accepts k = false -> k_sq k = l ++ [(slot, q)] ->
  kinv h X (set_sq (l ++ [(slot, mkReq (r_buf q) (r_data q) (r_off q) None)]) k) l0 l1.
Proof.
  intros [Hfile Hheap Hnd Hsq Hfly Hcq Hres' Hfull Hlive Htag Hapart Hwhole] Ha Hl. set (q' := mkReq _ _ _ None). set (k' := set_sq _ k).
  assert (forall A (g : req -> A), g q' = g q -> g <$> reqs k' = g <$> reqs k) as Hmap.
  { intros A g Hg. unfold reqs, k'. cbn [set_sq set_rings k_sq k_fly k_cq]. rewrite Hl, !fmap_app. do 2 f_equal. cbn. by rewrite Hg. }
  assert (reqs k ≡ₚ q :: (l.*2 ++ (k_fly k).*1 ++ (k_cq k).*1)) as Hp.
  { unfold reqs. rewrite Hl, fmap_app, <- app_assoc. cbn. symmetry. apply Permutation_middle. }
  assert (reqs k' ≡ₚ q' :: (l.*2 ++ (k_fly k).*1 ++ (k_cq k).*1)) as Hp'.
  { unfold reqs, k'. cbn. rewrite fmap_app, <- app_assoc. cbn. symmetry. apply Permutation_middle. }
  split; cbn [k' set_sq set_rings k_file k_sq k_fly k_cq k_accepts k_reliable]; try done; try (by intros; congruence).
  - rewrite Hp in Hheap. rewrite Hp'. apply Forall_cons in Hheap as [Hq Hrest]. constructor; [|done].
    destruct Hq as (x & ? & ? & ? & ? & ? & _). exists x. split_and!; auto.
  - by rewrite Hmap.
  - rewrite Hl in Hsq. apply Forall_app in Hsq as [? [[i Hi] _]%Forall_cons]. apply Forall_app. split; [done|].
    constructor; [|done]. by exists i.
  - by rewrite Hmap.
  - rewrite Hp in Hwhole. rewrite Hp'. apply Forall_cons in Hwhole as [? ?]. by constructor.
Qed.

Lemma reqs_place {S} h (X : Prop) (k : kstate S) l0 l1 q : kinv h X k l0 l1 -> q ∈ reqs k -> exists i P, place l0 l1 i P q.
Proof.
  intros Hi Hq. pose proof (ki_sq _ _ _ _ _ Hi) as H1. pose proof (ki_fly _ _ _ _ _ Hi) as H2. pose proof (ki_cq _ _ _ _ _ Hi) as H3.
  rewrite Forall_forall in H1. rewrite Forall_forall in H2. rewrite Forall_forall in H3. unfold reqs in Hq.
  apply elem_of_app in Hq as [Hq|Hq]; [|apply elem_of_app in Hq as [Hq|Hq]];
    apply list_elem_of_fmap in Hq as (z & -> & Hz).
  - destruct (H1 z Hz) as [i ?]. by eexists i, _.
  - destruct (H2 z Hz) as [i ?]. by eexists i, _.
  - destruct (H3 z Hz) as [i ?]. by eexists i, _.
Qed.

Lemma place_before l0 l1 i P q : place l0 l1 i P q -> r_off q < zlen (log_bytes (l0 ++ l1)).
Proof.
  intros (x & Hx & -> & _). rewrite !log_bytes_app, !length_app.
  pose proof (log_bytes_take_lt l1 i (length l1) x Hx ltac:(by apply lookup_lt_Some in Hx)) as Hlt.
  rewrite (firstn_all l1) in Hlt. lia.
Qed.

(** Requests are at different places, so there are no more of them than records. *)
Lemma reqs_bound {S} h (X : Prop) (k : kstate S) l0 l1 : kinv h X k l0 l1 -> (length (reqs k) <= length l1)%nat.
Proof.
  intros Hi. pose proof (ki_apart _ _ _ _ _ Hi) as Hnd.
  assert (forall o, o ∈ r_off <$> reqs k -> o ∈ (fun i => zlen (log_bytes (l0 ++ take i l1))) <$> seq 0 (length l1)) as Hsub.
  { intros o Ho. apply list_elem_of_fmap in Ho as (q & -> & Hq).
    destruct (reqs_place _ _ _ _ _ _ Hi Hq) as (i & P & x & Hx & Hoff & _).
    rewrite Hoff. apply (list_elem_of_fmap_2 (fun i => zlen (log_bytes (l0 ++ take i l1)))). apply elem_of_seq. apply lookup_lt_Some in Hx. lia. }
  apply NoDup_submseteq in Hsub; [|done]. apply submseteq_length in Hsub. by rewrite !length_fmap, length_seq in Hsub.
Qed.

Lemma log_bytes_count l : (length l <= length (log_bytes l))%nat.
Proof.
  induction l as [|x l IH]; [done|]. rewrite log_bytes_cons, length_app, length_slot. cbn [length].
  pose proof (length_encode_pos (entry_of x)). lia.
Qed.

(** Nothing in flight: every record has landed. *)
Lemma kinv_all_written {S} h (k : kstate S) l0 l1 :
  kinv h True k l0 l1 -> k_accepts k = true -> reqs k = [] -> Forall is_written l1.
Proof.
  intros Hi Ha Hr. apply Forall_lookup. intros i [e|e] Hx; [done|].
  destruct (ki_live _ _ _ _ _ Hi Ha I i e Hx) as (q & Hq & _). rewrite Hr in Hq. by apply not_elem_of_nil in Hq.
Qed.

(** ** Landed records *)

(** The first [n] records of this life have landed and [data] holds them. *)
Definition synced (l0 l1 : list slot) (n : nat) (data : str) : Prop :=
  (n <= length l1)%nat /\ forall i x, (i < n)%nat -> l1 !! i = Some x ->
    is_written x /\ slice (zlen (log_bytes (l0 ++ take i l1))) (zlen (encode (entry_of x))) data = encode (entry_of x).

Lemma synced_grows l0 l1 l1' n data : synced l0 l1 n data -> grows l1 l1' -> synced l0 l1' n data.
Proof.
  intros [Hn Hs] Hg. split; [by rewrite <- (grows_length _ _ Hg)|]. intros i y Hi Hy.
  destruct (Forall2_lookup_r _ _ _ _ _ Hg Hy) as (x & Hx & He & Hw). destruct (Hs i x Hi Hx) as [Hxw Hxs].
  split; [by apply Hw|]. rewrite <- He. rewrite <- (grows_size l0 (take i l1) (take i l1') (grows_take _ _ _ Hg)). done.
Qed.

(** A record that has landed is in every image of the log. *)
Lemma image_slot l0 l1 data i x :
  image data (l0 ++ l1) -> l1 !! i = Some x -> is_written x ->
  slice (zlen (log_bytes (l0 ++ take i l1))) (zlen (encode (entry_of x))) data = encode (entry_of x).
Proof.
  intros (a & b & Hab & -> & Hb) Hx Hw.
  assert (exists b', a = (l0 ++ take i l1) ++ x :: b') as (b' & ->).
  { assert ((a ++ b) !! (length l0 + i)%nat = Some x) as Hi.
    { rewrite <- Hab, lookup_app_r by lia. by replace (length l0 + i - length l0)%nat with i by lia. }
    destruct (decide (length l0 + i < length a)%nat) as [Hlt|Hge].
    - exists (drop (S (length l0 + i)) a). rewrite <- (take_drop_middle a (length l0 + i) x) at 1 by (by rewrite lookup_app_l in Hi).
      f_equal. rewrite <- (take_app_le a b) by lia. rewrite <- Hab, take_app_ge by lia. do 2 f_equal. lia.
    - rewrite lookup_app_r in Hi by lia. eapply Forall_lookup_1 in Hb; [|exact Hi]. done. }
  rewrite (log_bytes_app (l0 ++ take i l1)), log_bytes_cons. assert (slot_bytes x = encode (entry_of x)) as -> by by destruct x.
  by apply slice_app_mid.
Qed.

Lemma synced_upto l0 l1 data m :
  image data (l0 ++ l1) -> (m <= length l1)%nat -> Forall is_written (take m l1) -> synced l0 l1 m data.
Proof.
  intros Himg Hm Hw. split; [done|]. intros i x Hi Hx. assert (is_written x) as Hxw.
  { eapply Forall_lookup_1 in Hw; [exact Hw|]. by rewrite lookup_take_lt. }
  split; [done|]. by apply image_slot.
Qed.

Lemma synced_prefix l0 l1 n data : synced l0 l1 n data -> Forall is_written (take n l1).
Proof.
  intros [Hn Hs]. apply Forall_lookup. intros i x Hx. apply lookup_take_Some in Hx as [Hx Hi]. by apply (Hs i x).
Qed.

Lemma log_take_mono l0 l1 i j : (i <= j)%nat -> zlen (log_bytes (l0 ++ take i l1)) <= zlen (log_bytes (l0 ++ take j l1)).
Proof.
  intros Hij. rewrite !log_bytes_app, !length_app. rewrite <- (take_drop i (take j l1)), log_bytes_app, length_app, take_take, Nat.min_l by lia. lia.
Qed.

(** How long the log is decides how many records it has. *)
Lemma log_take_le l0 l1 i j :
  (i <= length l1)%nat -> zlen (log_bytes (l0 ++ take i l1)) <= zlen (log_bytes (l0 ++ take j l1)) -> (i <= j)%nat.
Proof.
  intros Hi Hle. destruct (decide (i <= j)%nat); [done|]. exfalso.
  assert (is_Some (l1 !! j)) as [x Hx] by (apply lookup_lt_is_Some; lia).
  pose proof (log_bytes_take_lt l1 j i x Hx ltac:(lia)). rewrite !log_bytes_app, !length_app in Hle. lia.
Qed.

End WalDisk.
