(* ===== verification/WalWriterSpec.v ===== *)
(** * The write-ahead log: what the writer guarantees

    The invariant of the writer over the kernel's abstract state, each operation
    against it, and from them the interface [LogSpec] the engine's theorems rely
    on. *)

From S2P Require Import Prelude WalFormat Fault Kernel LogSpec WalWriter WalDisk.
Open Scope Z_scope.

Module WalWriterSpec.
Import WAL Kernel WalWriter WalDisk.

(** ** Resubmissions left *)

Definition tries_left (x : PendingWrite) : nat := Nat.min 6 (Z.to_nat (6 - attempts x)).
Definition retries (h : gmap Z PendingWrite) : nat := map_fold (fun _ x n => (tries_left x + n)%nat) 0%nat h.

Lemma retries_delete h p x : h !! p = Some x -> retries h = (tries_left x + retries (delete p h))%nat.
Proof.
  intros Hp. unfold retries. rewrite (map_fold_delete_L _ _ p x h); [done| |done].
  intros. lia.
Qed.

Lemma retries_insert h p x : h !! p = None -> retries (<[p := x]> h) = (tries_left x + retries h)%nat.
Proof. intros Hp. unfold retries. rewrite map_fold_insert_L; [done| |done]. intros. lia. Qed.

Lemma retries_update h p x y :
  h !! p = Some x -> (retries (<[p := y]> h) + tries_left x = tries_left y + retries h)%nat.
Proof.
  intros Hp. rewrite <- insert_delete_eq, retries_insert by apply lookup_delete_eq.
  rewrite (retries_delete h p x Hp). lia.
Qed.

Lemma retries_bound h : (retries h <= 6 * size h)%nat.
Proof.
  induction h as [|p x h Hp IH] using map_ind; [done|]. rewrite retries_insert, map_size_insert_None by done.
  unfold tries_left. lia.
Qed.

(** ** Reasoning about a run *)

Section spec.
Context {R : Type} `{!Uring R} `{!UringSpec R}.
Implicit Types (s : t R) (f : Fault.state) (k kv : kstate sqe).

Definition wpr {A} (m : Wr A) (Q : result A -> t R -> Fault.state -> Prop) s f : Prop :=
  Q (m s f).1.1 (m s f).1.2 (m s f).2.

Definition afterr {A B} (g : A -> Wr B) (Q : result B -> t R -> Fault.state -> Prop) (r : result A) s f : Prop :=
  match r with
  | Ok a => wpr (g a) Q s f
  | Throw x => Q (Throw x) s f
  | Crashed => Q Crashed s f
  | Undefined => Q Undefined s f
  end.

Lemma wpr_ret {A} (a : A) (Q : result A -> t R -> Fault.state -> Prop) s f : Q (Ok a) s f -> wpr (mret a) Q s f.
Proof. done. Qed.

Lemma wpr_bind {A B} (m : Wr A) (g : A -> Wr B) Q s f : wpr m (afterr g Q) s f -> wpr (m ≫= g) Q s f.
Proof. unfold wpr, mbind, Wr_bind. by destruct (m s f) as [[[a|x| |] s1] f1]. Qed.

Lemma wpr_mono {A} (m : Wr A) (P Q : result A -> t R -> Fault.state -> Prop) s f :
  wpr m P s f -> (forall r s' f', P r s' f' -> Q r s' f') -> wpr m Q s f.
Proof. unfold wpr. auto. Qed.

Lemma wpr_throw {A} x (Q : result A -> t R -> Fault.state -> Prop) s f : Q (Throw x) s f -> wpr (throw x) Q s f.
Proof. done. Qed.

Lemma wpr_reads {A} (g : t R -> A) (Q : result A -> t R -> Fault.state -> Prop) s f : Q (Ok (g s)) s f -> wpr (reads_ g) Q s f.
Proof. done. Qed.

Lemma wpr_update g Q s f : Q (Ok tt) (g s) f -> wpr (update g) Q s f.
Proof. done. Qed.

Lemma wpr_sys {A} (g : R -> A * R) (Q : result A -> t R -> Fault.state -> Prop) s f :
  Q (Ok (g (kernel s)).1) (set_kernel (g (kernel s)).2 s) f -> wpr (sys g) Q s f.
Proof. unfold wpr, sys. by destruct (g (kernel s)). Qed.

Lemma wpr_ring {A} (g : R -> A * R) (Q : result A -> t R -> Fault.state -> Prop) s f :
  ring_ready_ s = true -> Q (Ok (g (kernel s)).1) (set_kernel (g (kernel s)).2 s) f -> wpr (ring g) Q s f.
Proof. intros Hr HQ. unfold ring. apply wpr_bind, wpr_reads. cbn [afterr]. rewrite Hr. by apply wpr_sys. Qed.

Lemma wpr_ring_ (g : R -> R) Q s f :
  ring_ready_ s = true -> Q (Ok tt) (set_kernel (g (kernel s)) s) f -> wpr (ring_ g) Q s f.
Proof. intros. by apply wpr_ring. Qed.

(** Only the first failure is kept. *)
Lemma wpr_recordFailure d Q s f :
  Q (Ok tt) (set_failure (Some (default d (failure_ s))) s) f -> wpr (recordFailure d) Q s f.
Proof. intros HQ. apply wpr_update. by destruct s as [? ? ? ? ? ? ? ? [e|] ? ? ? ? ?]. Qed.

(** A fault point passes, throws or kills; disarmed, it passes. *)
Lemma wpr_hit p Q s f :
  (forall r f', stays_disarmed f f' -> (Fault.g_armed f = false -> r = Ok tt) -> r <> Undefined -> Q r s f') ->
  wpr (hit p) Q s f.
Proof.
  intros HQ. unfold wpr, hit, Fault.hit. destruct (Fault.g_armed f) eqn:Ha; [|apply HQ; unfold stays_disarmed; auto].
  unfold Fault.hitSlow. destruct (Fault.fires p f) as [[[]|] f']; apply HQ; unfold stays_disarmed; intros; cbn [fst]; congruence.
Qed.

Lemma wpr_shouldFail p (Q : result bool -> t R -> Fault.state -> Prop) s f :
  (forall b f', stays_disarmed f f' -> (Fault.g_armed f = false -> b = false /\ f' = f) -> Q (Ok b) s f') ->
  wpr (shouldFail p) Q s f.
Proof.
  intros HQ. unfold wpr, shouldFail, Fault.shouldFail. destruct (Fault.g_armed f) eqn:Ha; [|apply HQ; unfold stays_disarmed; auto].
  unfold Fault.shouldFailSlow. destruct (Fault.fires p f) as [a f']. apply HQ; unfold stays_disarmed; intros; cbn [fst]; congruence.
Qed.

Lemma stays_refl f : stays_disarmed f f.
Proof. reflexivity. Qed.
#[local] Hint Resolve stays_refl : core.

Lemma stays_trans f1 f2 f3 : stays_disarmed f1 f2 -> stays_disarmed f2 f3 -> stays_disarmed f1 f3.
Proof. by etrans. Qed.

(** ** The invariant *)

(** Whether the kernel never refuses a submission. *)
Variable acc : bool.

(** [k] is the kernel's state, [kv] the part of it the requests are read from:
    all of it, or without the completion in hand. *)
Record core (b : bool) s f k kv l0 l1 n : Prop := {
  co_rep : rep (kernel s) k;
  co_inv : kinv (heap s) (failure_ s = None) kv l0 l1;
  co_ready : ring_ready_ s = true;
  co_fd : fd_ s = true;
  co_off : write_offset_ s = zlen (log_bytes (l0 ++ l1));
  co_size : write_offset_ s <= 2 ^ 63;
  co_ptr : forall p x, heap s !! p = Some x -> p < next_ptr s;
  co_synced : synced l0 l1 n (k_synced k);
  co_durable : durable_end_ s <= zlen (log_bytes (l0 ++ take n l1));
  co_acc : acc = true -> k_accepts k = true;
  co_fine : b = true -> k_reliable k = true /\ failure_ s = None /\ Fault.g_armed f = false
}.

(** The count of completions to come is right, off by [d]. *)
Definition counted s kv (d : Z) : Prop :=
  k_accepts kv = true -> k_sq kv = [] /\ pending_cqes_ s = zlen (k_fly kv) + zlen (k_cq kv) + d.

Definition winv b s f k l0 l1 n : Prop := core b s f k k l0 l1 n /\ counted s k 0.

(** What reaping leaves alone. *)
Record same_log s s' : Prop := {
  sl_fd : fd_ s' = fd_ s;
  sl_durability : durability_ s' = durability_ s;
  sl_flag : sync_in_progress_ s' = sync_in_progress_ s;
  sl_epoch : epoch_ s' = epoch_ s;
  sl_durable : durable_end_ s' = durable_end_ s;
  sl_ready : ring_ready_ s' = ring_ready_ s;
  sl_offset : write_offset_ s' = write_offset_ s;
  sl_ptr : next_ptr s' = next_ptr s
}.

#[export] Instance same_log_po : PreOrder same_log.
Proof. split; [done|]. intros s1 s2 s3 [] []. split; congruence. Qed.

Definition mu s k : nat := (pending_events k + retries (heap s))%nat.

Lemma mu_fuel s k : rep (kernel s) k -> (mu s k < fuel_of s)%nat.
Proof.
  intros Hr. unfold mu, fuel_of. pose proof (rep_events _ _ Hr). pose proof (retries_bound (heap s)). lia.
Qed.

(** Another state of the kernel and other objects, for the same log. *)
Lemma core_replace b s s' f k k' kv kv' l0 l1 l1' n :
  core b s f k kv l0 l1 n -> same_log s s' -> grows l1 l1' ->
  k_synced k' = k_synced k -> k_accepts k' = k_accepts k -> k_reliable k' = k_reliable k -> rep (kernel s') k' ->
  kinv (heap s') (failure_ s' = None) kv' l0 l1' ->
  (forall p, is_Some (heap s' !! p) -> is_Some (heap s !! p)) -> (b = true -> failure_ s' = None) ->
  core b s' f k' kv' l0 l1' n.
Proof.
  intros [H1 H2 H3 H4 H5 H6 H7 H8 H9 Hac H10] [Sf Sd Sy Se Su Sr So Sp] Hg Hsy Hacc Hrel Hr Hi Hh Hb.
  split; rewrite ?Sr, ?Sf, ?So, ?Sp, ?Su; try done.
  - by rewrite H5, (grows_size _ _ _ Hg).
  - intros p x Hx. destruct (Hh p (mk_is_Some _ _ Hx)) as [y Hy]. by eapply H7.
  - rewrite Hsy. by eapply synced_grows.
  - rewrite H9. by rewrite (grows_size _ _ _ (grows_take _ _ n Hg)).
  - by rewrite Hacc.
  - rewrite Hrel. intros Hbt. destruct (H10 Hbt) as (? & ? & ?). split_and!; auto.
Qed.

(** The kernel's own progress. *)
Lemma core_move b s f k kv l0 l1 n k1 kv1 r :
  core b s f k kv l0 l1 n -> k_synced k1 = k_synced k -> k_accepts k1 = k_accepts k -> k_reliable k1 = k_reliable k -> ksteps kv kv1 -> rep r k1 ->
  exists l1', grows l1 l1' /\ core b (set_kernel r s) f k1 kv1 l0 l1' n.
Proof.
  intros Hc Hsy Hacc Hrel Hkv Hr. destruct (kinv_steps _ _ _ _ _ _ Hkv (co_inv _ _ _ _ _ _ _ _ Hc)) as (l1' & Hg & Hi).
  exists l1'. split; [done|]. eapply core_replace; try done. intros Hb. by apply (co_fine _ _ _ _ _ _ _ _ Hc).
Qed.

Lemma counted_steps s kv kv1 d r :
  counted s kv d -> ksteps kv kv1 -> counted (set_kernel r s) kv1 d.
Proof.
  intros Hc Hk Ha. pose proof (ksteps_frame _ _ Hk) as (Hsq & _ & Hi & Hacc & _ & Hev). rewrite Hacc in Ha.
  destruct (Hc Ha) as [Hs Hp]. rewrite Hsq. split; [done|]. cbn [set_kernel pending_cqes_]. rewrite Hp.
  unfold pending_events in Hev. rewrite Hsq, Hi in Hev. lia.
Qed.

Lemma winv_steps b s f k l0 l1 n k1 r :
  winv b s f k l0 l1 n -> ksteps k k1 -> rep r k1 ->
  exists l1', grows l1 l1' /\ winv b (set_kernel r s) f k1 l0 l1' n.
Proof.
  intros [Hc Hn] Hk Hr. pose proof (ksteps_frame _ _ Hk) as (_ & Hsy & _ & Hacc & Hrel & _).
  destruct (core_move _ _ _ _ _ _ _ _ _ _ _ Hc Hsy Hacc Hrel Hk Hr) as (l1' & Hg & Hc').
  exists l1'. split; [done|]. split; [done|]. by eapply counted_steps.
Qed.

(** ** One completion *)

Lemma core_faults b s f f' k kv l0 l1 n : core b s f k kv l0 l1 n -> stays_disarmed f f' -> core b s f' k kv l0 l1 n.
Proof. intros [? ? ? ? ? ? ? ? ? ? Hf] Hd. split; try done. intros (? & ? & ?)%Hf. split_and!; auto. Qed.

Lemma winv_faults b s f f' k l0 l1 n : winv b s f k l0 l1 n -> stays_disarmed f f' -> winv b s f' k l0 l1 n.
Proof. intros [Hc Hn] Hd. split; [by eapply core_faults|done]. Qed.

Lemma faulted_spec x res Q s f :
  0 < bytes x <= MAX_RW_COUNT ->
  (forall r f', stays_disarmed f f' -> r = res \/ r < bytes x -> (Fault.g_armed f = false -> r = res) -> Q (Ok r) s f') ->
  wpr (faulted x res) Q s f.
Proof.
  intros Hx HQ. unfold faulted.
  assert (i32 (bytes x / 2) < bytes x) as Hhalf.
  { unfold MAX_RW_COUNT in Hx. unfold i32. rewrite (wrap_small 32) by div_lia. rewrite (proj2 (Z.ltb_lt _ _)) by div_lia. div_lia. }
  apply wpr_bind, wpr_shouldFail. intros e f1 Hd1 He. cbn [afterr].
  apply wpr_bind, wpr_shouldFail. intros h f2 Hd2 Hh. cbn [afterr].
  apply wpr_bind, wpr_shouldFail. intros c f3 Hd3 Hc. cbn [afterr].
  apply wpr_ret, HQ.
  - by eapply stays_trans; [eapply stays_trans|].
  - unfold EIO, ECANCELED. destruct c; [right; lia|]. destruct h; [by right|]. destruct e; [right; lia|by left].
  - intros Ha. destruct (He Ha) as [-> ->]. destruct (Hh Ha) as [-> ->]. by destruct (Hc Ha) as [-> _].
Qed.

(** The completion in hand is given back to the ring. *)
Lemma seen_spec b s f k l0 l1 n x l d :
  core b s f k (drop_cq k) l0 l1 n -> k_cq k = x :: l -> counted s (drop_cq k) d ->
  exists k' l1', grows l1 l1' /\ core b (set_kernel (cqe_seen (kernel s)) s) f k' k' l0 l1' n /\
    counted (set_kernel (cqe_seen (kernel s)) s) k' d /\ pending_events k' = pending_events (drop_cq k).
Proof.
  intros Hc Hx Hn. destruct (cqe_seen_spec _ _ _ _ (co_rep _ _ _ _ _ _ _ _ Hc) Hx) as (k1 & Hk & Hr).
  change (set_rings _ _ _ k1) with (drop_cq k1) in Hr. pose proof (ksteps_frame _ _ Hk) as (_ & Hsy & _ & Hacc & Hrel & _).
  destruct (ksteps_drop _ _ _ _ Hk Hx) as [Hkd _].
  destruct (core_move _ _ _ _ _ _ _ _ (drop_cq k1) (drop_cq k1) (cqe_seen (kernel s)) Hc Hsy Hacc Hrel Hkd Hr) as (l1' & Hg & Hc').
  exists (drop_cq k1), l1'. split_and!; [done|done| |].
  - by eapply counted_steps.
  - by apply ksteps_frame in Hkd as (_ & _ & _ & _ & _ & ?).
Qed.

(** What reaping may end in, with at most [m] steps left. *)
Definition reaped b s f l0 l1 n (m : nat) (r : result unit) s' f' : Prop :=
  r = Ok tt /\ exists k' l1', same_log s s' /\ stays_disarmed f f' /\ grows l1 l1' /\ winv b s' f' k' l0 l1' n /\ (mu s' k' <= m)%nat.

Lemma finish_spec b s0 s f0 f k l0 l00 l1 n x l m :
  same_log s0 s -> stays_disarmed f0 f -> grows l00 l1 ->
  core b s f k (drop_cq k) l0 l1 n -> k_cq k = x :: l -> counted s (drop_cq k) 1 ->
  (mu s (drop_cq k) <= m)%nat ->
  wpr finish (reaped b s0 f0 l0 l00 n m) s f.
Proof.
  intros Hs Hf Hg0 Hc Hx Hn Hm. unfold finish. apply wpr_bind, wpr_ring_; [apply Hc|]. cbn [afterr]. apply wpr_update.
  destruct (seen_spec _ _ _ _ _ _ _ _ _ _ Hc Hx Hn) as (k' & l1' & Hg & Hc' & Hn' & Hev).
  set (s1 := set_kernel (cqe_seen (kernel s)) s) in *.
  split; [done|]. exists k', l1'.
  assert (forall p, core b (set_pending p s1) f k' k' l0 l1' n) as Hcp.
  { intros p. destruct Hc'. by split. }
  assert (forall p, same_log s0 (set_pending p s1)) as Hsp.
  { intros p. etrans; [exact Hs|]. by split. }
  assert (mu s1 k' <= m)%nat as Hm'.
  { unfold mu in *. rewrite Hev. done. }
  destruct (Z.ltb_spec 0 (pending_cqes_ s1)) as [Hp|Hp].
  - split_and!; [done|done|by etrans|split; [done|]|done]. intros Ha. destruct (Hn' Ha) as [Hsq Hc1].
    split; [done|]. cbn [pending_cqes_ set_pending]. lia.
  - split_and!; [|done|by etrans|split; [done|]|done].
    + etrans; [exact Hs|]. by split.
    + intros Ha. destruct (Hn' Ha) as [Hsq Hc1]. lia.
Qed.

(** The object of the completion in hand dies; [fl] is the failure recorded. *)
Lemma done_spec b s0 s f0 f k l0 l00 l1 n q res l x fl m :
  same_log s0 s -> stays_disarmed f0 f -> grows l00 l1 ->
  winv b s f k l0 l1 n -> k_cq k = (q, res) :: l -> heap s !! r_buf q = Some x ->
  (k_accepts k = true -> fl = None -> failure_ s = None /\ res = zlen (r_data q)) -> (b = true -> fl = None) ->
  (mu s k <= S m)%nat ->
  wpr (free (r_buf q) ;; finish) (reaped b s0 f0 l0 l00 n m) (set_failure fl s) f.
Proof.
  intros Hs Hf Hg [Hc Hn] Hq Hx Hfl Hb Hm. unfold free, deref.
  apply wpr_bind, wpr_bind, wpr_bind, wpr_reads. cbn [afterr set_failure heap]. rewrite Hx. cbn [afterr].
  apply wpr_ret. cbn [afterr]. apply wpr_update. cbn [afterr].
  assert (pending_events k = S (pending_events (drop_cq k))) as Hev.
  { by eapply drop_events. }
  eapply finish_spec; [| | | |exact Hq| |].
  - etrans; [exact Hs|]. by split.
  - done.
  - done.
  - destruct Hc as [H1 H2 H3 H4 H5 H6 H7 H8 H9 H9' H10].
    split; cbn [set_heap set_failure kernel heap failure_ ring_ready_ fd_ write_offset_ next_ptr durable_end_]; try done.
    + eapply kinv_drop; [exact H2|exact Hq| |].
      * intros Ha Hnone. by apply Hfl.
      * intros p Hp. by rewrite lookup_delete_ne.
    + intros p y Hy. apply lookup_delete_Some in Hy as [_ Hy]. by eapply H7.
    + intros Hbt. destruct (H10 Hbt) as (? & ? & ?). split_and!; auto.
  - intros Ha. destruct (Hn Ha) as [Hsq Hp]. split; [done|]. cbn [set_heap set_failure pending_cqes_ drop_cq set_rings k_fly k_cq].
    rewrite Hp, Hq. cbn [length tail]. lia.
  - unfold mu in *. cbn [set_heap set_failure heap]. rewrite (retries_delete _ _ _ Hx) in Hm. lia.
Qed.

(** ** Queueing a write *)

Lemma set_sq_id k : set_sq (k_sq k) k = k.
Proof. by destruct k. Qed.

(** A slot, filled. *)
Lemma get_sqe_cases r k : rep r k ->
  exists k1, ksteps k k1 /\ (k_sq k = [] -> is_Some (get_sqe r).1) /\
  match (get_sqe r).1 with
  | None => rep (get_sqe r).2 k1
  | Some slot => forall p data off, exists k2, ksteps k k2 /\
      rep (set_data slot (Some p) (prep_write slot p data off (get_sqe r).2))
        (set_sq (k_sq k ++ [(slot, mkReq p data off (Some p))]) k2)
  end.
Proof.
  intros Hr. pose proof (get_sqe_spec r k Hr) as Hg. destruct (get_sqe r) as [[slot|] r1]; cbn [fst snd] in *;
    destruct Hg as (k1 & Hk1 & Hs & Hr1); exists k1; (split_and!; [done|done|]); [|done].
  intros p data off. pose proof (ksteps_frame _ _ Hk1) as (Hsq & _). rewrite Hsq in Hr1.
  set (ka := set_rings _ _ _ k1) in Hr1.
  destruct (prep_write_spec r1 ka (k_sq k) slot blank p data off Hr1 eq_refl) as (kb & Hkb & Hr2).
  set (kb' := set_rings _ _ _ kb) in Hr2.
  destruct (set_data_spec _ kb' (k_sq k) slot _ (Some p) Hr2 eq_refl) as (kc & Hkc & Hr3).
  exists (set_sq (k_sq k) kc). split; [|exact Hr3].
  apply (ksteps_sq (k_sq k)) in Hkb, Hkc.
  etrans; [exact Hk1|]. etrans; [|exact Hkc]. etrans; [|exact Hkb].
  replace (set_sq (k_sq k) ka) with k1; [apply rtc_refl|]. rewrite <- Hsq. unfold ka. destruct k1. done.
Qed.

Definition submitted (n : Z) k : kstate sqe :=
  set_rings (drop (Z.to_nat n) (k_sq k)) (k_fly k ++ ((fun x => (x.2, false)) <$> take (Z.to_nat n) (k_sq k))) (k_cq k) k.

Lemma submit_cases r k : rep r k ->
  exists k1, ksteps k k1 /\ (submit r).1 <= zlen (k_sq k) /\ (k_accepts k = true -> (submit r).1 = zlen (k_sq k)) /\
    rep (submit r).2 (submitted (submit r).1 k1).
Proof. intros Hr. pose proof (submit_spec r k Hr) as Hs. by destruct (submit r). Qed.

Lemma submitted_events n k : pending_events (submitted n k) = pending_events k.
Proof.
  unfold pending_events, submitted. cbn. rewrite length_drop, length_app, length_fmap, length_take. lia.
Qed.

(** ** Resubmitting *)

(** The object of a cancelled request, as it is submitted again. *)
Definition again (x : PendingWrite) : PendingWrite := mkPending (buf x) (bytes x) (offset x) (attempts x + 1).

(** What is written again is what was written first. *)
Lemma request_object b s f k kv l0 l1 n q res l x :
  core b s f k kv l0 l1 n -> k_cq kv = (q, res) :: l -> heap s !! r_buf q = Some x ->
  take (Z.to_nat (u32 (bytes x))) (buf x) = r_data q /\ offset x = r_off q /\ buf x = r_data q /\ bytes x = zlen (r_data q) /\ 1 <= attempts x.
Proof.
  intros Hc Hq Hx.
  assert (on_heap (heap s) q) as (y & Hy & Hbuf & Hbytes & Hoff & Hatt1 & _).
  { pose proof (ki_heap _ _ _ _ _ (co_inv _ _ _ _ _ _ _ _ Hc)) as Hh. rewrite (reqs_drop _ _ _ _ Hq) in Hh. by apply Forall_cons in Hh as [? _]. }
  rewrite Hx in Hy. injection Hy as <-.
  pose proof (ki_cq _ _ _ _ _ (co_inv _ _ _ _ _ _ _ _ Hc)) as Hcq. rewrite Hq in Hcq. apply Forall_cons in Hcq as [[i Hi] _]. cbn [fst snd] in Hi.
  destruct Hi as (_ & _ & _ & _ & Hmax & _). unfold MAX_RW_COUNT in Hmax.
  split_and!; try done. rewrite Hbytes, Hbuf, wrap_small by lia. rewrite take_ge; [done|lia].
Qed.

(** Queueing it moves the request from the completions to the entries. *)
Lemma requeued b s f k l0 l1 n q res l x slot k2 :
  core b s f k k l0 l1 n -> k_cq k = (q, res) :: l -> r_tag q = Some (r_buf q) -> heap s !! r_buf q = Some x -> ksteps k k2 ->
  let k2' := set_sq (k_sq k ++ [(slot, q)]) k2 in
  exists l1' l2, grows l1 l1' /\ k_cq k2' = (q, res) :: l2 /\
    kinv (<[r_buf q := again x]> (heap s)) (failure_ s = None) (drop_cq k2') l0 l1'.
Proof.
  intros Hc Hq Htag Hx Hk2 k2'. destruct (request_object _ _ _ _ _ _ _ _ _ _ _ _ Hc Hq Hx) as (_ & Hoff & Hbuf & Hbytes & Hatt).
  pose proof (ki_cq _ _ _ _ _ (co_inv _ _ _ _ _ _ _ _ Hc)) as Hcq. rewrite Hq in Hcq. apply Forall_cons in Hcq as [[i Hi] _]. cbn [fst snd] in Hi.
  pose proof (ksteps_frame _ _ Hk2) as (Hsq2 & _). destruct (ksteps_drop _ _ _ _ Hk2 Hq) as [_ [l2 Hl2]].
  destruct (kinv_steps _ _ _ _ _ _ Hk2 (co_inv _ _ _ _ _ _ _ _ Hc)) as (l1a & Hga & Hi2).
  exists l1a, l2. split_and!; [done|done|]. pose proof (reqs_drop k2 q res l2 Hl2) as Hp2.
  pose proof (ki_nodup _ _ _ _ _ Hi2) as Hnd. rewrite Hp2, fmap_cons in Hnd. apply NoDup_cons in Hnd as [Hnd _].
  pose proof (ki_apart _ _ _ _ _ Hi2) as Hap. rewrite Hp2, fmap_cons in Hap. apply NoDup_cons in Hap as [Hap _].
  pose proof (ki_heap _ _ _ _ _ Hi2) as Hh. rewrite Hp2 in Hh. apply Forall_cons in Hh as [_ Hh].
  change (drop_cq k2') with (set_sq (k_sq k ++ [(slot, q)]) (drop_cq k2)). rewrite <- Hsq2.
  change (k_sq k2) with (k_sq (drop_cq k2)).
  pose proof (ki_whole _ _ _ _ _ Hi2) as Hwh. rewrite Hp2 in Hwh. apply Forall_cons in Hwh as [Hwh _].
  apply (kinv_push (heap s) _ _ _ _ l1a l1a slot q i); [|exists []; by rewrite app_nil_r| | |done..| |].
  - by eapply kinv_drop; [exact Hi2|exact Hl2|done|done].
  - intros z Hz. rewrite Forall_forall in Hh. destruct (Hh z Hz) as (y & Hy & Hrest). exists y. split; [|done].
    rewrite lookup_insert_ne; [done|]. intros E. apply Hnd. rewrite E. by apply list_elem_of_fmap_2.
  - exists (again x). rewrite lookup_insert_eq. split_and!; try done; [cbn; lia|by right].
  - eapply place_weaken; [|by eapply place_grows]. done.
  - intros Ha HX j e Hj. destruct (ki_live _ _ _ _ _ Hi2 Ha HX j e Hj) as (z & Hz & Hpl). exists z. split; [|done]. by rewrite <- Hp2.
Qed.

(** An entry more and a completion less are as many events. *)
Lemma requeued_events k q res l slot k2 k3 l3 num :
  ksteps k k2 -> ksteps (set_sq (k_sq k ++ [(slot, q)]) k2) k3 -> k_cq k = (q, res) :: l -> k_cq k3 = (q, res) :: l3 ->
  pending_events (drop_cq (submitted num k3)) = pending_events k.
Proof.
  intros Hk2 Hk3 Hq Hl3. pose proof (ksteps_frame _ _ Hk2) as (Hsq2 & _ & _ & _ & _ & Hev2).
  pose proof (ksteps_frame _ _ Hk3) as (_ & _ & _ & _ & _ & Hev3).
  apply eq_add_S. rewrite <- (drop_events (submitted num k3) _ _ Hl3), submitted_events, Hev3.
  rewrite <- Hev2, <- (set_sq_id k2). rewrite Hsq2. unfold pending_events. cbn [set_sq set_rings k_sq k_fly k_cq k_interrupts].
  rewrite length_app. cbn [length]. lia.
Qed.

Section resubmit.
Context (b : bool) (s : t R) (f : Fault.state) (k : kstate sqe) (l0 l1 : list WAL.slot) (n : nat)
  (q : req) (res : Z) (l : list (req * Z)) (x : PendingWrite) (m : nat).
Hypotheses (Hw : winv b s f k l0 l1 n) (Hq : k_cq k = (q, res) :: l) (Hx : heap s !! r_buf q = Some x)
  (Hatt : attempts x < 6) (Hb : b = false) (Hm : (mu s k <= S m)%nat).

(** The request is an entry or in flight again; [d] completions are uncounted. *)
Definition resubmitted (d : Z) s' : Prop :=
  exists k' l1' l', same_log s s' /\ grows l1 l1' /\ core b s' f k' (drop_cq k') l0 l1' n /\ k_cq k' = (q, res) :: l' /\
    (mu s' (drop_cq k') <= m)%nat /\ counted s' (drop_cq k') d.

Lemma again_mu s' k' : heap s' = <[r_buf q := again x]> (heap s) -> pending_events k' = pending_events k -> (mu s' k' <= m)%nat.
Proof.
  intros Hh He. pose proof (retries_update (heap s) (r_buf q) x (again x) Hx) as Hret.
  destruct (request_object _ _ _ _ _ _ _ _ _ _ _ _ (proj1 Hw) Hq Hx) as (_ & _ & _ & _ & Hone).
  assert (tries_left x = S (tries_left (again x))) as Htries by (unfold tries_left, again; cbn [attempts]; lia).
  unfold mu in *. rewrite Hh, He. lia.
Qed.

Lemma again_dom s' p : heap s' = <[r_buf q := again x]> (heap s) -> is_Some (heap s' !! p) -> is_Some (heap s !! p).
Proof. intros ->. destruct (decide (p = r_buf q)) as [->|Hne]; [by eexists|]. by rewrite lookup_insert_ne. Qed.

Section queued.
Context (slot : sqe) (k2 k3 : kstate sqe) (l1' : list WAL.slot) (l3 : list (req * Z)) (num : Z) (s' : t R).
Hypotheses (Hk2 : ksteps k k2) (Hk3 : ksteps (set_sq (k_sq k ++ [(slot, q)]) k2) k3)
  (Hl3 : k_cq k3 = (q, res) :: l3) (Hg : grows l1 l1')
  (Hi : kinv (<[r_buf q := again x]> (heap s)) (failure_ s = None) (drop_cq k3) l0 l1')
  (Hacc : k_accepts k = true -> num = zlen (k_sq k) + 1)
  (Hs : same_log s s') (Hh : heap s' = <[r_buf q := again x]> (heap s)) (Hpend : pending_cqes_ s' = pending_cqes_ s).

Lemma queued_frame : k_synced k3 = k_synced k /\ k_accepts k3 = k_accepts k /\ k_reliable k3 = k_reliable k /\
  k_sq k3 = k_sq k ++ [(slot, q)] /\ k_interrupts k3 = k_interrupts k.
Proof.
  pose proof (ksteps_frame _ _ Hk2) as (_ & Hsy2 & Hin2 & Hacc2 & Hrel2 & _).
  pose proof (ksteps_frame _ _ Hk3) as (Hsq3 & Hsy3 & Hin3 & Hacc3 & Hrel3 & _).
  split_and!; [by rewrite Hsy3|by rewrite Hacc3|by rewrite Hrel3|done|by rewrite Hin3].
Qed.

Lemma resubmit_sent :
  0 <= num -> failure_ s' = failure_ s -> rep (kernel s') (submitted num k3) -> resubmitted 0 s'.
Proof.
  intros Hpos Hfl Hr. destruct queued_frame as (Hsy & Ha3 & Hrel & Hsq & Hint).
  pose proof (requeued_events _ _ _ _ _ _ _ _ num Hk2 Hk3 Hq Hl3) as Hev.
  pose proof (kinv_submit _ _ _ _ _ (Z.to_nat num) Hi) as Hi'. change (set_rings _ _ _ _) with (drop_cq (submitted num k3)) in Hi'.
  exists (submitted num k3), l1', l3. split_and!; [done|done| |exact Hl3|by apply again_mu|].
  - eapply core_replace; [apply Hw|done|done|done|done|done|exact Hr|by rewrite Hh, Hfl| |by rewrite Hb].
    intros p. by apply again_dom.
  - intros Ha. cbn in Ha. rewrite Ha3 in Ha. destruct (proj2 Hw Ha) as [Hsq0 Hp].
    assert (k_sq (drop_cq (submitted num k3)) = []) as Hsq4 by (cbn; rewrite Hsq, Hacc, Hsq0 by done; done).
    split; [done|]. rewrite Hpend, Hp. unfold pending_events in Hev. rewrite Hsq4, Hsq0 in Hev.
    change (k_interrupts (drop_cq (submitted num k3))) with (k_interrupts k3) in Hev. rewrite Hint in Hev. cbn [length] in Hev. lia.
Qed.

(** Refused, the entry stays, detached. *)
Lemma resubmit_refused r :
  num < 0 -> (failure_ s' = None -> failure_ s = None) -> rep r k3 -> kernel s' = set_data slot None r -> resubmitted 1 s'.
Proof.
  intros Hneg Hfl Hr Hker. destruct queued_frame as (Hsy & Ha3 & Hrel & Hsq & Hint).
  pose proof (requeued_events _ _ _ _ _ _ _ _ num Hk2 Hk3 Hq Hl3) as Hev.
  assert (k_accepts k = false) as Hna by (destruct (k_accepts k); [specialize (Hacc eq_refl); lia|done]).
  destruct (set_data_spec r k3 (k_sq k) slot q None Hr Hsq) as (k5 & Hk5 & Hr5).
  pose proof (ksteps_frame _ _ Hk5) as (Hsq5 & Hsy5 & _ & Hacc5 & Hrel5 & Hev5).
  destruct (ksteps_drop _ _ _ _ Hk5 Hl3) as [Hk5d [l5 Hl5]].
  destruct (kinv_steps _ _ _ _ _ _ Hk5d Hi) as (l1c & Hgc & Hi5).
  apply (kinv_detach _ _ _ _ _ (k_sq k) slot q) in Hi5; [|by cbn; congruence|cbn; by rewrite Hsq5, Hsq].
  set (k6 := set_rings _ _ _ k5) in Hr5. change (set_sq _ (drop_cq k5)) with (drop_cq k6) in Hi5.
  exists k6, l1c, l5. split_and!; [done|by etrans| |exact Hl5| |intros Ha; cbn in Ha; congruence].
  - eapply core_replace; [apply Hw|done|by etrans| | | |by rewrite Hker| |intros p; by apply again_dom|by rewrite Hb].
    + cbn. by rewrite Hsy5.
    + cbn. by rewrite Hacc5.
    + cbn. by rewrite Hrel5.
    + rewrite Hh. by eapply kinv_weaken; [|exact Hi5].
  - apply again_mu; [done|]. rewrite <- Hev.
    apply eq_add_S. rewrite <- (drop_events (submitted num k3) _ _ Hl3), <- (drop_events k6 _ _ Hl5).
    rewrite submitted_events, <- Hev5.
    unfold pending_events, k6. cbn. rewrite Hsq5, Hsq. rewrite !length_app. cbn. lia.
Qed.

End queued.

Lemma resubmit_spec (Q : result Z -> t R -> Fault.state -> Prop) :
  r_tag q = Some (r_buf q) ->
  (forall s' k' l1' l', same_log s s' -> grows l1 l1' -> winv b s' f k' l0 l1' n -> k_cq k' = (q, res) :: l' ->
     heap s' = heap s -> (mu s' k' <= S m)%nat -> Q (Ok 0) s' f) ->
  (forall s', resubmitted 0 s' -> Q (Ok 1) s' f) ->
  (forall s', resubmitted 1 s' -> Q (Ok (-1)) s' f) ->
  wpr (resubmit (r_buf q)) Q s f.
Proof.
  intros Htag HQ0 HQ1 HQm. pose proof (proj1 Hw) as Hc. unfold resubmit.
  apply wpr_bind, wpr_ring; [apply Hc|]. cbn [afterr].
  destruct (get_sqe_cases _ _ (co_rep _ _ _ _ _ _ _ _ Hc)) as (k1 & Hk1 & Hsome & Hslot).
  destruct (get_sqe (kernel s)) as [[slot|] r1]; cbn [fst snd] in *.
  2:{ apply wpr_ret. destruct (winv_steps _ _ _ _ _ _ _ _ r1 Hw Hk1 Hslot) as (l1' & Hg & Hw').
      destruct (ksteps_drop _ _ _ _ Hk1 Hq) as [_ [l' Hl']]. eapply HQ0; [by split|done|done|exact Hl'|done|].
      unfold mu in *. pose proof (ksteps_frame _ _ Hk1) as (_ & _ & _ & _ & _ & Hev). cbn [set_kernel heap]. lia. }
  destruct (request_object _ _ _ _ _ _ _ _ _ _ _ _ Hc Hq Hx) as (Hdata & Hoff & _).
  apply wpr_bind. unfold deref. apply wpr_bind, wpr_reads. cbn [afterr set_kernel heap]. rewrite Hx. apply wpr_ret. cbn [afterr].
  apply wpr_bind, wpr_update. cbn [afterr]. fold (again x).
  apply wpr_bind. unfold queue_write. apply wpr_bind, wpr_ring_; [apply Hc|]. cbn [afterr]. apply wpr_ring_; [apply Hc|]. cbn [afterr].
  cbn [kernel set_kernel set_heap bytes buf offset again]. rewrite Hdata, Hoff.
  destruct (Hslot (r_buf q) (r_data q) (r_off q)) as (k2 & Hk2 & Hr3).
  assert (mkReq (r_buf q) (r_data q) (r_off q) (Some (r_buf q)) = q) as Eq by (rewrite <- Htag; by destruct q). rewrite Eq in Hr3.
  set (r3 := set_data _ _ _) in *. destruct (requeued _ _ _ _ _ _ _ _ _ _ _ slot k2 Hc Hq Htag Hx Hk2) as (l1a & l2 & Hga & Hl2 & Hi2).
  apply wpr_bind, wpr_ring; [apply Hc|]. cbn [afterr kernel set_kernel set_heap].
  destruct (submit_cases r3 _ Hr3) as (k3 & Hk3 & Hle & Hacc & Hr4).
  destruct (ksteps_drop _ _ _ _ Hk3 Hl2) as [Hk3d [l3 Hl3]].
  destruct (kinv_steps _ _ _ _ _ _ Hk3d Hi2) as (l1b & Hgb & Hi3).
  assert (k_accepts k = true -> (submit r3).1 = zlen (k_sq k) + 1) as Hnum.
  { pose proof (ksteps_frame _ _ Hk2) as (_ & _ & _ & Ha2 & _). intros Ha. rewrite Hacc by (cbn; congruence).
    cbn. rewrite length_app. cbn. lia. }
  destruct (Z.ltb_spec (submit r3).1 0) as [Hneg|Hpos].
  - apply wpr_bind, wpr_ring_; [apply Hc|]. cbn [afterr kernel set_kernel].
    apply wpr_bind, wpr_recordFailure. cbn [afterr]. apply wpr_ret, HQm.
    eapply (resubmit_refused slot k2 k3 l1b l3 (submit r3).1); try done; [by etrans|].
    replace k3 with (submitted (submit r3).1 k3); [done|]. unfold submitted. rewrite Z2Nat.nonpos by lia.
    rewrite drop_0, take_0, app_nil_r. by destruct k3.
  - apply wpr_ret, HQ1. eapply (resubmit_sent slot k2 k3 l1b l3 (submit r3).1); try done; by etrans.
Qed.

End resubmit.


(** ** Reaping *)

(** What is known of the oldest completion. *)
Lemma oldest_request b s f k l0 l1 n q res l :
  core b s f k k l0 l1 n -> k_cq k = (q, res) :: l ->
  on_heap (heap s) q /\ res <= zlen (r_data q) /\ 0 < zlen (r_data q) <= MAX_RW_COUNT /\
  (k_accepts k = true -> r_tag q = Some (r_buf q)) /\ (b = true -> res = zlen (r_data q) /\ k_accepts k = true /\ failure_ s = None).
Proof.
  intros Hc Hq. pose proof (co_inv _ _ _ _ _ _ _ _ Hc) as Hi. pose proof (reqs_drop _ _ _ _ Hq) as Hp.
  pose proof (ki_heap _ _ _ _ _ Hi) as Hh. rewrite Hp in Hh. apply Forall_cons in Hh as [Hh _].
  pose proof (ki_res _ _ _ _ _ Hi) as Hr. rewrite Hq in Hr. apply Forall_cons in Hr as [Hr _].
  pose proof (ki_cq _ _ _ _ _ Hi) as Hcq. rewrite Hq in Hcq. apply Forall_cons in Hcq as [[i (x & _ & _ & Hd & Hm & _)] _].
  split_and!; [done|done| |done| |].
  - cbn [fst] in *. rewrite Hd. pose proof (length_encode_pos (entry_of x)). lia.
  - intros Ha. pose proof (ki_tag _ _ _ _ _ Hi Ha) as Ht. rewrite Hp in Ht. by apply Forall_cons in Ht as [? _].
  - intros Hb. destruct (co_fine _ _ _ _ _ _ _ _ Hc Hb) as (Hrel & Hf & _).
    pose proof (ki_full _ _ _ _ _ Hi Hrel) as Hful. rewrite Hq in Hful. apply Forall_cons in Hful as [? _].
    split_and!; [done| |done]. eapply rep_reliable; [apply Hc|done].
Qed.

(** A failure is recorded and the object dies. *)
Lemma failed_spec b s0 s f0 f k l0 l00 l1 n q res l d m :
  same_log s0 s -> stays_disarmed f0 f -> grows l00 l1 ->
  winv b s f k l0 l1 n -> k_cq k = (q, res) :: l -> b = false -> (mu s k <= S m)%nat ->
  wpr (recordFailure d ;; free (r_buf q) ;; finish) (reaped b s0 f0 l0 l00 n m) s f.
Proof.
  intros Hs Hf Hg Hw Hq Hb Hm. destruct (oldest_request _ _ _ _ _ _ _ _ _ _ (proj1 Hw) Hq) as ((x & Hx & _) & _).
  apply wpr_bind, wpr_recordFailure. cbn [afterr]. eapply done_spec; try done. by rewrite Hb.
Qed.

Lemma core_stats b s f k kv l0 l1 n a c : core b s f k kv l0 l1 n -> core b (set_stats a c s) f k kv l0 l1 n.
Proof. intros []. by split. Qed.

Lemma reap_one_spec b s0 s f0 f k l0 l00 l1 n q res l m :
  same_log s0 s -> stays_disarmed f0 f -> grows l00 l1 ->
  winv b s f k l0 l1 n -> k_cq k = (q, res) :: l -> (mu s k <= S m)%nat ->
  wpr (reap_one res (r_tag q)) (reaped b s0 f0 l0 l00 n m) s f.
Proof.
  intros Hs Hf Hg Hw Hq Hm. pose proof (proj1 Hw) as Hc.
  destruct (oldest_request _ _ _ _ _ _ _ _ _ _ Hc Hq) as (Hh & Hres & Hpos & Htag & Hfull).
  pose proof Hh as (x & Hx & Hbuf & Hbytes & Hoff & Hatt & Ht). unfold reap_one. destruct (r_tag q) as [p|] eqn:Etag.
  2:{ assert (k_accepts k = true -> False) as Hna by (intros Ha; by specialize (Htag Ha)).
      eapply finish_spec; [done|done|done| |exact Hq| |].
      - eapply core_replace; [exact Hc|done|reflexivity|done|done|done|apply Hc| |done|].
        + eapply kinv_drop; [apply Hc|exact Hq| |done]. intros Ha. by destruct (Hna Ha).
        + intros Hb. by apply (co_fine _ _ _ _ _ _ _ _ Hc).
      - intros Ha. by destruct (Hna Ha).
      - unfold mu in *. rewrite (drop_events _ _ _ Hq) in Hm. lia. }
  assert (p = r_buf q) as -> by (destruct Ht as [?|Ht]; congruence).
  unfold deref at 1. apply wpr_bind, wpr_bind, wpr_reads. cbn [afterr]. rewrite Hx. apply wpr_ret. cbn [afterr].
  apply wpr_bind, faulted_spec; [lia|]. intros r f1 Hd Hr Hcalm. cbn [afterr].
  assert (stays_disarmed f0 f1) as Hf1 by (by eapply stays_trans).
  assert (winv b s f1 k l0 l1 n) as Hw1 by (by eapply winv_faults).
  assert (r < bytes x -> b = false) as Hbad.
  { intros Hlt. destruct b; [|done]. destruct (Hfull eq_refl) as [E _]. destruct (co_fine _ _ _ _ _ _ _ _ Hc eq_refl) as (_ & _ & Ha).
    rewrite (Hcalm Ha) in Hlt. lia. }
  assert (forall fl s1, same_log s0 s1 -> fl = failure_ s1 -> s1 = set_failure fl s1) as Heta by (intros ? s1 _ ->; by destruct s1).
  (* a write cancelled for good *)
  assert (forall s1 k1 l1' l', same_log s s1 -> grows l1 l1' -> winv b s1 f1 k1 l0 l1' n -> k_cq k1 = (q, res) :: l' ->
    b = false -> heap s1 = heap s -> (mu s1 k1 <= S m)%nat ->
    wpr (y ← deref (r_buf q); recordFailure (WriteCancelled (attempts y) (offset y)) ;; free (r_buf q) ;; finish)
      (reaped b s0 f0 l0 l00 n m) s1 f1) as Hcancel.
  { intros s1 k1 l1' l' Hs1 Hg1 Hw' Hq1 Hb Hh1 Hm1. unfold deref at 1. apply wpr_bind, wpr_bind, wpr_reads. cbn [afterr].
    rewrite Hh1, Hx. apply wpr_ret. cbn [afterr]. eapply (failed_spec _ s0 s1 f0 f1); [by etrans|done|by etrans|exact Hw'|exact Hq1|done|done]. }
  destruct (Z.eqb_spec r (- ECANCELED)) as [Hcan|Hcan].
  { assert (b = false) as Hb by (apply Hbad; unfold ECANCELED in Hcan; lia).
    destruct (Z.ltb_spec (attempts x) kMaxWriteAttempts) as [Hlt|Hge]; [|by eapply Hcancel; [done|reflexivity|..]].
    apply wpr_bind. eapply (resubmit_spec _ _ _ _ _ _ _ _ _ _ _ m); [exact Hw1|exact Hq|exact Hx|done|done|exact Hm|congruence| | |].
    - intros s1 k1 l1' l' Hs1 Hg1 Hw' Hq1 Hh1 Hm1. cbn [afterr]. apply wpr_bind, wpr_update. cbn [afterr]. cbn [Z.eqb Z.ltb Z.compare].
      eapply Hcancel; [|exact Hg1| |exact Hq1|done| |done].
      + etrans; [exact Hs1|]. by split.
      + destruct Hw' as [Hc' Hn']. split; [by apply core_stats|done].
      + done.
    - intros s1 (k1 & l1' & l' & Hs1 & Hg1 & Hw' & Hq1 & Hm1 & Hn1). cbn [afterr]. apply wpr_bind, wpr_update. cbn [afterr]. cbn [Z.eqb Pos.eqb].
      apply wpr_ring_; [apply Hw'|].
      destruct (seen_spec _ (set_stats (sync_calls_ s1) (u64 (cancel_retries_ s1 + 1)) s1) _ _ _ _ _ _ _ 0
                  (core_stats _ _ _ _ _ _ _ _ _ _ Hw') Hq1 Hn1) as (k2 & l2 & Hg2 & Hc2 & Hn2 & Hev).
      split; [done|]. exists k2, l2. split_and!; [|done|by etrans; [|etrans]|by split|].
      + etrans; [exact Hs|]. etrans; [exact Hs1|]. by split.
      + unfold mu in *. rewrite Hev. done.
    - intros s1 (k1 & l1' & l' & Hs1 & Hg1 & Hw' & Hq1 & Hm1 & Hn1). cbn [afterr]. apply wpr_bind, wpr_update. cbn [afterr]. cbn [Z.eqb Z.ltb Z.compare].
      eapply finish_spec; [|done| |by apply core_stats|exact Hq1|exact Hn1|exact Hm1].
      + etrans; [exact Hs|]. etrans; [exact Hs1|]. by split.
      + by etrans. }
  destruct (Z.ltb_spec r 0) as [Hneg|Hnn]; [by eapply failed_spec; try done; apply Hbad; lia|].
  destruct (Z.ltb_spec r (bytes x)) as [Hlt|Hge]; [by eapply failed_spec; try done; apply Hbad|].
  rewrite (Heta (failure_ s) s Hs eq_refl) at 1. eapply done_spec; [done|done|done|exact Hw1|exact Hq|exact Hx| | |done].
  - intros _ Hnone. split; [done|]. destruct Hr; lia.
  - intros Hb. by apply (co_fine _ _ _ _ _ _ _ _ Hc).
Qed.

Lemma reap_loop_spec b s0 f0 l0 l00 n fuel : forall s f k l1,
  same_log s0 s -> stays_disarmed f0 f -> grows l00 l1 -> winv b s f k l0 l1 n -> (mu s k < fuel)%nat ->
  wpr (reap_loop fuel) (reaped b s0 f0 l0 l00 n (mu s k - (if decide (k_cq k = []) then 0 else 1))) s f.
Proof.
  induction fuel as [|fuel IH]; intros s f k l1 Hs Hf Hg Hw Hfuel; [lia|]. cbn [reap_loop].
  apply wpr_bind, wpr_ring; [apply Hw|]. cbn [afterr].
  pose proof (peek_cqe_spec _ _ (co_rep _ _ _ _ _ _ _ _ (proj1 Hw))) as Hpk. destruct (peek_cqe (kernel s)) as [c r1].
  destruct Hpk as (k1 & Hk1 & Hr1 & ->). cbn [fst snd].
  destruct (winv_steps _ _ _ _ _ _ _ _ r1 Hw Hk1 Hr1) as (l1a & Hga & Hwa).
  pose proof (ksteps_frame _ _ Hk1) as (_ & _ & _ & _ & _ & Hev).
  assert (mu (set_kernel r1 s) k1 = mu s k) as Hmu by (unfold mu; by rewrite Hev).
  assert (same_log s0 (set_kernel r1 s)) as Hsa by (etrans; [exact Hs|]; by split).
  destruct (k_cq k1) as [|[q res] l] eqn:Hq; cbn [head fmap option_fmap option_map fst snd].
  - apply wpr_ret. split; [done|]. exists k1, l1a. split_and!; [done|done|by etrans|done|].
    assert (k_cq k = []) as ->; [|rewrite Hmu; case_decide; [lia|done]].
    destruct (k_cq k) as [|x l] eqn:E; [done|]. destruct (ksteps_drop _ _ _ _ Hk1 E) as [_ [l' ?]]. congruence.
  - assert (0 < mu s k)%nat as Hpos by (rewrite <- Hmu; unfold mu; rewrite (drop_events _ _ _ Hq); lia).
    apply wpr_bind. eapply wpr_mono; [eapply (reap_one_spec _ _ _ _ _ _ _ l00 l1a _ _ _ _ (mu s k - 1) Hsa Hf); [by etrans|exact Hwa|exact Hq|lia]|].
    intros r s2 f2 (-> & k2 & l2 & Hs2 & Hf2 & Hg2 & Hw2 & Hm2). cbn [afterr].
    eapply wpr_mono; [apply (IH s2 f2 k2 l2); [done..|lia]|].
    intros r s3 f3 (-> & k3 & l3 & ? & ? & ? & ? & Hm3). split; [done|]. exists k3, l3. split_and!; [done..|]. repeat case_decide; lia.
Qed.

Lemma reap_spec b s0 s f0 f k l0 l00 l1 n :
  same_log s0 s -> stays_disarmed f0 f -> grows l00 l1 -> winv b s f k l0 l1 n ->
  wpr reap (reaped b s0 f0 l0 l00 n (mu s k - (if decide (k_cq k = []) then 0 else 1))) s f.
Proof.
  intros Hs Hf Hg Hw. unfold reap. apply wpr_bind, wpr_reads. cbn [afterr].
  eapply reap_loop_spec; try done. apply mu_fuel, Hw.
Qed.

(** ** Draining *)

(** Draining ends with nothing in flight, or with a failure on record. *)
Definition drained b s f l0 l00 n (r : result unit) s' f' : Prop :=
  r = Ok tt /\ exists k' l1', same_log s s' /\ stays_disarmed f f' /\ grows l00 l1' /\ winv b s' f' k' l0 l1' n /\
    (k_accepts k' = true -> failure_ s' = None -> reqs k' = []).

Lemma counted_nothing s k : counted s k 0 -> k_accepts k = true -> pending_cqes_ s <= 0 -> reqs k = [].
Proof.
  intros Hn Ha Hp. destruct (Hn Ha) as [Hsq Hc]. unfold reqs. rewrite Hsq.
  destruct (k_fly k); [|cbn [length] in *; lia]. destruct (k_cq k); [done|]. cbn [length] in *. lia.
Qed.

Lemma drain_loop_spec b s0 f0 l0 l00 n fuel : forall s f k l1,
  same_log s0 s -> stays_disarmed f0 f -> grows l00 l1 -> winv b s f k l0 l1 n -> (mu s k < fuel)%nat ->
  wpr (drain_loop fuel) (drained b s0 f0 l0 l00 n) s f.
Proof.
  induction fuel as [|fuel IH]; intros s f k l1 Hs Hf Hg Hw Hfuel; [lia|]. cbn [drain_loop].
  apply wpr_bind, wpr_reads. cbn [afterr]. rewrite (co_ready _ _ _ _ _ _ _ _ (proj1 Hw)), andb_true_r.
  destruct (Z.ltb_spec 0 (pending_cqes_ s)) as [Hp|Hp].
  2:{ apply wpr_ret. split; [done|]. exists k, l1. split_and!; [done..|]. intros Ha _. eapply counted_nothing; [apply Hw|done|done]. }
  apply wpr_bind, wpr_ring; [apply Hw|]. cbn [afterr].
  pose proof (wait_cqe_spec _ _ (co_rep _ _ _ _ _ _ _ _ (proj1 Hw))) as Hwt. destruct (wait_cqe_timeout (kernel s)) as [ret r1].
  destruct Hwt as (k1 & Hk1 & Hge & Hrel & i & Hr1 & Hint). cbn [fst snd].
  pose proof (ksteps_frame _ _ Hk1) as (Hsq1 & Hsy1 & Hi1 & Ha1 & Hrel1 & Hev1).
  destruct (core_move _ _ _ _ _ _ _ _ (set_interrupts i k1) k1 r1 (proj1 Hw) Hsy1 Ha1 Hrel1 Hk1 Hr1) as (l1a & Hga & Hca).
  assert (winv b (set_kernel r1 s) f (set_interrupts i k1) l0 l1a n) as Hwa.
  { split.
    - eapply core_replace; [exact Hca|done|reflexivity|done|done|done|exact Hr1| |done|].
      + destruct (co_inv _ _ _ _ _ _ _ _ Hca). by split.
      + intros Hb. by apply (co_fine _ _ _ _ _ _ _ _ Hca).
    - apply (counted_steps s k (k1) 0 r1 (proj2 Hw) Hk1). }
  assert (same_log s0 (set_kernel r1 s)) as Hsa by (etrans; [exact Hs|]; by split).
  assert (grows l00 l1a) as Hg1 by (by etrans).
  destruct (Z.eqb_spec ret (- EINTR)) as [Hint'|Hint'].
  { apply (IH _ _ (set_interrupts i k1) l1a); [done..|]. unfold mu, pending_events in *. cbn in *. lia. }
  subst i. destruct (Z.ltb_spec ret 0) as [Hneg|Hnn].
  - apply wpr_recordFailure. split; [done|]. exists (set_interrupts (k_interrupts k) k1), l1a.
    assert (b = false) as Hb.
    { destruct b; [|done]. destruct (co_fine _ _ _ _ _ _ _ _ (proj1 Hw) eq_refl) as (Hr & _).
      destruct (Hrel Hr Hneg) as [?|[Hfly Hcq]]; [done|]. exfalso.
      destruct (proj2 Hw (rep_reliable _ _ (co_rep _ _ _ _ _ _ _ _ (proj1 Hw)) Hr)) as [_ Hpe]. rewrite Hfly, Hcq in Hpe. cbn in Hpe. lia. }
    split_and!; [|done|done| |done].
    + etrans; [exact Hsa|]. by split.
    + split; [|apply Hwa]. eapply core_replace; [apply Hwa|by split|reflexivity|done|done|done|apply Hwa| |done|by rewrite Hb].
      eapply kinv_weaken; [|apply (co_inv _ _ _ _ _ _ _ _ (proj1 Hwa))]. done.
  - apply wpr_bind. eapply wpr_mono; [eapply (reap_spec b s0 _ f0 f _ l0 l00 l1a n); done|].
    intros r s2 f2 (-> & k2 & l2 & Hs2 & Hf2 & Hg2 & Hw2 & Hm2). cbn [afterr].
    apply (IH s2 f2 k2 l2); [done..|]. rewrite decide_False in Hm2 by (by apply Hge).
    unfold mu at 2 in Hm2. unfold mu, pending_events in *. cbn in *. 
    pose proof (Hge Hnn). destruct (k_cq k1) eqn:E; [done|]. cbn in *. lia.
Qed.

Lemma drain_spec b s f k l0 l1 n : winv b s f k l0 l1 n -> wpr drain (drained b s f l0 l1 n) s f.
Proof.
  intros Hw. unfold drain. apply wpr_bind. eapply wpr_mono; [eapply (reap_spec b s s f f k l0 l1 l1 n)|].
  - reflexivity.
  - done.
  - reflexivity.
  - done.
  - intros r s1 f1 (-> & k1 & l2 & Hs & Hf & Hg & Hw1 & _). cbn [afterr]. apply wpr_bind, wpr_reads. cbn [afterr].
    eapply drain_loop_spec; [done..|]. apply mu_fuel, Hw1.
Qed.

(** ** Appending *)

(** A free slot of the queue, in the state [s] found it in. *)
Definition slotted b s0 f0 l0 l00 n (slot : sqe) s f : Prop :=
  exists k l1 r, same_log s0 s /\ stays_disarmed f0 f /\ grows l00 l1 /\ winv b (set_kernel r s) f k l0 l1 n /\
    forall p data off, exists k2, ksteps k k2 /\
      rep (set_data slot (Some p) (prep_write slot p data off (kernel s)))
        (set_sq (k_sq k ++ [(slot, mkReq p data off (Some p))]) k2).

Definition kept b s0 f0 l0 l00 n s f : Prop :=
  exists k l1, same_log s0 s /\ stays_disarmed f0 f /\ grows l00 l1 /\ winv b s f k l0 l1 n.

Lemma set_kernel_id s : set_kernel (kernel s) s = s.
Proof. by destruct s. Qed.

Lemma get_sqe_slotted b s0 s f0 f k l0 l00 l1 n :
  same_log s0 s -> stays_disarmed f0 f -> grows l00 l1 -> winv b s f k l0 l1 n ->
  match (get_sqe (kernel s)).1 with
  | Some slot => slotted b s0 f0 l0 l00 n slot (set_kernel (get_sqe (kernel s)).2 s) f
  | None => (exists k1 l1a, same_log s0 (set_kernel (get_sqe (kernel s)).2 s) /\ grows l00 l1a /\
               winv b (set_kernel (get_sqe (kernel s)).2 s) f k1 l0 l1a n /\ k_accepts k1 = false) /\ acc = false /\ b = false
  end.
Proof.
  intros Hs Hf Hg Hw. destruct (get_sqe_cases _ _ (co_rep _ _ _ _ _ _ _ _ (proj1 Hw))) as (k1 & Hk1 & Hsome & Hslot).
  destruct (get_sqe (kernel s)) as [[slot|] r1]; cbn [fst snd] in *.
  - exists k, l1, (kernel s). split_and!; [etrans; [exact Hs|]; by split|done|done| |exact Hslot].
    change (winv b (set_kernel (kernel s) s) f k l0 l1 n). by rewrite set_kernel_id.
  - destruct (winv_steps _ _ _ _ _ _ _ _ r1 Hw Hk1 Hslot) as (l1a & Hga & Hwa).
    assert (k_accepts k = false) as Hna.
    { destruct (k_accepts k) eqn:Ea; [|done]. destruct (proj2 Hw Ea) as [E _]. by destruct (Hsome E). }
    split.
    + exists k1, l1a. split_and!; [etrans; [exact Hs|]; by split|by etrans|done|].
      pose proof (ksteps_frame _ _ Hk1) as (_ & _ & _ & Ha & _). congruence.
    + split_and!.
      * destruct acc eqn:Eacc; [|done]. by rewrite (co_acc _ _ _ _ _ _ _ _ (proj1 Hw) Eacc) in Hna.
      * destruct b; [|done]. destruct (co_fine _ _ _ _ _ _ _ _ (proj1 Hw) eq_refl) as (Hr & _).
        by rewrite (rep_reliable _ _ (co_rep _ _ _ _ _ _ _ _ (proj1 Hw)) Hr) in Hna.
Qed.

(** Submitting what is queued. *)
Lemma submit_core b s f k l0 l1 n :
  core b s f k k l0 l1 n ->
  exists k1 l1', grows l1 l1' /\ core b (set_kernel (submit (kernel s)).2 s) f k1 k1 l0 l1' n /\
    (submit (kernel s)).1 <= zlen (k_sq k) /\ k_accepts k1 = k_accepts k /\
    (k_accepts k = true -> (submit (kernel s)).1 = zlen (k_sq k) /\ k_sq k1 = [] /\
       zlen (k_fly k1) + zlen (k_cq k1) = zlen (k_sq k) + zlen (k_fly k) + zlen (k_cq k)) /\
    ((submit (kernel s)).1 < 0 -> k_accepts k1 = false /\ k_sq k1 = k_sq k).
Proof.
  intros Hc. destruct (submit_cases _ _ (co_rep _ _ _ _ _ _ _ _ Hc)) as (k1 & Hk1 & Hle & Hacc & Hr1).
  set (num := (submit (kernel s)).1) in *. set (r1 := (submit (kernel s)).2) in *.
  pose proof (ksteps_frame _ _ Hk1) as (Hsq1 & Hsy1 & Hi1 & Ha1 & Hrel1 & Hev1).
  destruct (kinv_steps _ _ _ _ _ _ Hk1 (co_inv _ _ _ _ _ _ _ _ Hc)) as (l1' & Hg & Hi).
  exists (submitted num k1), l1'. split; [done|]. split_and!.
  - eapply core_replace; [exact Hc|by split|done|by cbn|by cbn|by cbn|exact Hr1|by apply kinv_submit|done|].
    intros Hb. by apply (co_fine _ _ _ _ _ _ _ _ Hc).
  - done.
  - done.
  - intros Ha. rewrite (Hacc Ha). split; [done|].
    assert (k_sq (submitted (zlen (k_sq k)) k1) = []) as Hnil.
    { cbn. rewrite Hsq1, Nat2Z.id. by apply drop_ge. }
    split; [done|]. pose proof (submitted_events (zlen (k_sq k)) k1) as He. unfold pending_events in He, Hev1.
    rewrite Hnil in He. change (k_interrupts (submitted (zlen (k_sq k)) k1)) with (k_interrupts k1) in He. cbn [length] in He. lia.
  - intros Hneg. split.
    + cbn. rewrite Ha1. destruct (k_accepts k); [|done]. specialize (Hacc eq_refl). lia.
    + cbn. rewrite Z2Nat.nonpos, drop_0 by lia. done.
Qed.

Lemma acquire_sqe_spec b s f k l0 l1 n :
  winv b s f k l0 l1 n ->
  wpr acquire_sqe (fun r s' f' => match r with
    | Ok slot => slotted b s f l0 l1 n slot s' f'
    | Throw _ => kept b s f l0 l1 n s' f' /\ b = false
    | Crashed | Undefined => False
    end) s f.
Proof.
  intros Hw. unfold acquire_sqe. apply wpr_bind, wpr_ring; [apply Hw|]. cbn [afterr].
  pose proof (get_sqe_slotted b s s f f k l0 l1 l1 n ltac:(reflexivity) (stays_refl f) ltac:(reflexivity) Hw) as Hget.
  destruct (get_sqe (kernel s)) as [[slot|] r1]; cbn [fst snd] in *; [by apply wpr_ret|].
  destruct Hget as [(k1 & l1a & Hs1 & Hg1 & Hw1 & Hna) [Hacc Hb]].
  apply wpr_bind, wpr_ring; [apply Hw|]. cbn [afterr].
  destruct (submit_core _ _ _ _ _ _ _ (proj1 Hw1)) as (k2 & l1b & Hg2 & Hc2 & _ & Ha2 & _).
  destruct (submit (kernel (set_kernel r1 s))) as [num r2]; cbn [fst snd] in *.
  assert (forall p, winv b (set_pending p (set_kernel r2 (set_kernel r1 s))) f k2 l0 l1b n) as Hw2.
  { intros p. split; [destruct Hc2; by split|]. intros Ha. congruence. }
  assert (forall p, same_log s (set_pending p (set_kernel r2 (set_kernel r1 s)))) as Hs2 by by split.
  destruct (num <? 0).
  { apply wpr_throw. split; [|done]. exists k2, l1b. split_and!; [by split|done|by etrans|].
    split; [done|]. intros Ha. congruence. }
  apply wpr_bind, wpr_update. cbn [afterr]. apply wpr_bind.
  eapply wpr_mono; [eapply (reap_spec b s _ f f k2 l0 l1 l1b n); [done|done|by etrans|done]|].
  intros r s3 f3 (-> & k3 & l1c & Hs3 & Hf3 & Hg3 & Hw3 & _). cbn [afterr].
  apply wpr_bind, wpr_ring; [apply Hw3|]. cbn [afterr].
  pose proof (get_sqe_slotted b s s3 f f3 k3 l0 l1 l1c n Hs3 Hf3 Hg3 Hw3) as Hget.
  destruct (get_sqe (kernel s3)) as [[slot|] r4]; cbn [fst snd] in *; [by apply wpr_ret|].
  apply wpr_throw. split; [|done]. destruct Hget as [(k4 & l1d & Hs4 & Hg4 & Hw4 & _) _]. by exists k4, l1d.
Qed.

(** The new record is queued. *)
Lemma queue_core b s f k l0 l1 n r slot e k2 :
  winv b (set_kernel r s) f k l0 l1 n -> ksteps k k2 ->
  record_bytes e <= write_limit whole_write b -> write_offset_ s + record_bytes e <= 2 ^ 63 ->
  let x := mkPending (encode e) (zlen (encode e)) (write_offset_ s) 1 in
  let q := mkReq (next_ptr s) (encode e) (write_offset_ s) (Some (next_ptr s)) in
  forall s', heap s' = <[next_ptr s := x]> (heap s) -> next_ptr s' = next_ptr s + 1 ->
    write_offset_ s' = write_offset_ s + zlen (encode e) -> failure_ s' = failure_ s ->
    fd_ s' = fd_ s -> ring_ready_ s' = ring_ready_ s -> durable_end_ s' = durable_end_ s ->
    rep (kernel s') (set_sq (k_sq k ++ [(slot, q)]) k2) ->
    exists l1', grows l1 l1' /\ core b s' f (set_sq (k_sq k ++ [(slot, q)]) k2) (set_sq (k_sq k ++ [(slot, q)]) k2) l0 (l1' ++ [Lost e]) n.
Proof.
  intros [Hc Hn] Hk2 Hmax Hroom x q s' Hh' Hp' Ho' Hfl' Hfd' Hrr' Hde' Hr'.
  pose proof (ksteps_frame _ _ Hk2) as (Hsq2 & Hsy2 & _ & Ha2 & Hrel2 & Hev2).
  destruct Hc as [H1 H2 H3 H4 H5 H6 H7 H8 H9 Hac H10].
  cbn [set_kernel kernel heap failure_ ring_ready_ fd_ write_offset_ next_ptr durable_end_] in *.
  destruct (kinv_steps _ _ _ _ _ _ Hk2 H2) as (l1' & Hg & Hi). exists l1'. split; [done|].
  assert (zlen (encode e) = record_bytes e) as Hlen by apply length_encode.
  pose proof (write_limit_spec b _ k H1 ltac:(naive_solver)) as Hlim. pose proof (write_limit_max b) as Hlim'.
  assert (write_offset_ s = zlen (log_bytes (l0 ++ l1'))) as Hoff by (by rewrite H5, (grows_size _ _ _ Hg)).
  assert (heap s !! next_ptr s = None) as Hfresh.
  { destruct (heap s !! next_ptr s) as [y|] eqn:E; [|done]. specialize (H7 _ _ E). lia. }
  assert (forall z, z ∈ reqs k2 -> r_buf z <> next_ptr s) as Hbufs.
  { intros z Hz E. pose proof (ki_heap _ _ _ _ _ Hi) as Hh. rewrite Forall_forall in Hh. destruct (Hh z Hz) as (y & Hy & _). congruence. }
  assert (place l0 (l1' ++ [Lost e]) (length l1') False q) as Hpl.
  { exists (Lost e). rewrite lookup_app_r, Nat.sub_diag, take_app_length by lia. split_and!; [done|done|done|cbn [r_data q]; lia|done]. }
  split; rewrite ?Hfd', ?Hrr', ?Hfl', ?Hde', ?Ho', ?Hp'; try done.
  - rewrite Hh', <- Hsq2. apply (kinv_push (heap s) _ _ _ _ l1' _ slot q (length l1')).
    + by eapply kinv_weaken; [|exact Hi].
    + exists [Lost e]. split; [done|]. apply Forall_singleton. by intros [].
    + intros z Hz. pose proof (ki_heap _ _ _ _ _ Hi) as Hh. rewrite Forall_forall in Hh. destruct (Hh z Hz) as (y & Hy & Hrest).
      exists y. split; [|done]. rewrite lookup_insert_ne; [done|]. intros E. by apply (Hbufs z Hz).
    + exists x. rewrite lookup_insert_eq. split_and!; try done. by right.
    + done.
    + intros Hin. apply list_elem_of_fmap in Hin as (z & E & Hz). by apply (Hbufs z Hz).
    + intros Hin. apply list_elem_of_fmap in Hin as (z & E & Hz). destruct (reqs_place _ _ _ _ _ _ Hi Hz) as (i & P & Hiz).
      apply place_before in Hiz. cbn [q r_off] in E. lia.
    + cbn [q r_data]. change (k_limit (drop_cq k2)) with (k_limit k2). rewrite (ksteps_limit _ _ Hk2). lia.
    + done.
    + intros Ha HX j e' Hj. destruct (decide (j < length l1')%nat) as [Hlt|Hge].
      * rewrite lookup_app_l in Hj by done. destruct (ki_live _ _ _ _ _ Hi Ha HX j e' Hj) as (z & Hz & Hpz).
        exists z. split; [by right|]. by apply place_app.
      * assert (j = length l1') as -> by (apply lookup_lt_Some in Hj; rewrite length_app in Hj; cbn in Hj; lia).
        exists q. split; [by left|done].
  - rewrite app_assoc, log_bytes_app, length_app, Nat2Z.inj_add, <- Hoff. unfold log_bytes at 1. cbn. rewrite app_nil_r, length_replicate. done.
  - lia.
  - intros p y. rewrite Hh'. destruct (decide (p = next_ptr s)) as [->|Hne]; [intros; lia|]. rewrite lookup_insert_ne by done. intros Hy%H7. lia.
  - cbn. rewrite Hsy2. apply (synced_grows _ _ l1') in H8; [|done]. destruct H8 as [Hnl Hsy]. split; [rewrite length_app; lia|].
    intros i y Hi' Hy. rewrite lookup_app_l in Hy by lia. rewrite take_app_le by lia. by apply Hsy.
  - rewrite H9, (grows_size _ _ _ (grows_take _ _ n Hg)). rewrite take_app_le; [done|]. pose proof (grows_length _ _ Hg). destruct H8. lia.
  - cbn. intros Hacc. rewrite Ha2. by apply Hac.
  - cbn. intros Hb. rewrite Hrel2. by apply H10.
Qed.

(** What appending leaves alone. *)
Record same_head s s' : Prop := {
  sh_durability : durability_ s' = durability_ s;
  sh_flag : sync_in_progress_ s' = sync_in_progress_ s;
  sh_epoch : epoch_ s' = epoch_ s;
  sh_durable : durable_end_ s' = durable_end_ s
}.

#[export] Instance same_head_po : PreOrder same_head.
Proof. split; [done|]. intros s1 s2 s3 [] []. split; congruence. Qed.

Lemma same_log_head s s' : same_log s s' -> same_head s s'.
Proof. by intros []; split. Qed.

(** The log of this life holds the records [es], those of [l1] first and where they were. *)
Definition holds b s f l0 l1 n (es : list Entry) : Prop :=
  exists k l1', extends l1 l1' /\ entry_of <$> l1' = es /\ winv b s f k l0 l1' n.

Lemma holds_grows b s f l0 l1 l1' n es : grows l1 l1' -> holds b s f l0 l1' n es -> holds b s f l0 l1 n es.
Proof. intros Hg (k & l2 & He & Hes & Hw). exists k, l2. split_and!; [|done|done]. by etrans; [apply grows_extends|]. Qed.

Definition appended b s f l0 l1 n e (r : result Ticket) s' f' : Prop :=
  same_head s s' /\ stays_disarmed f f' /\ write_offset_ s <= write_offset_ s' <= write_offset_ s + record_bytes e /\
  (b = true -> exists t, r = Ok t) /\
  match r with
  | Ok t => t = mkTicket (epoch_ s) (write_offset_ s') /\ holds b s' f' l0 l1 n ((entry_of <$> l1) ++ [e])
  | Throw _ | Crashed => holds b s' f' l0 l1 n (entry_of <$> l1) \/ holds b s' f' l0 l1 n ((entry_of <$> l1) ++ [e])
  | Undefined => False
  end.

Lemma record_bytes_pos e : 0 < record_bytes e.
Proof. unfold record_bytes. pose proof (align512_bounds (record_size (zlen (key e)) (zlen (value e)))). unfold record_size in *. lia. Qed.

(** A call that stops before anything is queued. *)
Lemma appended_none b s f l0 n k l1 e r s' f' l1' k' :
  same_log s s' -> stays_disarmed f f' -> grows l1 l1' -> winv b s' f' k' l0 l1' n -> b = false ->
  r <> Undefined -> (forall t, r <> Ok t) ->
  winv b s f k l0 l1 n -> appended b s f l0 l1 n e r s' f'.
Proof.
  intros Hs Hf Hg Hw Hb Hu Ho _. pose proof (record_bytes_pos e). pose proof (sl_offset _ _ Hs) as Eo.
  split_and!; [by apply same_log_head|done|lia|lia|by rewrite Hb|].
  assert (holds b s' f' l0 l1 n (entry_of <$> l1)) as Hh.
  { exists k', l1'. split_and!; [by apply grows_extends|by rewrite (grows_entries _ _ Hg)|done]. }
  destruct r as [t|x| |]; [by destruct (Ho t)|by left|by left|done].
Qed.

Lemma winv_count b s f k l0 l1 n : winv b s f k l0 l1 n -> zlen (k_sq k) + zlen (k_fly k) + zlen (k_cq k) <= 2 ^ 63.
Proof.
  intros [Hc _]. pose proof (reqs_bound _ _ _ _ _ (co_inv _ _ _ _ _ _ _ _ Hc)) as Hb. unfold reqs in Hb.
  rewrite !length_app, !length_fmap in Hb. pose proof (log_bytes_count l1). pose proof (co_off _ _ _ _ _ _ _ _ Hc) as Ho.
  pose proof (co_size _ _ _ _ _ _ _ _ Hc). rewrite log_bytes_app, length_app in Ho. lia.
Qed.

(** A refused submission leaves its entry in the ring, detached. *)
Lemma detach_last b s f k l0 l1 n l slot q :
  core b s f k k l0 l1 n -> k_accepts k = false -> b = false -> k_sq k = l ++ [(slot, q)] ->
  exists k' l1', grows l1 l1' /\ winv b (set_kernel (set_data slot None (kernel s)) s) f k' l0 l1' n.
Proof.
  intros Hc Hna Hb Hsq. destruct (set_data_spec (kernel s) k l slot q None (co_rep _ _ _ _ _ _ _ _ Hc) Hsq) as (k4 & Hk4 & Hr4).
  pose proof (ksteps_frame _ _ Hk4) as (Hsq4 & Hsy4 & _ & Ha4 & Hrel4 & _). rewrite Hsq in Hsq4.
  destruct (kinv_steps _ _ _ _ _ _ Hk4 (co_inv _ _ _ _ _ _ _ _ Hc)) as (l1' & Hg & Hi4).
  set (k5 := set_rings _ _ _ k4) in Hr4. exists k5, l1'. split; [done|]. split; [|intros Ha; cbn in Ha; congruence].
  eapply core_replace; [exact Hc|by split|exact Hg| | | |exact Hr4| |done|by rewrite Hb].
  - by cbn.
  - by cbn.
  - by cbn.
  - apply (kinv_detach _ _ _ _ _ _ _ _ Hi4); [congruence|done].
Qed.

(** The end of an append: reaping and the ticket. *)
Lemma append_tail b s f k l0 l1 n (Q : result Ticket -> t R -> Fault.state -> Prop) :
  winv b s f k l0 l1 n ->
  (forall r s' f' k' l', same_log s s' -> stays_disarmed f f' -> grows l1 l' -> winv b s' f' k' l0 l' n ->
    (b = true -> exists t, r = Ok t) -> r <> Undefined -> (forall t, r = Ok t -> t = mkTicket (epoch_ s) (write_offset_ s')) ->
    Q r s' f') ->
  wpr (reap ;; ticket ← reads_ (fun s => mkTicket (epoch_ s) (write_offset_ s)); hit "wal.after_append" ;; mret ticket) Q s f.
Proof.
  intros Hw HQ.
  apply wpr_bind. eapply wpr_mono; [eapply (reap_spec b s _ f f k l0 l1 l1 n); [done|done|reflexivity|done]|].
  intros r s4 f4 (-> & k4 & l4 & Hs4 & Hf4 & Hg4 & Hw4 & _). cbn [afterr].
  apply wpr_bind, wpr_reads. cbn [afterr]. apply wpr_bind, wpr_hit. intros r f5 Hf5 Hcalm Hu.
  assert (winv b s4 f5 k4 l0 l4 n) as Hw5 by (by eapply winv_faults).
  assert (stays_disarmed f f5) as Hf15 by (by eapply stays_trans).
  assert (b = true -> r = Ok tt) as Hbr.
  { intros Hb. apply Hcalm. by apply (co_fine _ _ _ _ _ _ _ _ (proj1 Hw4)). }
  destruct r as [[]|ex| |]; cbn [afterr]; [apply wpr_ret| | |done];
    (eapply (HQ _ _ _ k4 l4); [done|done|done|done|intros Hb|done|]).
  - by eexists.
  - intros t [= <-]. by rewrite (sl_epoch _ _ Hs4).
  - by specialize (Hbr Hb).
  - done.
  - by specialize (Hbr Hb).
  - done.
Qed.

(** From a free slot to the ticket. *)
Lemma submit_record b s f k l0 l1 n slot e s1 f1 (Q : result Ticket -> t R -> Fault.state -> Prop) :
  winv b s f k l0 l1 n -> slotted b s f l0 l1 n slot s1 f1 ->
  record_bytes e <= write_limit whole_write b -> write_offset_ s + record_bytes e <= 2 ^ 63 ->
  (forall r s' f', appended b s f l0 l1 n e r s' f' -> Q r s' f') ->
  wpr (off ← reads_ write_offset_;
       update (set_offset (u64 (off + zlen (encode e)))) ;;
       let x := mkPending (encode e) (zlen (encode e)) off 1 in
       p ← alloc x;
       queue_write slot p x ;;
       submitted ← ring submit;
       if submitted <? 0 then
         ring_ (set_data slot None) ;; throw (RuntimeError "WAL: io_uring_submit failed")
       else
       update (fun s => set_pending (u64 (pending_cqes_ s + submitted)) s) ;;
       reap ;;
       ticket ← reads_ (fun s => mkTicket (epoch_ s) (write_offset_ s));
       hit "wal.after_append" ;;
       mret ticket) Q s1 f1.
Proof.
  intros Hw (k1 & l1a & r0 & Hs1 & Hf1 & Hg1 & Hw1 & Hfill) Hmax Hroom HQ.
  pose proof (record_bytes_pos e) as Hpos. assert (zlen (encode e) = record_bytes e) as Hlen by apply length_encode.
  pose proof (co_ready _ _ _ _ _ _ _ _ (proj1 Hw1)) as Hready. cbn [set_kernel ring_ready_] in Hready.
  assert (write_offset_ s1 = write_offset_ s) as Hoff by apply Hs1.
  assert (0 <= write_offset_ s1) as Hoff0 by (pose proof (co_off _ _ _ _ _ _ _ _ (proj1 Hw1)) as E; cbn [set_kernel write_offset_] in E; lia).
  apply wpr_bind, wpr_reads. cbn [afterr]. apply wpr_bind, wpr_update. cbn [afterr].
  rewrite wrap_small by (rewrite Hlen, Hoff; lia).
  set (x := mkPending _ _ _ _). apply wpr_bind. unfold alloc. apply wpr_bind, wpr_reads. cbn [afterr].
  apply wpr_bind, wpr_update. cbn [afterr]. apply wpr_ret. cbn [afterr set_offset next_ptr heap].
  apply wpr_bind. unfold queue_write. apply wpr_bind, wpr_ring_; [done|]. cbn [afterr]. apply wpr_ring_; [done|]. cbn [afterr].
  cbn [set_kernel kernel set_heap set_offset bytes buf offset x].
  pose proof (write_limit_max b) as Hlim. rewrite wrap_small by (unfold MAX_RW_COUNT in Hlim; lia). rewrite Nat2Z.id, firstn_all.
  destruct (Hfill (next_ptr s1) (encode e) (write_offset_ s1)) as (k2 & Hk2 & Hr2). fold x.
  set (s2 := set_kernel _ (set_kernel _ (set_heap _ _ _))).
  destruct (queue_core b s1 f1 k1 l0 l1a n r0 slot e k2 Hw1 Hk2 Hmax ltac:(lia) s2) as (l1b & Hgb & Hc2); try done.
  set (k2' := set_sq _ k2) in *.
  apply wpr_bind, wpr_ring; [done|]. cbn [afterr].
  destruct (submit_core _ _ _ _ _ _ _ Hc2) as (k3 & l1c & Hgc & Hc3 & Hle & Ha3 & Hok & Hneg).
  set (num := (submit (kernel s2)).1) in *. set (s3 := set_kernel (submit (kernel s2)).2 s2) in *.
  assert (entry_of <$> l1c = (entry_of <$> l1) ++ [e]) as Hes.
  { rewrite <- (grows_entries _ _ Hgc), fmap_app, <- (grows_entries _ _ Hgb), <- (grows_entries _ _ Hg1). done. }
  assert (extends l1 l1c) as Hext.
  { etrans; [apply grows_extends; etrans; [exact Hg1|exact Hgb]|]. etrans; [apply extends_snoc|by apply grows_extends]. }
  assert (same_head s s3) as Hh3 by (destruct Hs1; by split).
  assert (write_offset_ s3 = write_offset_ s + record_bytes e) as Ho3 by (unfold s3, s2; cbn [set_kernel set_heap set_offset write_offset_]; lia).
  assert (Hfin : forall r s' f' k' l', same_log s3 s' -> stays_disarmed f1 f' -> grows l1c l' -> winv b s' f' k' l0 l' n ->
    (b = true -> exists t, r = Ok t) -> r <> Undefined -> (forall t, r = Ok t -> t = mkTicket (epoch_ s) (write_offset_ s')) ->
    Q r s' f').
  { intros r s' f' k' l' Hs' Hf' Hg' Hw' Hb Hu Ht. apply HQ. pose proof (sl_offset _ _ Hs') as Eo.
    split_and!; [etrans; [exact Hh3|by apply same_log_head]|by eapply stays_trans|lia|lia|done|].
    assert (holds b s' f' l0 l1 n ((entry_of <$> l1) ++ [e])) as Hhold.
    { exists k', l'. split_and!; [by etrans; [|apply grows_extends]|by rewrite <- Hes, <- (grows_entries _ _ Hg')|done]. }
    destruct r as [t|x'| |]; [split; [by apply Ht|done]|by right|by right|done]. }
  assert (k_sq k2' = k_sq k1 ++ [(slot, mkReq (next_ptr s1) (encode e) (write_offset_ s1) (Some (next_ptr s1)))]) as Hsq2 by done.
  assert (num < 0 -> b = false) as Hnb.
  { intros Hlt. destruct b; [|done]. destruct (co_fine _ _ _ _ _ _ _ _ Hc2 eq_refl) as (Hr & _).
    pose proof (rep_reliable _ _ (co_rep _ _ _ _ _ _ _ _ Hc2) Hr) as Ha. destruct (Hok Ha) as [E _]. lia. }
  destruct (Z.ltb_spec num 0) as [Hlt|Hge].
  - destruct (Hneg Hlt) as [Hna Hsq3]. apply wpr_bind, wpr_ring_; [done|]. cbn [afterr]. apply wpr_throw.
    rewrite Hsq2 in Hsq3.
    destruct (detach_last _ _ _ _ _ _ _ _ _ _ Hc3 Hna (Hnb Hlt) Hsq3) as (k5 & l1d & Hgd & Hw5).
    eapply (Hfin _ _ _ k5 l1d); [by split|done|done|exact Hw5|by rewrite (Hnb Hlt)|done|done].
  - apply wpr_bind, wpr_update. cbn [afterr]. fold s3.
    assert (winv b (set_pending (u64 (pending_cqes_ s3 + num)) s3) f1 k3 l0 l1c n) as Hw3.
    { split; [destruct Hc3; by split|]. intros Ha. rewrite Ha3 in Ha. destruct (Hok Ha) as (En & Hsq3 & Hcount). split; [done|].
      pose proof (ksteps_frame _ _ Hk2) as (E2 & _ & Ei2 & Ea2 & _ & Hev2). change (k_accepts k2') with (k_accepts k2) in Ha.
      rewrite Ea2 in Ha. destruct (proj2 Hw1 Ha) as [Hsq1 Hp1]. pose proof (winv_count _ _ _ _ _ _ _ Hw1) as Hmany.
      unfold pending_events in Hev2. rewrite E2, Ei2, Hsq1 in Hev2.
      change (k_fly k2') with (k_fly k2) in Hcount. change (k_cq k2') with (k_cq k2) in Hcount.
      rewrite Hsq2, Hsq1 in *. cbn [length app set_kernel set_pending pending_cqes_] in *.
      change (pending_cqes_ s3) with (pending_cqes_ s1). rewrite wrap_small; lia. }
    eapply append_tail; [exact Hw3|]. intros r s' f' k' l' Hs' Hf' Hg' Hw' Hb Hu Ht.
    eapply (Hfin r s' f' k' l'); [|done|done|done|done|done|].
    + destruct Hs'. by split.
    + intros t Et. rewrite (Ht t Et). f_equal. exact (sh_epoch _ _ Hh3).
Qed.

Lemma writeEntry_spec b s f k l0 l1 n ty ky v :
  let e := mkEntry ty ky v in
  winv b s f k l0 l1 n -> record_bytes e <= write_limit whole_write b -> write_offset_ s + record_bytes e <= 2 ^ 63 ->
  wpr (writeEntry ty ky v) (appended b s f l0 l1 n e) s f.
Proof.
  intros e Hw Hmax Hroom. unfold writeEntry.
  assert (forall ex s' f' k' l1', same_log s s' -> stays_disarmed f f' -> grows l1 l1' -> winv b s' f' k' l0 l1' n -> b = false ->
    appended b s f l0 l1 n e (Throw ex) s' f') as Hnone by (intros; by eapply appended_none).
  assert (stays_disarmed f f) as Hff by (done).
  apply wpr_bind, wpr_reads. cbn [afterr]. case_bool_decide as Hfail.
  { apply wpr_throw. eapply Hnone; [done|done|reflexivity|exact Hw|]. destruct b; [|done].
    destruct (co_fine _ _ _ _ _ _ _ _ (proj1 Hw) eq_refl) as (_ & ? & _). done. }
  assert ((UINT32_MAX <? zlen ky) || (UINT32_MAX <? zlen v) = false) as ->.
  { pose proof (write_limit_max b) as Hlim. unfold record_bytes in Hmax. unfold MAX_RW_COUNT in Hlim. cbn [WAL.key WAL.value e] in Hmax.
    pose proof (align512_bounds (record_size (zlen ky) (zlen v))). unfold record_size, UINT32_MAX in *.
    apply orb_false_iff. rewrite !Z.ltb_ge. lia. }
  apply wpr_bind, wpr_hit. intros r f1 Hf1 Hcalm Hu.
  assert (winv b s f1 k l0 l1 n) as Hw1 by (by eapply winv_faults).
  assert (b = true -> r = Ok tt) as Hbr.
  { intros Hb. apply Hcalm. by apply (co_fine _ _ _ _ _ _ _ _ (proj1 Hw)). }
  destruct r as [[]|ex| |]; cbn [afterr]; [|eapply Hnone; [done|done|reflexivity|exact Hw1|]|eapply appended_none; [done|done|reflexivity|exact Hw1| |done|done|exact Hw]|done];
    [|by destruct b; [specialize (Hbr eq_refl)|]..].
  apply wpr_bind, wpr_sys.
  pose proof (memalign_spec _ _ (co_rep _ _ _ _ _ _ _ _ (proj1 Hw1))) as Hma. destruct (memalign (kernel s)) as [ok r1].
  destruct Hma as (k1 & Hk1 & Hok & Hr1). cbn [fst snd afterr].
  destruct (winv_steps _ _ _ _ _ _ _ _ r1 Hw1 Hk1 Hr1) as (l1a & Hga & Hwa).
  destruct ok; cbn [negb].
  2:{ apply wpr_throw. eapply Hnone; [by split|done|exact Hga|exact Hwa|]. destruct b; [|done].
      destruct (co_fine _ _ _ _ _ _ _ _ (proj1 Hw) eq_refl) as (Hr & _). by specialize (Hok Hr). }
  apply wpr_bind. eapply wpr_mono; [by eapply acquire_sqe_spec|]. intros r s2 f2 Hacq.
  destruct r as [slot|ex| |]; cbn [afterr].
  - eapply submit_record; [exact Hwa|exact Hacq|exact Hmax|exact Hroom|].
    intros r s3 f3 (Hh & Hf3 & Ho3 & Hb3 & Hr3). rewrite <- (grows_entries _ _ Hga) in Hr3.
    split_and!; [etrans; [|exact Hh]; by split|by eapply stays_trans|apply Ho3|apply Ho3|done|].
    destruct r; naive_solver eauto using holds_grows.
  - destruct Hacq as [(k2 & l1b & Hs2 & Hf2 & Hg2 & Hw2) Hb].
    eapply Hnone; [|by eapply stays_trans|etrans; [exact Hga|exact Hg2]|exact Hw2|done]. etrans; [|exact Hs2]. by split.
  - done.
  - done.
Qed.

(** ** Durability *)

Context (Hacc : acc = true).

Lemma winv_accepts b s f k l0 l1 n : winv b s f k l0 l1 n -> k_accepts k = true.
Proof. intros [Hc _]. by apply (co_acc _ _ _ _ _ _ _ _ Hc). Qed.

Lemma winv_stats b s f k l0 l1 n a c : winv b s f k l0 l1 n -> winv b (set_stats a c s) f k l0 l1 n.
Proof. intros [Hc Hn]. split; [by apply core_stats|done]. Qed.

(** Once a drain has found no failure, everything has landed. *)
Lemma drained_written b s f k l0 l1 n :
  winv b s f k l0 l1 n -> (k_accepts k = true -> failure_ s = None -> reqs k = []) -> failure_ s = None -> Forall is_written l1.
Proof.
  intros Hw Hr Hf. pose proof (winv_accepts _ _ _ _ _ _ _ Hw) as Ha.
  apply (kinv_all_written (heap s) k l0 l1); [|done|by apply Hr].
  eapply kinv_weaken; [|apply (co_inv _ _ _ _ _ _ _ _ (proj1 Hw))]. done.
Qed.

Definition led b s f l0 l1 n (r : result (option string * Z)) s' f' : Prop :=
  exists k' l1' n', same_log s s' /\ stays_disarmed f f' /\ grows l1 l1' /\ (n <= n')%nat /\ winv b s' f' k' l0 l1' n' /\
  match r with
  | Ok (None, target) => n' = length l1' /\ target = write_offset_ s'
  | Ok (Some _, _) | Throw _ | Crashed => b = false
  | Undefined => False
  end.

Lemma winv_more b s f k l0 l1 n n' : winv b s f k l0 l1 n -> (n <= n')%nat -> synced l0 l1 n' (k_synced k) -> winv b s f k l0 l1 n'.
Proof.
  intros [Hc Hn] Hle Hs. split; [|done]. destruct Hc as [H1 H2 H3 H4 H5 H6 H7 H8 H9 H10 H11]. split; try done.
  etrans; [exact H9|]. by apply log_take_mono.
Qed.

(** A sync with the first [m] records written makes them durable. *)
Lemma synced_winv b s f k l0 l1 n m k2 l1b r :
  winv b s f k l0 l1 n -> (n <= m <= length l1)%nat -> Forall is_written (take m l1) -> ksteps k k2 -> grows l1 l1b ->
  kinv (heap s) (failure_ s = None) k2 l0 l1b -> rep r (set_synced (default [] (k_file k2)) k2) ->
  winv b (set_kernel r s) f (set_synced (default [] (k_file k2)) k2) l0 l1b m.
Proof.
  intros Hw Hm Hall Hk2 Hg2 Hi2 Hr. pose proof (ksteps_frame _ _ Hk2) as (Hsq2 & Hsy2 & _ & Ha2 & Hrel2 & _).
  assert (Forall is_written (take m l1b)) as Hallb by (eapply grows_all_written; [by apply grows_take|done]).
  rewrite (grows_length _ _ Hg2) in Hm.
  split; [|apply (counted_steps s k k2 0 r (proj2 Hw) Hk2)].
  destruct (proj1 Hw) as [H1 H2 H3 H4 H5 H6 H7 H8 H9 H10 H11].
  split; cbn [set_kernel kernel heap failure_ ring_ready_ fd_ write_offset_ next_ptr durable_end_]; try done.
  - by destruct Hi2; split.
  - by rewrite H5, (grows_size _ _ _ Hg2).
  - apply synced_upto; [|lia|done]. destruct (ki_file _ _ _ _ _ Hi2) as (data & E & Himg). cbn. by rewrite E.
  - rewrite H9, (grows_size _ _ _ (grows_take _ _ n Hg2)). apply log_take_mono. lia.
  - cbn. rewrite Ha2. done.
  - cbn. rewrite Hrel2. done.
Qed.

Lemma leader_spec b s f k l0 l1 n : winv b s f k l0 l1 n -> wpr leader (led b s f l0 l1 n) s f.
Proof.
  intros Hw. unfold leader. apply wpr_bind. eapply wpr_mono; [by eapply drain_spec|].
  intros r s1 f1 (-> & k1 & l1a & Hs1 & Hf1 & Hg1 & Hw1 & Hempty). cbn [afterr].
  apply wpr_bind, wpr_reads. cbn [afterr]. apply wpr_bind, wpr_reads. cbn [afterr]. apply wpr_bind, wpr_reads. cbn [afterr].
  assert (forall r s' f' k' l1' n', same_log s1 s' -> stays_disarmed f1 f' -> grows l1a l1' -> (n <= n')%nat -> winv b s' f' k' l0 l1' n' ->
    match r with
    | Ok (None, target) => n' = length l1' /\ target = write_offset_ s'
    | Ok (Some _, _) | Throw _ | Crashed => b = false
    | Undefined => False
    end -> led b s f l0 l1 n r s' f') as Hled.
  { intros r s' f' k' l1' n' Hs' Hf' Hg' Hn' Hw' Hr. exists k', l1', n'.
    split_and!; [by etrans|by eapply stays_trans|by etrans|done|done|done]. }
  case_bool_decide as Hfail.
  { apply wpr_ret. eapply Hled; [done|done|reflexivity|done|exact Hw1|]. destruct b; [|done].
    by destruct (co_fine _ _ _ _ _ _ _ _ (proj1 Hw1) eq_refl) as (_ & ? & _). }
  pose proof (drained_written _ _ _ _ _ _ _ Hw1 Hempty Hfail) as Hall.
  rewrite (co_fd _ _ _ _ _ _ _ _ (proj1 Hw1)).
  assert (b = true -> Fault.g_armed f1 = false) as Hcalm by (intros Hb; by apply (co_fine _ _ _ _ _ _ _ _ (proj1 Hw1))).
  apply wpr_bind, wpr_hit. intros r f2 Hf2 Hr2 Hu.
  assert (winv b s1 f2 k1 l0 l1a n) as Hw2 by (by eapply winv_faults).
  destruct r as [[]|ex| |]; cbn [afterr]; [|eapply Hled; [done|done|reflexivity|done|exact Hw2|]..|done];
    [|by destruct b; [specialize (Hr2 (Hcalm eq_refl))|]..].
  apply wpr_bind, wpr_update. cbn [afterr]. set (s2 := set_stats _ _ s1).
  assert (winv b s2 f2 k1 l0 l1a n) as Hw2' by (by apply winv_stats).
  apply wpr_bind, wpr_shouldFail. intros bad f3 Hf3 Hbad. cbn [afterr].
  assert (winv b s2 f3 k1 l0 l1a n) as Hw3 by (by eapply winv_faults).
  assert (stays_disarmed f1 f3) as Hf13 by (by eapply stays_trans).
  destruct bad.
  { apply wpr_bind, wpr_ret. cbn [afterr negb]. apply wpr_ret. eapply Hled; [by split|done|reflexivity|done|exact Hw3|].
    destruct b; [|done]. destruct (Hbad (Hf2 (Hcalm eq_refl))) as [? _]. done. }
  apply wpr_bind, wpr_sys.
  pose proof (fdatasync_spec _ _ (co_rep _ _ _ _ _ _ _ _ (proj1 Hw3))) as Hfd. destruct (fdatasync (kernel s2)) as [ok r3].
  destruct Hfd as (k2 & Hk2 & Hok & Hr3). cbn [fst snd afterr].
  pose proof (ksteps_frame _ _ Hk2) as (Hsq2 & Hsy2 & _ & Ha2 & Hrel2 & _).
  destruct (kinv_steps _ _ _ _ _ _ Hk2 (co_inv _ _ _ _ _ _ _ _ (proj1 Hw3))) as (l1b & Hg2 & Hi2).
  destruct ok; cbn [negb].
  2:{ apply wpr_ret. destruct (winv_steps _ _ _ _ _ _ _ _ r3 Hw3 Hk2 Hr3) as (l1c & Hgc & Hwc).
      eapply Hled; [by split|done|exact Hgc|done|exact Hwc|]. destruct b; [|done].
      destruct (co_fine _ _ _ _ _ _ _ _ (proj1 Hw1) eq_refl) as (Hr & _). by specialize (Hok Hr). }
  assert (n <= length l1a)%nat as Hn by apply (co_synced _ _ _ _ _ _ _ _ (proj1 Hw3)).
  assert (winv b (set_kernel r3 s2) f3 (set_synced (default [] (k_file k2)) k2) l0 l1b (length l1a)) as Hw4.
  { apply (synced_winv _ _ _ _ _ _ n (length l1a) _ _ _ Hw3); [lia|by rewrite (firstn_all l1a)|done..]. }
  rewrite (grows_length _ _ Hg2) in Hn, Hw4. set (k3 := set_synced _ k2) in *.
  apply wpr_bind, wpr_hit. intros r f4 Hf4 Hr4 Hu4.
  assert (winv b (set_kernel r3 s2) f4 k3 l0 l1b (length l1b)) as Hw5 by (by eapply winv_faults).
  assert (stays_disarmed f1 f4) as Hf14 by (by eapply stays_trans).
  destruct r as [[]|ex| |]; cbn [afterr]; [apply wpr_ret|..|done];
    (eapply Hled; [by split|done|exact Hg2|exact Hn|exact Hw5|]); [done|by destruct b; [specialize (Hr4 (Hf13 (Hcalm eq_refl)))|]..].
Qed.

(** What waiting leaves alone, and that no leadership is left behind. *)
Record waited b s f l0 l1 n (r : result unit) s' f' : Prop := {
  wt_durability : durability_ s' = durability_ s;
  wt_epoch : epoch_ s' = epoch_ s;
  wt_offset : write_offset_ s' = write_offset_ s;
  wt_stays : stays_disarmed f f';
  wt_flag : r <> Crashed -> sync_in_progress_ s' = false;
  wt_ok : b = true -> r = Ok tt;
  wt_inv : exists k' l1' n', grows l1 l1' /\ (n <= n')%nat /\ winv b s' f' k' l0 l1' n'
}.

Lemma winv_set_sync b s f k l0 l1 n flag d :
  winv b s f k l0 l1 n -> d <= zlen (log_bytes (l0 ++ take n l1)) -> winv b (set_sync flag d s) f k l0 l1 n.
Proof. intros [[] Hn] Hd. by split; [split|]. Qed.

Lemma winv_flag b s f k l0 l1 n flag : winv b s f k l0 l1 n -> winv b (set_sync flag (durable_end_ s) s) f k l0 l1 n.
Proof. intros Hw. apply winv_set_sync; [done|apply Hw]. Qed.

(** A ticket of this epoch is for a position of the log. *)
Lemma waitDurable_spec b s f k l0 l1 n ticket :
  winv b s f k l0 l1 n -> sync_in_progress_ s = false -> (epoch ticket = epoch_ s -> end_ ticket <= write_offset_ s) ->
  wpr (waitDurable ticket) (fun r s' f' => waited b s f l0 l1 n r s' f' /\ r <> Undefined /\
    (r = Ok tt -> epoch ticket = epoch_ s -> exists k' l1' n', grows l1 l1' /\ (n <= n')%nat /\ winv b s' f' k' l0 l1' n' /\
       end_ ticket <= zlen (log_bytes (l0 ++ take n' l1')))) s f.
Proof.
  intros Hw Hflag Hend. unfold waitDurable. cbn [wait_loop]. apply wpr_bind, wpr_reads. cbn [afterr id].
  assert (waited b s f l0 l1 n (Ok tt) s f) as Hnow.
  { split; try done. exists k, l1, n. split_and!; [reflexivity|lia|done]. }
  destruct (Z.eqb_spec (epoch ticket) (epoch_ s)) as [He|He]; cbn [negb]; [|by apply wpr_ret; split_and!].
  specialize (Hend He). destruct (Z.leb_spec (end_ ticket) (durable_end_ s)) as [Hle|Hgt].
  { apply wpr_ret. split_and!; [done|done|]. intros _ _. exists k, l1, n. split_and!; [reflexivity|lia|done|].
    etrans; [exact Hle|apply Hw]. }
  rewrite Hflag. apply wpr_bind, wpr_update. cbn [afterr]. set (s1 := set_sync true _ s).
  pose proof (winv_flag _ _ _ _ _ _ _ true Hw) as Hw1. fold s1 in Hw1.
  apply wpr_bind. unfold on_throw.
  pose proof (leader_spec _ _ _ _ _ _ _ Hw1) as Hlead. unfold wpr in Hlead |- *.
  destruct (leader s1 f) as [[r s2] f2]. cbn [fst snd] in Hlead.
  destruct Hlead as (k2 & l1a & n2 & Hs2 & Hf2 & Hg2 & Hn2 & Hw2 & Hr).
  assert (forall r' flag, b = false -> (r' <> Crashed -> flag = false) -> waited b s f l0 l1 n r' (set_sync flag (durable_end_ s2) s2) f2) as Hbad.
  { intros r' flag Hb Hfl. split; [apply Hs2|apply Hs2|apply Hs2|done|done|by rewrite Hb|].
    exists k2, l1a, n2. split_and!; [done|done|by apply winv_flag]. }
  destruct r as [[[what|] target]|x| |]; cbn [fst snd afterr].
  - (* the leader reports an error *)
    unfold sync_flag. cbn. split_and!; [by apply Hbad|done|done].
  - (* everything is durable *)
    destruct Hr as [-> ->].
    set (s3 := set_sync false (Z.max (durable_end_ s2) (write_offset_ s2)) s2).
    assert (winv b s3 f2 k2 l0 l1a (length l1a)) as Hw3.
    { apply winv_set_sync; [done|]. rewrite (firstn_all l1a). pose proof (co_off _ _ _ _ _ _ _ _ (proj1 Hw2)) as Ho.
      pose proof (co_durable _ _ _ _ _ _ _ _ (proj1 Hw2)) as Hd. rewrite (firstn_all l1a) in Hd. lia. }
    assert (epoch_ s2 = epoch_ s) as Ep by apply Hs2. assert (write_offset_ s2 = write_offset_ s) as Eo by apply Hs2.
    assert (waited b s f l0 l1 n (Ok tt) s3 f2) as Hdone.
    { split; [apply Hs2|apply Hs2|apply Hs2|done|done|done|by exists k2, l1a, (length l1a)]. }
    apply wpr_bind, wpr_update. cbn [afterr]. apply wpr_bind, wpr_update. cbn [afterr].
    rewrite bool_decide_true by done. cbn [set_sync epoch_ andb]. rewrite Ep, Z.eqb_refl.
    change (set_sync false _ (set_sync false _ s2)) with s3. apply wpr_bind, wpr_reads. cbn [afterr id].
    change (epoch_ s3) with (epoch_ s2). change (durable_end_ s3) with (Z.max (durable_end_ s2) (write_offset_ s2)).
    rewrite Ep, (proj2 (Z.eqb_eq _ _) He). cbn [negb]. rewrite (proj2 (Z.leb_le _ _)) by lia. apply wpr_ret.
    split_and!; [exact Hdone|done|]. intros _ _. exists k2, l1a, (length l1a). split_and!; [done|done|exact Hw3|].
    rewrite (firstn_all l1a). pose proof (co_off _ _ _ _ _ _ _ _ (proj1 Hw2)). lia.
  - unfold sync_flag. cbn. split_and!; [by apply Hbad|done|done].
  - split_and!; [|done|done]. specialize (Hbad Crashed (sync_in_progress_ s2) Hr). by destruct s2; apply Hbad.
  - done.
Qed.

(** ** Clearing *)

(** With nothing in flight the kernel makes no progress. *)
Lemma ksteps_idle k k1 : ksteps k k1 -> k_fly k = [] -> k1 = k.
Proof.
  intros H Hf. destruct H as [k|k k' k1 Hs _]; [done|]. exfalso.
  destruct Hs as [A q b B k f E|A q b B k f n E|A q b B k E|A q b B k res E]; rewrite E in Hf; by destruct A.
Qed.

(** The records of a log that is no longer written: no ring, nothing in flight. *)
Definition idle k : Prop := k_sq k = [] /\ k_fly k = [] /\ k_cq k = [].

Lemma winv_fresh b s f k :
  rep (kernel s) k -> idle k -> k_file k = Some [] -> (acc = true -> k_accepts k = true) -> (b = true -> k_reliable k = true) ->
  (b = true -> Fault.g_armed f = false) ->
  fd_ s = true -> ring_ready_ s = true -> write_offset_ s = 0 -> pending_cqes_ s = 0 -> failure_ s = None ->
  durable_end_ s <= 0 -> (forall p x, heap s !! p = Some x -> p < next_ptr s) ->
  winv b s f k [] [] 0.
Proof.
  intros Hr (Hsq & Hfly & Hcq) Hfile Ha Hb Hf Hfd Hrr Ho Hp Hfl Hd Hptr. split.
  - split; try done; [|by rewrite Ho|intros Hbt; split_and!; auto].
    split; unfold reqs; rewrite ?Hsq, ?Hfly, ?Hcq; cbn; try done; try constructor.
    + exists []. split; [done|]. apply image_nil.
  - intros _. rewrite Hsq, Hfly, Hcq, Hp. done.
Qed.

Definition cleared b s f l0 l1 n (r : result unit) s' f' : Prop :=
  stays_disarmed f f' /\ durability_ s' = durability_ s /\ (b = true -> r = Ok tt) /\
  match r with
  | Ok _ => (exists k', winv b s' f' k' [] [] 0) /\ sync_in_progress_ s' = false /\ epoch_ s' = u64 (epoch_ s + 1) /\
      durable_end_ s' = 0 /\ failure_ s' = None
  | Throw _ => write_offset_ s' <= write_offset_ s /\
      exists k', rep (kernel s') k' /\ k_fly k' = [] /\ zlen (default [] (k_file k')) <= write_offset_ s' /\
        ((exists data l1', k_file k' = Some data /\ image data (l0 ++ l1') /\ grows l1 l1' /\ Forall is_written (take n l1')) \/
         default [] (k_file k') = [])
  | Crashed | Undefined => False
  end.

Lemma clear_spec b s f k l0 l1 n :
  winv b s f k l0 l1 n -> sync_in_progress_ s = false -> wpr clear (cleared b s f l0 l1 n) s f.
Proof.
  intros Hw Hflag. unfold clear. apply wpr_bind, wpr_reads. cbn [afterr]. rewrite Hflag.
  apply wpr_bind, wpr_update. cbn [afterr]. apply wpr_bind, wpr_update. cbn [afterr].
  set (s1 := set_epoch _ _).
  assert (winv b s1 f k l0 l1 n) as Hw1.
  { destruct Hw as [[H1 H2 H3 H4 H5 H6 H7 H8 H9 H10 H11] Hn]. split; [|done]. split; try done. cbn. lia. }
  apply wpr_bind. eapply wpr_mono; [by eapply drain_spec|].
  intros r s2 f2 (-> & k2 & l1a & Hs2 & Hf2 & Hg2 & Hw2 & _). cbn [afterr].
  apply wpr_bind, wpr_reads. cbn [afterr]. apply wpr_bind, wpr_reads. cbn [afterr].
  rewrite (co_ready _ _ _ _ _ _ _ _ (proj1 Hw2)), (co_fd _ _ _ _ _ _ _ _ (proj1 Hw2)).
  apply wpr_bind, wpr_bind, wpr_ring_; [apply Hw2|]. cbn [afterr]. apply wpr_update. cbn [afterr].
  destruct (queue_exit_spec _ _ (co_rep _ _ _ _ _ _ _ _ (proj1 Hw2))) as (k3 & Hk3 & Hr3).
  pose proof (ksteps_frame _ _ Hk3) as (_ & _ & _ & Ha3 & Hrel3 & _).
  destruct (kinv_steps _ _ _ _ _ _ Hk3 (co_inv _ _ _ _ _ _ _ _ (proj1 Hw2))) as (l1b & Hg3 & Hi3).
  set (k4 := set_rings [] [] [] k3) in Hr3. 
  apply wpr_bind, wpr_update. cbn [afterr]. apply wpr_bind, wpr_sys. cbn [set_handles set_kernel kernel].
  assert (b = true -> k_reliable k4 = true) as Hrel.
  { intros Hb. destruct (co_fine _ _ _ _ _ _ _ _ (proj1 Hw2) Hb) as (Hr & _). cbn. by rewrite Hrel3. }
  assert (acc = true -> k_accepts k4 = true) as Hacc4.
  { intros Hb. pose proof (co_acc _ _ _ _ _ _ _ _ (proj1 Hw2) Hb). cbn. by rewrite Ha3. }
  assert (b = true -> Fault.g_armed f2 = false) as Hcalm by (intros Hb; by apply (co_fine _ _ _ _ _ _ _ _ (proj1 Hw2))).
  destruct (ki_file _ _ _ _ _ Hi3) as (data & Hdata & Himg).
  assert (zlen data <= write_offset_ s2) as Hsize.
  { rewrite (co_off _ _ _ _ _ _ _ _ (proj1 Hw2)), (grows_size _ _ _ Hg3). by apply image_size. }
  assert (write_offset_ s2 = write_offset_ s) as Hoff2 by (by rewrite (sl_offset _ _ Hs2)).
  assert (Hbroken : forall x s' k', durability_ s' = durability_ s -> b = false -> rep (kernel s') k' -> k_fly k' = [] ->
    (k_file k' = Some data /\ write_offset_ s' = write_offset_ s2 \/ default [] (k_file k') = [] /\ 0 <= write_offset_ s' <= write_offset_ s2) ->
    cleared b s f l0 l1 n (Throw x) s' f2).
  { intros x s' k' Hdu Hb Hr' Hfly Hcase. split_and!; [done|done|by rewrite Hb|lia|].
    exists k'. split_and!; [done|done|destruct Hcase as [[E ?]|[E ?]]; rewrite E; cbn; lia|].
    destruct Hcase as [[E _]|[E _]]; [left|by right].
    exists data, l1b. split_and!; [done|done|by etrans|]. eapply synced_prefix, synced_grows; [apply Hw2|done]. }
  assert (0 <= write_offset_ s2) as Hoff0 by lia.
  assert (durability_ s2 = durability_ s) as Hdur by (by rewrite (sl_durability _ _ Hs2)).
  pose proof (remove_log_spec _ _ Hr3) as Hrm. destruct (remove_log (queue_exit (kernel s2))) as [failed r4].
  destruct Hrm as (k4' & Hk4 & Hok & Hr4). apply ksteps_idle in Hk4 as ->; [|done]. cbn [fst snd].
  destruct failed.
  { apply wpr_throw. apply (Hbroken _ _ k4); [done|by destruct b; [specialize (Hok (Hrel eq_refl))|]|done|done|by left]. }
  apply wpr_bind, wpr_sys. cbn [set_handles set_kernel kernel].
  pose proof (open_log_spec _ _ Hr4) as Hop. destruct (open_log r4) as [opened r5].
  destruct Hop as (k5' & Hk5 & Hok5 & Hr5). apply ksteps_idle in Hk5 as ->; [|done]. cbn [fst snd].
  destruct opened; cbn [negb].
  2:{ apply wpr_throw. eapply Hbroken; [done|by destruct b; [specialize (Hok5 (Hrel eq_refl))|]|exact Hr5|done|by right]. }
  apply wpr_bind, wpr_update. cbn [afterr]. apply wpr_bind, wpr_update. cbn [afterr]. apply wpr_bind, wpr_sys.
  cbn [set_offset set_handles set_kernel kernel].
  set (k5 := set_file _ _) in Hr5.
  pose proof (queue_init_spec r5 k5 Hr5 eq_refl eq_refl eq_refl) as Hqi. destruct (queue_init r5) as [ok r6].
  destruct Hqi as [Hok6 Hr6]. cbn [fst snd].
  destruct ok; cbn [negb].
  2:{ apply wpr_bind, wpr_update. cbn [afterr]. apply wpr_throw.
      apply (Hbroken _ _ k5); [done|by destruct b; [specialize (Hok6 (Hrel eq_refl))|]|done|done|by right]. }
  apply wpr_bind, wpr_update. cbn [afterr]. apply wpr_bind, wpr_update. cbn [afterr]. apply wpr_update.
  split_and!; [done|done|done| |by apply Hs2|cbn; by rewrite (sl_epoch _ _ Hs2)|cbn; by rewrite (sl_durable _ _ Hs2)|done].
  exists k5. apply winv_fresh; try done; [cbn; by rewrite (sl_durable _ _ Hs2)|]. cbn. intros p x Hx.
  by apply (co_ptr _ _ _ _ _ _ _ _ (proj1 Hw2) p x).
Qed.

End spec.

End WalWriterSpec.
