(* ===== verification/WalLog.v ===== *)
(** * The writer as the engine's log

    The writer of [WalWriter] on any kernel that keeps [UringSpec] and never
    refuses a submission meets [LogSpec], for records of at most [whole_write]
    bytes: appended records are at their places,
    a wait that returns has made them durable, clearing forgets them, and what a
    later life recovers are the durable ones and some of the others, in order. *)

From S2P Require Import Prelude WalFormat Fault Kernel LogSpec WalWriter WalDisk WalWriterSpec.
Open Scope Z_scope.

Module WalLog.
Import WAL Kernel WalWriter WalDisk WalWriterSpec.

Section log.
Context {R : Type} `{!Uring R} `{!UringSpec R}.
Implicit Types (w : t R) (k : kstate sqe).

#[export] Instance writer_ops : LogOps (t R) R := {
  log_ticket := Ticket;
  log_open := open;
  log_durable := durability_;
  log_append := writeEntry;
  log_waitDurable := waitDurable;
  log_sync := sync;
  log_recover := recover;
  log_clear := clear;
  log_close w f :=
    match close_ w f with
    | (Ok _, w, f) => (Ok (kernel w), f)
    | (Throw x, _, f) => (Throw x, f)
    | (Crashed, _, f) => (Crashed, f)
    | (Undefined, _, f) => (Undefined, f)
    end
}.

(** ** Records of a life *)

Lemma winv_any b b' w f f' k l0 l1 n :
  winv true b w f k l0 l1 n -> (b' = true -> b = true /\ Fault.g_armed f' = false) -> winv true b' w f' k l0 l1 n.
Proof. intros [[] Hn] Hb. split; [|done]. split; try done. intros Hb'. destruct (Hb Hb') as [Hbt Hf]. naive_solver. Qed.

(** The records [s ++ p] of earlier lives [l0] and of this one, [n] of them durable. *)
Definition split_at (l0 l1 : list slot) (n : nat) (s p : list Entry) : Prop :=
  s = survivors l0 ++ take n (entry_of <$> l1) /\ p = drop n (entry_of <$> l1).

Definition life b w k l0 l1 n s p : Prop :=
  winv true b w Fault.init k l0 l1 n /\ sync_in_progress_ w = false /\ split_at l0 l1 n s p.

Definition w_rep b w s p : Prop := exists k l0 l1 n, life b w k l0 l1 n s p.

Definition w_covers b w s p (ticket : Ticket) (m : nat) : Prop :=
  exists k l0 l1 n j, life b w k l0 l1 n s p /\ epoch ticket = epoch_ w /\ (j <= length l1)%nat /\
    end_ ticket = zlen (log_bytes (l0 ++ take j l1)) /\ (m <= length (survivors l0) + j)%nat.

Definition w_left w s p : Prop :=
  exists k, rep (kernel w) k /\ zlen (default [] (k_file k)) <= write_offset_ w /\
    forall k', ksteps k k' -> zlen (default [] (k_file k')) <= write_offset_ w /\
      exists p', p' `sublist_of` p /\ exists l, image (default [] (k_file k')) l /\ survivors l = s ++ p'.

Definition w_dies w (d : R) : Prop := forall k, rep (kernel w) k -> exists k', ksteps k k' /\ read_log d = k_file k'.

Definition d_rep (d : R) (es : list Entry) : Prop := exists l, image (default [] (read_log d)) l /\ survivors l = es.

Definition d_ready (b : bool) (d : R) : Prop :=
  exists k, rep d k /\ idle k /\ k_accepts k = true /\ (b = true -> k_reliable k = true) /\
    zlen (default [] (read_log d)) <= 2 ^ 63.      (* off_t *)

Lemma split_at_app l0 l1 n s p : split_at l0 l1 n s p -> s ++ p = survivors l0 ++ (entry_of <$> l1).
Proof. intros [-> ->]. by rewrite <- app_assoc, take_drop. Qed.

(** The records found in an image of the log. *)
Lemma image_records data l0 l1 l1' n s p :
  image data (l0 ++ l1') -> grows l1 l1' -> Forall is_written (take n l1') -> split_at l0 l1 n s p ->
  exists p', p' `sublist_of` p /\ exists l, image data l /\ survivors l = s ++ p'.
Proof.
  intros Himg Hg Hw [-> ->]. exists (survivors (drop n l1')). split.
  - rewrite (grows_entries _ _ Hg), <- fmap_drop. apply survivors_sub.
  - exists (l0 ++ l1'). split; [done|]. rewrite survivors_app, <- app_assoc. f_equal.
    rewrite <- (take_drop n l1') at 1. rewrite survivors_app. f_equal.
    rewrite (grows_entries _ _ Hg), <- fmap_take. by apply survivors_written.
Qed.

Lemma life_left b w f k l0 l1 n s p : winv true b w f k l0 l1 n -> split_at l0 l1 n s p -> w_left w s p.
Proof.
  intros Hw Hs. exists k. split; [apply Hw|].
  assert (forall k', ksteps k k' -> zlen (default [] (k_file k')) <= write_offset_ w /\
      exists p', p' `sublist_of` p /\ exists l, image (default [] (k_file k')) l /\ survivors l = s ++ p') as Hall.
  { intros k' Hk. destruct (kinv_steps _ _ _ _ _ _ Hk (co_inv _ _ _ _ _ _ _ _ _ (proj1 Hw))) as (l1' & Hg & Hi).
    destruct (ki_file _ _ _ _ _ Hi) as (data & -> & Himg). cbn [default]. split.
    - rewrite (co_off _ _ _ _ _ _ _ _ _ (proj1 Hw)), (grows_size _ _ _ Hg). by apply image_size.
    - eapply image_records; [done|done| |done]. eapply synced_prefix, synced_grows; [|done].
      apply (co_synced _ _ _ _ _ _ _ _ _ (proj1 Hw)). }
  split; [|done]. by apply (Hall k (rtc_refl _ _)).
Qed.

Lemma left_idle w k s p p' l :
  rep (kernel w) k -> k_fly k = [] -> zlen (default [] (k_file k)) <= write_offset_ w ->
  p' `sublist_of` p -> image (default [] (k_file k)) l -> survivors l = s ++ p' -> w_left w s p.
Proof.
  intros Hr Hfly Hsz Hp Himg Hl. exists k. split_and!; [done|done|]. intros k' Hk. apply ksteps_idle in Hk as ->; [|done].
  split; [done|]. exists p'. split; [done|]. by exists l.
Qed.

(** An operation that keeps the log's records keeps [split_at]. *)
Lemma split_at_grows l0 l1 l1' n s p : split_at l0 l1 n s p -> grows l1 l1' -> split_at l0 l1' n s p.
Proof. intros [-> ->] Hg. split; by rewrite (grows_entries _ _ Hg). Qed.

Lemma split_at_more l0 l1 l1' n n' s p :
  split_at l0 l1 n s p -> grows l1 l1' -> (n <= n')%nat -> (n' <= length l1')%nat ->
  exists s' p', split_at l0 l1' n' s' p' /\ s ++ p = s' ++ p' /\ (length s <= length s')%nat /\ length s' = (length (survivors l0) + n')%nat.
Proof.
  intros Hs Hg Hn Hn'. eexists _, _. split; [by split|]. rewrite (split_at_app _ _ _ _ _ Hs). destruct Hs as [-> ->].
  rewrite (grows_entries _ _ Hg). split; [by rewrite <- app_assoc, take_drop|].
  rewrite !length_app, !length_take, !length_fmap. lia.
Qed.

(** ** The operations *)

Lemma life_start b w k l0 l1 n s p f : life b w k l0 l1 n s p -> (b = true -> Fault.g_armed f = false) -> winv true b w f k l0 l1 n.
Proof. intros (Hw & _) Hb. eapply winv_any; [exact Hw|]. auto. Qed.

Lemma life_end b w f k l0 l1 n s p :
  winv true b w f k l0 l1 n -> sync_in_progress_ w = false -> split_at l0 l1 n s p -> life b w k l0 l1 n s p.
Proof. intros Hw Hf Hs. split_and!; [|done|done]. eapply winv_any; [exact Hw|]. auto. Qed.

Lemma winv_count_le b w f k l0 l1 n : winv true b w f k l0 l1 n -> (n <= length l1)%nat.
Proof. intros [Hc _]. apply (co_synced _ _ _ _ _ _ _ _ _ Hc). Qed.

Lemma append_spec b ty ky v w f s p :
  let e := mkEntry ty ky v in
  w_rep b w s p -> (b = true -> Fault.g_armed f = false) -> fits whole_write b ky v -> write_offset_ w + record_bytes e <= 2 ^ 63 ->
  let '(r, w', f') := writeEntry ty ky v w f in
  stays_disarmed f f' /\ durability_ w' = durability_ w /\
  write_offset_ w <= write_offset_ w' <= write_offset_ w + record_bytes e /\
  (b = true -> exists t, r = Ok t) /\
  match r with
  | Ok t => w_covers b w' s (p ++ [e]) t (length (s ++ p ++ [e]))
  | Throw _ | Crashed => w_rep b w' s p \/ w_rep b w' s (p ++ [e])
  | Undefined => False
  end.
Proof.
  intros e (k & l0 & l1 & n & Hl) Hb Hlog Hroom. pose proof (life_start _ _ _ _ _ _ _ _ _ Hl Hb) as Hw. destruct Hl as (_ & Hflag & Hs).
  pose proof (writeEntry_spec true b w f k l0 l1 n ty ky v Hw Hlog Hroom) as Hap. unfold wpr in Hap.
  destruct (writeEntry ty ky v w f) as [[r w'] f']. destruct Hap as (Hh & Hf & Ho & Hok & Hr). cbn [fst snd] in *.
  split_and!; [done|apply Hh|apply Ho|apply Ho|done|].
  pose proof (winv_count_le _ _ _ _ _ _ _ Hw) as Hn. pose proof (split_at_app _ _ _ _ _ Hs) as Hsp.
  assert (sync_in_progress_ w' = false) as Hflag' by (by rewrite (sh_flag _ _ Hh)).
  assert (holds true b w' f' l0 l1 n (entry_of <$> l1) -> w_rep b w' s p) as Hsame.
  { intros (k' & l1' & _ & He & Hw'). exists k', l0, l1', n. eapply life_end; [done|done|]. unfold split_at. by rewrite He. }
  assert (forall k' l1', entry_of <$> l1' = (entry_of <$> l1) ++ [e] -> split_at l0 l1' n s (p ++ [e])) as Hsplit.
  { intros k' l1' He. destruct Hs as [-> ->]. unfold split_at. rewrite He, take_app_le, drop_app_le by (rewrite length_fmap; lia). done. }
  assert (holds true b w' f' l0 l1 n ((entry_of <$> l1) ++ [e]) -> w_rep b w' s (p ++ [e])) as Hmore.
  { intros (k' & l1' & _ & He & Hw'). exists k', l0, l1', n. eapply life_end; [done|done|]. by apply Hsplit. }
  destruct r as [t| | |]; [|destruct Hr; auto|destruct Hr; auto|done].
  destruct Hr as (-> & k' & l1' & _ & He & Hw'). exists k', l0, l1', n, (length l1').
  split_and!; [by eapply life_end; [| |apply Hsplit]|by rewrite (sh_epoch _ _ Hh)|done| |].
  - rewrite (firstn_all l1'). apply Hw'.
  - rewrite app_assoc, Hsp, !length_app, length_fmap. apply (f_equal length) in He. rewrite length_app, !length_fmap in He. cbn in *. lia.
Qed.

Lemma covers_rep b w s p t m : w_covers b w s p t m -> w_rep b w s p.
Proof. intros (k & l0 & l1 & n & j & Hl & _). by exists k, l0, l1, n. Qed.

Lemma rep_left b w s p : w_rep b w s p -> w_left w s p.
Proof. intros (k & l0 & l1 & n & Hw & _ & Hs). by eapply life_left. Qed.

Lemma wait_spec b t w f s p m :
  w_covers b w s p t m -> (b = true -> Fault.g_armed f = false) ->
  let '(r, w', f') := waitDurable t w f in
  stays_disarmed f f' /\ durability_ w' = durability_ w /\ write_offset_ w' = write_offset_ w /\ (b = true -> r = Ok tt) /\
  exists s' p', s ++ p = s' ++ p' /\ (length s <= length s')%nat /\
  match r with
  | Ok _ => w_rep b w' s' p' /\ (m <= length s')%nat
  | Throw _ => w_rep b w' s' p'
  | Crashed => w_left w' s' p'
  | Undefined => False
  end.
Proof.
  intros (k & l0 & l1 & n & j & Hl & Hep & Hj & Hend & Hm) Hb.
  pose proof (life_start _ _ _ _ _ _ _ _ _ Hl Hb) as Hw. destruct Hl as (_ & Hflag & Hs).
  assert (end_ t <= write_offset_ w) as Hle.
  { rewrite Hend, (co_off _ _ _ _ _ _ _ _ _ (proj1 Hw)), !log_bytes_app, !length_app.
    rewrite <- (take_drop j l1) at 2. rewrite log_bytes_app, length_app. lia. }
  pose proof (waitDurable_spec true eq_refl b w f k l0 l1 n t Hw Hflag (fun _ => Hle)) as Hwt. unfold wpr in Hwt.
  destruct (waitDurable t w f) as [[r w'] f']. cbn [fst snd] in Hwt. destruct Hwt as (Hwd & Hu & Hok).
  destruct Hwd as [H1 H2 H3 H4 H5 H6 (k' & l1' & n' & Hg & Hn & Hw')]. split_and!; try done.
  destruct r as [[]|x| |]; [|..|done].
  - destruct (Hok eq_refl Hep) as (k2 & l2 & n2 & Hg2 & Hn2 & Hw2 & Hle2).
    destruct (split_at_more l0 l1 l2 n n2 s p Hs Hg2 Hn2) as (s' & p' & Hs' & He & Hlen & Hlen'); [by eapply winv_count_le|].
    exists s', p'. split_and!; [done|done| |].
    + exists k2, l0, l2, n2. eapply life_end; [done|by apply H5|done].
    + rewrite Hend, (grows_size _ _ _ (grows_take _ _ j Hg2)) in Hle2.
      apply log_take_le in Hle2; [|rewrite <- (grows_length _ _ Hg2); done]. lia.
  - destruct (split_at_more l0 l1 l1' n n' s p Hs Hg Hn) as (s' & p' & Hs' & He & Hlen & _); [by eapply winv_count_le|].
    exists s', p'. split_and!; [done|done|]. exists k', l0, l1', n'. eapply life_end; [done|by apply H5|done].
  - destruct (split_at_more l0 l1 l1' n n' s p Hs Hg Hn) as (s' & p' & Hs' & He & Hlen & _); [by eapply winv_count_le|].
    exists s', p'. split_and!; [done|done|]. by eapply life_left.
Qed.

Lemma wait_passed b t w f s p : w_rep b w s p -> epoch t <> epoch_ w -> waitDurable t w f = (Ok tt, w, f).
Proof.
  intros _ He. unfold waitDurable. cbn [wait_loop]. unfold reads_, mbind, Wr_bind. cbn.
  by rewrite (proj2 (Z.eqb_neq _ _) He).
Qed.

Lemma wal_sync_spec b w f s p :
  w_rep b w s p -> (b = true -> Fault.g_armed f = false) ->
  let '(r, w', f') := sync w f in
  stays_disarmed f f' /\ durability_ w' = durability_ w /\ write_offset_ w' = write_offset_ w /\ (b = true -> r = Ok tt) /\
  match r with
  | Ok _ => w_rep b w' (s ++ p) []
  | Throw _ | Crashed => exists s' p', s ++ p = s' ++ p' /\ (length s <= length s')%nat /\ w_left w' s' p'
  | Undefined => False
  end.
Proof.
  intros (k & l0 & l1 & n & Hl) Hb. pose proof Hl as (Hw & _ & Hs).
  assert (w_covers b w s p (mkTicket (epoch_ w) (write_offset_ w)) (length (s ++ p))) as Hc.
  { exists k, l0, l1, n, (length l1). split_and!; [done|done|done| |].
    - rewrite (firstn_all l1). apply Hw.
    - rewrite (split_at_app _ _ _ _ _ Hs), length_app, length_fmap. lia. }
  pose proof (wait_spec _ _ _ f _ _ _ Hc Hb) as Hwt.
  change (sync w f) with (waitDurable (mkTicket (epoch_ w) (write_offset_ w)) w f).
  destruct (waitDurable _ w f) as [[r w'] f']. destruct Hwt as (H1 & H2 & H3 & H4 & s' & p' & He & Hlen & Hr).
  split_and!; try done. destruct r as [[]|x| |]; [|..|done].
  - destruct Hr as [Hr Hm]. assert (p' = []) as ->.
    { apply (f_equal length) in He. rewrite !length_app in He. destruct p'; [done|]. cbn in He. rewrite length_app in Hm. lia. }
    by rewrite He, app_nil_r.
  - exists s', p'. split_and!; [done|done|]. by eapply rep_left.
  - by exists s', p'.
Qed.

Lemma clear_log b w f s p :
  w_rep b w s p -> (b = true -> Fault.g_armed f = false) ->
  let '(r, w', f') := clear w f in
  stays_disarmed f f' /\ durability_ w' = durability_ w /\ (b = true -> r = Ok tt) /\
  match r with
  | Ok _ => w_rep b w' [] [] /\ write_offset_ w' = 0 /\ (forall t n, w_covers b w s p t n -> epoch t <> epoch_ w')
  | Throw _ => write_offset_ w' <= write_offset_ w /\ (w_left w' s p \/ w_left w' [] [])
  | Crashed | Undefined => False
  end.
Proof.
  intros (k & l0 & l1 & n & Hl) Hb. pose proof (life_start _ _ _ _ _ _ _ _ _ Hl Hb) as Hw. destruct Hl as (_ & Hflag & Hs).
  pose proof (clear_spec true b w f k l0 l1 n Hw Hflag) as Hc. unfold wpr in Hc.
  destruct (clear w f) as [[r w'] f']. cbn [fst snd] in Hc. destruct Hc as (H1 & H2 & H3 & H4). split_and!; try done.
  destruct r as [[]|x| |]; [..|done|done].
  - destruct H4 as ((k' & Hw') & Hf' & Hep & _). split_and!.
    + exists k', [], [], 0%nat. by eapply life_end.
    + apply (co_off _ _ _ _ _ _ _ _ _ (proj1 Hw')).
    + intros t m (k2 & l02 & l12 & n2 & j & _ & -> & _). rewrite Hep. unfold wrap. intros E.
      pose proof (Z.mod_pos_bound (epoch_ w + 1) (2 ^ 64) ltac:(lia)). rewrite E in *. 
      pose proof (Z.div_mod (epoch_ w + 1) (2 ^ 64) ltac:(lia)). lia.
  - destruct H4 as (Ho & k' & Hr' & Hfly & Hsz & Hcase). split; [done|].
    destruct Hcase as [(data & l1' & Hdata & Himg & Hg & Hwr)|Hnil]; [left|right].
    + destruct (image_records _ _ _ _ _ _ _ Himg Hg Hwr Hs) as (p' & Hp' & l & Hl & Hsv).
      eapply left_idle; [done|done|done|done|by rewrite Hdata|done].
    + eapply left_idle; [done|done|done|reflexivity|rewrite Hnil; apply image_nil|done].
Qed.

(** ** Between two lives *)

Lemma dies_spec w s p d :
  w_left w s p -> w_dies w d -> zlen (default [] (read_log d)) <= write_offset_ w /\ exists p', p' `sublist_of` p /\ d_rep d (s ++ p').
Proof.
  intros (k & Hr & _ & Hall) Hd. destruct (Hd k Hr) as (k' & Hk & E). unfold d_rep. rewrite E. by apply Hall.
Qed.

(** The file closing leaves, and nothing in flight. *)
Definition closed b f l0 l1 n (r : result unit) w' f' : Prop :=
  r = Ok tt /\ stays_disarmed f f' /\ exists k' l1', rep (kernel w') k' /\ idle k' /\
    k_accepts k' = true /\ (b = true -> k_reliable k' = true /\ Forall is_written l1') /\ grows l1 l1' /\
    Forall is_written (take n l1') /\ exists data, k_file k' = Some data /\ image data (l0 ++ l1').

Lemma close_ends b w f k l0 l1 n : winv true b w f k l0 l1 n -> wpr close_ (closed b f l0 l1 n) w f.
Proof.
  intros Hw.
  unfold close_. apply wpr_bind. eapply wpr_mono; [by eapply drain_spec|].
  intros r w1 f1 (-> & k1 & l1a & Hs1 & Hf1 & Hg1 & Hw1 & Hempty). cbn [afterr].
  assert (b = true -> Forall is_written l1a) as Hall.
  { intros Hbt. eapply (drained_written true eq_refl); [exact Hw1|done|]. by apply (co_fine _ _ _ _ _ _ _ _ _ (proj1 Hw1)). }
  apply wpr_bind, wpr_reads. cbn [afterr]. rewrite (co_fd _ _ _ _ _ _ _ _ _ (proj1 Hw1)).
  apply wpr_bind, wpr_sys.
  pose proof (fdatasync_spec _ _ (co_rep _ _ _ _ _ _ _ _ _ (proj1 Hw1))) as Hfd. destruct (fdatasync (kernel w1)) as [ok r2].
  destruct Hfd as (k2 & Hk2 & Hok & Hr2). cbn [fst snd afterr].
  destruct (kinv_steps _ _ _ _ _ _ Hk2 (co_inv _ _ _ _ _ _ _ _ _ (proj1 Hw1))) as (l1b & Hg2 & Hi2).
  pose proof (ksteps_frame _ _ Hk2) as (_ & _ & _ & Ha2 & Hrel2 & _).
  set (k3 := if ok then _ else k2) in Hr2.
  assert (kinv (heap w1) (failure_ w1 = None) k3 l0 l1b) as Hi3 by (unfold k3; destruct ok; [destruct Hi2; by split|done]).
  apply wpr_bind, wpr_reads. cbn [afterr set_kernel ring_ready_]. rewrite (co_ready _ _ _ _ _ _ _ _ _ (proj1 Hw1)).
  apply wpr_bind, wpr_ring_; [apply Hw1|]. cbn [afterr set_kernel kernel]. apply wpr_update.
  destruct (queue_exit_spec _ _ Hr2) as (k4 & Hk4 & Hr4).
  destruct (kinv_steps _ _ _ _ _ _ Hk4 Hi3) as (l1c & Hg3 & Hi4).
  pose proof (ksteps_frame _ _ Hk4) as (_ & _ & _ & Ha4 & Hrel4 & _).
  split_and!; [done|done|]. exists (set_rings [] [] [] k4), l1c. split_and!; [exact Hr4|done| | |by etrans; [|etrans]| |].
  - cbn. rewrite Ha4. assert (k_accepts k3 = k_accepts k2) as -> by (unfold k3; by destruct ok). rewrite Ha2.
    by apply (co_acc _ _ _ _ _ _ _ _ _ (proj1 Hw1)).
  - intros Hbt. split.
    + cbn. rewrite Hrel4. assert (k_reliable k3 = k_reliable k2) as -> by (unfold k3; by destruct ok). rewrite Hrel2.
      by apply (co_fine _ _ _ _ _ _ _ _ _ (proj1 Hw1)).
    + apply Forall_lookup. intros i [e|e] Hx; [done|]. pose proof (grows_lost _ _ _ _ Hg3 Hx) as Hx1.
      pose proof (grows_lost _ _ _ _ Hg2 Hx1) as Hx2. specialize (Hall Hbt). by eapply Forall_lookup_1 in Hx2.
  - eapply synced_prefix, synced_grows; [|exact Hg3]. eapply synced_grows; [|exact Hg2].
    apply (co_synced _ _ _ _ _ _ _ _ _ (proj1 Hw1)).
  - destruct (ki_file _ _ _ _ _ Hi4) as (data & ? & ?). by exists data.
Qed.

Lemma close_spec b w f s p :
  w_rep b w s p -> (b = true -> Fault.g_armed f = false) ->
  let '(r, f') := log_close w f in
  stays_disarmed f f' /\ exists d p', r = Ok d /\ zlen (default [] (read_log d)) <= write_offset_ w /\ d_ready b d /\
    p' `sublist_of` p /\ d_rep d (s ++ p') /\ (b = true -> p' = p).
Proof.
  intros (k & l0 & l1 & n & Hl) Hb. pose proof (life_start _ _ _ _ _ _ _ _ _ Hl Hb) as Hw. destruct Hl as (_ & _ & Hs).
  pose proof (close_ends _ _ _ _ _ _ _ Hw) as Hc. revert Hc. unfold wpr, closed. cbn [log_close writer_ops]. destruct (close_ w f) as [[r w'] f']. cbn [fst snd].
  intros (-> & Hf & k' & l1' & Hr' & Hidle & Ha & Hbt & Hg & Hwr & data & Hdata & Himg). split; [done|].
  exists (kernel w'). rewrite (rep_read _ _ Hr'), Hdata. cbn [default].
  destruct (image_records _ _ _ _ _ _ _ Himg Hg Hwr Hs) as (p' & Hp' & l & Hil & Hsv).
  exists (survivors (drop n l1')). split_and!.
  - done.
  - rewrite (co_off _ _ _ _ _ _ _ _ _ (proj1 Hw)), (grows_size _ _ _ Hg). by apply image_size.
  - exists k'. split_and!; [done|done|done| |].
    + intros Hbt'. by apply Hbt.
    + rewrite (rep_read _ _ Hr'), Hdata. change (zlen data <= 2 ^ 63). pose proof (co_size _ _ _ _ _ _ _ _ _ (proj1 Hw)).
      apply image_size in Himg. pose proof (grows_size l0 _ _ Hg). pose proof (co_off _ _ _ _ _ _ _ _ _ (proj1 Hw)). lia.
  - destruct Hs as [_ ->]. rewrite (grows_entries _ _ Hg), <- fmap_drop. apply survivors_sub.
  - unfold d_rep. rewrite (rep_read _ _ Hr'), Hdata. cbn [default]. exists (l0 ++ l1'). split; [done|].
    destruct Hs as [-> ->]. rewrite survivors_app, <- app_assoc. f_equal.
    rewrite <- (take_drop n l1') at 1. rewrite survivors_app. f_equal.
    rewrite (grows_entries _ _ Hg), <- fmap_take. by apply survivors_written.
  - intros Hbt'. destruct Hs as [_ ->]. destruct (Hbt Hbt') as [_ Hall].
    rewrite (grows_entries _ _ Hg), <- fmap_drop. apply survivors_written. by apply Forall_drop.
Qed.

Lemma wal_open_spec b durable d es :
  d_rep d es -> d_ready b d ->
  match open durable d with
  | Ok w => w_rep b w es [] /\ durability_ w = durable /\ write_offset_ w = zlen (default [] (read_log d)) /\
      (recover w = Ok es \/ exists x, recover w = Throw x) /\
      (b = true -> zlen (default [] (read_log d)) <= MAX_RECOVERY_BYTES -> recover w = Ok es)
  | Throw _ => b = false
  | Crashed | Undefined => False
  end.
Proof.
  intros (l & Himg & Hl) (k & Hr & (Hsq & Hfly & Hcq) & Ha & Hrel & Hmax). rewrite (rep_read _ _ Hr) in *. unfold open.
  pose proof (open_log_spec _ _ Hr) as Hop. destruct (open_log d) as [opened r1].
  destruct Hop as (k1 & Hk1 & Hok1 & Hr1). apply ksteps_idle in Hk1 as ->; [|done].
  destruct opened; cbn [negb]; [|by destruct b; [specialize (Hok1 (Hrel eq_refl))|]].
  set (k2 := set_file _ k) in Hr1. pose proof (stat_log_spec _ _ Hr1) as Hst. destruct (stat_log r1) as [size r2].
  destruct Hst as (k3 & Hk3 & Hok3 & Hr3 & Hsize). apply ksteps_idle in Hk3 as ->; [|done].
  destruct size as [size|]; [|by destruct b; [destruct (Hok3 (Hrel eq_refl)) as [? ?]|]].
  rewrite (Hsize size eq_refl) in *. cbn [k2 set_file k_file default] in *.
  pose proof (queue_init_spec r2 k2 Hr3 Hsq Hfly Hcq) as Hq. destruct (queue_init r2) as [ok r4].
  destruct Hq as [Hok4 Hr4]. destruct ok; cbn [negb]; [|by destruct b; [specialize (Hok4 (Hrel eq_refl))|]].
  set (w := mkWAL _ _ _ _ _ _ _ _ _ _ _ _ _ _).
  destruct (image_survivors _ _ Himg) as (l0 & Hdata & Hsv).
  assert (k_file k2 = Some (log_bytes l0)) as Hfile by (cbn; by rewrite Hdata).
  assert (life b w k2 l0 [] 0 es []) as Hlife.
  { split_and!; [|done|split; [by rewrite Hsv, Hl, app_nil_r|done]]. split.
    - split; try done.
      + split; unfold reqs; cbn [k2 set_file k_sq k_fly k_cq]; rewrite ?Hsq, ?Hfly, ?Hcq; try done; try constructor.
        exists (log_bytes l0). split; [done|]. rewrite app_nil_r. exists l0, []. by rewrite app_nil_r.
      + cbn. by rewrite app_nil_r, Hdata.
      + cbn. lia.
      + intros Hb. split_and!; [by apply Hrel|done|done].
    - intros _. cbn [k2 set_file k_sq k_fly k_cq]. by rewrite Hsq, Hfly, Hcq. }
  assert (read_log r4 = Some (log_bytes l0)) as Hread by (by rewrite (rep_read _ _ Hr4), Hfile).
  assert (recover w = WAL.recover (Some (log_bytes l0)) (Some (zlen (log_bytes l0))) (reads r4)) as Hrec.
  { unfold recover. cbn [kernel w]. by rewrite Hread. }
  rewrite Hrec. split_and!; [by exists k2, l0, [], 0%nat|done|done| |].
  - pose proof (recover_result (log_bytes l0) (Some (zlen (log_bytes l0))) (reads r4)) as Hres.
    destruct (WAL.recover _ _ _) as [es'|x| |]; [left|right; by exists x|done|done].
    destruct Hres as [-> Hmax']. by rewrite parse_log_image, Hsv, Hl.
  - intros Hb Hle. rewrite Hdata in Hle. rewrite recover_all, parse_log_image, Hsv, Hl; [done|done|done|].
    eapply rep_reads; [exact Hr4|]. by apply Hrel.
Qed.

#[export] Program Instance writer_spec : LogSpec (t R) R := {|
  log_whole := whole_write;
  log_rep := w_rep;
  log_covers := w_covers;
  log_passed w ticket := epoch ticket <> epoch_ w;
  log_left := w_left;
  log_size := write_offset_;
  log_dies := w_dies;
  disk_rep := d_rep;
  disk_size d := zlen (default [] (read_log d));
  disk_ready := d_ready
|}.
Next Obligation. apply whole_write_max. Qed.
Next Obligation. intros. cbv beta. lia. Qed.
Next Obligation. by apply rep_left. Qed.
Next Obligation.
  intros b w s p (k & l0 & l1 & n & Hw & Hf & Hs). exists k, l0, l1, n. split_and!; [|done|done]. by eapply winv_any.
Qed.
Next Obligation. by apply covers_rep. Qed.
Next Obligation. by apply append_spec. Qed.
Next Obligation. by apply wait_spec. Qed.
Next Obligation. by eapply wait_passed. Qed.
Next Obligation. by apply wal_sync_spec. Qed.
Next Obligation. by apply clear_log. Qed.
Next Obligation. by apply dies_spec. Qed.
Next Obligation. by apply close_spec. Qed.
Next Obligation. by apply wal_open_spec. Qed.

End log.

End WalLog.
