(* ===== verification/WalLife.v ===== *)
(** * The life of a log

    What the writer ([WalWriter]) promises, over every kernel of [UringSpec]:
    appending is safe whatever the kernel does, draining ends, a wait that
    returns has made the record durable, and what a later life recovers are the
    durable records and some of the others, in the order they were appended.
    Then three ways in which it fails, on concrete kernels. *)

From S2P Require Import Prelude WalFormat Fault Kernel LogSpec WalWriter WalDisk WalWriterSpec WalLog.
Open Scope Z_scope.

Module WalLife.
Import WAL Kernel WalWriter WalDisk WalWriterSpec WalLog.

Section life.
Context {R : Type} `{!Uring R} `{!UringSpec R}.
Implicit Types (w : t R) (k : kstate sqe) (d : R).

(** ** Properties *)

(** C20: appending is safe on every kernel, also one that refuses submissions,
    cancels, fails or shortens writes: no object is used after it was freed, no
    ring or null entry is used, the loops end, and whichever way the call ends
    the log holds, at their places, the records it held, none of which is lost again,
    with or without the new one, and on return with it.  It starts from a log in
    working order ([winv]): its ring is set up, that is, no [clear] has thrown
    ([failed_clear_leaves_dead_ring]); and the record is at most [whole_write]
    bytes long, the size up to which the kernel writes whole or not at all. *)
Theorem append_safe acc b w f k l0 l1 n ty ky v :
  let e := mkEntry ty ky v in
  winv acc b w f k l0 l1 n -> record_bytes e <= write_limit whole_write b -> write_offset_ w + record_bytes e <= 2 ^ 63 ->
  let '(r, w', f') := writeEntry ty ky v w f in
  write_offset_ w <= write_offset_ w' <= write_offset_ w + record_bytes e /\
  match r with
  | Ok ticket => ticket = mkTicket (epoch_ w) (write_offset_ w') /\ holds acc b w' f' l0 l1 n ((entry_of <$> l1) ++ [e])
  | Throw _ | Crashed => holds acc b w' f' l0 l1 n (entry_of <$> l1) \/ holds acc b w' f' l0 l1 n ((entry_of <$> l1) ++ [e])
  | Undefined => False
  end.
Proof.
  intros e Hw Hm Hr. pose proof (writeEntry_spec acc b w f k l0 l1 n ty ky v Hw Hm Hr) as H. unfold wpr in H.
  destruct (writeEntry ty ky v w f) as [[r w'] f']. destruct H as (_ & _ & Ho & _ & H). cbn [fst snd] in *. by split.
Qed.

(** C21: draining ends, on every kernel: the completions still to come and the
    six submissions of every write bound the two loops.  When it ends without a
    failure on record, on a kernel that takes every submission, nothing is in
    flight any more (on one that refuses some, [wait_misses_a_record] is a drain
    that ends early). *)
Theorem drain_ends acc b w f k l0 l1 n :
  winv acc b w f k l0 l1 n ->
  exists w' f' k' l1', drain w f = (Ok tt, w', f') /\ grows l1 l1' /\ winv acc b w' f' k' l0 l1' n /\
    (k_accepts k' = true -> failure_ w' = None -> reqs k' = []).
Proof.
  intros Hw. pose proof (drain_spec acc b w f k l0 l1 n Hw) as H. unfold wpr in H.
  destruct (drain w f) as [[r w'] f']. destruct H as (Hr & k' & l1' & _ & _ & Hg & Hw' & Hi). cbn [fst snd] in *. subst r.
  by exists w', f', k', l1'.
Qed.

(** C10: a durable append survives.  Once [waitDurable] has returned for a record,
    whenever the process dies after that, the log's file holds every record
    appended before it and it; opened by the next process on a working system
    (and within the reader's limit) recovery returns exactly these.  Writes may
    fail, be cut short or cancelled; assumed is that [io_uring_submit] takes every
    entry ([d_ready]; otherwise [wait_misses_a_record]) and that every record is
    at most [whole_write] bytes long, the size up to which the kernel writes whole
    or not at all. *)
Theorem waited_survives b b' ty ky v w f s p ticket w1 f1 w2 f2 d durable :
  let e := mkEntry ty ky v in
  w_rep b w s p -> (b = true -> Fault.g_armed f = false) -> fits whole_write b ky v -> write_offset_ w + record_bytes e <= 2 ^ 63 ->
  writeEntry ty ky v w f = (Ok ticket, w1, f1) -> waitDurable ticket w1 f1 = (Ok tt, w2, f2) ->
  w_dies w2 d -> d_ready b' d ->
  match open durable d with
  | Ok w3 => w_rep b' w3 (s ++ p ++ [e]) [] /\ (recover w3 = Ok (s ++ p ++ [e]) \/ exists x, recover w3 = Throw x) /\
      (b' = true -> write_offset_ w2 <= MAX_RECOVERY_BYTES -> recover w3 = Ok (s ++ p ++ [e]))
  | Throw _ => b' = false
  | Crashed | Undefined => False
  end.
Proof.
  intros e Hw Hb Hl Hr Ha Hwt Hd Hready. pose proof (append_spec b ty ky v w f s p Hw Hb Hl Hr) as Has. rewrite Ha in Has.
  destruct Has as (Hf1 & _ & _ & _ & Hc).
  pose proof (wait_spec b ticket w1 f1 _ _ _ Hc ltac:(auto)) as Hws. rewrite Hwt in Hws.
  destruct Hws as (_ & _ & _ & _ & s' & p' & He & _ & Hw2 & Hlen).
  assert (p' = []) as ->.
  { apply (f_equal length) in He. rewrite !length_app in *. apply nil_length_inv. cbn [length] in *. lia. }
  rewrite app_nil_r in He. subst s'.
  destruct (dies_spec w2 _ _ d (rep_left _ _ _ _ Hw2) Hd) as (Hsz & p' & Hp & Hdisk). apply sublist_nil_r in Hp as ->.
  rewrite app_nil_r in Hdisk. pose proof (wal_open_spec b' durable d _ Hdisk Hready) as Ho.
  destruct (open durable d) as [w3|x| |]; [|done..]. destruct Ho as (H1 & _ & _ & H2 & H3). split_and!; [done|done|].
  intros Hb' Hle. apply H3; [done|]. lia.
Qed.

(** Without a wait, order is kept.  If the process dies at any time after
    appends, the file holds the durable records and, after them, some of the
    others, in the order of the appends, whatever the order in which the kernel
    completed them. *)
Theorem death_keeps_order b w s p d :
  w_rep b w s p -> w_dies w d -> exists p', p' `sublist_of` p /\ d_rep d (s ++ p').
Proof. intros Hw Hd. eapply dies_spec; [by eapply rep_left|done]. Qed.

(** clearing starts over: afterwards the log is empty, its file too, tickets
    from before are treated as durable, and the log can be used again even if a
    write had failed. *)
Theorem clear_resets b w f s p w' f' :
  w_rep b w s p -> (b = true -> Fault.g_armed f = false) -> clear w f = (Ok tt, w', f') ->
  w_rep b w' [] [] /\ write_offset_ w' = 0 /\
  (forall ticket m, w_covers b w s p ticket m -> forall f, waitDurable ticket w' f = (Ok tt, w', f)).
Proof.
  intros Hw Hb Hc. pose proof (clear_log b w f s p Hw Hb) as H. rewrite Hc in H.
  destruct H as (_ & _ & _ & Hr & Ho & Ht). split_and!; [done|done|].
  intros ticket m Hcov f2. eapply wait_passed; [exact Hr|by eapply Ht].
Qed.

End life.

(** ** Three failures *)

(** The first put's write is in flight; the second put's submission is refused
    and its entry stays queued; then the first write is cancelled. *)
Definition undercounting : scripted :=
  mkScripted [] [] [] (Some []) [] 0 [Stalls; Fails (- ECANCELED); Stalls; Completes; Stalls] [false; true; false] [].
Definition fresh_log (r : scripted) : t scripted := mkWAL true true false 0 0 0 0 true None 0 0 ∅ 1 r.
Definition put_a := writeEntry PUT (bs "a") (bs "1") (fresh_log undercounting) Fault.init.
Definition put_b := writeEntry PUT (bs "b") (bs "2") put_a.1.2 put_a.2.
Definition wait_a := waitDurable (mkTicket 0 512) put_b.1.2 put_b.2.

(** the count of completions can fall short.  [resubmit] does not look at how
    many entries [io_uring_submit] took: with the entry of a refused put still
    queued it takes two, [pending_cqes_] counts one, and [drain] stops with the
    resubmitted write in flight.  The wait for it returns, no failure is
    recorded, the file lacks its record, and has the one whose put threw. *)
Theorem wait_misses_a_record :
  put_a.1.1 = Ok (mkTicket 0 512) /\ put_b.1.1 = Throw (RuntimeError "WAL: io_uring_submit failed") /\
  wait_a.1.1 = Ok tt /\ failure_ wait_a.1.2 = None /\ recover wait_a.1.2 = Ok [mkEntry PUT (bs "b") (bs "2")].
Proof. vm_compute. auto. Qed.

(** The file of the log cannot be removed. *)
Definition stuck_file : scripted := mkScripted [] [] [] (Some []) [] 0 [] [] [false].
Definition failed_clear := clear (fresh_log stuck_file) Fault.init.

(** after a [clear] that threw, the destructor and every append use a ring
    that has been exited: [drain] and [reap] look for completions whether or not
    the ring is ready. *)
Theorem failed_clear_leaves_dead_ring :
  failed_clear.1.1 = Throw (RuntimeError "WAL: failed to remove log during clear") /\
  (close_ failed_clear.1.2 failed_clear.2).1.1 = Undefined /\
  (writeEntry PUT (bs "k") (bs "v") failed_clear.1.2 failed_clear.2).1.1 = Undefined.
Proof. vm_compute. auto. Qed.

(** A log cut inside its second record, as a crash or a truncation leaves it. *)
Definition cut_log : str := encode (mkEntry PUT (bs "a") (bs "1")) ++ take 14 (encode (mkEntry PUT (bs "b") (bs "2"))).
Definition on_cut_log (script : list event) : scripted := mkScripted [] [] [] (Some cut_log) [] 0 script [] [].
Definition put_on_cut (script : list event) : result unit * t scripted * Fault.state :=
  match open true (on_cut_log script) with
  | Ok w =>
      match writeEntry PUT (bs "c") (bs "3") w Fault.init with
      | (Ok ticket, w, f) => waitDurable ticket w f
      | (_, w, f) => (Undefined, w, f)
      end
  | _ => (Undefined, fresh_log (on_cut_log script), Fault.init)
  end.

(** The cut log is recovered, but the next record goes to the file's size, which is
    no multiple of 512.  A kernel that takes the offset makes the record durable
    where recovery, which looks at multiples of 512 only, does not find it; one
    that refuses it for a file opened with [O_DIRECT] (EINVAL) leaves a log that
    refuses every write. *)
Example cut_log_takes_no_records :
  recover (put_on_cut []).1.2 = Ok [mkEntry PUT (bs "a") (bs "1")] /\
  (put_on_cut []).1.1 = Ok tt /\ durable_end_ (put_on_cut []).1.2 = 526 + 512 /\
  (put_on_cut [Fails (-22)]).1.1 = Throw (RuntimeError "write failed") /\
  failure_ (put_on_cut [Fails (-22)]).1.2 <> None.
Proof. vm_compute. repeat split; congruence. Qed.

(** ** Witnesses *)

Definition quiet_kernel (file : str) : scripted := mkScripted [] [] [] (Some file) [] 0 [] [] [].

Definition scripted_state (acc rel : bool) (r : scripted) : kstate (sqe (R := scripted)) :=
  mkK (sc_sq r) (sc_fly r) (sc_cq r) (sc_file r) (sc_synced r) (interrupts (sc_script r)) acc rel 512.

(** A new log on a kernel that refuses, fails or interrupts as its script says. *)
Lemma new_winv acc b script refused calls f :
  let r := mkScripted [] [] [] (Some []) [] 0 script refused calls in
  (acc = true -> refused = []) -> (b = true -> acc = true /\ script = [] /\ calls = [] /\ Fault.g_armed f = false) ->
  winv acc b (fresh_log r) f (scripted_state acc b r) [] [] 0.
Proof.
  intros r Ha Hb. apply winv_fresh; try done; [|by intros Hbt; apply Hb].
  cbn. unfold sc_rep. cbn. split_and!; try done; [by intros ->%Ha|].
  intros Hbt. destruct (Hb Hbt) as (-> & -> & -> & _). split_and!; by try constructor.
Qed.

Lemma new_rep b script calls f :
  (b = true -> script = [] /\ calls = [] /\ Fault.g_armed f = false) ->
  w_rep b (fresh_log (mkScripted [] [] [] (Some []) [] 0 script [] calls)) [] [].
Proof.
  intros Hb. eexists _, [], [], 0%nat. eapply life_end; [apply (new_winv true b script [] calls f); [done|]|done|done].
  intros Hbt. by destruct (Hb Hbt) as (-> & -> & ->).
Qed.

(** The kernel refuses the first submission, then cancels the write twice. *)
Definition bad_script : list event := [Fails (-125); Fails (-125); Stalls].
Definition refusing : scripted := mkScripted [] [] [] (Some []) [] 0 bad_script [false; true] [].

Lemma append_safe_witness :
  let '(r, w', f') := writeEntry PUT (bs "k") (bs "v") (fresh_log refusing) Fault.init in
  0 <= write_offset_ w' <= 0 + record_bytes (mkEntry PUT (bs "k") (bs "v")) /\
  match r with
  | Ok ticket => ticket = mkTicket 0 (write_offset_ w') /\ holds false false w' f' [] [] 0 ([] ++ [mkEntry PUT (bs "k") (bs "v")])
  | Throw _ | Crashed => holds false false w' f' [] [] 0 [] \/ holds false false w' f' [] [] 0 ([] ++ [mkEntry PUT (bs "k") (bs "v")])
  | Undefined => False
  end.
Proof.
  apply (append_safe (R := scripted) false false (fresh_log refusing) Fault.init (scripted_state false false refusing) [] [] 0 PUT (bs "k") (bs "v")).
  - by apply new_winv.
  - vm_compute. congruence.
  - vm_compute. congruence.
Defined.

Lemma drain_ends_witness :
  exists w' f' k' l1', drain (fresh_log refusing) Fault.init = (Ok tt, w', f') /\ grows [] l1' /\
    winv false false w' f' k' [] l1' 0 /\ (k_accepts k' = true -> failure_ w' = None -> reqs k' = []).
Proof.
  apply (drain_ends (R := scripted) false false (fresh_log refusing) Fault.init (scripted_state false false refusing)). by apply new_winv.
Defined.

(** One put on a kernel that cancels it once, and the log it leaves. *)
Definition cancelling : scripted := mkScripted [] [] [] (Some []) [] 0 [Fails (-125); Stalls; Interrupts; Completes] [] [].
Definition put1 := writeEntry PUT (bs "k") (bs "v") (fresh_log cancelling) Fault.init.
Definition ticket1 : Ticket := mkTicket 0 512.
Definition wait1 := waitDurable ticket1 put1.1.2 put1.2.
Definition left1 : scripted := kernel wait1.1.2.
Definition record1 : Entry := mkEntry PUT (bs "k") (bs "v").

Lemma dies_now (w : t scripted) : w_dies w (kernel w).
Proof. intros k (_ & _ & _ & _ & Hk & _). exists k. split; [apply rtc_refl|by symmetry]. Qed.

Lemma left1_ready : d_ready true left1.
Proof. exists (scripted_state true true left1). vm_compute. repeat split; try congruence; constructor. Qed.

Lemma waited_survives_witness :
  match open true left1 with
  | Ok w3 => w_rep true w3 [record1] [] /\ (recover w3 = Ok [record1] \/ exists x, recover w3 = Throw x) /\
      (true = true -> write_offset_ wait1.1.2 <= MAX_RECOVERY_BYTES -> recover w3 = Ok [record1])
  | Throw _ => true = false
  | Crashed | Undefined => False
  end.
Proof.
  apply (waited_survives false true PUT (bs "k") (bs "v") (fresh_log cancelling) Fault.init [] [] ticket1 put1.1.2 put1.2 wait1.1.2 wait1.2 left1 true).
  - by apply (new_rep false _ _ Fault.init).
  - done.
  - vm_compute. congruence.
  - vm_compute. congruence.
  - vm_compute. reflexivity.
  - vm_compute. reflexivity.
  - apply dies_now.
  - apply left1_ready.
Defined.

Lemma death_keeps_order_witness :
  exists p', p' `sublist_of` [] /\ d_rep (quiet_kernel []) ([] ++ p').
Proof.
  apply (death_keeps_order true (fresh_log (quiet_kernel [])) [] [] (quiet_kernel [])); [by apply (new_rep true [] [] Fault.init)|apply dies_now].
Defined.

Lemma clear_resets_witness :
  let w' := (clear (fresh_log (quiet_kernel [])) Fault.init).1.2 in
  w_rep true w' [] [] /\ write_offset_ w' = 0 /\
  (forall ticket m, w_covers true (fresh_log (quiet_kernel [])) [] [] ticket m -> forall f, waitDurable ticket w' f = (Ok tt, w', f)).
Proof.
  apply (clear_resets true (fresh_log (quiet_kernel [])) Fault.init [] [] _ (clear (fresh_log (quiet_kernel [])) Fault.init).2).
  - by apply (new_rep true [] [] Fault.init).
  - done.
  - vm_compute. reflexivity.
Defined.

End WalLife.
