(* ===== verification/GroupCommit.v ===== *)
(** * Group commit

    [WAL::waitDurable] by several threads at once ([src/wal/wal_writer.cpp]),
    with the appends and the [clear] that run beside it.  A step of a thread is
    one critical section of [sync_mu_] or [mu_], or the call of [fdatasync],
    which holds neither.  This is the protocol alone: of the log it has the
    positions.  [WalThreads] has the same threads over the writer itself, and
    [WalThreadsSpec] shows that they follow this protocol. *)

From S2P Require Import Prelude.
Open Scope Z_scope.

Module GroupCommit.

(** ** State *)

Record Ticket := mkTicket { epoch : Z; end_ : Z }.

Record shared := mkShared {
  epoch_ : Z;
  durable_end_ : Z;
  sync_in_progress_ : bool;
  write_offset_ : Z;
  failed : bool;                (* failure_ is not empty *)
  fd_ : nat;                    (* which descriptor: clear() closes one and opens another *)
  landed : Z;                   (* a drain has found everything up to here written *)
  stable : Z;                   (* and an fdatasync has followed *)
  clears : Z                    (* calls of clear() so far *)
}.

(** Where a thread is. *)
Inductive pc :=
  | Outside
  | Holding (t : Ticket)                                   (* appended, mu_ released *)
  | AtTest (t : Ticket)                                    (* at the head of the loop, for sync_mu_ *)
  | Asleep (t : Ticket)                                    (* in sync_cv_.wait *)
  | Leading (t : Ticket) (ep : Z)                          (* for mu_ *)
  | InSync (t : Ticket) (ep target : Z) (fd : nat)         (* in fdatasync *)
  | AfterSync (t : Ticket) (ep target : Z)                 (* at the fault point that follows *)
  | Relock (t : Ticket) (ep target : Z) (error : bool)     (* for sync_mu_, after it *)
  | Rethrow (t : Ticket)                                   (* for sync_mu_, in the handler *)
  | Returned (t : Ticket)
  | Threw (t : Ticket)
  | BadDescriptor.                                         (* fdatasync on a closed descriptor *)

Record state := mkState { sh : shared; threads : gmap nat pc }.

Definition set_progress (b : bool) (s : shared) : shared :=
  mkShared (epoch_ s) (durable_end_ s) b (write_offset_ s) (failed s) (fd_ s) (landed s) (stable s) (clears s).
Definition set_durable (d : Z) (s : shared) : shared :=
  mkShared (epoch_ s) d (sync_in_progress_ s) (write_offset_ s) (failed s) (fd_ s) (landed s) (stable s) (clears s).
Definition set_offset (n : Z) (s : shared) : shared :=
  mkShared (epoch_ s) (durable_end_ s) (sync_in_progress_ s) n (failed s) (fd_ s) (landed s) (stable s) (clears s).
Definition set_landed (b : bool) (n : Z) (s : shared) : shared :=
  mkShared (epoch_ s) (durable_end_ s) (sync_in_progress_ s) (write_offset_ s) b (fd_ s) n (stable s) (clears s).
Definition set_stable (n : Z) (s : shared) : shared :=
  mkShared (epoch_ s) (durable_end_ s) (sync_in_progress_ s) (write_offset_ s) (failed s) (fd_ s) (landed s) n (clears s).

(** ** The critical sections *)

(** The tests of the loop, up to [lock.unlock()]. *)
Definition test (t : Ticket) (s : shared) : pc * shared :=
  if negb (epoch t =? epoch_ s) then (Returned t, s)
  else if end_ t <=? durable_end_ s then (Returned t, s)
  else if sync_in_progress_ s then (Asleep t, s)
  else (Leading t (epoch_ s), set_progress true s).

(** The leader's section under [mu_]; [fails]: a completion reports a failure. *)
Definition drain (t : Ticket) (ep : Z) (fails : bool) (s : shared) : pc * shared :=
  let bad := failed s || fails in
  (if (bad : bool) then Relock t ep (write_offset_ s) true else InSync t ep (write_offset_ s) (fd_ s),
   set_landed bad (if (bad : bool) then landed s else write_offset_ s) s).

Inductive sync_outcome := Synced | Failed | Injected.

(** The call of [fdatasync] and the fault points before it. *)
Definition fdatasync (t : Ticket) (ep target : Z) (fd : nat) (o : sync_outcome) (s : shared) : pc * shared :=
  match o with
  | Synced => if (fd =? fd_ s)%nat then (AfterSync t ep target, set_stable (landed s) s) else (BadDescriptor, s)
  | Failed => (Relock t ep target true, s)
  | Injected => (Rethrow t, s)
  end.

(** The last section of the loop's body. *)
Definition finish (t : Ticket) (ep target : Z) (error : bool) (s : shared) : pc * shared :=
  let s := set_progress false s in
  if error then (Threw t, s)
  else (AtTest t, if epoch_ s =? ep then set_durable (Z.max (durable_end_ s) target) s else s).

(** [clear] on an idle log; its own drain leaves nothing in flight. *)
Definition clear (s : shared) : shared :=
  mkShared (u64 (epoch_ s + 1)) 0 (sync_in_progress_ s) 0 false (S (fd_ s)) 0 0 (clears s + 1).

Definition notify_all (l : gmap nat pc) : gmap nat pc :=
  (fun p => match p with Asleep t => AtTest t | p => p end) <$> l.

Definition idle (p : option pc) : Prop :=
  match p with None | Some (Outside | Returned _ | Threw _) => True | _ => False end.

(** ** Steps *)

Inductive step : state -> state -> Prop :=
  | step_append i n fails s l :         (* writeEntry, or the ticket of sync() when n = 0 *)
      idle (l !! i) -> 0 <= n -> (n = 0 /\ fails = false \/ failed s = false) ->
      let s' := set_landed (failed s || fails) (landed s) (set_offset (write_offset_ s + n) s) in
      step (mkState s l) (mkState s' (<[i := Holding (mkTicket (epoch_ s') (write_offset_ s'))]> l))
  | step_append_throws i n fails s l :  (* whether its record is queued or not *)
      idle (l !! i) -> 0 <= n -> (n = 0 /\ fails = false \/ failed s = false) ->
      step (mkState s l) (mkState (set_landed (failed s || fails) (landed s) (set_offset (write_offset_ s + n) s)) (<[i := Outside]> l))
  | step_leave i t s l :                (* the caller does not wait *)
      l !! i = Some (Holding t) -> step (mkState s l) (mkState s (<[i := Outside]> l))
  | step_wait i t s l :
      l !! i = Some (Holding t) -> step (mkState s l) (mkState s (<[i := AtTest t]> l))
  | step_test i t s l :
      l !! i = Some (AtTest t) -> step (mkState s l) (mkState (test t s).2 (<[i := (test t s).1]> l))
  | step_wake i t s l :                 (* a spurious wakeup *)
      l !! i = Some (Asleep t) -> step (mkState s l) (mkState s (<[i := AtTest t]> l))
  | step_drain i t ep fails s l :
      l !! i = Some (Leading t ep) ->
      step (mkState s l) (mkState (drain t ep fails s).2 (<[i := (drain t ep fails s).1]> l))
  | step_fdatasync i t ep target fd o s l :
      l !! i = Some (InSync t ep target fd) ->
      step (mkState s l) (mkState (fdatasync t ep target fd o s).2 (<[i := (fdatasync t ep target fd o s).1]> l))
  | step_after i t ep target (throws : bool) s l :
      l !! i = Some (AfterSync t ep target) ->
      step (mkState s l) (mkState s (<[i := if throws then Rethrow t else Relock t ep target false]> l))
  | step_finish i t ep target error s l :
      l !! i = Some (Relock t ep target error) ->
      step (mkState s l) (mkState (finish t ep target error s).2 (notify_all (<[i := (finish t ep target error s).1]> l)))
  | step_rethrow i t s l :
      l !! i = Some (Rethrow t) ->
      step (mkState s l) (mkState (set_progress false s) (notify_all (<[i := Threw t]> l)))
  | step_clear s l :                    (* sync_cv_.wait(.., !sync_in_progress_) is over *)
      sync_in_progress_ s = false -> step (mkState s l) (mkState (clear s) (notify_all l)).

(** A log that was opened with [n] bytes in its file. *)
Definition initial (n : Z) : state := mkState (mkShared 0 0 false n false 0 0 0 0) ∅.
Definition reachable (s : state) : Prop := exists n, 0 <= n /\ rtc step (initial n) s.

(** ** Invariant *)

(** A thread that has the leadership. *)
Definition leading (p : pc) : bool :=
  match p with Leading _ _ | InSync _ _ _ _ | AfterSync _ _ _ | Relock _ _ _ _ | Rethrow _ => true | _ => false end.

Definition asleep (p : pc) : bool := match p with Asleep _ => true | _ => false end.

(** What a leader knows: no [clear] has come between. *)
Definition knows (s : shared) (p : pc) : Prop :=
  match p with
  | Leading _ ep => ep = epoch_ s
  | InSync _ ep target fd => ep = epoch_ s /\ fd = fd_ s /\ target <= landed s
  | AfterSync _ ep target | Relock _ ep target false => ep = epoch_ s /\ target <= stable s
  | BadDescriptor => False
  | _ => True
  end.

Definition ticket_of (p : pc) : option Ticket :=
  match p with
  | Holding t | AtTest t | Asleep t | Leading t _ | InSync t _ _ _ | AfterSync t _ _ | Relock t _ _ _ | Rethrow t => Some t
  | _ => None
  end.

(** A ticket of this log lies within it.  Epochs repeat after 2^64 clears. *)
Definition ticket_ok (s : shared) (t : Ticket) : Prop :=
  clears s < 2 ^ 64 -> epoch t <= clears s /\ (epoch t = clears s -> end_ t <= write_offset_ s).

Record inv (x : state) : Prop := {
  in_knows i p : threads x !! i = Some p -> knows (sh x) p;
  in_leads i p : threads x !! i = Some p -> leading p = true -> sync_in_progress_ (sh x) = true;
  in_one i j p q : threads x !! i = Some p -> threads x !! j = Some q -> leading p = true -> leading q = true -> i = j;
  in_sleep i p : threads x !! i = Some p -> asleep p = true -> sync_in_progress_ (sh x) = true;
  in_busy : sync_in_progress_ (sh x) = true -> exists i p, threads x !! i = Some p /\ leading p = true;
  in_order : 0 <= durable_end_ (sh x) <= stable (sh x) /\ stable (sh x) <= landed (sh x) <= write_offset_ (sh x);
  in_epoch : 0 <= clears (sh x) /\ (clears (sh x) < 2 ^ 64 -> epoch_ (sh x) = clears (sh x));
  in_tickets i p t : threads x !! i = Some p -> ticket_of p = Some t -> ticket_ok (sh x) t
}.

(** The log only grows. *)
Record grows (s s' : shared) : Prop := {
  gr_epoch : epoch_ s' = epoch_ s;
  gr_fd : fd_ s' = fd_ s;
  gr_clears : clears s' = clears s;
  gr_landed : landed s <= landed s';
  gr_stable : stable s <= stable s';
  gr_offset : write_offset_ s <= write_offset_ s'
}.

Lemma knows_grows s s' p : grows s s' -> knows s p -> knows s' p.
Proof.
  intros [H1 H2 _ H3 H4 _]. destruct p as [| | | |t ep|t ep tg fd|t ep tg|t ep tg []| | | |]; cbn; try done; rewrite ?H1, ?H2; [done|..]; intros; split_and!; try tauto; lia.
Qed.

Lemma knows_quiet s s' p : leading p = false -> knows s p -> knows s' p.
Proof. by destruct p. Qed.

Lemma ticket_grows s s' t : grows s s' -> ticket_ok s t -> ticket_ok s' t.
Proof. intros [_ _ H1 _ _ H2] Ht Hc. rewrite H1 in *. destruct (Ht Hc) as [? H]. split; [done|]. intros E. specialize (H E). lia. Qed.

Lemma notify_lookup l j q : notify_all l !! j = Some q -> exists p, l !! j = Some p /\ asleep q = false /\
  leading q = leading p /\ ticket_of q = ticket_of p /\ forall s, knows s p -> knows s q.
Proof.
  unfold notify_all. rewrite lookup_fmap, fmap_Some. intros (p & Hp & ->). exists p. split; [done|]. by destruct p.
Qed.

(** The step of one thread that neither takes nor gives up the leadership. *)
Lemma inv_stay s s' l i p' :
  inv (mkState s l) -> grows s s' -> sync_in_progress_ s' = sync_in_progress_ s ->
  (0 <= durable_end_ s' <= stable s' /\ stable s' <= landed s' <= write_offset_ s') ->
  knows s' p' -> (forall t, ticket_of p' = Some t -> ticket_ok s' t) ->
  leading p' = leading (default Outside (l !! i)) -> (asleep p' = true -> sync_in_progress_ s = true) ->
  inv (mkState s' (<[i := p']> l)).
Proof.
  intros [H1 H2 H3 H4 H5 H6 H7 H8] Hg Hp Ho Hk Ht Hl Ha. cbn [sh threads] in *.
  assert (forall j q, <[i := p']> l !! j = Some q -> leading q = true -> exists p, l !! j = Some p /\ leading p = true) as Hold.
  { intros j q [[<- <-]|[Hj Hq]]%lookup_insert_Some Hq'; [|by exists q]. rewrite Hl in Hq'.
    destruct (l !! i) as [p|]; [by exists p|done]. }
  split; cbn [sh threads].
  - intros j q [[<- <-]|[Hj Hq]]%lookup_insert_Some; [done|]. eapply knows_grows; [done|by eapply H1].
  - intros j q Hj Hq. destruct (Hold j q Hj Hq) as (p & Hpj & Hlp). rewrite Hp. by eapply H2.
  - intros j k q r Hj Hk' Hq Hr. destruct (Hold j q Hj Hq) as (? & ? & ?), (Hold k r Hk' Hr) as (? & ? & ?). by eapply H3.
  - intros j q [[<- <-]|[Hj Hq]]%lookup_insert_Some Hqa; rewrite Hp; [auto|by eapply H4].
  - rewrite Hp. intros Hpr. destruct (H5 Hpr) as (j & q & Hj & Hq). destruct (decide (j = i)) as [->|Hne].
    + exists i, p'. rewrite lookup_insert_eq. split; [done|]. by rewrite Hl, Hj.
    + exists j, q. by rewrite lookup_insert_ne.
  - done.
  - destruct Hg as [He _ Hc _ _ _]. by rewrite He, Hc.
  - intros j q t [[<- <-]|[Hj Hq]]%lookup_insert_Some Hqt; [by apply Ht|]. eapply ticket_grows; [done|by eapply H8].
Qed.

(** The leader's last section. *)
Lemma inv_leave s s' l i p p' :
  inv (mkState s l) -> l !! i = Some p -> leading p = true -> grows s s' -> sync_in_progress_ s' = false ->
  (0 <= durable_end_ s' <= stable s' /\ stable s' <= landed s' <= write_offset_ s') ->
  leading p' = false -> knows s' p' -> (forall t, ticket_of p' = Some t -> ticket_ok s' t) ->
  inv (mkState s' (notify_all (<[i := p']> l))).
Proof.
  intros [H1 H2 H3 H4 H5 H6 H7 H8] Hi Hlp Hg Hp Ho Hl Hk Ht. cbn [sh threads] in *.
  assert (forall j q, notify_all (<[i := p']> l) !! j = Some q -> leading q = false) as Hnone.
  { intros j q (r & Hj & _ & -> & _)%notify_lookup. apply lookup_insert_Some in Hj as [[<- <-]|[Hj Hr]]; [done|].
    destruct (leading r) eqn:E; [|done]. by destruct (Hj (H3 i j p r Hi Hr Hlp E)). }
  split; cbn [sh threads].
  - intros j q (r & Hj & _ & _ & _ & Hkq)%notify_lookup. apply Hkq.
    apply lookup_insert_Some in Hj as [[<- <-]|[Hj Hr]]; [done|]. eapply knows_grows; [done|by eapply H1].
  - intros j q Hj Hq. by rewrite (Hnone j q Hj) in Hq.
  - intros j k q r Hj _ Hq _. by rewrite (Hnone j q Hj) in Hq.
  - intros j q (r & _ & Hq & _)%notify_lookup. by rewrite Hq.
  - by rewrite Hp.
  - done.
  - destruct Hg as [He _ Hc _ _ _]. by rewrite He, Hc.
  - intros j q t (r & Hj & _ & _ & -> & _)%notify_lookup Hqt. apply lookup_insert_Some in Hj as [[<- <-]|[Hj Hr]]; [by apply Ht|].
    eapply ticket_grows; [done|by eapply H8].
Qed.

Lemma inv_clear s l : inv (mkState s l) -> sync_in_progress_ s = false -> inv (mkState (clear s) (notify_all l)).
Proof.
  intros [H1 H2 H3 H4 H5 H6 H7 H8] Hp. cbn [sh threads] in *.
  assert (forall j q, l !! j = Some q -> leading q = false) as Hnone.
  { intros j q Hj. destruct (leading q) eqn:E; [|done]. by rewrite (H2 j q Hj E) in Hp. }
  split; cbn [sh threads].
  - intros j q (r & Hj & _ & _ & _ & Hkq)%notify_lookup. apply Hkq. eapply knows_quiet; [by eapply Hnone|by eapply H1].
  - intros j q (r & Hj & _ & Hl & _)%notify_lookup Hq. by rewrite Hl, (Hnone j r Hj) in Hq.
  - intros j k q r (r' & Hj & _ & Hl & _)%notify_lookup _ Hq. by rewrite Hl, (Hnone j r' Hj) in Hq.
  - intros j q (r & _ & Hq & _)%notify_lookup. by rewrite Hq.
  - cbn. by rewrite Hp.
  - cbn. lia.
  - cbn. destruct H7 as [Hc He]. split; [lia|]. intros Hlt. unfold wrap. rewrite He by lia. apply Z.mod_small. lia.
  - intros j q t (r & Hj & _ & _ & -> & _)%notify_lookup Hqt Hc. cbn in Hc |- *.
    destruct (H8 j r t Hj Hqt) as [? ?]; [lia|]. split; lia.
Qed.

Lemma test_cases s l i t : inv (mkState s l) -> l !! i = Some (AtTest t) -> inv (mkState (test t s).2 (<[i := (test t s).1]> l)).
Proof.
  intros Hinv Hi. pose proof Hinv as [H1 H2 H3 H4 H5 H6 H7 H8]. cbn [sh threads] in *.
  assert (grows s s) as Hg by by split.
  unfold test. destruct (negb (epoch t =? epoch_ s)); [|destruct (end_ t <=? durable_end_ s); [|destruct (sync_in_progress_ s) eqn:Hp]].
  - apply (inv_stay s); try done. by rewrite Hi.
  - apply (inv_stay s); try done. by rewrite Hi.
  - apply (inv_stay s); try done; [|by rewrite Hi]. intros t' [= <-]. by eapply H8.
  - cbn [fst snd].
    assert (forall j q, l !! j = Some q -> leading q = false /\ asleep q = false) as Hnone.
    { intros j q Hj. split; [destruct (leading q) eqn:E|destruct (asleep q) eqn:E]; try done.
      - discriminate (H2 j q Hj E).
      - discriminate (H4 j q Hj E). }
    split; cbn [sh threads].
    + intros j q [[<- <-]|[Hj Hq]]%lookup_insert_Some; [done|]. eapply knows_quiet; [by eapply Hnone|by eapply H1].
    + done.
    + intros j k q r [[<- <-]|[Hj Hq]]%lookup_insert_Some [[<- <-]|[Hk Hr]]%lookup_insert_Some Hlq Hlr; [done|..].
      * by rewrite (proj1 (Hnone k r Hr)) in Hlr.
      * by rewrite (proj1 (Hnone j q Hq)) in Hlq.
      * by rewrite (proj1 (Hnone j q Hq)) in Hlq.
    + done.
    + intros _. exists i, (Leading t (epoch_ s)). by rewrite lookup_insert_eq.
    + done.
    + done.
    + intros j q t' [[<- <-]|[Hj Hq]]%lookup_insert_Some Hqt; [injection Hqt as <-; by eapply H8|by eapply H8].
Qed.

Lemma inv_step x y : step x y -> inv x -> inv y.
Proof.
  intros Hs Hinv. destruct Hs as [i n fails s l Hi Hn Hf s'|i n fails s l Hi Hn Hf|i t s l Hi|i t s l Hi|i t s l Hi|i t s l Hi|i t ep fails s l Hi|i t ep tg fd o s l Hi|i t ep tg thr s l Hi|i t ep tg err s l Hi|i t s l Hi|s l Hp];
    pose proof Hinv as [H1 H2 H3 H4 H5 H6 H7 H8]; cbn [sh threads] in *; try (pose proof (H1 _ _ Hi) as Hk; cbn [knows] in Hk).
  - apply (inv_stay s); try done; [split; cbn; (done || lia)|cbn; lia| |].
    + intros t [= <-]. intros Hc. cbn in Hc |- *. destruct H7 as [_ He]. specialize (He Hc). cbn. lia.
    + cbn. destruct (l !! i) as [[]|]; done.
  - apply (inv_stay s); try done; [split; cbn; (done || lia)|cbn; lia|]. cbn. destruct (l !! i) as [[]|]; done.
  - apply (inv_stay s); try done. by rewrite Hi.
  - apply (inv_stay s); try done; [|by rewrite Hi]. intros t' [= <-]. by eapply H8.
  - by apply test_cases.
  - apply (inv_stay s); try done; [|by rewrite Hi]. intros t' [= <-]. by eapply H8.
  - unfold drain. destruct (failed s || fails); cbn [fst snd].
    + apply (inv_stay s); try done; [|by rewrite Hi]. intros t' [= <-]. by eapply H8.
    + apply (inv_stay s); try done; [split; cbn; (done || lia)|cbn; lia| |by rewrite Hi]. intros t' [= <-]. by eapply H8.
  - destruct o; cbn [fdatasync].
    + destruct Hk as (-> & -> & Hl). rewrite Nat.eqb_refl. cbn [fst snd].
      apply (inv_stay s); try done; [split; cbn; (done || lia)|cbn; lia| |by rewrite Hi]. intros t' [= <-]. by eapply H8.
    + apply (inv_stay s); try done; [|by rewrite Hi]. intros t' [= <-]. by eapply H8.
    + apply (inv_stay s); try done; [|by rewrite Hi]. intros t' [= <-]. by eapply H8.
  - apply (inv_stay s); try done; [by destruct thr|destruct thr; intros t' [= <-]; by eapply H8|rewrite Hi; by destruct thr|by destruct thr].
  - unfold finish. destruct err; cbn [fst snd].
    + by apply (inv_leave s _ l i _ _ Hinv Hi).
    + destruct Hk as [-> Hk]. cbn [set_progress epoch_]. rewrite Z.eqb_refl.
      apply (inv_leave s _ l i _ _ Hinv Hi); try done; [cbn; lia|]. intros t' [= <-]. by eapply H8.
  - by apply (inv_leave s _ l i _ _ Hinv Hi).
  - by apply inv_clear.
Qed.

Lemma inv_initial n : 0 <= n -> inv (initial n).
Proof. split; cbn; try done; lia. Qed.

Lemma inv_reachable x : reachable x -> inv x.
Proof.
  intros (n & Hn & H). apply rtc_ind_r with (P := inv) (x := initial n) in H; [done|by apply inv_initial|].
  intros y z _ Hstep Hy. by eapply inv_step.
Qed.

(** ** A waiting thread is served *)

Definition waits (x : state) (i : nat) (t : Ticket) : Prop :=
  threads x !! i = Some (AtTest t) \/ threads x !! i = Some (Asleep t).

(** A state to which [x] can move, where thread [i] may take the leadership. *)
Definition free_for (x : state) (i : nat) (t : Ticket) : Prop :=
  exists y, rtc step x y /\ sync_in_progress_ (sh y) = false /\ failed (sh y) = false /\ clears (sh y) = clears (sh x) /\
    threads y !! i = Some (AtTest t).

Lemma free_step x y i t : step x y -> clears (sh y) = clears (sh x) -> free_for y i t -> free_for x i t.
Proof. intros Hs Hc (z & Hz & H1 & H2 & H3 & H4). exists z. split; [by eapply rtc_l|]. by rewrite <- Hc. Qed.

(** Everybody is woken at the end of a leadership. *)
Lemma woken l i t j p : i <> j ->
  (l !! i = Some (AtTest t) \/ l !! i = Some (Asleep t)) -> notify_all (<[j := p]> l) !! i = Some (AtTest t).
Proof. intros Hne H. unfold notify_all. rewrite lookup_fmap, lookup_insert_ne by done. by destruct H as [-> | ->]. Qed.

Lemma leader_leaves s l j p i t :
  inv (mkState s l) -> failed s = false -> l !! j = Some p -> leading p = true -> waits (mkState s l) i t -> free_for (mkState s l) i t.
Proof.
  intros Hinv Hf Hj Hp Hw. assert (i <> j) as Hne by (intros ->; destruct Hw as [Hw|Hw]; cbn in Hw; rewrite Hj in Hw; by injection Hw as ->).
  assert (forall s l t' ep tg e, failed s = false -> l !! j = Some (Relock t' ep tg e) -> waits (mkState s l) i t -> free_for (mkState s l) i t) as Hrelock.
  { clear -Hne. intros s l t' ep tg e Hf Hj Hw. eapply free_step; [by eapply step_finish| |].
    - unfold finish. destruct e; [done|]. by destruct (_ =? _).
    - eexists. split; [apply rtc_refl|]. cbn [sh threads]. split_and!; [| |done|by apply woken].
      + unfold finish. destruct e; [done|]. by destruct (_ =? _).
      + unfold finish. destruct e; [done|]. by destruct (_ =? _). }
  assert (forall s l p, waits (mkState s l) i t -> forall s', waits (mkState s' (<[j := p]> l)) i t) as Hwaits.
  { clear -Hne. intros s l p Hw s'. unfold waits in *. cbn [threads] in *. by rewrite lookup_insert_ne. }
  assert (forall s l t' ep tg, failed s = false -> l !! j = Some (AfterSync t' ep tg) -> waits (mkState s l) i t -> free_for (mkState s l) i t) as Hafter.
  { clear -Hrelock Hwaits. intros s l t' ep tg Hf Hj Hw. eapply free_step; [by eapply (step_after j t' ep tg false)|done|].
    eapply Hrelock; [done|apply lookup_insert_eq|by eapply Hwaits]. }
  assert (forall s l t' ep tg fd, fd = fd_ s -> failed s = false -> l !! j = Some (InSync t' ep tg fd) -> waits (mkState s l) i t -> free_for (mkState s l) i t) as Hsync.
  { clear -Hafter Hwaits. intros s l t' ep tg fd Hfd Hf Hj Hw. eapply free_step; [eapply (step_fdatasync j t' ep tg fd Synced); done| |].
    - cbn [fdatasync sh]. by rewrite Hfd, Nat.eqb_refl.
    - cbn [fdatasync]. rewrite Hfd, Nat.eqb_refl. cbn [fst snd]. eapply Hafter; [done|apply lookup_insert_eq|by eapply Hwaits]. }
  destruct p as [| | | |t' ep|t' ep tg fd|t' ep tg|t' ep tg e|t'| | |]; try done.
  - eapply free_step; [eapply (step_drain j t' ep false); done|done|]. unfold drain. rewrite Hf. cbn [orb fst snd].
    eapply Hsync; [|done|apply lookup_insert_eq|by eapply Hwaits]. done.
  - eapply (Hsync s l t' ep tg fd); [|done..]. by apply (in_knows _ Hinv j _ Hj).
  - by eapply Hafter.
  - by eapply Hrelock.
  - eapply free_step; [by eapply step_rethrow|done|]. eexists. split; [apply rtc_refl|]. cbn. split_and!; [done|done|done|by apply woken].
Qed.

Lemma waits_free x i t : inv x -> failed (sh x) = false -> waits x i t -> free_for x i t.
Proof.
  destruct x as [s l]. intros Hinv Hf Hw. destruct (sync_in_progress_ s) eqn:Hp.
  - destruct (in_busy _ Hinv Hp) as (j & p & Hj & Hlp). by eapply leader_leaves.
  - exists (mkState s l). split_and!; [apply rtc_refl|done..|]. destruct Hw as [Hw|Hw]; [done|].
    pose proof (in_sleep _ Hinv i _ Hw eq_refl) as E. cbn in E. congruence.
Qed.

Lemma returns_now s l i t :
  l !! i = Some (AtTest t) -> epoch t <> epoch_ s \/ end_ t <= durable_end_ s ->
  exists y, rtc step (mkState s l) y /\ threads y !! i = Some (Returned t).
Proof.
  intros Hi Hc. exists (mkState s (<[i := Returned t]> l)). split; [|apply lookup_insert_eq]. apply rtc_once.
  pose proof (step_test i t s l Hi) as Hs. unfold test in Hs. destruct (Z.eqb_spec (epoch t) (epoch_ s)) as [E|E]; cbn [negb] in Hs; [|done].
  by rewrite (proj2 (Z.leb_le _ _)) in Hs by (destruct Hc; done).
Qed.

(** A thread that takes the leadership returns after its own fdatasync. *)
Lemma leads_and_returns s l i t :
  inv (mkState s l) -> clears s < 2 ^ 64 -> sync_in_progress_ s = false -> failed s = false -> l !! i = Some (AtTest t) ->
  exists y, rtc step (mkState s l) y /\ threads y !! i = Some (Returned t).
Proof.
  intros Hinv Hc Hp Hf Hi.
  destruct (Z.eqb_spec (epoch t) (epoch_ s)) as [E1|E1]; [|by apply returns_now; auto].
  destruct (Z.leb_spec (end_ t) (durable_end_ s)) as [E2|E2]; [by apply returns_now; auto|].
  assert (end_ t <= write_offset_ s) as Hend.
  { destruct (in_tickets _ Hinv i _ t Hi eq_refl Hc) as [_ H]. apply H. rewrite E1. by apply (in_epoch _ Hinv). }
  set (s1 := set_progress true s). set (l1 := <[i := Leading t (epoch_ s)]> l).
  assert (step (mkState s l) (mkState s1 l1)) as S1.
  { pose proof (step_test i t s l Hi) as Hs. unfold test in Hs. rewrite (proj2 (Z.eqb_eq _ _) E1), (proj2 (Z.leb_gt _ _) E2), Hp in Hs. exact Hs. }
  set (s2 := set_landed false (write_offset_ s) s1). set (l2 := <[i := InSync t (epoch_ s) (write_offset_ s) (fd_ s)]> l1).
  assert (step (mkState s1 l1) (mkState s2 l2)) as S2.
  { pose proof (step_drain i t (epoch_ s) false s1 l1 ltac:(apply lookup_insert_eq)) as Hs. unfold drain in Hs.
    cbn [failed set_progress s1] in Hs. rewrite Hf in Hs. exact Hs. }
  set (s3 := set_stable (landed s2) s2). set (l3' := <[i := AfterSync t (epoch_ s) (write_offset_ s)]> l2).
  assert (step (mkState s2 l2) (mkState s3 l3')) as S3.
  { pose proof (step_fdatasync i t (epoch_ s) (write_offset_ s) (fd_ s) Synced s2 l2 ltac:(apply lookup_insert_eq)) as Hs.
    cbn [fdatasync] in Hs. change (fd_ s2) with (fd_ s) in Hs. rewrite Nat.eqb_refl in Hs. exact Hs. }
  set (l3 := <[i := Relock t (epoch_ s) (write_offset_ s) false]> l3').
  pose proof (step_after i t (epoch_ s) (write_offset_ s) false s3 l3' ltac:(apply lookup_insert_eq)) as S3'.
  pose proof (step_finish i t (epoch_ s) (write_offset_ s) false s3 l3 ltac:(apply lookup_insert_eq)) as S4.
  unfold finish in S4. cbn [fst snd] in S4. change (epoch_ (set_progress false s3)) with (epoch_ s) in S4. rewrite Z.eqb_refl in S4.
  destruct (returns_now (set_durable (Z.max (durable_end_ (set_progress false s3)) (write_offset_ s)) (set_progress false s3))
              (notify_all (<[i := AtTest t]> l3)) i t) as (y & Hy & Hr).
  - unfold notify_all. by rewrite lookup_fmap, lookup_insert_eq.
  - right. cbn. lia.
  - exists y. split; [|done]. eapply rtc_l; [exact S1|]. eapply rtc_l; [exact S2|]. eapply rtc_l; [exact S3|]. eapply rtc_l; [exact S3'|]. eapply rtc_l; [exact S4|]. exact Hy.
Qed.

(** ** Properties *)

(** When [waitDurable] returns, the record is durable: the log up to the
    ticket's end had been written and then synced, or the log has been cleared
    since the ticket was given, in any interleaving of the threads. *)
Theorem returned_durable x i t s' :
  reachable x -> threads x !! i = Some (AtTest t) -> test t (sh x) = (Returned t, s') ->
  epoch t <> epoch_ (sh x) \/ end_ t <= stable (sh x).
Proof.
  intros Hx%inv_reachable Hi Ht. unfold test in Ht.
  destruct (Z.eqb_spec (epoch t) (epoch_ (sh x))) as [E|E]; [right|by left]. cbn [negb] in Ht.
  destruct (Z.leb_spec (end_ t) (durable_end_ (sh x))) as [E2|E2].
  - pose proof (in_order _ Hx). lia.
  - by destruct (sync_in_progress_ (sh x)).
Qed.

(** There is one leader at a time, and the descriptor it passes to
    [fdatasync], for which it holds no lock, is the log's own: no [clear] closes
    it meanwhile. *)
Theorem one_leader x :
  reachable x ->
  (forall i j p q, threads x !! i = Some p -> threads x !! j = Some q -> leading p = true -> leading q = true -> i = j) /\
  (forall i p, threads x !! i = Some p -> p <> BadDescriptor) /\
  (forall i t ep target fd, threads x !! i = Some (InSync t ep target fd) -> fd = fd_ (sh x) /\ ep = epoch_ (sh x)).
Proof.
  intros Hx%inv_reachable. split_and!.
  - apply Hx.
  - intros i p Hi ->. apply (in_knows _ Hx i _ Hi).
  - intros i t ep target fd Hi. by destruct (in_knows _ Hx i _ Hi) as (-> & -> & _).
Qed.

(** No wakeup is lost and no one waits for ever: from every reachable state
    of a log without failures, a thread that waits, asleep or not, can return,
    by steps in which no call fails.  (Epochs are 64 bits wide; fewer than 2^64
    clears.) *)
Theorem wait_served x i t :
  reachable x -> failed (sh x) = false -> clears (sh x) < 2 ^ 64 -> waits x i t ->
  exists y, rtc step x y /\ threads y !! i = Some (Returned t).
Proof.
  intros Hx Hf Hc Hw. destruct (waits_free x i t (inv_reachable _ Hx) Hf Hw) as ([s l] & Hy & Hp & Hf' & Hc' & Hi).
  destruct (leads_and_returns s l i t) as (z & Hz & Hr); try done.
  - apply inv_reachable. destruct Hx as (n & Hn & Hx). exists n. split; [done|]. by transitivity x.
  - cbn in Hc'. lia.
  - exists z. split; [by transitivity (mkState s l)|done].
Qed.

(** ** Witnesses *)

(** Two threads append; the first leads while the second appends and waits. *)
Definition w1 : Ticket := mkTicket 0 512.
Definition w2 : Ticket := mkTicket 0 1024.
Definition second_asleep : state :=
  mkState (mkShared 0 0 true 1024 false 0 0 0 0) {[ 1%nat := Leading w1 0; 2%nat := Asleep w2 ]}.

Lemma second_asleep_reachable : reachable second_asleep.
Proof.
  exists 0. split; [done|]. unfold initial.
  eapply rtc_l; [apply (step_append 1 512 false); [done|lia|by right]|].
  eapply rtc_l; [apply (step_wait 1 w1); done|].
  eapply rtc_l; [apply (step_append 2 512 false); [done|lia|by right]|].
  eapply rtc_l; [apply (step_wait 2 w2); done|].
  eapply rtc_l; [apply (step_test 1 w1); done|].
  eapply rtc_l; [apply (step_test 2 w2); done|].
  match goal with |- rtc _ ?a _ => assert (a = second_asleep) as -> by (vm_compute; reflexivity) end. apply rtc_refl.
Qed.

Lemma wait_served_witness : exists y, rtc step second_asleep y /\ threads y !! 2%nat = Some (Returned w2).
Proof. apply (wait_served second_asleep 2 w2); [apply second_asleep_reachable|done|done|by right]. Defined.

Lemma one_leader_witness :
  (forall i j p q, threads second_asleep !! i = Some p -> threads second_asleep !! j = Some q -> leading p = true -> leading q = true -> i = j) /\
  (forall i p, threads second_asleep !! i = Some p -> p <> BadDescriptor) /\
  (forall i t ep target fd, threads second_asleep !! i = Some (InSync t ep target fd) -> fd = fd_ (sh second_asleep) /\ ep = epoch_ (sh second_asleep)).
Proof. apply (one_leader second_asleep second_asleep_reachable). Defined.

(** The first leadership covers both records: one fdatasync, two returns. *)
Definition both_covered : state :=
  mkState (mkShared 0 1024 false 1024 false 0 1024 1024 0) {[ 1%nat := AtTest w1; 2%nat := AtTest w2 ]}.

Lemma both_covered_reachable : reachable both_covered.
Proof.
  destruct second_asleep_reachable as (n & Hn & H). exists n. split; [done|]. etrans; [exact H|]. unfold second_asleep.
  eapply rtc_l; [apply (step_drain 1 w1 0 false); done|].
  eapply rtc_l; [apply (step_fdatasync 1 w1 0 1024 0 Synced); done|].
  eapply rtc_l; [apply (step_after 1 w1 0 1024 false); done|].
  eapply rtc_l; [apply (step_finish 1 w1 0 1024 false); done|].
  match goal with |- rtc _ ?a _ => assert (a = both_covered) as -> by (vm_compute; reflexivity) end. apply rtc_refl.
Qed.

Lemma returned_durable_witness :
  (epoch w1 <> epoch_ (sh both_covered) \/ end_ w1 <= stable (sh both_covered)) /\
  (epoch w2 <> epoch_ (sh both_covered) \/ end_ w2 <= stable (sh both_covered)).
Proof.
  split.
  - by apply (returned_durable both_covered 1 w1 (sh both_covered) both_covered_reachable).
  - by apply (returned_durable both_covered 2 w2 (sh both_covered) both_covered_reachable).
Defined.

End GroupCommit.
