(* ===== verification/WalThreads.v ===== *)
(** * The write-ahead log under concurrent calls

    Models [src/wal/wal_writer.cpp] called by any number of threads: each step of
    a thread runs one critical section of [WalWriter] on the log they share,
    [writeEntry] and the leader's drain under [mu_], the tests of [waitDurable]
    and the end of its loop under [sync_mu_], [clear] under both, or the call of
    [fdatasync], which holds neither.  The sections of the two mutexes touch
    different members ([epoch_], which both read, is written under both), and the
    fault points of [waitDurable] are the leader's alone, so that nothing is lost
    by taking a section with the fault points in it as one step. *)

From S2P Require Import Prelude WalFormat Fault Kernel LogSpec WalWriter.
Open Scope Z_scope.

Module WalThreads.
Import Kernel WalWriter.

(** ** State *)

(** What a thread waits for: its ticket; and, for what is proved, how many
    records the log had when it was given. *)
Record Wait := mkWait { ticket : Ticket; upto : nat }.

(** Where a thread is in [writeEntry] and [waitDurable]. *)
Inductive pc :=
  | Outside                                                   (* or its append threw *)
  | Holding (x : Wait)                                        (* has a ticket, no lock *)
  | AtTest (x : Wait)                                         (* at the head of the loop *)
  | Asleep (x : Wait)                                         (* in sync_cv_.wait *)
  | Leading (x : Wait) (ep : Z)                               (* for mu_, to drain *)
  | BeforeSync (x : Wait) (ep target : Z) (fd : option nat)
  | InSync (x : Wait) (ep target : Z) (fd : option nat)       (* in fdatasync *)
  | AfterSync (x : Wait) (ep target : Z)
  | Relock (x : Wait) (ep target : Z) (error : option string)
  | Rethrow (x : Wait) (e : exn)                              (* in the handler *)
  | Returned (x : Wait)
  | Threw (x : Wait) (e : exn)
  | Wild.                                                     (* undefined behaviour *)

(** A [clear] that threw leaves a log without its ring; that is not followed. *)
Inductive status := Running | Died | ClearThrew | Undef.

Record config (R : Type) := mkConfig {
  wal : t R;
  flt : Fault.state;
  opened : nat;                  (* which descriptor fd_ is: clear opens a new one *)
  log : list WAL.Entry;          (* the records since the last clear *)
  threads : gmap nat pc;
  running : status
}.
Arguments mkConfig {R}.
Arguments wal {R}.
Arguments flt {R}.
Arguments opened {R}.
Arguments log {R}.
Arguments threads {R}.
Arguments running {R}.

Section threads.
Context {R : Type} `{!Uring R}.
Implicit Types (w : t R) (c : config R).
#[local] Abbreviation Wr := (Wr (R := R)).

(** ** The sections of waitDurable *)

(** [catch (...)] around what the leader does. *)
Definition caught (x : Wait) (m : Wr pc) : Wr pc := fun w f =>
  match m w f with
  | (Throw e, w, f) => (Ok (Rethrow x e), w, f)
  | r => r
  end.

(** The tests of the loop, up to [lock.unlock()] or the wait. *)
Definition test (x : Wait) : Wr pc :=
  w ← reads_ id;
  if negb (epoch (ticket x) =? epoch_ w) then mret (Returned x)
  else if end_ (ticket x) <=? durable_end_ w then mret (Returned x)
  else if sync_in_progress_ w then mret (Asleep x)
  else sync_flag true ;; mret (Leading x (epoch_ w)).

(** The leader's section under [mu_]; [o] names the descriptor open now. *)
Definition lead (o : nat) (x : Wait) (ep : Z) : Wr pc :=
  drain ;;
  failure ← reads_ failure_;
  target ← reads_ write_offset_;
  fd ← reads_ fd_;
  mret (if bool_decide (failure <> None) then Relock x ep target (Some "write failed")
        else BeforeSync x ep target (if (fd : bool) then Some o else None)).

Definition before_sync (x : Wait) (ep target : Z) (fd : option nat) : Wr pc :=
  hit "wal.before_fdatasync" ;;
  update (fun w => set_stats (u64 (sync_calls_ w + 1)) (cancel_retries_ w) w) ;;
  injected ← shouldFail "wal.fdatasync_error";
  mret (if (injected : bool) then Relock x ep target (Some "fdatasync failed") else InSync x ep target fd).

(** A descriptor that was closed meanwhile may by now be any other file. *)
Definition call_fdatasync (o : nat) (x : Wait) (ep target : Z) (fd : option nat) : Wr pc :=
  match fd with
  | None => mret (Relock x ep target (Some "fdatasync failed"))
  | Some fd =>
      if (fd =? o)%nat then
        ok ← sys fdatasync;
        mret (if (ok : bool) then AfterSync x ep target else Relock x ep target (Some "fdatasync failed"))
      else undefined
  end.

Definition after_sync (x : Wait) (ep target : Z) : Wr pc :=
  hit "wal.after_fdatasync" ;; mret (Relock x ep target None).

(** The last section of the loop's body. *)
Definition relock (x : Wait) (ep target : Z) (error : option string) : Wr pc :=
  sync_flag false ;;
  update (fun w => if bool_decide (error = None) && (epoch_ w =? ep)
                   then set_sync false (Z.max (durable_end_ w) target) w else w) ;;
  mret (match error with Some what => Threw x (RuntimeError what) | None => AtTest x end).

(** What a thread does next by itself. *)
Definition section (o : nat) (p : pc) : option (Wr pc) :=
  match p with
  | AtTest x => Some (test x)
  | Leading x ep => Some (caught x (lead o x ep))
  | BeforeSync x ep target fd => Some (caught x (before_sync x ep target fd))
  | InSync x ep target fd => Some (caught x (call_fdatasync o x ep target fd))
  | AfterSync x ep target => Some (caught x (after_sync x ep target))
  | Relock x ep target error => Some (relock x ep target error)
  | Rethrow x e => Some (sync_flag false ;; mret (Threw x e))
  | _ => None
  end.

(** ** Configurations *)

Definition wakes (p : pc) : bool := match p with Relock _ _ _ _ | Rethrow _ _ => true | _ => false end.

Definition notify_all (l : gmap nat pc) : gmap nat pc :=
  (fun p => match p with Asleep x => AtTest x | p => p end) <$> l.

(** Thread [i] has run a section that ended in [r]. *)
Definition settle (i : nat) (r : result pc) w (f : Fault.state) (es : list WAL.Entry) (notify : bool) c : config R :=
  let at_ p := mkConfig w f (opened c) es (let l := <[i := p]> (threads c) in if notify then notify_all l else l) (running c) in
  match r with
  | Ok p => at_ p
  | Throw _ => at_ Outside
  | Crashed => mkConfig w f (opened c) es (threads c) Died
  | Undefined => at_ Wild
  end.

Definition idle (p : option pc) : bool :=
  match p with None | Some (Outside | Returned _ | Threw _ _) => true | _ => false end.

(** The records of the log after an append: its space was taken or not. *)
Definition records (e : WAL.Entry) w w' (es : list WAL.Entry) : list WAL.Entry :=
  if write_offset_ w' =? write_offset_ w then es else es ++ [e].

Inductive action :=
  | Append (i : nat) (ty : WAL.Type_) (k v : str)
  | Barrier (i : nat)                                (* sync(): its section under mu_ *)
  | AwaitTicket (i : nat)                            (* calls waitDurable *)
  | Leave (i : nat)                                  (* or does not *)
  | Awaken (i : nat)                                 (* a spurious wakeup *)
  | Go (i : nat)
  | Clear.

Definition append (i : nat) (ty : WAL.Type_) (k v : str) c : config R :=
  let '(r, w, f) := writeEntry ty k v (wal c) (flt c) in
  let es := records (WAL.mkEntry ty k v) (wal c) w (log c) in
  settle i (match r with
            | Ok ticket => Ok (Holding (mkWait ticket (length es)))
            | Throw e => Throw e
            | Crashed => Crashed
            | Undefined => Undefined
            end) w f es false c.

Definition clear_ c : config R :=
  match clear (wal c) (flt c) with
  | (Ok _, w, f) => mkConfig w f (S (opened c)) [] (notify_all (threads c)) Running
  | (Crashed, w, f) => mkConfig w f (opened c) (log c) (threads c) Died
  | (Throw _, w, f) => mkConfig w f (opened c) (log c) (notify_all (threads c)) ClearThrew
  | (Undefined, w, f) => mkConfig w f (opened c) (log c) (threads c) Undef
  end.

(** The longest record the callers append ([LogSpec.fits]). *)
Variable limit : Z.

(** The record is not longer, and the log's file has room for it ([off_t]). *)
Definition fits c (ty : WAL.Type_) (k v : str) : bool :=
  (record_bytes (WAL.mkEntry ty k v) <=? limit) &&
  (write_offset_ (wal c) + record_bytes (WAL.mkEntry ty k v) <=? 2 ^ 63).

Definition act (a : action) c : option (config R) :=
  let goto i p := Some (mkConfig (wal c) (flt c) (opened c) (log c) (<[i := p]> (threads c)) Running) in
  match running c with
  | Running =>
      match a with
      | Append i ty k v => if idle (threads c !! i) && fits c ty k v then Some (append i ty k v c) else None
      | Barrier i =>
          if idle (threads c !! i)
          then goto i (Holding (mkWait (mkTicket (epoch_ (wal c)) (write_offset_ (wal c))) (length (log c)))) else None
      | AwaitTicket i => match threads c !! i with Some (Holding x) => goto i (AtTest x) | _ => None end
      | Leave i => match threads c !! i with Some (Holding x) => goto i Outside | _ => None end
      | Awaken i => match threads c !! i with Some (Asleep x) => goto i (AtTest x) | _ => None end
      | Go i =>
          match threads c !! i with
          | Some p =>
              match section (opened c) p with
              | Some m => let '(r, w, f) := m (wal c) (flt c) in Some (settle i r w f (log c) (wakes p) c)
              | None => None
              end
          | None => None
          end
      | Clear => if sync_in_progress_ (wal c) then None else Some (clear_ c)
      end
  | _ => None
  end.

Definition step c c' : Prop := exists a, act a c = Some c'.

(** A log just opened, holding the records [es]. *)
Definition start w (f : Fault.state) (es : list WAL.Entry) : config R := mkConfig w f 0 es ∅ Running.

Fixpoint acts (l : list action) c : option (config R) :=
  match l with
  | [] => Some c
  | a :: l => match act a c with Some c => acts l c | None => None end
  end.

Lemma acts_reach l c c' : acts l c = Some c' -> rtc step c c'.
Proof.
  revert c. induction l as [|a l IH]; intros c H; [by injection H as ->|].
  cbn in H. destruct (act a c) as [c1|] eqn:E; [|done]. eapply rtc_l; [by exists a|by apply IH].
Qed.

(** ** One thread alone *)

(** A thread's sections, one after the other, until it returns or throws. *)
Fixpoint alone (fuel : nat) (o : nat) (p : pc) : Wr unit :=
  match fuel with
  | O => undefined
  | S fuel =>
      match p with
      | Returned _ => mret tt
      | Threw _ e => throw e
      | _ => match section o p with Some m => p ← m; alone fuel o p | None => undefined end
      end
  end.

End threads.

End WalThreads.
