(* ===== verification/WalThreadsSpec.v ===== *)
(** * The invariant of the log under concurrent calls

    Every section of [WalThreads] keeps the writer's invariant and each ticket at
    the place of its record, and is a step of [GroupCommit] on what that protocol
    sees of the configuration ([view]); what a drain has found landed stays so
    until the leader syncs it.  Before that, one thread alone: its sections are
    [WalWriter.waitDurable]. *)

From S2P Require Import Prelude WalFormat Fault Kernel LogSpec WalWriter WalDisk WalWriterSpec WalLog GroupCommit WalThreads.
Open Scope Z_scope.

Module WalThreadsSpec.
Import WAL Kernel WalWriter WalDisk WalWriterSpec WalLog WalThreads.

Section threads.
Context {R : Type} `{!Uring R} `{!UringSpec R}.
Implicit Types (w : t R) (c : config R) (k : kstate sqe).
#[local] Abbreviation Wr := (Wr (R := R)).

(** ** A recorded failure stays *)

Definition keeps {A} (m : Wr A) : Prop := forall w f, failure_ w <> None -> failure_ (m w f).1.2 <> None.

Lemma keeps_bind {A B} (m : Wr A) (g : A -> Wr B) : keeps m -> (forall a, keeps (g a)) -> keeps (m ≫= g).
Proof.
  intros Hm Hg w f Hw. specialize (Hm w f Hw). unfold mbind, Wr_bind.
  destruct (m w f) as [[[a|x| |] w'] f']; [by apply Hg|done..].
Qed.

Lemma keeps_update (g : t R -> t R) : (forall w, failure_ (g w) = failure_ w) -> keeps (update g).
Proof. intros Hg w f Hw. cbn. by rewrite Hg. Qed.

Lemma keeps_sys {A} (g : R -> A * R) : keeps (sys g).
Proof. intros w f Hw. unfold sys. by destruct (g (kernel w)). Qed.

Lemma keeps_shouldFail p : keeps (shouldFail p).
Proof. intros w f Hw. unfold shouldFail. by destruct (Fault.shouldFail p f). Qed.

Lemma keeps_recordFailure d : keeps (recordFailure d).
Proof. intros w f Hw. cbn. by destruct (failure_ w) eqn:E; [rewrite E|]. Qed.

Lemma keeps_reads {A} (g : t R -> A) : keeps (reads_ g).
Proof. by intros w f. Qed.

Lemma keeps_ret {A} (a : A) : keeps (mret a).
Proof. by intros w f. Qed.

Lemma keeps_undefined {A} : keeps (undefined (A := A)).
Proof. by intros w f. Qed.

#[local] Hint Resolve keeps_sys keeps_shouldFail keeps_recordFailure keeps_reads keeps_ret keeps_undefined : keeps.

Ltac keeps :=
  repeat first
    [ progress eauto with keeps
    | apply keeps_bind; [|intros ?]
    | by apply keeps_update
    | case_match ].

Lemma keeps_ring {A} (g : R -> A * R) : keeps (ring g).
Proof. unfold ring. keeps. Qed.
#[local] Hint Resolve keeps_ring : keeps.

Lemma keeps_deref p : keeps (deref p).
Proof. unfold deref. keeps. Qed.
#[local] Hint Resolve keeps_deref : keeps.

Lemma keeps_reap_one res data : keeps (reap_one res data).
Proof. unfold reap_one, finish, faulted, free, resubmit, store, queue_write, ring_. keeps; apply keeps_update; intros w; by case_match. Qed.
#[local] Hint Resolve keeps_reap_one : keeps.

Lemma keeps_reap : keeps reap.
Proof.
  unfold reap. apply keeps_bind; [apply keeps_reads|]. intros fuel. induction fuel; cbn [reap_loop]; keeps.
Qed.
#[local] Hint Resolve keeps_reap : keeps.

Lemma keeps_drain : keeps drain.
Proof.
  unfold drain. keeps. match goal with |- keeps (drain_loop ?n) => generalize n end. intros fuel.
  induction fuel; cbn [drain_loop]; keeps.
Qed.

(** ** One thread alone *)

Lemma alone_go n o p m w f : section o p = Some m -> alone (S n) o p w f = (p ← m; alone n o p) w f.
Proof. intros Hs. cbn [alone]. rewrite Hs. by destruct p. Qed.

(** What [waitDurable] does after the leader's part. *)
Definition after_lead (ep : Z) (rest : Wr unit) (r : option string * Z) : Wr unit :=
  sync_flag false ;;
  update (fun w => if bool_decide (r.1 = None) && (epoch_ w =? ep) then set_sync false (Z.max (durable_end_ w) r.2) w else w) ;;
  match r.1 with Some what => throw (RuntimeError what) | None => rest end.

Lemma alone_relock n o x ep target error w f :
  alone (2 + n) o (Relock x ep target error) w f = after_lead ep (alone (1 + n) o (AtTest x)) (error, target) w f.
Proof. erewrite (alone_go (1 + n)) by reflexivity. destruct error; reflexivity. Qed.

Lemma alone_rethrow n o x e w f :
  alone (2 + n) o (Rethrow x e) w f = (Throw e, set_sync false (durable_end_ w) w, f).
Proof. erewrite (alone_go (1 + n)) by reflexivity. reflexivity. Qed.

Lemma alone_leading m o x ep w f :
  (r ← on_throw leader (sync_flag false ;; mret (None, 0)); after_lead ep (alone (1 + m) o (AtTest x)) r) w f =
  alone (6 + m) o (Leading x ep) w f.
Proof.
  erewrite (alone_go (5 + m)) by reflexivity. unfold lead, leader, caught, on_throw, mbind, Wr_bind, mret, Wr_ret, reads_, update.
  destruct (drain w f) as [[[[]|e| |] w1] f1]; cbv beta iota; [|by rewrite (alone_rethrow (3 + m))|done..].
  case_bool_decide as Hf; cbv beta iota; [by rewrite (alone_relock (3 + m))|].
  erewrite (alone_go (4 + m)) by reflexivity. unfold before_sync, caught, hit, shouldFail, mbind, Wr_bind, mret, Wr_ret, reads_, update.
  destruct (Fault.hit _ f1) as [[[]|e| |] f2]; cbv beta iota; [|by rewrite (alone_rethrow (2 + m))|done..].
  destruct (Fault.shouldFail _ f2) as [[] f3]; cbv beta iota; [by rewrite (alone_relock (2 + m))|].
  erewrite (alone_go (3 + m)) by reflexivity. unfold call_fdatasync, caught, mbind, Wr_bind, mret, Wr_ret.
  destruct (fd_ w1); [rewrite Nat.eqb_refl|by rewrite (alone_relock (1 + m))].
  destruct (sys fdatasync _ f3) as [[[[]|e| |] w2] f4]; cbv beta iota; cbn [negb];
    [|by rewrite (alone_relock (1 + m))|by rewrite (alone_rethrow (1 + m))|done..].
  erewrite (alone_go (2 + m)) by reflexivity. unfold after_sync, caught, hit, mbind, Wr_bind, mret, Wr_ret.
  destruct (Fault.hit _ f4) as [[[]|e| |] f5]; cbv beta iota; [by rewrite (alone_relock m)|by rewrite (alone_rethrow m)|done..].
Qed.

Lemma wait_loop_S n t w f :
  wait_loop (S n) t w f =
  if negb (epoch t =? epoch_ w) then (Ok tt, w, f)
  else if end_ t <=? durable_end_ w then (Ok tt, w, f)
  else if sync_in_progress_ w then wait_loop n t w f
  else (r ← on_throw leader (sync_flag false ;; mret (None, 0)); after_lead (epoch_ w) (wait_loop n t) r)
         (set_sync true (durable_end_ w) w) f.
Proof.
  cbn [wait_loop]. unfold reads_ at 1, mbind at 1, Wr_bind at 1. cbv beta iota. unfold id.
  destruct (negb _); [done|]. destruct (_ <=? _); [done|]. destruct (sync_in_progress_ w); [done|].
  unfold mbind, Wr_bind. change (sync_flag true w f) with (Ok tt, set_sync true (durable_end_ w) w, f). cbv beta iota.
  destruct (on_throw leader _ _ _) as [[[[[what|] target]|e| |] w1] f1]; reflexivity.
Qed.

Lemma alone_test n o x w f :
  alone (2 + n) o (AtTest x) w f =
  if negb (epoch (ticket x) =? epoch_ w) then (Ok tt, w, f)
  else if end_ (ticket x) <=? durable_end_ w then (Ok tt, w, f)
  else if sync_in_progress_ w then (Undefined, w, f)
  else alone (1 + n) o (Leading x (epoch_ w)) (set_sync true (durable_end_ w) w) f.
Proof.
  erewrite (alone_go (1 + n)) by reflexivity. unfold test, reads_, sync_flag, update, mbind, Wr_bind, mret, Wr_ret. cbv beta iota. unfold id.
  destruct (negb _); [done|]. destruct (_ <=? _); [done|]. by destruct (sync_in_progress_ w).
Qed.

(** C40: a thread that waits alone does what [waitDurable] says: its sections, in
    order, are that function.  Eight are enough: the second test succeeds. *)
Lemma alone_waits b o x w f k l0 l1 n :
  winv true b w f k l0 l1 n -> sync_in_progress_ w = false -> (epoch (ticket x) = epoch_ w -> end_ (ticket x) <= write_offset_ w) ->
  alone 8 o (AtTest x) w f = waitDurable (ticket x) w f.
Proof.
  intros Hw Hflag Hend. unfold waitDurable. rewrite wait_loop_S, (alone_test 6), Hflag.
  destruct (Z.eqb_spec (epoch (ticket x)) (epoch_ w)) as [He|He]; cbn [negb]; [|done].
  destruct (Z.leb_spec (end_ (ticket x)) (durable_end_ w)) as [Hd|Hd]; [done|].
  rewrite <- (alone_leading 1). unfold mbind at 1 3, Wr_bind at 1 3, on_throw.
  pose proof (leader_spec true eq_refl _ _ _ _ _ _ _ (winv_flag _ _ _ _ _ _ _ _ true Hw)) as Hl. unfold wpr in Hl.
  destruct (leader _ f) as [[[[[what|] target]|e| |] w1] f1]; cbn [fst snd] in Hl; [done| |done..].
  destruct Hl as (k1 & l2 & n1 & Hs & _ & _ & _ & _ & _ & ->). pose proof (sl_epoch _ _ Hs) as Ee. pose proof (sl_offset _ _ Hs) as Eo.
  cbn [set_sync epoch_ write_offset_] in Ee, Eo. unfold after_lead, sync_flag, update, mbind, Wr_bind. cbn [fst snd].
  rewrite bool_decide_true by done. cbn [andb set_sync epoch_ durable_end_]. rewrite Ee, Z.eqb_refl.
  rewrite wait_loop_S. change (1 + 1)%nat with (2 + 0)%nat. rewrite alone_test. cbn [set_sync epoch_ durable_end_].
  rewrite Ee, <- He, Z.eqb_refl. cbn [negb]. by rewrite (proj2 (Z.leb_le _ _)) by (specialize (Hend He); lia).
Qed.

(** ** The protocol's view of a configuration *)

Definition to_ticket (x : Wait) : GroupCommit.Ticket := GroupCommit.mkTicket (epoch (ticket x)) (end_ (ticket x)).

Definition to_pc (p : pc) : GroupCommit.pc :=
  match p with
  | Outside => GroupCommit.Outside
  | Holding x => GroupCommit.Holding (to_ticket x)
  | AtTest x => GroupCommit.AtTest (to_ticket x)
  | Asleep x => GroupCommit.Asleep (to_ticket x)
  | Leading x ep => GroupCommit.Leading (to_ticket x) ep
  | BeforeSync x ep target (Some fd) | InSync x ep target (Some fd) => GroupCommit.InSync (to_ticket x) ep target fd
  | AfterSync x ep target => GroupCommit.AfterSync (to_ticket x) ep target
  | Relock x ep target error => GroupCommit.Relock (to_ticket x) ep target (bool_decide (error <> None))
  | Rethrow x _ => GroupCommit.Rethrow (to_ticket x)
  | Returned x => GroupCommit.Returned (to_ticket x)
  | Threw x _ => GroupCommit.Threw (to_ticket x)
  | BeforeSync _ _ _ None | InSync _ _ _ None | Wild => GroupCommit.BadDescriptor
  end.

(** How far the log has landed and is stable is not in the writer's members. *)
Definition shared_view (landed stable : Z) (o : nat) w : GroupCommit.shared :=
  GroupCommit.mkShared (epoch_ w) (durable_end_ w) (sync_in_progress_ w) (write_offset_ w)
    (bool_decide (failure_ w <> None)) o landed stable (Z.of_nat o).

Definition view (landed stable : Z) c : GroupCommit.state :=
  GroupCommit.mkState (shared_view landed stable (opened c) (wal c)) (to_pc <$> threads c).

Lemma view_notify (l : gmap nat pc) : to_pc <$> notify_all l = GroupCommit.notify_all (to_pc <$> l).
Proof.
  unfold notify_all, GroupCommit.notify_all. rewrite <- !map_fmap_compose. apply map_fmap_ext. intros i p _.
  by destruct p as [| | | | |? ? ? []|? ? ? []| | | | | |].
Qed.

Lemma idle_view (l : gmap nat pc) i : idle (l !! i) = true -> GroupCommit.idle ((to_pc <$> l) !! i).
Proof. rewrite lookup_fmap. by destruct (l !! i) as [[]|]. Qed.

(** ** Tickets *)

Definition wait_of (p : pc) : option Wait :=
  match p with
  | Outside | Wild => None
  | Holding x | AtTest x | Asleep x | Leading x _ | BeforeSync x _ _ _ | InSync x _ _ _ | AfterSync x _ _
  | Relock x _ _ _ | Rethrow x _ | Returned x | Threw x _ => Some x
  end.

(** The ticket ends where the record does after which it was given. *)
Definition placed (l0 l1 : list slot) (x : Wait) : Prop :=
  exists j, (j <= length l1)%nat /\ upto x = (length (survivors l0) + j)%nat /\
    end_ (ticket x) = zlen (log_bytes (l0 ++ take j l1)).

Lemma placed_extends l0 l1 l1' x : extends l1 l1' -> placed l0 l1 x -> placed l0 l1' x.
Proof.
  intros He (j & Hj & Hu & Ht). exists j. pose proof (extends_length _ _ He). split_and!; [lia|done|].
  by rewrite Ht, (grows_size _ _ _ (extends_take _ _ j He Hj)).
Qed.

(** What holds of a thread, in a log cleared [o] times with [n] durable records.
    Epochs repeat after 2^64 clears. *)
Definition thread_ok (o : nat) (l0 l1 : list slot) (n : nat) (p : pc) : Prop :=
  forall x, wait_of p = Some x -> Z.of_nat o < 2 ^ 64 ->
    epoch (ticket x) <= Z.of_nat o /\
    (epoch (ticket x) = Z.of_nat o -> placed l0 l1 x /\ (p = Returned x -> (upto x <= length (survivors l0) + n)%nat)).

Definition threads_ok o l0 l1 n (l : gmap nat pc) : Prop := forall i p, l !! i = Some p -> thread_ok o l0 l1 n p.

Lemma thread_ok_more o l0 l1 l1' n n' p :
  extends l1 l1' -> (n <= n')%nat -> thread_ok o l0 l1 n p -> thread_ok o l0 l1' n' p.
Proof.
  intros He Hn Hp x Hx Ho. destruct (Hp x Hx Ho) as [? Hpl]. split; [done|]. intros E. destruct (Hpl E) as [H1 H2].
  split; [by eapply placed_extends|]. intros Hr. specialize (H2 Hr). lia.
Qed.

Lemma threads_ok_more o l0 l1 l1' n n' l :
  extends l1 l1' -> (n <= n')%nat -> threads_ok o l0 l1 n l -> threads_ok o l0 l1' n' l.
Proof. intros He Hn Hl i p Hp. eapply thread_ok_more; [done|done|by eapply Hl]. Qed.

Lemma threads_ok_insert o l0 l1 n l i p :
  threads_ok o l0 l1 n l -> thread_ok o l0 l1 n p -> threads_ok o l0 l1 n (<[i := p]> l).
Proof. intros Hl Hp j q [[<- <-]|[_ Hq]]%lookup_insert_Some; [done|by eapply Hl]. Qed.

(** The same ticket, elsewhere in the code. *)
Lemma thread_ok_same o l0 l1 n p p' :
  thread_ok o l0 l1 n p -> wait_of p' = wait_of p -> (forall x, p' <> Returned x) -> thread_ok o l0 l1 n p'.
Proof. intros Hp E Hr x Hx Ho. rewrite E in Hx. destruct (Hp x Hx Ho) as [? Hpl]. split; [done|]. intros Ee. split; [by apply Hpl|]. by intros ?%Hr. Qed.

Lemma threads_ok_notify o l0 l1 n l : threads_ok o l0 l1 n l -> threads_ok o l0 l1 n (notify_all l).
Proof.
  intros Hl i q Hq. unfold notify_all in Hq. rewrite lookup_fmap, fmap_Some in Hq. destruct Hq as (p & Hp & ->).
  specialize (Hl i p Hp). destruct p; try done. by eapply thread_ok_same.
Qed.

Lemma thread_ok_outside o l0 l1 n p : wait_of p = None -> thread_ok o l0 l1 n p.
Proof. intros E x Hx. by rewrite E in Hx. Qed.

(** After a clear every ticket is of an earlier epoch. *)
Lemma threads_ok_cleared o l0 l1 n l : threads_ok o l0 l1 n l -> threads_ok (S o) [] [] 0 l.
Proof. intros Hl i p Hp x Hx Ho. destruct (Hl i p Hp x Hx) as [? _]; [lia|]. split; lia. Qed.

(** ** The invariant *)

Variable b : bool.
Abbreviation limit := (write_limit whole_write b).

Record log_inv c k l0 l1 n : Prop := {
  li_winv : winv true b (wal c) (flt c) k l0 l1 n;
  li_log : log c = survivors l0 ++ (entry_of <$> l1);
  li_epoch : Z.of_nat (opened c) < 2 ^ 64 -> epoch_ (wal c) = Z.of_nat (opened c);
  li_threads : threads_ok (opened c) l0 l1 n (threads c)
}.

(** [m] records have been found landed by a drain. *)
Record view_inv c l0 l1 n (landed stable : Z) (m : nat) : Prop := {
  vi_reach : GroupCommit.reachable (view landed stable c);
  vi_m : (m <= length l1)%nat;
  vi_written : Forall is_written (take m l1);
  vi_landed : landed <= zlen (log_bytes (l0 ++ take m l1));
  vi_stable : stable <= zlen (log_bytes (l0 ++ take n l1))
}.

Definition inv c : Prop :=
  match running c with
  | Running => exists k l0 l1 n ld st m, log_inv c k l0 l1 n /\ view_inv c l0 l1 n ld st m
  | Died => exists k l0 l1 n, log_inv c k l0 l1 n
  | ClearThrew => True
  | Undef => False
  end.

Lemma view_inv_more c l0 l1 l1' n n' ld st m :
  view_inv c l0 l1 n ld st m -> extends l1 l1' -> (n <= n' <= length l1')%nat -> (n <= length l1)%nat ->
  (m <= length l1')%nat /\ Forall is_written (take m l1') /\
  ld <= zlen (log_bytes (l0 ++ take m l1')) /\ st <= zlen (log_bytes (l0 ++ take n' l1')).
Proof.
  intros [Hr Hm Hw Hl Hs] He Hn Hnl. pose proof (extends_length _ _ He). split_and!; [lia| | |].
  - eapply grows_all_written; [by apply extends_take|done].
  - by rewrite <- (grows_size _ _ _ (extends_take _ _ m He Hm)).
  - etrans; [exact Hs|]. rewrite (grows_size _ _ _ (extends_take _ _ n He Hnl)). apply log_take_mono. lia.
Qed.

Lemma reach_steps x y : GroupCommit.reachable x -> rtc GroupCommit.step x y -> GroupCommit.reachable y.
Proof. intros (n & Hn & Hx) Hy. exists n. split; [done|]. by etrans. Qed.

(** A thread has moved, and the protocol with it. *)
Lemma inv_put c k l0 l1 n ld st m i p notify w' f' es k' l1' n' ld' st' m' :
  log_inv c k l0 l1 n -> view_inv c l0 l1 n ld st m ->
  winv true b w' f' k' l0 l1' n' -> extends l1 l1' -> (n <= n')%nat -> es = survivors l0 ++ (entry_of <$> l1') ->
  epoch_ w' = epoch_ (wal c) -> thread_ok (opened c) l0 l1' n' p ->
  rtc GroupCommit.step (view ld st c) (GroupCommit.mkState (shared_view ld' st' (opened c) w')
    (let l := <[i := to_pc p]> (to_pc <$> threads c) in if notify : bool then GroupCommit.notify_all l else l)) ->
  (m' <= length l1')%nat -> Forall is_written (take m' l1') ->
  ld' <= zlen (log_bytes (l0 ++ take m' l1')) -> st' <= zlen (log_bytes (l0 ++ take n' l1')) ->
  inv (mkConfig w' f' (opened c) es (let l := <[i := p]> (threads c) in if notify : bool then notify_all l else l) Running).
Proof.
  intros [Hw Hlog He Ht] [Hr _ _ _ _] Hw' Hext Hn -> Hep Hp Hs H1 H2 H3 H4.
  assert (threads_ok (opened c) l0 l1' n' (<[i := p]> (threads c))) as Ht'.
  { apply threads_ok_insert; [by eapply threads_ok_more|done]. }
  exists k', l0, l1', n', ld', st', m'. split; split; cbn [wal flt opened log threads]; try done.
  - by rewrite Hep.
  - destruct notify; [by apply threads_ok_notify|done].
  - eapply reach_steps; [exact Hr|]. unfold view. cbn [wal opened threads]. destruct notify.
    + by rewrite view_notify, fmap_insert.
    + by rewrite fmap_insert.
Qed.

(** The process has died. *)
Lemma inv_die c k l0 l1 n w' f' es k' l1' n' :
  log_inv c k l0 l1 n -> winv true b w' f' k' l0 l1' n' -> extends l1 l1' -> (n <= n')%nat ->
  es = survivors l0 ++ (entry_of <$> l1') -> epoch_ w' = epoch_ (wal c) ->
  inv (mkConfig w' f' (opened c) es (threads c) Died).
Proof.
  intros [Hw Hlog He Ht] Hw' Hext Hn -> Hep. exists k', l0, l1', n'. split; cbn [wal flt opened log threads]; try done.
  - by rewrite Hep.
  - by eapply threads_ok_more.
Qed.

(** ** The sections *)

Lemma wpr_caught x (m : Wr pc) (Q : result pc -> t R -> Fault.state -> Prop) w f :
  wpr m (fun r => Q (match r with Throw e => Ok (Rethrow x e) | r => r end)) w f -> wpr (caught x m) Q w f.
Proof. unfold wpr, caught. by destruct (m w f) as [[[p|e| |] w'] f']. Qed.

Section section_.
Context (c : config R) (k : kstate sqe) (l0 l1 : list slot) (n : nat) (ld st : Z) (m i : nat).
Hypothesis Hrun : running c = Running.
Hypothesis Hli : log_inv c k l0 l1 n.
Hypothesis Hvi : view_inv c l0 l1 n ld st m.

#[local] Abbreviation s := (shared_view ld st (opened c) (wal c)).
#[local] Abbreviation l := (to_pc <$> threads c).

Lemma lookup_view p : threads c !! i = Some p -> l !! i = Some (to_pc p).
Proof. intros Hi. by rewrite lookup_fmap, Hi. Qed.

Lemma view_knows p : threads c !! i = Some p -> GroupCommit.knows s (to_pc p).
Proof.
  intros Hi. pose proof (GroupCommit.inv_reachable _ (vi_reach _ _ _ _ _ _ _ Hvi)) as Hg.
  by apply (GroupCommit.in_knows _ Hg i), lookup_view.
Qed.

Lemma n_le : (n <= length l1)%nat.
Proof. apply (winv_count_le _ _ _ _ _ _ _ (li_winv _ _ _ _ _ Hli)). Qed.

(** Nothing happens to the records. *)
Lemma inv_move p notify w' f' :
  winv true b w' f' k l0 l1 n -> epoch_ w' = epoch_ (wal c) -> thread_ok (opened c) l0 l1 n p ->
  rtc GroupCommit.step (view ld st c) (GroupCommit.mkState (shared_view ld st (opened c) w')
    (let l := <[i := to_pc p]> l in if notify : bool then GroupCommit.notify_all l else l)) ->
  inv (mkConfig w' f' (opened c) (log c) (let l := <[i := p]> (threads c) in if notify : bool then notify_all l else l) Running).
Proof.
  intros Hw He Hp Hs. destruct Hvi as [H1 H2 H3 H4 H5].
  eapply (inv_put c k l0 l1 n ld st m i p notify w' f' (log c) k l1 n ld st m); try done. apply Hli.
Qed.

(** ... and the log is as it was. *)
Lemma inv_goto p :
  thread_ok (opened c) l0 l1 n p -> rtc GroupCommit.step (view ld st c) (GroupCommit.mkState s (<[i := to_pc p]> l)) ->
  inv (mkConfig (wal c) (flt c) (opened c) (log c) (<[i := p]> (threads c)) Running).
Proof. intros Hp Hs. apply (inv_move p false); [apply Hli|done|done|done]. Qed.

(** Thread [i] runs [m_] and everything holds again. *)
Definition goes (notify : bool) (m_ : Wr pc) : Prop :=
  wpr m_ (fun r w f => inv (settle i r w f (log c) notify c)) (wal c) (flt c).

Lemma returns_ok x :
  thread_ok (opened c) l0 l1 n (AtTest x) -> epoch (ticket x) <> epoch_ (wal c) \/ end_ (ticket x) <= durable_end_ (wal c) ->
  thread_ok (opened c) l0 l1 n (Returned x).
Proof.
  intros Hx Hc y [= <-] Ho. destruct (Hx x eq_refl Ho) as [H1 H2]. split; [done|]. intros E. destruct (H2 E) as [Hpl _].
  split; [done|]. intros _. rewrite (li_epoch _ _ _ _ _ Hli Ho) in Hc. destruct Hc as [?|Hle]; [done|].
  destruct Hpl as (j & Hj & -> & Ht). rewrite Ht in Hle. pose proof (co_durable _ _ _ _ _ _ _ _ _ (proj1 (li_winv _ _ _ _ _ Hli))) as Hd.
  assert (j <= n)%nat by (apply (log_take_le l0 l1); [done|lia]). lia.
Qed.

Lemma go_test x :
  threads c !! i = Some (AtTest x) ->
  goes false (test x).
Proof.
  intros Hi. pose proof (li_threads _ _ _ _ _ Hli i _ Hi) as Hx. pose proof (lookup_view _ Hi) as Hl.
  pose proof (GroupCommit.step_test i (to_ticket x) s l Hl) as Hs. apply rtc_once in Hs.
  unfold GroupCommit.test in Hs. cbn [shared_view to_ticket GroupCommit.epoch GroupCommit.end_ GroupCommit.epoch_ GroupCommit.durable_end_ GroupCommit.sync_in_progress_] in Hs.
  unfold goes, wpr, test, reads_, mbind, Wr_bind. cbn [id].
  destruct (Z.eqb_spec (epoch (ticket x)) (epoch_ (wal c))) as [E|E]; cbn [negb] in *.
  2:{ cbn. rewrite Hrun. apply inv_goto; [apply returns_ok; [done|by left]|exact Hs]. }
  destruct (Z.leb_spec (end_ (ticket x)) (durable_end_ (wal c))) as [E2|E2].
  { cbn. rewrite Hrun. apply inv_goto; [apply returns_ok; [done|by right]|exact Hs]. }
  destruct (sync_in_progress_ (wal c)) eqn:Hflag; cbn; rewrite Hrun.
  - apply inv_goto; [by eapply thread_ok_same|exact Hs].
  - apply (inv_move (Leading x (epoch_ (wal c))) false); [apply winv_flag, Hli|done|by eapply thread_ok_same|exact Hs].
Qed.

(** What draining leaves of the shared members. *)
Lemma view_drained w ld' :
  same_log (wal c) w ->
  GroupCommit.set_landed (bool_decide (failure_ w <> None)) ld' s = shared_view ld' st (opened c) w.
Proof. intros [_ _ E1 E2 E3 _ E4 _]. unfold shared_view. rewrite E1, E2, E3, E4. done. Qed.

Lemma go_lead x ep :
  threads c !! i = Some (Leading x ep) ->
  goes false (caught x (lead (opened c) x ep)).
Proof.
  intros Hi. pose proof (li_threads _ _ _ _ _ Hli i _ Hi) as Hx. pose proof (lookup_view _ Hi) as Hl. cbn [to_pc] in Hl.
  pose proof (drain_spec _ _ _ _ _ _ _ _ (li_winv _ _ _ _ _ Hli)) as Hd. unfold wpr in Hd.
  pose proof (keeps_drain (wal c) (flt c)) as Hk. unfold goes, wpr, caught, lead, reads_, mbind, Wr_bind.
  destruct (drain (wal c) (flt c)) as [[r w1] f1]. cbn [fst snd] in *. destruct Hd as (-> & k1 & l1' & Hs & _ & Hg & Hw & Hall).
  rewrite (co_fd _ _ _ _ _ _ _ _ _ (proj1 Hw)). cbn [mret Wr_ret settle fst snd]. rewrite Hrun.
  rewrite (sl_offset _ _ Hs). set (bad := bool_decide (failure_ w1 <> None)).
  assert (rtc GroupCommit.step (view ld st c) (GroupCommit.mkState
    (shared_view (if bad then ld else write_offset_ (wal c)) st (opened c) w1)
    (<[i := if bad then GroupCommit.Relock (to_ticket x) ep (write_offset_ (wal c)) true
            else GroupCommit.InSync (to_ticket x) ep (write_offset_ (wal c)) (opened c)]> l))) as Hstep.
  { apply rtc_once. pose proof (GroupCommit.step_drain i (to_ticket x) ep bad s l Hl) as H1. unfold GroupCommit.drain in H1. cbn [fst snd] in H1.
    assert (GroupCommit.failed s || bad = bad) as E.
    { cbn [shared_view GroupCommit.failed]. case_bool_decide as E; [|done]. unfold bad. by rewrite (bool_decide_true _ (Hk E)). }
    rewrite E in H1. rewrite <- (view_drained w1) by done. exact H1. }
  pose proof (view_inv_more _ _ _ _ n n _ _ _ Hvi (grows_extends _ _ Hg)) as Hm.
  rewrite <- (grows_length _ _ Hg) in Hm. specialize (Hm (conj (Nat.le_refl _) n_le) n_le).
  destruct Hm as (H1 & H2 & H3 & H4). pose proof (grows_length _ _ Hg) as Hlen.
  assert (forall p, wait_of p = Some x -> (forall y, p <> Returned y) -> thread_ok (opened c) l0 l1' n p) as Hp.
  { intros p Hp Hr. eapply thread_ok_more; [by apply grows_extends|done|]. by eapply thread_ok_same. }
  assert (log c = survivors l0 ++ (entry_of <$> l1')) as Hes by (by rewrite <- (grows_entries _ _ Hg); apply Hli).
  destruct bad eqn:Hbad.
  - eapply (inv_put c k l0 l1 n ld st m i _ false w1 f1 (log c) k1 l1' n ld st m); try done; [by apply grows_extends|apply Hs|by apply Hp|lia].
  - assert (failure_ w1 = None) as Hf by (unfold bad in Hbad; case_bool_decide; [done|by destruct (failure_ w1); [destruct H|]]).
    eapply (inv_put c k l0 l1 n ld st m i _ false w1 f1 (log c) k1 l1' n _ st (length l1')); try done; [by apply grows_extends|apply Hs|by apply Hp| |].
    + rewrite (firstn_all l1'). by eapply drained_written.
    + rewrite (firstn_all l1'), <- (sl_offset _ _ Hs). by rewrite <- (co_off _ _ _ _ _ _ _ _ _ (proj1 Hw)).
Qed.

(** The state after a step that only the fault registry has seen. *)
Lemma inv_hit p f' :
  stays_disarmed (flt c) f' -> thread_ok (opened c) l0 l1 n p ->
  rtc GroupCommit.step (view ld st c) (GroupCommit.mkState s (<[i := to_pc p]> l)) ->
  inv (settle i (Ok p) (wal c) f' (log c) false c).
Proof.
  intros Hf Hp Hs. cbn [settle]. rewrite Hrun. apply (inv_move p false); [|done|done|done]. eapply winv_faults; [apply Hli|done].
Qed.

Lemma inv_crash f' : stays_disarmed (flt c) f' -> inv (settle i Crashed (wal c) f' (log c) false c).
Proof.
  intros Hf. cbn [settle]. eapply inv_die; [exact Hli| |reflexivity|done|apply Hli|done]. eapply winv_faults; [apply Hli|done].
Qed.

Lemma go_before_sync x ep target fd :
  threads c !! i = Some (BeforeSync x ep target fd) -> goes false (caught x (before_sync x ep target fd)).
Proof.
  intros Hi. pose proof (li_threads _ _ _ _ _ Hli i _ Hi) as Hx. pose proof (lookup_view _ Hi) as Hl.
  pose proof (view_knows _ Hi) as Hk. destruct fd as [fd|]; [|done]. cbn [to_pc] in Hl.
  assert (forall p, wait_of p = Some x -> (forall y, p <> Returned y) -> thread_ok (opened c) l0 l1 n p) as Hp by (intros p ? ?; by eapply (thread_ok_same _ _ _ _ _ p Hx)).
  pose proof (fun o => GroupCommit.step_fdatasync i (to_ticket x) ep target fd o s l Hl) as Hs.
  apply wpr_caught, wpr_bind, wpr_hit. intros r f1 Hf1 _ Hu.
  destruct r as [[]|e| |]; cbn [afterr];
    [|apply inv_hit; [done|by apply Hp|apply rtc_once, (Hs GroupCommit.Injected)]|by apply inv_crash|done].
  apply wpr_bind, wpr_update. cbn [afterr]. apply wpr_bind, wpr_shouldFail. intros bad f2 Hf2 _. cbn [afterr]. apply wpr_ret.
  assert (winv true b (set_stats (u64 (sync_calls_ (wal c) + 1)) (cancel_retries_ (wal c)) (wal c)) f2 k l0 l1 n) as Hw.
  { apply winv_stats. eapply winv_faults; [apply Hli|by eapply stays_trans]. }
  cbn [settle]. rewrite Hrun. apply (inv_move _ false); [exact Hw|done|by apply Hp; destruct bad|]. destruct bad; cbn [to_pc].
  - apply rtc_once, (Hs GroupCommit.Failed).
  - by rewrite insert_id.
Qed.

Lemma go_after_sync x ep target :
  threads c !! i = Some (AfterSync x ep target) -> goes false (caught x (after_sync x ep target)).
Proof.
  intros Hi. pose proof (li_threads _ _ _ _ _ Hli i _ Hi) as Hx. pose proof (lookup_view _ Hi) as Hl. cbn [to_pc] in Hl.
  pose proof (fun t => GroupCommit.step_after i (to_ticket x) ep target t s l Hl) as Hs.
  apply wpr_caught, wpr_bind, wpr_hit. intros r f1 Hf1 _ Hu.
  destruct r as [[]|e| |]; cbn [afterr]; [apply wpr_ret| |by apply inv_crash|done].
  - apply inv_hit; [done|by eapply thread_ok_same|apply rtc_once, (Hs false)].
  - apply inv_hit; [done|by eapply thread_ok_same|apply rtc_once, (Hs true)].
Qed.

(** The first [m] records had landed when the leader drained. *)
Lemma go_fdatasync x ep target fd :
  threads c !! i = Some (InSync x ep target fd) -> goes false (caught x (call_fdatasync (opened c) x ep target fd)).
Proof.
  intros Hi. pose proof (li_threads _ _ _ _ _ Hli i _ Hi) as Hx. pose proof (lookup_view _ Hi) as Hl.
  pose proof (view_knows _ Hi) as Hk. destruct fd as [fd|]; [|done]. cbn [to_pc] in Hl. destruct Hk as (-> & Hfd & Htgt).
  cbn [shared_view GroupCommit.fd_] in Hfd. subst fd.
  pose proof (fun o => GroupCommit.step_fdatasync i (to_ticket x) _ target (opened c) o s l Hl) as Hs.
  unfold call_fdatasync. rewrite Nat.eqb_refl. apply wpr_caught, wpr_bind, wpr_sys. cbn [afterr].
  pose proof (li_winv _ _ _ _ _ Hli) as Hw. pose proof (fdatasync_spec _ _ (co_rep _ _ _ _ _ _ _ _ _ (proj1 Hw))) as Hfd.
  destruct (Kernel.fdatasync (kernel (wal c))) as [ok r']. destruct Hfd as (k' & Hk' & _ & Hr'). cbn [fst snd]. apply wpr_ret.
  destruct Hvi as [_ Hm Hwr Hld Hst]. pose proof n_le as Hn.
  set (ep := GroupCommit.epoch_ s) in *. destruct ok.
  - destruct (kinv_steps _ _ _ _ _ _ Hk' (co_inv _ _ _ _ _ _ _ _ _ (proj1 Hw))) as (l1' & Hg & Hi').
    assert (Forall is_written (take (n `max` m) l1)) as Hall.
    { destruct (Nat.max_spec n m) as [[_ ->]|[_ ->]]; [done|]. eapply synced_prefix, (co_synced _ _ _ _ _ _ _ _ _ (proj1 Hw)). }
    pose proof (synced_winv true _ _ _ _ _ _ _ (n `max` m) _ _ _ Hw ltac:(lia) Hall Hk' Hg Hi' Hr') as Hw'.
    pose proof (grows_length _ _ Hg) as Hlen. pose proof (grows_extends _ _ Hg) as Hext.
    cbn [settle]. rewrite Hrun.
    eapply (inv_put c k l0 l1 n ld st m i _ false _ _ _ _ l1' (n `max` m) ld ld m); try done; [lia| | | |lia|..].
    + rewrite <- (grows_entries _ _ Hg). apply Hli.
    + eapply thread_ok_more; [done|apply Nat.le_max_l|]. by eapply (thread_ok_same _ _ _ _ _ _ Hx).
    + apply rtc_once. specialize (Hs GroupCommit.Synced). unfold GroupCommit.fdatasync in Hs.
      cbn [shared_view GroupCommit.fd_] in Hs. rewrite Nat.eqb_refl in Hs. exact Hs.
    + eapply grows_all_written; [by apply grows_take|done].
    + by rewrite <- (grows_size _ _ _ (grows_take _ _ m Hg)).
    + rewrite <- (grows_size _ _ _ (grows_take _ _ (n `max` m) Hg)). etrans; [exact Hld|]. apply log_take_mono. lia.
  - destruct (winv_steps _ _ _ _ _ _ _ _ _ r' Hw Hk' Hr') as (l1' & Hg & Hw'). pose proof (grows_length _ _ Hg) as Hlen.
    destruct (view_inv_more _ _ _ _ n n _ _ _ Hvi (grows_extends _ _ Hg)) as (H1 & H2 & H3 & H4); [lia|done|].
    cbn [settle]. rewrite Hrun.
    eapply (inv_put c k l0 l1 n ld st m i _ false _ _ _ _ l1' n ld st m); try done; [by apply grows_extends| | |].
    + rewrite <- (grows_entries _ _ Hg). apply Hli.
    + eapply thread_ok_more; [by apply grows_extends|done|]. by eapply (thread_ok_same _ _ _ _ _ _ Hx).
    + apply rtc_once, (Hs GroupCommit.Failed).
Qed.

Lemma go_relock x ep target error :
  threads c !! i = Some (Relock x ep target error) -> goes true (relock x ep target error).
Proof.
  intros Hi. pose proof (li_threads _ _ _ _ _ Hli i _ Hi) as Hx. pose proof (lookup_view _ Hi) as Hl.
  pose proof (view_knows _ Hi) as Hk. cbn [to_pc] in Hl, Hk. pose proof (li_winv _ _ _ _ _ Hli) as Hw.
  pose proof (GroupCommit.step_finish i (to_ticket x) ep target _ s l Hl) as Hs. apply rtc_once in Hs. revert Hs Hk.
  unfold goes, wpr, relock, sync_flag, update, mbind, Wr_bind. cbn [fst snd settle mret Wr_ret]. rewrite Hrun.
  destruct error as [what|]; cbn -[GroupCommit.notify_all notify_all]; intros Hs Hk.
  - apply (inv_move (Threw x (RuntimeError what)) true); [by apply winv_flag|done|by eapply (thread_ok_same _ _ _ _ _ _ Hx)|exact Hs].
  - destruct Hk as [-> Htgt]. rewrite !Z.eqb_refl in *. unfold set_sync at 2 3. cbn [epoch_ durable_end_].
    apply (inv_move (AtTest x) true); [|done|by eapply (thread_ok_same _ _ _ _ _ _ Hx)|exact Hs].
    apply winv_set_sync; [by apply winv_flag|]. pose proof (co_durable _ _ _ _ _ _ _ _ _ (proj1 Hw)). pose proof (vi_stable _ _ _ _ _ _ _ Hvi). cbn. lia.
Qed.

Lemma go_rethrow x e :
  threads c !! i = Some (Rethrow x e) -> goes true (sync_flag false ;; mret (Threw x e)).
Proof.
  intros Hi. pose proof (li_threads _ _ _ _ _ Hli i _ Hi) as Hx. pose proof (lookup_view _ Hi) as Hl. cbn [to_pc] in Hl.
  pose proof (GroupCommit.step_rethrow i (to_ticket x) s l Hl) as Hs. apply rtc_once in Hs.
  apply wpr_bind, wpr_update, wpr_ret. cbn [settle]. rewrite Hrun.
  apply (inv_move (Threw x e) true); [apply winv_flag, Hli|done|by eapply (thread_ok_same _ _ _ _ _ _ Hx)|exact Hs].
Qed.

Lemma go_section p m_ :
  threads c !! i = Some p -> section (opened c) p = Some m_ -> goes (wakes p) m_.
Proof.
  intros Hi Hs. destruct p; inversion Hs; subst.
  - by apply go_test.
  - by apply go_lead.
  - by apply go_before_sync.
  - by apply go_fdatasync.
  - by apply go_after_sync.
  - by apply go_relock.
  - by apply go_rethrow.
Qed.

End section_.

(** ** The other actions *)

(** Where the log ends says whether the record was taken in. *)
Lemma records_at w w' f f' k k' l0 l1 l1' n n' e es :
  winv true b w f k l0 l1 n -> winv true b w' f' k' l0 l1' n' -> es = survivors l0 ++ (entry_of <$> l1) ->
  entry_of <$> l1' = entry_of <$> l1 \/ entry_of <$> l1' = (entry_of <$> l1) ++ [e] ->
  records e w w' es = survivors l0 ++ (entry_of <$> l1') /\ write_offset_ w <= write_offset_ w' /\
  (entry_of <$> l1' = entry_of <$> l1 -> write_offset_ w' = write_offset_ w).
Proof.
  intros Hw Hw' -> He. unfold records.
  rewrite (co_off _ _ _ _ _ _ _ _ _ (proj1 Hw)), (co_off _ _ _ _ _ _ _ _ _ (proj1 Hw')), !log_bytes_app, !length_app.
  pose proof (record_bytes_pos e) as Hpos. assert (zlen (encode e) = record_bytes e) as Hsz by apply length_encode.
  destruct He as [He|He].
  - rewrite (length_log _ _ He), Z.eqb_refl, He. split_and!; [done|lia|done].
  - assert (length (log_bytes l1') = length (log_bytes l1) + length (encode e))%nat as Hlen.
    { rewrite (length_log l1' (l1 ++ [Lost e])) by (by rewrite fmap_app). rewrite log_bytes_app, length_app. f_equal.
      unfold log_bytes. cbn. rewrite app_nil_r. exact (length_slot (Lost e)). }
    rewrite Hlen. rewrite (proj2 (Z.eqb_neq _ _)) by lia. rewrite He, app_assoc. split_and!; [done|lia|].
    intros E. apply (f_equal length) in E. rewrite length_app in E. cbn in E. lia.
Qed.

(** An append as the protocol sees it: the log is longer, or has failed. *)
Lemma view_append c ld st w' :
  same_head (wal c) w' -> write_offset_ (wal c) <= write_offset_ w' -> (failure_ (wal c) <> None -> w' = wal c) ->
  exists n fails, 0 <= n /\ (n = 0 /\ fails = false \/ GroupCommit.failed (shared_view ld st (opened c) (wal c)) = false) /\
    let s := shared_view ld st (opened c) (wal c) in
    GroupCommit.set_landed (GroupCommit.failed s || fails) (GroupCommit.landed s) (GroupCommit.set_offset (GroupCommit.write_offset_ s + n) s) =
    shared_view ld st (opened c) w'.
Proof.
  intros [_ E1 E2 E3] Ho Hf. destruct (decide (failure_ (wal c) = None)) as [Hn|Hn].
  - exists (write_offset_ w' - write_offset_ (wal c)), (bool_decide (failure_ w' <> None)).
    assert (GroupCommit.failed (shared_view ld st (opened c) (wal c)) = false) as Hs by (cbn; rewrite Hn; done).
    split_and!; [lia|by right|]. cbv zeta. rewrite Hs. unfold shared_view. rewrite E1, E2, E3. cbn.
    unfold GroupCommit.set_landed, GroupCommit.set_offset. cbn. f_equal. lia.
  - rewrite (Hf Hn) in *. exists 0, false. split_and!; [done|by left|]. cbn.
    unfold GroupCommit.set_landed, GroupCommit.set_offset, shared_view. cbn. by rewrite orb_false_r, Z.add_0_r.
Qed.

Lemma inv_append c i ty ky v :
  inv c -> running c = Running -> idle (threads c !! i) = true -> fits limit c ty ky v = true -> inv (append i ty ky v c).
Proof.
  unfold inv at 1. intros Hc Hrun Hi Hfit. rewrite Hrun in Hc. destruct Hc as (k & l0 & l1 & n & ld & st & m & Hli & Hvi).
  apply andb_true_iff in Hfit as [Hmax%Z.leb_le Hroom%Z.leb_le]. pose proof (li_winv _ _ _ _ _ Hli) as Hw.
  set (e := mkEntry ty ky v) in *. pose proof (idle_view _ _ Hi) as Hidle.
  pose proof (writeEntry_spec true b _ _ _ _ _ _ ty ky v Hw Hmax Hroom) as Ha. unfold wpr in Ha. unfold append.
  assert (failure_ (wal c) <> None -> (writeEntry ty ky v (wal c) (flt c)).1.2 = wal c) as Href.
  { intros Hf. unfold writeEntry, reads_, mbind, Wr_bind. by rewrite bool_decide_true. }
  destruct (writeEntry ty ky v (wal c) (flt c)) as [[r w'] f']. cbn [fst snd] in Ha, Href. destruct Ha as (Hh & _ & _ & _ & Hr).
  assert (exists k' l1', extends l1 l1' /\ winv true b w' f' k' l0 l1' n /\
    (entry_of <$> l1' = entry_of <$> l1 \/ entry_of <$> l1' = (entry_of <$> l1) ++ [e]) /\
    (forall t, r = Ok t -> t = mkTicket (epoch_ (wal c)) (write_offset_ w')) /\ r <> Undefined) as (k' & l1' & Hext & Hw' & Hes & Hok & Hu).
  { destruct r as [t|x| |]; [destruct Hr as (-> & k' & l1' & ? & ? & ?)|destruct Hr as [(k' & l1' & ? & ? & ?)|(k' & l1' & ? & ? & ?)]..|done];
      exists k', l1'; split_and!; auto; try done; by intros t [= <-]. }
  destruct (records_at _ _ _ _ _ _ _ _ _ _ _ _ _ Hw Hw' (li_log _ _ _ _ _ Hli) Hes) as (Hlog & Hoff & _). cbv zeta. fold e. rewrite Hlog.
  pose proof (winv_count_le _ _ _ _ _ _ _ Hw) as Hn. pose proof (winv_count_le _ _ _ _ _ _ _ Hw') as Hn'.
  destruct (view_inv_more _ _ _ _ n n _ _ _ Hvi Hext) as (H1 & H2 & H3 & H4); [lia|done|].
  destruct (view_append c ld st w' Hh Hoff Href) as (delta & fails & Hd & Hcond & Hview). cbv zeta in Hview.
  assert (forall p, thread_ok (opened c) l0 l1' n p ->
    rtc GroupCommit.step (view ld st c) (GroupCommit.mkState (shared_view ld st (opened c) w') (<[i := to_pc p]> (to_pc <$> threads c))) ->
    inv (settle i (Ok p) w' f' (survivors l0 ++ (entry_of <$> l1')) false c)) as Hput.
  { intros p Hp Hs. cbn [settle]. rewrite Hrun.
    by eapply (inv_put c k l0 l1 n ld st m i p false _ _ _ _ l1' n ld st m); try done; [apply Hh|..]. }
  destruct r as [t|x| |]; [| | |done].
  - apply Hput.
    + intros y [= <-] Ho. rewrite (Hok t eq_refl). cbn [ticket epoch end_]. rewrite (li_epoch _ _ _ _ _ Hli Ho).
      split; [done|]. intros _. split; [|done]. exists (length l1'). split_and!; [done|by rewrite length_app, length_fmap|].
      rewrite (firstn_all l1'). apply (co_off _ _ _ _ _ _ _ _ _ (proj1 Hw')).
    + apply rtc_once. pose proof (GroupCommit.step_append i delta fails _ _ Hidle Hd Hcond) as Hs. cbv zeta in Hs. rewrite Hview in Hs.
      rewrite (Hok t eq_refl). cbn [to_pc to_ticket ticket epoch end_]. rewrite <- (sh_epoch _ _ Hh). exact Hs.
  - change (settle i (Throw x)) with (settle (R := R) i (Ok Outside)). apply Hput; [by apply thread_ok_outside|].
    apply rtc_once. pose proof (GroupCommit.step_append_throws i delta fails _ _ Hidle Hd Hcond) as Hs. by rewrite Hview in Hs.
  - cbn [settle]. eapply inv_die; try done. apply Hh.
Qed.

Lemma inv_cleared c : inv c -> running c = Running -> sync_in_progress_ (wal c) = false -> inv (clear_ c).
Proof.
  unfold inv at 1. intros Hc Hrun Hflag. rewrite Hrun in Hc. destruct Hc as (k & l0 & l1 & n & ld & st & m & Hli & Hvi).
  pose proof (clear_spec true b _ _ _ _ _ _ (li_winv _ _ _ _ _ Hli) Hflag) as Hc. unfold wpr in Hc. unfold clear_.
  destruct (clear (wal c) (flt c)) as [[r w'] f']. cbn [fst snd] in Hc. destruct Hc as (_ & _ & _ & Hr).
  destruct r as [[]|x| |]; [|done..]. destruct Hr as ((k' & Hw') & Hf' & Hep & Hd & Hfl).
  pose proof (co_off _ _ _ _ _ _ _ _ _ (proj1 Hw')) as Ho. change (write_offset_ w' = 0) in Ho.
  exists k', [], [], 0%nat, 0, 0, 0%nat. split; split; cbn [wal flt opened log threads]; try done.
  - intros Hlt. rewrite Hep, (li_epoch _ _ _ _ _ Hli) by lia. unfold wrap. rewrite Z.mod_small; lia.
  - apply threads_ok_notify. eapply threads_ok_cleared, Hli.
  - eapply reach_steps; [apply Hvi|]. apply rtc_once.
    pose proof (GroupCommit.step_clear (shared_view ld st (opened c) (wal c)) (to_pc <$> threads c) Hflag) as Hs.
    unfold view. cbn [wal opened threads]. rewrite view_notify.
    replace (shared_view 0 0 (S (opened c)) w') with (GroupCommit.clear (shared_view ld st (opened c) (wal c))); [exact Hs|].
    unfold GroupCommit.clear, shared_view. cbn. rewrite Hep, Hd, Ho, Hf', Hfl, Hflag. rewrite bool_decide_false by auto. f_equal. lia.
Qed.

(** A step of a thread outside the log. *)
Lemma inv_threads c i p q :
  inv c -> running c = Running -> threads c !! i = Some p -> wait_of q = None \/ wait_of q = wait_of p -> (forall x, q <> Returned x) ->
  (forall s l, l !! i = Some (to_pc p) -> GroupCommit.step (GroupCommit.mkState s l) (GroupCommit.mkState s (<[i := to_pc q]> l))) ->
  inv (mkConfig (wal c) (flt c) (opened c) (log c) (<[i := q]> (threads c)) Running).
Proof.
  unfold inv at 1. intros Hc Hrun Hi Hq Hr Hs. rewrite Hrun in Hc. destruct Hc as (k & l0 & l1 & n & ld & st & m & Hli & Hvi).
  eapply inv_goto; [exact Hli|exact Hvi| |].
  - destruct Hq as [Hq|Hq]; [by apply thread_ok_outside|]. eapply thread_ok_same; [by eapply Hli|done|done].
  - apply rtc_once, Hs. by rewrite lookup_fmap, Hi.
Qed.

Lemma inv_barrier c i :
  inv c -> running c = Running -> idle (threads c !! i) = true ->
  inv (mkConfig (wal c) (flt c) (opened c) (log c)
    (<[i := Holding (mkWait (mkTicket (epoch_ (wal c)) (write_offset_ (wal c))) (length (log c)))]> (threads c)) Running).
Proof.
  unfold inv at 1. intros Hc Hrun Hi. rewrite Hrun in Hc. destruct Hc as (k & l0 & l1 & n & ld & st & m & Hli & Hvi).
  eapply inv_goto; [exact Hli|exact Hvi| |].
  - intros y [= <-] Ho. cbn [ticket epoch end_ upto]. rewrite (li_epoch _ _ _ _ _ Hli Ho), (li_log _ _ _ _ _ Hli). split; [done|].
    intros _. split; [|done]. exists (length l1). split_and!; [done|by rewrite length_app, length_fmap|].
    rewrite (firstn_all l1). apply (co_off _ _ _ _ _ _ _ _ _ (proj1 (li_winv _ _ _ _ _ Hli))).
  - apply rtc_once.
    pose proof (GroupCommit.step_append i 0 false (shared_view ld st (opened c) (wal c)) _ (idle_view _ _ Hi)) as Hs.
    unfold GroupCommit.set_landed, GroupCommit.set_offset in Hs. cbn in Hs. rewrite orb_false_r, Z.add_0_r in Hs. apply Hs; [done|by left].
Qed.

Lemma inv_act c a c' : inv c -> act limit a c = Some c' -> inv c'.
Proof.
  intros Hc Ha. unfold act in Ha. destruct (running c) eqn:Hrun; [|done..]. destruct a as [i ty ky v|i|i|i|i|i|].
  - destruct (idle _ && fits _ _ _ _ _) eqn:E; [|done]. apply andb_true_iff in E as [E1 E2]. injection Ha as <-. by apply inv_append.
  - destruct (idle (threads c !! i)) eqn:E; [|done]. injection Ha as <-. by apply inv_barrier.
  - destruct (threads c !! i) as [[]|] eqn:Hi; try done. injection Ha as <-.
    eapply inv_threads; [done|done|exact Hi|by right|done|]. intros s l Hl. by eapply GroupCommit.step_wait.
  - destruct (threads c !! i) as [[]|] eqn:Hi; try done. injection Ha as <-.
    eapply inv_threads; [done|done|exact Hi|by left|done|]. intros s l Hl. by eapply GroupCommit.step_leave.
  - destruct (threads c !! i) as [[]|] eqn:Hi; try done. injection Ha as <-.
    eapply inv_threads; [done|done|exact Hi|by right|done|]. intros s l Hl. by eapply GroupCommit.step_wake.
  - destruct (threads c !! i) as [p|] eqn:Hi; [|done]. destruct (section (opened c) p) as [m_|] eqn:Hs; [|done].
    unfold inv in Hc. rewrite Hrun in Hc. destruct Hc as (k & l0 & l1 & n & ld & st & m & Hli & Hvi).
    pose proof (go_section c k l0 l1 n ld st m i Hrun Hli Hvi p m_ Hi Hs) as Hg. unfold goes, wpr in Hg.
    destruct (m_ (wal c) (flt c)) as [[r w] f]. by injection Ha as <-.
  - destruct (sync_in_progress_ (wal c)) eqn:E; [done|]. injection Ha as <-. by apply inv_cleared.
Qed.

Lemma inv_start w f k l0 l1 n :
  winv true b w f k l0 l1 n -> sync_in_progress_ w = false -> failure_ w = None -> epoch_ w = 0 -> durable_end_ w = 0 ->
  inv (start w f (survivors l0 ++ (entry_of <$> l1))).
Proof.
  intros Hw Hf Hfl He Hd. pose proof (co_off _ _ _ _ _ _ _ _ _ (proj1 Hw)) as Ho.
  exists k, l0, l1, n, 0, 0, 0%nat. split; split; cbn [wal flt opened log threads start]; try done; try lia.
  exists (write_offset_ w). split; [lia|]. unfold view, shared_view, GroupCommit.initial. cbn [wal opened threads start].
  rewrite He, Hd, Hf, Hfl, fmap_empty. apply rtc_refl.
Qed.

Lemma inv_reach c c' : rtc (step limit) c c' -> inv c -> inv c'.
Proof. induction 1 as [|c1 c2 c3 [a Ha] _ IH]; [done|]. intros Hc. by eapply IH, inv_act. Qed.

End threads.

End WalThreadsSpec.
