(* ===== verification/WalThreadsLife.v ===== *)
(** * What concurrent callers of the log may rely on

    Runs of [WalThreads] from a log that was opened: a record whose wait returned
    survives whatever the other threads do before and after it; the threads follow
    the protocol of [GroupCommit]; on a kernel that does not fail every wait can
    return. *)

From S2P Require Import Prelude WalFormat Fault Kernel LogSpec WalWriter WalDisk WalWriterSpec WalLog WalLife GroupCommit WalThreads WalThreadsSpec.
Open Scope Z_scope.

Module WalThreadsLife.
Import WAL Kernel WalWriter WalDisk WalWriterSpec WalLog WalLife WalThreads WalThreadsSpec.

Section runs.
Context {R : Type} `{!Uring R} `{!UringSpec R}.
Implicit Types (w : t R) (c : config R) (d : R).

(** What callers may append ([LogSpec.fits]). *)
Abbreviation limit := (write_limit whole_write).

(** [c] is reached from a log opened on the file [d] leaves, which holds [es]. *)
Definition reached (b : bool) d f c : Prop :=
  exists durable w es, open durable d = Ok w /\ d_rep d es /\ d_ready b d /\ (b = true -> Fault.g_armed f = false) /\
    rtc (step (limit b)) (start w f es) c.

Lemma open_fresh durable d w : open durable d = Ok w ->
  sync_in_progress_ w = false /\ failure_ w = None /\ epoch_ w = 0 /\ durable_end_ w = 0.
Proof.
  unfold open. destruct (open_log d) as [[] d1]; [|done]. cbn [negb]. destruct (stat_log d1) as [[size|] d2]; [|done].
  destruct (queue_init d2) as [[] d3]; [|done]. cbn [negb]. by intros [= <-].
Qed.

Lemma reached_inv b d f c : reached b d f c -> inv b c.
Proof.
  intros (durable & w & es & Ho & Hd & Hr & Hf & Hs). eapply inv_reach; [exact Hs|].
  pose proof (wal_open_spec b durable d es Hd Hr) as Hsp. rewrite Ho in Hsp. destruct Hsp as ((k & l0 & l1 & n & Hl) & _).
  destruct (open_fresh _ _ _ Ho) as (H1 & H2 & H3 & H4). pose proof (life_start _ _ _ _ _ _ _ _ _ Hl Hf) as Hw.
  destruct Hl as (_ & _ & Hsplit). pose proof (split_at_app _ _ _ _ _ Hsplit) as Hes. rewrite app_nil_r in Hes. rewrite Hes.
  by eapply inv_start.
Qed.

Lemma reached_steps b d f c c' : reached b d f c -> rtc (step (limit b)) c c' -> reached b d f c'.
Proof. intros (durable & w & es & H1 & H2 & H3 & H4 & H5) H. exists durable, w, es. split_and!; try done. by etrans. Qed.

(** The records stay until the next clear. *)
Lemma settle_log i r w f es notify c : log (settle i r w f es notify c) = es /\ opened (settle i r w f es notify c) = opened c.
Proof. by destruct r. Qed.

Lemma act_log m a c c' : act m a c = Some c' -> (opened c <= opened c')%nat /\ (opened c' = opened c -> log c `prefix_of` log c').
Proof.
  unfold act. destruct (running c); [|done..]. destruct a as [i ty ky v|i|i|i|i|i|].
  - destruct (_ && _); [|done]. intros [= <-]. unfold append. destruct (writeEntry _ _ _ _ _) as [[r w] f].
    cbv zeta. destruct (settle_log i (match r with Ok t => Ok (Holding (mkWait t (length (records (mkEntry ty ky v) (wal c) w (log c))))) | Throw e => Throw e | Crashed => Crashed | Undefined => Undefined end) w f (records (mkEntry ty ky v) (wal c) w (log c)) false c) as [-> ->].
    split; [done|]. intros _. unfold records. destruct (_ =? _); [done|by apply prefix_app_r].
  - destruct (idle _); [|done]. by intros [= <-].
  - destruct (threads c !! i) as [[]|]; try done. by intros [= <-].
  - destruct (threads c !! i) as [[]|]; try done. by intros [= <-].
  - destruct (threads c !! i) as [[]|]; try done. by intros [= <-].
  - destruct (threads c !! i) as [p|]; [|done]. destruct (section _ p) as [m_|]; [|done]. destruct (m_ _ _) as [[r w] f].
    intros [= <-]. by destruct (settle_log i r w f (log c) (wakes p) c) as [-> ->].
  - destruct (sync_in_progress_ _); [done|]. intros [= <-]. unfold clear_. destruct (clear _ _) as [[r w] f].
    destruct r; cbn; split; try done; lia.
Qed.

Lemma steps_log m c c' : rtc (step m) c c' -> (opened c <= opened c')%nat /\ (opened c' = opened c -> log c `prefix_of` log c').
Proof.
  induction 1 as [c|c1 c2 c3 [a Ha] _ [IH1 IH2]]; [done|]. destruct (act_log _ _ _ _ Ha) as [H1 H2].
  split; [lia|]. intros E. etrans; [apply H2; lia|apply IH2; lia].
Qed.

(** What is known once an append has given its ticket. *)
Lemma append_holds b i ty ky v c c' x :
  inv b c -> act (limit b) (Append i ty ky v) c = Some c' -> threads c' !! i = Some (Holding x) ->
  epoch (ticket x) = epoch_ (wal c) /\ log c' = log c ++ [mkEntry ty ky v] /\ upto x = length (log c') /\ opened c' = opened c.
Proof.
  unfold inv, act. destruct (running c); [|done..]. intros (k & l0 & l1 & n & ld & st & m & Hli & _).
  destruct (idle (threads c !! i)) eqn:Hidle; [|done]. destruct (fits (limit b) c ty ky v) eqn:Hfit; [|done]. intros [= <-].
  apply andb_true_iff in Hfit as [Hmax%Z.leb_le Hroom%Z.leb_le]. pose proof (li_winv _ _ _ _ _ _ Hli) as Hw.
  pose proof (writeEntry_spec true b _ _ _ _ _ _ ty ky v Hw Hmax Hroom) as Ha. unfold wpr in Ha. unfold append.
  destruct (writeEntry ty ky v (wal c) (flt c)) as [[r w'] f']. cbn [fst snd] in Ha. destruct Ha as (_ & _ & _ & _ & Hr).
  destruct r as [t|e| |]; cbn [settle threads log opened]; [|by rewrite lookup_insert_eq|by destruct (threads c !! i) as [[]|]|done].
  rewrite lookup_insert_eq. intros [= <-]. destruct Hr as (-> & k' & l1' & _ & Hes & Hw').
  destruct (records_at b _ _ _ _ _ _ _ _ _ _ _ _ _ Hw Hw' (li_log _ _ _ _ _ _ Hli) (or_intror Hes)) as (Hlog & _).
  cbv zeta. cbn [ticket epoch upto]. split_and!; [done| |done|done]. by rewrite Hlog, (li_log _ _ _ _ _ _ Hli), Hes, app_assoc.
Qed.

Lemma inv_log b c : inv b c -> running c <> ClearThrew -> exists k l0 l1 n, log_inv b c k l0 l1 n.
Proof. unfold inv. destruct (running c); [|done..]. intros (k & l0 & l1 & n & ld & st & m & Hl & _) _. by exists k, l0, l1, n. Qed.

(** What a death leaves of the log. *)
Lemma log_dies b c k l0 l1 n d :
  log_inv b c k l0 l1 n -> w_dies (wal c) d ->
  exists es, d_rep d es /\ take (length (survivors l0) + n) (log c) `prefix_of` es /\ es `sublist_of` log c.
Proof.
  intros [Hw Hlog _ _] Hd. pose proof (winv_count_le _ _ _ _ _ _ _ Hw) as Hn.
  destruct (dies_spec _ _ _ d (life_left b _ _ k l0 l1 n _ _ Hw (conj eq_refl eq_refl)) Hd) as (_ & p' & Hp & Hrep).
  set (es := survivors l0 ++ take n (entry_of <$> l1)) in *.
  assert (log c = es ++ drop n (entry_of <$> l1)) as -> by (unfold es; by rewrite <- app_assoc, take_drop).
  assert (length es = (length (survivors l0) + n)%nat) as <- by (unfold es; by rewrite length_app, length_take, length_fmap, Nat.min_l).
  exists (es ++ p'). rewrite take_app_length. split_and!; [done|by apply prefix_app_r|by apply sublist_app].
Qed.

(** C11: a durable append survives, in any interleaving.  A thread's append gave
    a ticket; then any number of threads appended, waited, led the group commit
    or failed, on a kernel that completes, cancels or fails writes as it likes;
    and some [waitDurable] with that ticket returned.  If the log has not been
    cleared since, a death at any later moment leaves a file that holds every
    record appended before, then this one, then some of the later ones in their
    order; and the next process recovers exactly these, on a working system and
    within the reader's limit.  Assumed ([d_ready], [limit]): [io_uring_submit]
    takes every entry; every record is at most [whole_write] bytes long, the size
    up to which the kernel writes whole or not at all; no clear has thrown; fewer
    than 2^64 clears. *)
Theorem returned_wait_survives b d f i ty ky v c0 c1 c j x d' :
  reached b d f c0 -> act (limit b) (Append i ty ky v) c0 = Some c1 -> threads c1 !! i = Some (Holding x) ->
  rtc (step (limit b)) c1 c -> threads c !! j = Some (Returned x) -> opened c = opened c1 -> Z.of_nat (opened c) < 2 ^ 64 ->
  running c <> ClearThrew -> w_dies (wal c) d' ->
  exists es, d_rep d' es /\ (log c0 ++ [mkEntry ty ky v]) `prefix_of` es /\ es `sublist_of` log c /\
    (d_ready true d' -> zlen (default [] (read_log d')) <= MAX_RECOVERY_BYTES ->
     forall durable, exists w, open durable d' = Ok w /\ recover w = Ok es).
Proof.
  intros Hr Ha Hi Hs Hj Ho Hlt Hrun Hd. pose proof (reached_inv _ _ _ _ Hr) as H0.
  destruct (append_holds _ _ _ _ _ _ _ _ H0 Ha Hi) as (Hep & Hlog & Hup & Hop).
  assert (epoch_ (wal c0) = Z.of_nat (opened c0)) as He0.
  { destruct (inv_log _ _ H0) as (k & l0 & l1 & n & Hl); [by intros E; unfold act in Ha; rewrite E in Ha|]. eapply li_epoch; [done|lia]. }
  assert (reached b d f c) as Hr' by (eapply reached_steps; [exact Hr|]; eapply rtc_l; [by eexists|done]).
  destruct (inv_log _ _ (reached_inv _ _ _ _ Hr') Hrun) as (k & l0 & l1 & n & Hl).
  destruct (log_dies _ _ _ _ _ _ _ Hl Hd) as (es & Hes & Hpre & Hsub).
  destruct (li_threads _ _ _ _ _ _ Hl j _ Hj x eq_refl Hlt) as [_ Hx].
  destruct Hx as [_ Hx]; [by rewrite Hep, He0, Ho, Hop|]. specialize (Hx eq_refl).
  destruct (steps_log _ _ _ Hs) as [_ Hgrow]. destruct (Hgrow Ho) as [more Hmore].
  exists es. split_and!; [done| |done|].
  - rewrite <- Hlog. etrans; [|exact Hpre]. rewrite Hmore, take_app_ge by lia. by apply prefix_app_r.
  - intros Hready Hsz durable. pose proof (wal_open_spec true durable d' es Hes Hready) as Hsp.
    destruct (open durable d') as [w|e| |]; [|done..]. exists w. split; [done|]. by apply Hsp.
Qed.

(** C22: the threads follow the protocol: every configuration they reach over the
    writer itself is, seen as [GroupCommit] sees it, one that the protocol
    reaches; its properties hold of the writer. *)
Theorem threads_follow_protocol b d f c :
  reached b d f c -> running c = Running -> exists landed stable, GroupCommit.reachable (view landed stable c).
Proof.
  intros Hr Hrun. pose proof (reached_inv _ _ _ _ Hr) as Hc. unfold inv in Hc. rewrite Hrun in Hc.
  destruct Hc as (k & l0 & l1 & n & ld & st & m & _ & Hv). exists ld, st. apply Hv.
Qed.

Definition leads (p : pc) : bool := GroupCommit.leading (to_pc p).

(** C18: there is one leader at a time; the descriptor it passes to [fdatasync],
    for which it holds no lock, is open and the log's own; and no thread runs
    into undefined behaviour, whatever the kernel does, as long as it takes
    submissions and no [clear] has thrown. *)
Theorem one_leader_at_work b d f c :
  reached b d f c -> running c = Running ->
  (forall i j p q, threads c !! i = Some p -> threads c !! j = Some q -> leads p = true -> leads q = true -> i = j) /\
  (forall i x ep target fd, threads c !! i = Some (InSync x ep target fd) -> fd = Some (opened c) /\ fd_ (wal c) = true /\ ep = epoch_ (wal c)) /\
  (forall i, threads c !! i <> Some Wild) /\ (forall a c', act (limit b) a c = Some c' -> running c' <> Undef).
Proof.
  intros Hr Hrun. pose proof (reached_inv _ _ _ _ Hr) as Hc. pose proof Hc as Hc'. unfold inv in Hc. rewrite Hrun in Hc.
  destruct Hc as (k & l0 & l1 & n & ld & st & m & Hl & Hv). pose proof (GroupCommit.inv_reachable _ (vi_reach _ _ _ _ _ _ _ Hv)) as Hg.
  assert (forall i p, threads c !! i = Some p -> GroupCommit.threads (view ld st c) !! i = Some (to_pc p)) as Hlk.
  { intros i p Hi. cbn. by rewrite lookup_fmap, Hi. }
  split_and!.
  - intros i j p q Hi Hj Hp Hq. eapply (GroupCommit.in_one _ Hg); [by apply Hlk|by apply Hlk|done|done].
  - intros i x ep target fd Hi. pose proof (GroupCommit.in_knows _ Hg i _ (Hlk _ _ Hi)) as Hk.
    destruct fd as [fd|]; [|done]. destruct Hk as (-> & -> & _). split_and!; [done| |done]. eapply (co_fd _ _ _ _ _ _ _ _ _ (proj1 (li_winv _ _ _ _ _ _ Hl))).
  - intros i Hi. apply (GroupCommit.in_knows _ Hg i _ (Hlk _ _ Hi)).
  - intros a c' Ha E. pose proof (inv_act _ _ _ _ Hc' Ha) as Hi. unfold inv in Hi. by rewrite E in Hi.
Qed.


(** ** Where nothing fails, a waiting thread can return *)

(** Where the leader goes when no call fails. *)
Definition next_pc (c : config R) (p : pc) : pc :=
  match p with
  | Leading x ep => BeforeSync x ep (write_offset_ (wal c)) (Some (opened c))
  | BeforeSync x ep target fd => InSync x ep target fd
  | InSync x ep target _ => AfterSync x ep target
  | AfterSync x ep target => Relock x ep target None
  | Relock x _ _ None => AtTest x
  | Relock x _ _ (Some what) => Threw x (RuntimeError what)
  | Rethrow x e => Threw x e
  | p => p
  end.

Definition target_of (c : config R) (p : pc) : option Z :=
  match p with
  | Leading _ _ => Some (write_offset_ (wal c))
  | BeforeSync _ _ target _ | InSync _ _ target _ | AfterSync _ _ target | Relock _ _ target None => Some target
  | _ => None
  end.

Definition rank (p : pc) : nat :=
  match p with Leading _ _ => 5 | BeforeSync _ _ _ _ => 4 | InSync _ _ _ _ => 3 | AfterSync _ _ _ => 2 | _ => 1 end.

Lemma inv_running b c : inv b c -> running c = Running ->
  exists k l0 l1 n ld st m, log_inv b c k l0 l1 n /\ view_inv c l0 l1 n ld st m.
Proof. unfold inv. intros Hc Hrun. by rewrite Hrun in Hc. Qed.

Lemma registry_disarmed p f : Fault.g_armed f = false -> Fault.hit p f = (Ok tt, f).
Proof. unfold Fault.hit. by intros ->. Qed.

Lemma shouldFail_disarmed p f : Fault.g_armed f = false -> Fault.shouldFail p f = (false, f).
Proof. unfold Fault.shouldFail. by intros ->. Qed.

(** One section of the leader. *)
Lemma leader_goes c j p :
  inv true c -> running c = Running -> threads c !! j = Some p -> leads p = true ->
  exists c', act (limit true) (Go j) c = Some c' /\ running c' = Running /\ opened c' = opened c /\ epoch_ (wal c') = epoch_ (wal c) /\
    threads c' = (let l := <[j := next_pc c p]> (threads c) in if wakes p then notify_all l else l) /\
    (wakes p = true -> sync_in_progress_ (wal c') = false) /\
    (forall target, target_of c p = Some target -> if wakes p then target <= durable_end_ (wal c') else target_of c' (next_pc c p) = Some target).
Proof.
  intros Hc Hrun Hj Hp. destruct (inv_running _ _ Hc Hrun) as (k & l0 & l1 & n & ld & st & m & Hl & Hv).
  pose proof (view_knows c l0 l1 n ld st m j Hv p Hj) as Hk. pose proof (li_winv _ _ _ _ _ _ Hl) as Hw.
  destruct (co_fine _ _ _ _ _ _ _ _ _ (proj1 Hw) eq_refl) as (Hrel & _ & Hf).
  unfold act. rewrite Hrun, Hj. destruct p as [| | | |x ep|x ep tg fd|x ep tg fd|x ep tg|x ep tg [what|]|x e| | |]; try done; cbn [section].
  - pose proof (drain_spec _ _ _ _ _ _ _ _ Hw) as Hd. unfold wpr in Hd. unfold caught, lead, reads_, mbind, Wr_bind.
    destruct (drain (wal c) (flt c)) as [[r w1] f1]. cbn [fst snd] in Hd. destruct Hd as (-> & k1 & l1' & Hs & _ & _ & Hw1 & _).
    destruct (co_fine _ _ _ _ _ _ _ _ _ (proj1 Hw1) eq_refl) as (_ & Hfl & _).
    rewrite (co_fd _ _ _ _ _ _ _ _ _ (proj1 Hw1)), Hfl. rewrite bool_decide_false by auto. eexists. split; [done|].
    cbn. rewrite (sl_offset _ _ Hs), (sl_epoch _ _ Hs), Hrun. split_and!; try done.
  - unfold caught, before_sync, hit, shouldFail, update, mbind, Wr_bind. rewrite registry_disarmed by done. cbv beta iota.
    rewrite shouldFail_disarmed by done. eexists. split; [done|]. by cbn.
  - destruct fd as [fd|]; [|done].
    destruct Hk as (_ & Hfd & _). cbn in Hfd. subst fd.
    unfold caught, call_fdatasync, sys, mbind, Wr_bind. rewrite Nat.eqb_refl.
    pose proof (fdatasync_spec _ _ (co_rep _ _ _ _ _ _ _ _ _ (proj1 Hw))) as Hfd.
    destruct (Kernel.fdatasync (kernel (wal c))) as [ok r']. destruct Hfd as (k' & _ & Hok & _). rewrite (Hok Hrel).
    eexists. split; [done|]. by cbn.
  - unfold caught, after_sync, hit, mbind, Wr_bind. rewrite registry_disarmed by done. eexists. split; [done|]. by cbn.
  - eexists. split; [done|]. by cbn.
  - destruct Hk as [Hep _]. cbn in Hep. unfold relock, sync_flag, update, mbind, Wr_bind. cbn [set_sync epoch_ durable_end_].
    rewrite bool_decide_true by done. rewrite <- Hep, Z.eqb_refl. eexists. split; [done|]. cbn. split_and!; try done. intros ? [= <-]. lia.
  - eexists. split; [done|]. by cbn.
Qed.

Lemma next_leads c p : leads p = true -> wakes p = false -> leads (next_pc c p) = true.
Proof. by destruct p as [| | | | |x ep tg [fd|]|x ep tg [fd|]| | | | | |]. Qed.

Lemma notify_insert (l : gmap nat pc) j p q : notify_all (<[j := q]> (<[j := p]> l)) = notify_all (<[j := q]> l).
Proof. by rewrite insert_insert_eq. Qed.

(** A section of some thread. *)
Definition goes c c' : Prop := exists j, act (limit true) (Go j) c = Some c'.

Lemma goes_steps c c' : rtc goes c c' -> rtc (step (limit true)) c c'.
Proof. apply rtc_subrel. intros c1 c2 [j Hj]. by exists (Go j). Qed.

(** The leader leaves within five sections, having made durable what it found. *)
Lemma leader_done n c j p :
  rank p = n -> inv true c -> running c = Running -> threads c !! j = Some p -> leads p = true ->
  exists c' q, rtc goes c c' /\ running c' = Running /\ opened c' = opened c /\ epoch_ (wal c') = epoch_ (wal c) /\
    sync_in_progress_ (wal c') = false /\ threads c' = notify_all (<[j := q]> (threads c)) /\
    (forall target, target_of c p = Some target -> wait_of q = wait_of p /\ (exists x, q = AtTest x) /\ target <= durable_end_ (wal c')).
Proof.
  revert c p. induction n as [|n IH]; intros c p Hn Hc Hrun Hj Hp; [by destruct p|].
  destruct (leader_goes c j p Hc Hrun Hj Hp) as (c1 & Ha & Hrun1 & Ho1 & He1 & Ht1 & Hfl & Htgt).
  destruct (wakes p) eqn:Hw.
  - exists c1, (next_pc c p). split_and!; [apply rtc_once; by eexists|done|done|done|by apply Hfl|done|].
    intros tg Htg. specialize (Htgt tg Htg). destruct p as [| | | | | | | |x ep t_ [what|]|x e| | |]; try done. split_and!; [done|by eexists|done].
  - cbv zeta in Ht1. assert (inv true c1) as Hc1 by (by eapply inv_act).
    assert (threads c1 !! j = Some (next_pc c p)) as Hj1 by (by rewrite Ht1, lookup_insert_eq).
    pose proof (next_leads c p Hp Hw) as Hp1.
    destruct (IH c1 (next_pc c p)) as (c2 & q & Hs & Hrun2 & Ho2 & He2 & Hf2 & Ht2 & Hq); try done.
    { by destruct p; try done; cbn in Hn |- *; lia. }
    exists c2, q. split_and!; [eapply rtc_l; [by eexists|done]|done|congruence|congruence|done| |].
    + by rewrite Ht2, Ht1, notify_insert.
    + intros tg Htg. specialize (Htgt tg Htg). cbn in Htgt. destruct (Hq tg Htgt) as (H1 & H2 & H3). split_and!; [|done|done].
      rewrite H1. by destruct p.
Qed.

Lemma free_now c i x :
  inv true c -> running c = Running -> threads c !! i = Some (AtTest x) \/ threads c !! i = Some (Asleep x) ->
  exists c', rtc (step (limit true)) c c' /\ running c' = Running /\ sync_in_progress_ (wal c') = false /\ opened c' = opened c /\ threads c' !! i = Some (AtTest x).
Proof.
  intros Hc Hrun Hi. destruct (inv_running _ _ Hc Hrun) as (k & l0 & l1 & n & ld & st & m & Hl & Hv).
  pose proof (GroupCommit.inv_reachable _ (vi_reach _ _ _ _ _ _ _ Hv)) as Hg. destruct (sync_in_progress_ (wal c)) eqn:Hflag.
  - destruct (GroupCommit.in_busy _ Hg Hflag) as (j & p' & Hj & Hp). cbn [view GroupCommit.threads] in Hj.
    rewrite lookup_fmap, fmap_Some in Hj. destruct Hj as (p & Hj & ->).
    destruct (leader_done _ c j p eq_refl Hc Hrun Hj Hp) as (c' & q & Hs & Hr & Ho & _ & Hf & Ht & _).
    exists c'. split_and!; [by apply goes_steps|done..|]. rewrite Ht. unfold notify_all. rewrite lookup_fmap, lookup_insert_ne.
    + by destruct Hi as [-> | ->].
    + intros ->. destruct Hi as [Hi|Hi]; rewrite Hj in Hi; by injection Hi as ->.
  - exists c. split_and!; [apply rtc_refl|done..|]. destruct Hi as [Hi|Hi]; [done|].
    assert (GroupCommit.sync_in_progress_ (GroupCommit.sh (view ld st c)) = true) as E; [|cbn in E; congruence].
    eapply (GroupCommit.in_sleep _ Hg i); [cbn; by rewrite lookup_fmap, Hi|done].
Qed.

Lemma returns_at_once c i x :
  running c = Running -> threads c !! i = Some (AtTest x) ->
  epoch (ticket x) <> epoch_ (wal c) \/ end_ (ticket x) <= durable_end_ (wal c) ->
  exists c', step (limit true) c c' /\ running c' = Running /\ threads c' !! i = Some (Returned x).
Proof.
  intros Hrun Hi Hc. assert (test x (wal c) (flt c) = (Ok (Returned x), wal c, flt c)) as Ht.
  { unfold test, reads_, mbind, Wr_bind. unfold id. destruct (Z.eqb_spec (epoch (ticket x)) (epoch_ (wal c))); [|done].
    cbn [negb]. by rewrite (proj2 (Z.leb_le _ _)) by (destruct Hc; done). }
  eexists. split; [exists (Go i); unfold act; rewrite Hrun, Hi; cbn [section]; by rewrite Ht|].
  cbn. rewrite Hrun. split; [done|]. by rewrite lookup_insert_eq.
Qed.

(** C19: no wakeup is lost and no one waits for ever: from every configuration
    that is reached on a kernel whose calls do not fail, with no fault point
    armed, a thread that waits, asleep or not, can return from [waitDurable]:
    the leader's sections, then its own, lead there.  (Fewer than 2^64 clears.) *)
Theorem wait_can_return d f c i x :
  reached true d f c -> running c = Running -> Z.of_nat (opened c) < 2 ^ 64 ->
  threads c !! i = Some (AtTest x) \/ threads c !! i = Some (Asleep x) ->
  exists c', rtc (step (limit true)) c c' /\ running c' = Running /\ threads c' !! i = Some (Returned x).
Proof.
  intros Hr Hrun Hlt Hi. pose proof (reached_inv _ _ _ _ Hr) as Hc.
  destruct (free_now c i x Hc Hrun Hi) as (c1 & Hs1 & Hrun1 & Hflag & Ho1 & Hi1). pose proof (inv_reach _ _ _ Hs1 Hc) as Hc1.
  assert (forall c2, rtc (step (limit true)) c c2 -> running c2 = Running -> threads c2 !! i = Some (AtTest x) ->
    epoch (ticket x) <> epoch_ (wal c2) \/ end_ (ticket x) <= durable_end_ (wal c2) ->
    exists c', rtc (step (limit true)) c c' /\ running c' = Running /\ threads c' !! i = Some (Returned x)) as Hend.
  { intros c2 Hs2 Hrun2 Hi2 Hcase. destruct (returns_at_once c2 i x Hrun2 Hi2 Hcase) as (c' & Hs' & Hr' & Hi').
    exists c'. split_and!; [|done|done]. etrans; [exact Hs2|by apply rtc_once]. }
  destruct (Z.eqb_spec (epoch (ticket x)) (epoch_ (wal c1))) as [He|He]; [|by apply (Hend c1); auto].
  destruct (Z.leb_spec (end_ (ticket x)) (durable_end_ (wal c1))) as [Hd|Hd]; [by apply (Hend c1); auto|].
  destruct (inv_running _ _ Hc1 Hrun1) as (k & l0 & l1 & n & ld & st & m & Hl & _).
  assert (end_ (ticket x) <= write_offset_ (wal c1)) as Hle.
  { destruct (li_threads _ _ _ _ _ _ Hl i _ Hi1 x eq_refl) as [_ Hx]; [by rewrite Ho1|].
    destruct Hx as [(j & Hj & _ & ->) _]; [rewrite He; apply (li_epoch _ _ _ _ _ _ Hl); by rewrite Ho1|].
    rewrite (co_off _ _ _ _ _ _ _ _ _ (proj1 (li_winv _ _ _ _ _ _ Hl))). pose proof (log_take_mono l0 l1 j (length l1) Hj) as H1.
    by rewrite (firstn_all l1) in H1. }
  set (c2 := mkConfig (set_sync true (durable_end_ (wal c1)) (wal c1)) (flt c1) (opened c1) (log c1)
    (<[i := Leading x (epoch_ (wal c1))]> (threads c1)) Running).
  assert (act (limit true) (Go i) c1 = Some c2) as Ha.
  { unfold act. rewrite Hrun1, Hi1. cbn [section]. unfold test, reads_, mbind, Wr_bind. unfold id.
    rewrite He, Z.eqb_refl. cbn [negb]. rewrite (proj2 (Z.leb_gt _ _) Hd), Hflag. cbn. by rewrite Hrun1. }
  destruct (leader_done _ c2 i (Leading x (epoch_ (wal c1))) eq_refl) as (c3 & q & Hs3 & Hrun3 & _ & _ & _ & Ht3 & Hq);
    [by eapply inv_act|done|apply lookup_insert_eq|done|].
  destruct (Hq _ eq_refl) as (Hqx & [y ->] & Hdur). injection Hqx as ->. cbn in Hdur.
  apply (Hend c3); [|done| |right; lia].
  - etrans; [exact Hs1|]. eapply rtc_l; [by exists (Go i)|by apply goes_steps].
  - rewrite Ht3. unfold notify_all. by rewrite lookup_fmap, lookup_insert_eq.
Qed.

End runs.

(** ** Witnesses *)

Abbreviation small := (write_limit (whole_write (R := scripted)) false).
Abbreviation large := (write_limit (whole_write (R := scripted)) true).

(** Three writers on a kernel that cancels a write.  The second leads while the
    first sleeps and the third appends; both return after one fdatasync. *)
Definition disk0 : scripted := cancelling.
Definition log0 : t scripted := match open true disk0 with Ok w => w | _ => fresh_log disk0 end.
Definition after (l : list action) : config scripted := default (start log0 Fault.init []) (acts small l (start log0 Fault.init [])).
Definition first : list action := [Append 1 PUT (bs "a") (bs "1")].
Definition second : list action := first ++ [Append 2 PUT (bs "b") (bs "2")].
Definition asleep : list action := second ++ [AwaitTicket 2; AwaitTicket 1; Go 2; Go 1; Go 2; Append 3 DEL (bs "a") []; Go 2].
Definition finished : list action := asleep ++ [Go 2; Go 2; Go 2; Go 2; Go 1].
Definition x2 : Wait := mkWait (mkTicket 0 1024) 2.

Example midway : threads (after asleep) !! 2%nat = Some (InSync x2 0 1024 (Some 0%nat)).
Proof. vm_compute. reflexivity. Qed.

Example one_sync : sync_calls_ (wal (after finished)) = 1 /\ durable_end_ (wal (after finished)) = 1024 /\ threads (after finished) !! 2%nat = Some (Returned x2).
Proof. vm_compute. auto. Qed.

Lemma disk0_ready : d_ready false disk0.
Proof. exists (scripted_state true false disk0). vm_compute. repeat split; try congruence; constructor. Qed.

Lemma after_reached l : is_Some (acts small l (start log0 Fault.init [])) -> reached false disk0 Fault.init (after l).
Proof.
  intros [c Hc]. exists true, log0, []. split_and!; [done| |apply disk0_ready|done|unfold after; rewrite Hc; by eapply acts_reach].
  exists []. split; [apply image_nil|done].
Qed.

Lemma returned_wait_survives_witness :
  exists es, d_rep (kernel (wal (after finished))) es /\ ([mkEntry PUT (bs "a") (bs "1")] ++ [mkEntry PUT (bs "b") (bs "2")]) `prefix_of` es /\
    es `sublist_of` log (after finished) /\
    (d_ready true (kernel (wal (after finished))) -> zlen (default [] (read_log (kernel (wal (after finished))))) <= MAX_RECOVERY_BYTES ->
     forall durable, exists w, open durable (kernel (wal (after finished))) = Ok w /\ recover w = Ok es).
Proof.
  apply (returned_wait_survives false disk0 Fault.init 2 PUT (bs "b") (bs "2") (after first) (after second) (after finished) 2 x2).
  - apply after_reached. vm_compute. by eexists.
  - vm_compute. reflexivity.
  - vm_compute. reflexivity.
  - apply (acts_reach small (drop 2 finished)). vm_compute. reflexivity.
  - vm_compute. reflexivity.
  - vm_compute. reflexivity.
  - vm_compute. reflexivity.
  - vm_compute. discriminate.
  - apply dies_now.
Defined.

Lemma threads_follow_protocol_witness : exists landed stable, GroupCommit.reachable (view landed stable (after asleep)).
Proof. apply (threads_follow_protocol false disk0 Fault.init); [apply after_reached; vm_compute; by eexists|vm_compute; reflexivity]. Defined.

Lemma one_leader_at_work_witness :
  let c := after asleep in
  (forall i j p q, threads c !! i = Some p -> threads c !! j = Some q -> leads p = true -> leads q = true -> i = j) /\
  (forall i x ep target fd, threads c !! i = Some (InSync x ep target fd) -> fd = Some (opened c) /\ fd_ (wal c) = true /\ ep = epoch_ (wal c)) /\
  (forall i, threads c !! i <> Some Wild) /\ (forall a c', act small a c = Some c' -> running c' <> Undef).
Proof. apply (one_leader_at_work false disk0 Fault.init); [apply after_reached; vm_compute; by eexists|vm_compute; reflexivity]. Defined.

Lemma append_winv w f k ty ky v r w' f' :
  winv (R := scripted) true false w f k [] [] 0 -> record_bytes (mkEntry ty ky v) <= small -> write_offset_ w + record_bytes (mkEntry ty ky v) <= 2 ^ 63 ->
  writeEntry ty ky v w f = (r, w', f') -> exists k' l1, winv true false w' f' k' [] l1 0.
Proof.
  intros Hw H1 H2 Ha. pose proof (writeEntry_spec true false w f k [] [] 0 ty ky v Hw H1 H2) as H. unfold wpr in H. rewrite Ha in H.
  destruct H as (_ & _ & _ & _ & H). cbn [fst snd] in H.
  destruct r; [destruct H as (_ & k' & l1 & _ & _ & ?)|destruct H as [(k' & l1 & _ & _ & ?)|(k' & l1 & _ & _ & ?)]..|done]; by exists k', l1.
Qed.

Lemma put1_winv : exists k l1, winv true false put1.1.2 put1.2 k [] l1 0.
Proof.
  apply (append_winv (fresh_log cancelling) Fault.init (scripted_state true false cancelling) PUT (bs "k") (bs "v") put1.1.1).
  - apply new_winv; [done|discriminate].
  - vm_compute. discriminate.
  - vm_compute. discriminate.
  - unfold put1. by destruct (writeEntry _ _ _ _ _) as [[r w] f].
Qed.

Lemma alone_waits_witness :
  alone 8 0 (AtTest (mkWait ticket1 1)) put1.1.2 put1.2 = waitDurable ticket1 put1.1.2 put1.2.
Proof.
  destruct put1_winv as (k & l1 & Hw). apply (alone_waits false 0 (mkWait ticket1 1) put1.1.2 put1.2 k [] l1 0 Hw).
  - vm_compute. reflexivity.
  - intros _. vm_compute. discriminate.
Defined.

(** The first waits, asleep, for the second, which is about to call fdatasync. *)
Definition calm (l : list action) : config scripted :=
  default (start (fresh_log (quiet_kernel [])) Fault.init []) (acts large l (start (fresh_log (quiet_kernel [])) Fault.init [])).

Lemma wait_can_return_witness :
  exists c', rtc (step large) (calm asleep) c' /\ running c' = Running /\ threads c' !! 1%nat = Some (Returned (mkWait (mkTicket 0 512) 1)).
Proof.
  apply (wait_can_return (quiet_kernel []) Fault.init (calm asleep) 1 (mkWait (mkTicket 0 512) 1)).
  - exists true, (fresh_log (quiet_kernel [])), []. split_and!; [done| | |done|].
    + exists []. split; [apply image_nil|done].
    + exists (scripted_state true true (quiet_kernel [])). vm_compute. repeat split; try congruence; constructor.
    + apply (acts_reach large asleep). vm_compute. reflexivity.
  - vm_compute. reflexivity.
  - vm_compute. reflexivity.
  - right. vm_compute. reflexivity.
Defined.

End WalThreadsLife.
