(* ===== verification/Engine.v ===== *)
(** * The engine

    Models [src/db/lsm_engine.h] and [src/db/lsm_engine.cpp]: the constructor
    with its recovery, [put], [del], [get], [scan], [flush] and the destructor,
    over the interfaces of the memtable and of the log and the models of tables
    and compaction.  An operation runs under the engine's lock; the wait for
    durability comes after it. *)

From S2P Require Import Prelude WalFormat Bloom BlockCache Fault Memtable World Names TableFormat SSTable Layers Compaction Scan LogSpec.
Open Scope Z_scope.

Module Engine.
Import TableFormat Layers.

Section engine.
Context {Mt : Type} `{!MemtableOps Mt} {W D : Type} `{!LogOps W D}.

(** ** State *)

Record engine := mkEngine {
  data_dir_ : str;
  memtable_max_bytes_ : Z;
  wal_ : W;
  memtable_ : Mt;
  sstables_ : list t;
  sst_counter_ : Z;
  rng : Rng                     (* of the memtable's skip list *)
}.

Definition set_wal (x : W) (e : engine) : engine :=
  mkEngine (data_dir_ e) (memtable_max_bytes_ e) x (memtable_ e) (sstables_ e) (sst_counter_ e) (rng e).
Definition set_memtable (m : Mt) (g : Rng) (e : engine) : engine :=
  mkEngine (data_dir_ e) (memtable_max_bytes_ e) (wal_ e) m (sstables_ e) (sst_counter_ e) g.
Definition set_sstables (l : list t) (e : engine) : engine :=
  mkEngine (data_dir_ e) (memtable_max_bytes_ e) (wal_ e) (memtable_ e) l (sst_counter_ e) (rng e).
Definition set_counter (c : Z) (e : engine) : engine :=
  mkEngine (data_dir_ e) (memtable_max_bytes_ e) (wal_ e) (memtable_ e) (sstables_ e) c (rng e).

(** Operations act on the engine and the world. *)
Definition E (A : Type) : Type := engine -> world -> result A * engine * world.

#[export] Instance E_ret : MRet E := fun A a e w => (Ok a, e, w).
#[export] Instance E_bind : MBind E := fun A B f m e w =>
  match m e w with
  | (Ok a, e, w) => f a e w
  | (Throw x, e, w) => (Throw x, e, w)
  | (Crashed, e, w) => (Crashed, e, w)
  | (Undefined, e, w) => (Undefined, e, w)
  end.

Definition lift {A} (m : M A) : E A := fun e w => let '(r, w) := m w in (r, e, w).
Definition asks {A} (f : engine -> A) : E A := fun e w => (Ok (f e), e, w).
Definition update (f : engine -> engine) : E unit := fun e w => (Ok tt, f e, w).
Definition log_op {A} (f : W -> Fault.state -> result A * W * Fault.state) : E A := fun e w =>
  let '(r, x, st) := f (wal_ e) (faults w) in (r, set_wal x e, set_faults st w).
Definition mem_op (f : Rng -> Mt -> option (Rng * Mt)) : E unit := fun e w =>
  match f (rng e) (memtable_ e) with
  | Some (g, m) => (Ok tt, set_memtable m g e, w)
  | None => (Undefined, e, w)
  end.

(** ** Flushing *)

(** The memtable's contents as a new table of level 0. *)
Definition publish_memtable : E unit :=
  m ← asks memtable_;
  entries ← lift (of_option (mt_entries m));
  lift (hit "flush.before_sst") ;;
  counter ← asks sst_counter_;
  dir ← asks data_dir_;
  let path := Names.sstPath dir 0 counter in
  next_counter ← lift (Compaction.int_succ counter);
  update (set_counter next_counter) ;;
  lift (SSTable.write path entries) ;;
  o ← lift (SSTable.open path);
  tables ← asks sstables_;
  update (set_sstables (tables ++ [o])).

Definition reset_log : E unit :=
  lift (hit "flush.after_sst") ;;
  log_op log_clear ;;
  max ← asks memtable_max_bytes_;
  g ← asks rng;
  update (set_memtable (mt_create max) g) ;;
  lift (hit "flush.after_wal_clear").

Definition compact_tables : E unit :=
  dir ← asks data_dir_;
  tables ← asks sstables_;
  counter ← asks sst_counter_;
  '(tables, counter) ← lift (Compaction.run dir tables counter);
  update (set_sstables tables) ;;
  update (set_counter counter).

Definition flushMemtable : E unit :=
  m ← asks memtable_;
  if mt_size m =? 0 then mret tt else
  publish_memtable ;; reset_log ;; compact_tables.

Definition flush : E unit :=
  m ← asks memtable_;
  if mt_size m =? 0 then mret tt else flushMemtable.

(** ** Writing *)

(** The part of [put] and [del] under the lock. *)
Definition write_locked (ty : WAL.Type_) (k v : str) (mem : Rng -> Mt -> option (Rng * Mt)) : E log_ticket :=
  ticket ← log_op (log_append ty k v);
  mem_op mem ;;
  m ← asks memtable_;
  (if mt_isFull m then flushMemtable else mret tt) ;;
  mret ticket.

Definition await (ticket : log_ticket) : E unit :=
  d ← asks (fun e => log_durable (wal_ e));
  if (d : bool) then log_op (log_waitDurable ticket) else mret tt.

Definition put (k v : str) : E unit := ticket ← write_locked WAL.PUT k v (mt_put k v); await ticket.
Definition del (k : str) : E unit := ticket ← write_locked WAL.DEL k [] (mt_del k); await ticket.

Definition sync : E unit := log_op log_sync.

(** ** Reading *)

Fixpoint get_tables (newest_first : list t) (k : str) : M (option str) :=
  match newest_first with
  | [] => mret None
  | o :: l =>
      r ← SSTable.get o k;
      match r with Some v => mret v | None => get_tables l k end
  end.

Definition get (k : str) : E (option str) :=
  m ← asks memtable_;
  r ← lift (of_option (mt_get k m));
  match r with
  | Some v => mret v
  | None => tables ← asks sstables_; lift (get_tables (reverse tables) k)
  end.

(** The tables a scan merges: those that may hold a key in range. *)
Definition may_overlap (start : str) (end_ : option str) (o : t) : bool :=
  negb (bool_decide (index o = [])) && negb (largest_key o <?s start)
  && match end_ with Some b => smallest_key o <?s b | None => true end.

Definition open_source (start : str) (o : t) : M Scan.ScanSource :=
  it ← SSTable.createIteratorFrom o start;
  of_option (Scan.sst_next it).

Fixpoint open_sources (start : str) (tables : list t) : M (list Scan.ScanSource) :=
  match tables with
  | [] => mret []
  | o :: tables => s ← open_source start o; l ← open_sources start tables; mret (s :: l)
  end.

Definition scan (start : str) (end_ : option str) (limit : Z) : E (list (str * str)) :=
  if (limit =? 0) || match end_ with Some b => negb (start <?s b) | None => false end then mret [] else
  m ← asks memtable_;
  mem ← lift (of_option (mt_seek start m));
  tables ← asks sstables_;
  l ← lift (open_sources start (List.filter (may_overlap start end_) (reverse tables)));
  lift (of_option (Scan.merge end_ limit (Scan.MemtableSource mem :: l))).

(** [memtableSize()] and [sstableCount()]. *)
Definition memtableSize : E Z := m ← asks memtable_; mret (mt_size m).
Definition sstableCount : E Z := tables ← asks sstables_; mret (zlen tables).

(** ** Opening and closing *)

Fixpoint replay (l : list WAL.Entry) : E unit :=
  match l with
  | [] => mret tt
  | x :: l =>
      match WAL.type x with
      | WAL.PUT => mem_op (mt_put (WAL.key x) (WAL.value x))
      | WAL.DEL => mem_op (mt_del (WAL.key x))
      end ;;
      replay l
  end.

Definition recoverFromWAL : E unit :=
  x ← asks wal_;
  l ← lift (of_result (log_recover x));
  replay l.

Record SSTFile := mkSSTFile { f_path : str; f_level : Z; f_counter : Z }.

(** The comparator of the sort: higher levels first, then by counter. *)
Definition loads_before (a b : SSTFile) : bool :=
  if f_level a =? f_level b then f_counter a <? f_counter b else f_level b <? f_level a.

Fixpoint insert_file (a : SSTFile) (l : list SSTFile) : list SSTFile :=
  match l with
  | [] => [a]
  | b :: l => if loads_before a b then a :: b :: l else b :: insert_file a l
  end.
Definition sort_files (l : list SSTFile) : list SSTFile := foldr insert_file [] l.

Definition sst_files (paths : list str) : list SSTFile :=
  omap (fun p => '(l, c) ← Names.parse_name p; Some (mkSSTFile p l c)) paths.

Fixpoint load_files (l : list SSTFile) : E unit :=
  match l with
  | [] => mret tt
  | f :: l =>
      o ← lift (SSTable.open (f_path f));
      tables ← asks sstables_;
      update (set_sstables (tables ++ [o])) ;;
      counter ← asks sst_counter_;
      (if f_level f =? 0 then
         c ← lift (Compaction.int_succ (f_counter f));
         update (set_counter (Z.max counter c))
       else mret tt) ;;
      load_files l
  end.

Definition loadSSTables : E unit :=
  dir ← asks data_dir_;
  ok ← lift call;
  if negb ok then lift (throw (RuntimeError "directory_iterator")) else
  paths ← lift (gets (fun w => List.filter (Names.in_dir dir) (map_to_list (files w)).*1));
  load_files (sort_files (sst_files paths)).

(** The directory and the lock. *)
Definition acquire : M unit :=
  made ← call;
  if negb made then throw (RuntimeError "create_directories") else
  opened ← call;
  locked ← (if (opened : bool) then call else mret false);
  if negb locked then throw (RuntimeError "LSMEngine: failed to acquire lock") else mret tt.

(** The constructor's body. *)
Definition recover_all : E unit := recoverFromWAL ;; loadSSTables.

(** Runs an operation of an engine under construction. *)
Definition building (e : engine) (op : E unit) : M engine := fun w =>
  match op e w with
  | (Ok _, e, w) => (Ok e, w)
  | (Throw x, _, w) => (Throw x, w)
  | (Crashed, _, w) => (Crashed, w)
  | (Undefined, _, w) => (Undefined, w)
  end.

(** [LSMEngine::LSMEngine] on the log left by the last life. *)
Definition construct (dir : str) (max : Z) (durable : bool) (g : Rng) (d : D) : M engine :=
  acquire ;;
  x ← of_result (log_open durable d);
  building (mkEngine dir max x (mt_create max) [] 0 g) recover_all.

(** [LSMEngine::~LSMEngine]: the flush may fail or be killed, nothing escapes. *)
Definition destruct_ (e : engine) (w : world) : result D * world :=
  let '(r, e, w) := flush e w in
  match r with
  | Crashed => (Crashed, w)
  | Undefined => (Undefined, w)
  | _ =>
      match (_ ← call; _ ← call; Compaction.for_each SSTable.destroy (sstables_ e)) w with
      | (_, w) => let '(d, st) := log_close (wal_ e) (faults w) in (d, set_faults st w)
      end
  end.

End engine.
Arguments engine : clear implicits.
Arguments E : clear implicits.

End Engine.
