(* ===== verification/EngineSpec.v ===== *)
(** * The engine: state invariant and reads

    What the engine's state means ([inv]): the tables in memory are those of the
    directory, the memtable is a sorted run above them, the block cache holds
    nothing wrong about them.  Then [get] and [scan] against that meaning.
    [EngineWrite] has the writes, [EngineRecovery] what a restart finds. *)

From stdpp Require Import sorting.
From S2P Require Import Prelude WalFormat Bloom BlockCache Fault Memtable World Names TableFormat SSTable Layers Compaction CompactionSpec CompactionRun Store Scan Replay LogSpec Engine.
Open Scope Z_scope.

Module EngineSpec.
Import TableFormat Layers CompactionSpec CompactionRun Store Replay Engine.

(** ** The block cache and the open tables *)

(** The cache holds only right blocks of the open tables, and nothing under any
    other path. *)
Record coherent (c : BlockCache.t) (tables : list t) : Prop := {
  coh_inv : BlockCache.inv c;
  coh_ok : forall o, o ∈ tables \/ path o ∉ path <$> tables -> SSTable.cache_ok c o
}.

Lemma coherent_open c o : BlockCache.inv c -> (forall o, SSTable.cache_ok c o) -> coherent c [o].
Proof. by split. Qed.

(** A lookup in one of the tables. *)
Lemma coherent_lookup c c' p es tables :
  coherent c tables -> NoDup (path <$> tables) -> table_of p es ∈ tables ->
  (forall o, SSTable.cache_ok c o -> (path o = p -> o = table_of p es) -> SSTable.cache_ok c' o) ->
  coherent c' tables.
Proof.
  intros [Hinv Hok] Hnd Hin Hc. assert (SSTable.cache_ok c' (table_of p es)) as [Hinv' _].
  { apply Hc; [apply Hok; by left|done]. }
  split; [done|]. intros o Ho. apply Hc; [by apply Hok|]. intros Hp. destruct Ho as [Ho|Ho].
  - apply list_elem_of_lookup in Ho as [i Hi]. apply list_elem_of_lookup in Hin as [j Hj].
    assert ((path <$> tables) !! i = Some p) as Hi' by (by rewrite list_lookup_fmap, Hi, <- Hp).
    assert ((path <$> tables) !! j = Some p) as Hj' by (by rewrite list_lookup_fmap, Hj).
    pose proof (NoDup_lookup _ _ _ _ Hnd Hi' Hj'). congruence.
  - exfalso. apply Ho. rewrite Hp. by apply (list_elem_of_fmap_2 path) in Hin.
Qed.

(** A new table under a path no open table has. *)
Lemma coherent_add c tables o : coherent c tables -> path o ∉ path <$> tables -> coherent c (tables ++ [o]).
Proof.
  intros [Hinv Hok] Hnew. split; [done|]. intros x Hx. apply Hok. rewrite fmap_app, !elem_of_app, !elem_of_cons in Hx.
  destruct Hx as [[Hx|[->|Hx]]|Hx]; [by left|by right|set_solver|]. right. set_solver.
Qed.

Lemma forget_inv l c : BlockCache.inv c -> BlockCache.inv (forget l c).
Proof.
  revert c. induction l as [|p l IH]; intros c Hc; [done|]. apply IH. by apply BlockCache.invalidate_refines.
Qed.

Lemma forget_ok l c o : SSTable.cache_ok c o -> SSTable.cache_ok (forget l c) o.
Proof. revert c. induction l as [|p l IH]; intros c Hc; [done|]. apply IH. by apply SSTable.cache_ok_invalidate. Qed.

Lemma forget_fresh l c o : BlockCache.inv c -> path o ∈ l -> SSTable.cache_ok (forget l c) o.
Proof.
  revert c. induction l as [|p l IH]; intros c Hc Hin; [set_solver|].
  change (forget (p :: l) c) with (forget l (BlockCache.invalidatePath p c)).
  apply elem_of_cons in Hin as [Hp|Hin].
  - apply forget_ok. rewrite <- Hp. by apply SSTable.cache_ok_fresh.
  - apply IH; [|done]. by apply BlockCache.invalidate_refines.
Qed.

(** Closing all the tables and opening others under new paths. *)
Lemma coherent_replace c tables fresh :
  coherent c tables -> (forall o, o ∈ fresh -> path o ∉ path <$> tables) ->
  coherent (forget (path <$> tables) c) fresh.
Proof.
  intros [Hinv Hok] Hnew. split; [by apply forget_inv|]. intros o Ho.
  destruct (decide (path o ∈ path <$> tables)) as [Hin|Hin]; [by apply forget_fresh|].
  apply forget_ok, Hok. by right.
Qed.

Lemma coherent_forget c tables l : coherent c tables -> coherent (forget l c) tables.
Proof. intros [Hinv Hok]. split; [by apply forget_inv|]. intros o Ho. by apply forget_ok, Hok. Qed.

(** ** Reasoning about an operation *)

Section spec.
Context {Mt : Type} `{!MemtableOps Mt} `{!MemtableSpec Mt} {W D : Type} `{!LogOps W D} `{!LogSpec W D}.
Abbreviation eng := (engine Mt W).
Abbreviation M_E := (E Mt W).
Implicit Types (e : eng) (w : world) (xs : list layer) (l : list entry).

Definition wpe {A} (m : M_E A) (Q : result A -> eng -> world -> Prop) (e : eng) (w : world) : Prop :=
  Q (m e w).1.1 (m e w).1.2 (m e w).2.

Definition aftere {A B} (f : A -> M_E B) (Q : result B -> eng -> world -> Prop) (r : result A) (e : eng) (w : world) : Prop :=
  match r with
  | Ok a => wpe (f a) Q e w
  | Throw x => Q (Throw x) e w
  | Crashed => Q Crashed e w
  | Undefined => Q Undefined e w
  end.

Lemma wpe_ret {A} (a : A) (Q : result A -> eng -> world -> Prop) e w : Q (Ok a) e w -> wpe (mret a) Q e w.
Proof. done. Qed.

Lemma wpe_bind {A B} (m : M_E A) (f : A -> M_E B) Q e w : wpe m (aftere f Q) e w -> wpe (m ≫= f) Q e w.
Proof. unfold wpe, mbind, E_bind. by destruct (m e w) as [[[a|x| |] e1] w1]. Qed.

Lemma wpe_mono {A} (m : M_E A) (P Q : result A -> eng -> world -> Prop) e w :
  wpe m P e w -> (forall r e' w', P r e' w' -> Q r e' w') -> wpe m Q e w.
Proof. unfold wpe. auto. Qed.

Lemma wpe_lift {A} (m : M A) (Q : result A -> eng -> world -> Prop) e w :
  wp m (fun r w' => Q r e w') w -> wpe (lift m) Q e w.
Proof. unfold wpe, wp, lift. by destruct (m w). Qed.

Lemma wpe_asks {A} (f : eng -> A) (Q : result A -> eng -> world -> Prop) e w : Q (Ok (f e)) e w -> wpe (asks f) Q e w.
Proof. done. Qed.

Lemma wpe_update (f : eng -> eng) Q e w : Q (Ok tt) (f e) w -> wpe (update f) Q e w.
Proof. done. Qed.

(** ** The state invariant *)

Record inv (e : eng) (w : world) (xs : list layer) (l : list entry) : Prop := {
  inv_stored : stored (data_dir_ e) (files w) xs;
  inv_tables : sstables_ e = layer_table (data_dir_ e) <$> xs;
  inv_mem : mt_rep (memtable_ e) (memtable_max_bytes_ e) l;
  inv_entries : Forall entry_ok l;
  inv_cache : coherent (cache w) (sstables_ e);
  inv_counter : 0 <= sst_counter_ e <= Names.INT_MAX;
  inv_above : forall x, x ∈ xs -> x.1.1 = 0 -> x.1.2 < sst_counter_ e
}.

(** What serving reads takes of that: the open tables are right, whatever else
    lies in the directory. *)
Record readable (e : eng) (w : world) (xs : list layer) (l : list entry) : Prop := {
  rd_layers : Forall (layer_ok (data_dir_ e) (files w)) xs;
  rd_paths : NoDup (layer_path (data_dir_ e) <$> xs);
  rd_tables : sstables_ e = layer_table (data_dir_ e) <$> xs;
  rd_mem : mt_rep (memtable_ e) (memtable_max_bytes_ e) l;
  rd_entries : Forall entry_ok l;
  rd_cache : coherent (cache w) (sstables_ e);
  rd_counter : 0 <= sst_counter_ e <= Names.INT_MAX;
  rd_above : forall x, x ∈ xs -> x.1.1 = 0 -> x.1.2 < sst_counter_ e
}.

Lemma inv_readable e w xs l : inv e w xs l -> readable e w xs l.
Proof. intros [H1 H2 H3 H4 H5 H6 H7]. split; try done; [apply H1|by eapply stored_paths]. Qed.

Lemma inv_sorted e w xs l : inv e w xs l -> keys_sorted l.
Proof. intros H. eapply mt_rep_sorted, inv_mem, H. Qed.

Lemma inv_paths e w xs l : inv e w xs l -> path <$> sstables_ e = layer_path (data_dir_ e) <$> xs.
Proof. intros H. rewrite (inv_tables _ _ _ _ H). by rewrite <- list_fmap_compose. Qed.

Lemma readable_paths e w xs l : readable e w xs l -> path <$> sstables_ e = layer_path (data_dir_ e) <$> xs.
Proof. intros H. rewrite (rd_tables _ _ _ _ H). by rewrite <- list_fmap_compose. Qed.

Lemma readable_nodup e w xs l : readable e w xs l -> NoDup (path <$> sstables_ e).
Proof. intros H. rewrite (readable_paths _ _ _ _ H). apply H. Qed.

Lemma readable_table e w xs l x :
  readable e w xs l -> x ∈ xs -> layer_table (data_dir_ e) x ∈ sstables_ e /\ table_ok x.2 /\ keys_sorted x.2.
Proof.
  intros H Hx. split; [rewrite (rd_tables _ _ _ _ H); by apply list_elem_of_fmap_2|].
  pose proof (rd_layers _ _ _ _ H) as Hl. rewrite Forall_forall in Hl. by destruct (Hl x Hx) as (_ & _ & ? & ? & _).
Qed.

Lemma readable_cache_io e w xs l c il :
  readable e w xs l -> coherent c (sstables_ e) -> readable e (set_cache c (set_io il w)) xs l.
Proof. intros [H1 H2 H3 H4 H5 H6 H7 H8] Hc. by split. Qed.

(** A lookup may touch the cache and use up outcomes, nothing else. *)
Lemma inv_cache_io e w xs l c il :
  inv e w xs l -> coherent c (sstables_ e) -> inv e (set_cache c (set_io il w)) xs l.
Proof. intros [H1 H2 H3 H4 H5 H6 H7] Hc. by split. Qed.

(** ** Point reads *)

Lemma get_tables_spec e k (Q : result (option str) -> world -> Prop) : forall ys w,
  (forall x, x ∈ ys -> layer_table (data_dir_ e) x ∈ sstables_ e /\ table_ok x.2 /\ keys_sorted x.2) ->
  NoDup (path <$> sstables_ e) -> coherent (cache w) (sstables_ e) ->
  (forall c il, (io w = [] -> il = []) -> coherent c (sstables_ e) ->
     Q (Ok (visible k (reverse ys.*2))) (set_cache c (set_io il w))) ->
  (forall c il x, io w <> [] -> coherent c (sstables_ e) -> Q (Throw x) (set_cache c (set_io il w))) ->
  wp (get_tables (layer_table (data_dir_ e) <$> ys) k) Q w.
Proof.
  induction ys as [|x ys IH]; intros w Hys Hnd Hc HQ Hth.
  { apply wp_ret. specialize (HQ (cache w) (io w) ltac:(auto) Hc). by destruct w. }
  rewrite fmap_cons. cbn [get_tables]. destruct (Hys x ltac:(apply elem_of_cons; by left)) as (Hin & Hok & Hs).
  assert (visible k (reverse (x :: ys).*2) = match alookup k x.2 with Some v => v | None => visible k (reverse ys.*2) end) as Hv.
  { rewrite fmap_cons, reverse_cons. unfold visible. rewrite layered_app. simpl. by destruct (alookup k x.2). }
  apply wp_bind. unfold layer_table in Hin |- *. eapply SSTable.get_spec; [done|done|apply Hc; by left| |].
  - intros il c Hil Hcc. cbn [after]. assert (coherent c (sstables_ e)) as Hc' by (by eapply coherent_lookup).
    destruct (alookup k x.2) as [v|].
    + apply wp_ret. rewrite <- Hv. by apply HQ.
    + apply IH; [intros y Hy; apply Hys, elem_of_cons; by right|done|done| |]; cbn [io set_cache set_io].
      * intros c2 il2 Hil2 Hc2. rewrite <- Hv. apply (HQ c2 il2); auto.
      * intros c2 il2 x2 Hio Hc2. apply (Hth c2 il2 x2); auto.
  - intros il c x2 Hio Hcc. cbn [after]. apply Hth; [done|]. by eapply coherent_lookup.
Qed.

(** What [get] can end in. *)
Lemma get_readable e w xs l k :
  readable e w xs l ->
  wpe (get k) (fun r e' w' => e' = e /\
     (exists c il, w' = set_cache c (set_io il w) /\ coherent c (sstables_ e) /\ (io w = [] -> il = [])) /\
     (r = Ok (view xs l k) \/ io w <> [] /\ exists x, r = Throw x)) e w.
Proof.
  intros H. unfold get. apply wpe_bind, wpe_asks. cbn [aftere]. apply wpe_bind, wpe_lift.
  rewrite (mt_get_spec _ _ _ k (rd_mem _ _ _ _ H)). apply wp_of_option. cbn [aftere].
  assert (view xs l k = match alookup k l with Some v => v | None => visible k xs.*2 end) as Hv.
  { unfold view, visible. rewrite layered_app. simpl. by destruct (alookup k l). }
  rewrite Hv. destruct (alookup k l) as [v|].
  { apply wpe_ret. split_and!; [done| |by left]. exists (cache w), (io w). split_and!; [by destruct w|apply H|done]. }
  apply wpe_bind, wpe_asks. cbn [aftere]. apply wpe_lift. rewrite (rd_tables _ _ _ _ H) at 1. rewrite <- fmap_reverse.
  apply get_tables_spec; [|by eapply readable_nodup|apply H| |].
  - intros x Hx. rewrite elem_of_reverse in Hx. by eapply readable_table.
  - intros c il Hil Hc. rewrite fmap_reverse, reverse_involutive. split_and!; eauto.
  - intros c il x Hio Hc. split_and!; [done|by exists c, il|right; eauto].
Qed.

Lemma get_wpe e w xs l k :
  inv e w xs l ->
  wpe (get k) (fun r e' w' => e' = e /\ inv e w' xs l /\ files w' = files w /\ faults w' = faults w /\
     (io w = [] -> io w' = []) /\ (r = Ok (view xs l k) \/ io w <> [] /\ exists x, r = Throw x)) e w.
Proof.
  intros H. eapply wpe_mono; [by apply get_readable, inv_readable|].
  intros r e' w' (-> & (c & il & -> & Hc & Hil) & Hr). split_and!; auto. by apply inv_cache_io.
Qed.

(** ** Range reads *)

Lemma sst_next_rep it es : iter_rep it es -> exists s, Scan.sst_next it = Some s /\ Scan.source_rep s es.
Proof.
  intros Hit. unfold Scan.sst_next. rewrite (hasNext_rep _ _ Hit). destruct es as [|e es].
  - rewrite bool_decide_false by tauto. eexists. split; [done|]. by split.
  - rewrite bool_decide_true by done. destruct (next_rep _ _ _ Hit) as (it' & -> & Hit').
    cbn [mbind option_bind]. eexists. split; [done|]. by split.
Qed.

Lemma open_source_quiet start p es w :
  io w = [] -> files w !! p = Some (table_bytes es) -> table_ok es -> keys_sorted es ->
  exists s, open_source start (table_of p es) w = (Ok s, w) /\ Scan.source_rep s (afrom start es).
Proof.
  intros Hio Hf Hok Hs. unfold open_source, SSTable.createIteratorFrom. cbn [index table_of path index_offset].
  destruct (findBlock_spec es start Hs) as (P & Q & Hes & Hoff & Hlt). rewrite Hoff.
  pose proof (new_iter_rep es P Q Hok Hes) as Hit.
  assert (keys_sorted Q) as HsQ by (rewrite Hes in Hs; by apply keys_sorted_app in Hs as (_ & _ & ?)).
  assert (length Q <= S (length (table_bytes es)))%nat as Hlen.
  { pose proof (entries_fit_file es). assert (length Q <= length es)%nat by (rewrite Hes, length_app; lia). lia. }
  destruct (skip_loop_rep _ start _ Q Hit HsQ Hlen) as (it' & Hskip & Hit').
  destruct (sst_next_rep _ _ Hit') as (s & Hn & Hsrc).
  assert (afrom start Q = afrom start es) as Haf by (by rewrite Hes, afrom_app, (afrom_none start P)).
  exists s. rewrite <- Haf. split; [|done].
  assert ((off ← of_option (Some (zlen (enc_entries P))); file ← open_read p;
           of_option (skip_loop (S (length (default [] file))) start (new_iter file (zlen (enc_entries es)) off))) w
          = (Ok it', w)) as Hc.
  { rewrite (bind_ok _ _ w (zlen (enc_entries P)) w) by done.
    rewrite (bind_ok _ _ _ _ _ (open_read_quiet w Hio p)), Hf. change (default [] (Some (table_bytes es))) with (table_bytes es). by rewrite Hskip. }
  rewrite (bind_ok _ _ _ _ _ Hc), Hn. done.
Qed.

Lemma open_sources_quiet dir start ys w :
  io w = [] -> Forall (layer_ok dir (files w)) ys ->
  exists srcs : list Scan.ScanSource, open_sources start (layer_table dir <$> ys) w = (Ok srcs, w) /\
    Forall2 Scan.source_rep srcs (afrom start <$> ys.*2).
Proof.
  intros Hio. induction 1 as [|x ys (Hl & Hc & Hok & Hs & Hf) _ (srcs & IH & Hrep)]; [by exists []|].
  destruct (open_source_quiet start (layer_path dir x) x.2 w Hio Hf Hok Hs) as (s & Ho & Hsrc).
  exists (s :: srcs). rewrite !fmap_cons. cbn [open_sources]. split; [|by constructor].
  unfold layer_table at 1. by rewrite (bind_ok _ _ _ _ _ Ho), (bind_ok _ _ _ _ _ IH).
Qed.

Definition in_range (start : str) (end_ : option str) (k : str) : Prop := ~ k <s start /\ Scan.past end_ k = false.

(** A table the scan skips has no key in range. *)
Lemma no_overlap start end_ p es k :
  table_ok es -> keys_sorted es -> may_overlap start end_ (table_of p es) = false -> in_range start end_ k ->
  alookup k es = None.
Proof.
  intros Hok Hs Hov [Hk He]. apply alookup_None. intros Hin. unfold may_overlap in Hov.
  cbn [index largest_key smallest_key table_of] in Hov.
  destruct es as [|e0 es0]; [set_solver|]. set (es := e0 :: es0) in *.
  assert (index_of es <> []) as Hi.
  { intros Hi. assert (es = []); [|done]. apply index_nil. by rewrite Hi. }
  rewrite bool_decide_false in Hov by done. cbn [negb andb] in Hov.
  apply andb_false_iff in Hov as [Hov|Hov].
  - apply negb_false_iff, str_ltb_lt in Hov. apply Hk. destruct (last es) as [z|] eqn:Hz; [|by apply last_None in Hz].
    apply last_Some in Hz as [es1 Hz]. rewrite Hz, fmap_app in Hin. apply elem_of_app in Hin as [Hin|Hin].
    + rewrite Hz in Hs. apply keys_sorted_app in Hs as (Hs & _). eapply str_lt_trans; [|exact Hov]. apply Hs; [done|set_solver].
    + apply list_elem_of_singleton in Hin as ->. done.
  - destruct end_ as [b|]; [|done]. cbn [Scan.past] in He. apply negb_false_iff, str_ltb_lt in He.
    unfold es in Hov. cbn [head] in Hov. apply not_true_iff_false in Hov. apply Hov, str_ltb_lt.
    unfold es in Hin, Hs. destruct e0 as [k0 v0]. cbn [fst] in *. rewrite fmap_cons in Hin.
    apply keys_sorted_cons in Hs as [Hs _]. apply elem_of_cons in Hin as [->|Hin]; [done|].
    eapply str_lt_trans; [by apply Hs|done].
Qed.

Lemma scan_layers dir start end_ ys k :
  Forall (fun x : layer => table_ok x.2 /\ keys_sorted x.2) ys -> in_range start end_ k ->
  layered k (reverse (afrom start <$> (List.filter (fun x => may_overlap start end_ (layer_table dir x)) ys).*2))
  = layered k (reverse ys.*2).
Proof.
  intros Hys Hk. induction Hys as [|x ys [Hok Hs] _ IH]; [done|]. cbn [List.filter].
  change ((x :: ys).*2) with (x.2 :: ys.*2). rewrite (reverse_cons (ys.*2) x.2), layered_app. cbn [layered].
  destruct (may_overlap start end_ (layer_table dir x)) eqn:Ho.
  - set (zs := List.filter _ ys) in *. change (afrom start <$> (x :: zs).*2) with (afrom start x.2 :: (afrom start <$> zs.*2)).
    rewrite reverse_cons, layered_app. cbn [layered]. rewrite IH, alookup_afrom, decide_False by apply Hk. done.
  - rewrite IH. rewrite (no_overlap start end_ (layer_path dir x) x.2 k) by done. by destruct (layered k (reverse ys.*2)).
Qed.

Lemma below_start start (ss : list (list entry)) k : k <s start -> layered k (reverse (afrom start <$> ss)) = None.
Proof.
  intros Hk. apply layered_None, Forall_forall. intros x Hx. rewrite elem_of_reverse in Hx.
  apply list_elem_of_fmap in Hx as (y & -> & _). by rewrite alookup_afrom, decide_True.
Qed.

(** The pairs a scan is about: the visible ones in range, in key order. *)
Definition range_of (v : str -> option str) (start : str) (end_ : option str) (full : list (str * str)) : Prop :=
  keys_sorted full /\
  forall k, alookup k full = if decide (k <s start) then None else if Scan.past end_ k then None else v k.

Lemma scan_quiet e w xs l start end_ limit :
  readable e w xs l -> io w = [] -> 0 <= limit ->
  exists full, range_of (view xs l) start end_ full /\
    scan start end_ limit e w = (Ok (take (Z.to_nat limit) full), e, w).
Proof.
  intros H Hio Hlim. set (dir := data_dir_ e).
  set (ys := List.filter (fun x => may_overlap start end_ (layer_table dir x)) (reverse xs)).
  assert (Forall (layer_ok dir (files w)) (reverse xs)) as Hall.
  { pose proof (rd_layers _ _ _ _ H) as Hl. rewrite Forall_forall in Hl |- *.
    intros x Hx. apply Hl. by rewrite elem_of_reverse in Hx. }
  assert (Forall (layer_ok dir (files w)) ys) as Hys.
  { rewrite Forall_forall in Hall |- *. intros x [Hx _]%list_elem_of_In%filter_In. apply Hall. by apply list_elem_of_In. }
  destruct (open_sources_quiet dir start ys w Hio Hys) as (srcs & Hopen & Hrep).
  pose proof (mt_rep_sorted _ _ _ (rd_mem _ _ _ _ H)) as Hls.
  set (ss := afrom start l :: (afrom start <$> ys.*2)).
  assert (Forall2 Scan.source_rep (Scan.MemtableSource (afrom start l) :: srcs) ss) as Hsrc by by constructor.
  assert (Forall keys_sorted ss) as Hss.
  { constructor; [by apply afrom_sorted|]. rewrite !Forall_fmap. eapply Forall_impl; [exact Hys|].
    intros x (_ & _ & _ & Hs & _). by apply afrom_sorted. }
  destruct (Scan.merge_spec end_ limit _ ss Hsrc Hss Hlim) as (rest & Hrs & Hrl & Hm).
  destruct (Scan.pairs_upto_spec end_ rest Hrs) as [Hps Hpl].
  exists (Scan.pairs (Scan.upto end_ rest)).
  assert (range_of (view xs l) start end_ (Scan.pairs (Scan.upto end_ rest))) as Hr.
  { split; [done|]. intros k. rewrite Hpl, Hrl. unfold ss. rewrite reverse_cons, layered_app. cbn [layered].
    rewrite alookup_afrom. case_decide as Hk; [rewrite below_start by done; by destruct (Scan.past end_ k)|].
    destruct (Scan.past end_ k) eqn:Hp; [done|]. unfold ys. rewrite scan_layers; [|eapply Forall_impl; [exact Hall|]|done].
    - rewrite fmap_reverse, reverse_involutive. unfold view, visible. rewrite layered_app. cbn [layered].
      by destruct (alookup k l).
    - intros x (_ & _ & ? & ? & _). done. }
  split; [done|]. unfold scan.
  destruct ((limit =? 0) || match end_ with Some b => negb (start <?s b) | None => false end) eqn:Hguard.
  { apply orb_true_iff in Hguard as [H0%Z.eqb_eq|Hge]; [by rewrite H0|].
    destruct end_ as [b|]; [|done]. apply negb_true_iff in Hge.
    assert (Scan.pairs (Scan.upto (Some b) rest) = []) as ->; [|by rewrite take_nil].
    destruct (Scan.pairs (Scan.upto (Some b) rest)) as [|[k v] tl] eqn:E; [done|]. exfalso.
    destruct Hr as [_ Hr]. specialize (Hr k). rewrite alookup_cons, decide_True in Hr by done.
    case_decide as Hk; [done|]. destruct (Scan.past (Some b) k) eqn:Hp; [done|]. cbn [Scan.past] in Hp.
    apply negb_false_iff, str_ltb_lt in Hp. apply not_true_iff_false in Hge. apply Hge, str_ltb_lt.
    by eapply str_le_lt_trans. }
  unfold mbind, E_bind, asks, lift. rewrite (mt_seek_spec _ _ _ start (rd_mem _ _ _ _ H)). cbn [of_option mret M_ret].
  assert (List.filter (may_overlap start end_) (reverse (sstables_ e)) = layer_table dir <$> ys) as ->.
  { rewrite (rd_tables _ _ _ _ H), <- fmap_reverse. unfold ys. fold dir. generalize (reverse xs).
    intros zs. induction zs as [|z zs IH]; [done|]. rewrite fmap_cons. cbn [List.filter].
    destruct (may_overlap start end_ (layer_table dir z)); [by rewrite fmap_cons, IH|done]. }
  by rewrite Hopen, Hm.
Qed.

End spec.

End EngineSpec.
