(* ===== verification/EngineWrite.v ===== *)
(** * The engine: writes

    [put], [del], [flush] and [sync] against the meaning of the engine's state,
    on every way they can end: what readers see afterwards, and what a crash may
    leave behind.  System calls succeed here; fault points may be armed. *)

From S2P Require Import Prelude WalFormat Kernel Bloom BlockCache Fault Memtable World Names TableFormat SSTable Layers Compaction CompactionSpec CompactionRun Store Scan Replay LogSpec Engine EngineSpec.
Open Scope Z_scope.

Module EngineWrite.
Import TableFormat Layers CompactionSpec CompactionRun Store Replay Engine EngineSpec.

(** ** A new table *)

Lemma total_app ls ls' : total (ls ++ ls') = (total ls + total ls')%nat.
Proof. unfold total. rewrite foldr_app. induction ls as [|l ls IH]; simpl; [done|]. rewrite IH. lia. Qed.

(** A level-0 name numbered past those there is taken by no table. *)
Lemma fresh_name dir m xs c x :
  Forall (layer_ok dir m) xs -> 0 <= c < Names.INT_MAX -> (forall x, x ∈ xs -> x.1.1 = 0 -> x.1.2 < c) ->
  x ∈ xs -> layer_path dir x <> Names.sstPath dir 0 c.
Proof.
  intros Hl Hc Habove Hx E. rewrite Forall_forall in Hl. destruct (Hl x Hx) as (Hl1 & Hl2 & _).
  apply (f_equal Names.parse_name) in E. unfold layer_path, Names.INT_MAX in *.
  rewrite !Names.parse_sstPath in E by (unfold Names.INT_MAX; lia).
  injection E as E1 E2. specialize (Habove x Hx ltac:(lia)). lia.
Qed.

(** The new table and the others. *)
Lemma layers_snoc dir m xs c l :
  Forall (layer_ok dir m) xs -> 0 <= c < Names.INT_MAX -> table_ok l -> keys_sorted l ->
  (forall x, x ∈ xs -> x.1.1 = 0 -> x.1.2 < c) ->
  let p := Names.sstPath dir 0 c in
  Forall (layer_ok dir (<[p := table_bytes l]> (delete (Names.tmp_of p) m))) (xs ++ [(0, c, l)]).
Proof.
  intros Hl Hc Hok Hs Habove p. pose proof (fresh_name dir m xs c) as Hfresh. fold p in Hfresh.
  destruct (Names.sst_name dir 0 c) as (Hne & _); [lia..|]. destruct (Names.tmp_extension p Hne) as (Htmp & _).
  apply Forall_app. split; [|apply Forall_singleton].
  - rewrite Forall_forall in Hl |- *. intros x Hx. destruct (Hl x Hx) as (H1 & H2 & H3 & H4 & H5). split_and!; try done; [lia..|].
    rewrite lookup_insert_ne, lookup_delete_ne; [done| |].
    + intros E. destruct (Names.sst_name dir x.1.1 x.1.2) as (_ & He & _); [lia..|]. unfold layer_path in E.
      rewrite <- E, Htmp in He. by vm_compute in He.
    + intros E. apply (Hfresh x); try done. by apply Forall_forall.
  - split_and!; cbn; try done; [lia..|]. by rewrite lookup_insert_eq.
Qed.

(** A level-0 file numbered past those there is a new last table. *)
Lemma stored_snoc dir m xs c l :
  stored dir m xs -> 0 <= c < Names.INT_MAX -> table_ok l -> keys_sorted l ->
  (forall x, x ∈ xs -> x.1.1 = 0 -> x.1.2 < c) ->
  let p := Names.sstPath dir 0 c in
  stored dir (<[p := table_bytes l]> (delete (Names.tmp_of p) m)) (xs ++ [(0, c, l)]) /\ p ∉ layer_path dir <$> xs.
Proof.
  intros Hst Hc Hok Hs Habove p. pose proof (st_layers _ _ _ Hst) as Hl.
  split; [|intros (x & E & Hx)%list_elem_of_fmap; symmetry in E; by eapply fresh_name].
  split.
  - by apply layers_snoc.
  - apply StronglySorted_app_2; [|apply Hst|repeat constructor].
    intros x y Hx ->%list_elem_of_singleton. rewrite Forall_forall in Hl.
    destruct (Hl x Hx) as (Hl1 & _). unfold older. cbn. destruct (decide (x.1.1 = 0)) as [E|E]; [right; split; [done|by apply Habove]|left; lia].
  - intros q Hq Hd Hn. rewrite fmap_app. apply elem_of_app. destruct (decide (q = p)) as [->|Hqp]; [right; by apply list_elem_of_singleton|left].
    rewrite lookup_insert_ne in Hq by done. destruct Hq as [v [_ Hq]%lookup_delete_Some]. apply (st_only _ _ _ Hst); [by eexists|done|done].
Qed.

(** Adding it takes no number of level 1. *)
Lemma room_snoc dir m xs c l b :
  0 <= c < Names.INT_MAX ->
  numbers_bounded dir m (Z.of_nat (total xs.*2) + Z.of_nat (length l) + 1) ->
  let p := Names.sstPath dir 0 c in
  room dir (<[p := b]> (delete (Names.tmp_of p) m)) (xs ++ [(0, c, l)]).
Proof.
  intros Hc [Hk Hn] p. unfold room. rewrite fmap_app, total_app. cbn [fmap list_fmap total foldr snd].
  split; [lia|]. intros q n (H1 & H2 & H3 & H4 & H5). destruct (decide (q = p)) as [->|Hqp].
  - exfalso. destruct (Names.sstPath_filename dir 0 c) as (_ & _ & Hs & _); [lia..|]. unfold p in H4. rewrite Hs in H4.
    change (bs "sst-1-") with (bs "sst-" ++ Names.decimal 1 ++ [Names.dash]) in H4.
    rewrite <- (app_nil_r (Names.sst_stem _ _)), Names.sst_level_prefix in H4 by lia. by rewrite bool_decide_false in H4.
  - rewrite lookup_insert_ne in H1 by done. destruct H1 as [v [_ H1]%lookup_delete_Some].
    enough (n + 1 + (Z.of_nat (total xs.*2) + Z.of_nat (length l) + 1) < Names.INT_MAX) by lia. apply (Hn q). split_and!; [by eexists|done..].
Qed.

(** ** Flushing *)

Section spec.
Context {Mt : Type} `{!MemtableOps Mt} `{!MemtableSpec Mt} {W D : Type} `{!LogOps W D} `{!LogSpec W D}.
Abbreviation eng := (engine Mt W).
Implicit Types (e : eng) (w : world) (xs : list layer) (l : list entry).

(** Numbers and sizes leave room for one more table and a compaction. *)
Record flushable e w xs l : Prop := {
  fl_counter : sst_counter_ e < Names.INT_MAX;
  fl_entries : zlen l <= 2 ^ 20;
  fl_numbers : numbers_bounded (data_dir_ e) (files w) (Z.of_nat (total xs.*2) + Z.of_nat (length l) + 1)
}.

(** What no write changes. *)
Record frame e w e' w' : Prop := {
  fr_dir : data_dir_ e' = data_dir_ e;
  fr_max : memtable_max_bytes_ e' = memtable_max_bytes_ e;
  fr_durable : log_durable (wal_ e') = log_durable (wal_ e);
  fr_armed : stays_disarmed (faults w) (faults w')
}.

Lemma inv_faults f e w xs l : inv e w xs l -> inv e (set_faults f w) xs l.
Proof. intros []. by split. Qed.

Lemma inv_wal x e w xs l : inv e w xs l -> inv (set_wal x e) w xs l.
Proof. intros []. by split. Qed.

(** A fault point of an operation. *)
Lemma wpe_hit p (Q : result unit -> eng -> world -> Prop) e w :
  (forall r f, stays_disarmed (faults w) f -> (Fault.g_armed (faults w) = false -> r = Ok tt) -> r <> Undefined ->
     Q r e (set_faults f w)) ->
  wpe (lift (hit p)) Q e w.
Proof.
  intros HQ. apply wpe_lift, wp_with_faults.
  destruct (hit_cases p (faults w)) as [(f & -> & Hf)|[(f & -> & Hf)|(f & -> & Hf)]]; apply HQ; try done;
    unfold stays_disarmed; congruence.
Qed.

Lemma open_quiet p es w :
  io w = [] -> files w !! p = Some (table_bytes es) -> table_ok es -> SSTable.open p w = (Ok (table_of p es), w).
Proof.
  intros Hio Hf Hok. unfold SSTable.open.
  rewrite (bind_ok _ _ _ _ _ (open_read_quiet w Hio _)), Hf. rewrite (bind_ok _ _ _ _ _ (open_read_quiet w Hio _)), Hf.
  unfold of_result. by rewrite load_written.
Qed.

(** Where the flush that publishes the memtable can end, whatever calls fail. *)
Lemma publish_wpe e w l :
  mt_rep (memtable_ e) (memtable_max_bytes_ e) l -> Forall entry_ok l -> zlen l <= 2 ^ 20 ->
  0 <= sst_counter_ e < Names.INT_MAX ->
  let c := sst_counter_ e in
  let p := Names.sstPath (data_dir_ e) 0 c in
  wpe publish_memtable (fun r e' w' =>
    frame e w e' w' /\ wal_ e' = wal_ e /\ memtable_ e' = memtable_ e /\ cache w' = cache w /\ (io w = [] -> io w' = []) /\
    (io w = [] -> Fault.g_armed (faults w) = false -> r = Ok tt) /\ (r = Crashed -> Fault.g_armed (faults w) = true) /\
    match r with
    | Ok _ => sstables_ e' = sstables_ e ++ [table_of p l] /\ sst_counter_ e' = c + 1 /\
        files w' = <[p := table_bytes l]> (delete (Names.tmp_of p) (files w))
    | Throw _ | Crashed => sstables_ e' = sstables_ e /\ c <= sst_counter_ e' <= c + 1 /\ (io w = [] -> files w' = files w) /\
        forall q, q <> p -> q <> Names.tmp_of p -> files w' !! q = files w !! q
    | Undefined => False
    end) e w.
Proof.
  intros Hm Hent Hz Hc c p. pose proof (mt_rep_sorted _ _ _ Hm) as Hs. assert (table_ok l) as Hok by by apply table_ok_small.
  unfold publish_memtable. apply wpe_bind, wpe_asks. cbn [aftere].
  apply wpe_bind, wpe_lift. rewrite (mt_entries_spec _ _ _ Hm). apply wp_of_option. cbn [aftere].
  apply wpe_bind, wpe_lift, wp_with_faults.
  destruct (hit_cases "flush.before_sst" (faults w)) as [(f & -> & Hf)|[(f & -> & Hf)|(f & -> & Hf)]]; cbn [fst snd aftere].
  2,3: split_and!; (done || lia || (intros; congruence) || (split; try done; intros ?; cbn; congruence)).
  apply wpe_bind, wpe_asks. cbn [aftere]. apply wpe_bind, wpe_asks. cbn [aftere]. fold c p.
  apply wpe_bind, wpe_lift, wp_int_succ; [lia|]. cbn [aftere]. apply wpe_bind, wpe_update. cbn [aftere].
  apply wpe_bind, wpe_lift. eapply wp_mono; [apply SSTable.write_spec|]. intros r w1 H.
  destruct H as [x w1 [O1 O2 O3] Hwhy|r data il Hcs Hb Hq Hr].
  { cbn [aftere]. assert (io w <> []) as Hio.
    { destruct Hwhy as [?|[Hx|Hx]]; [done| |rewrite build_ok in Hx by apply Hok; by destruct Hx].
      apply SSTable.check_sorted_spec in Hs. congruence. }
    split_and!; try done; try (cbn; lia); [split; try done; unfold stays_disarmed; by rewrite O3|]. intros q _ Hq. by apply O1. }
  rewrite build_ok in Hb by apply Hok. injection Hb as <-. cbn [files cache faults set_faults] in *.
  set (m := <[p := table_bytes l]> _). assert (forall q, q <> p -> q <> Names.tmp_of p -> m !! q = files w !! q) as Hm'.
  { intros q H1 H2. unfold m. by rewrite lookup_insert_ne, lookup_delete_ne. }
  destruct r as [[]|x| |]; cbn [aftere]; [|split_and!; try done; try (cbn; lia); intros Hio; by destruct (Hq Hio)|by destruct Hr as [?|[??]]..].
  apply wpe_bind, wpe_lift, SSTable.open_spec; cbn [files cache faults io].
  - intros l2 data Hd Hl2. unfold m in Hd. rewrite lookup_insert_eq in Hd. injection Hd as <-. rewrite load_written by done. cbn [aftere].
    apply wpe_bind, wpe_asks. cbn [aftere]. apply wpe_update. split_and!; try done. intros Hio. by apply Hl2, Hq.
  - intros l2 [Hio|Hn]; [|unfold m in Hn; by rewrite lookup_insert_eq in Hn]. cbn [aftere].
    assert (io w <> []) as Hio' by (intros Hio'; by apply Hio, Hq). split_and!; try done; cbn; lia.
Qed.

Lemma publish_spec e w xs l :
  inv e w xs l -> io w = [] -> flushable e w xs l ->
  let new := (0, sst_counter_ e, l) in
  wpe publish_memtable (fun r e' w' =>
    frame e w e' w' /\ wal_ e' = wal_ e /\ io w' = [] /\ (Fault.g_armed (faults w) = false -> r = Ok tt) /\
    match r with
    | Ok _ => inv e' w' (xs ++ [new]) l /\ room (data_dir_ e') (files w') (xs ++ [new])
    | Throw _ | Crashed => inv e' w' xs l
    | Undefined => False
    end) e w.
Proof.
  intros H Hio [Hc Hz Hn] new. pose proof H as [H1 H2 H3 H4 H5 H6 H7].
  assert (table_ok l) as Hok by by apply table_ok_small.
  eapply wpe_mono; [apply (publish_wpe e w l); (done || lia)|]. intros r e' w' (Hfr & Hw & Hm & Hca & Hi & Ho & _ & Hr).
  split_and!; auto. pose proof (fr_dir _ _ _ _ Hfr) as Hd. pose proof (fr_max _ _ _ _ Hfr) as Hx.
  assert (forall e' w', data_dir_ e' = data_dir_ e -> memtable_max_bytes_ e' = memtable_max_bytes_ e -> memtable_ e' = memtable_ e ->
    cache w' = cache w -> files w' = files w -> sstables_ e' = sstables_ e -> sst_counter_ e <= sst_counter_ e' <= Names.INT_MAX ->
    inv e' w' xs l) as Hsame.
  { intros e1 w1 E1 E2 E3 E4 E5 E6 E7. split; rewrite ?E1, ?E2, ?E3, ?E4, ?E5, ?E6; try done; [lia|].
    intros x Hx1 Hx2. specialize (H7 x Hx1 Hx2). lia. }
  destruct r as [[]|x| |]; [| | |done].
  2,3: destruct Hr as (R1 & R2 & R3 & _); apply Hsame; auto; lia.
  destruct Hr as (R1 & R2 & R3). destruct (stored_snoc (data_dir_ e) (files w) xs (sst_counter_ e) l) as [Hst Hnew]; [done|lia|done|by eapply inv_sorted|done|].
  rewrite R3, Hd. split; [|apply room_snoc; [lia|done]].
  split; rewrite ?Hd, ?Hx, ?Hm, ?Hca, ?R1, ?R2, ?R3; try done; [by rewrite H2, fmap_app| |lia|].
  - apply coherent_add; [done|]. by rewrite (inv_paths _ _ _ _ H).
  - intros x Hx1 Hl. apply elem_of_app in Hx1 as [Hx1|Hx1%list_elem_of_singleton]; [specialize (H7 x Hx1 Hl); lia|subst x; cbn; lia].
Qed.

(** The compactor's step of a flush. *)
Lemma compact_spec e w xs l :
  inv e w xs l -> io w = [] -> room (data_dir_ e) (files w) xs ->
  wpe compact_tables (fun r e' w' =>
    frame e w e' w' /\ wal_ e' = wal_ e /\ (Fault.g_armed (faults w) = false -> r = Ok tt) /\
    match r with
    | Ok _ => io w' = [] /\ exists xs', inv e' w' xs' l /\ same_view xs'.*2 xs.*2
    | Throw _ => io w' = [] /\ inv e' w' xs l
    | Crashed => exists xs', stored (data_dir_ e') (files w') xs' /\ same_view xs'.*2 xs.*2
    | Undefined => False
    end) e w.
Proof.
  intros H Hio Hroom. set (dir := data_dir_ e) in *. pose proof (inv_stored _ _ _ _ H) as Hst.
  unfold compact_tables. do 3 (apply wpe_bind, wpe_asks; cbn [aftere]). fold dir. rewrite (inv_tables _ _ _ _ H). fold dir.
  apply wpe_bind, wpe_lift. eapply wp_mono; [by apply run_store|]. intros r w' (Hend & Hrun & Hok).
  destruct r as [[tables ctr]|x| |]; cbn [aftere]; [| | |done].
  2: { split_and!; [split; try done|done|intros Ha; by destruct (Hok Ha)| |].
       all: inversion Hend as [| |x' q w1 Ha Hf Hc Hi|]; subst; try done. { intros Hd. congruence. }
       destruct H as [H1 H2 H3 H4 H5 H6 H7]. split; try done.
       - by eapply stored_ext.
       - rewrite Hc. by apply coherent_forget. }
  2: { split_and!; [split; try done|done|intros Ha; by destruct (Hok Ha)|done].
       inversion Hend; subst. intros Hd. congruence. }
  apply wpe_bind, wpe_update. cbn [aftere]. apply wpe_update.
  destruct Hrun as (xs' & Hst' & -> & Hv & [(_ & -> & -> & ->)|(_ & Hl0 & -> & _)]).
  { split_and!; [by split|done|done|done|]. exists xs. split; [|done]. destruct H as [H1 H2 H3 H4 H5 H6 H7].
    split; try done; cbn; try lia. unfold dir. by rewrite <- H2. }
  assert (stays_disarmed (faults w) (faults w') /\ io w' = [] /\ coherent (cache w') (layer_table dir <$> xs')) as (Hd & Hi & Hc).
  { inversion Hend as [Hlt|start ps w1 Ho Hf Hc Hi Ha Htab| |]; subst.
    - split_and!; [done|done|].
      match goal with HH : layer_table dir <$> xs = _ |- _ => clear HH end. unfold dir. rewrite <- (inv_tables _ _ _ _ H). apply H.
    - split_and!; [done|done|]. rewrite Hc. pose proof (inv_cache _ _ _ _ H) as Hcoh. rewrite (inv_tables _ _ _ _ H) in Hcoh.
      pose proof (coherent_replace _ _ (layer_table dir <$> xs') Hcoh) as Hr.
      fold dir in Hr. rewrite <- (list_fmap_compose (layer_table dir) path) in Hr. rewrite Htab. apply Hr.
      intros o Ho1 Ho2. apply list_elem_of_fmap in Ho2 as (x & Hx & Hxs). pose proof (st_layers _ _ _ Hst) as Hls.
      rewrite Forall_forall in Hls. destruct (Hls x Hxs) as (_ & _ & _ & _ & Hfx).
      unfold fresh_of in Htab. rewrite <- Htab in Ho1. apply list_elem_of_lookup in Ho1 as [i Hi1].
      rewrite list_lookup_imap in Hi1. destruct (ps !! i) as [q|] eqn:Hq; [|done]. injection Hi1 as <-.
      pose proof (outputs_free _ _ _ _ _ i Ho (lookup_lt_Some _ _ _ Hq)) as Hfree.
      change (fin dir start i = layer_path dir x) in Hx. rewrite Hx in Hfree. fold dir in Hfx. by rewrite Hfree in Hfx. }
  split_and!; [by split|done|done|done|]. exists xs'. split; [|done]. destruct H as [H1 H2 H3 H4 H5 H6 H7].
  split; try done; cbn. intros x Hx Hl.
  assert (x ∈ l0 xs') as Hin by (apply list_elem_of_In, filter_In; split; [by apply list_elem_of_In|unfold at_level; by rewrite Hl]).
  rewrite Hl0 in Hin. by apply not_elem_of_nil in Hin.
Qed.

(** What the memtable and a table can hold of a record. *)
Definition record_ok (x : WAL.Entry) : Prop := entry_ok (WAL.key x, record_value x).

(** Whatever is read back after the process dies now is in [V]; the log has grown
    to [N] bytes at most. *)
Definition settled (V : str -> option str -> Prop) (N : Z) e w : Prop :=
  exists xs s p, stored (data_dir_ e) (files w) xs /\ log_left (wal_ e) s p /\ Forall record_ok (s ++ p) /\
    log_size (wal_ e) <= N /\ forall p' k, p' `sublist_of` p -> V k (view xs (mem_of (s ++ p')) k).

Lemma settled_size V N N' e w : settled V N e w -> N <= N' -> log_size (wal_ e) <= N'.
Proof. intros (xs & s & p & _ & _ & _ & H & _) ?. lia. Qed.

Lemma settled_view (V : str -> option str -> Prop) N e w xs xs' l s p :
  stored (data_dir_ e) (files w) xs' -> log_left (wal_ e) s p -> Forall record_ok (s ++ p) -> log_size (wal_ e) <= N ->
  (forall k, view xs' l k = view xs l k) -> same_view xs'.*2 xs.*2 \/ (forall k, view xs' [] k = view xs l k) ->
  (forall k, V k (view xs l k)) -> (forall p' k, p' `sublist_of` p -> V k (view xs (mem_of (s ++ p')) k)) ->
  settled V N e w.
Proof.
  intros Hst Hl Hok Hn Hxl Hx HV HVp. exists xs', s, p. split_and!; try done. intros p' k Hp.
  destruct Hx as [Hx|Hx]; [by rewrite (view_same xs xs'); [apply HVp|]|].
  specialize (HVp p' k Hp). rewrite view_lookup in HVp |- *. destruct (alookup k _); [done|].
  specialize (Hx k). rewrite view_empty in Hx. by rewrite Hx.
Qed.

(** *** A flush of a log *)

Section flush.
Context (b : bool) (V : str -> option str -> Prop) (xs0 : list layer) (l : list entry) (s p : list WAL.Entry).
Hypothesis HV : forall k, V k (view xs0 l k).
Hypothesis HVp : forall p' k, p' `sublist_of` p -> V k (view xs0 (mem_of (s ++ p')) k).
Hypothesis Hrecords : Forall record_ok (s ++ p).

(** The state once the tables hold everything and the log is empty. *)
Definition flushed (x0 : W) e w : Prop :=
  io w = [] /\ log_rep b (wal_ e) [] [] /\ log_size (wal_ e) = 0 /\
  (forall t n, log_covers b x0 s p t n -> log_passed (wal_ e) t) /\
  exists xs, inv e w xs [] /\ forall k, view xs [] k = view xs0 l k.

(** The state after an exception: the contents are the same. *)
Definition aborted (N : Z) e w : Prop :=
  io w = [] /\ settled V N e w /\ exists xs l', inv e w xs l' /\ forall k, view xs l' k = view xs0 l k.

Definition flush_ends (x0 : W) (r : result unit) e w : Prop :=
  match r with
  | Ok _ => flushed x0 e w
  | Throw _ => aborted (log_size x0) e w
  | Crashed => settled V (log_size x0) e w
  | Undefined => False
  end.

Lemma settled_empty N e w xs :
  stored (data_dir_ e) (files w) xs -> log_left (wal_ e) [] [] -> log_size (wal_ e) <= N ->
  (forall k, view xs [] k = view xs0 l k) -> settled V N e w.
Proof.
  intros Hst Hl Hn Hx. exists xs, [], []. split_and!; try done. intros p' k Hp%sublist_nil_r. subst p'.
  change (mem_of ([] ++ [])) with (@nil entry). by rewrite Hx.
Qed.

Lemma flushed_settled x0 e w N : flushed x0 e w -> 0 <= N -> settled V N e w.
Proof.
  intros (_ & Hl & Hn & _ & xs & Hinv & Hx) HN. apply (settled_empty _ _ _ xs); try done; [apply Hinv|by eapply log_rep_left|lia].
Qed.

Lemma reset_spec e w xs :
  inv e w xs l -> io w = [] -> log_rep b (wal_ e) s p -> (b = true -> Fault.g_armed (faults w) = false) ->
  0 <= log_size (wal_ e) -> (forall k, view xs l k = view xs0 l k) -> (forall k, view xs [] k = view xs0 l k) ->
  wpe reset_log (fun r e' w' =>
    frame e w e' w' /\ files w' = files w /\ (b = true -> r = Ok tt) /\ flush_ends (wal_ e) r e' w' /\
    (r = Ok tt -> inv e' w' xs [])) e w.
Proof.
  intros H Hio Hlog Hb HN Hxl Hx0. pose proof (inv_stored _ _ _ _ H) as Hst.
  assert (forall f x s' p', log_left x s' p' -> (s' = s /\ p' = p \/ s' = [] /\ p' = []) -> log_size x <= log_size (wal_ e) ->
            settled V (log_size (wal_ e)) (set_wal x e) (set_faults f w)) as Hset.
  { intros f x s' p' Hl [[-> ->]|[-> ->]] Hn; [|by apply (settled_empty _ _ _ xs)].
    apply (settled_view _ _ _ _ xs0 xs l s p); try done. by right. }
  unfold reset_log. apply wpe_bind, wpe_hit. intros r f Hf Hd Hu.
  assert (settled V (log_size (wal_ e)) e (set_faults f w)) as Hs1.
  { replace e with (set_wal (wal_ e) e) by by destruct e. apply (Hset _ _ s p); [by eapply log_rep_left|by left|done]. }
  destruct r as [[]|x| |]; cbn [aftere]; [| | |done].
  2: { split_and!; [by split|done|intros Hb'; by apply Hd, Hb| |done]. split_and!; [done|done|].
       exists xs, l. split; [by apply inv_faults|done]. }
  2: { split_and!; [by split|done|intros Hb'; by apply Hd, Hb|done|done]. }
  apply wpe_bind. unfold wpe at 1, log_op. cbn [faults set_faults].
  pose proof (log_clear_spec b (wal_ e) f s p Hlog ltac:(auto)) as Hcl.
  destruct (log_clear (wal_ e) f) as [[r x] f']. destruct Hcl as (Hf' & Hdu & Hbr & Hr). cbn [fst snd].
  assert (stays_disarmed (faults w) f') as Hf2 by (by etrans).
  destruct r as [[]|q| |]; cbn [aftere]; [| |done|done].
  2: { destruct Hr as [Hn Hr]. split_and!; [by split|done|intros Hb'; discriminate (Hbr Hb')| |done].
       split_and!; [done| |exists xs, l; split; [by apply inv_faults, inv_wal, inv_faults|done]].
       change (set_faults f' (set_faults f w)) with (set_faults f' w). destruct Hr as [Hr|Hr]; eapply Hset; eauto. }
  destruct Hr as (Hl0 & Hn0 & Hpass).
  apply wpe_bind, wpe_asks. cbn [aftere]. apply wpe_bind, wpe_asks. cbn [aftere].
  apply wpe_bind, wpe_update. cbn [aftere]. apply wpe_hit. intros r2 f2 Hf3 Hd2 Hu2.
  cbn [faults set_faults] in Hf3, Hd2. cbn [memtable_max_bytes_ set_wal].
  set (e' := set_memtable _ _ _). set (w' := set_faults f2 _).
  assert (inv e' w' xs []) as Hinv.
  { destruct H as [H1 H2 H3 H4 H5 H6 H7]. split; try done. apply mt_create_spec. }
  assert (flushed (wal_ e) e' w') as Hfl by (split_and!; try done; by exists xs).
  split_and!; [split; try done; by transitivity f'|done|intros Hb'; by apply Hd2, Hf2, Hb| |done].
  assert (settled V (log_size (wal_ e)) e' w') as Hs2 by by eapply flushed_settled.
  destruct r2 as [[]|y| |]; [done| |done|done]. split_and!; [done|done|]. by exists xs, [].
Qed.

Lemma frame_trans e0 w0 e1 w1 e2 w2 : frame e0 w0 e1 w1 -> frame e1 w1 e2 w2 -> frame e0 w0 e2 w2.
Proof. intros [A1 A2 A3 A4] [B1 B2 B3 B4]. split; [congruence..|by transitivity (faults w1)]. Qed.

Lemma compact_flushed x0 e w xs :
  inv e w xs [] -> flushed x0 e w -> (forall k, view xs [] k = view xs0 l k) -> room (data_dir_ e) (files w) xs -> 0 <= log_size x0 ->
  (b = true -> Fault.g_armed (faults w) = false) ->
  wpe compact_tables (fun r e' w' => frame e w e' w' /\ (b = true -> r = Ok tt) /\ flush_ends x0 r e' w') e w.
Proof.
  intros H (Hio & Hlog & Hn & Hp & _) Hx Hroom HN Hb.
  eapply wpe_mono; [by apply compact_spec|]. intros r e' w' (Hfr & Hw & Hok & Hr).
  split; [done|]. split; [auto|]. pose proof (log_rep_left _ _ _ _ Hlog) as Hleft.
  assert (forall xs', stored (data_dir_ e') (files w') xs' -> same_view xs'.*2 xs.*2 -> settled V (log_size x0) e' w') as Hset.
  { intros xs' Hst Hv. apply (settled_empty _ _ _ xs'); [done|by rewrite Hw|rewrite Hw; lia|].
    intros k. by rewrite (view_same xs xs'). }
  destruct r as [[]|x| |]; cbn [flush_ends]; [| | |done].
  - destruct Hr as (Hio' & xs' & Hinv & Hv). split_and!; [done|by rewrite Hw..|]. exists xs'. split; [done|].
    intros k. by rewrite (view_same xs xs').
  - destruct Hr as (Hio' & Hinv). split_and!; [done|by apply (Hset xs); [apply Hinv|]|]. by exists xs, [].
  - destruct Hr as (xs' & ? & ?). by apply (Hset xs').
Qed.

Lemma flushMemtable_spec e w :
  inv e w xs0 l -> io w = [] -> flushable e w xs0 l -> log_rep b (wal_ e) s p -> 0 <= log_size (wal_ e) ->
  (b = true -> Fault.g_armed (faults w) = false) ->
  wpe flushMemtable (fun r e' w' => frame e w e' w' /\ (b = true -> r = Ok tt) /\
    (l = [] /\ r = Ok tt /\ e' = e /\ w' = w \/ flush_ends (wal_ e) r e' w')) e w.
Proof.
  intros H Hio Hfl Hlog HN Hb. unfold flushMemtable. apply wpe_bind, wpe_asks. cbn [aftere].
  rewrite (mt_size_spec _ _ _ (inv_mem _ _ _ _ H)). destruct (Z.eqb_spec (u64 (zlen l)) 0) as [Hz|_].
  { apply wpe_ret. split; [by split|]. split; [done|]. left. pose proof (fl_entries _ _ _ _ Hfl).
    unfold u64 in Hz. rewrite Z.mod_small in Hz by lia. split_and!; [by destruct l|done..]. }
  set (new := (0, sst_counter_ e, l)).
  assert (forall k, view (xs0 ++ [new]) [] k = view xs0 l k) as Hx0.
  { intros k. unfold view at 2. by rewrite view_empty, fmap_app. }
  apply wpe_bind. eapply wpe_mono; [by apply publish_spec|]. fold new.
  intros r e1 w1 (Hfr1 & Hw1 & Hio1 & Hok1 & Hr1). rewrite <- Hw1 in Hlog, HN |- *.
  assert (forall e1, inv e1 w1 xs0 l -> wal_ e1 = wal_ e -> settled V (log_size (wal_ e)) e1 w1) as Hset.
  { intros e2 Hi He. apply (settled_view _ _ _ _ xs0 xs0 l s p); try done; [apply Hi|rewrite He, <- Hw1; by eapply log_rep_left|by rewrite He|by left]. }
  destruct r as [[]|x| |]; cbn [aftere]; [| | |done].
  2: { split; [done|]. split; [auto|]. right. split_and!; [done|rewrite Hw1; by apply Hset|by exists xs0, l]. }
  2: { split; [done|]. split; [auto|]. right. cbn [flush_ends]. rewrite Hw1. by apply Hset. }
  destruct Hr1 as [Hinv1 Hroom].
  assert (b = true -> Fault.g_armed (faults w1) = false) as Hb1 by (intros Hb'; apply Hfr1; auto).
  apply wpe_bind. eapply wpe_mono; [apply (reset_spec e1 w1 (xs0 ++ [new])); try done; intros k; by apply view_flushed|].
  intros r e2 w2 (Hfr2 & Hf2 & Hok2 & Hr2 & Hinv2). pose proof (frame_trans _ _ _ _ _ _ Hfr1 Hfr2) as Hfr.
  destruct r as [[]|x| |]; cbn [aftere]; [|by split_and!; auto..].
  eapply wpe_mono; [apply (compact_flushed (wal_ e1) e2 w2 (xs0 ++ [new])); try done|].
  - by apply Hinv2.
  - rewrite Hf2, (fr_dir _ _ _ _ Hfr2). done.
  - intros Hb'. apply Hfr2. auto.
  - intros r e3 w3 (Hfr3 & Hok3 & Hr3). split; [by eapply frame_trans|]. split; [done|by right].
Qed.

End flush.

(** ** Writes *)

(** An engine in use: the memtable holds what the log does. *)
Record running (b : bool) e w xs l s p : Prop := {
  rn_inv : inv e w xs l;
  rn_io : io w = [];
  rn_log : log_rep b (wal_ e) s p;
  rn_size : 0 <= log_size (wal_ e);
  rn_records : Forall record_ok (s ++ p);
  rn_mem : l = mem_of (s ++ p)
}.

(** Nothing in the memtable, nothing in the log. *)
Lemma running_empty b e w xs s p : running b e w xs [] s p -> s = [] /\ p = [].
Proof. intros Hrun. by apply app_eq_nil, mem_of_nil, eq_sym, (rn_mem _ _ _ _ _ _ _ Hrun). Qed.

Lemma running_settled b e w xs l s p : running b e w xs l s p -> settled (may xs s p) (log_size (wal_ e)) e w.
Proof.
  intros [H _ Hlog _ Hr _]. exists xs, s, p. split_and!; try done; [apply H|by eapply log_rep_left|].
  intros p' k Hp. by apply may_log.
Qed.

Lemma settled_mono (V V' : str -> option str -> Prop) N N' e w :
  settled V N e w -> (forall k v, V k v -> V' k v) -> N <= N' -> settled V' N' e w.
Proof. intros (xs & s & p & H1 & H2 & H3 & H4 & H5) HV HN. exists xs, s, p. split_and!; try done; [lia|auto]. Qed.

(** Room for one more record [x] and a flush after it. *)
Record writable b e w xs l (x : WAL.Entry) : Prop := {
  wt_loggable : loggable b (WAL.key x) (WAL.value x);
  wt_value : WAL.type x = WAL.DEL -> WAL.value x = [];
  wt_size : log_size (wal_ e) + record_bytes x <= 2 ^ 63;
  wt_flushable : flushable e w xs (apply_record l x)
}.

(** The state an exception of a write leaves: the old contents or the new. *)
Definition write_aborted (V : str -> option str -> Prop) (N : Z) xs l x e w : Prop :=
  io w = [] /\ settled V N e w /\ exists xs' l', inv e w xs' l' /\
    ((forall k, view xs' l' k = view xs l k) \/ (forall k, view xs' l' k = upd x (view xs l) k)).

Lemma loggable_record_ok b x : loggable b (WAL.key x) (WAL.value x) -> record_ok x.
Proof.
  intros Hl. assert (record_bytes (WAL.mkEntry WAL.PUT (WAL.key x) (WAL.value x)) <= Kernel.MAX_RW_COUNT) as Hmax.
  { pose proof log_whole_max. unfold loggable, fits, Kernel.write_limit in Hl. destruct b; lia. }
  revert Hmax. unfold record_bytes, record_ok, entry_ok. cbn [WAL.key WAL.value fst snd].
  pose proof (WAL.align512_bounds (WAL.record_size (zlen (WAL.key x)) (zlen (WAL.value x)))).
  unfold WAL.record_size, Kernel.MAX_RW_COUNT, UINT32_MAX, record_value in *.
  destruct (WAL.type x); cbn [default]; intros; simpl; lia.
Qed.

Lemma inv_mem_op e w xs l m g l' :
  inv e w xs l -> mt_rep m (memtable_max_bytes_ e) l' -> Forall entry_ok l' -> inv (set_memtable m g e) w xs l'.
Proof. intros [] ? ?. by split. Qed.

Section write.
Context (b : bool) (ty : WAL.Type_) (k v : str) (mem : Rng -> Mt -> option (Rng * Mt)).
Let x : WAL.Entry := WAL.mkEntry ty k v.
Hypothesis Hmem : forall g m max l, mt_rep m max l ->
  exists g' m', mem g m = Some (g', m') /\ mt_rep m' max (apply_record l x).

(** The memtable's part, once the record is in the log. *)
Lemma mem_op_spec e w xs l (Q : result unit -> eng -> world -> Prop) :
  inv e w xs l -> record_ok x ->
  (forall e', inv e' w xs (apply_record l x) -> frame e w e' w -> wal_ e' = wal_ e -> sst_counter_ e' = sst_counter_ e ->
     Q (Ok tt) e' w) ->
  wpe (mem_op mem) Q e w.
Proof.
  intros H Hok HQ. destruct (Hmem (rng e) _ _ _ (inv_mem _ _ _ _ H)) as (g & m & Hm & Hrep).
  unfold wpe, mem_op. rewrite Hm. apply HQ; try done. apply inv_mem_op with (l := l); try done.
  apply ainsert_Forall; [done|apply H].
Qed.

(** What [write_locked] leaves for the wait: the ticket stands for the whole log,
    or the log has been flushed away. *)
Definition appended_ticket e w xs l s p (r : result log_ticket) e' w' : Prop :=
  match r with
  | Ok t => exists xs' l' s' p', running b e' w' xs' l' s' p' /\
      (forall k', view xs' l' k' = upd x (view xs l) k') /\
      (s' = s /\ p' = p ++ [x] /\ xs' = xs /\ log_covers b (wal_ e') s' p' t (length (s' ++ p')) \/
       s' = [] /\ p' = [] /\ log_passed (wal_ e') t)
  | Throw _ => write_aborted (may xs s (p ++ [x])) (log_size (wal_ e) + record_bytes x) xs l x e' w'
  | Crashed => settled (may xs s (p ++ [x])) (log_size (wal_ e) + record_bytes x) e' w'
  | Undefined => False
  end.

Lemma write_locked_spec e w xs l s p :
  running b e w xs l s p -> (b = true -> Fault.g_armed (faults w) = false) -> writable b e w xs l x ->
  wpe (write_locked ty k v mem) (fun r e' w' =>
    frame e w e' w' /\ (b = true -> exists t, r = Ok t) /\ log_size (wal_ e') <= log_size (wal_ e) + record_bytes x /\
    appended_ticket e w xs l s p r e' w') e w.
Proof.
  intros [H Hio Hlog HN Hrec Hmem'] Hb [Hlg _ Hsz Hfl]. unfold write_locked.
  set (N := log_size (wal_ e) + record_bytes x) in *. set (V := may xs s (p ++ [x])).
  assert (record_ok x) as Hx by by eapply loggable_record_ok.
  assert (Forall record_ok (s ++ p ++ [x])) as Hrec' by (rewrite app_assoc; apply Forall_app; auto).
  assert (apply_record l x = mem_of (s ++ p ++ [x])) as Hl' by by rewrite app_assoc, mem_of_app, <- Hmem'.
  apply wpe_bind. unfold wpe at 1, log_op.
  pose proof (log_append_spec b ty k v (wal_ e) (faults w) s p Hlog Hb Hlg Hsz) as Ha. cbv zeta in Ha. fold x N in Ha.
  destruct (log_append ty k v (wal_ e) (faults w)) as [[r y] f]. destruct Ha as (Hf & Hdu & Hn & Hbr & Hr). cbn [fst snd].
  assert (frame e w (set_wal y e) (set_faults f w)) as Hfr by by split.
  assert (r <> Undefined /\ (forall t, r <> Ok t) -> settled V N (set_wal y e) (set_faults f w)) as Hset.
  { intros [Hu Ho]. assert (log_rep b y s p \/ log_rep b y s (p ++ [x])) as Hr' by (destruct r; [by destruct (Ho a)|done..]).
    destruct Hr' as [Hr'|Hr'].
    - exists xs, s, p. split_and!; [apply H|by eapply log_rep_left|done|cbn; lia|]. intros p' k' Hp. by apply may_snoc, may_log.
    - exists xs, s, (p ++ [x]). split_and!; [apply H|by eapply log_rep_left|done|cbn; lia|]. intros p' k' Hp. by apply may_log. }
  destruct r as [t|q| |]; cbn [aftere]; [| | |done].
  2: { split_and!; [done|done|cbn; lia|]. split_and!; [done|by apply Hset|]. exists xs, l. split; [by apply inv_faults, inv_wal|by left]. }
  2: { split_and!; [done|done|cbn; lia|]. by apply Hset. }
  apply wpe_bind, (mem_op_spec _ _ xs l); [by apply inv_faults, inv_wal|done|]. intros e1 H1 Hfr1 Hw1 Hc1. cbn [aftere].
  apply wpe_bind, wpe_asks. cbn [aftere]. set (l' := apply_record l x) in *.
  pose proof (frame_trans _ _ _ _ _ _ Hfr Hfr1) as Hfr2. cbn [wal_ set_wal] in Hw1.
  assert (b = true -> Fault.g_armed f = false) as Hb1 by auto.
  assert (running b e1 (set_faults f w) xs l' s (p ++ [x])) as Hrun.
  { split; try done; rewrite Hw1; [by eapply log_covers_rep|lia]. }
  assert (forall k', view xs l' k' = upd x (view xs l) k') as Hupd by (intros k'; apply view_apply).
  assert (appended_ticket e w xs l s p (Ok t) e1 (set_faults f w)) as Hkeep.
  { exists xs, l', s, (p ++ [x]). split_and!; [done|done|left]. rewrite Hw1. by split_and!. }
  assert (log_size (wal_ e1) <= N) as HN1 by (rewrite Hw1; lia).
  apply wpe_bind. destruct (mt_isFull (memtable_ e1)).
  2: { apply wpe_ret. cbn [aftere]. apply wpe_ret. split_and!; [done|by eexists|done|done]. }
  eapply wpe_mono; [apply (flushMemtable_spec b V xs l' s (p ++ [x])); try done|].
  - intros k'. rewrite Hl'. apply may_now.
  - intros p' k' Hp. by apply may_log.
  - destruct Hfl as [F1 F2 F3]. split; [by rewrite Hc1|done|]. rewrite (fr_dir _ _ _ _ Hfr2). exact F3.
  - apply Hrun.
  - apply Hrun.
  - intros r e2 w2 (Hfr3 & Hb2 & Hr2). pose proof (frame_trans _ _ _ _ _ _ Hfr2 Hfr3) as Hfr4.
    destruct Hr2 as [(_ & -> & -> & ->)|Hr2]; [apply wpe_ret; split_and!; [done|by eexists|done|done]|].
    destruct r as [[]|q| |]; cbn [aftere flush_ends] in *; [| | |done].
    + destruct Hr2 as (Hio2 & Hl2 & Hn2 & Hp2 & xs2 & Hinv2 & Hv2). apply wpe_ret.
      split_and!; [done|by eexists|rewrite Hn2; lia|].
      exists xs2, [], [], []. split_and!; [split; try done; lia|intros k'; by rewrite Hv2|].
      right. split_and!; [done|done|]. eapply Hp2. by rewrite Hw1.
    + destruct Hr2 as (Hio2 & Hs2 & xs2 & l2 & Hinv2 & Hv2). split_and!; [done|intros Hb'; discriminate (Hb2 Hb')|by eapply settled_size|].
      split_and!; [done|by eapply settled_mono|]. exists xs2, l2. split; [done|right]. intros k'. by rewrite Hv2.
    + split_and!; [done|intros Hb'; discriminate (Hb2 Hb')|by eapply settled_size|]. by eapply settled_mono.
Qed.

(** How [put] and [del] end. *)
Definition write_ends e w xs l s p (r : result unit) e' w' : Prop :=
  match r with
  | Ok _ => log_size (wal_ e') <= log_size (wal_ e) + record_bytes x /\
      exists xs' l' s' p', running b e' w' xs' l' s' p' /\ (forall k', view xs' l' k' = upd x (view xs l) k') /\
        (log_durable (wal_ e) = true -> p' = []) /\ later xs s (p ++ [x]) xs' s' p'
  | Throw _ => write_aborted (may xs s (p ++ [x])) (log_size (wal_ e) + record_bytes x) xs l x e' w'
  | Crashed => settled (may xs s (p ++ [x])) (log_size (wal_ e) + record_bytes x) e' w'
  | Undefined => False
  end.

Lemma running_log e w xs l s p y f s' p' :
  running b e w xs l s p -> log_rep b y s' p' -> log_size y = log_size (wal_ e) -> s ++ p = s' ++ p' ->
  running b (set_wal y e) (set_faults f w) xs l s' p'.
Proof.
  intros [H1 H2 H3 H4 H5 H6] Hl Hn He. split; try done; [by apply inv_faults, inv_wal|cbn; lia|by rewrite <- He..].
Qed.

(** The wait for a ticket that stands for the whole log. *)
Lemma await_spec e w xs l s p t :
  running b e w xs l s p -> log_covers b (wal_ e) s p t (length (s ++ p)) ->
  (b = true -> Fault.g_armed (faults w) = false) ->
  wpe (log_op (log_waitDurable t)) (fun r e' w' =>
    frame e w e' w' /\ (b = true -> r = Ok tt) /\ log_size (wal_ e') = log_size (wal_ e) /\
    match r with
    | Ok _ => running b e' w' xs l (s ++ p) []
    | Throw _ => settled (may xs s p) (log_size (wal_ e)) e' w' /\ io w' = [] /\ inv e' w' xs l
    | Crashed => settled (may xs s p) (log_size (wal_ e)) e' w'
    | Undefined => False
    end) e w.
Proof.
  intros Hrun Hcov Hb. unfold wpe, log_op.
  pose proof (log_waitDurable_spec b t (wal_ e) (faults w) s p _ Hcov Hb) as Hw.
  destruct (log_waitDurable t (wal_ e) (faults w)) as [[r y] f].
  destruct Hw as (Hf & Hdu & Hn & Hbr & s' & p' & He & Hl & Hr). cbn [fst snd].
  assert (forall k' v', may xs s' p' k' v' -> may xs s p k' v') as Hmay by (intros ? ?; by apply may_durable).
  split_and!; [by split|done|done|]. destruct r as [[]|q| |]; [| | |done].
  - destruct Hr as [Hr Hlen]. assert (p' = []) as ->.
    { apply (f_equal length) in He. rewrite !length_app in *. apply nil_length_inv. lia. }
    rewrite app_nil_r in He. subst s'. eapply running_log; [done..|]. by rewrite app_nil_r.
  - pose proof (running_log _ _ _ _ _ _ y f s' p' Hrun Hr Hn He) as Hrun'. split_and!; [|apply Hrun'..].
    eapply settled_mono; [by eapply running_settled|done|cbn; lia].
  - exists xs, s', p'. split_and!; [apply Hrun|done|rewrite <- He; apply Hrun|cbn; lia|].
    intros p2 k' Hp. by apply Hmay, may_log.
Qed.

Lemma logged_write_spec e w xs l s p :
  running b e w xs l s p -> (b = true -> Fault.g_armed (faults w) = false) -> writable b e w xs l x ->
  wpe (ticket ← write_locked ty k v mem; await ticket) (fun r e' w' =>
    frame e w e' w' /\ (b = true -> r = Ok tt) /\ write_ends e w xs l s p r e' w') e w.
Proof.
  intros Hrun Hb Hw. apply wpe_bind. eapply wpe_mono; [by apply write_locked_spec|].
  intros r e1 w1 (Hfr & Hok & Hn & Hr). destruct r as [t|q| |]; cbn [aftere appended_ticket] in *; [| | |done].
  2,3: split_and!; [done|intros Hb'; by destruct (Hok Hb')|done].
  destruct Hr as (xs1 & l1 & s1 & p1 & Hrun1 & Hupd & Hcase).
  unfold await. apply wpe_bind, wpe_asks. cbn [aftere]. rewrite (fr_durable _ _ _ _ Hfr).
  destruct (log_durable (wal_ e)) eqn:Hd.
  2: { apply wpe_ret. split_and!; [done|done|]. split; [done|]. exists xs1, l1, s1, p1. rewrite Hd. split_and!; [done..|].
       destruct Hcase as [(-> & -> & -> & _)|(-> & -> & _)]; [right; split_and!; [done|done|lia]|by left]. }
  assert (b = true -> Fault.g_armed (faults w1) = false) as Hb1 by (intros Hb'; apply Hfr; auto).
  destruct Hcase as [(-> & -> & -> & Hcov)|(-> & -> & Hp)].
  - eapply wpe_mono; [by apply await_spec|]. intros r e2 w2 (Hfr2 & Hok2 & Hn2 & Hr2).
    split; [by eapply frame_trans|]. split; [done|]. destruct r as [[]|q| |]; cbn [write_ends]; [| | |done].
    + split; [by rewrite Hn2|]. exists xs, l1, (s ++ p ++ [x]), []. split_and!; [done..|].
      right. rewrite app_nil_r, length_app. split_and!; [done|done|lia].
    + destruct Hr2 as (Hs2 & Hio2 & Hinv2). split_and!; [done|by eapply settled_mono|]. exists xs, l1. split; [done|by right].
    + by eapply settled_mono.
  - unfold wpe, log_op. rewrite (log_passed_spec b t (wal_ e1) (faults w1) [] [] (rn_log _ _ _ _ _ _ _ Hrun1) Hp). cbn [fst snd].
    assert (set_faults (faults w1) w1 = w1 /\ set_wal (wal_ e1) e1 = e1) as [-> ->] by (by destruct w1, e1).
    split_and!; [done|done|]. split; [done|]. exists xs1, l1, [], []. split_and!; [done..|by left].
Qed.

End write.

Lemma put_spec b e w xs l s p k v :
  running b e w xs l s p -> (b = true -> Fault.g_armed (faults w) = false) -> writable b e w xs l (WAL.mkEntry WAL.PUT k v) ->
  wpe (put k v) (fun r e' w' => frame e w e' w' /\ (b = true -> r = Ok tt) /\
    write_ends b WAL.PUT k v e w xs l s p r e' w') e w.
Proof. apply logged_write_spec. intros g m max l' Hm. apply (mt_put_spec m max l' k v g Hm). Qed.

Lemma del_spec b e w xs l s p k :
  running b e w xs l s p -> (b = true -> Fault.g_armed (faults w) = false) -> writable b e w xs l (WAL.mkEntry WAL.DEL k []) ->
  wpe (del k) (fun r e' w' => frame e w e' w' /\ (b = true -> r = Ok tt) /\
    write_ends b WAL.DEL k [] e w xs l s p r e' w') e w.
Proof. apply logged_write_spec. intros g m max l' Hm. apply (mt_del_spec m max l' k g Hm). Qed.

(** ** Flush, sync, close *)

Lemma flush_same e w : flush e w = flushMemtable e w.
Proof.
  change (flush e w) with ((if mt_size (memtable_ e) =? 0 then mret tt else flushMemtable) e w).
  assert (flushMemtable e w = (if mt_size (memtable_ e) =? 0 then mret tt else publish_memtable ;; reset_log ;; compact_tables) e w)
    as Hf by done.
  destruct (mt_size (memtable_ e) =? 0); [by rewrite Hf|done].
Qed.

Lemma flush_spec b e w xs l s p :
  running b e w xs l s p -> (b = true -> Fault.g_armed (faults w) = false) -> flushable e w xs l ->
  wpe flush (fun r e' w' => frame e w e' w' /\ (b = true -> r = Ok tt) /\
    match r with
    | Ok _ => log_size (wal_ e') <= log_size (wal_ e) /\ exists xs' l' s' p', running b e' w' xs' l' s' p' /\
        (forall k, view xs' l' k = view xs l k) /\ s' = [] /\ p' = []
    | Throw _ => aborted (may xs s p) xs l (log_size (wal_ e)) e' w'
    | Crashed => settled (may xs s p) (log_size (wal_ e)) e' w'
    | Undefined => False
    end) e w.
Proof.
  intros Hrun Hb Hfl. pose proof Hrun as [H Hio Hlog HN Hrec Hmem].
  unfold wpe. rewrite flush_same. eapply (wpe_mono flushMemtable); [apply (flushMemtable_spec b (may xs s p) xs l s p); try done|].
  - intros k. rewrite Hmem. apply may_now.
  - intros p' k Hp. by apply may_log.
  - intros r e' w' (Hfr & Hok & [(-> & -> & -> & ->)|Hr]); (split; [done|]); (split; [done|]).
    + destruct (running_empty _ _ _ _ _ _ Hrun) as [-> ->]. split; [done|]. by exists xs, [], [], [].
    + destruct r as [[]|q| |]; try done. destruct Hr as (Hio' & Hl' & Hn' & _ & xs' & Hinv' & Hv').
      split; [rewrite Hn'; exact HN|]. exists xs', [], [], []. split_and!; [split; try done; lia|done..].
Qed.

Lemma sync_spec b e w xs l s p :
  running b e w xs l s p -> (b = true -> Fault.g_armed (faults w) = false) ->
  wpe sync (fun r e' w' => frame e w e' w' /\ (b = true -> r = Ok tt) /\
    match r with
    | Ok _ => running b e' w' xs l (s ++ p) []
    | Throw _ | Crashed => settled (may xs s p) (log_size (wal_ e)) e' w' /\ io w' = [] /\ inv e' w' xs l
    | Undefined => False
    end) e w.
Proof.
  intros Hrun Hb. unfold sync, wpe, log_op.
  pose proof (log_sync_spec b (wal_ e) (faults w) s p (rn_log _ _ _ _ _ _ _ Hrun) Hb) as Hs.
  destruct (log_sync (wal_ e) (faults w)) as [[r y] f]. destruct Hs as (Hf & Hdu & Hn & Hbr & Hr). cbn [fst snd].
  split_and!; [by split|done|]. destruct r as [[]|q| |]; [| | |done].
  - eapply running_log; [done..|]. by rewrite app_nil_r.
  - destruct Hr as (s' & p' & He & Hl & Hr). split_and!; [|apply Hrun|by apply inv_faults, inv_wal, Hrun].
    exists xs, s', p'. split_and!; [apply Hrun|done|rewrite <- He; apply Hrun|cbn; lia|].
    intros p2 k' Hp. by eapply may_durable, may_log.
  - destruct Hr as (s' & p' & He & Hl & Hr). split_and!; [|apply Hrun|by apply inv_faults, inv_wal, Hrun].
    exists xs, s', p'. split_and!; [apply Hrun|done|rewrite <- He; apply Hrun|cbn; lia|].
    intros p2 k' Hp. by eapply may_durable, may_log.
Qed.
End spec.

End EngineWrite.
