(* ===== verification/EngineRecovery.v ===== *)
(** * The engine: closing, restarting, and the life of a store

    What the destructor leaves and what the constructor makes of a directory and
    a log; with [EngineWrite], what survives a crash of a running engine. *)

From stdpp Require Import sorting.
From S2P Require Import Prelude WalFormat Kernel Bloom BlockCache Fault Memtable World Names TableFormat SSTable Layers Compaction CompactionSpec CompactionRun Store Scan Replay LogSpec Engine EngineSpec EngineWrite.
Open Scope Z_scope.

Module EngineRecovery.
Import TableFormat Layers CompactionSpec CompactionRun Store Replay Engine EngineSpec EngineWrite.

(** ** The order in which tables are loaded *)

Definition file_of (dir : str) (x : layer) : SSTFile := mkSSTFile (layer_path dir x) x.1.1 x.1.2.

Definition not_after (a b : SSTFile) : Prop := loads_before b a = false.

Lemma not_after_trans a b c : not_after a b -> not_after b c -> not_after a c.
Proof.
  unfold not_after, loads_before. intros H1 H2.
  destruct (Z.eqb_spec (f_level b) (f_level a)), (Z.eqb_spec (f_level c) (f_level b)), (Z.eqb_spec (f_level c) (f_level a)); lia.
Qed.

Lemma loads_before_not_after a b : loads_before a b = true -> not_after a b.
Proof.
  unfold not_after, loads_before. intros H.
  destruct (Z.eqb_spec (f_level a) (f_level b)), (Z.eqb_spec (f_level b) (f_level a)); lia.
Qed.

Lemma insert_file_perm a l : insert_file a l ≡ₚ a :: l.
Proof.
  induction l as [|b l IH]; [done|]. cbn [insert_file]. destruct (loads_before a b); [done|]. rewrite IH. apply Permutation_swap.
Qed.

Lemma sort_files_perm l : sort_files l ≡ₚ l.
Proof. induction l as [|a l IH]; [done|]. change (insert_file a (sort_files l) ≡ₚ a :: l). by rewrite insert_file_perm, IH. Qed.

Lemma insert_file_sorted a l : StronglySorted not_after l -> StronglySorted not_after (insert_file a l).
Proof.
  induction 1 as [|b l Hl IH Hb]; [repeat constructor|]. cbn [insert_file].
  destruct (loads_before a b) eqn:E.
  - apply loads_before_not_after in E. constructor; [by constructor|]. constructor; [done|].
    eapply Forall_impl; [exact Hb|]. intros c. by apply not_after_trans.
  - constructor; [done|]. apply Forall_forall. intros c Hc. rewrite insert_file_perm in Hc.
    apply elem_of_cons in Hc as [->|Hc]; [done|]. rewrite Forall_forall in Hb. by apply Hb.
Qed.

Lemma sort_files_sorted l : StronglySorted not_after (sort_files l).
Proof. induction l as [|a l IH]; [constructor|]. by apply insert_file_sorted. Qed.

Lemma files_sorted dir xs : StronglySorted older xs -> StronglySorted not_after (file_of dir <$> xs).
Proof.
  induction 1 as [|x xs Hs IH Hx]; [constructor|]. rewrite fmap_cons. constructor; [done|].
  apply Forall_fmap. eapply Forall_impl; [exact Hx|]. intros y Hy. unfold older in Hy.
  unfold compose, not_after, loads_before, file_of. cbn. destruct (Z.eqb_spec y.1.1 x.1.1); lia.
Qed.

Lemma sst_files_paths ps : (f_path <$> sst_files ps) `sublist_of` ps.
Proof.
  induction ps as [|p ps IH]; [done|]. unfold sst_files in *. cbn [omap list_omap].
  destruct (Names.parse_name p) as [[lv c]|]; cbn; [by constructor|by constructor].
Qed.

(** The files of a store, sorted, are its tables in order. *)
Lemma sort_files_stored dir m xs :
  stored dir m xs -> sort_files (sst_files (List.filter (Names.in_dir dir) (map_to_list m).*1)) = file_of dir <$> xs.
Proof.
  intros Hst. pose proof (st_layers _ _ _ Hst) as Hl. rewrite Forall_forall in Hl.
  assert (forall x, x ∈ xs -> Names.parse_name (layer_path dir x) = Some x.1) as Hparse.
  { intros x Hx. destruct (Hl x Hx) as (H1 & H2 & _). unfold layer_path, Names.INT_MAX in *.
    rewrite Names.parse_sstPath by (unfold Names.INT_MAX; lia). by destruct x as [[]]. }
  set (paths := List.filter _ _). assert (NoDup paths) as Hnd.
  { unfold paths. apply NoDup_ListNoDup, List.NoDup_filter, NoDup_ListNoDup, NoDup_fst_map_to_list. }
  assert (sst_files paths ≡ₚ file_of dir <$> xs) as Hperm.
  { apply NoDup_Permutation.
    - apply (NoDup_fmap_1 f_path). eapply sublist_NoDup; [done|apply sst_files_paths].
    - apply (NoDup_fmap_1 f_path). rewrite <- list_fmap_compose. by apply (stored_paths dir m).
    - intros f. unfold sst_files. rewrite list_elem_of_omap. split.
      + intros (p & Hp & Hf). destruct (Names.parse_name p) as [[lv c]|] eqn:E; [|done]. cbn in Hf. injection Hf as <-.
        apply elem_of_dir_paths in Hp as [Hm Hd].
        assert (p ∈ layer_path dir <$> xs) as (x & -> & Hx)%list_elem_of_fmap by (eapply st_only; [done..|by rewrite E]).
        rewrite (Hparse x Hx) in E. apply list_elem_of_fmap. exists x. split; [|done]. unfold file_of. by injection E as ->.
      + intros (x & -> & Hx)%list_elem_of_fmap. exists (layer_path dir x). rewrite (Hparse x Hx). split; [|by destruct x as [[]]].
        destruct (Hl x Hx) as (H1 & H2 & _ & _ & Hf). apply elem_of_dir_paths. split; [by eexists|].
        destruct (Names.sst_name dir x.1.1 x.1.2) as (_ & _ & ?); [lia..|done]. }
  apply (StronglySorted_unique_strong not_after).
  - intros a b Ha Hb Hab Hba. rewrite sort_files_perm, Hperm in Ha.
    apply list_elem_of_fmap in Ha as (x & -> & _), Hb as (y & -> & _).
    unfold not_after, loads_before, file_of in *. cbn in *.
    assert (x.1.1 = y.1.1 /\ x.1.2 = y.1.2) as [E1 E2].
    { destruct (Z.eqb_spec x.1.1 y.1.1), (Z.eqb_spec y.1.1 x.1.1); lia. }
    unfold layer_path. by rewrite E1, E2.
  - apply sort_files_sorted.
  - apply files_sorted, Hst.
  - by rewrite sort_files_perm.
Qed.

(** ** Starting *)

Section spec.
Context {Mt : Type} `{!MemtableOps Mt} `{!MemtableSpec Mt} {W D : Type} `{!LogOps W D} `{!LogSpec W D}.
Abbreviation eng := (engine Mt W).
Implicit Types (e : eng) (w : world) (xs : list layer) (l : list entry).

Lemma replay_spec es : forall e w l,
  mt_rep (memtable_ e) (memtable_max_bytes_ e) l ->
  exists m g, replay es e w = (Ok tt, set_memtable m g e, w) /\
    mt_rep m (memtable_max_bytes_ e) (foldl apply_record l es).
Proof.
  induction es as [|x es IH]; intros e w l Hm.
  { exists (memtable_ e), (rng e). split; [by destruct e|done]. }
  assert (exists m g, match WAL.type x with WAL.PUT => mem_op (mt_put (WAL.key x) (WAL.value x)) | WAL.DEL => mem_op (mt_del (WAL.key x)) end e w
            = (Ok tt, set_memtable m g e, w) /\ mt_rep m (memtable_max_bytes_ e) (apply_record l x)) as (m & g & Hop & Hm').
  { unfold apply_record, record_value, mem_op. destruct (WAL.type x).
    - destruct (mt_put_spec _ _ _ (WAL.key x) (WAL.value x) (rng e) Hm) as (g & m & -> & ?). by exists m, g.
    - destruct (mt_del_spec _ _ _ (WAL.key x) (rng e) Hm) as (g & m & -> & ?). by exists m, g. }
  destruct (IH (set_memtable m g e) w _ Hm') as (m' & g' & Hr & ?). exists m', g'. split; [|done].
  cbn [replay]. unfold mbind, E_bind. rewrite Hop. exact Hr.
Qed.

Lemma load_files_spec dir ys : forall e w xs,
  io w = [] -> Forall (layer_ok dir (files w)) ys -> sstables_ e = layer_table dir <$> xs ->
  0 <= sst_counter_ e <= Names.INT_MAX ->
  exists c, load_files (file_of dir <$> ys) e w = (Ok tt, set_counter c (set_sstables (layer_table dir <$> xs ++ ys) e), w) /\
    sst_counter_ e <= c <= Names.INT_MAX /\ forall x, x ∈ ys -> x.1.1 = 0 -> x.1.2 < c.
Proof.
  induction ys as [|y ys IH]; intros e w xs Hio Hys Ht Hc.
  { exists (sst_counter_ e). rewrite app_nil_r, <- Ht. split_and!; [by destruct e|lia..|set_solver]. }
  apply Forall_cons in Hys as [(Hl & Hn & Hok & Hs & Hf) Hys]. rewrite fmap_cons. cbn [load_files].
  set (c1 := if y.1.1 =? 0 then Z.max (sst_counter_ e) (y.1.2 + 1) else sst_counter_ e).
  set (e1 := set_counter c1 (set_sstables (layer_table dir <$> xs ++ [y]) e)).
  destruct (IH e1 w (xs ++ [y]) Hio Hys) as (c & Hr & Hc2 & Hab).
  { done. }
  { unfold e1, c1. cbn. destruct (y.1.1 =? 0); lia. }
  exists c. rewrite <- app_assoc in Hr. split; [|split].
  - unfold mbind, E_bind, lift at 1. cbn [f_path file_of f_level f_counter]. rewrite (open_quiet _ _ w Hio Hf Hok).
    unfold asks, update at 1. unfold e1, c1 in Hr. rewrite fmap_app, <- Ht in Hr. cbn [data_dir_] in *.
    destruct (y.1.1 =? 0); cbn [lift].
    + unfold lift, Compaction.int_succ. rewrite (proj2 (Z.eqb_neq _ _)) by lia. exact Hr.
    + unfold mret, E_ret. exact Hr.
  - unfold e1, c1 in Hc2. cbn in Hc2. destruct (y.1.1 =? 0); lia.
  - intros x [->|Hx]%elem_of_cons H0; [|by apply Hab]. unfold e1, c1 in Hc2. cbn in Hc2. rewrite H0 in Hc2. cbn in Hc2. lia.
Qed.

(** What a restart finds: the tables [xs] in the directory and the records [es]
    in the log. *)
Record on_disk (dir : str) (d : D) w xs (es : list WAL.Entry) : Prop := {
  od_stored : stored dir (files w) xs;
  od_log : disk_rep d es;
  od_records : Forall record_ok es;
  od_cache : coherent (cache w) (layer_table dir <$> xs);
  od_io : io w = []
}.

Lemma replayed_entries es : forall l, Forall record_ok es -> Forall entry_ok l -> Forall entry_ok (foldl apply_record l es).
Proof.
  induction es as [|x es IH]; intros l Hes Hl; [done|]. apply Forall_cons in Hes as [Hx Hes]. cbn [foldl].
  apply IH; [done|]. by apply ainsert_Forall.
Qed.

Lemma construct_spec b dir max durable g d w xs es :
  on_disk dir d w xs es -> disk_ready b d ->
  wp (construct (Mt := Mt) dir max durable g d) (fun r w' => w' = w /\
    (b = true -> disk_size d <= WAL.MAX_RECOVERY_BYTES -> exists e, r = Ok e) /\
    match r with
    | Ok e => running b e w xs (mem_of es) es [] /\ data_dir_ e = dir /\ memtable_max_bytes_ e = max /\
        log_durable (wal_ e) = durable /\ log_size (wal_ e) = disk_size d
    | Throw _ => True
    | Crashed | Undefined => False
    end) w.
Proof.
  intros [Hst Hd Hrec Hcoh Hio] Hready. unfold construct. apply wp_bind. unfold wp at 1.
  assert (acquire w = (Ok tt, w)) as ->.
  { unfold acquire. rewrite !(bind_ok _ _ _ _ _ (call_quiet w Hio)). cbn [negb].
    rewrite !(bind_ok _ _ _ _ _ (call_quiet w Hio)). done. }
  cbn [fst snd after]. apply wp_bind, wp_of_result.
  pose proof (log_open_spec b durable d es Hd Hready) as Ho.
  destruct (log_open durable d) as [x|q| |]; cbn [after]; [|by subst b|done..].
  destruct Ho as (Hlog & Hdu & Hn & Hr & Hr').
  set (e0 := mkEngine dir max x (mt_create max) [] 0 g).
  unfold wp, building, recover_all, recoverFromWAL. unfold mbind, E_bind, asks, lift, of_result. cbn [wal_ e0].
  destruct (log_recover x) as [es'|q| |]; cbn [fst snd].
  2: { split_and!; [done|intros Hb Hs; by discriminate (Hr' Hb Hs)|done]. }
  2,3: by destruct Hr as [Hr|[? Hr]].
  assert (es' = es) as -> by by destruct Hr as [[= ?]|[? ?]].
  destruct (replay_spec es e0 w [] (mt_create_spec max)) as (m & g' & -> & Hm).
  unfold loadSSTables. unfold mbind, E_bind, asks, lift. rewrite (call_quiet w Hio). cbn [negb]. unfold gets.
  cbn [data_dir_ set_memtable e0]. rewrite (sort_files_stored dir (files w) xs Hst).
  destruct (load_files_spec dir xs (set_memtable m g' e0) w [] Hio (st_layers _ _ _ Hst)) as (c & -> & Hc & Hab);
    [done|cbn; unfold Names.INT_MAX; lia|].
  cbn [fst snd]. split; [done|]. split; [by eexists|]. split_and!; try done. split; try done.
  - split; try done. by apply replayed_entries.
  - cbn. rewrite Hn. apply disk_size_nonneg.
  - by rewrite app_nil_r.
  - by rewrite app_nil_r.
Qed.

(** ** Closing *)

Lemma destruct_spec e w xs l s p :
  running true e w xs l s p -> Fault.g_armed (faults w) = false -> flushable e w xs l ->
  wp (destruct_ e) (fun r w' => exists d xs' es, r = Ok d /\ disk_ready true d /\ disk_size d <= log_size (wal_ e) /\
    stored (data_dir_ e) (files w') xs' /\ disk_rep d es /\ Forall record_ok es /\
    forall k, view xs' (mem_of es) k = view xs l k) w.
Proof.
  intros Hrun Hb Hfl. unfold wp, destruct_.
  pose proof (flush_spec true e w xs l s p Hrun (fun _ => Hb) Hfl) as Hf. unfold wpe in Hf.
  destruct (flush e w) as [[r e1] w1]. destruct Hf as (Hfr & Hok & Hr). cbn [fst snd] in *.
  rewrite (Hok eq_refl) in Hr |- *. destruct Hr as (Hn & xs1 & l1 & s1 & p1 & Hrun1 & Hv & _).
  pose proof Hrun1 as [H1 Hio1 Hlog1 HN1 Hrec1 Hmem1].
  unfold mbind, M_bind. rewrite !(call_quiet w1 Hio1), for_each_destroy.
  cbn [faults set_cache]. pose proof (log_close_spec true (wal_ e1) (faults w1) s1 p1 Hlog1) as Hc.
  destruct (log_close (wal_ e1) (faults w1)) as [r2 f]. destruct Hc as (_ & d & p' & -> & Hdn & Hdr & _ & Hd & Hp').
  { intros _. by apply Hfr. }
  rewrite (Hp' eq_refl) in Hd. cbn [fst snd]. exists d, xs1, (s1 ++ p1). split_and!; try done; [lia| |].
  - rewrite <- (fr_dir _ _ _ _ Hfr). apply H1.
  - intros k. by rewrite <- Hmem1.
Qed.

End spec.

End EngineRecovery.
