(* ===== verification/EngineLife.v ===== *)
(** * The life of a store

    The engine against a map: a run of operations answers as a finite map would
    ([engine_refines_map]), and whatever kills the process on the way, the next
    one finds, in durable mode, every operation that returned and the one under
    way wholly or not at all ([engine_crash_safe]), and in any mode, per key, a
    value no older than the last flush or sync ([engine_crash_async]). *)

From S2P Require Import Prelude WalFormat Kernel Bloom BlockCache Fault Memtable World Names TableFormat SSTable Layers Compaction CompactionSpec CompactionRun Store Scan Replay LogSpec WalWriter WalDisk WalLog Engine EngineSpec EngineWrite EngineRecovery.
Open Scope Z_scope.

Module EngineLife.
Import TableFormat Layers CompactionRun Store Replay Kernel WalLog Engine EngineSpec EngineWrite EngineRecovery.

(** ** Operations and their meaning *)

Inductive op :=
  | Put (k v : str)
  | Del (k : str)
  | Get (k : str)
  | ScanRange (start : str) (end_ : option str) (limit : Z)
  | Flush
  | Sync.

Inductive answer := Done | Value (v : option str) | Pairs (l : list (str * str)).

(** What an operation makes of a map. *)
Definition after_op (o : op) (m : gmap str str) : gmap str str :=
  match o with
  | Put k v => <[k := v]> m
  | Del k => delete k m
  | _ => m
  end.

(** The pairs of [m] from [start] on and before [end_], in key order. *)
Definition pairs_in (m : gmap str str) (start : str) (end_ : option str) (full : list (str * str)) : Prop :=
  keys_sorted full /\ forall k v, (k, v) ∈ full <-> m !! k = Some v /\ ~ k <s start /\ Scan.past end_ k = false.

Definition answers (o : op) (m : gmap str str) (a : answer) : Prop :=
  match o, a with
  | Get k, Value v => v = m !! k
  | ScanRange start end_ limit, Pairs l => exists full, pairs_in m start end_ full /\ l = take (Z.to_nat limit) full
  | (Put _ _ | Del _ | Flush | Sync), Done => True
  | _, _ => False
  end.

Section life.
Context {Mt : Type} `{!MemtableOps Mt} `{!MemtableSpec Mt} {W D : Type} `{!LogOps W D} `{!LogSpec W D}.
Abbreviation eng := (engine Mt W).
Implicit Types (e : eng) (w : world) (xs : list layer) (l : list entry) (m : gmap str str).

Definition exec (o : op) : E Mt W answer :=
  match o with
  | Put k v => put k v ;; mret Done
  | Del k => del k ;; mret Done
  | Get k => v ← get k; mret (Value v)
  | ScanRange start end_ limit => l ← scan start end_ limit; mret (Pairs l)
  | Flush => flush ;; mret Done
  | Sync => sync ;; mret Done
  end.

(** A client that stops at the first operation that does not return: the answers
    so far and how the last one ended. *)
Fixpoint exec_all (ops : list op) (e : eng) (w : world) : list answer * result unit * eng * world :=
  match ops with
  | [] => ([], Ok tt, e, w)
  | o :: ops =>
      match exec o e w with
      | (Ok a, e, w) => let '(l, r, e, w) := exec_all ops e w in (a :: l, r, e, w)
      | (Throw x, e, w) => ([], Throw x, e, w)
      | (Crashed, e, w) => ([], Crashed, e, w)
      | (Undefined, e, w) => ([], Undefined, e, w)
      end
  end.

(** Sizes and numbers an operation needs room for. *)
Definition roomy b (o : op) e w : Prop :=
  forall xs l, inv e w xs l ->
    match o with
    | Put k v => writable b e w xs l (WAL.mkEntry WAL.PUT k v)
    | Del k => writable b e w xs l (WAL.mkEntry WAL.DEL k [])
    | Flush => flushable e w xs l
    | ScanRange _ _ limit => 0 <= limit
    | Get _ | Sync => True
    end.

Fixpoint all_roomy b (ops : list op) e w : Prop :=
  match ops with
  | [] => True
  | o :: ops => roomy b o e w /\ match exec o e w with (Ok _, e, w) => all_roomy b ops e w | _ => True end
  end.

Definition models m xs l : Prop := forall k, view xs l k = m !! k.

(** ** One operation *)

Lemma models_after o x m xs l k :
  match o with
  | Put k v => x = WAL.mkEntry WAL.PUT k v
  | Del k => x = WAL.mkEntry WAL.DEL k []
  | _ => False
  end -> models m xs l -> upd x (view xs l) k = after_op o m !! k.
Proof.
  intros Hx Hm. unfold upd. destruct o; try done; subst x; cbn [WAL.key record_value WAL.type WAL.value after_op].
  - destruct (decide (k = k0)) as [->|Hk]; [by rewrite lookup_insert_eq|by rewrite lookup_insert_ne].
  - destruct (decide (k = k0)) as [->|Hk]; [by rewrite lookup_delete_eq|by rewrite lookup_delete_ne].
Qed.

(** The scan's pairs are those of the map. *)
Lemma range_pairs m xs l start end_ full : models m xs l -> range_of (view xs l) start end_ full -> pairs_in m start end_ full.
Proof.
  intros Hm [Hs Hr]. split; [done|]. intros k v. rewrite elem_of_alookup by done. rewrite Hr, Hm.
  destruct (decide (k <s start)) as [Hk|Hk]; [naive_solver|]. destruct (Scan.past end_ k); naive_solver.
Qed.

(** What a death may leave under a key where [V] may be found before the
    operation: that, or what the operation makes of it. *)
Definition or_new (o : op) m (V : str -> option str -> Prop) (k : str) (v : option str) : Prop := V k v \/ v = after_op o m !! k.

(** A sync makes every earlier write durable; a flush moves them to tables. *)
Definition barrier (o : op) : bool := match o with Flush | Sync => true | _ => false end.

Definition exec_ends b o m xs (s p : list WAL.Entry) e (r : result answer) e' w' : Prop :=
  match r with
  | Ok a => answers o m a /\ exists xs' l s' p', running b e' w' xs' l s' p' /\ models (after_op o m) xs' l /\
      (log_durable (wal_ e) = true -> p = [] -> p' = []) /\
      forall k v, may xs' s' p' k v -> v = after_op o m !! k \/ barrier o = false /\ may xs s p k v
  | Throw _ | Crashed => exists N, settled (or_new o m (may xs s p)) N e' w'
  | Undefined => False
  end.

Lemma running_read b e w w' xs l s p :
  running b e w xs l s p -> inv e w' xs l -> io w' = [] -> running b e w' xs l s p.
Proof. by intros []. Qed.

(** Writes, by what the map does. *)
Lemma write_ends_exec b o ty k v m e w xs l s p (r : result unit) e' w' :
  match o with
  | Put k' v' => WAL.mkEntry ty k v = WAL.mkEntry WAL.PUT k' v'
  | Del k' => WAL.mkEntry ty k v = WAL.mkEntry WAL.DEL k' []
  | _ => False
  end ->
  models m xs l -> running b e w xs l s p -> write_ends b ty k v e w xs l s p r e' w' ->
  exec_ends b o m xs s p e (match r with Ok _ => Ok Done | Throw x => Throw x | Crashed => Crashed | Undefined => Undefined end) e' w'.
Proof.
  intros Ho Hm Hrun. set (x := WAL.mkEntry ty k v) in *.
  assert (forall k', upd x (view xs l) k' = after_op o m !! k') as Hupd by (intros k'; by apply models_after).
  assert (forall k' v', may xs s (p ++ [x]) k' v' -> or_new o m (may xs s p) k' v') as Hmay.
  { intros k' v' [Hv|Hv]%may_split; [by left|right]. rewrite Hv, app_assoc, mem_of_app, <- (rn_mem _ _ _ _ _ _ _ Hrun), view_apply. apply Hupd. }
  destruct r as [[]|q| |]; cbn [write_ends exec_ends]; [| | |done].
  - intros (_ & xs' & l' & s' & p' & Hrun' & Hv & Hd & Hl). split; [by destruct o|]. exists xs', l', s', p'.
    split_and!; [done|intros k'; by rewrite Hv, Hupd|auto|]. intros k' v' [->|Hv']%(may_later xs s (p ++ [x])); [left| |done].
    + rewrite <- (rn_mem _ _ _ _ _ _ _ Hrun'), Hv. apply Hupd.
    + apply Hmay in Hv' as [|]; [right|by left]. split; [by destruct o|done].
  - intros (_ & Hset & _). eexists. eapply settled_mono; [exact Hset|auto|reflexivity].
  - intros Hset. eexists. eapply settled_mono; [exact Hset|auto|reflexivity].
Qed.

(** With nothing but durable records, readers of the log see what readers see. *)
Lemma may_running b m e w xs l s k v : running b e w xs l s [] -> models m xs l -> may xs s [] k v -> v = m !! k.
Proof.
  intros Hrun Hm (p1 & ->%prefix_nil_inv & ->). rewrite <- Hm. by rewrite (rn_mem _ _ _ _ _ _ _ Hrun).
Qed.

Lemma exec_spec b o m e w xs l s p :
  running b e w xs l s p -> (b = true -> Fault.g_armed (faults w) = false) -> models m xs l -> roomy b o e w ->
  wpe (exec o) (fun r e' w' => frame e w e' w' /\ (b = true -> exists a, r = Ok a) /\ exec_ends b o m xs s p e r e' w') e w.
Proof.
  intros Hrun Hb Hm Hroomy. specialize (Hroomy xs l (rn_inv _ _ _ _ _ _ _ Hrun)). destruct o as [k v|k|k|start end_ limit| |]; cbn [exec].
  - apply wpe_bind. eapply wpe_mono; [by apply put_spec|]. intros r e' w' (Hfr & Hok & Hr).
    apply (write_ends_exec b (Put k v) WAL.PUT k v m) in Hr; [|done..].
    destruct r as [[]|q| |]; cbn [aftere]; try apply wpe_ret; split_and!; try done; try (intros Hb'; discriminate (Hok Hb')); by eexists.
  - apply wpe_bind. eapply wpe_mono; [by apply del_spec|]. intros r e' w' (Hfr & Hok & Hr).
    apply (write_ends_exec b (Del k) WAL.DEL k [] m) in Hr; [|done..].
    destruct r as [[]|q| |]; cbn [aftere]; try apply wpe_ret; split_and!; try done; try (intros Hb'; discriminate (Hok Hb')); by eexists.
  - apply wpe_bind. eapply wpe_mono; [apply get_wpe, Hrun|]. intros r e' w' (-> & Hinv & _ & Hf & Hio & Hr).
    pose proof (rn_io _ _ _ _ _ _ _ Hrun) as Hio0. destruct Hr as [->|[? _]]; [|done]. cbn [aftere]. apply wpe_ret.
    split_and!; [split; try done; by rewrite Hf|by eexists|]. split; [apply Hm|]. exists xs, l, s, p.
    split_and!; [eapply running_read; eauto|done|done|auto].
  - apply wpe_bind. destruct (scan_quiet e w xs l start end_ limit) as (full & Hfull & Hs); [apply inv_readable, Hrun|apply Hrun|done|].
    unfold wpe at 1. rewrite Hs. cbn [fst snd aftere]. apply wpe_ret.
    split_and!; [by split|by eexists|]. split; [|exists xs, l, s, p; split_and!; auto].
    exists full. split; [by eapply range_pairs|done].
  - apply wpe_bind. eapply wpe_mono; [by apply flush_spec|]. intros r e' w' (Hfr & Hok & Hr).
    destruct r as [[]|q| |]; cbn [aftere]; [| | |done].
    + apply wpe_ret. split_and!; [done|by eexists|]. destruct Hr as (_ & xs' & l' & s' & p' & Hrun' & Hv & -> & ->).
      split; [done|]. assert (models m xs' l') as Hm' by (intros k; by rewrite Hv).
      exists xs', l', [], []. split_and!; [done..|]. intros k v Hk. left. by eapply may_running.
    + destruct Hr as (_ & Hset & _). split_and!; [done|intros Hb'; discriminate (Hok Hb')|].
      eexists. eapply settled_mono; [exact Hset|by left|done].
    + split_and!; [done|intros Hb'; discriminate (Hok Hb')|]. eexists. eapply settled_mono; [exact Hr|by left|done].
  - apply wpe_bind. eapply wpe_mono; [by apply sync_spec|]. intros r e' w' (Hfr & Hok & Hr).
    destruct r as [[]|q| |]; cbn [aftere]; [| | |done].
    + apply wpe_ret. split_and!; [done|by eexists|]. split; [done|]. exists xs, l, (s ++ p), [].
      split_and!; [done..|]. intros k v Hk. left. by eapply may_running.
    + destruct Hr as (Hset & _). split_and!; [done|intros Hb'; discriminate (Hok Hb')|].
      eexists. eapply settled_mono; [exact Hset|by left|done].
    + destruct Hr as (Hset & _). split_and!; [done|intros Hb'; discriminate (Hok Hb')|].
      eexists. eapply settled_mono; [exact Hset|by left|done].
Qed.

(** ** A run of operations *)

Definition after_ops (ops : list op) m : gmap str str := foldl (fun m o => after_op o m) m ops.

Fixpoint all_answered (ops : list op) m (l : list answer) : Prop :=
  match ops, l with
  | _, [] => True
  | o :: ops, a :: l => answers o m a /\ all_answered ops (after_op o m) l
  | [], _ :: _ => False
  end.

(** What may be found under a key once a run of operations has returned, if [V]
    may be found there before it. *)
Fixpoint left_by (ops : list op) m (V : str -> option str -> Prop) (k : str) (v : option str) : Prop :=
  match ops with
  | [] => V k v
  | o :: ops => left_by ops (after_op o m) (fun k v => v = after_op o m !! k \/ barrier o = false /\ V k v) k v
  end.

Lemma left_by_mono ops : forall m (V V' : str -> option str -> Prop) k v,
  (forall k v, V k v -> V' k v) -> left_by ops m V k v -> left_by ops m V' k v.
Proof. induction ops as [|o ops IH]; intros m V V' k v H; [apply H|]. apply IH. naive_solver. Qed.

(** How a run ends: the answers are the map's; it stopped at the first operation
    that did not return. *)
Definition run_ends b (ops : list op) m xs (s p : list WAL.Entry) e (l : list answer) (r : result unit) e' w' : Prop :=
  let m' := after_ops (take (length l) ops) m in
  all_answered ops m l /\ (b = true -> r = Ok tt) /\
  match r with
  | Ok _ => length l = length ops /\ exists xs' lm s' p', running b e' w' xs' lm s' p' /\ models m' xs' lm /\
      (log_durable (wal_ e) = true -> p = [] -> p' = []) /\ (forall k v, may xs' s' p' k v -> left_by ops m (may xs s p) k v)
  | Throw _ | Crashed => exists o, ops !! length l = Some o /\ exists N V, settled (or_new o m' V) N e' w' /\
      (log_durable (wal_ e) = true -> p = [] -> forall k v, V k v -> v = m' !! k) /\
      (forall k v, V k v -> left_by (take (length l) ops) m (may xs s p) k v)
  | Undefined => False
  end.

Lemma exec_all_spec b ops : forall m e w xs lm s p,
  running b e w xs lm s p -> (b = true -> Fault.g_armed (faults w) = false) -> models m xs lm -> all_roomy b ops e w ->
  let '(l, r, e', w') := exec_all ops e w in frame e w e' w' /\ run_ends b ops m xs s p e l r e' w'.
Proof.
  induction ops as [|o ops IH]; intros m e w xs lm s p Hrun Hb Hm Hroomy.
  { split; [by split|]. split_and!; try done. by exists xs, lm, s, p. }
  cbn [exec_all]. destruct Hroomy as [Ho Hroomy]. pose proof (exec_spec b o m e w xs lm s p Hrun Hb Hm Ho) as He. unfold wpe in He.
  destruct (exec o e w) as [[[a|x| |] e1] w1]; cbn [fst snd] in He; destruct He as (Hfr & Hok & Hr); [| | |done].
  2,3: split; [done|]; split_and!; [done|intros Hb'; by destruct (Hok Hb')|]; exists o; split; [done|];
       destruct Hr as (N & Hset); exists N, (may xs s p); split_and!; [done| |done]; intros _ ->; intros k v; by eapply may_running.
  destruct Hr as (Ha & xs1 & l1 & s1 & p1 & Hrun1 & Hm1 & Hd1 & Hk1).
  assert (b = true -> Fault.g_armed (faults w1) = false) as Hb1 by (intros Hb'; apply Hfr; auto).
  specialize (IH _ e1 w1 xs1 l1 s1 p1 Hrun1 Hb1 Hm1 Hroomy). destruct (exec_all ops e1 w1) as [[[l r] e2] w2].
  destruct IH as [Hfr2 (Hans & Hok2 & Hr2)]. split; [by eapply frame_trans|]. split_and!; [done|done|].
  rewrite (fr_durable _ _ _ _ Hfr) in Hr2. cbn [length take].
  change (after_ops (o :: take (length l) ops) m) with (after_ops (take (length l) ops) (after_op o m)).
  destruct r as [[]|x| |]; [| | |done].
  - destruct Hr2 as (Hlen & xs2 & l2 & s2 & p2 & Hrun2 & Hm2 & Hd2 & Hk2). split; [by rewrite Hlen|].
    exists xs2, l2, s2, p2. split_and!; [done|done|auto|]. intros k v Hv. cbn [left_by]. eapply left_by_mono; [exact Hk1|by apply Hk2].
  - destruct Hr2 as (o2 & Ho2 & N & V & Hs2 & Hd2 & Hk2). exists o2. split; [done|]. exists N, V. split_and!; [done|auto|].
    intros k v Hv. cbn [left_by]. eapply left_by_mono; [exact Hk1|by apply Hk2].
  - destruct Hr2 as (o2 & Ho2 & N & V & Hs2 & Hd2 & Hk2). exists o2. split; [done|]. exists N, V. split_and!; [done|auto|].
    intros k v Hv. cbn [left_by]. eapply left_by_mono; [exact Hk1|by apply Hk2].
Qed.

(** The operations up to the last barrier. *)
Fixpoint last_barrier (ops : list op) : nat :=
  match ops with
  | [] => 0
  | o :: ops => match last_barrier ops with O => if barrier o then 1 else 0 | S n => S (S n) end
  end.

Lemma last_barrier_le ops : (last_barrier ops <= length ops)%nat.
Proof. induction ops as [|o ops IH]; cbn [last_barrier length]; [done|]. destruct (last_barrier ops); [destruct (barrier o); lia|lia]. Qed.

(** What is left under a key is its value at some moment since then. *)
Lemma left_by_moment ops : forall m (V : str -> option str -> Prop) k v,
  left_by ops m V k v ->
  last_barrier ops = O /\ V k v \/ exists n, (last_barrier ops <= n <= length ops)%nat /\ (1 <= n)%nat /\ v = after_ops (take n ops) m !! k.
Proof.
  induction ops as [|o ops IH]; intros m V k v; cbn [left_by last_barrier length]; [by left|].
  intros [[E [->|[Hb Hv]]]|(n & Hn & H1 & ->)]%IH.
  - right. exists 1%nat. rewrite E. cbn [take]. split_and!; [destruct (barrier o); lia|lia|lia|by rewrite take_0].
  - left. by rewrite E, Hb.
  - right. exists (S n). split_and!; [|lia|lia|done]. destruct (last_barrier ops); [destruct (barrier o); lia|lia].
Qed.

(** ** The next life *)

(** A process started on the files of [w]; the fault registry is its own. *)
Definition reborn (f : Fault.state) w : world := mkWorld (files w) [] BlockCache.global f.

Lemma global_coherent tables : coherent BlockCache.global tables.
Proof. split; [apply BlockCache.create_inv|]. intros o _. apply SSTable.cache_ok_empty. Qed.

Lemma settled_on_disk V N e w f d :
  settled V N e w -> log_dies (wal_ e) d ->
  exists xs es, on_disk (data_dir_ e) d (reborn f w) xs es /\ forall k, V k (view xs (mem_of es) k).
Proof.
  intros (xs & s & p & Hst & Hl & Hrec & _ & HV) Hd. destruct (log_dies_spec _ _ _ _ Hl Hd) as (_ & p' & Hp & Hdisk).
  exists xs, (s ++ p'). split; [|intros k; by apply HV]. split; try done; [|apply global_coherent].
  apply Forall_app in Hrec as [Hs Hp2]. apply Forall_app. split; [done|]. rewrite Forall_forall in Hp2 |- *.
  intros x Hx. apply Hp2. by eapply elem_of_sublist.
Qed.

(** An operation touches one key at most, so it is there or not. *)
Lemma old_or_new_models o m xs l :
  (forall k, view xs l k = m !! k \/ view xs l k = after_op o m !! k) -> models m xs l \/ models (after_op o m) xs l.
Proof.
  intros H. assert (forall k0, (forall k, k <> k0 -> after_op o m !! k = m !! k) -> models m xs l \/ models (after_op o m) xs l) as Hk.
  { intros k0 Hne. destruct (H k0) as [E|E]; [left|right]; intros k; (destruct (decide (k = k0)) as [->|Hk]; [done|]);
      destruct (H k) as [->| ->]; rewrite ?(Hne k Hk); done. }
  destruct o as [k0 v|k0| | | |]; try (apply (Hk []); done); apply (Hk k0); intros k Hne; cbn [after_op].
  - by rewrite lookup_insert_ne.
  - by rewrite lookup_delete_ne.
Qed.

(** Opening a store after a death: the constructor succeeds or throws, and throws
    only if a call fails or the log is larger than it reads. *)
Lemma restart b (V : str -> option str -> Prop) N e w f d max durable g :
  settled V N e w -> log_dies (wal_ e) d -> disk_ready b d ->
  match (construct (Mt := Mt) (data_dir_ e) max durable g d (reborn f w)).1 with
  | Ok e2 => exists xs l s, running b e2 (reborn f w) xs l s [] /\ forall k, V k (view xs l k)
  | Throw _ => b = false \/ WAL.MAX_RECOVERY_BYTES < disk_size d
  | Crashed | Undefined => False
  end.
Proof.
  intros Hs Hd Hr. destruct (settled_on_disk V N e w f d Hs Hd) as (xs & es & Hdisk & HV).
  pose proof (construct_spec b _ max durable g d _ xs es Hdisk Hr) as Hc. unfold wp in Hc.
  destruct (construct _ _ _ _ _ _) as [[e2|x| |] w2]; cbn [fst snd] in *; destruct Hc as (-> & Hok & Hc); [| |done..].
  - exists xs, (mem_of es), es. split; [apply Hc|done].
  - destruct b; [right|by left]. apply Z.nle_gt. intros Hle. by destruct (Hok eq_refl Hle).
Qed.

(** What a death after a run can leave. *)
Lemma run_settled b ops m xs s p e (l : list answer) r e' w' :
  run_ends b ops m xs s p e l r e' w' -> r <> Undefined ->
  let m' := after_ops (take (length l) ops) m in
  exists o N V, settled (or_new o m' V) N e' w' /\ (after_op o m' = m' \/ r <> Ok tt /\ ops !! length l = Some o) /\
    (log_durable (wal_ e) = true -> p = [] -> forall k v, V k v -> v = m' !! k) /\
    (forall k v, V k v -> left_by (take (length l) ops) m (may xs s p) k v).
Proof.
  intros (_ & _ & Hr) Hu m'. destruct r as [[]|x| |]; [| | |done].
  - destruct Hr as (Hlen & xs' & lm' & s' & p' & Hrun' & Hm' & Hp & Hl). exists Sync, (log_size (wal_ e')), (may xs' s' p').
    split_and!; [|by left| |].
    + eapply settled_mono; [by eapply running_settled|by left|done].
    + intros Hd Hp0. rewrite (Hp Hd Hp0) in Hrun' |- *. intros k v. by eapply may_running.
    + by rewrite Hlen, firstn_all.
  - destruct Hr as (o & Ho & N & V & Hset & Hm & Hl). exists o, N, V. split_and!; [done|by right|done..].
  - destruct Hr as (o & Ho & N & V & Hset & Hm & Hl). exists o, N, V. split_and!; [done|by right|done..].
Qed.

(** ** A test for room

    A table has at most as many entries as its file has bytes. *)

Definition table_room e w : nat := foldr (fun o a => (length (default [] (files w !! path o)) + a)%nat) 0%nat (sstables_ e).

Definition numbers_below (k : Z) w : bool :=
  forallb (fun '(p, _) => match Names.stoi (drop 6 (Names.stem p)) with Some n => n + 1 + k <? Names.INT_MAX | None => true end)
    (map_to_list (files w)).

Definition flush_room e w (l : list entry) : bool :=
  let k := Z.of_nat (table_room e w) + zlen l + 1 in
  (sst_counter_ e <? Names.INT_MAX) && (zlen l <=? 2 ^ 20) && (k <? Names.INT_MAX) && numbers_below k w.

Definition room_for b e w (x : option WAL.Entry) : bool :=
  match mt_entries (memtable_ e), x with
  | Some l, Some x => flush_room e w (apply_record l x) &&
      (record_bytes (WAL.mkEntry WAL.PUT (WAL.key x) (WAL.value x)) <=? Kernel.write_limit log_whole b) &&
      (log_size (wal_ e) + record_bytes x <=? 2 ^ 63)
  | Some l, None => flush_room e w l
  | None, _ => false
  end.

Definition check_roomy b (o : op) e w : bool :=
  match o with
  | Put k v => room_for b e w (Some (WAL.mkEntry WAL.PUT k v))
  | Del k => room_for b e w (Some (WAL.mkEntry WAL.DEL k []))
  | Flush => room_for b e w None
  | ScanRange _ _ limit => 0 <=? limit
  | Get _ | Sync => true
  end.

Fixpoint check_all b (ops : list op) e w : bool :=
  match ops with
  | [] => true
  | o :: ops => check_roomy b o e w && match exec o e w with (Ok _, e, w) => check_all b ops e w | _ => true end
  end.

Lemma table_room_spec e w xs l : readable e w xs l -> (total xs.*2 <= table_room e w)%nat.
Proof.
  intros Hinv. unfold table_room. rewrite (rd_tables _ _ _ _ Hinv).
  pose proof (rd_layers _ _ _ _ Hinv) as Hxs. clear Hinv.
  induction Hxs as [|x xs (_ & _ & _ & _ & Hm) _ IH]; [done|]. cbn [fmap list_fmap total foldr].
  change (path (layer_table (data_dir_ e) x)) with (layer_path (data_dir_ e) x). rewrite Hm.
  pose proof (entries_fit_file x.2). unfold total in IH. cbn. lia.
Qed.

Lemma numbers_below_spec dir k k' w :
  numbers_below k w = true -> k' <= k -> k < Names.INT_MAX -> numbers_bounded dir (files w) k'.
Proof.
  unfold numbers_below. intros H Hk Hm. split; [lia|]. intros p n ([c Hc] & _ & _ & _ & Hn).
  rewrite forallb_forall in H. specialize (H (p, c)). rewrite <- list_elem_of_In, elem_of_map_to_list in H.
  specialize (H Hc). cbn in H. rewrite Hn in H. apply Z.ltb_lt in H. lia.
Qed.

Lemma flush_room_spec e w xs l l' : flush_room e w l' = true -> readable e w xs l -> flushable e w xs l'.
Proof.
  unfold flush_room. intros [[[H1%Z.ltb_lt H2%Z.leb_le]%andb_true_iff H3%Z.ltb_lt]%andb_true_iff H4]%andb_true_iff Hinv.
  pose proof (table_room_spec e w xs l Hinv). split; [done|done|]. eapply numbers_below_spec; [exact H4|lia|done].
Qed.

Lemma room_for_spec b e w xs l x :
  room_for b e w x = true -> readable e w xs l ->
  match x with
  | Some x => (WAL.type x = WAL.DEL -> WAL.value x = []) -> writable b e w xs l x
  | None => flushable e w xs l
  end.
Proof.
  unfold room_for. intros H Hinv. rewrite (mt_entries_spec _ _ _ (rd_mem _ _ _ _ Hinv)) in H. destruct x as [x|].
  - intros Hv. apply andb_true_iff in H as [[Hf Hr%Z.leb_le]%andb_true_iff Hs%Z.leb_le].
    split; [done|done|done|]. by eapply flush_room_spec.
  - by eapply flush_room_spec.
Qed.

Lemma check_all_spec b ops : forall e w, check_all b ops e w = true -> all_roomy b ops e w.
Proof.
  induction ops as [|o ops IH]; intros e w; [done|]. cbn [check_all all_roomy]. intros [Ho Hr]%andb_true_iff. split.
  - intros xs l Hinv. destruct o; cbn [check_roomy] in Ho; try done.
    + by apply (room_for_spec _ _ _ _ _ _ Ho (inv_readable _ _ _ _ Hinv)).
    + by apply (room_for_spec _ _ _ _ _ _ Ho (inv_readable _ _ _ _ Hinv)).
    + by apply Z.leb_le.
    + by apply (room_for_spec _ _ _ _ _ _ Ho (inv_readable _ _ _ _ Hinv)).
  - destruct (exec o e w) as [[[a|x| |] e'] w']; auto.
Qed.

(** ** Properties *)

(** C1: the engine is a map.  A run of puts, deletes, lookups, scans, flushes and
    syncs on an engine in use, no call failing and nothing armed, returns from
    every operation with the answers a finite map gives, and leaves an engine
    in use that stands for the map after all of them, whatever was flushed or
    compacted on the way. *)
Theorem engine_refines_map ops m e w xs lm s p :
  running true e w xs lm s p -> Fault.g_armed (faults w) = false -> models m xs lm -> all_roomy true ops e w ->
  exists al e' w', exec_all ops e w = (al, Ok tt, e', w') /\ length al = length ops /\ all_answered ops m al /\
    exists xs' lm' s' p', running true e' w' xs' lm' s' p' /\ models (after_ops ops m) xs' lm'.
Proof.
  intros Hrun Ha Hm Hroomy. pose proof (exec_all_spec true ops m e w xs lm s p Hrun (fun _ => Ha) Hm Hroomy) as H.
  destruct (exec_all ops e w) as [[[al r] e'] w']. destruct H as (_ & Hans & Hok & Hr). rewrite (Hok eq_refl) in *.
  destruct Hr as (Hlen & xs' & lm' & s' & p' & Hrun' & Hm' & _). exists al, e', w'. split_and!; [done..|].
  exists xs', lm', s', p'. split; [done|]. by rewrite Hlen, firstn_all in Hm'.
Qed.

(** C2: in durable mode nothing that returned is lost and nothing is half done.
    Let a run of operations end in any way: all returned, or one threw (an
    injected fault, a failed log write) or was killed at a fault point.  If the
    process is gone then, at any point of what the kernel still does with the
    log's requests, a new engine on its files either is in use and stands for
    the map after the operations that returned, or that and the one under way;
    or the constructor throws, and then a call failed or the log is larger than
    the reader accepts.

    Assumed ([running], [disk_ready], [all_roomy]): calls on table files and the
    directory do not fail during the run (log calls may, unless [b]);
    [io_uring_submit] takes every entry it is given, without which
    [WalLife.wait_misses_a_record] loses an acknowledged record; and every record
    is at most [log_whole] bytes long, the size up to which the kernel writes
    whole or not at all (512, a block of the [O_DIRECT] file, at least), without
    which [WAL.torn_record_recovers_value_bytes] brings back a write that never
    happened. *)
Theorem engine_crash_safe b b' ops m e w xs lm s f d max durable g :
  running b e w xs lm s [] -> (b = true -> Fault.g_armed (faults w) = false) -> log_durable (wal_ e) = true ->
  models m xs lm -> all_roomy b ops e w ->
  let '(al, r, e', w') := exec_all ops e w in
  all_answered ops m al /\ r <> Undefined /\
  (log_dies (wal_ e') d -> disk_ready b' d ->
   match (construct (Mt := Mt) (data_dir_ e') max durable g d (reborn f w')).1 with
   | Ok e2 => exists xs2 lm2 s2, running b' e2 (reborn f w') xs2 lm2 s2 [] /\
       (models (after_ops (take (length al) ops) m) xs2 lm2 \/
        r <> Ok tt /\ models (after_ops (take (S (length al)) ops) m) xs2 lm2)
   | Throw _ => b' = false \/ WAL.MAX_RECOVERY_BYTES < disk_size d
   | Crashed | Undefined => False
   end).
Proof.
  intros Hrun Hb Hdur Hm Hroomy. pose proof (exec_all_spec b ops m e w xs lm s [] Hrun Hb Hm Hroomy) as H.
  destruct (exec_all ops e w) as [[[al r] e'] w']. destruct H as (_ & Hans & Hok & Hr). split_and!; [done|by destruct r|].
  intros Hd Hready.
  destruct (run_settled _ _ _ _ _ _ _ _ _ _ _ (conj Hans (conj Hok Hr))) as (o & N & V & Hset & Ho & HVm & _).
  { by destruct r. }
  set (m' := after_ops (take (length al) ops) m) in *. pose proof (restart b' _ N e' w' f d max durable g Hset Hd Hready) as Hc.
  destruct (construct _ _ _ _ _ _).1 as [e2|x| |]; [|done..].
  destruct Hc as (xs2 & lm2 & s2 & Hrun2 & HV). exists xs2, lm2, s2. split; [done|].
  destruct (old_or_new_models o m' xs2 lm2) as [Hv|Hv];
    [intros k; destruct (HV k) as [Hk|Hk]; [left; by apply HVm|by right]| by left|]. destruct Ho as [Ho|[Hne Ho]]; [left; by rewrite <- Ho|right].
  split; [done|]. rewrite (take_S_r _ _ _ Ho). unfold after_ops. by rewrite foldl_app.
Qed.

(** C3: In either mode, and so in asynchronous mode, whatever ends the run and when:
    a new engine on what is left shows under each key the value the map had there
    at some moment of the run, not before the last flush or sync that returned.
    (Different keys may show different moments: the log's writes can reach the
    file in any order.)  The run ends by returning, by an injected fault, a failed
    log call or a kill; assumed is what [engine_crash_safe] assumes: table and
    directory calls succeed, submissions are taken, records are at most
    [log_whole] bytes long. *)
Theorem engine_crash_async b b' ops m e w xs lm s f d max durable g :
  running b e w xs lm s [] -> (b = true -> Fault.g_armed (faults w) = false) -> models m xs lm -> all_roomy b ops e w ->
  let '(al, r, e', w') := exec_all ops e w in
  log_dies (wal_ e') d -> disk_ready b' d ->
  match (construct (Mt := Mt) (data_dir_ e') max durable g d (reborn f w')).1 with
  | Ok e2 => exists xs2 lm2 s2, running b' e2 (reborn f w') xs2 lm2 s2 [] /\
      forall k, exists n, (last_barrier (take (length al) ops) <= n <= S (length al))%nat /\
        view xs2 lm2 k = after_ops (take n ops) m !! k
  | Throw _ => b' = false \/ WAL.MAX_RECOVERY_BYTES < disk_size d
  | Crashed | Undefined => False
  end.
Proof.
  intros Hrun Hb Hm Hroomy. pose proof (exec_all_spec b ops m e w xs lm s [] Hrun Hb Hm Hroomy) as H.
  destruct (exec_all ops e w) as [[[al r] e'] w']. destruct H as (_ & H). intros Hd Hready.
  destruct (run_settled _ _ _ _ _ _ _ _ _ _ _ H) as (o & N & V & Hset & Ho & _ & HV); [by destruct H as (_ & _ & H); destruct r|].
  pose proof (restart b' _ N e' w' f d max durable g Hset Hd Hready) as Hc.
  destruct (construct _ _ _ _ _ _).1 as [e2|x| |]; [|done..].
  destruct Hc as (xs2 & lm2 & s2 & Hrun2 & Hk). exists xs2, lm2, s2. split; [done|]. intros k. destruct (Hk k) as [Hv|Hv].
  - apply HV, left_by_moment in Hv as [[-> Hv]|(n & Hn & _ & ->)].
    + exists 0%nat. split; [lia|]. exact (may_running _ _ _ _ _ _ _ _ _ Hrun Hm Hv).
    + rewrite length_take in Hn. exists n. split; [lia|]. rewrite take_take. by rewrite Nat.min_l by lia.
  - pose proof (last_barrier_le (take (length al) ops)) as Hle. rewrite length_take in Hle. rewrite Hv.
    destruct Ho as [->|[_ Ho]]; [exists (length al); split; [lia|done]|exists (S (length al)); split; [lia|]].
    rewrite (take_S_r _ _ _ Ho). unfold after_ops. by rewrite foldl_app.
Qed.

(** C15: a lookup finds the newest value: the memtable's, else that of the newest
    table that has the key; a tombstone hides what is below.  It changes nothing
    but the block cache, which stays right.  It fails only if a call fails. *)
Theorem engine_get_exact e w xs l k :
  readable e w xs l ->
  let '(r, e', w') := get k e w in
  e' = e /\ readable e w' xs l /\ files w' = files w /\ (r = Ok (view xs l k) \/ io w <> [] /\ exists x, r = Throw x).
Proof.
  intros H. pose proof (get_readable e w xs l k H) as Hg. unfold wpe in Hg.
  destruct (get k e w) as [[r e'] w']. cbn [fst snd] in Hg. destruct Hg as (-> & (c & il & -> & Hc & _) & Hr).
  split_and!; [done|by apply readable_cache_io|done|done].
Qed.

(** C16: a scan is exact: the pairs a lookup would find at the keys from [start]
    on and before [end_], each once, in key order, the first [limit] of them,
    from the memtable and every table together, no call failing. *)
Theorem scan_exact e w xs l m start end_ limit :
  readable e w xs l -> io w = [] -> 0 <= limit -> models m xs l ->
  exists full, pairs_in m start end_ full /\ scan start end_ limit e w = (Ok (take (Z.to_nat limit) full), e, w).
Proof.
  intros H Hio Hl Hm. destruct (scan_quiet e w xs l start end_ limit H Hio Hl) as (full & Hf & Hs).
  exists full. split; [by eapply range_pairs|done].
Qed.

(** A put or delete that throws, no table call failing, has changed the key or nothing: readers see
    the old contents or the new ones, tables, memtable and cache stay consistent,
    and the process can go on. *)
Theorem failed_write_old_or_new b o e w xs l s p m x e' w' :
  running b e w xs l s p -> (b = true -> Fault.g_armed (faults w) = false) -> models m xs l ->
  match o with
  | Put k v => writable b e w xs l (WAL.mkEntry WAL.PUT k v) /\ put k v e w = (Throw x, e', w')
  | Del k => writable b e w xs l (WAL.mkEntry WAL.DEL k []) /\ del k e w = (Throw x, e', w')
  | _ => False
  end ->
  b = false /\ exists xs' l', inv e' w' xs' l' /\ (models m xs' l' \/ models (after_op o m) xs' l').
Proof.
  intros Hrun Hb Hm Ho.
  assert (forall y, match o with Put k v => y = WAL.mkEntry WAL.PUT k v | Del k => y = WAL.mkEntry WAL.DEL k [] | _ => False end ->
    forall V N, write_aborted V N xs l y e' w' -> exists xs' l', inv e' w' xs' l' /\ (models m xs' l' \/ models (after_op o m) xs' l')) as Hend.
  { intros y Hy V N (_ & _ & xs' & l' & Hinv & Hv). exists xs', l'. split; [done|]. destruct Hv as [Hv|Hv]; [left|right]; intros k.
    - by rewrite Hv, Hm.
    - rewrite Hv. by apply models_after. }
  destruct o as [k v|k| | | |]; try done; destruct Ho as [Hw He].
  - pose proof (put_spec b e w xs l s p k v Hrun Hb Hw) as H. unfold wpe in H. rewrite He in H. destruct H as (_ & Hok & H).
    cbn [fst snd write_ends] in *. split; [destruct b; [discriminate (Hok eq_refl)|done]|]. by eapply Hend.
  - pose proof (del_spec b e w xs l s p k Hrun Hb Hw) as H. unfold wpe in H. rewrite He in H. destruct H as (_ & Hok & H).
    cbn [fst snd write_ends] in *. split; [destruct b; [discriminate (Hok eq_refl)|done]|]. by eapply Hend.
Qed.

(** C14: closing and opening again is the identity: the destructor of an engine in
    use, on a working system, leaves a directory and a log from which the
    constructor makes an engine in use that stands for the same map. *)
Theorem reopen_roundtrip e w xs l s p m f max durable g :
  running true e w xs l s p -> Fault.g_armed (faults w) = false -> flushable e w xs l -> models m xs l ->
  exists d w', destruct_ e w = (Ok d, w') /\
    (disk_size d <= WAL.MAX_RECOVERY_BYTES ->
     exists e2 xs2 l2 s2, construct (Mt := Mt) (data_dir_ e) max durable g d (reborn f w') = (Ok e2, reborn f w') /\
       running true e2 (reborn f w') xs2 l2 s2 [] /\ models m xs2 l2).
Proof.
  intros Hrun Ha Hfl Hm. pose proof (destruct_spec e w xs l s p Hrun Ha Hfl) as H. unfold wp in H.
  destruct (destruct_ e w) as [r w']. cbn [fst snd] in H.
  destruct H as (d & xs' & es & -> & Hready & _ & Hst & Hd & Hrec & Hv). exists d, w'. split; [done|]. intros Hsz.
  assert (on_disk (data_dir_ e) d (reborn f w') xs' es) as Hdisk.
  { split; [exact Hst|exact Hd|exact Hrec|apply global_coherent|done]. }
  pose proof (construct_spec true _ max durable g d _ xs' es Hdisk Hready) as Hc. unfold wp in Hc.
  destruct (construct _ _ _ _ _ _) as [r2 w2]. cbn [fst snd] in Hc. destruct Hc as (-> & Hok & Hr).
  destruct (Hok eq_refl Hsz) as [e2 ->]. exists e2, xs', (mem_of es), es. split_and!; [done|apply Hr|].
  intros k. by rewrite Hv, Hm.
Qed.

End life.

(** ** Witnesses: the memtable and the writer on the scripted kernel *)

Definition no_log : Kernel.scripted := Kernel.mkScripted [] [] [] None [] 0 [] [] [].
Definition sample_rng : Rng := fun i => Z.of_nat i * 3.
Definition db : str := bs "db".

(** A new store in durable mode, its memtable limited to a thousand bytes. *)
Definition fresh_wal : WalWriter.t Kernel.scripted :=
  WalWriter.mkWAL true true false 0 0 0 0 true None 0 0 ∅ 1 (Kernel.mkScripted [] [] [] (Some []) [] 0 [] [] []).
Definition fresh : engine Memtable.t (WalWriter.t Kernel.scripted) :=
  mkEngine db 1000 fresh_wal (Memtable.create 1000) [] 0 sample_rng.
Definition fresh_world (f : Fault.state) : world := mkWorld ∅ [] BlockCache.global f.

Example fresh_constructed f : construct db 1000 true sample_rng no_log (fresh_world f) = (Ok fresh, fresh_world f).
Proof. vm_compute. reflexivity. Qed.

(** Every call on a ring without a script succeeds. *)
Definition quiet_state (r : Kernel.scripted) : Kernel.kstate nat :=
  Kernel.mkK (Kernel.sc_sq r) (Kernel.sc_fly r) (Kernel.sc_cq r) (Kernel.sc_file r) (Kernel.sc_synced r) 0 true true 512.

Lemma quiet_rep r :
  Kernel.sc_script r = [] -> Kernel.sc_refused r = [] -> Kernel.sc_calls r = [] -> Kernel.sc_rep r (quiet_state r).
Proof. intros H1 H2 H3. unfold Kernel.sc_rep. rewrite H1, H2, H3. by split_and!. Qed.

Lemma quiet_ready r :
  Kernel.sc_script r = [] -> Kernel.sc_refused r = [] -> Kernel.sc_calls r = [] ->
  Kernel.sc_sq r = [] -> Kernel.sc_fly r = [] -> Kernel.sc_cq r = [] -> zlen (default [] (Kernel.sc_file r)) <= 2 ^ 63 ->
  disk_ready true r.
Proof. intros. exists (quiet_state r). by split_and!; [apply quiet_rep|..]. Qed.

Lemma fresh_running f : running true fresh (fresh_world f) [] [] [] [].
Proof.
  assert (on_disk db no_log (fresh_world f) [] []) as Hdisk.
  { split; [|exists []; split; [apply WalDisk.image_nil|done]|done|apply global_coherent|done]. split; [constructor|constructor|]. intros p [c Hp]. done. }
  pose proof (construct_spec (Mt := Memtable.t) (W := WalWriter.t Kernel.scripted) true db 1000 true sample_rng no_log (fresh_world f) [] [] Hdisk) as H.
  unfold wp in H. rewrite fresh_constructed in H. apply H. by apply quiet_ready.
Qed.

(** A session with an overwrite, a deletion and a scan, and enough flushes that
    the last one compacts. *)
Definition session : list op :=
  [ Put (bs "b") (bs "1"); Put (bs "a") (bs "2"); Put (bs "b") (bs "3"); Flush; Del (bs "a"); Put (bs "c") (bs "4"); Sync;
    ScanRange (bs "a") None 10; Flush; Get (bs "a"); Put (bs "d") (bs "5"); Flush; Put (bs "e") (bs "6"); Flush;
    Get (bs "b"); Put (bs "f") (bs "7"); ScanRange (bs "b") (Some (bs "e")) 2 ].

Lemma engine_refines_map_witness :
  exists al e' w', exec_all session fresh (fresh_world Fault.init) = (al, Ok tt, e', w') /\ length al = length session /\
    all_answered session ∅ al /\
    exists xs' lm' s' p', running true e' w' xs' lm' s' p' /\ models (after_ops session ∅) xs' lm'.
Proof.
  apply (engine_refines_map session ∅ fresh (fresh_world Fault.init) [] [] [] []).
  - apply fresh_running.
  - reflexivity.
  - intros k. by rewrite lookup_empty.
  - apply check_all_spec. vm_compute. reflexivity.
Defined.

(** The answers of that session, and the one level-1 table it leaves. *)
Example session_answers :
  let '(al, r, e, w) := exec_all session fresh (fresh_world Fault.init) in
  al = [ Done; Done; Done; Done; Done; Done; Done; Pairs [(bs "b", bs "3"); (bs "c", bs "4")]; Done; Value None; Done; Done;
         Done; Done; Value (Some (bs "3")); Done; Pairs [(bs "b", bs "3"); (bs "c", bs "4")] ]
  /\ r = Ok tt /\ (map_to_list (files w)).*1 = [Names.sstPath db 1 0].
Proof. vm_compute. repeat split. Qed.

(** Killed in the flush, between the new table and the clearing of the log. *)
Definition killed_session : list op := [ Put (bs "a") (bs "1"); Put (bs "b") (bs "2"); Flush ].
Definition armed_world : world := fresh_world (Fault.arm "flush.after_sst" 1 Fault.ACrash 1 Fault.init).
Definition killed := exec_all killed_session fresh armed_world.
Definition killed_engine := killed.1.2.
Definition killed_world := killed.2.
Definition left_log : Kernel.scripted := WalWriter.kernel (wal_ killed_engine).

Lemma killed_result : killed = ([Done; Done], Crashed, killed_engine, killed_world).
Proof. vm_compute. reflexivity. Qed.

Lemma engine_crash_safe_witness :
  match (construct (Mt := Memtable.t) (data_dir_ killed_engine) 1000 true sample_rng left_log (reborn Fault.init killed_world)).1 with
  | Ok e2 => exists xs2 lm2 s2, running true e2 (reborn Fault.init killed_world) xs2 lm2 s2 [] /\
      (models {[ bs "a" := bs "1"; bs "b" := bs "2" ]} xs2 lm2 \/
       Crashed <> Ok tt /\ models {[ bs "a" := bs "1"; bs "b" := bs "2" ]} xs2 lm2)
  | Throw _ => true = false \/ WAL.MAX_RECOVERY_BYTES < disk_size left_log
  | Crashed | Undefined => False
  end.
Proof.
  assert (running false fresh armed_world [] [] [] []) as Hrun.
  { destruct (fresh_running (faults armed_world)) as [H1 H2 H3 H4 H5 H6]. split; try done. by apply log_rep_weaken with (b := true). }
  pose proof (engine_crash_safe false true killed_session ∅ fresh armed_world [] [] [] Fault.init left_log 1000 true sample_rng
    Hrun ltac:(done) eq_refl) as H.
  change (exec_all killed_session fresh armed_world) with killed in H. rewrite killed_result in H.
  destruct H as (_ & _ & H).
  - intros k. by rewrite lookup_empty.
  - apply check_all_spec. vm_compute. reflexivity.
  - apply H.
    + intros k (_ & _ & _ & _ & Hk & _). exists k. split; [apply rtc_refl|by symmetry].
    + apply quiet_ready; vm_compute; (reflexivity || congruence).
Defined.

(** The restarted engine has both keys. *)
Example killed_then_read :
  match construct (data_dir_ killed_engine) 1000 true sample_rng left_log (reborn Fault.init killed_world) with
  | (Ok e2, w2) => (exec_all [Get (bs "a"); Get (bs "b"); Get (bs "c")] e2 w2).1.1.1
  | _ => []
  end = [Value (Some (bs "1")); Value (Some (bs "2")); Value None].
Proof. vm_compute. reflexivity. Qed.

(** Asynchronous mode on a kernel that, after the first write, takes its time. *)
Definition slow : Kernel.scripted := Kernel.mkScripted [] [] [] None [] 0 (Kernel.Completes :: replicate 9 Kernel.Stalls) [] [].
Definition slow_state : Kernel.kstate nat := Kernel.mkK [] [] [] None [] 0 true false 512.

Definition async_wal : WalWriter.t Kernel.scripted :=
  WalWriter.mkWAL true false false 0 0 0 0 true None 0 0 ∅ 1
    (Kernel.mkScripted [] [] [] (Some []) [] 0 (Kernel.Completes :: replicate 9 Kernel.Stalls) [] []).
Definition async : engine Memtable.t (WalWriter.t Kernel.scripted) :=
  mkEngine db 1000 async_wal (Memtable.create 1000) [] 0 sample_rng.

Lemma async_running : running false async (fresh_world Fault.init) [] [] [] [].
Proof.
  assert (on_disk db slow (fresh_world Fault.init) [] []) as Hdisk.
  { split; [|exists []; split; [apply WalDisk.image_nil|done]|done|apply global_coherent|done]. split; [constructor|constructor|]. intros p [c Hp]. done. }
  assert (construct db 1000 false sample_rng slow (fresh_world Fault.init) = (Ok async, fresh_world Fault.init)) as E by (vm_compute; reflexivity).
  pose proof (construct_spec (Mt := Memtable.t) (W := WalWriter.t Kernel.scripted) false db 1000 false sample_rng slow (fresh_world Fault.init) [] [] Hdisk) as H.
  unfold wp in H. rewrite E in H. apply H. exists slow_state. split_and!; [|done|done|done|done].
  unfold Kernel.rep, Kernel.scripted_spec, Kernel.sc_rep. cbn. split_and!; [done..|constructor|done].
Qed.

(** The last of the two writes in flight lands, the one before it never does. *)
Definition async_session : list op := [Put (bs "a") (bs "1"); Sync; Put (bs "a") (bs "2"); Put (bs "b") (bs "3")].
Definition async_end := exec_all async_session async (fresh_world Fault.init).
Definition async_engine := async_end.1.2.
Definition async_world := async_end.2.
Definition async_kernel : Kernel.scripted := WalWriter.kernel (wal_ async_engine).
Definition last_flying : Kernel.req := default Kernel.blank (fst <$> last (Kernel.sc_fly async_kernel)).
Definition holed : Kernel.scripted :=
  Kernel.mkScripted [] [] [] (Kernel.pwrite (Kernel.r_off last_flying) (Kernel.r_data last_flying) <$> Kernel.sc_file async_kernel) [] 0 [] [] [].

Lemma last_lands (w : WalWriter.t Kernel.scripted) (d : Kernel.scripted) A q data :
  Kernel.sc_fly (WalWriter.kernel w) = A ++ [(q, false)] -> Kernel.sc_file (WalWriter.kernel w) = Some data ->
  zlen (Kernel.r_data q) <= Kernel.MAX_RW_COUNT ->
  Kernel.sc_file d = Some (Kernel.pwrite (Kernel.r_off q) (Kernel.r_data q) data) -> log_dies w d.
Proof.
  intros Hf Hd Hq He k (_ & _ & Hfly & _ & Hfile & _). rewrite Hf in Hfly. rewrite Hd in Hfile.
  eexists. split; [by eapply rtc_once, (Kernel.step_land A q false [] k data)|exact He].
Qed.

Lemma holed_dies : log_dies (wal_ async_engine) holed.
Proof.
  apply (last_lands _ _ (take 1 (Kernel.sc_fly async_kernel)) last_flying (default [] (Kernel.sc_file async_kernel)));
    vm_compute; (reflexivity || congruence).
Qed.

Lemma engine_crash_async_witness :
  match (construct (Mt := Memtable.t) (data_dir_ async_engine) 1000 false sample_rng holed (reborn Fault.init async_world)).1 with
  | Ok e2 => exists xs2 lm2 s2, running true e2 (reborn Fault.init async_world) xs2 lm2 s2 [] /\
      forall k, exists n, (2 <= n <= 5)%nat /\ view xs2 lm2 k = after_ops (take n async_session) ∅ !! k
  | Throw _ => true = false \/ WAL.MAX_RECOVERY_BYTES < disk_size holed
  | Crashed | Undefined => False
  end.
Proof.
  pose proof (engine_crash_async false true async_session ∅ async (fresh_world Fault.init) [] [] [] Fault.init holed 1000 false sample_rng
    async_running ltac:(done)) as H.
  assert (exec_all async_session async (fresh_world Fault.init) = ([Done; Done; Done; Done], Ok tt, async_engine, async_world)) as E
    by (vm_compute; reflexivity).
  rewrite E in H. apply H.
  - intros k. by rewrite lookup_empty.
  - apply check_all_spec. vm_compute. reflexivity.
  - apply holed_dies.
  - apply quiet_ready; vm_compute; (reflexivity || congruence).
Defined.

(** The restarted engine has the old value of the one key and the later put of
    the other. *)
Example async_then_read :
  match construct (data_dir_ async_engine) 1000 false sample_rng holed (reborn Fault.init async_world) with
  | (Ok e2, w2) => (exec_all [Get (bs "a"); Get (bs "b")] e2 w2).1.1.1
  | _ => []
  end = [Value (Some (bs "1")); Value (Some (bs "3"))].
Proof. vm_compute. reflexivity. Qed.

(** An engine with a table and a memtable: after the session. *)
Definition used := exec_all session fresh (fresh_world Fault.init).
Definition used_engine := used.1.2.
Definition used_world := used.2.

Lemma used_running : exists xs l s p, running true used_engine used_world xs l s p /\ models (after_ops session ∅) xs l.
Proof.
  pose proof (exec_all_spec true session ∅ fresh (fresh_world Fault.init) [] [] [] [] (fresh_running _) ltac:(done)
    ltac:(intros k; by rewrite lookup_empty) ltac:(apply check_all_spec; vm_compute; reflexivity)) as H.
  assert (exec_all session fresh (fresh_world Fault.init) = (used.1.1.1, Ok tt, used_engine, used_world)) as E by (vm_compute; reflexivity).
  rewrite E in H. destruct H as (_ & _ & _ & Hlen & xs & l & s & p & Hrun & Hm & _). exists xs, l, s, p. split; [done|].
  by rewrite Hlen, firstn_all in Hm.
Qed.

Lemma engine_get_exact_witness : (get (bs "b") used_engine used_world).1.1 = Ok (Some (bs "3")).
Proof.
  destruct used_running as (xs & l & s & p & Hrun & Hm).
  pose proof (engine_get_exact used_engine used_world xs l (bs "b") (inv_readable _ _ _ _ (rn_inv _ _ _ _ _ _ _ Hrun))) as H.
  destruct (get (bs "b") used_engine used_world) as [[r e'] w']. destruct H as (_ & _ & _ & [->|[H _]]).
  - cbn [fst]. rewrite Hm. vm_compute. reflexivity.
  - destruct (H (rn_io _ _ _ _ _ _ _ Hrun)).
Defined.

Lemma scan_exact_witness :
  exists full, pairs_in (after_ops session ∅) (bs "a") (Some (bs "c")) full /\
    scan (bs "a") (Some (bs "c")) 10 used_engine used_world = (Ok (take (Z.to_nat 10) full), used_engine, used_world).
Proof.
  destruct used_running as (xs & l & s & p & Hrun & Hm).
  apply (scan_exact used_engine used_world xs l); [apply inv_readable, Hrun|apply Hrun|lia|done].
Defined.

(** A put whose record is in the log when its fault point throws. *)
Definition throwing_world : world := fresh_world (Fault.arm "wal.after_append" 1 Fault.AThrow 1 Fault.init).
Definition thrown := put (bs "a") (bs "1") fresh throwing_world.

Lemma failed_write_old_or_new_witness :
  false = false /\ exists xs' l', inv thrown.1.2 thrown.2 xs' l' /\
    (models ∅ xs' l' \/ models (after_op (Put (bs "a") (bs "1")) ∅) xs' l').
Proof.
  assert (running false fresh throwing_world [] [] [] []) as Hrun.
  { destruct (fresh_running (faults throwing_world)) as [H1 H2 H3 H4 H5 H6]. split; try done. by apply log_rep_weaken with (b := true). }
  apply (failed_write_old_or_new false (Put (bs "a") (bs "1")) fresh throwing_world [] [] [] [] ∅ (Injected "wal.after_append")); [done|done| |split].
  - intros k. by rewrite lookup_empty.
  - apply (room_for_spec false fresh throwing_world [] [] (Some (WAL.mkEntry WAL.PUT (bs "a") (bs "1")))); [vm_compute; reflexivity|apply inv_readable, Hrun|done].
  - vm_compute. reflexivity.
Defined.

Definition one_put : list op := [Put (bs "a") (bs "1")].
Definition opened := exec_all one_put fresh (fresh_world Fault.init).

Lemma reopen_roundtrip_witness :
  exists d w', destruct_ opened.1.2 opened.2 = (Ok d, w') /\
    (disk_size d <= WAL.MAX_RECOVERY_BYTES ->
     exists e2 xs2 l2 s2, construct (Mt := Memtable.t) db 1000 true sample_rng d (reborn Fault.init w') = (Ok e2, reborn Fault.init w') /\
       running true e2 (reborn Fault.init w') xs2 l2 s2 [] /\ models {[ bs "a" := bs "1" ]} xs2 l2).
Proof.
  pose proof (exec_all_spec true one_put ∅ fresh (fresh_world Fault.init) [] [] [] [] (fresh_running _) ltac:(done)
    ltac:(intros k; by rewrite lookup_empty) ltac:(apply check_all_spec; vm_compute; reflexivity)) as H.
  assert (exec_all one_put fresh (fresh_world Fault.init) = (opened.1.1.1, Ok tt, opened.1.2, opened.2)) as E by (vm_compute; reflexivity).
  rewrite E in H. destruct H as (_ & _ & _ & Hlen & xs & l & s & p & Hrun & Hm & _). rewrite Hlen in Hm.
  apply (reopen_roundtrip opened.1.2 opened.2 xs l s p {[ bs "a" := bs "1" ]} Fault.init 1000 true sample_rng Hrun).
  - vm_compute. reflexivity.
  - apply (room_for_spec true opened.1.2 opened.2 xs l None); [vm_compute; reflexivity|apply inv_readable, Hrun].
  - exact Hm.
Defined.

(** ** A failed publication *)

(** The directory's [fsync] fails in the first flush; every other call succeeds. *)
Definition fsync_fails : world := mkWorld ∅ (replicate 8 Success ++ [Failure]) BlockCache.global Fault.init.
Definition refused_flush := exec_all [Put (bs "a") (bs "1"); Flush] fresh fsync_fails.
Definition carried_on :=
  exec_all [ Put (bs "a") (bs "2"); Flush; Put (bs "b") (bs "3"); Flush; Put (bs "c") (bs "4"); Flush; Put (bs "d") (bs "5"); Flush;
             Get (bs "a") ] refused_flush.1.2 refused_flush.2.
Definition reopened :=
  match destruct_ carried_on.1.2 carried_on.2 with
  | (Ok d, w) =>
      match construct (Mt := Memtable.t) (W := WalWriter.t Kernel.scripted) db 1000 true sample_rng d (reborn Fault.init w) with
      | (Ok e, w) => (exec_all [Get (bs "a")] e w).1.1
      | _ => ([], Undefined)
      end
  | _ => ([], Undefined)
  end.

(** A flush whose directory [fsync] fails throws after its table has its name.
    The engine does not list that table, so the compaction that comes after it
    merges the others, resets the counter and leaves the file; the next life
    loads it as the newest table, and an overwritten value is back. *)
Example failed_publish_returns :
  refused_flush.1.1 = ([Done], Throw (RuntimeError "SSTable: directory fsync failed")) /\
  carried_on.1.1 = ([Done; Done; Done; Done; Done; Done; Done; Done; Value (Some (bs "2"))], Ok tt) /\
  reopened = ([Value (Some (bs "1"))], Ok tt).
Proof. vm_compute. repeat split. Qed.

End EngineLife.
