(* ===== verification/EngineFail.v ===== *)
(** * The engine: failing file calls

    What an engine whose file calls may fail, in flushes and compactions too,
    goes on to show: [readable] of [EngineSpec] is kept by every operation that
    throws, and by every one that returns, with the contents the operation
    asked for unless a compaction could not read one of its tables.
    [EngineWrite] and [EngineLife] have the engine whose file calls succeed. *)

From S2P Require Import Prelude WalFormat Kernel Bloom BlockCache Fault Memtable World Names TableFormat SSTable Layers Compaction CompactionSpec CompactionRun Store CompactionFail Replay LogSpec WalWriter WalLog Engine EngineSpec EngineWrite EngineLife.
Open Scope Z_scope.

Module EngineFail.
Import TableFormat Kernel WalLog Layers Compaction CompactionSpec CompactionRun Store CompactionFail Replay Engine EngineSpec EngineWrite EngineLife.

(** What a compaction leaves of the contents [v] when it reads nothing of some
    of its tables. *)
Definition lost (v v' : str -> option str) : Prop :=
  exists zs rs : list (list entry), (L0_THRESHOLD <= length zs)%nat /\ Forall2 (fun r z => r = z \/ r = []) rs zs /\
    (forall k, v k = visible k zs) /\ forall k, v' k = visible k rs.

(** The same contents, or less after failing calls. *)
Definition kept_or_lost (w : world) (v v' : str -> option str) : Prop :=
  (forall k, v' k = v k) \/ io w <> [] /\ lost v v'.

Lemma kept_ext w v1 v2 v' : (forall k, v1 k = v2 k) -> kept_or_lost w v1 v' -> kept_or_lost w v2 v'.
Proof.
  intros Hv [H|(Hio & zs & rs & H1 & H2 & H3 & H4)]; [left; intros k; by rewrite H|right]. split; [done|].
  exists zs, rs. split_and!; [done..| |done]. intros k. by rewrite <- Hv.
Qed.

Lemma kept_io w w' v v' : (io w = [] -> io w' = []) -> kept_or_lost w' v v' -> kept_or_lost w v v'.
Proof. intros Hio [H|[Hn H]]; [by left|right]. split; [|done]. intros E. by apply Hn, Hio. Qed.

Lemma kept_read w xs rs v v' :
  reads w rs xs.*2 -> (L0_THRESHOLD <= length (l0 xs))%nat -> (forall k, v k = visible k xs.*2) -> (forall k, v' k = visible k rs) ->
  kept_or_lost w v v'.
Proof.
  intros Hr Hl Hv Hv'. destruct (io w) as [|o l] eqn:E.
  - left. intros k. by rewrite Hv, Hv', (reads_quiet _ _ _ Hr E).
  - right. split; [congruence|]. exists xs.*2, rs. split_and!; [| |done|done].
    + rewrite length_fmap. etrans; [exact Hl|]. apply List.filter_length_le.
    + eapply Forall2_impl; [exact Hr|]. naive_solver.
Qed.

Section fail.
Context {Mt : Type} `{!MemtableOps Mt} `{!MemtableSpec Mt} {W D : Type} `{!LogOps W D} `{!LogSpec W D}.
Abbreviation eng := (engine Mt W).
Implicit Types (e : eng) (w : world) (xs : list layer) (l : list entry).

(** ** What keeps an engine readable *)

(** The tables' files are all that matters of the directory. *)
Lemma readable_same e w e' w' xs l :
  readable e w xs l -> data_dir_ e' = data_dir_ e -> memtable_max_bytes_ e' = memtable_max_bytes_ e -> memtable_ e' = memtable_ e ->
  sstables_ e' = sstables_ e -> sst_counter_ e <= sst_counter_ e' <= Names.INT_MAX -> coherent (cache w') (sstables_ e) ->
  Forall (layer_ok (data_dir_ e) (files w')) xs -> readable e' w' xs l.
Proof.
  intros [H1 H2 H3 H4 H5 H6 H7 H8] E1 E2 E3 E4 E5 Hc Hl. split; rewrite ?E1, ?E2, ?E3, ?E4; try done; [lia|].
  intros x Hx Hx'. specialize (H8 x Hx Hx'). lia.
Qed.

Lemma readable_faults f e w xs l : readable e w xs l -> readable e (set_faults f w) xs l.
Proof. by intros []. Qed.

Lemma readable_wal x e w xs l : readable e w xs l -> readable (set_wal x e) w xs l.
Proof. by intros []. Qed.

Lemma readable_mem e w xs l m g l' :
  readable e w xs l -> mt_rep m (memtable_max_bytes_ e) l' -> Forall entry_ok l' -> readable (set_memtable m g e) w xs l'.
Proof. intros [] ? ?. by split. Qed.

(** ** Flushing *)

Lemma publish_readable e w xs l :
  readable e w xs l -> flushable e w xs l ->
  let new := (0, sst_counter_ e, l) in
  wpe publish_memtable (fun r e' w' =>
    frame e w e' w' /\ wal_ e' = wal_ e /\ (io w = [] -> io w' = []) /\
    match r with
    | Ok _ => readable e' w' (xs ++ [new]) l /\ room (data_dir_ e') (files w') (xs ++ [new])
    | Throw _ => readable e' w' xs l
    | Crashed => Fault.g_armed (faults w) = true
    | Undefined => False
    end) e w.
Proof.
  intros H [Hc Hz Hn] new. pose proof H as [H1 H2 H3 H4 H5 H6 H7 H8]. set (p := Names.sstPath (data_dir_ e) 0 (sst_counter_ e)).
  assert (table_ok l) as Hok by by apply table_ok_small. pose proof (mt_rep_sorted _ _ _ H4) as Hs.
  assert (forall x, x ∈ xs -> layer_path (data_dir_ e) x <> p) as Hnew by (intros x; eapply fresh_name; (done || lia)).
  eapply wpe_mono; [apply (publish_wpe e w l); (done || lia)|]. intros r e' w' (Hfr & Hw & Hm & Hca & Hi & _ & Hcr & Hr).
  pose proof (fr_dir _ _ _ _ Hfr) as Hd. pose proof (fr_max _ _ _ _ Hfr) as Hx. split_and!; auto.
  destruct r as [[]|x| |]; [| |by apply Hcr|done].
  2: { destruct Hr as (R1 & R2 & _ & R3). eapply readable_same; try done; [lia|by rewrite Hca|].
       eapply layers_kept; [exact H1|]. intros x' Hx'. apply R3; [by apply Hnew|]. intros E.
       pose proof (layer_name (data_dir_ e) xs w H1 x' Hx') as He. rewrite E in He. apply He.
       apply Names.tmp_extension. destruct (Names.sst_name (data_dir_ e) 0 (sst_counter_ e)) as (Hne & _); (done || lia). }
  destruct Hr as (R1 & R2 & R3). pose proof (layers_snoc (data_dir_ e) (files w) xs (sst_counter_ e) l H1) as Hl.
  rewrite R3, Hd. split; [|apply room_snoc; [lia|done]].
  split; rewrite ?Hd, ?Hx, ?Hm, ?Hca, ?R1, ?R2, ?R3; try done.
  - apply Hl; (done || lia).
  - rewrite fmap_app. apply NoDup_app. split_and!; [done| |repeat constructor; set_solver].
    intros q (x & -> & Hx')%list_elem_of_fmap Hq%list_elem_of_singleton. by apply (Hnew x).
  - by rewrite H3, fmap_app.
  - apply coherent_add; [done|]. rewrite (readable_paths _ _ _ _ H). intros (x & E & Hx')%list_elem_of_fmap. by apply (Hnew x).
  - lia.
  - intros x Hx1 Hl1. apply elem_of_app in Hx1 as [Hx1|Hx1%list_elem_of_singleton]; [specialize (H8 x Hx1 Hl1); lia|subst x; cbn; lia].
Qed.

(** The compactor's step. *)
Lemma compact_readable e w xs :
  readable e w xs [] -> room (data_dir_ e) (files w) xs ->
  wpe compact_tables (fun r e' w' =>
    frame e w e' w' /\ wal_ e' = wal_ e /\
    match r with
    | Ok _ => exists xs', readable e' w' xs' [] /\ kept_or_lost w (view xs []) (view xs' [])
    | Throw _ => readable e' w' xs []
    | Crashed => Fault.g_armed (faults w) = true
    | Undefined => False
    end) e w.
Proof.
  intros H Hroom. pose proof H as [H1 H2 H3 H4 H5 H6 H7 H8]. set (dir := data_dir_ e) in *.
  unfold compact_tables. do 3 (apply wpe_bind, wpe_asks; cbn [aftere]). fold dir. rewrite H3.
  apply wpe_bind, wpe_lift. eapply wp_mono; [by apply run_keeps_spec|]. intros r w' (Hend & Hk).
  pose proof (run_ends_disarmed _ _ _ _ _ _ Hend) as Hd. destruct r as [[tables ctr]|x| |]; cbn [aftere]; [| | |done].
  2: { destruct Hk as (_ & Hl & [q Hc] & _). split_and!; [by split|done|]. eapply readable_same; try done; [lia|].
       rewrite Hc. by apply coherent_forget. }
  2: { destruct Hk as [Ha _]. split_and!; [by split|done|done]. }
  apply wpe_bind, wpe_update. cbn [aftere]. apply wpe_update. split_and!; [by split|done|].
  destruct Hk as [(_ & -> & -> & ->)|(Hge & -> & Hc & xs' & -> & [(rs & Hrs & Hm) R2 R3 R4 _])].
  { exists xs. split; [|by left]. split; try done; cbn; by rewrite <- H3. }
  rewrite Forall_forall in R4. exists xs'. split.
  - split; try done; cbn.
    + rewrite Hc. rewrite H3 in H6. pose proof (coherent_replace _ _ (layer_table dir <$> xs') H6) as Hr.
      rewrite <- (list_fmap_compose (layer_table dir) path) in Hr. apply Hr.
      intros o (x & -> & Hx)%list_elem_of_fmap. apply (R4 x Hx).
    + intros x Hx Hl. destruct (R4 x Hx) as [? _]. lia.
  - apply (kept_read w xs rs); [done|done|apply view_empty|]. intros k. rewrite view_empty. by apply merged_pieces.
Qed.

(** Clearing the log and starting a new memtable. *)
Lemma reset_readable b e w xs l s p :
  readable e w xs l -> log_rep b (wal_ e) s p -> (b = true -> Fault.g_armed (faults w) = false) ->
  wpe reset_log (fun r e' w' =>
    frame e w e' w' /\ files w' = files w /\ io w' = io w /\ (b = true -> r = Ok tt) /\
    match r with
    | Ok _ => readable e' w' xs [] /\ log_rep b (wal_ e') [] [] /\
        forall t n, log_covers b (wal_ e) s p t n -> log_passed (wal_ e') t
    | Throw _ => readable e' w' xs l \/ readable e' w' xs []
    | Crashed => Fault.g_armed (faults w) = true
    | Undefined => False
    end) e w.
Proof.
  intros H Hlog Hb. unfold reset_log. apply wpe_bind, wpe_hit. intros r f Hf Hd Hu.
  assert (r <> Ok tt -> Fault.g_armed (faults w) = true) as Ha.
  { intros Hr. destruct (Fault.g_armed (faults w)); [done|]. by destruct Hr, Hd. }
  destruct r as [[]|x| |]; cbn [aftere]; [| | |done].
  2: { split_and!; [by split|done|done|intros Hb'; by apply Hd, Hb|left; by apply readable_faults]. }
  2: { split_and!; [by split|done|done|intros Hb'; by apply Hd, Hb|by apply Ha]. }
  apply wpe_bind. unfold wpe at 1, log_op. cbn [faults set_faults].
  pose proof (log_clear_spec b (wal_ e) f s p Hlog ltac:(auto)) as Hcl.
  destruct (log_clear (wal_ e) f) as [[r x] f']. destruct Hcl as (Hf' & Hdu & Hbr & Hr). cbn [fst snd].
  assert (stays_disarmed (faults w) f') as Hf2 by by etrans.
  destruct r as [[]|q| |]; cbn [aftere]; [| |done|done].
  2: { split_and!; [by split|done|done|intros Hb'; discriminate (Hbr Hb')|left]. by apply readable_faults, readable_wal, readable_faults. }
  destruct Hr as (Hl0 & _ & Hpass).
  apply wpe_bind, wpe_asks. cbn [aftere]. apply wpe_bind, wpe_asks. cbn [aftere].
  apply wpe_bind, wpe_update. cbn [aftere]. apply wpe_hit. intros r2 f2 Hf3 Hd2 Hu2.
  cbn [faults set_faults] in Hf3, Hd2. cbn [memtable_max_bytes_ set_wal].
  set (e' := set_memtable _ _ _). set (w' := set_faults f2 _).
  assert (readable e' w' xs []) as Hr.
  { apply readable_mem with (l := l); [by destruct H; split|apply mt_create_spec|done]. }
  split_and!; [split; try done; by transitivity f'|done|done|intros Hb'; by apply Hd2, Hf2, Hb|].
  destruct r2 as [[]|y| |]; [by split_and!|by right| |done].
  destruct (Fault.g_armed (faults w)) eqn:E; [done|]. by discriminate (Hd2 (Hf2 E)).
Qed.


(** A flush, whatever calls fail: an exception leaves the contents as they were. *)
Lemma flush_readable b e w xs l s p :
  readable e w xs l -> flushable e w xs l -> log_rep b (wal_ e) s p -> (b = true -> Fault.g_armed (faults w) = false) ->
  wpe flushMemtable (fun r e' w' =>
    frame e w e' w' /\
    match r with
    | Ok _ => l = [] /\ e' = e /\ w' = w \/
        exists xs', readable e' w' xs' [] /\ kept_or_lost w (view xs l) (view xs' []) /\
          log_rep b (wal_ e') [] [] /\ forall t n, log_covers b (wal_ e) s p t n -> log_passed (wal_ e') t
    | Throw _ => exists xs' l', readable e' w' xs' l' /\ (forall k, view xs' l' k = view xs l k) /\
        (b = true -> exists s' p', log_rep b (wal_ e') s' p')
    | Crashed => Fault.g_armed (faults w) = true
    | Undefined => False
    end) e w.
Proof.
  intros H Hfl Hlog Hb. unfold flushMemtable. apply wpe_bind, wpe_asks. cbn [aftere].
  rewrite (mt_size_spec _ _ _ (rd_mem _ _ _ _ H)). destruct (Z.eqb_spec (u64 (zlen l)) 0) as [Hz|_].
  { apply wpe_ret. split; [by split|]. left. pose proof (fl_entries _ _ _ _ Hfl).
    unfold u64 in Hz. rewrite Z.mod_small in Hz by lia. split_and!; [by destruct l|done..]. }
  set (new := (0, sst_counter_ e, l)).
  assert (forall k, view (xs ++ [new]) [] k = view xs l k) as Hx0.
  { intros k. unfold view at 2. by rewrite view_empty, fmap_app. }
  assert (forall k, view (xs ++ [new]) l k = view xs l k) as Hxl by (intros k; by apply view_flushed).
  apply wpe_bind. eapply wpe_mono; [by apply publish_readable|]. fold new.
  intros r e1 w1 (Hfr1 & Hw1 & Hio1 & Hr1). destruct r as [[]|x| |]; cbn [aftere]; [| |by split|done].
  2: { split; [done|]. exists xs, l. split_and!; [done|done|]. rewrite Hw1. eauto. }
  destruct Hr1 as [H1 Hroom]. rewrite <- Hw1 in Hlog |- *.
  apply wpe_bind. eapply wpe_mono; [apply (reset_readable b e1 w1 (xs ++ [new]) l s p H1 Hlog); intros Hb'; apply Hfr1; auto|].
  intros r e2 w2 (Hfr2 & Hf2 & Hio2 & Hok2 & Hr2). pose proof (frame_trans _ _ _ _ _ _ Hfr1 Hfr2) as Hfr.
  destruct r as [[]|x| |]; cbn [aftere]; [| | |done].
  2: { split; [done|]. destruct Hr2 as [Hr2|Hr2]; [exists (xs ++ [new]), l|exists (xs ++ [new]), []];
       (split_and!; [done|done|intros Hb'; discriminate (Hok2 Hb')]). }
  2: { split; [done|]. eapply was_armed, Hr2. apply Hfr1. }
  destruct Hr2 as (H2 & Hlog2 & Hpass).
  eapply wpe_mono; [apply (compact_readable e2 w2 (xs ++ [new]) H2); by rewrite Hf2, (fr_dir _ _ _ _ Hfr2)|].
  intros r e3 w3 (Hfr3 & Hw3 & Hr3). split; [by eapply frame_trans|]. destruct r as [[]|x| |]; [| | |done].
  - right. destruct Hr3 as (xs3 & H3 & Hk). exists xs3. rewrite Hw3. split_and!; [done| |done|done].
    eapply kept_io; [|exact (kept_ext _ _ _ _ Hx0 Hk)]. intros Hio. rewrite Hio2. by apply Hio1.
  - exists (xs ++ [new]), []. split_and!; [done|done|]. rewrite Hw3. eauto.
  - eapply was_armed, Hr3. apply Hfr.
Qed.

(** ** Writing *)

Section write.
Context (b : bool) (ty : WAL.Type_) (k v : str) (mem : Rng -> Mt -> option (Rng * Mt)).
Let x : WAL.Entry := WAL.mkEntry ty k v.
Hypothesis Hmem : forall g m max l, mt_rep m max l ->
  exists g' m', mem g m = Some (g', m') /\ mt_rep m' max (apply_record l x).

(** The wait at the end of a write. *)
Lemma await_readable e w xs l s p t n :
  readable e w xs l -> log_covers b (wal_ e) s p t n -> (b = true -> Fault.g_armed (faults w) = false) ->
  wpe (await t) (fun r e' w' =>
    frame e w e' w' /\ (b = true -> r = Ok tt) /\
    match r with
    | Ok _ => readable e' w' xs l /\ exists s' p', log_rep b (wal_ e') s' p'
    | Throw _ => readable e' w' xs l
    | Crashed => True
    | Undefined => False
    end) e w.
Proof.
  intros H Ht Hb. unfold await. apply wpe_bind, wpe_asks. cbn [aftere].
  destruct (log_durable (wal_ e)); [|apply wpe_ret; split_and!; [by split|done|done|]; exists s, p; by eapply log_covers_rep].
  unfold wpe, log_op. pose proof (log_waitDurable_spec b t (wal_ e) (faults w) s p n Ht Hb) as Hw.
  destruct (log_waitDurable t (wal_ e) (faults w)) as [[r y] f]. destruct Hw as (Hf & Hdu & _ & Hbr & s' & p' & _ & _ & Hr).
  cbn [fst snd]. split_and!; [by split|done|].
  destruct r as [[]|q| |]; [split; [by apply readable_faults, readable_wal|exists s', p'; apply Hr]|by apply readable_faults, readable_wal|done|done].
Qed.

Lemma await_passed (Q : result unit -> eng -> world -> Prop) e w s p t :
  log_rep b (wal_ e) s p -> log_passed (wal_ e) t -> Q (Ok tt) e w -> wpe (await t) Q e w.
Proof.
  intros Hl Ht HQ. unfold await. apply wpe_bind, wpe_asks. cbn [aftere]. destruct (log_durable (wal_ e)); [|by apply wpe_ret].
  unfold wpe, log_op. rewrite (log_passed_spec b t (wal_ e) (faults w) s p Hl Ht). cbn [fst snd]. by destruct e, w.
Qed.

Lemma write_readable e w xs l s p :
  readable e w xs l -> log_rep b (wal_ e) s p -> (b = true -> Fault.g_armed (faults w) = false) -> writable b e w xs l x ->
  wpe (ticket ← write_locked ty k v mem; await ticket) (fun r e' w' =>
    frame e w e' w' /\
    match r with
    | Ok _ => exists xs' l' s' p', readable e' w' xs' l' /\ kept_or_lost w (upd x (view xs l)) (view xs' l') /\
        log_rep b (wal_ e') s' p'
    | Throw _ => exists xs' l', readable e' w' xs' l' /\
        ((forall k', view xs' l' k' = view xs l k') \/ (forall k', view xs' l' k' = upd x (view xs l) k')) /\
        (b = true -> (forall k', view xs' l' k' = upd x (view xs l) k') /\ exists s' p', log_rep b (wal_ e') s' p')
    | Crashed => b = false
    | Undefined => False
    end) e w.
Proof.
  intros H Hlog Hb [Hlg _ Hsz [F1 F2 F3]]. set (v1 := upd x (view xs l)).
  assert (record_ok x) as Hx by by eapply loggable_record_ok.
  assert (forall k', view xs (apply_record l x) k' = v1 k') as Hv1 by (intros k'; apply view_apply).
  apply wpe_bind, wpe_bind. unfold wpe at 1, log_op.
  pose proof (log_append_spec b ty k v (wal_ e) (faults w) s p Hlog Hb Hlg Hsz) as Ha. cbv zeta in Ha. fold x in Ha.
  destruct (log_append ty k v (wal_ e) (faults w)) as [[r y] f]. destruct Ha as (Hf & Hdu & _ & Hbr & Hr). cbn [fst snd].
  assert (frame e w (set_wal y e) (set_faults f w)) as Hfr by by split.
  destruct r as [t|q| |]; cbn [aftere]; [| | |done].
  2: { split; [done|]. exists xs, l. split_and!; [by apply readable_faults, readable_wal|by left|].
       intros Hb'. destruct (Hbr Hb') as [? ?]. done. }
  2: { split; [done|]. destruct b; [|done]. by destruct (Hbr eq_refl). }
  destruct (Hmem (rng e) _ _ _ (rd_mem _ _ _ _ H)) as (g & m & Hm & Hrep).
  set (e1 := set_memtable m g (set_wal y e)). set (w1 := set_faults f w).
  assert (readable e1 w1 xs (apply_record l x)) as H1.
  { apply readable_mem with (l := l); [by apply readable_faults, readable_wal|done|]. apply ainsert_Forall; [done|apply H]. }
  assert (frame e w e1 w1) as Hfr1 by by split.
  apply wpe_bind. unfold wpe at 1, mem_op. cbn [rng memtable_ set_wal]. rewrite Hm. cbn [fst snd aftere]. fold e1.
  apply wpe_bind, wpe_asks. cbn [aftere].
  assert (b = true -> Fault.g_armed f = false) as Hb1 by auto.
  assert (log_covers b (wal_ e1) s (p ++ [x]) t (length (s ++ p ++ [x]))) as Hcov by exact Hr.
  assert (wpe (await t) (fun r e' w' => frame e w e' w' /\
      match r with
      | Ok _ => exists xs' l' s' p', readable e' w' xs' l' /\ kept_or_lost w v1 (view xs' l') /\ log_rep b (wal_ e') s' p'
      | Throw _ => exists xs' l', readable e' w' xs' l' /\
          ((forall k', view xs' l' k' = view xs l k') \/ (forall k', view xs' l' k' = v1 k')) /\
          (b = true -> (forall k', view xs' l' k' = v1 k') /\ exists s' p', log_rep b (wal_ e') s' p')
      | Crashed => b = false
      | Undefined => False
      end) e1 w1) as Hwait.
  { eapply wpe_mono; [by eapply await_readable|]. intros r e' w' (Hfr2 & Hok & Hr2).
    split; [by eapply frame_trans|]. destruct r as [[]|q| |]; [| | |done].
    - destruct Hr2 as (H2 & s' & p' & Hl2). exists xs, (apply_record l x), s', p'. split_and!; [done|by left|done].
    - exists xs, (apply_record l x). split_and!; [done|by right|intros Hb'; discriminate (Hok Hb')].
    - destruct b; [discriminate (Hok eq_refl)|done]. }
  apply wpe_bind. destruct (mt_isFull (memtable_ e1)).
  2: { apply wpe_ret. cbn [aftere]. apply wpe_ret. cbn [aftere]. exact Hwait. }
  eapply wpe_mono; [apply (flush_readable b e1 w1 xs (apply_record l x) s (p ++ [x]) H1)|]; [by split|by eapply log_covers_rep|done|].
  intros r e2 w2 (Hfr2 & Hr2). pose proof (frame_trans _ _ _ _ _ _ Hfr1 Hfr2) as Hfr3.
  destruct r as [[]|q| |]; cbn [aftere]; [| | |done].
  - apply wpe_ret. cbn [aftere]. destruct Hr2 as [(_ & -> & ->)|(xs2 & H2 & Hk & Hl2 & Hp2)]; [exact Hwait|].
    eapply await_passed; [exact Hl2|by eapply Hp2|]. split; [done|]. exists xs2, [], [], []. split_and!; [done| |done].
    eapply kept_ext, Hk. exact Hv1.
  - destruct Hr2 as (xs2 & l2 & H2 & Hv2 & Hl2). split; [done|]. exists xs2, l2.
    assert (forall k', view xs2 l2 k' = v1 k') as Hv3 by (intros k'; by rewrite Hv2). split_and!; [done|by right|auto].
  - split; [done|]. destruct b; [|done]. cbn in Hr2. by rewrite Hb1 in Hr2.
Qed.
End write.


(** ** Property *)

(** A write's record. *)
Definition record_of (o : op) : option WAL.Entry :=
  match o with
  | Put k v => Some (WAL.mkEntry WAL.PUT k v)
  | Del k => Some (WAL.mkEntry WAL.DEL k [])
  | _ => None
  end.

(** The contents an operation asks for. *)
Definition asked (o : op) (v : str -> option str) : str -> option str :=
  match record_of o with Some x => upd x v | None => v end.

Definition roomy_now b (o : op) e w xs l : Prop :=
  match o with
  | Put _ _ | Del _ => forall x, record_of o = Some x -> writable b e w xs l x
  | Flush => flushable e w xs l
  | _ => False
  end.

(** How an operation on a readable engine ends. *)
Definition op_ends b (o : op) w xs l (r : result answer) e' w' : Prop :=
  match r with
  | Ok _ => exists xs' l', readable e' w' xs' l' /\ kept_or_lost w (asked o (view xs l)) (view xs' l') /\
      exists s' p', log_rep b (wal_ e') s' p'
  | Throw _ => exists xs' l', readable e' w' xs' l' /\
      ((forall k, view xs' l' k = view xs l k) \/ forall k, view xs' l' k = asked o (view xs l) k) /\
      (b = true -> (forall k, view xs' l' k = asked o (view xs l) k) /\ exists s' p', log_rep b (wal_ e') s' p')
  | Crashed => b = false
  | Undefined => False
  end.

Lemma write_ends_op b o ty k v mem e w xs l s p :
  record_of o = Some (WAL.mkEntry ty k v) ->
  (forall g m max l, mt_rep m max l -> exists g' m', mem g m = Some (g', m') /\ mt_rep m' max (apply_record l (WAL.mkEntry ty k v))) ->
  readable e w xs l -> log_rep b (wal_ e) s p -> (b = true -> Fault.g_armed (faults w) = false) ->
  writable b e w xs l (WAL.mkEntry ty k v) ->
  wpe ((ticket ← write_locked ty k v mem; await ticket) ;; mret Done) (op_ends b o w xs l) e w.
Proof.
  intros Ho Hmem H Hlog Hb Hw. apply wpe_bind. eapply wpe_mono; [by eapply write_readable|].
  intros r e' w' [_ Hr]. unfold op_ends, asked. rewrite Ho. destruct r as [[]|x| |]; cbn [aftere]; try done.
  apply wpe_ret. destruct Hr as (xs' & l' & s' & p' & ? & ? & ?). exists xs', l'. eauto.
Qed.

Lemma exec_readable b o e w xs l s p :
  readable e w xs l -> log_rep b (wal_ e) s p -> (b = true -> Fault.g_armed (faults w) = false) -> roomy_now b o e w xs l ->
  wpe (exec o) (op_ends b o w xs l) e w.
Proof.
  intros H Hlog Hb Hroom. destruct o as [k v|k| | | |]; cbn [roomy_now] in Hroom; try done.
  - eapply write_ends_op; try done; [|by apply Hroom]. intros g m max l' Hm. apply (mt_put_spec m max l' k v g Hm).
  - eapply write_ends_op; try done; [|by apply Hroom]. intros g m max l' Hm. apply (mt_del_spec m max l' k g Hm).
  - apply wpe_bind. unfold wpe at 1. rewrite flush_same. eapply (wpe_mono flushMemtable); [by eapply flush_readable|].
    intros r e' w' [_ Hr]. unfold op_ends, asked. cbn [record_of]. destruct r as [[]|x| |]; cbn [aftere]; [| | |done].
    + apply wpe_ret. destruct Hr as [(-> & -> & ->)|(xs' & ? & ? & ? & _)]; [exists xs, []|exists xs', []]; split_and!; eauto. by left.
    + destruct Hr as (xs' & l' & ? & Hv & Hl). exists xs', l'. split_and!; [done|by left|auto].
    + destruct b; [|done]. rewrite Hb in Hr by done. done.
Qed.



End fail.

(** ** Witness and examples: the memtable and the writer on the scripted kernel *)

(** A put that fills the memtable; the directory's [fsync] fails in the flush. *)
Definition big_put : op := Put (bs "a") (replicate 1200 x61).
Definition failing_world : world := mkWorld ∅ (replicate 8 Success ++ [Failure]) BlockCache.global Fault.init.

Lemma failed_put : (exec big_put fresh failing_world).1.1 = Throw (RuntimeError "SSTable: directory fsync failed").
Proof. vm_compute. reflexivity. Qed.

Lemma failing_room : room_for true fresh failing_world (Some (WAL.mkEntry WAL.PUT (bs "a") (replicate 1200 x61))) = true.
Proof. vm_compute. reflexivity. Qed.

Lemma failing_readable : readable fresh failing_world [] [].
Proof. destruct (inv_readable _ _ _ _ (rn_inv _ _ _ _ _ _ _ (fresh_running Fault.init))). by split. Qed.


(** Reopening an engine after its destructor, on a working system. *)
Definition reopened (e : engine Memtable.t (WalWriter.t Kernel.scripted)) (w : world) (ops : list op) : list answer * result unit :=
  match destruct_ e w with
  | (Ok d, w) =>
      match construct (Mt := Memtable.t) (W := WalWriter.t Kernel.scripted) db 1000 true sample_rng d (reborn Fault.init w) with
      | (Ok e, w) => (exec_all ops e w).1.1
      | _ => ([], Undefined)
      end
  | _ => ([], Undefined)
  end.

(** A compaction whose output, already renamed, cannot be opened, and whose
    removal of that output fails too, which the code ignores. *)
Definition four_tables : list op :=
  [Put (bs "k") (bs "1"); Flush; Put (bs "b") (bs "1"); Flush; Put (bs "c") (bs "1"); Flush; Put (bs "d") (bs "1")].
Definition before_compaction := exec_all four_tables fresh (fresh_world Fault.init).
Definition kept_output :=
  exec Flush before_compaction.1.2 (set_io (replicate 36 Success ++ [Failure; Failure]) before_compaction.2).
Definition deleted := exec_all [Del (bs "k"); Flush; Get (bs "k")] kept_output.1.2 kept_output.2.

(** The flush throws; afterwards [k] is deleted and a compaction succeeds, which
    drops the tombstone and leaves the stray file alone: after a restart [k] is
    back. *)
Example ignored_removal_resurrects :
  kept_output.1.1 = Throw (RuntimeError "SSTable: cannot open") /\
  deleted.1.1 = ([Done; Done; Value None], Ok tt) /\
  reopened deleted.1.2 deleted.2 [Get (bs "k")] = ([Value (Some (bs "1"))], Ok tt).
Proof. vm_compute. repeat split. Qed.


End EngineFail.
