(* ===== verification/EngineThreads.v ===== *)
(** * The engine under concurrent calls

    Models [src/db/lsm_engine.cpp] called by any number of threads over the log of
    [WalThreads].  What a call does with [mu_] held exclusively is cut where the
    threads that wait for the log, which hold other locks, can come in between:
    the append with the memtable's part, and of a flush the new table, the
    clearing of the log (which waits for a group commit under way) with the new
    memtable, and the compaction.  A lookup or a scan holds [mu_] shared for its
    whole length, and readers touch nothing but the block cache, which has locks
    of its own: it is one step.  No lock is held while a call waits for its
    ticket. *)

From S2P Require Import Prelude WalFormat Fault Kernel World BlockCache Memtable Names TableFormat SSTable Layers Compaction Scan LogSpec WalWriter WalLog WalThreads Engine EngineLife.
Open Scope Z_scope.

Module EngineThreads.
Import Engine.

(** What is left of a flush. *)
Inductive phase := ToPublish | ToReset | ToCompact.

Section threads.
Context {Mt : Type} `{!MemtableOps Mt} {R : Type} {Uring0 : Kernel.Uring R}.
#[local] Abbreviation eng := (engine Mt (WalWriter.t R)).
#[local] Abbreviation E := (E Mt (WalWriter.t R)).

(** ** State *)

Record config := mkConfig {
  eng_ : eng;
  wld_ : world;
  opened : nat;                                (* as in [WalThreads] *)
  log : list WAL.Entry;
  history : list WAL.Entry;                    (* all records the log took, cleared or not *)
  threads : gmap nat WalThreads.pc;
  mu_ : option (nat * phase);                  (* held exclusively, by a call in its flush *)
  apart : bool;                                (* an append threw after its record was taken *)
  running : WalThreads.status
}.
Implicit Types (c : config) (e : eng) (w : world).

(** The log as [WalThreads] has it. *)
Definition log_part c : WalThreads.config R :=
  WalThreads.mkConfig (wal_ (eng_ c)) (faults (wld_ c)) (opened c) (log c) (threads c) (running c).

Definition with_log (l : WalThreads.config R) c : config :=
  mkConfig (set_wal (WalThreads.wal l) (eng_ c)) (set_faults (WalThreads.flt l) (wld_ c)) (WalThreads.opened l) (WalThreads.log l)
    (history c ++ drop (length (log c)) (WalThreads.log l)) (WalThreads.threads l) (mu_ c) (apart c) (WalThreads.running l).

Definition with_engine e w c : config :=
  mkConfig e w (opened c) (log c) (history c) (threads c) (mu_ c) (apart c) (running c).
Definition with_status (s : WalThreads.status) c : config :=
  mkConfig (eng_ c) (wld_ c) (opened c) (log c) (history c) (threads c) (mu_ c) (apart c) s.
Definition with_mu (m : option (nat * phase)) c : config :=
  mkConfig (eng_ c) (wld_ c) (opened c) (log c) (history c) (threads c) m (apart c) (running c).
Definition with_pc (i : nat) (p : WalThreads.pc) c : config :=
  mkConfig (eng_ c) (wld_ c) (opened c) (log c) (history c) (<[i := p]> (threads c)) (mu_ c) (apart c) (running c).
Definition split c : config :=
  mkConfig (eng_ c) (wld_ c) (opened c) (log c) (history c) (threads c) (mu_ c) true (running c).

(** The longest record the callers write. *)
Variable limit : Z.

(** ** The sections of a call *)

(** [mu_] is released: a write goes on to wait for its ticket, in durable mode, or
    has thrown. *)
Definition leave (i : nat) (thrown : bool) c : config :=
  let c := with_mu None c in
  match threads c !! i with
  | Some (WalThreads.Holding x) =>
      with_pc i (if negb thrown && WalWriter.durability_ (wal_ (eng_ c)) then WalThreads.AtTest x else WalThreads.Outside) c
  | _ => c                                     (* flush() *)
  end.

(** Thread [i] runs [m], with [mu_] held. *)
Definition section {A} (i : nat) (m : E A) (next : config -> config) c : config :=
  match m (eng_ c) (wld_ c) with
  | (Ok _, e, w) => next (with_engine e w c)
  | (Throw _, e, w) => leave i true (with_engine e w c)
  | (Crashed, e, w) => with_status WalThreads.Died (with_engine e w c)
  | (Undefined, e, w) => with_status WalThreads.Undef (with_engine e w c)
  end.

(** [if (memtable_->empty()) return;] and what comes before the table is written. *)
Definition begin_flush (i : nat) c : config :=
  if mt_size (memtable_ (eng_ c)) =? 0 then leave i false c else with_mu (Some (i, ToPublish)) c.

Definition mem_write (ty : WAL.Type_) (k v : str) : Rng -> Mt -> option (Rng * Mt) :=
  match ty with WAL.PUT => mt_put k v | WAL.DEL => mt_del k end.

(** The memtable's part of [put] and [del]. *)
Definition applied (i : nat) (ty : WAL.Type_) (k v : str) c : config :=
  section i (mem_op (mem_write ty k v))
    (fun c => if mt_isFull (memtable_ (eng_ c)) then begin_flush i c else leave i false c) c.

Definition write (i : nat) (ty : WAL.Type_) (k v : str) c : option config :=
  l ← WalThreads.act limit (WalThreads.Append i ty k v) (log_part c);
  let c' := with_log l c in
  Some (match WalThreads.running l, WalThreads.threads l !! i with
        | WalThreads.Running, Some (WalThreads.Holding _) => applied i ty k v c'
        | WalThreads.Running, Some WalThreads.Outside => if (length (log c') =? length (log c))%nat then c' else split c'
        | _, _ => c'
        end).

Definition publish : E unit := publish_memtable ;; lift (hit "flush.after_sst").

Definition replace_memtable : E unit :=
  max ← asks memtable_max_bytes_;
  g ← asks rng;
  update (set_memtable (mt_create max) g) ;;
  lift (hit "flush.after_wal_clear").

(** Numbers and sizes leave room for a flush. *)
Definition roomy c : bool :=
  match mt_entries (memtable_ (eng_ c)) with Some l => EngineLife.flush_room (eng_ c) (wld_ c) l | None => false end.

(** The next section of the flush under way. *)
Definition proceed c : option config :=
  match mu_ c with
  | None => None
  | Some (i, ToPublish) => if roomy c then Some (section i publish (with_mu (Some (i, ToReset))) c) else None
  | Some (i, ToReset) =>
      l ← WalThreads.act limit WalThreads.Clear (log_part c);
      let c := with_log l c in
      Some (match running c with
            | WalThreads.Running => section i replace_memtable (with_mu (Some (i, ToCompact))) c
            | _ => c
            end)
  | Some (i, ToCompact) => Some (section i compact_tables (leave i false) c)
  end.

(** A reader's section. *)
Definition read {A} (m : E A) c : config := let '(_, e, w) := m (eng_ c) (wld_ c) in with_engine e w c.

(** ** Steps *)

Inductive action :=
  | Put (i : nat) (k v : str)
  | Del (i : nat) (k : str)
  | Flush (i : nat)
  | Proceed                                    (* the flush under way *)
  | Get (k : str)
  | ScanRange (start : str) (end_ : option str) (limit : Z)
  | Sync (i : nat)
  | Go (i : nat)                               (* a section of waitDurable *)
  | Awaken (i : nat).

Definition on_log (a : WalThreads.action) c : option config := l ← WalThreads.act limit a (log_part c); Some (with_log l c).

(** [mu_] can be taken. *)
Definition lock_free c : bool := match mu_ c, running c with None, WalThreads.Running => negb (apart c) | _, _ => false end.

Definition holds_lock (i : nat) c : bool := match mu_ c with Some (j, _) => (i =? j)%nat | None => false end.

Definition act (a : action) c : option config :=
  match a with
  | Put i k v => if lock_free c then write i WAL.PUT k v c else None
  | Del i k => if lock_free c then write i WAL.DEL k [] c else None
  | Flush i => if lock_free c && WalThreads.idle (threads c !! i) then Some (begin_flush i c) else None
  | Proceed => match running c with WalThreads.Running => if apart c then None else proceed c | _ => None end
  | Get k => if lock_free c then Some (read (get k) c) else None
  | ScanRange start end_ count => if lock_free c && (0 <=? count) then Some (read (scan start end_ count) c) else None
  | Sync i => if holds_lock i c then None else c ← on_log (WalThreads.Barrier i) c; on_log (WalThreads.AwaitTicket i) c
  | Go i => on_log (WalThreads.Go i) c
  | Awaken i => on_log (WalThreads.Awaken i) c
  end.

Definition step c c' : Prop := exists a, act a c = Some c'.

(** An engine just opened, whose log holds the records [es]. *)
Definition start e w (es : list WAL.Entry) : config := mkConfig e w 0 es es ∅ None false WalThreads.Running.

Fixpoint acts (l : list action) c : option config :=
  match l with
  | [] => Some c
  | a :: l => match act a c with Some c => acts l c | None => None end
  end.

Lemma actions_reach l c c' : acts l c = Some c' -> rtc step c c'.
Proof.
  revert c. induction l as [|a l IH]; intros c Ha; [by injection Ha as ->|].
  cbn in Ha. destruct (act a c) as [c1|] eqn:E; [|done]. eapply rtc_l; [by exists a|by apply IH].
Qed.

(** The flush under way, with nothing in between. *)
Fixpoint finish (n : nat) c : option config :=
  match running c, mu_ c, n with
  | WalThreads.Running, Some _, O => None
  | WalThreads.Running, Some _, S n => c ← proceed c; finish n c
  | _, _, _ => Some c
  end.

End threads.
Arguments config : clear implicits.

End EngineThreads.
