(* ===== verification/EngineThreadsSpec.v ===== *)
(** * The invariant of the engine under concurrent calls

    What holds of every configuration of [EngineThreads]: the log part keeps the
    invariant of [WalThreadsSpec]; the tables show the records up to the last
    flush, the memtable is the log's replay, and the two together show what the
    history of all records makes of the store's contents.  Every step keeps it,
    and it says what a death may leave. *)

From S2P Require Import Prelude WalFormat Kernel Bloom BlockCache Fault Memtable World Names TableFormat SSTable Layers Compaction CompactionSpec CompactionRun Store Scan Replay LogSpec WalWriter WalDisk WalWriterSpec WalLog GroupCommit WalThreads WalThreadsSpec WalThreadsLife Engine EngineSpec EngineWrite EngineRecovery EngineLife EngineThreads.
Open Scope Z_scope.

Module EngineThreadsSpec.
Import TableFormat Layers CompactionRun Store Replay WalLog Engine EngineSpec EngineWrite EngineRecovery EngineThreads.

(** ** Contents *)

(** What the records [es] make of the contents [init]. *)
Definition contents (init : str -> option str) (es : list WAL.Entry) (k : str) : option str :=
  match last (writes k es) with Some v => v | None => init k end.

Lemma contents_view xs es k : view xs (mem_of es) k = contents (fun k => visible k xs.*2) es k.
Proof. unfold contents. by rewrite view_lookup, mem_of_lookup. Qed.

Lemma contents_app init es es' k : contents init (es ++ es') k = contents (contents init es) es' k.
Proof. unfold contents. rewrite writes_app, last_app. by destruct (last (writes k es')). Qed.

Lemma contents_ext init init' es k : init k = init' k -> contents init es k = contents init' es k.
Proof. unfold contents. by intros ->. Qed.

(** Records that are replayed again above themselves. *)
Lemma contents_again init pre es k : pre `prefix_of` es -> contents (contents init pre) es k = contents init es k.
Proof.
  intros [more ->]. unfold contents. rewrite writes_app, last_app. destruct (last (writes k more)); [done|].
  by destruct (last (writes k pre)).
Qed.

(** What is read under [k] if the first [n] records and some of the others, [es],
    are replayed above the contents after [pre]: the contents at a moment that is
    not before [u], for any [u] up to [n]. *)
Lemma contents_moment init pre log es n u k :
  pre `prefix_of` log -> take n log `prefix_of` es -> es `sublist_of` log -> (u <= n)%nat -> (u <= length log)%nat ->
  exists m, (u <= m <= length log)%nat /\ contents (contents init pre) es k = contents init (take m log) k.
Proof.
  intros Hpre [p' ->] Hsub Hun Hul. destruct (last (writes k (take n log ++ p'))) as [v|] eqn:Hw.
  - rewrite <- (take_drop n log) in Hsub at 2. apply sublist_app_inv_l in Hsub.
    destruct (sublist_prefix (take n log) (drop n log) p' k Hsub) as (p1 & Hp1 & He). rewrite !mem_of_lookup, Hw in He.
    exists (length (take n log ++ p1)). destruct Hp1 as [q Hq].
    assert (log = (take n log ++ p1) ++ q) as Hlog by (by rewrite <- app_assoc, <- Hq, take_drop).
    assert (take (length (take n log ++ p1)) log = take n log ++ p1) as -> by exact (eq_trans (f_equal _ Hlog) (take_app_length _ _)).
    apply (f_equal length) in Hlog. rewrite !length_app, length_take in *. split; [lia|].
    unfold contents at 1 3. by rewrite Hw, <- He.
  - exists (length pre `max` u)%nat. pose proof (prefix_length _ _ Hpre). split; [lia|].
    assert (contents (contents init pre) (take n log ++ p') k = contents init pre k) as -> by (unfold contents at 1; by rewrite Hw).
    rewrite writes_app, last_app in Hw. destruct (last (writes k p')); [done|].
    destruct Hpre as [more ->]. destruct (Nat.max_spec (length pre) u) as [[Hlt ->]|[_ ->]]; [|by rewrite take_app_length].
    assert (take u (pre ++ more) `prefix_of` take n (pre ++ more)) as [q Hq] by (rewrite <- (Nat.min_l u n Hun), <- take_take; apply prefix_take).
    rewrite Hq, writes_app, last_app in Hw. destruct (last (writes k q)); [done|].
    unfold contents. rewrite Hw. assert (pre `prefix_of` take u (pre ++ more)) as [q2 Hq2] by (rewrite take_app_ge by lia; by apply prefix_app_r).
    rewrite Hq2, writes_app, last_app in Hw. destruct (last (writes k q2)); [done|]. by rewrite Hw.
Qed.

Section spec.
Context {Mt : Type} `{!MemtableOps Mt} `{!MemtableSpec Mt} {R : Type} {Uring0 : Kernel.Uring R} {UringSpec0 : Kernel.UringSpec R}.
#[local] Abbreviation eng := (engine Mt (WalWriter.t R)).
Implicit Types (c : config Mt R) (e : eng) (w : world) (xs : list layer) (pre old : list WAL.Entry).

Variable (b : bool) (init : str -> option str).
Abbreviation limit := (Kernel.write_limit Kernel.whole_write b).

(** ** The invariant *)

(** What survives: the tables hold what the records [pre] left of those before the
    log was last cleared, [old]. *)
Record kept c xs pre old : Prop := {
  k_stored : stored (data_dir_ (eng_ c)) (files (wld_ c)) xs;
  k_pre : pre `prefix_of` log c;
  k_history : history c = old ++ log c;
  k_tables : forall k, visible k xs.*2 = contents init (old ++ pre) k;
  k_records : Forall record_ok (log c)
}.

Definition phase_ok c xs pre : Prop :=
  match mu_ c with
  | Some (_, ToReset) => pre = log c /\ room (data_dir_ (eng_ c)) (files (wld_ c)) xs
  | Some (_, ToCompact) => log c = [] /\ room (data_dir_ (eng_ c)) (files (wld_ c)) xs
  | _ => True
  end.

(** What callers see. *)
Record live c xs pre : Prop := {
  lv_inv : inv (eng_ c) (wld_ c) xs (mem_of (log c));
  lv_io : io (wld_ c) = [];
  lv_phase : phase_ok c xs pre
}.

Definition einv c : Prop :=
  match running c with
  | WalThreads.Running => WalThreadsSpec.inv b (log_part c) /\ exists xs pre old, kept c xs pre old /\ (apart c = false -> live c xs pre)
  | WalThreads.Died => WalThreadsSpec.inv b (log_part c) /\ exists xs pre old, kept c xs pre old
  | WalThreads.ClearThrew => True
  | WalThreads.Undef => False
  end.

Lemma live_contents c xs pre old k :
  kept c xs pre old -> view xs (mem_of (log c)) k = contents init (history c) k.
Proof.
  intros [_ Hpre Hh Ht _]. rewrite contents_view, Hh, contents_app, <- (contents_again (contents init old) pre) by done.
  apply contents_ext. cbv beta. by rewrite Ht, contents_app.
Qed.

(** ** The log's part *)

Lemma log_part_with_log (l : WalThreads.config R) c : log_part (with_log l c) = l.
Proof. by destruct l. Qed.

(** A section of the engine touches the log's fault registry only. *)
Lemma log_inv_faults (l : WalThreads.config R) f :
  WalThreadsSpec.inv b l -> stays_disarmed (WalThreads.flt l) f ->
  WalThreadsSpec.inv b (WalThreads.mkConfig (WalThreads.wal l) f (WalThreads.opened l) (WalThreads.log l) (WalThreads.threads l) (WalThreads.running l)).
Proof.
  assert (forall k l0 l1 n, WalThreadsSpec.log_inv b l k l0 l1 n -> stays_disarmed (WalThreads.flt l) f ->
    WalThreadsSpec.log_inv b (WalThreads.mkConfig (WalThreads.wal l) f (WalThreads.opened l) (WalThreads.log l) (WalThreads.threads l) (WalThreads.running l)) k l0 l1 n) as Hlog.
  { intros k l0 l1 n [Hw H2 H3 H4] Hf. split; try done. eapply WalLog.winv_any; [exact Hw|]. intros ->. split; [done|].
    apply Hf, (WalWriterSpec.co_fine _ _ _ _ _ _ _ _ _ (proj1 Hw) eq_refl). }
  unfold WalThreadsSpec.inv. cbn [WalThreads.running]. destruct (WalThreads.running l); [| |done..].
  - intros (k & l0 & l1 & n & ld & st & m & H1 & [V1 V2 V3 V4 V5]) Hf. exists k, l0, l1, n, ld, st, m. split; [by apply Hlog|by split].
  - intros (k & l0 & l1 & n & H1) Hf. exists k, l0, l1, n. by apply Hlog.
Qed.

Lemma log_inv_died (l : WalThreads.config R) :
  WalThreadsSpec.inv b l -> WalThreads.running l = WalThreads.Running ->
  WalThreadsSpec.inv b (WalThreads.mkConfig (WalThreads.wal l) (WalThreads.flt l) (WalThreads.opened l) (WalThreads.log l) (WalThreads.threads l) WalThreads.Died).
Proof.
  intros Hl Hrun. destruct (WalThreadsLife.inv_running _ _ Hl Hrun) as (k & l0 & l1 & n & ld & st & m & [H1 H2 H3 H4] & _).
  exists k, l0, l1, n. by split.
Qed.

(** After a section that left the log alone. *)
Lemma log_inv_engine c e w :
  WalThreadsSpec.inv b (log_part c) -> frame (eng_ c) (wld_ c) e w -> wal_ e = wal_ (eng_ c) ->
  WalThreadsSpec.inv b (log_part (with_engine e w c)).
Proof. intros Hl [_ _ _ Hf] Hw. unfold log_part. cbn. rewrite Hw. by apply (log_inv_faults (log_part c)). Qed.

(** The log has taken the records [more], or has been left as it was. *)
Lemma kept_log c (l : WalThreads.config R) xs pre old more :
  kept c xs pre old -> WalThreads.log l = log c ++ more -> Forall record_ok more -> kept (with_log l c) xs pre old.
Proof.
  intros [H1 H2 H3 H4 H5] Hl Hm. split; cbn; rewrite ?Hl; try done.
  - by apply prefix_app_r.
  - by rewrite H3, drop_app_length, app_assoc.
  - by apply Forall_app.
Qed.

Lemma live_log c (l : WalThreads.config R) xs pre :
  live c xs pre -> WalThreads.log l = log c -> live (with_log l c) xs pre.
Proof.
  intros [H1 H2 H3] Hl. split; [|done|].
  - cbn. rewrite Hl. by apply inv_faults, inv_wal.
  - unfold phase_ok in *. cbn. by rewrite Hl.
Qed.

Lemma kept_same c (l : WalThreads.config R) xs pre old :
  kept c xs pre old -> WalThreads.log l = log c -> kept (with_log l c) xs pre old.
Proof. intros Hk Hl. apply (kept_log c (l : WalThreads.config R) xs pre old []); [done|by rewrite app_nil_r|done]. Qed.

(** A step of the log that leaves its records alone. *)
Lemma einv_log c (l : WalThreads.config R) :
  einv c -> running c = WalThreads.Running -> WalThreadsSpec.inv b l -> WalThreads.log l = log c -> einv (with_log l c).
Proof.
  unfold einv at 1. intros Hc Hrun Hl Hlog. rewrite Hrun in Hc. destruct Hc as (_ & xs & pre & old & Hk & Hlive).
  pose proof (kept_same _ _ _ _ _ Hk Hlog) as Hk'. unfold einv. rewrite log_part_with_log. unfold with_log at 1. cbn [running].
  unfold WalThreadsSpec.inv in *. destruct (WalThreads.running l); [| |done..].
  - split; [done|]. exists xs, pre, old. split; [done|]. intros Ha. apply live_log; auto.
  - split; [done|]. by exists xs, pre, old.
Qed.

(** ** Sections with the lock held *)

Lemma phase_free c xs pre : mu_ c = None -> phase_ok c xs pre.
Proof. unfold phase_ok. by intros ->. Qed.

(** The lock's holder goes on, or the lock is free. *)
Lemma einv_mu c m xs pre old :
  WalThreadsSpec.inv b (log_part c) -> running c = WalThreads.Running -> kept c xs pre old -> (apart c = false -> live c xs pre) ->
  phase_ok (with_mu m c) xs pre -> einv (with_mu m c).
Proof.
  intros Hl Hrun [] Hlive Hph. unfold einv. cbn [running with_mu]. rewrite Hrun. split; [done|]. exists xs, pre, old. split; [by split|].
  intros Ha. destruct (Hlive Ha). by split.
Qed.

Lemma einv_leave c i thrown : einv c -> running c = WalThreads.Running -> einv (leave i thrown c).
Proof.
  intros Hc Hrun. pose proof Hc as Hc2. unfold einv in Hc. rewrite Hrun in Hc. destruct Hc as (Hl & xs & pre & old & Hk & Hlive).
  assert (einv (with_mu None c)) as Hfree by (by eapply einv_mu; [..|apply phase_free]).
  unfold leave. cbn [threads with_mu]. destruct (threads c !! i) as [[]|] eqn:Hi; try done.
  set (q := if _ : bool then _ else _).
  assert (exists l, WalThreadsSpec.inv b l /\ WalThreads.log l = log c /\ with_log l (with_mu None c) = with_pc i q (with_mu None c)) as (l & Hl' & Hlog & <-).
  { assert (forall a, WalThreads.act limit a (log_part c) = Some (WalThreads.mkConfig (wal_ (eng_ c)) (faults (wld_ c)) (opened c) (log c) (<[i := q]> (threads c)) WalThreads.Running) ->
      exists l, WalThreadsSpec.inv b l /\ WalThreads.log l = log c /\ with_log l (with_mu None c) = with_pc i q (with_mu None c)) as Ha.
    { intros a Ha. eexists. split; [by eapply WalThreadsSpec.inv_act|]. split; [done|]. unfold with_log, with_pc, with_mu. cbn.
      rewrite drop_all, app_nil_r, Hrun. by destruct (eng_ c), (wld_ c). }
    unfold q. destruct (_ && _).
    - apply (Ha (WalThreads.AwaitTicket i)). unfold WalThreads.act. cbn. by rewrite Hrun, Hi.
    - apply (Ha (WalThreads.Leave i)). unfold WalThreads.act. cbn. by rewrite Hrun, Hi. }
  by apply einv_log.
Qed.

(** The state after a section: the tables [xs'], of which the records [pre'] are
    the last flush, and a memtable that is still the log's. *)
Lemma einv_engine c e w xs' pre' old :
  WalThreadsSpec.inv b (log_part c) -> running c = WalThreads.Running -> frame (eng_ c) (wld_ c) e w -> wal_ e = wal_ (eng_ c) ->
  history c = old ++ log c -> Forall record_ok (log c) -> pre' `prefix_of` log c ->
  (forall k, visible k xs'.*2 = contents init (old ++ pre') k) ->
  inv e w xs' (mem_of (log c)) -> io w = [] -> forall m, phase_ok (with_mu m (with_engine e w c)) xs' pre' ->
  einv (with_mu m (with_engine e w c)).
Proof.
  intros Hl Hrun Hfr Hw Hh Hr Hp Ht Hi Hio m Hph. unfold einv. cbn [running with_mu with_engine]. rewrite Hrun.
  split; [by apply log_inv_engine|]. exists xs', pre', old. split; [split; cbn; try done; apply Hi|]. intros _. by split.
Qed.

Lemma einv_died c e w xs' pre' old :
  WalThreadsSpec.inv b (log_part c) -> running c = WalThreads.Running -> frame (eng_ c) (wld_ c) e w -> wal_ e = wal_ (eng_ c) ->
  history c = old ++ log c -> Forall record_ok (log c) -> pre' `prefix_of` log c ->
  (forall k, visible k xs'.*2 = contents init (old ++ pre') k) -> stored (data_dir_ e) (files w) xs' ->
  einv (with_status WalThreads.Died (with_engine e w c)).
Proof.
  intros Hl Hrun Hfr Hw Hh Hr Hp Ht Hst. unfold einv. cbn [running with_status]. split.
  - apply (log_inv_died (log_part (with_engine e w c))); [by apply log_inv_engine|done].
  - exists xs', pre', old. by split.
Qed.

(** A section that throws. *)
Lemma einv_thrown c e w i xs' pre' old :
  WalThreadsSpec.inv b (log_part c) -> running c = WalThreads.Running -> frame (eng_ c) (wld_ c) e w -> wal_ e = wal_ (eng_ c) ->
  history c = old ++ log c -> Forall record_ok (log c) -> pre' `prefix_of` log c ->
  (forall k, visible k xs'.*2 = contents init (old ++ pre') k) ->
  inv e w xs' (mem_of (log c)) -> io w = [] -> einv (leave i true (with_engine e w c)).
Proof.
  intros. change (leave i true (with_engine e w c)) with (leave i true (with_mu None (with_engine e w c))).
  apply einv_leave; [|done]. eapply einv_engine; eauto. by apply phase_free.
Qed.

Lemma wpe_section {A} i (m : E Mt (WalWriter.t R) A) next c (Q : config Mt R -> Prop) :
  wpe m (fun r e w => Q (section i (fun _ _ => (r, e, w)) next c)) (eng_ c) (wld_ c) -> Q (section i m next c).
Proof. unfold wpe, section. by destruct (m (eng_ c) (wld_ c)) as [[r e] w]. Qed.

(** *** The sections of a flush *)

Lemma publish_hit_spec e w xs (l : list entry) :
  inv e w xs l -> io w = [] -> flushable e w xs l ->
  wpe publish (fun r e' w' => frame e w e' w' /\ wal_ e' = wal_ e /\ io w' = [] /\ (Fault.g_armed (faults w) = false -> r = Ok tt) /\
    exists new, new.2 = l /\
    match r with
    | Ok _ => inv e' w' (xs ++ [new]) l /\ room (data_dir_ e') (files w') (xs ++ [new])
    | Throw _ | Crashed => inv e' w' xs l \/ inv e' w' (xs ++ [new]) l
    | Undefined => False
    end) e w.
Proof.
  intros Hi Hio Hfl. unfold publish. apply wpe_bind. eapply wpe_mono; [by apply publish_spec|].
  set (new := (0, sst_counter_ e, l)). intros r e1 w1 (Hfr & Hw & Hio1 & Hok & Hr).
  destruct r as [[]|x| |]; cbn [aftere]; [| | |done].
  2,3: (split_and!; [done..|]); exists new; split; [done|by left].
  destruct Hr as [Hi1 Hroom]. apply wpe_hit. intros r f Hf Hok1 Hu.
  assert (frame e w e1 (set_faults f w1)) as Hfr1 by (destruct Hfr as [H1 H2 H3 H4]; split; try done; by transitivity (faults w1)).
  split_and!; [done|done|done|intros Ha; by apply Hok1, (fr_armed _ _ _ _ Hfr)|]. exists new. split; [done|].
  pose proof (inv_faults f _ _ _ _ Hi1) as Hi2. destruct r as [[]|x| |]; [by split|by right..|done].
Qed.

Lemma replace_spec e w xs (l : list entry) :
  inv e w xs l ->
  wpe replace_memtable (fun r e' w' => frame e w e' w' /\ wal_ e' = wal_ e /\ files w' = files w /\ io w' = io w /\
    (Fault.g_armed (faults w) = false -> r = Ok tt) /\ r <> Undefined /\ inv e' w' xs []) e w.
Proof.
  intros Hi. unfold replace_memtable. do 2 (apply wpe_bind, wpe_asks; cbn [aftere]). apply wpe_bind, wpe_update. cbn [aftere].
  apply wpe_hit. intros r f Hf Hok Hu. split_and!; try done. apply inv_faults. eapply inv_mem_op; [done|apply mt_create_spec|done].
Qed.

Lemma memtable_flushable c xs pre : live c xs pre -> roomy c = true -> flushable (eng_ c) (wld_ c) xs (mem_of (log c)).
Proof.
  intros [Hi _ _]. unfold roomy. rewrite (mt_entries_spec _ _ _ (inv_mem _ _ _ _ Hi)). intros Hr. by eapply EngineLife.flush_room_spec, inv_readable.
Qed.

Lemma visible_flushed xs new old k c pre :
  kept c xs pre old -> new.2 = mem_of (log c) -> visible k (xs ++ [new]).*2 = contents init (old ++ log c) k.
Proof.
  intros Hk Hn. rewrite <- (k_history _ _ _ _ Hk), <- (live_contents _ _ _ _ _ Hk), <- Hn. unfold view. by rewrite fmap_app.
Qed.

Lemma einv_publish c i :
  einv c -> running c = WalThreads.Running -> apart c = false -> roomy c = true ->
  einv (section i publish (with_mu (Some (i, ToReset))) c).
Proof.
  intros Hc Hrun Ha Hroom. unfold einv in Hc. rewrite Hrun in Hc. destruct Hc as (Hl & xs & pre & old & Hk & Hlive).
  specialize (Hlive Ha). pose proof Hk as [_ Hpre Hh Ht Hr]. apply wpe_section.
  eapply wpe_mono; [apply publish_hit_spec; [apply Hlive|apply Hlive|by eapply memtable_flushable]|].
  intros r e w (Hfr & Hw & Hio & _ & new & Hnew & Hr'). unfold section. cbv beta iota.
  assert (forall k, visible k (xs ++ [new]).*2 = contents init (old ++ log c) k) as Ht' by (intros k; by eapply visible_flushed).
  destruct r as [[]|x| |]; [| | |done].
  - destruct Hr' as [Hi Hroom']. by apply (einv_engine c e w (xs ++ [new]) (log c) old).
  - destruct Hr' as [Hi|Hi]; [by apply (einv_thrown c e w i xs pre old)|by apply (einv_thrown c e w i (xs ++ [new]) (log c) old)].
  - destruct Hr' as [Hi|Hi]; [apply (einv_died c e w xs pre old)|apply (einv_died c e w (xs ++ [new]) (log c) old)]; try done; apply Hi.
Qed.

Lemma einv_compact c i :
  einv c -> running c = WalThreads.Running -> apart c = false -> mu_ c = Some (i, ToCompact) -> einv (section i compact_tables (leave i false) c).
Proof.
  intros Hc Hrun Ha Hmu. unfold einv in Hc. rewrite Hrun in Hc. destruct Hc as (Hl & xs & pre & old & Hk & Hlive).
  destruct (Hlive Ha) as [Hi Hio Hph]. pose proof Hk as [_ Hpre Hh Ht Hr]. unfold phase_ok in Hph. rewrite Hmu in Hph. destruct Hph as [Hnil Hroom].
  apply wpe_section. eapply wpe_mono; [by apply compact_spec|].
  intros r e w (Hfr & Hw & _ & Hr'). unfold section. cbv beta iota. destruct r as [[]|x| |]; [| | |done].
  - destruct Hr' as (Hio' & xs' & Hi' & Hv). change (leave i false (with_engine e w c)) with (leave i false (with_mu None (with_engine e w c))).
    apply einv_leave; [|done]. apply (einv_engine c e w xs' pre old); try done. intros k. by rewrite (Hv k).
  - destruct Hr' as [Hio' Hi']. by apply (einv_thrown c e w i xs pre old).
  - destruct Hr' as (xs' & Hst & Hv). apply (einv_died c e w xs' pre old); try done. intros k. by rewrite (Hv k).
Qed.

Lemma clear_cases (l l' : WalThreads.config R) :
  WalThreads.act limit WalThreads.Clear l = Some l' ->
  WalThreads.running l = WalThreads.Running /\
  match WalThreads.running l' with
  | WalThreads.Running => WalThreads.log l' = [] /\ WalThreads.opened l' = S (WalThreads.opened l)
  | _ => WalThreads.log l' = WalThreads.log l /\ WalThreads.opened l' = WalThreads.opened l
  end.
Proof.
  unfold WalThreads.act. destruct (WalThreads.running l); [|done..]. destruct (WalWriter.sync_in_progress_ _); [done|].
  intros [= <-]. split; [done|]. unfold WalThreads.clear_. by destruct (WalWriter.clear _ _) as [[[[]|x| |] w] f].
Qed.

(** Between the clearing of the log and the new memtable. *)
Lemma einv_replace c l i xs old :
  WalThreadsSpec.inv b l -> WalThreads.running l = WalThreads.Running -> WalThreads.log l = [] -> kept c xs (log c) old ->
  inv (eng_ c) (wld_ c) xs (mem_of (log c)) -> io (wld_ c) = [] -> room (data_dir_ (eng_ c)) (files (wld_ c)) xs ->
  einv (section i replace_memtable (with_mu (Some (i, ToCompact))) (with_log l c)).
Proof.
  intros Hl Hrun Hnil [_ _ Hh Ht _] Hi Hio Hroom. set (c1 := with_log l c).
  assert (inv (eng_ c1) (wld_ c1) xs (mem_of (log c))) as Hi1 by (by apply inv_faults, inv_wal).
  assert (log c1 = []) as Hlog by done. assert (history c1 = history c ++ log c1) as Hh1 by (cbn; by rewrite Hnil, drop_nil).
  assert (WalThreadsSpec.inv b (log_part c1)) as Hl1 by (by unfold c1; rewrite log_part_with_log).
  assert (forall k, visible k xs.*2 = contents init (history c ++ []) k) as Ht1 by (intros k; by rewrite app_nil_r, Hh).
  assert (mem_of (log c1) = []) as Hmem by (by rewrite Hlog). assert (Forall record_ok (log c1)) as Hr1 by (by rewrite Hlog).
  apply wpe_section. eapply wpe_mono; [exact (replace_spec _ _ _ _ Hi1)|]. intros r e w (Hfr & Hw & Hf & Hio' & _ & Hu & Hi').
  rewrite <- Hmem in Hi'. assert (io w = []) as Hio2 by (by rewrite Hio'). unfold section. cbv beta iota. destruct r as [[]|x| |]; [| | |done].
  - apply (einv_engine c1 e w xs [] (history c)); try done; [apply prefix_nil|].
    split; [done|]. change (room (data_dir_ e) (files w) xs). by rewrite Hf, (fr_dir _ _ _ _ Hfr).
  - apply (einv_thrown c1 e w i xs [] (history c)); try done. apply prefix_nil.
  - apply (einv_died c1 e w xs [] (history c)); try done; [apply prefix_nil|apply Hi'].
Qed.

Lemma einv_proceed c c' :
  einv c -> running c = WalThreads.Running -> apart c = false -> proceed limit c = Some c' -> einv c'.
Proof.
  intros Hc Hrun Ha. unfold proceed. destruct (mu_ c) as [[i []]|] eqn:Hmu; [| | |done].
  - destruct (roomy c) eqn:Hr; [|done]. intros [= <-]. by apply einv_publish.
  - destruct (WalThreads.act _ _ _) as [l|] eqn:Hact; [|done]. intros [= <-]. pose proof Hc as Hc2.
    unfold einv in Hc. rewrite Hrun in Hc. destruct Hc as (Hl & xs & pre & old & Hk & Hlive).
    destruct (Hlive Ha) as [Hi Hio Hph]. unfold phase_ok in Hph. rewrite Hmu in Hph. destruct Hph as [-> Hroom].
    pose proof (WalThreadsSpec.inv_act _ _ _ _ Hl Hact) as Hl'. destruct (clear_cases _ _ Hact) as [_ Hlog].
    cbn [running with_log]. destruct (WalThreads.running l) eqn:Hrl; cbn [WalThreads.log log_part] in Hlog.
    + destruct Hlog as [Hnil _]. by eapply einv_replace.
    + destruct Hlog as [Hlog _]. by apply einv_log.
    + destruct Hlog as [Hlog _]. by apply einv_log.
    + destruct Hlog as [Hlog _]. by apply einv_log.
  - intros [= <-]. by apply einv_compact.
Qed.

Lemma einv_begin c i : einv c -> running c = WalThreads.Running -> einv (begin_flush i c).
Proof.
  intros Hc Hrun. unfold begin_flush. destruct (_ =? 0); [by apply einv_leave|].
  unfold einv in Hc. rewrite Hrun in Hc. destruct Hc as (Hl & xs & pre & old & Hk & Hlive). by eapply einv_mu.
Qed.

(** *** Writes *)

Lemma mem_write_spec ty k v g m max l :
  mt_rep m max l -> exists g' m', mem_write ty k v g m = Some (g', m') /\ mt_rep m' max (apply_record l (WAL.mkEntry ty k v)).
Proof. intros Hm. destruct ty; [by apply mt_put_spec|by apply mt_del_spec]. Qed.

Lemma fits_record_ok (l : WalThreads.config R) ty k v : WalThreads.fits limit l ty k v = true -> record_ok (WAL.mkEntry ty k v).
Proof. intros [H1%Z.leb_le _]%andb_true_iff. by apply (loggable_record_ok b). Qed.

(** What an append does to the records. *)
Lemma append_cases (l l' : WalThreads.config R) i ty k v :
  WalThreads.act limit (WalThreads.Append i ty k v) l = Some l' ->
  WalThreads.running l = WalThreads.Running /\ WalThreads.fits limit l ty k v = true /\ WalThreads.opened l' = WalThreads.opened l /\
  WalThreads.running l' <> WalThreads.ClearThrew /\ WalThreads.running l' <> WalThreads.Undef /\
  (WalThreads.running l' = WalThreads.Running -> exists p, WalThreads.threads l' !! i = Some p /\
    (p = WalThreads.Outside \/ p = WalThreads.Wild \/ exists x, p = WalThreads.Holding x)) /\
  exists more, WalThreads.log l' = WalThreads.log l ++ more /\ (more = [] \/ more = [WAL.mkEntry ty k v]).
Proof.
  unfold WalThreads.act. destruct (WalThreads.running l) eqn:Hrun; [|done..]. destruct (WalThreads.idle _); [|done].
  destruct (WalThreads.fits limit l ty k v) eqn:Hfit; [|done]. intros [= <-]. unfold WalThreads.append.
  destruct (WalWriter.writeEntry _ _ _ _ _) as [[r w] f]. split; [done|]. split; [done|].
  set (es := WalThreads.records _ _ _ _). assert (exists more, es = WalThreads.log l ++ more /\ (more = [] \/ more = [WAL.mkEntry ty k v])) as Hes.
  { unfold es, WalThreads.records. destruct (_ =? _); [exists []; rewrite app_nil_r; auto|eauto]. }
  destruct r; cbn [WalThreads.settle WalThreads.opened WalThreads.running WalThreads.log WalThreads.threads]; rewrite ?Hrun; split_and!; try done;
    intros _; eexists; rewrite lookup_insert_eq; eauto.
Qed.

(** No thread of the log runs into undefined behaviour. *)
Lemma never_wild (l : WalThreads.config R) i :
  WalThreadsSpec.inv b l -> WalThreads.running l = WalThreads.Running -> WalThreads.threads l !! i <> Some WalThreads.Wild.
Proof.
  intros Hl Hrun Hi. destruct (WalThreadsLife.inv_running _ _ Hl Hrun) as (k & l0 & l1 & n & ld & st & m & _ & Hv).
  apply (WalThreadsSpec.view_knows l l0 l1 n ld st m i Hv _ Hi).
Qed.

(** The record is in the log and the memtable follows. *)
Lemma einv_applied c i ty k v xs pre old es :
  let x := WAL.mkEntry ty k v in
  WalThreadsSpec.inv b (log_part c) -> running c = WalThreads.Running -> kept c xs pre old -> record_ok x -> log c = es ++ [x] ->
  inv (eng_ c) (wld_ c) xs (mem_of es) -> io (wld_ c) = [] -> mu_ c = None -> einv (applied i ty k v c).
Proof.
  intros x Hl Hrun Hk Hx Hlog Hi Hio Hmu. pose proof Hk as [_ Hpre Hh Ht Hr]. unfold applied. apply wpe_section.
  eapply (mem_op_spec ty k v); [by intros; apply mem_write_spec|exact Hi|exact Hx|]. fold x. intros e Hi' Hfr Hw _.
  rewrite <- mem_of_app, <- Hlog in Hi'.
  assert (einv (with_engine e (wld_ c) c)) as He.
  { replace (with_engine e (wld_ c) c) with (with_mu None (with_engine e (wld_ c) c)) by (unfold with_mu, with_engine; cbn; by rewrite Hmu).
    by apply (einv_engine c e (wld_ c) xs pre old). }
  unfold section. cbv beta iota. destruct (mt_isFull _); [by apply einv_begin|by apply einv_leave].
Qed.

Lemma einv_write c i ty k v c' :
  einv c -> lock_free c = true -> write limit i ty k v c = Some c' -> einv c'.
Proof.
  intros Hc Hfree. unfold lock_free in Hfree. destruct (mu_ c) eqn:Hmu; [done|]. destruct (running c) eqn:Hrun; [|done..].
  apply negb_true_iff in Hfree as Ha. unfold write. destruct (WalThreads.act _ _ _) as [l|] eqn:Hact; [|done]. intros [= <-].
  unfold einv in Hc. rewrite Hrun in Hc. destruct Hc as (Hl & xs & pre & old & Hk & Hlive). specialize (Hlive Ha).
  pose proof (WalThreadsSpec.inv_act _ _ _ _ Hl Hact) as Hl'. destruct (append_cases _ _ _ _ _ _ Hact) as (_ & Hfit & _ & Hct & Hun & Hpc & more & Hlog & Hmore).
  pose proof (fits_record_ok _ _ _ _ Hfit) as Hx. cbn [log_part WalThreads.log] in Hlog.
  assert (kept (with_log l c) xs pre old) as Hk'.
  { apply (kept_log c l xs pre old more); [done|done|]. destruct Hmore as [-> | ->]; [constructor|by apply Forall_singleton]. }
  destruct (WalThreads.running l) eqn:Hrl; [| |done..].
  2: { unfold einv. rewrite log_part_with_log. cbn [running with_log]. rewrite Hrl. split; [done|]. by exists xs, pre, old. }
  destruct (Hpc eq_refl) as (p & Hi & [-> | [-> | [x ->]]]); rewrite Hi.
  - case_match eqn:Hlen.
    + apply Nat.eqb_eq in Hlen. cbn in Hlen. assert (WalThreads.log l = log c) as Hsame.
      { rewrite Hlog, length_app in Hlen. destruct more; [by rewrite app_nil_r in Hlog|cbn in Hlen; lia]. }
      apply einv_log; try done. unfold einv. rewrite Hrun. split; [done|]. by exists xs, pre, old.
    + unfold einv. cbn [running split with_log]. rewrite Hrl. split; [by destruct l|]. exists xs, pre, old. split; [by destruct Hk'|done].
  - by destruct (never_wild l i Hl' Hrl).
  - destruct (WalThreadsLife.append_holds b i ty k v _ _ x Hl Hact Hi) as (_ & Hgrow & _). cbn [log_part WalThreads.log] in Hgrow.
    apply (einv_applied _ i ty k v xs pre old (log c)); try done; [by destruct l|apply inv_faults, inv_wal, Hlive|apply Hlive].
Qed.

(** ** Readers, and every step *)

Lemma lock_free_true c : lock_free c = true -> mu_ c = None /\ running c = WalThreads.Running /\ apart c = false.
Proof. unfold lock_free. destruct (mu_ c), (running c); try done. by destruct (apart c). Qed.

Lemma free_live c : einv c -> lock_free c = true -> exists xs pre old, WalThreadsSpec.inv b (log_part c) /\ kept c xs pre old /\ live c xs pre.
Proof.
  intros Hc (_ & Hrun & Ha)%lock_free_true. unfold einv in Hc. rewrite Hrun in Hc. destruct Hc as (Hl & xs & pre & old & Hk & Hlive).
  exists xs, pre, old. auto.
Qed.

(** A reader leaves everything but the block cache alone. *)
Lemma einv_read {A} (m : E Mt (WalWriter.t R) A) c (Q : result A -> Prop) :
  einv c -> lock_free c = true ->
  (forall xs pre old, kept c xs pre old -> live c xs pre ->
     wpe m (fun r e w => e = eng_ c /\ inv e w xs (mem_of (log c)) /\ files w = files (wld_ c) /\ faults w = faults (wld_ c) /\ io w = [] /\ Q r)
       (eng_ c) (wld_ c)) ->
  einv (read m c) /\ Q (m (eng_ c) (wld_ c)).1.1.
Proof.
  intros Hc Hfree Hm. destruct (free_live c Hc Hfree) as (xs & pre & old & Hl & Hk & Hlive). specialize (Hm xs pre old Hk Hlive).
  apply lock_free_true in Hfree as (Hmu & Hrun & Ha). unfold wpe in Hm. unfold read.
  destruct (m (eng_ c) (wld_ c)) as [[r e] w]. cbn [fst snd] in *. destruct Hm as (-> & Hi & Hf & Hfl & Hio & HQ). split; [|done].
  destruct Hk as [_ Hpre Hh Ht Hr]. replace (with_engine (eng_ c) w c) with (with_mu None (with_engine (eng_ c) w c)) by (unfold with_mu, with_engine; cbn; by rewrite Hmu).
  apply (einv_engine c (eng_ c) w xs pre old); try done. split; try done. by rewrite Hfl.
Qed.

Lemma read_get c k : einv c -> lock_free c = true -> einv (read (get k) c) /\ (get k (eng_ c) (wld_ c)).1.1 = Ok (contents init (history c) k).
Proof.
  intros Hc Hfree. apply (einv_read (get k) c (fun r => r = Ok (contents init (history c) k)) Hc Hfree). intros xs pre old Hk [Hi Hio _].
  eapply wpe_mono; [by apply get_wpe|]. intros r e w (-> & Hi' & Hf & Hfl & Hio' & Hr). rewrite Hio in Hr, Hio'. split_and!; auto.
  destruct Hr as [->|[? _]]; [|done]. by rewrite (live_contents _ _ _ _ _ Hk).
Qed.

Lemma read_scan c start end_ limit :
  einv c -> lock_free c = true -> 0 <= limit -> einv (read (scan start end_ limit) c) /\
  exists full, range_of (contents init (history c)) start end_ full /\ (scan start end_ limit (eng_ c) (wld_ c)).1.1 = Ok (take (Z.to_nat limit) full).
Proof.
  intros Hc Hfree Hlim.
  apply (einv_read (scan start end_ limit) c (fun r => exists full, range_of (contents init (history c)) start end_ full /\ r = Ok (take (Z.to_nat limit) full)) Hc Hfree).
  intros xs pre old Hk [Hi Hio _]. destruct (scan_quiet _ _ _ _ start end_ limit (inv_readable _ _ _ _ Hi) Hio Hlim) as (full & [Hs Hfull] & Hscan).
  unfold wpe. rewrite Hscan. split_and!; try done. exists full. split; [|done]. split; [done|]. intros k.
  by rewrite Hfull, (live_contents _ _ _ _ _ Hk).
Qed.

Lemma log_step_same a (l l' : WalThreads.config R) :
  WalThreads.act limit a l = Some l' -> match a with WalThreads.Append _ _ _ _ | WalThreads.Clear => False | _ => True end ->
  WalThreads.running l = WalThreads.Running /\ WalThreads.log l' = WalThreads.log l /\ WalThreads.opened l' = WalThreads.opened l.
Proof.
  unfold WalThreads.act. destruct (WalThreads.running l); [|done..]. destruct a as [|i|i|i|i|i|]; try done.
  - destruct (WalThreads.idle _); [|done]. by intros [= <-].
  - destruct (WalThreads.threads l !! i) as [[]|]; try done. by intros [= <-].
  - destruct (WalThreads.threads l !! i) as [[]|]; try done. by intros [= <-].
  - destruct (WalThreads.threads l !! i) as [[]|]; try done. by intros [= <-].
  - destruct (WalThreads.threads l !! i) as [p|]; [|done]. destruct (WalThreads.section _ p) as [m_|]; [|done]. destruct (m_ _ _) as [[r w] f].
    intros [= <-] _. by destruct (WalThreadsLife.settle_log i r w f (WalThreads.log l) (WalThreads.wakes p) l) as [-> ->].
Qed.

Lemma einv_on_log a c c' :
  einv c -> on_log limit a c = Some c' -> match a with WalThreads.Append _ _ _ _ | WalThreads.Clear => False | _ => True end -> einv c'.
Proof.
  intros Hc. unfold on_log. destruct (WalThreads.act limit a _) as [l|] eqn:Ha; [|done]. intros [= <-] Hok.
  destruct (log_step_same _ _ _ Ha Hok) as (Hrun & Hlog & _). cbn in Hrun, Hlog. apply einv_log; try done.
  eapply WalThreadsSpec.inv_act; [|exact Ha]. unfold einv in Hc. rewrite Hrun in Hc. apply Hc.
Qed.

Lemma einv_act c a c' : einv c -> act limit a c = Some c' -> einv c'.
Proof.
  intros Hc. destruct a as [i k v|i k|i| |k|start end_ limit|i|i|i]; cbn [act].
  - destruct (lock_free c) eqn:Hf; [|done]. by apply einv_write.
  - destruct (lock_free c) eqn:Hf; [|done]. by apply einv_write.
  - destruct (lock_free c) eqn:Hf; [|done]. destruct (WalThreads.idle _); [|done]. intros [= <-]. apply einv_begin; [done|by apply lock_free_true].
  - destruct (running c) eqn:Hrun; [|done..]. destruct (apart c) eqn:Ha; [done|]. by apply einv_proceed.
  - destruct (lock_free c) eqn:Hf; [|done]. intros [= <-]. by apply read_get.
  - destruct (lock_free c) eqn:Hf; [|done]. destruct (Z.leb_spec 0 limit); [|done]. intros [= <-]. by apply read_scan.
  - destruct (holds_lock i c); [done|]. destruct (on_log limit (WalThreads.Barrier i) c) as [c1|] eqn:Hb; [|done]. intros Hw.
    eapply (einv_on_log (WalThreads.AwaitTicket i)); [|exact Hw|done]. by eapply (einv_on_log (WalThreads.Barrier i)).
  - intros Ha. by eapply (einv_on_log (WalThreads.Go i)).
  - intros Ha. by eapply (einv_on_log (WalThreads.Awaken i)).
Qed.

Lemma einv_reach c c' : rtc (step limit) c c' -> einv c -> einv c'.
Proof. induction 1 as [|c1 c2 c3 [a Ha] _ IH]; [done|]. intros Hc. by eapply IH, einv_act. Qed.

(** ** Opening *)

(** The constructor's steps after the log is open leave it alone. *)
Definition keeps_log {A} (m : E Mt (WalWriter.t R) A) : Prop := forall e w, wal_ (m e w).1.2 = wal_ e.

Lemma keeps_log_bind {A B} (m : E Mt (WalWriter.t R) A) (f : A -> E Mt (WalWriter.t R) B) :
  keeps_log m -> (forall a, keeps_log (f a)) -> keeps_log (m ≫= f).
Proof.
  intros Hm Hf e w. specialize (Hm e w). unfold mbind, E_bind. destruct (m e w) as [[[a|x| |] e1] w1]; [|done..].
  rewrite (Hf a e1 w1). exact Hm.
Qed.

Lemma keeps_log_ret {A} (a : A) : keeps_log (mret a).
Proof. by intros e w. Qed.

Lemma keeps_log_lift {A} (m : M A) : keeps_log (lift m).
Proof. intros e w. unfold lift. by destruct (m w). Qed.

Lemma keeps_log_asks {A} (f : eng -> A) : keeps_log (asks f).
Proof. by intros e w. Qed.

Lemma keeps_log_update (f : eng -> eng) : (forall e, wal_ (f e) = wal_ e) -> keeps_log (update f).
Proof. intros Hf e w. apply Hf. Qed.

Lemma keeps_log_mem (f : Rng -> Mt -> option (Rng * Mt)) : keeps_log (mem_op f).
Proof. intros e w. unfold mem_op. by destruct (f _ _) as [[]|]. Qed.

#[local] Hint Resolve keeps_log_ret keeps_log_lift keeps_log_asks keeps_log_mem : keeps_log.
Ltac keeps_log :=
  repeat first [progress eauto with keeps_log | apply keeps_log_bind; [|intros ?] | by apply keeps_log_update | case_match].

Lemma replay_keeps_log es : keeps_log (replay (W := WalWriter.t R) es).
Proof. induction es as [|x es IH]; cbn [replay]; keeps_log. Qed.

Lemma load_files_keeps_log fs : keeps_log (load_files (Mt := Mt) fs).
Proof. induction fs as [|f fs IH]; cbn [load_files]; keeps_log. Qed.
#[local] Hint Resolve replay_keeps_log load_files_keeps_log : keeps_log.

Lemma recover_all_keeps_log : keeps_log (recover_all (Mt := Mt) (W := WalWriter.t R)).
Proof. unfold recover_all, recoverFromWAL, loadSSTables. keeps_log. Qed.

Lemma construct_opens dir max durable g d w e w' :
  construct (Mt := Mt) dir max durable g d w = (Ok e, w') -> WalWriter.open durable d = Ok (wal_ e).
Proof.
  unfold construct, mbind, M_bind. destruct (acquire w) as [[[]|x| |] w1]; [|done..]. unfold of_result.
  change (log_open durable d) with (WalWriter.open durable d). destruct (WalWriter.open durable d) as [x|q| |]; [|done..]. unfold building.
  pose proof (recover_all_keeps_log (mkEngine dir max x (mt_create max) [] 0 g) w1) as Hk.
  destruct (recover_all _ w1) as [[[[]|q| |] e1] w2]; [|done..]. intros [= -> _]. cbn in Hk. by rewrite Hk.
Qed.

(** ** The past of a configuration *)

(** How many records were cleared away. *)
Definition cleared c : nat := (length (history c) - length (log c))%nat.

Record later c c' : Prop := {
  lt_history : history c `prefix_of` history c';
  lt_opened : (opened c <= opened c')%nat;
  lt_same : opened c' = opened c -> cleared c' = cleared c;
  lt_more : (opened c < opened c')%nat -> (length (history c) <= cleared c')%nat
}.

#[local] Instance later_po : PreOrder later.
Proof.
  split; [intros c; split; try done; lia|]. intros c1 c2 c3 [A1 A2 A3 A4] [B1 B2 B3 B4]. split; [by etrans|lia|intros E; rewrite B3, A3; lia|].
  intros Hlt. pose proof (prefix_length _ _ A1). pose proof (prefix_length _ _ B1).
  destruct (decide (opened c2 = opened c3)) as [E|E]; [rewrite B3 by done; apply A4; lia|]. assert (opened c2 < opened c3)%nat as Hl by lia.
  specialize (B4 Hl). lia.
Qed.

(** The log part moves; the rest of the state is nothing to it. *)
Lemma later_log c (l : WalThreads.config R) :
  WalThreads.opened l = opened c /\ (exists more, WalThreads.log l = log c ++ more) \/
  WalThreads.opened l = S (opened c) /\ WalThreads.log l = [] ->
  later c (with_log l c).
Proof.
  intros [[Ho [more Hm]]|[Ho Hn]]; split; cbn; try (by apply prefix_app_r); unfold cleared; cbn; try lia.
  - intros _. rewrite Hm, drop_app_length, !length_app. lia.
  - intros _. rewrite Hn, drop_nil, app_nil_r. cbn. lia.
Qed.

Lemma later_same c c' : history c' = history c -> log c' = log c -> opened c' = opened c -> later c c'.
Proof. intros H1 H2 H3. split; unfold cleared; rewrite ?H1, ?H2, ?H3; try done; lia. Qed.

Lemma leave_same i t c : history (leave i t c) = history c /\ log (leave i t c) = log c /\ opened (leave i t c) = opened c /\
  running (leave i t c) = running c /\ mu_ (leave i t c) = None.
Proof. unfold leave. cbn. by destruct (threads c !! i) as [[]|]. Qed.

Lemma later_leave i t c : later c (leave i t c).
Proof. destruct (leave_same i t c) as (H1 & H2 & H3 & _). by apply later_same. Qed.

Lemma later_section {A} i (m : E Mt (WalWriter.t R) A) next c :
  (forall e w, later (with_engine e w c) (next (with_engine e w c))) -> later c (section i m next c).
Proof.
  intros Hn. unfold section. destruct (m _ _) as [[[a|x| |] e] w]; (etrans; [by apply (later_same c (with_engine e w c))|]).
  - apply Hn.
  - apply later_leave.
  - by apply later_same.
  - by apply later_same.
Qed.

Lemma later_begin i c : later c (begin_flush i c).
Proof. unfold begin_flush. destruct (_ =? 0); [apply later_leave|by apply later_same]. Qed.

Lemma later_on_log a c c' : on_log limit a c = Some c' -> match a with WalThreads.Append _ _ _ _ | WalThreads.Clear => False | _ => True end -> later c c'.
Proof.
  unfold on_log. destruct (WalThreads.act limit a _) as [l|] eqn:Ha; [|done]. intros [= <-] Hok. destruct (log_step_same _ _ _ Ha Hok) as (_ & Hl & Ho).
  apply later_log. left. split; [done|]. exists []. by rewrite app_nil_r.
Qed.

Lemma later_write c i ty k v c' : write limit i ty k v c = Some c' -> later c c'.
Proof.
  unfold write. destruct (WalThreads.act _ _ _) as [l|] eqn:Ha; [|done]. intros [= <-].
  destruct (append_cases _ _ _ _ _ _ Ha) as (_ & _ & Ho & _ & _ & _ & more & Hlog & _).
  assert (later c (with_log l c)) as Hl by (apply later_log; left; eauto).
  destruct (WalThreads.running l), (WalThreads.threads l !! i) as [[]|]; try done; (etrans; [exact Hl|]).
  - case_match; [done|by apply later_same].
  - apply later_section. intros e w. destruct (mt_isFull _); [apply later_begin|apply later_leave].
Qed.

Lemma later_proceed c c' : proceed limit c = Some c' -> later c c'.
Proof.
  unfold proceed. destruct (mu_ c) as [[i []]|]; [| | |done].
  - destruct (roomy c); [|done]. intros [= <-]. apply later_section. intros e w. by apply later_same.
  - destruct (WalThreads.act _ _ _) as [l|] eqn:Ha; [|done]. intros [= <-]. destruct (clear_cases _ _ Ha) as [_ Hc].
    assert (later c (with_log l c)) as Hl.
    { apply later_log. destruct (WalThreads.running l); destruct Hc as [H1 H2]; [by right|left..]; (split; [done|exists []; by rewrite app_nil_r]). }
    cbn [running with_log]. destruct (WalThreads.running l); [|done..]. etrans; [exact Hl|]. apply later_section. intros e w. by apply later_same.
  - intros [= <-]. apply later_section. intros e w. apply later_leave.
Qed.

Lemma later_act a c c' : act limit a c = Some c' -> later c c'.
Proof.
  destruct a as [i k v|i k|i| |k|start end_ limit|i|i|i]; cbn [act].
  - destruct (lock_free c); [|done]. apply later_write.
  - destruct (lock_free c); [|done]. apply later_write.
  - destruct (_ && _); [|done]. intros [= <-]. apply later_begin.
  - destruct (running c); [|done..]. destruct (apart c); [done|]. apply later_proceed.
  - destruct (lock_free c); [|done]. intros [= <-]. unfold read. destruct (get _ _ _) as [[r e] w]. by apply later_same.
  - destruct (_ && _); [|done]. intros [= <-]. unfold read. destruct (scan _ _ _ _ _) as [[r e] w]. by apply later_same.
  - destruct (holds_lock i c); [done|]. destruct (on_log limit (WalThreads.Barrier i) c) as [c1|] eqn:Hb; [|done]. intros Hw.
    etrans; [by eapply (later_on_log (WalThreads.Barrier i))|by eapply (later_on_log (WalThreads.AwaitTicket i))].
  - intros Ha. by eapply (later_on_log (WalThreads.Go i)).
  - intros Ha. by eapply (later_on_log (WalThreads.Awaken i)).
Qed.

Lemma later_reach c c' : rtc (step limit) c c' -> later c c'.
Proof. induction 1 as [|c1 c2 c3 [a Ha] _ IH]; [done|]. etrans; [by eapply later_act|done]. Qed.

(** ** What a death leaves *)

(** The value of [k] at a moment of the history, not before its first [n] records. *)
Definition since (n : nat) c (k : str) (v : option str) : Prop :=
  exists m, (n <= m <= length (history c))%nat /\ v = contents init (take m (history c)) k.

Lemma kept_cleared c xs pre old : kept c xs pre old -> cleared c = length old.
Proof. intros Hk. unfold cleared. rewrite (k_history _ _ _ _ Hk), length_app. lia. Qed.

Lemma log_settled c xs pre old k l0 l1 n u :
  WalThreadsSpec.log_inv b (log_part c) k l0 l1 n -> kept c xs pre old ->
  (u <= length (WAL.survivors l0) + n)%nat -> (u <= length (log c))%nat ->
  settled (since (cleared c + u) c) (log_size (wal_ (eng_ c))) (eng_ c) (wld_ c).
Proof.
  intros Hl Hk Hu Hul. pose proof Hk as [Hst Hpre Hh Ht Hr]. rewrite (kept_cleared _ _ _ _ Hk).
  pose proof (WalThreadsSpec.li_winv _ _ _ _ _ _ Hl) as Hw. pose proof (WalThreadsSpec.li_log _ _ _ _ _ _ Hl) as Hlog. cbn in Hw, Hlog.
  set (s := WAL.survivors l0 ++ take n (WalDisk.entry_of <$> l1)). set (p := drop n (WalDisk.entry_of <$> l1)).
  assert (log c = s ++ p) as Hsp by (unfold s, p; by rewrite <- app_assoc, take_drop).
  assert (length s = (length (WAL.survivors l0) + n)%nat) as Hls.
  { unfold s. rewrite length_app, length_take, length_fmap. pose proof (WalLog.winv_count_le _ _ _ _ _ _ _ Hw). lia. }
  exists xs, s, p. split_and!; [done| |by rewrite <- Hsp|done|].
  - eapply (WalLog.life_left b _ _ k l0 l1 n s p); [exact Hw|done].
  - intros p' key Hp'. rewrite contents_view, (contents_ext _ (contents (contents init old) pre)) by (by rewrite Ht, contents_app).
    destruct (contents_moment (contents init old) pre (log c) (s ++ p') (length s) u key) as (m & Hm & ->); try done; [|by rewrite Hsp; apply sublist_app|lia|].
    { rewrite Hsp, take_app_length. by apply prefix_app_r. }
    exists (length old + m)%nat. rewrite Hh, length_app. split; [lia|]. by rewrite take_app_add, contents_app.
Qed.

(** ** Reachable configurations *)

(** A run's start: an engine made of the tables [xs] and the log's records. *)
Lemma einv_opened dir max durable g d w e xs0 es :
  on_disk dir d w xs0 es -> disk_ready b d -> (b = true -> Fault.g_armed (faults w) = false) ->
  construct (Mt := Mt) dir max durable g d w = (Ok e, w) -> (forall k, init k = visible k xs0.*2) -> einv (start e w es).
Proof.
  intros Hdisk Hready Hb Hc Hinit. pose proof (construct_spec b dir max durable g d w xs0 es Hdisk Hready) as Hsp.
  unfold wp in Hsp. rewrite Hc in Hsp. destruct Hsp as (_ & _ & [Hi Hio _ _ Hr _] & _). cbn [fst snd] in *. rewrite app_nil_r in Hr.
  unfold einv. cbn [running start]. split.
  - eapply (WalThreadsLife.reached_inv b d (faults w)). exists durable, (wal_ e), es. split_and!; [by eapply construct_opens| |done|done|apply rtc_refl].
    apply (od_log _ _ _ _ _ Hdisk).
  - exists xs0, [], []. split; [split; cbn; try done; [apply Hi|apply prefix_nil]|]. intros _. by split.
Qed.

End spec.

End EngineThreadsSpec.
