(* ===== verification/EngineThreadsLife.v ===== *)
(** * What concurrent callers of the engine may rely on

    Runs of [EngineThreads] from an engine that was opened: a write or a sync that
    returned in durable mode survives whatever the other threads do, a lookup or
    a scan shows the writes that took the lock before it, the lock always comes
    free, and one thread alone runs [Engine]'s functions. *)

From S2P Require Import Prelude WalFormat Kernel Bloom BlockCache Fault Memtable World Names TableFormat SSTable Layers Compaction CompactionSpec CompactionRun Store Scan Replay LogSpec WalWriter WalDisk WalWriterSpec WalLog WalLife GroupCommit WalThreads WalThreadsSpec WalThreadsLife Engine EngineSpec EngineWrite EngineRecovery EngineLife EngineThreads EngineThreadsSpec.
Open Scope Z_scope.

Module EngineThreadsLife.
Import TableFormat Layers CompactionRun Store Replay Kernel WalLog Engine EngineSpec EngineWrite EngineRecovery EngineLife EngineThreads EngineThreadsSpec.

Section runs.
Context {Mt : Type} `{!MemtableOps Mt} `{!MemtableSpec Mt} {R : Type} {Uring0 : Kernel.Uring R} {UringSpec0 : Kernel.UringSpec R}.
Implicit Types (c : config Mt R).

(** What callers may write ([LogSpec.fits]). *)
Abbreviation limit := (write_limit whole_write).

(** [c] is reached from an engine opened on tables that show [init] and a log. *)
Definition reached (b : bool) (init : str -> option str) c : Prop :=
  exists dir max durable g d w (e : engine Mt (WalWriter.t R)) xs es, on_disk dir d w xs es /\ disk_ready b d /\ (b = true -> Fault.g_armed (faults w) = false) /\
    construct dir max durable g d w = (Ok e, w) /\ (forall k, init k = visible k xs.*2) /\ rtc (step (limit b)) (start e w es) c.

Lemma reached_einv b init c : reached b init c -> einv b init c.
Proof. intros (dir & max & durable & g & d & w & e & xs & es & H1 & H2 & H3 & H4 & H5 & Hs). eapply einv_reach; [exact Hs|by eapply einv_opened]. Qed.

(** ** Durability *)

(** The thread that waits for its own ticket, and the record it has logged. *)
Definition caller (a : action) : option nat := match a with Put i _ _ | Del i _ | Sync i => Some i | _ => None end.

Definition records_of (a : action) : list WAL.Entry :=
  match a with Put _ k v => [WAL.mkEntry WAL.PUT k v] | Del _ k => [WAL.mkEntry WAL.DEL k []] | _ => [] end.

Definition waiting (p : WalThreads.pc) : option WalThreads.Wait :=
  match p with WalThreads.Holding x | WalThreads.AtTest x => Some x | _ => None end.

(** The thread keeps the ticket it was given, or has dropped it. *)
Lemma leave_waits i t c y p x :
  threads c !! i = Some (WalThreads.Holding y) -> threads (leave i t c) !! i = Some p -> waiting p = Some x -> x = y.
Proof.
  intros Hi. unfold leave. cbn [threads with_mu]. rewrite Hi. cbn. rewrite lookup_insert_eq. intros [= <-]. destruct (_ && _); by intros [= ->].
Qed.

Lemma applied_waits i ty k v c y p x :
  threads c !! i = Some (WalThreads.Holding y) -> threads (applied i ty k v c) !! i = Some p -> waiting p = Some x -> x = y.
Proof.
  intros Hi. unfold applied, section. destruct (mem_op _ _ _) as [[[[]|q| |] e] w].
  - destruct (mt_isFull _); [|by apply leave_waits]. unfold begin_flush. destruct (_ =? 0); [by apply leave_waits|].
    cbn. rewrite Hi. intros [= <-]. by intros [= ->].
  - by apply leave_waits.
  - cbn. rewrite Hi. intros [= <-]. by intros [= ->].
  - cbn. rewrite Hi. intros [= <-]. by intros [= ->].
Qed.

Lemma applied_same i ty k v c :
  history (applied i ty k v c) = history c /\ log (applied i ty k v c) = log c /\ opened (applied i ty k v c) = opened c.
Proof.
  unfold applied, section, begin_flush.
  destruct (mem_op _ _ _) as [[[[]|q| |] e] w]; cbn beta iota; repeat case_match; try done;
    match goal with |- context [leave i ?t ?c0] => destruct (leave_same i t c0) as (-> & -> & -> & _) end; done.
Qed.

Lemma write_waits b init i ty k v c c' p x :
  einv b init c -> running c = WalThreads.Running -> write (limit b) i ty k v c = Some c' -> threads c' !! i = Some p -> waiting p = Some x ->
  WalWriter.epoch (WalThreads.ticket x) = WalWriter.epoch_ (wal_ (eng_ c)) /\ WalThreads.upto x = length (log c') /\ opened c' = opened c /\
  history c' = history c ++ [WAL.mkEntry ty k v].
Proof.
  intros Hc Hrun. unfold write. destruct (WalThreads.act _ _ _) as [l|] eqn:Ha; [|done]. intros [= <-].
  unfold einv in Hc. rewrite Hrun in Hc. destruct Hc as [Hl _]. pose proof Ha as Ha2.
  assert (forall q, WalThreads.threads l !! i = Some q -> WalThreads.running l <> WalThreads.Running -> waiting q = None) as Hidle.
  { revert Ha2. unfold WalThreads.act. cbn [log_part WalThreads.running WalThreads.threads]. rewrite Hrun. destruct (WalThreads.idle (threads c !! i)) eqn:Hi; [|done].
    destruct (WalThreads.fits _ _ _ _ _); [|done]. intros [= <-] q. unfold WalThreads.append.
    destruct (WalWriter.writeEntry _ _ _ _ _) as [[[] w] f]; cbn; rewrite ?Hrun; try done. intros Hq _. rewrite Hq in Hi. by destruct q. }
  destruct (WalThreads.running l) eqn:Hrl.
  2-4: cbn [threads with_log]; intros Hq Hw; by rewrite (Hidle p Hq) in Hw.
  destruct (append_cases _ _ _ _ _ _ _ Ha) as (_ & _ & _ & _ & _ & Hpc & _). destruct (Hpc Hrl) as (q & Hi & [-> | [-> | [y ->]]]); rewrite Hi.
  - intros Hp Hx. assert (WalThreads.threads l !! i = Some p) as Hp' by (revert Hp; by case_match). rewrite Hi in Hp'. by injection Hp' as <-.
  - intros Hp Hx. cbn in Hp. rewrite Hi in Hp. by injection Hp as <-.
  - intros Hp Hx. assert (x = y) as -> by exact (applied_waits i ty k v (with_log l c) y p x Hi Hp Hx).
    destruct (applied_same i ty k v (with_log l c)) as (-> & -> & ->).
    destruct (WalThreadsLife.append_holds b i ty k v _ _ y Hl Ha Hi) as (He & Hlog & Hup & Ho). cbn in He, Hlog, Ho. cbn. split_and!; try done.
    by rewrite Hlog, drop_app_length.
Qed.

Lemma call_waits b init a i c c' p x :
  einv b init c -> act (limit b) a c = Some c' -> caller a = Some i -> threads c' !! i = Some p -> waiting p = Some x ->
  WalWriter.epoch (WalThreads.ticket x) = WalWriter.epoch_ (wal_ (eng_ c)) /\ WalThreads.upto x = length (log c') /\ opened c' = opened c /\
  history c' = history c ++ records_of a /\ running c = WalThreads.Running.
Proof.
  intros Hc Ha Hi Hp Hx. destruct a as [j k v|j k|j| |k|start end_ limit|j|j|j]; try done; injection Hi as ->; cbn [act records_of] in *.
  - destruct (lock_free c) eqn:Hf; [|done]. destruct (lock_free_true _ Hf) as (_ & Hrun & _).
    by destruct (write_waits _ _ _ _ _ _ _ _ _ _ Hc Hrun Ha Hp Hx) as (H1 & H2 & H3 & H4).
  - destruct (lock_free c) eqn:Hf; [|done]. destruct (lock_free_true _ Hf) as (_ & Hrun & _).
    by destruct (write_waits _ _ _ _ _ _ _ _ _ _ Hc Hrun Ha Hp Hx) as (H1 & H2 & H3 & H4).
  - destruct (holds_lock i c); [done|]. unfold on_log, WalThreads.act in Ha. cbn [log_part WalThreads.running WalThreads.threads] in Ha.
    destruct (running c) eqn:Hrun; [|done..]. destruct (WalThreads.idle (threads c !! i)); [|done]. cbn in Ha. rewrite lookup_insert_eq in Ha.
    injection Ha as <-. cbn in Hp |- *. rewrite lookup_insert_eq in Hp. injection Hp as <-. injection Hx as <-. cbn.
    by rewrite !drop_all, !app_nil_r.
Qed.

(** What was durable at the time of a clear stays so. *)
Lemma cleared_le b init c : einv b init c -> running c <> WalThreads.ClearThrew -> length (history c) = (cleared c + length (log c))%nat.
Proof.
  unfold einv. destruct (running c); [| |done..]; intros (_ & xs & pre & old & Hk & _) _ || intros (_ & xs & pre & old & Hk) _;
    rewrite (kept_cleared _ _ _ _ _ Hk), (k_history _ _ _ _ _ Hk), length_app; done.
Qed.

Lemma einv_log_inv b init c : einv b init c -> running c <> WalThreads.ClearThrew ->
  exists k l0 l1 n xs pre old, WalThreadsSpec.log_inv b (log_part c) k l0 l1 n /\ kept init c xs pre old.
Proof.
  intros Hc Hrun. assert (WalThreadsSpec.inv b (log_part c) /\ exists xs pre old, kept init c xs pre old) as (Hl & xs & pre & old & Hk).
  { unfold einv in Hc. destruct (running c); [| |done..]; [destruct Hc as (? & xs & pre & old & ? & _)|destruct Hc as (? & xs & pre & old & ?)]; eauto 6. }
  destruct (WalThreadsLife.inv_log _ _ Hl Hrun) as (k & l0 & l1 & n & Hli). by exists k, l0, l1, n, xs, pre, old.
Qed.

(** A call returned: what a death leaves is not older. *)
Lemma returned_settled b init a i c0 c1 c p x j :
  reached b init c0 -> act (limit b) a c0 = Some c1 -> caller a = Some i -> threads c1 !! i = Some p -> waiting p = Some x ->
  rtc (step (limit b)) c1 c -> threads c !! j = Some (WalThreads.Returned x) -> Z.of_nat (opened c) < 2 ^ 64 -> running c <> WalThreads.ClearThrew ->
  settled (since init (length (history c1)) c) (log_size (wal_ (eng_ c))) (eng_ c) (wld_ c).
Proof.
  intros Hr Ha Hcall Hp Hx Hs Hj Hlt Hrun. pose proof (reached_einv _ _ _ Hr) as H0.
  destruct (call_waits _ _ _ _ _ _ _ _ H0 Ha Hcall Hp Hx) as (Hep & Hup & Ho & Hh & Hrun0).
  pose proof (einv_act _ _ _ _ _ H0 Ha) as H1. pose proof (einv_reach _ _ _ _ Hs H1) as Hc.
  destruct (later_reach _ _ _ Hs) as [Hpre Hop Hsame Hmore]. destruct (einv_log_inv _ _ _ Hc Hrun) as (k & l0 & l1 & n & xs & pre & old & Hl & Hk).
  destruct (decide (opened c = opened c1)) as [E|E].
  - assert (running c1 <> WalThreads.ClearThrew) as Hrun1.
    { intros E1. apply Hrun. destruct Hs as [|? c2 ? [a2 Ha2] _]; [done|]. exfalso. revert Ha2. clear -E1. destruct a2; cbn [act]; unfold lock_free, on_log, WalThreads.act; cbn; rewrite E1; repeat case_match; done. }
    destruct (einv_log_inv _ _ _ H0) as (k' & l0' & l1' & n' & _ & _ & _ & Hl0 & _); [by rewrite Hrun0|].
    destruct (WalThreadsSpec.li_threads _ _ _ _ _ _ Hl j _ Hj x eq_refl Hlt) as [_ Hth].
    pose proof (WalThreadsSpec.li_epoch _ _ _ _ _ _ Hl0) as Hep0. cbn in Hep0, Hth.
    destruct Hth as [_ Hth]; [by rewrite Hep, Hep0, <- Ho, <- E; [|rewrite <- Ho, <- E]|].
    specialize (Hth eq_refl). rewrite (cleared_le _ _ _ H1 Hrun1), <- (Hsame E), <- Hup.
    eapply log_settled; [done|done|done|]. destruct Hpre as [more Hm]. pose proof (cleared_le _ _ _ Hc Hrun) as Hlen. pose proof (cleared_le _ _ _ H1 Hrun1) as Hlen1.
    apply (f_equal length) in Hm. rewrite length_app in Hm. rewrite (Hsame E) in Hlen. lia.
  - eapply settled_mono; [eapply (log_settled b init c xs pre old k l0 l1 n 0); [done|done|lia..]| |done].
    intros key v (m & Hm & ->). exists m. split; [|done]. specialize (Hmore ltac:(lia)). lia.
Qed.

(** C4: in durable mode a put, a delete or a sync that returned survives, whatever
    the other threads do.  A call by a thread took its place in the history of
    records; then any number of threads wrote, flushed, read, waited, led the
    group commit or failed, on a kernel that completes, cancels or fails log
    writes as it likes; and a wait with the call's ticket returned.  If the process
    dies at any later moment, an engine opened on what is left (which needs a
    working system and a log within the recovery limit) shows under every key its
    value at some moment of the history, not before that call.

    Assumed ([reached], [disk_ready], [limit]): table files can be read and
    written; [io_uring_submit] takes every entry; every record is at most
    [whole_write] bytes long, the size up to which the kernel writes whole or not
    at all; no clear of the log has thrown; fewer than 2^64 clears. *)
Theorem returned_call_survives b b' init a i c0 c1 c p x j f d max durable g :
  reached b init c0 -> act (limit b) a c0 = Some c1 -> caller a = Some i -> threads c1 !! i = Some p -> waiting p = Some x ->
  rtc (step (limit b)) c1 c -> threads c !! j = Some (WalThreads.Returned x) -> Z.of_nat (opened c) < 2 ^ 64 -> running c <> WalThreads.ClearThrew ->
  log_dies (wal_ (eng_ c)) d -> disk_ready b' d ->
  history c1 = history c0 ++ records_of a /\ history c1 `prefix_of` history c /\
  match (construct (Mt := Mt) (data_dir_ (eng_ c)) max durable g d (reborn f (wld_ c))).1 with
  | Ok e2 => exists xs l s, EngineWrite.running b' e2 (reborn f (wld_ c)) xs l s [] /\
      forall k, exists m, (length (history c1) <= m <= length (history c))%nat /\ view xs l k = contents init (take m (history c)) k
  | Throw _ => b' = false \/ WAL.MAX_RECOVERY_BYTES < disk_size d
  | Crashed | Undefined => False
  end.
Proof.
  intros Hr Ha Hcall Hp Hx Hs Hj Hlt Hrun Hd Hready. split; [|split].
  - by destruct (call_waits _ _ _ _ _ _ _ _ (reached_einv _ _ _ Hr) Ha Hcall Hp Hx) as (_ & _ & _ & Hh & _).
  - apply (later_reach _ _ _ Hs).
  - eapply (restart b' (since init (length (history c1)) c)); [by eapply returned_settled|done|done].
Qed.

(** ** Readers *)

(** A write that took the lock: its record is the last of the history, or it threw
    and left no trace. *)
Lemma write_history b init i ty k v c c' :
  einv b init c -> write (limit b) i ty k v c = Some c' ->
  history c' = history c ++ [WAL.mkEntry ty k v] \/
  history c' = history c /\ (running c' = WalThreads.Running -> threads c' !! i = Some WalThreads.Outside).
Proof.
  intros Hc. unfold write. destruct (WalThreads.act _ _ _) as [l|] eqn:Ha; [|done]. intros [= <-].
  destruct (append_cases _ _ _ _ _ _ _ Ha) as (Hrun & _ & _ & _ & _ & Hpc & more & Hlog & Hmore). cbn in Hrun, Hlog.
  unfold einv in Hc. rewrite Hrun in Hc. destruct Hc as [Hl _].
  assert (history (with_log l c) = history c ++ more) as Hh by (cbn; by rewrite Hlog, drop_app_length).
  assert (forall c', history c' = history (with_log l c) -> (more = [] -> running c' = WalThreads.Running -> threads c' !! i = Some WalThreads.Outside) ->
    history c' = history c ++ [WAL.mkEntry ty k v] \/ history c' = history c /\ (running c' = WalThreads.Running -> threads c' !! i = Some WalThreads.Outside)) as Hcase.
  { intros c' -> Hr. rewrite Hh. destruct Hmore as [-> | ->]; [right; rewrite app_nil_r; auto|by left]. }
  destruct (WalThreads.running l) eqn:Hrl; [|by (apply Hcase; [|cbn; rewrite Hrl])..].
  destruct (Hpc eq_refl) as (q & Hi & [-> | [-> | [y ->]]]); rewrite Hi.
  - apply Hcase; [by case_match|]. intros _ _. by case_match.
  - pose proof (WalThreadsSpec.inv_act _ _ _ _ Hl Ha) as Hl'. by destruct (never_wild b l i Hl' Hrl).
  - apply Hcase; [apply applied_same|]. intros ->. exfalso.
    destruct (WalThreadsLife.append_holds b i ty k v _ _ y Hl Ha Hi) as (_ & Hg & _). cbn in Hg. rewrite Hlog in Hg. by apply app_inv_head in Hg.
Qed.

(** C5: reads are current.  Whatever the threads have done, a lookup or a scan that
    gets the lock shows, for every key, the last of the writes that have taken
    their place in the history, durable or not; and a write takes it, at the end,
    by the time it releases the lock, or throws and leaves no trace (unless its
    append threw with the record taken, after which no one gets the lock).
    Assumed: calls on table files succeed, submissions are taken, records are at
    most [whole_write] bytes long; log writes may fail. *)
Theorem reads_are_current b init c :
  reached b init c -> lock_free c = true ->
  (forall k, (get k (eng_ c) (wld_ c)).1.1 = Ok (contents init (history c) k)) /\
  (forall start end_ limit, 0 <= limit -> exists full, range_of (contents init (history c)) start end_ full /\
     (scan start end_ limit (eng_ c) (wld_ c)).1.1 = Ok (take (Z.to_nat limit) full)) /\
  (forall i a c', act (limit b) a c = Some c' -> caller a = Some i ->
     history c' = history c ++ records_of a \/
     history c' = history c /\ (running c' = WalThreads.Running -> threads c' !! i = Some WalThreads.Outside)).
Proof.
  intros Hr Hf. pose proof (reached_einv _ _ _ Hr) as Hc. split_and!.
  - intros k. by apply (read_get b init).
  - intros start end_ limit Hlim. by apply (read_scan b init).
  - intros i a c' Ha Hi. destruct a as [j k v|j k|j| |k|start end_ limit|j|j|j]; try done; injection Hi as ->; cbn [act] in Ha.
    + rewrite Hf in Ha. by eapply write_history.
    + rewrite Hf in Ha. by eapply write_history.
    + left. destruct (holds_lock i c); [done|]. destruct (on_log (limit b) (WalThreads.Barrier i) c) as [c1|] eqn:Hb; [|done]. cbn [records_of]. rewrite app_nil_r.
      unfold on_log in Hb. destruct (WalThreads.act _ _ (log_part c)) as [l1|] eqn:H1; [|done]. injection Hb as <-.
      change (on_log (limit b) (WalThreads.AwaitTicket i) (with_log l1 c) = Some c') in Ha. unfold on_log in Ha.
      destruct (WalThreads.act _ _ _) as [l2|] eqn:H2 in Ha; [|done]. injection Ha as <-.
      destruct (log_step_same _ _ _ _ H1 I) as (_ & E1 & _), (log_step_same _ _ _ _ H2 I) as (_ & E2 & _). cbn in E1, E2 |- *.
      by rewrite E2, E1, !drop_all, !app_nil_r.
Qed.

(** The engine is well formed at every moment: the tables it lists are, in
    order, those of its directory, the memtable is the replay of the log, the block
    cache holds nothing wrong; and no step of any thread, with the lock or without,
    is undefined behaviour. *)
Theorem engine_well_formed b init c :
  reached b init c -> running c = WalThreads.Running ->
  (apart c = false -> exists xs, inv (eng_ c) (wld_ c) xs (mem_of (log c)) /\ forall k, view xs (mem_of (log c)) k = contents init (history c) k) /\
  (forall i, threads c !! i <> Some WalThreads.Wild) /\ (forall a c', act (limit b) a c = Some c' -> running c' <> WalThreads.Undef).
Proof.
  intros Hr Hrun. pose proof (reached_einv _ _ _ Hr) as Hc. pose proof Hc as Hc2. unfold einv in Hc2. rewrite Hrun in Hc2.
  destruct Hc2 as (Hl & xs & pre & old & Hk & Hlive). split_and!.
  - intros Ha. exists xs. split; [by apply Hlive|]. intros k. by eapply live_contents.
  - intros i. by apply (never_wild b (log_part c)).
  - intros a c' Ha E. pose proof (einv_act _ _ _ _ _ Hc Ha) as Hc'. unfold einv in Hc'. by rewrite E in Hc'.
Qed.

(** ** The lock comes free *)

(** Sections of the log's threads, in the engine. *)
Lemma log_goes c l :
  rtc WalThreadsLife.goes (log_part c) l ->
  exists c', rtc (step (limit true)) c c' /\ log_part c' = l /\ mu_ c' = mu_ c /\ apart c' = apart c /\ history c' = history c.
Proof.
  intros Hs. remember (log_part c) as l0 eqn:E. revert c E. induction Hs as [l0|l0 l1 l2 [j Hj] _ IH]; intros c ->.
  { exists c. by split_and!. }
  destruct (IH (with_log l1 c)) as (c' & Hs' & Hl & Hm & Ha & Hh); [by rewrite log_part_with_log|].
  exists c'. split_and!; [|done|done|done|].
  - eapply rtc_l; [|exact Hs']. exists (Go j). cbn [act]. unfold on_log. by rewrite Hj.
  - rewrite Hh. cbn. destruct (log_step_same _ _ _ _ Hj I) as (_ & -> & _). cbn. by rewrite drop_all, app_nil_r.
Qed.

Lemma sync_ends l :
  WalThreadsSpec.inv true l -> WalThreads.running l = WalThreads.Running ->
  exists l', rtc WalThreadsLife.goes l l' /\ WalThreads.running l' = WalThreads.Running /\ WalWriter.sync_in_progress_ (WalThreads.wal l') = false.
Proof.
  intros Hl Hrun. destruct (WalThreadsLife.inv_running _ _ Hl Hrun) as (k & l0 & l1 & n & ld & st & m & _ & Hv).
  pose proof (GroupCommit.inv_reachable _ (WalThreadsSpec.vi_reach _ _ _ _ _ _ _ Hv)) as Hg.
  destruct (WalWriter.sync_in_progress_ (WalThreads.wal l)) eqn:Hflag; [|by exists l].
  destruct (GroupCommit.in_busy _ Hg Hflag) as (j & p' & Hj & Hp). cbn [WalThreadsSpec.view GroupCommit.threads] in Hj.
  rewrite lookup_fmap, fmap_Some in Hj. destruct Hj as (p & Hj & ->).
  destruct (WalThreadsLife.leader_done _ l j p eq_refl Hl Hrun Hj Hp) as (l' & q & Hs & Hr & _ & _ & Hf & _). by exists l'.
Qed.

(** What a section of a flush does when nothing fails. *)
Lemma section_ok {A} i (m : E Mt (WalWriter.t R) A) next c (P : engine Mt (WalWriter.t R) -> world -> Prop) :
  wpe m (fun r e w => (exists a, r = Ok a) /\ P e w) (eng_ c) (wld_ c) ->
  exists e w, section i m next c = next (with_engine e w c) /\ P e w.
Proof. unfold wpe, section. destruct (m _ _) as [[r e] w]. cbn [fst snd]. intros [[a ->] HP]. by exists e, w. Qed.

Lemma disarmed init c : einv true init c -> running c = WalThreads.Running -> Fault.g_armed (faults (wld_ c)) = false.
Proof.
  intros Hc Hrun. destruct (einv_log_inv _ _ _ Hc) as (k & l0 & l1 & n & _ & _ & _ & Hl & _); [by rewrite Hrun|].
  apply (WalWriterSpec.co_fine _ _ _ _ _ _ _ _ _ (proj1 (WalThreadsSpec.li_winv _ _ _ _ _ _ Hl)) eq_refl).
Qed.

Lemma running_live init c : einv true init c -> running c = WalThreads.Running -> apart c = false ->
  exists xs pre old, kept init c xs pre old /\ live c xs pre.
Proof. unfold einv. intros Hc Hrun Ha. rewrite Hrun in Hc. destruct Hc as (_ & xs & pre & old & Hk & Hlive). exists xs, pre, old. auto. Qed.

Definition next_phase (ph : phase) : option phase :=
  match ph with ToPublish => Some ToReset | ToReset => Some ToCompact | ToCompact => None end.

Definition phases_left (m : option (nat * phase)) : nat :=
  match m with Some (_, ToPublish) => 3 | Some (_, ToReset) => 2 | Some (_, ToCompact) => 1 | None => 0 end.

Lemma frees init c i ph :
  einv true init c -> running c = WalThreads.Running -> apart c = false -> mu_ c = Some (i, ph) -> (ph = ToPublish -> roomy c = true) ->
  exists c', rtc (step (limit true)) c c' /\ running c' = WalThreads.Running /\ apart c' = false /\ history c' = history c /\
    mu_ c' = (i,.) <$> next_phase ph.
Proof.
  intros Hc Hrun Ha Hmu Hroom. pose proof (disarmed _ _ Hc Hrun) as Hd. destruct (running_live _ _ Hc Hrun Ha) as (xs & pre & old & Hk & Hlive).
  pose proof Hlive as [Hi Hio Hph]. unfold phase_ok in Hph. rewrite Hmu in Hph. destruct ph; cbn [next_phase fmap option_fmap option_map].
  - destruct (section_ok i publish (with_mu (Some (i, ToReset))) c (fun _ _ => True)) as (e & w & Hs & _).
    { eapply wpe_mono; [apply publish_hit_spec; [done|done|by eapply memtable_flushable; [|apply Hroom]]|].
      intros r e w (_ & _ & _ & Hok & _). split; [|done]. exists tt. by apply Hok. }
    eexists. split; [apply rtc_once; exists Proceed; cbn [act]; unfold proceed; rewrite Hrun, Ha, Hmu, (Hroom eq_refl), Hs; done|].
    by split_and!.
  - assert (WalThreadsSpec.inv true (log_part c)) as Hl by (unfold einv in Hc; rewrite Hrun in Hc; apply Hc).
    destruct (sync_ends _ Hl Hrun) as (l1 & Hs1 & Hr1 & Hf1). destruct (log_goes c l1 Hs1) as (c1 & Hs & <- & Hmu1 & Ha1 & Hh1). cbn in Hr1, Hf1.
    pose proof (einv_reach _ _ _ _ Hs Hc) as Hc1. rewrite Hmu in Hmu1. rewrite Ha in Ha1.
    destruct (running_live _ _ Hc1 Hr1 Ha1) as (xs1 & pre1 & old1 & Hk1 & [Hi1 Hio1 _]).
    assert (exists l2, WalThreads.act (limit true) WalThreads.Clear (log_part c1) = Some l2 /\ WalThreads.running l2 = WalThreads.Running /\
      Fault.g_armed (WalThreads.flt l2) = false) as (l2 & Hact & Hr2 & Hd2).
    { destruct (einv_log_inv _ _ _ Hc1) as (k & l0 & l1' & n & _ & _ & _ & Hli & _); [by rewrite Hr1|].
      pose proof (WalWriterSpec.clear_spec true true _ _ _ _ _ _ (WalThreadsSpec.li_winv _ _ _ _ _ _ Hli) Hf1) as Hcl. unfold WalWriterSpec.wpr in Hcl.
      unfold WalThreads.act. cbn [log_part WalThreads.running WalThreads.wal]. rewrite Hr1, Hf1. eexists. split; [done|].
      unfold WalThreads.clear_. cbn [log_part WalThreads.wal WalThreads.flt] in *. destruct (WalWriter.clear _ _) as [[r w] f].
      cbn [fst snd] in Hcl. destruct Hcl as (Hfr & _ & Hok & _). rewrite (Hok eq_refl). cbn. split; [done|]. apply Hfr. by apply (disarmed init). }
    destruct (clear_cases _ _ _ Hact) as [_ Hnil]. rewrite Hr2 in Hnil. destruct Hnil as [Hnil _].
    assert (inv (eng_ (with_log l2 c1)) (wld_ (with_log l2 c1)) xs1 (mem_of (log c1))) as Hi2 by (by apply inv_faults, inv_wal).
    destruct (section_ok i replace_memtable (with_mu (Some (i, ToCompact))) (with_log l2 c1) (fun _ _ => True)) as (e & w & Hs2 & _).
    { eapply wpe_mono; [exact (replace_spec _ _ _ _ Hi2)|]. intros r e w (_ & _ & _ & _ & Hok & _). split; [|done]. exists tt. by apply Hok. }
    eexists. split; [etrans; [exact Hs|]; apply rtc_once; exists Proceed; cbn [act]; unfold proceed; rewrite Hr1, Ha1, Hmu1|].
    + unfold mbind, option_bind. rewrite Hact. cbn [running with_log]. rewrite Hr2, Hs2. reflexivity.
    + cbn. rewrite Hr2, Hnil, drop_nil, app_nil_r. by split_and!.
  - destruct Hph as [_ Hr]. destruct (section_ok i compact_tables (leave i false) c (fun _ _ => True)) as (e & w & Hs & _).
    { eapply wpe_mono; [by apply compact_spec|]. intros r e w (_ & _ & Hok & _). split; [|done]. exists tt. by apply Hok. }
    eexists. split; [apply rtc_once; exists Proceed; cbn [act]; unfold proceed; rewrite Hrun, Ha, Hmu, Hs; done|].
    destruct (leave_same i false (with_engine e w c)) as (-> & _ & _ & -> & ->). split_and!; try done.
    unfold leave. cbn [threads with_mu]. by destruct (_ !! i) as [[]|].
Qed.

(** C6: the engine's lock comes free: where no call fails and no fault point is
    armed, whoever holds it in a flush can finish.  In particular the flush that
    must clear the log while another thread leads a group commit is not stuck: the
    leader needs no lock of the engine, and its sections, then the flush's, lead
    to a configuration in which [mu_] is free and no record is lost. *)
Theorem lock_comes_free init c :
  reached true init c -> running c = WalThreads.Running -> apart c = false -> (forall i, mu_ c = Some (i, ToPublish) -> roomy c = true) ->
  exists c', rtc (step (limit true)) c c' /\ lock_free c' = true /\ history c' = history c.
Proof.
  intros Hr Hrun Ha Hroom. pose proof (reached_einv _ _ _ Hr) as Hc. clear Hr.
  remember (phases_left (mu_ c)) as n eqn:Hn. revert c Hrun Ha Hroom Hc Hn. induction n as [|n IH]; intros c Hrun Ha Hroom Hc Hn.
  { exists c. split_and!; [done| |done]. unfold lock_free. rewrite Hrun, Ha. by destruct (mu_ c) as [[i []]|]. }
  destruct (mu_ c) as [[i ph]|] eqn:Hmu; [|done].
  destruct (frees init c i ph Hc Hrun Ha Hmu) as (c1 & Hs & Hr1 & Ha1 & Hh1 & Hm1); [intros ->; by eapply Hroom|].
  destruct (IH c1) as (c2 & Hs2 & Hf2 & Hh2); try done.
  - rewrite Hm1. by destruct ph.
  - by eapply einv_reach.
  - rewrite Hm1. destruct ph; cbn in Hn |- *; lia.
  - exists c2. split_and!; [by etrans|done|congruence].
Qed.

(** ** One thread alone *)

(** [c2] is where a computation on the engine, with thread [i] in it, has left [c]. *)
Definition ends {A} (i : nat) c (o : result A * engine Mt (WalWriter.t R) * world) (c2 : config Mt R) : Prop :=
  let '(r, e, w) := o in
  eng_ c2 = e /\ wld_ c2 = w /\
  match r with
  | Ok _ => running c2 = WalThreads.Running /\ mu_ c2 = None /\ forall x, threads c !! i = Some (WalThreads.Holding x) ->
      threads c2 !! i = Some (if WalWriter.durability_ (wal_ e) then WalThreads.AtTest x else WalThreads.Outside)
  | Throw _ => running c2 = WalThreads.ClearThrew \/ running c2 = WalThreads.Running /\ mu_ c2 = None /\
      forall x, threads c !! i = Some (WalThreads.Holding x) -> threads c2 !! i = Some WalThreads.Outside
  | Crashed => running c2 = WalThreads.Died
  | Undefined => running c2 = WalThreads.Undef
  end.

Lemma leave_engine i t c : eng_ (leave i t c) = eng_ c /\ wld_ (leave i t c) = wld_ c.
Proof. unfold leave. cbn. by destruct (threads c !! i) as [[]|]. Qed.

Lemma leave_pc i t c x :
  threads c !! i = Some (WalThreads.Holding x) ->
  threads (leave i t c) !! i = Some (if negb t && WalWriter.durability_ (wal_ (eng_ c)) then WalThreads.AtTest x else WalThreads.Outside).
Proof. intros Hi. unfold leave. cbn. rewrite Hi. cbn. by rewrite lookup_insert_eq. Qed.

Lemma leave_ends {A} i c0 c (a : A) :
  running c = WalThreads.Running -> (forall x, threads c0 !! i = Some (WalThreads.Holding x) -> threads c !! i = Some (WalThreads.Holding x)) ->
  ends i c0 (Ok a, eng_ c, wld_ c) (leave i false c).
Proof.
  intros Hrun Hi. destruct (leave_engine i false c) as [H1 H2]. destruct (leave_same i false c) as (_ & _ & _ & H3 & H4). rewrite Hrun in H3.
  split_and!; try done. intros x Hx. by rewrite (leave_pc i false c x (Hi x Hx)).
Qed.

Lemma throw_ends {A} i c0 c (q : exn) :
  running c = WalThreads.Running -> (forall x, threads c0 !! i = Some (WalThreads.Holding x) -> threads c !! i = Some (WalThreads.Holding x)) ->
  ends (A := A) i c0 (Throw q, eng_ c, wld_ c) (leave i true c).
Proof.
  intros Hrun Hi. destruct (leave_engine i true c) as [H1 H2]. destruct (leave_same i true c) as (_ & _ & _ & H3 & H4). rewrite Hrun in H3.
  split_and!; try done. right. split_and!; try done. intros x Hx. by rewrite (leave_pc i true c x (Hi x Hx)).
Qed.

(** The longest record. *)
Variable bound : Z.

Lemma finish_unheld n c c2 : finish bound n c = Some c2 -> mu_ c = None -> c2 = c.
Proof. intros Hf Hm. assert (finish bound n c = Some c) as E by (destruct n; cbn [finish]; rewrite Hm; by destruct (running _)). rewrite E in Hf. by injection Hf. Qed.

Lemma finish_leave n i t c c2 : finish bound n (leave i t c) = Some c2 -> c2 = leave i t c.
Proof. intros Hf. apply (finish_unheld n); [done|]. by destruct (leave_same i t c) as (_ & _ & _ & _ & ?). Qed.

Lemma finish_stopped n c c2 : running c <> WalThreads.Running -> finish bound n c = Some c2 -> c2 = c.
Proof. intros Hr. assert (finish bound n c = Some c) as -> by (destruct n; cbn [finish]; by destruct (running c)). by intros [= <-]. Qed.

Lemma finish_held n i ph c : running c = WalThreads.Running -> mu_ c = Some (i, ph) -> finish bound (S n) c = proceed bound c ≫= finish bound n.
Proof. intros Hrun Hmu. cbn [finish]. by rewrite Hrun, Hmu. Qed.

Lemma notify_holding l i x : l !! i = Some (WalThreads.Holding x) -> WalThreads.notify_all l !! i = Some (WalThreads.Holding x).
Proof. intros Hi. unfold WalThreads.notify_all. by rewrite lookup_fmap, Hi. Qed.

Definition holds_on (i : nat) c0 c : Prop :=
  running c = WalThreads.Running /\ forall x, threads c0 !! i = Some (WalThreads.Holding x) -> threads c !! i = Some (WalThreads.Holding x).

(** A section, and what comes after it. *)
Lemma section_alone {A B} n i (m : E Mt (WalWriter.t R) A) (rest : A -> E Mt (WalWriter.t R) B) next c0 c c2 :
  holds_on i c0 c -> finish bound n (section i m next c) = Some c2 ->
  (forall a e w, m (eng_ c) (wld_ c) = (Ok a, e, w) -> finish bound n (next (with_engine e w c)) = Some c2 -> ends i c0 (rest a e w) c2) ->
  ends i c0 ((a ← m; rest a) (eng_ c) (wld_ c)) c2.
Proof.
  intros [Hrun Hi] Hf Hn. unfold section in Hf. unfold mbind, E_bind. destruct (m (eng_ c) (wld_ c)) as [[[a|q| |] e] w].
  - by apply Hn.
  - apply finish_leave in Hf as ->. by apply (throw_ends i c0 (with_engine e w c)).
  - apply finish_stopped in Hf as ->; [|done]. by split_and!.
  - apply finish_stopped in Hf as ->; [|done]. by split_and!.
Qed.

Lemma bind_ret {A} (m : E Mt (WalWriter.t R) A) e w : (a ← m; mret a) e w = m e w.
Proof. unfold mbind, E_bind, mret, E_ret. by destruct (m e w) as [[[]]]. Qed.

(** The sections of a flush, one after the other, are [flushMemtable]'s. *)
Lemma compact_alone n i c0 c c2 :
  holds_on i c0 c -> mu_ c = Some (i, ToCompact) -> finish bound (S n) c = Some c2 -> ends i c0 (compact_tables (eng_ c) (wld_ c)) c2.
Proof.
  intros Hh Hmu Hf. rewrite (finish_held _ _ _ _ (proj1 Hh) Hmu) in Hf. unfold proceed in Hf. rewrite Hmu in Hf. cbn [mbind option_bind] in Hf.
  rewrite <- bind_ret. eapply section_alone; [done|exact Hf|]. intros [] e w _ ->%finish_leave. by apply (leave_ends i c0 (with_engine e w c)); apply Hh.
Qed.

Lemma reset_alone n i c0 c c2 :
  holds_on i c0 c -> mu_ c = Some (i, ToReset) -> finish bound (S (S n)) c = Some c2 ->
  ends i c0 ((log_op log_clear ;; replace_memtable ;; compact_tables) (eng_ c) (wld_ c)) c2.
Proof.
  intros [Hrun Hi] Hmu Hf. rewrite (finish_held _ _ _ _ Hrun Hmu) in Hf. unfold proceed in Hf. rewrite Hmu in Hf. unfold WalThreads.act in Hf.
  cbn [log_part WalThreads.running WalThreads.wal] in Hf. rewrite Hrun in Hf. destruct (WalWriter.sync_in_progress_ _); [done|].
  unfold WalThreads.clear_ in Hf. cbn [log_part WalThreads.wal WalThreads.flt WalThreads.opened WalThreads.log WalThreads.threads] in Hf.
  unfold mbind at 1, E_bind at 1, log_op. change (log_clear (wal_ (eng_ c)) (faults (wld_ c))) with (WalWriter.clear (wal_ (eng_ c)) (faults (wld_ c))).
  destruct (WalWriter.clear (wal_ (eng_ c)) (faults (wld_ c))) as [[[[]|q| |] w'] f']; cbn [mbind option_bind running with_log WalThreads.running] in Hf.
  - set (l := WalThreads.mkConfig _ _ _ _ _ _) in Hf. change (set_wal w' (eng_ c)) with (eng_ (with_log l c)). change (set_faults f' (wld_ c)) with (wld_ (with_log l c)).
    eapply section_alone; [|exact Hf|]; [split; [done|]; intros x Hx; by apply notify_holding, Hi|].
    intros [] e w _ Hf2. eapply (compact_alone n i c0 (with_mu (Some (i, ToCompact)) (with_engine e w (with_log l c)))); [|done|exact Hf2].
    split; [done|]. intros x Hx. by apply notify_holding, Hi.
  - apply finish_stopped in Hf as ->; [|done]. split_and!; try done. by left.
  - apply finish_stopped in Hf as ->; [|done]. by split_and!.
  - apply finish_stopped in Hf as ->; [|done]. by split_and!.
Qed.

Lemma flush_alone i c0 c c2 :
  holds_on i c0 c -> mu_ c = Some (i, ToPublish) -> finish bound 3 c = Some c2 ->
  ends i c0 ((publish_memtable ;; reset_log ;; compact_tables) (eng_ c) (wld_ c)) c2.
Proof.
  intros Hh Hmu Hf. rewrite (finish_held _ _ _ _ (proj1 Hh) Hmu) in Hf. unfold proceed in Hf. rewrite Hmu in Hf. destruct (roomy c); [|done]. cbn [mbind option_bind] in Hf.
  assert (forall e w, (publish_memtable ;; reset_log ;; compact_tables) e w = (publish ;; log_op log_clear ;; replace_memtable ;; compact_tables) e w) as ->.
  { intros e w. unfold publish, reset_log, replace_memtable. unfold mbind, E_bind. destruct (publish_memtable e w) as [[[[]|q| |] e1] w1]; [|done..].
    destruct (lift _ e1 w1) as [[[[]|q| |] e2] w2]; [|done..]. by destruct (log_op log_clear e2 w2) as [[[[]|q| |] e3] w3]. }
  eapply section_alone; [done|exact Hf|]. intros [] e w _ Hf2.
  by eapply (reset_alone 0 i c0 (with_mu (Some (i, ToReset)) (with_engine e w c))).
Qed.

Lemma begin_alone i c0 c c2 :
  holds_on i c0 c -> finish bound 3 (begin_flush i c) = Some c2 -> ends i c0 (flushMemtable (eng_ c) (wld_ c)) c2.
Proof.
  intros Hh. unfold begin_flush, flushMemtable. unfold mbind at 1, E_bind at 1, asks. destruct (_ =? 0).
  - intros ->%finish_leave. by apply leave_ends; apply Hh.
  - intros Hf. by apply (flush_alone i c0 (with_mu (Some (i, ToPublish)) c)).
Qed.

Lemma applied_alone i ty k v c0 c c2 :
  holds_on i c0 c -> finish bound 3 (applied i ty k v c) = Some c2 ->
  ends i c0 ((mem_op (mem_write ty k v) ;; m ← asks memtable_; if mt_isFull m then flushMemtable else mret tt) (eng_ c) (wld_ c)) c2.
Proof.
  intros Hh Hf. eapply section_alone; [done|exact Hf|]. intros [] e w _ Hf2. unfold mbind, E_bind, asks. cbn [eng_ with_engine] in Hf2.
  destruct (mt_isFull (memtable_ e)).
  - by apply (begin_alone i c0 (with_engine e w c)).
  - apply finish_leave in Hf2 as ->. by apply (leave_ends i c0 (with_engine e w c)); apply Hh.
Qed.

(** C7: one thread alone runs [Engine]'s functions: the sections of a put or a
    delete up to the release of the lock, one after the other, are
    [write_locked]; those of a flush are [flush].  The thread then waits with the
    ticket [write_locked] returned, in durable mode only. *)
Theorem sections_alone c :
  lock_free c = true ->
  (forall i ty k v c1 c2, write bound i ty k v c = Some c1 -> finish bound 3 c1 = Some c2 ->
     let '(r, e, w) := write_locked ty k v (mem_write ty k v) (eng_ c) (wld_ c) in
     eng_ c2 = e /\ wld_ c2 = w /\
     match r with
     | Ok ticket => running c2 = WalThreads.Running /\ mu_ c2 = None /\
         exists n, threads c2 !! i = Some (if WalWriter.durability_ (wal_ e) then WalThreads.AtTest (WalThreads.mkWait ticket n) else WalThreads.Outside)
     | Throw _ => running c2 = WalThreads.ClearThrew \/
         running c2 = WalThreads.Running /\ mu_ c2 = None /\ threads c2 !! i = Some WalThreads.Outside
     | Crashed => running c2 = WalThreads.Died
     | Undefined => running c2 = WalThreads.Undef \/ threads c2 !! i = Some WalThreads.Wild
     end) /\
  (forall i c1 c2, act bound (Flush i) c = Some c1 -> finish bound 3 c1 = Some c2 -> ends i c (flush (eng_ c) (wld_ c)) c2).
Proof.
  intros Hfree. destruct (lock_free_true _ Hfree) as (Hmu & Hrun & _). split.
  2: { intros i c1 c2. cbn [act]. rewrite Hfree. destruct (WalThreads.idle _); [|done]. intros [= <-] Hf.
       pose proof (flush_same (eng_ c) (wld_ c)) as Hs. rewrite Hs. by apply begin_alone. }
  intros i ty k v c1 c2 Hw Hf. unfold write, WalThreads.act in Hw. cbn [log_part WalThreads.running WalThreads.threads] in Hw. rewrite Hrun in Hw.
  destruct (_ && _); [|done]. cbn [mbind option_bind] in Hw. injection Hw as <-. unfold WalThreads.append in Hf. cbn [log_part WalThreads.wal WalThreads.flt] in Hf.
  assert (forall e w, write_locked ty k v (mem_write ty k v) e w =
    (ticket ← log_op (log_append ty k v); (mem_op (mem_write ty k v) ;; m ← asks memtable_; if mt_isFull m then flushMemtable else mret tt) ;; mret ticket) e w) as ->.
  { intros e w. unfold write_locked, mbind, E_bind. destruct (log_op (log_append ty k v) e w) as [[[t|q| |] e1] w1]; [|done..].
    destruct (mem_op _ e1 w1) as [[[[]|q| |] e2] w2]; [|done..]. unfold asks. by destruct (mt_isFull (memtable_ e2)). }
  unfold mbind at 1, E_bind at 1, log_op.
  change (log_append ty k v (wal_ (eng_ c)) (faults (wld_ c))) with (WalWriter.writeEntry ty k v (wal_ (eng_ c)) (faults (wld_ c))).
  destruct (WalWriter.writeEntry ty k v (wal_ (eng_ c)) (faults (wld_ c))) as [[r w'] f'].
  set (l := WalThreads.settle _ _ _ _ _ _ _) in Hf.
  assert (running (with_log l c) = WalThreads.running l) as Hrl by done. assert (mu_ (with_log l c) = None) as Hml by done.
  destruct r as [t|q| |]; cbn [WalThreads.settle] in l; cbn [l WalThreads.running WalThreads.threads log_part] in Hf, Hrl; rewrite ?Hrun, ?lookup_insert_eq in Hf; rewrite ?Hrun in Hrl.
  - set (x := WalThreads.mkWait t (length (WalThreads.records (WAL.mkEntry ty k v) (wal_ (eng_ c)) w' (log c)))).
    assert (threads (with_log l c) !! i = Some (WalThreads.Holding x)) as Hx by apply lookup_insert_eq.
    pose proof (applied_alone i ty k v (with_log l c) (with_log l c) c2 ltac:(by split) Hf) as He.
    change (eng_ (with_log l c)) with (set_wal w' (eng_ c)) in He. change (wld_ (with_log l c)) with (set_faults f' (wld_ c)) in He. unfold mbind at 1, E_bind at 1.
    match type of He with ends _ _ ?o _ => destruct o as [[[[]|q| |] e] w] end; destruct He as (H1 & H2 & H3); (split; [done|split; [done|]]); [| |done|].
    + destruct H3 as (? & ? & H3). split_and!; [done|done|]. exists (WalThreads.upto x). rewrite (H3 x Hx). by destruct (WalWriter.durability_ _).
    + destruct H3 as [H3|(? & ? & H3)]; [by left|right]. split_and!; [done|done|exact (H3 x Hx)].
    + by left.
  - assert (c2 = with_log l c \/ c2 = split (with_log l c)) as Hc2.
    { revert Hf. case_match; intros Hf; apply finish_unheld in Hf; auto. }
    destruct Hc2 as [-> | ->]; (split_and!; [done|done|right; split_and!; [done|done|apply lookup_insert_eq]]).
  - apply finish_unheld in Hf as ->; [|done]. by split_and!.
  - apply finish_unheld in Hf as ->; [|done]. split_and!; [done|done|right; apply lookup_insert_eq].
Qed.

End runs.
(** ** Witnesses *)

Abbreviation large := (write_limit (whole_write (R := scripted)) true).

(** Three threads: the second leads the group commit for the first, which sleeps,
    while the third flushes, and must wait for it before it clears the log. *)
Definition first : config Memtable.t Kernel.scripted := start fresh (fresh_world Fault.init) [].
Definition at_ (l : list action) : config Memtable.t Kernel.scripted := default first (acts large l first).
Definition a1 : action := Put 1 (bs "a") (bs "1").
Definition a2 : action := Put 2 (bs "b") (bs "2").
Definition flushing : list action := [a1; a2; Go 2%nat; Go 1%nat; Flush 3%nat; Proceed; Go 2%nat].
Definition durable_ : list action := flushing ++ [Go 2%nat; Go 2%nat; Go 2%nat; Go 2%nat; Go 2%nat].
Definition cleared_ : list action := durable_ ++ [Proceed; Proceed; Go 1%nat; Get (bs "a"); Put 3 (bs "a") (bs "3")].
Definition x2 : WalThreads.Wait := WalThreads.mkWait (WalWriter.mkTicket 0 1024) 2.

(** The flush cannot go on until the leader has left; both waits return, the second
    thread's by its fdatasync, the first thread's by the flush. *)
Example run_of_three :
  act large Proceed (at_ flushing) = None /\ mu_ (at_ durable_) = Some (3%nat, ToReset) /\
  threads (at_ durable_) !! 2%nat = Some (WalThreads.Returned x2) /\
  threads (at_ cleared_) !! 1%nat = Some (WalThreads.Returned (WalThreads.mkWait (WalWriter.mkTicket 0 512) 1)) /\
  mu_ (at_ cleared_) = None /\ length (history (at_ cleared_)) = 3%nat /\ length (log (at_ cleared_)) = 1%nat.
Proof. vm_compute. by split_and!. Qed.

Definition nothing : str -> option str := fun _ => None.

Lemma at_reached l : is_Some (acts large l first) -> reached true nothing (at_ l).
Proof.
  intros [c Hc]. exists db, 1000, true, sample_rng, no_log, (fresh_world Fault.init), fresh, [], []. split_and!; try done.
  - split; [|exists []; split; [apply WalDisk.image_nil|done]|done|apply global_coherent|done]. split; [constructor|constructor|]. intros p [c' Hp]. done.
  - by apply quiet_ready.
  - unfold at_. rewrite Hc. by eapply actions_reach.
Qed.

Lemma returned_call_survives_witness :
  history (at_ [a1; a2]) = history (at_ [a1]) ++ records_of a2 /\ history (at_ [a1; a2]) `prefix_of` history (at_ durable_) /\
  match (construct (Mt := Memtable.t) (data_dir_ (eng_ (at_ durable_))) 1000 true sample_rng (WalWriter.kernel (wal_ (eng_ (at_ durable_))))
           (reborn Fault.init (wld_ (at_ durable_)))).1 with
  | Ok e2 => exists xs l s, EngineWrite.running true e2 (reborn Fault.init (wld_ (at_ durable_))) xs l s [] /\
      forall k, exists m, (length (history (at_ [a1; a2])) <= m <= length (history (at_ durable_)))%nat /\
        view xs l k = contents nothing (take m (history (at_ durable_))) k
  | Throw _ => true = false \/ WAL.MAX_RECOVERY_BYTES < disk_size (WalWriter.kernel (wal_ (eng_ (at_ durable_))))
  | Crashed | Undefined => False
  end.
Proof.
  apply (returned_call_survives true true nothing a2 2 (at_ [a1]) (at_ [a1; a2]) (at_ durable_) (WalThreads.AtTest x2) x2 2).
  - apply at_reached. vm_compute. by eexists.
  - vm_compute. reflexivity.
  - reflexivity.
  - vm_compute. reflexivity.
  - reflexivity.
  - apply (actions_reach large (drop 2 durable_)). vm_compute. reflexivity.
  - vm_compute. reflexivity.
  - vm_compute. reflexivity.
  - vm_compute. discriminate.
  - apply WalLife.dies_now.
  - apply quiet_ready; vm_compute; (reflexivity || congruence).
Defined.

(** The next life has both keys: one from the new table and the log, no torn state. *)
Example next_life :
  match construct (Mt := Memtable.t) db 1000 true sample_rng (WalWriter.kernel (wal_ (eng_ (at_ durable_)))) (reborn Fault.init (wld_ (at_ durable_))) with
  | (Ok e2, w2) => (exec_all [EngineLife.Get (bs "a"); EngineLife.Get (bs "b")] e2 w2).1.1.1
  | _ => []
  end = [Value (Some (bs "1")); Value (Some (bs "2"))].
Proof. vm_compute. reflexivity. Qed.

Lemma reads_are_current_witness :
  (forall k, (get k (eng_ (at_ cleared_)) (wld_ (at_ cleared_))).1.1 = Ok (contents nothing (history (at_ cleared_)) k)) /\
  (forall start end_ limit, 0 <= limit -> exists full, range_of (contents nothing (history (at_ cleared_))) start end_ full /\
     (scan start end_ limit (eng_ (at_ cleared_)) (wld_ (at_ cleared_))).1.1 = Ok (take (Z.to_nat limit) full)) /\
  (forall i a c', act large a (at_ cleared_) = Some c' -> caller a = Some i ->
     history c' = history (at_ cleared_) ++ records_of a \/
     history c' = history (at_ cleared_) /\ (running c' = WalThreads.Running -> threads c' !! i = Some WalThreads.Outside)).
Proof. apply (reads_are_current true nothing (at_ cleared_)); [apply at_reached; vm_compute; by eexists|vm_compute; reflexivity]. Defined.

Lemma engine_well_formed_witness :
  let c := at_ flushing in
  (apart c = false -> exists xs, inv (eng_ c) (wld_ c) xs (mem_of (log c)) /\ forall k, view xs (mem_of (log c)) k = contents nothing (history c) k) /\
  (forall i, threads c !! i <> Some WalThreads.Wild) /\ (forall a c', act large a c = Some c' -> running c' <> WalThreads.Undef).
Proof. apply (engine_well_formed true nothing (at_ flushing)); [apply at_reached; vm_compute; by eexists|vm_compute; reflexivity]. Defined.

Lemma lock_comes_free_witness : exists c', rtc (step large) (at_ flushing) c' /\ lock_free c' = true /\ history c' = history (at_ flushing).
Proof.
  apply (lock_comes_free nothing (at_ flushing)); [apply at_reached; vm_compute; by eexists|vm_compute; reflexivity|vm_compute; reflexivity|].
  intros i H. vm_compute in H. discriminate.
Defined.

(** A put and then a flush, each alone. *)
Definition put_then : config Memtable.t Kernel.scripted := default first (write large 1 WAL.PUT (bs "a") (bs "1") first).
Definition flush_then : config Memtable.t Kernel.scripted := default first (finish large 3 (at_ [a1; Flush 3%nat])).

Lemma sections_alone_witness :
  (let '(r, e, w) := write_locked WAL.PUT (bs "a") (bs "1") (mem_write WAL.PUT (bs "a") (bs "1")) (eng_ first) (wld_ first) in
   eng_ put_then = e /\ wld_ put_then = w /\
   match r with
   | Ok ticket => running put_then = WalThreads.Running /\ mu_ put_then = None /\
       exists n, threads put_then !! 1%nat = Some (if WalWriter.durability_ (wal_ e) then WalThreads.AtTest (WalThreads.mkWait ticket n) else WalThreads.Outside)
   | Throw _ => running put_then = WalThreads.ClearThrew \/
       running put_then = WalThreads.Running /\ mu_ put_then = None /\ threads put_then !! 1%nat = Some WalThreads.Outside
   | Crashed => running put_then = WalThreads.Died
   | Undefined => running put_then = WalThreads.Undef \/ threads put_then !! 1%nat = Some WalThreads.Wild
   end) /\
  ends 3 (at_ [a1]) (flush (eng_ (at_ [a1])) (wld_ (at_ [a1]))) flush_then.
Proof.
  split.
  - destruct (sections_alone large first) as [Hw _]; [reflexivity|]. apply (Hw 1%nat WAL.PUT (bs "a") (bs "1") put_then put_then); vm_compute; reflexivity.
  - destruct (sections_alone large (at_ [a1])) as [_ Hf]; [vm_compute; reflexivity|]. apply (Hf 3%nat (at_ [a1; Flush 3%nat]) flush_then); vm_compute; reflexivity.
Defined.

End EngineThreadsLife.
