(* ===== verification/Cli.v ===== *)
(** * The command line tool

    Models [src/tools/lsm_cli.cpp]: the loop over the lines of standard input, the
    parsing of a line with [std::stringstream], the commands over the engine's
    operations, and everything written to standard output. *)

From S2P Require Import Prelude Fault Memtable World Names LogSpec Engine.
Open Scope Z_scope.

Module Cli.
Import Engine.

(** ** Streams

    What is left of a stream is the bytes not yet read; reading a stream that has
    failed, or is at its end, gives nothing, as reading no bytes does. *)

Definition newline : byte := x0a.
Definition nl : str := [newline].

(** [std::getline]: fails at the end; a last line need not end in a newline. *)
Definition getline (s : str) : option (str * str) :=
  match s with
  | [] => None
  | _ => match Names.split_first newline s with Some (line, rest) => Some (line, rest) | None => Some (s, []) end
  end.

Fixpoint span_word (s : str) : str * str :=
  match s with
  | b :: s' => if Names.is_space b then ([], s) else let '(w, r) := span_word s' in (b :: w, r)
  | [] => ([], [])
  end.

(** [ss >> word], into an empty string. *)
Definition read_word (s : str) : str * str := span_word (Names.skip_space s).

(** [std::getline(ss >> std::ws, val)], into an empty string. *)
Definition read_rest (s : str) : str :=
  match getline (Names.skip_space s) with Some (line, _) => line | None => [] end.

(** ** Text *)

Definition color (code text : string) : str := (x1b :: bs "[" ++ bs code ++ bs "m") ++ bs text ++ x1b :: bs "[0m".
Definition quoted (s : str) : str := bs "'" ++ s ++ bs "'".

Definition rule : str := bs "=======================================================" ++ nl.

Definition help_text : str :=
  nl ++ rule ++
  bs "  ⚡ LSM-Tree Engine Interactive Command-Line Tool" ++ nl ++
  rule ++
  bs " Commands:" ++ nl ++
  bs "  put <key> <value>   - Insert or update a key-value pair" ++ nl ++
  bs "  get <key>           - Query value for a key" ++ nl ++
  bs "  del <key>           - Delete key (writes a tombstone)" ++ nl ++
  bs "  scan <start> [end]  - List live keys in [start, end), up to 100" ++ nl ++
  bs "  flush               - Manually flush MemTable to SSTable on disk" ++ nl ++
  bs "  stats               - Show current RAM MemTable & Disk SSTable stats" ++ nl ++
  bs "  help                - Display this help message" ++ nl ++
  bs "  exit / quit         - Exit interactive CLI" ++ nl ++
  rule ++ nl.

Definition prompt : str := bs "lsm-db> ".
Definition goodbye : str := bs "Closing database. Goodbye!" ++ nl.
Definition usage_put : str := bs "Usage: put <key> <value>" ++ nl.
Definition usage_get : str := bs "Usage: get <key>" ++ nl.
Definition usage_del : str := bs "Usage: del <key>" ++ nl.
Definition usage_scan : str := bs "Usage: scan <start> [end]" ++ nl.

Definition stored_text (key val : str) : str :=
  bs "  " ++ color "32" "[OK]" ++ bs " Stored " ++ quoted key ++ bs " => " ++ quoted val ++
  bs " (WAL logged & MemTable updated)" ++ nl.
Definition found_text (key : str) (res : option str) : str :=
  match res with
  | Some v => bs "  " ++ color "32" "[FOUND]" ++ bs " Key " ++ quoted key ++ bs " => " ++ quoted v ++ nl
  | None => bs "  " ++ color "31" "[NOT FOUND]" ++ bs " Key " ++ quoted key ++ bs " does not exist (or was deleted)" ++ nl
  end.
Definition deleted_text (key : str) : str :=
  bs "  " ++ color "33" "[DELETED]" ++ bs " Key " ++ quoted key ++ bs " marked for deletion" ++ nl.
Definition row_text (r : str * str) : str := bs "  " ++ r.1 ++ bs " => " ++ quoted r.2 ++ nl.

Definition kMaxRows : Z := 100.

Definition rows_text (rows : list (str * str)) : str :=
  mjoin (row_text <$> rows) ++
  bs "  " ++ (x1b :: bs "[32m[") ++ Names.decimal (zlen rows) ++ bs " KEYS]" ++ (x1b :: bs "[0m") ++
  (if zlen rows =? kMaxRows then bs " (limit reached)" else []) ++ nl.
Definition flushed_text : str :=
  bs "  " ++ color "32" "[FLUSHED]" ++ bs " Active MemTable written out to SSTable on disk!" ++ nl.
Definition stats_text (entries tables : Z) : str :=
  bs "  - MemTable Entries: " ++ Names.decimal entries ++ nl ++
  bs "  - Active SSTables on Disk: " ++ Names.decimal tables ++ nl.
Definition unknown_text (cmd : str) : str :=
  bs "Unknown command: " ++ quoted cmd ++ bs ". Type 'help' for command list." ++ nl.

(** ** Commands *)

Section tool.
Context {Mt : Type} `{!MemtableOps Mt} {W D : Type} `{!LogOps W D}.
Abbreviation eng := (engine Mt W).

(** Operations that also write to standard output. *)
Definition C (A : Type) : Type := eng -> world -> str -> result A * eng * world * str.

#[export] Instance C_ret : MRet C := fun A a e w out => (Ok a, e, w, out).
#[export] Instance C_bind : MBind C := fun A B f m e w out =>
  match m e w out with
  | (Ok a, e, w, out) => f a e w out
  | (Throw x, e, w, out) => (Throw x, e, w, out)
  | (Crashed, e, w, out) => (Crashed, e, w, out)
  | (Undefined, e, w, out) => (Undefined, e, w, out)
  end.

Definition print (text : str) : C unit := fun e w out => (Ok tt, e, w, out ++ text).
Definition db {A} (m : E Mt W A) : C A := fun e w out => let '(r, e, w) := m e w in (r, e, w, out).

(** One line that is not empty; the result says whether the loop goes on. *)
Definition execute (line : str) : C bool :=
  let '(cmd, ss) := read_word line in
  if bool_decide (cmd = bs "exit") || bool_decide (cmd = bs "quit") then
    print goodbye ;; mret false
  else if bool_decide (cmd = bs "help") then
    print help_text ;; mret true
  else if bool_decide (cmd = bs "put") then
    let '(key, ss) := read_word ss in
    let val := read_rest ss in
    if bool_decide (key = []) || bool_decide (val = []) then print usage_put ;; mret true else
    db (put key val) ;; print (stored_text key val) ;; mret true
  else if bool_decide (cmd = bs "get") then
    let '(key, _) := read_word ss in
    if bool_decide (key = []) then print usage_get ;; mret true else
    res ← db (get key); print (found_text key res) ;; mret true
  else if bool_decide (cmd = bs "del") then
    let '(key, _) := read_word ss in
    if bool_decide (key = []) then print usage_del ;; mret true else
    db (del key) ;; print (deleted_text key) ;; mret true
  else if bool_decide (cmd = bs "scan") then
    let '(start, ss) := read_word ss in
    let '(end_, _) := read_word ss in
    if bool_decide (start = []) then print usage_scan ;; mret true else
    rows ← db (scan start (if bool_decide (end_ = []) then None else Some end_) kMaxRows);
    print (rows_text rows) ;; mret true
  else if bool_decide (cmd = bs "flush") then
    db flush ;; print flushed_text ;; mret true
  else if bool_decide (cmd = bs "stats") then
    n ← db memtableSize; k ← db sstableCount; print (stats_text n k) ;; mret true
  else
    print (unknown_text cmd) ;; mret true.

(** The loop; every line takes at least one byte of the input. *)
Fixpoint session (fuel : nat) (input : str) : C unit :=
  match fuel with
  | O => db (lift (of_option None))
  | S fuel =>
      print prompt ;;
      match getline input with
      | None => mret tt
      | Some (line, input) =>
          if bool_decide (line = []) then session fuel input else
          go ← execute line;
          if (go : bool) then session fuel input else mret tt
      end
  end.

Definition default_path : str := bs "/tmp/lsm_interactive_db".
Definition db_path (argv : list str) : str := match argv with _ :: p :: _ => p | _ => default_path end.
Definition opening_text (path : str) : str := bs "Opening LSM-Tree Database at: " ++ path ++ bs " ..." ++ nl.
Definition opened_text : str := bs "Database opened successfully!" ++ nl.

(** [main]: an exception that escapes ends the process without the destructor;
    otherwise the engine is destroyed and leaves its log. *)
Definition main (argv : list str) (input : str) (g : Rng) (d : D) (w : world) : result D * world * str :=
  let path := db_path argv in
  let out := opening_text path in
  match construct path Memtable.DEFAULT_MAX_BYTES false g d w with
  | (Ok e, w) =>
      match (print opened_text ;; print help_text ;; session (S (length input)) input) e w out with
      | (Ok _, e, w, out) => let '(r, w) := destruct_ e w in (r, w, out)
      | (Throw x, _, w, out) => (Throw x, w, out)
      | (Crashed, _, w, out) => (Crashed, w, out)
      | (Undefined, _, w, out) => (Undefined, w, out)
      end
  | (Throw x, w) => (Throw x, w, out)
  | (Crashed, w) => (Crashed, w, out)
  | (Undefined, w) => (Undefined, w, out)
  end.

End tool.
End Cli.
