(* ===== verification/CliSpec.v ===== *)
(** * The command line tool shows a map

    What a line means ([parse]), what a session may print for a map
    ([transcript]), and that the tool prints exactly that, over the engine's
    theorems: from one run of the process to the next. *)

From S2P Require Import Prelude WalFormat Kernel BlockCache Fault Memtable World Names TableFormat SSTable Layers Compaction CompactionSpec CompactionRun Store Scan Replay LogSpec WalWriter WalDisk WalLog Engine EngineSpec EngineWrite EngineRecovery EngineLife Cli.
Open Scope Z_scope.

Module CliSpec.
Import TableFormat Layers CompactionRun Store Replay Kernel WalLog Engine EngineSpec EngineWrite EngineRecovery EngineLife Cli.

(** ** What a line says *)

Inductive command :=
  | Exit
  | Help
  | Usage (text : str)
  | Do (o : op)
  | Stats
  | Unknown (cmd : str).

Definition parse (line : str) : command :=
  let '(cmd, ss) := read_word line in
  let '(arg, ss) := read_word ss in
  if bool_decide (cmd = bs "exit") || bool_decide (cmd = bs "quit") then Exit
  else if bool_decide (cmd = bs "help") then Help
  else if bool_decide (cmd = bs "put") then
    let val := read_rest ss in
    if bool_decide (arg = []) || bool_decide (val = []) then Usage usage_put else Do (Put arg val)
  else if bool_decide (cmd = bs "get") then
    if bool_decide (arg = []) then Usage usage_get else Do (Get arg)
  else if bool_decide (cmd = bs "del") then
    if bool_decide (arg = []) then Usage usage_del else Do (Del arg)
  else if bool_decide (cmd = bs "scan") then
    let '(end_, _) := read_word ss in
    if bool_decide (arg = []) then Usage usage_scan
    else Do (ScanRange arg (if bool_decide (end_ = []) then None else Some end_) kMaxRows)
  else if bool_decide (cmd = bs "flush") then Do Flush
  else if bool_decide (cmd = bs "stats") then Stats
  else Unknown cmd.

(** What is printed for an operation that returned. *)
Definition answer_text (o : op) (a : answer) : str :=
  match o, a with
  | Put k v, _ => stored_text k v
  | Del k, _ => deleted_text k
  | Get k, Value v => found_text k v
  | ScanRange _ _ _, Pairs l => rows_text l
  | Flush, _ => flushed_text
  | _, _ => []
  end.

(** The operations of a session, in order. *)
Fixpoint operations (fuel : nat) (input : str) : list op :=
  match fuel with
  | O => []
  | S fuel =>
      match getline input with
      | None => []
      | Some (line, input) =>
          if decide (line = []) then operations fuel input else
          match parse line with
          | Exit => []
          | Do o => o :: operations fuel input
          | _ => operations fuel input
          end
      end
  end.

Lemma exit_or_not c : c = Exit \/ c <> Exit.
Proof. destruct c; (by left) || (by right). Qed.

(** ** What a session shows of a map *)

Definition shows (c : command) (m : gmap str str) (text : str) : Prop :=
  match c with
  | Exit => text = goodbye
  | Help => text = help_text
  | Usage t => text = t
  | Do o => exists a, answers o m a /\ text = answer_text o a
  | Stats => exists entries tables, text = stats_text entries tables
  | Unknown cmd => text = unknown_text cmd
  end.

Definition after_command (c : command) (m : gmap str str) : gmap str str :=
  match c with Do o => after_op o m | _ => m end.

(** [transcript input m text m']: with [m] stored, the lines [input] lead to the
    output [text] and to [m']. *)
Inductive transcript : str -> gmap str str -> str -> gmap str str -> Prop :=
  | tr_end input m : getline input = None -> transcript input m prompt m
  | tr_blank input rest m text m' :
      getline input = Some ([], rest) -> transcript rest m text m' -> transcript input m (prompt ++ text) m'
  | tr_exit input line rest m :
      getline input = Some (line, rest) -> parse line = Exit -> transcript input m (prompt ++ goodbye) m
  | tr_command input line rest m said text m' :
      getline input = Some (line, rest) -> line <> [] -> parse line <> Exit -> shows (parse line) m said ->
      transcript rest (after_command (parse line) m) text m' ->
      transcript input m (prompt ++ said ++ text) m'.

Section tool.
Context {Mt : Type} `{!MemtableOps Mt} `{!MemtableSpec Mt} {W D : Type} `{!LogOps W D} `{!LogSpec W D}.
Abbreviation eng := (engine Mt W).
Implicit Types (e : eng) (w : world) (xs : list layer) (l : list entry) (m : gmap str str).

(** ** A line is executed as it is parsed *)

Definition run_command (c : command) : C (Mt := Mt) (W := W) bool :=
  match c with
  | Exit => print goodbye ;; mret false
  | Help => print help_text ;; mret true
  | Usage t => print t ;; mret true
  | Do o => a ← db (exec o); print (answer_text o a) ;; mret true
  | Stats => n ← db memtableSize; k ← db sstableCount; print (stats_text n k) ;; mret true
  | Unknown cmd => print (unknown_text cmd) ;; mret true
  end.

Lemma execute_parse line e w out : execute line e w out = run_command (parse line) e w out.
Proof.
  unfold execute, parse. destruct (read_word line) as [cmd ss]. destruct (read_word ss) as [arg ss'].
  destruct (read_word ss') as [arg2 ss''].
  repeat (match goal with |- (if ?b then _ else _) _ _ _ = _ => destruct b end; [try done|]); try done.
  all: try (match goal with |- (let _ := _ in _) _ _ _ = _ => cbv zeta end).
  all: try (match goal with |- (if ?b then _ else _) _ _ _ = _ => destruct b; [done|] end).
  all: cbn [run_command exec]; unfold mbind, mret, C_bind, C_ret, E_bind, E_ret, db, print; cbn.
  - by destruct (put _ _ _ _) as [[[]]].
  - by destruct (get _ _ _) as [[[]]].
  - by destruct (del _ _ _) as [[[]]].
  - by destruct (scan _ _ _ _ _) as [[[]]].
  - by destruct (flush _ _) as [[[]]].
Qed.

(** ** Reading lines *)

Lemma split_first_length c s a b : Names.split_first c s = Some (a, b) -> (length b < length s)%nat.
Proof.
  revert a. induction s as [|x s IH]; intros a; simpl; [done|]. destruct (x =? c)%byte; [intros [= _ <-]; lia|].
  destruct (Names.split_first c s) as [[a' b']|]; simpl; [|done]. intros [= _ <-]. specialize (IH _ eq_refl). lia.
Qed.

Lemma getline_length s line rest : getline s = Some (line, rest) -> (length rest < length s)%nat.
Proof.
  unfold getline. destruct s as [|b s]; [done|].
  destruct (Names.split_first newline (b :: s)) as [[a r]|] eqn:E.
  - intros [= _ <-]. by eapply split_first_length.
  - intros [= _ <-]. simpl. lia.
Qed.

(** ** A session *)

(** An engine in use without failures, that stands for [m]. *)
Definition serves e w m : Prop :=
  Fault.g_armed (faults w) = false /\ exists xs l s p, running true e w xs l s p /\ models m xs l.

Lemma exec_serves o e w m ops :
  serves e w m -> all_roomy true (o :: ops) e w ->
  exists a e' w', exec o e w = (Ok a, e', w') /\ answers o m a /\ serves e' w' (after_op o m) /\
    all_roomy true ops e' w' /\ frame e w e' w'.
Proof.
  intros (Ha & xs & l & s & p & Hrun & Hm) [Ho Hops].
  pose proof (exec_spec true o m e w xs l s p Hrun (fun _ => Ha) Hm Ho) as H. unfold wpe in H.
  destruct (exec o e w) as [[r e'] w']. cbn [fst snd] in H. destruct H as (Hfr & Hok & He).
  destruct (Hok eq_refl) as [a ->]. destruct He as (Hans & xs' & l' & s' & p' & Hrun' & Hm' & _).
  exists a, e', w'. split_and!; [done|done| |done|done]. split; [by apply (fr_armed _ _ _ _ Hfr)|].
  by exists xs', l', s', p'.
Qed.

(** A command, but for [exit]. *)
Lemma command_serves c e w m out ops :
  serves e w m -> c <> Exit -> all_roomy true (match c with Do o => [o] | _ => [] end ++ ops) e w ->
  exists said e' w', run_command c e w out = (Ok true, e', w', out ++ said) /\ shows c m said /\
    serves e' w' (after_command c m) /\ all_roomy true ops e' w' /\ frame e w e' w'.
Proof.
  intros Hs Hc Hr. destruct c as [| |t|o| |cmd]; try done; cbn [app] in Hr.
  - by exists help_text, e, w.
  - by exists t, e, w.
  - destruct (exec_serves _ _ _ _ _ Hs Hr) as (a & e' & w' & He & Ha & Hs' & Hr' & Hfr).
    exists (answer_text o a), e', w'. split_and!; [|by exists a|done..].
    cbn [run_command]. unfold mbind, C_bind, db. by rewrite He.
  - eexists _, e, w. split_and!; [done|by eexists _, _|done..].
  - by exists (unknown_text cmd), e, w.
Qed.

Lemma session_serves fuel : forall input m e w out ops,
  (length input < fuel)%nat -> serves e w m -> all_roomy true (operations fuel input ++ ops) e w ->
  exists text e' w' m', session fuel input e w out = (Ok tt, e', w', out ++ text) /\
    transcript input m text m' /\ serves e' w' m' /\ all_roomy true ops e' w' /\ frame e w e' w'.
Proof.
  induction fuel as [|fuel IH]; intros input m e w out ops Hf Hs Hr; [lia|].
  cbn [session operations] in *. unfold mbind at 1, C_bind at 1, print at 1.
  destruct (getline input) as [[line rest]|] eqn:Hl.
  - pose proof (getline_length _ _ _ Hl) as Hlen. destruct (decide (line = [])) as [->|Hne].
    + rewrite bool_decide_true by done.
      destruct (IH rest m e w (out ++ prompt) ops) as (text & e' & w' & m' & Hx & Ht & ? & ? & ?); [lia|done..|].
      exists (prompt ++ text), e', w', m'. rewrite Hx, <- app_assoc. split_and!; try done. by eapply tr_blank.
    + rewrite bool_decide_false by done. unfold mbind at 1, C_bind at 1. rewrite execute_parse.
      destruct (exit_or_not (parse line)) as [Hx|Hx].
      { rewrite Hx in *. exists (prompt ++ goodbye), e, w, m. cbn [run_command].
        split_and!; [|by eapply tr_exit|done..]. unfold mbind, C_bind, print. by rewrite <- app_assoc. }
      destruct (command_serves (parse line) e w m (out ++ prompt) (operations fuel rest ++ ops))
        as (said & e1 & w1 & -> & Hsh & Hs1 & Hr1 & Hf1); [done|done| |].
      { by destruct (parse line). }
      destruct (IH rest (after_command (parse line) m) e1 w1 ((out ++ prompt) ++ said) ops) as (text & e' & w' & m' & Hse & Ht & Hs' & Hr' & Hf'); [lia|done..|].
      exists (prompt ++ said ++ text), e', w', m'. rewrite Hse, <- !app_assoc.
      split_and!; [done|by eapply tr_command|done|done|by eapply frame_trans].
  - exists prompt, e, w, m. split_and!; [done|by apply tr_end|done..].
Qed.

(** ** Runs of the tool *)

(** What a run of the tool starts on: the files of a store for [m], its log, and a
    working system. *)
Record store_of (path : str) (d : D) w m : Prop := {
  so_armed : Fault.g_armed (faults w) = false;
  so_ready : disk_ready true d;
  so_size : disk_size d <= WAL.MAX_RECOVERY_BYTES;
  so_disk : exists xs es, on_disk path d w xs es /\ models m xs (mem_of es)
}.

Lemma construct_serves path g d w m :
  store_of path d w m ->
  exists e, construct (Mt := Mt) path Memtable.DEFAULT_MAX_BYTES false g d w = (Ok e, w) /\
    serves e w m /\ data_dir_ e = path.
Proof.
  intros [Ha Hready Hsz (xs & es & Hdisk & Hm)].
  pose proof (construct_spec true path Memtable.DEFAULT_MAX_BYTES false g d w xs es Hdisk Hready) as Hc. unfold wp in Hc.
  destruct (construct _ _ _ _ _ _) as [r w1]. cbn [fst snd] in Hc. destruct Hc as (-> & Hok & Hr).
  destruct (Hok eq_refl Hsz) as [e ->]. exists e. destruct Hr as (Hrun & Hdir & _).
  split_and!; [done| |done]. split; [done|]. by exists xs, (mem_of es), es, [].
Qed.

Lemma destruct_stores e w m :
  serves e w m -> all_roomy true [Flush] e w ->
  exists d w', destruct_ e w = (Ok d, w') /\ forall f, Fault.g_armed f = false ->
    disk_size d <= WAL.MAX_RECOVERY_BYTES -> store_of (data_dir_ e) d (reborn f w') m.
Proof.
  intros (Ha & xs & l & s & p & Hrun & Hm) [Hfl _].
  pose proof (destruct_spec e w xs l s p Hrun Ha (Hfl _ _ (rn_inv _ _ _ _ _ _ _ Hrun))) as H. unfold wp in H.
  destruct (destruct_ e w) as [r w']. cbn [fst snd] in H.
  destruct H as (d & xs' & es & -> & Hready & _ & Hst & Hd & Hrec & Hv). exists d, w'. split; [done|].
  intros f Hf Hsz. split; [done..|]. exists xs', es. split; [|intros k; by rewrite Hv].
  split; [exact Hst|exact Hd|exact Hrec|apply global_coherent|done].
Qed.

(** C8: The tool shows a map, from run to run: started on a store for [m], on a
    system where no call fails, it reads all its input, prints its banner and a
    transcript of the lines for [m] (values and rows exactly those of the map
    so far), exits normally, and leaves a store for the map it ended with, on which
    it can be started again. *)
Theorem tool_shows_map argv input g d w m :
  store_of (db_path argv) d w m ->
  (forall e, construct (Mt := Mt) (db_path argv) Memtable.DEFAULT_MAX_BYTES false g d w = (Ok e, w) ->
     all_roomy true (operations (S (length input)) input ++ [Flush]) e w) ->
  exists d' w' text m',
    main (Mt := Mt) argv input g d w
      = (Ok d', w', opening_text (db_path argv) ++ opened_text ++ help_text ++ text) /\
    transcript input m text m' /\
    forall f, Fault.g_armed f = false -> disk_size d' <= WAL.MAX_RECOVERY_BYTES ->
      store_of (db_path argv) d' (reborn f w') m'.
Proof.
  intros Hst Hroom. destruct (construct_serves _ g _ _ _ Hst) as (e & Hc & Hs & Hdir). specialize (Hroom e Hc).
  destruct (session_serves (S (length input)) input m e w
    ((opening_text (db_path argv) ++ opened_text) ++ help_text) [Flush]) as (text & e' & w' & m' & Hse & Ht & Hs' & Hr' & Hf');
    [lia|done..|].
  destruct (destruct_stores e' w' m' Hs' Hr') as (d' & w2 & Hd & Hnext).
  exists d', w2, text, m'. split_and!; [|done|].
  - unfold main. rewrite Hc. unfold mbind, C_bind, print. rewrite Hse, Hd. by rewrite <- !app_assoc.
  - intros f Hf Hsz. rewrite <- Hdir, <- (fr_dir _ _ _ _ Hf'). by apply Hnext.
Qed.

End tool.

(** ** Lines that say something *)

Definition word (s : str) : Prop := s <> [] /\ forall b, b ∈ s -> Names.is_space b = false.

Lemma span_word_app s r :
  (forall b, b ∈ s -> Names.is_space b = false) ->
  (forall b, List.hd_error r = Some b -> Names.is_space b = true) -> span_word (s ++ r) = (s, r).
Proof.
  intros Hs Hr. induction s as [|b s IH]; simpl.
  - destruct r as [|b r]; [done|]. simpl. by rewrite (Hr b).
  - rewrite (Hs b) by set_solver. by rewrite IH by set_solver.
Qed.

(** A word, after any white space and before white space or the end. *)
Lemma read_word_app sp s r :
  (forall b, b ∈ sp -> Names.is_space b = true) -> word s ->
  (forall b, List.hd_error r = Some b -> Names.is_space b = true) -> read_word (sp ++ s ++ r) = (s, r).
Proof.
  intros Hsp [Hne Hs] Hr. unfold read_word. induction sp as [|b sp IH]; simpl.
  - destruct s as [|b s]; [done|]. cbn [app Names.skip_space]. rewrite (Hs b) by set_solver.
    by apply (span_word_app (b :: s)).
  - rewrite (Hsp b) by set_solver. apply IH. set_solver.
Qed.

Definition sp : str := bs " ".

Lemma sp_space b : b ∈ sp -> Names.is_space b = true.
Proof. by intros ->%list_elem_of_singleton. Qed.
Lemma sp_head s b : List.hd_error (sp ++ s) = Some b -> Names.is_space b = true.
Proof. by intros [= <-]. Qed.

(** A word on its own line position. *)
Lemma read_word_sp s r :
  word s -> (forall b, List.hd_error r = Some b -> Names.is_space b = true) -> read_word (sp ++ s ++ r) = (s, r).
Proof. intros. by apply (read_word_app sp); [apply sp_space|..]. Qed.
Lemma read_word_first s r :
  word s -> (forall b, List.hd_error r = Some b -> Names.is_space b = true) -> read_word (s ++ r) = (s, r).
Proof. intros. by apply (read_word_app []); [intros b ?%not_elem_of_nil|..]. Qed.

Lemma split_first_none c s : c ∉ s -> Names.split_first c s = None.
Proof.
  induction s as [|b s IH]; intros Hc; simpl; [done|]. destruct (Byte.eqb b c) eqn:E.
  - apply Byte.byte_dec_bl in E. set_solver.
  - by rewrite IH by set_solver.
Qed.

(** The rest of a line, from its first byte that is not white space. *)
Lemma read_rest_sp v :
  v <> [] -> (forall b, List.hd_error v = Some b -> Names.is_space b = false) -> newline ∉ v -> read_rest (sp ++ v) = v.
Proof.
  intros Hne Hv Hnl. unfold read_rest. destruct v as [|b v]; [done|].
  assert (Names.skip_space (sp ++ b :: v) = b :: v) as ->.
  { change (Names.skip_space (sp ++ b :: v)) with (Names.skip_space (b :: v)). simpl. by rewrite Hv. }
  unfold getline. by rewrite split_first_none.
Qed.

(** Every operation can be entered, on keys that are words: the line written
    for it is parsed back to it.  Values keep inner and trailing spaces; a key or
    a bound with a space in it, or a value that starts with one, has no line. *)
Theorem lines_parsed k v e :
  word k -> word e -> v <> [] -> (forall b, List.hd_error v = Some b -> Names.is_space b = false) -> newline ∉ v ->
  parse (bs "put" ++ sp ++ k ++ sp ++ v) = Do (Put k v) /\
  parse (bs "get" ++ sp ++ k) = Do (Get k) /\
  parse (bs "del" ++ sp ++ k) = Do (Del k) /\
  parse (bs "scan" ++ sp ++ k) = Do (ScanRange k None kMaxRows) /\
  parse (bs "scan" ++ sp ++ k ++ sp ++ e) = Do (ScanRange k (Some e) kMaxRows).
Proof.
  intros Hk He Hv Hv0 Hnl.
  assert (forall s, s ∈ [bs "put"; bs "get"; bs "del"; bs "scan"] -> word s) as Hw.
  { intros s Hs. repeat (apply elem_of_cons in Hs as [->|Hs]);
      try (split; [done|]; intros b Hb; repeat (apply elem_of_cons in Hb as [->|Hb]; [done|]); by apply not_elem_of_nil in Hb).
    by apply not_elem_of_nil in Hs. }
  assert (forall b, List.hd_error (@nil byte) = Some b -> Names.is_space b = true) as Hnil by done.
  pose proof (proj1 Hk) as Hk0. pose proof (proj1 He) as He0.
  pose proof (read_word_sp k [] Hk Hnil) as Hk1. rewrite app_nil_r in Hk1.
  pose proof (read_word_sp e [] He Hnil) as He1. rewrite app_nil_r in He1.
  pose proof (fun s => read_word_sp k (sp ++ s) Hk (sp_head s)) as Hks.
  pose proof (fun c s H => read_word_first c (sp ++ s) (Hw c H) (sp_head s)) as Hc.
  split_and!; unfold parse; rewrite Hc by set_solver; rewrite ?Hk1, ?Hks; cbn [orb].
  - rewrite (read_rest_sp v) by done. by rewrite (bool_decide_eq_false_2 (k = [])), (bool_decide_eq_false_2 (v = [])).
  - by rewrite (bool_decide_eq_false_2 (k = [])).
  - by rewrite (bool_decide_eq_false_2 (k = [])).
  - by rewrite (bool_decide_eq_false_2 (k = [])).
  - rewrite He1. by rewrite (bool_decide_eq_false_2 (k = [])), (bool_decide_eq_false_2 (e = [])).
Qed.
(** ** Witnesses *)

Lemma nothing_stored path : store_of (W := WalWriter.t Kernel.scripted) path no_log (fresh_world Fault.init) ∅.
Proof.
  split; [done|by apply quiet_ready|done|]. exists [], []. split.
  - split; [|exists []; split; [apply WalDisk.image_nil|done]|done|apply global_coherent|done].
    split; [constructor|constructor|]. intros p [c Hp]. done.
  - intros k. by rewrite lookup_empty.
Qed.

Definition argv1 : list str := [bs "lsm_cli"; EngineLife.db].
Definition lines1 : str :=
  bs "put  b  two words" ++ nl ++ bs "put a 1" ++ nl ++ nl ++ bs "flush" ++ nl ++ bs "del a" ++ nl ++ bs "put c" ++ nl ++
  bs "scan a" ++ nl ++ bs "stats" ++ nl ++ bs "exit" ++ nl ++ bs "put never 1".
Definition run1 := main (Mt := Memtable.t) (W := WalWriter.t Kernel.scripted) argv1 lines1 sample_rng no_log (fresh_world Fault.init).

Lemma tool_shows_map_witness :
  exists d' w' text m', run1 = (Ok d', w', opening_text EngineLife.db ++ opened_text ++ help_text ++ text) /\
    transcript lines1 ∅ text m' /\ store_of (W := WalWriter.t Kernel.scripted) EngineLife.db d' (reborn Fault.init w') m'.
Proof.
  destruct (tool_shows_map argv1 lines1 sample_rng no_log (fresh_world Fault.init) ∅) as (d' & w' & text & m' & Hr & Ht & Hn).
  - apply nothing_stored.
  - intros e He. apply check_all_spec. vm_compute in He. injection He as <-. vm_compute. reflexivity.
  - exists d', w', text, m'. split_and!; [exact Hr|done|]. apply Hn; [done|].
    assert (run1.1.1 = Ok d') as Hd by (unfold run1; by rewrite Hr).
    vm_compute in Hd. injection Hd as <-. vm_compute. congruence.
Defined.

(** What that run prints, and the next one on the files it left. *)
Example run1_text :
  run1.2 = opening_text EngineLife.db ++ opened_text ++ help_text ++
    prompt ++ stored_text (bs "b") (bs "two words") ++ prompt ++ stored_text (bs "a") (bs "1") ++
    prompt ++ prompt ++ flushed_text ++ prompt ++ deleted_text (bs "a") ++ prompt ++ usage_put ++
    prompt ++ rows_text [(bs "b", bs "two words")] ++ prompt ++ stats_text 1 1 ++ prompt ++ goodbye.
Proof. vm_compute. reflexivity. Qed.

Example run2_text :
  match run1 with
  | (Ok d, w, _) =>
      (main (Mt := Memtable.t) argv1 (bs "get b" ++ nl ++ bs "get a") sample_rng d (reborn Fault.init w)).2
  | _ => []
  end = opening_text EngineLife.db ++ opened_text ++ help_text ++
    prompt ++ found_text (bs "b") (Some (bs "two words")) ++ prompt ++ found_text (bs "a") None ++ prompt.
Proof. vm_compute. reflexivity. Qed.

(** [flush] without entries writes no table and says that it did. *)
Example nothing_flushed :
  let '(_, w, out) := main (Mt := Memtable.t) (W := WalWriter.t Kernel.scripted) argv1 (bs "flush") sample_rng no_log (fresh_world Fault.init) in
  out = opening_text EngineLife.db ++ opened_text ++ help_text ++ prompt ++ flushed_text ++ prompt /\ files w = ∅.
Proof. vm_compute. by split. Qed.

Lemma lines_parsed_witness : parse (bs "put" ++ sp ++ bs "k" ++ sp ++ bs "some value ") = Do (Put (bs "k") (bs "some value ")).
Proof.
  assert (word (bs "k")) as Hk by (split; [done|]; by intros b ->%list_elem_of_singleton).
  apply (lines_parsed (bs "k") (bs "some value ") (bs "k") Hk Hk); [done|by intros b [= <-]|].
  intros H. repeat (apply elem_of_cons in H as [H|H]; [discriminate H|]). by apply not_elem_of_nil in H.
Defined.

End CliSpec.
